(* ===== verification/_CoqProject ===== *)
-Q . S2P
Prelude.v
GoText.v
Errors.v
Config.v
Amqp.v
Message.v
Topology.v
Settlement.v
Delivery.v
RoundTrip.v
Tracker.v
Observation.v
Producer.v
Publish.v
Events.v
TopologyApply.v
Consumer.v
ConsumerFlow.v
ConsumerRun.v
ConsumerSafety.v
ConsumerQueue.v
ConsumerWake.v
Open.v
Dial.v
Wire.v
ProducerSystem.v
ProducerCorrelation.v
ProducerShutdown.v
