(* ===== verification/Prelude.v ===== *)
(** * rabbitmqqueue: a verification development

    The repository is a Go package for RabbitMQ with publisher confirms, bounded
    consumers and declared topologies.  Its parts, and how they interact:

    - a configuration is validated and copied (config.go, topology.go, message.go,
      delivery.go), so that every later part works on bounded data;
    - a producer (producer.go, producer_open.go) admits a bounded number of
      publications, registers each with the publish tracker (publish_tracker.go),
      hands it to the AMQP client and waits for its outcome; one event goroutine
      per connection generation feeds the broker's returns and confirmations into
      the tracker, and replaces the generation when it fails;
    - a consumer (consumer.go, consumer_open.go) receives deliveries, converts them
      within a budget (delivery.go), keeps them in a ring, hands them to a bounded
      number of workers and settles each with what the requeue bound (settlement.go)
      leaves of the handler's request; it can be paused, drained and shut down, and
      replaces its generation when it fails;
    - [ApplyTopology] (topology_apply.go) checks or declares a topology with
      bounded attempts;
    - producers and consumers report through a lossy stream (observation.go) and
      three health reports (health.go).

    ** Files

    - [Prelude]: notations for Go's control flow, machine integers, byte slices,
      times, and the lemmas and hint databases the other files share.
    - [GoText]: UTF-8 decoding, [strings.TrimSpace], [strconv], and the two text
      tests of the package, [invalidIdentity] and [containsControl].
    - [Errors]: the sentinels of errors.go, [errors.Is] and [errors.Join].
    - [Config]: config.go, and credentials, sessions, backoff and rotation of
      producer_open.go.
    - [Amqp]: the client library's data as far as the package reads or writes it.
    - [Message]: message.go, [ownPublication] and [amqpPublishing] of producer.go.
    - [Topology]: topology.go, with the argument builders of topology_apply.go.
    - [Settlement]: settlement.go and delivery_settlement.go.
    - [Delivery]: delivery.go, and [boundedSettlement].
    - [RoundTrip]: the composition of [amqpPublishing] and [deliveryFromAMQP].
    - [Tracker], module [PublishTracker]: publish_tracker.go and result.go.  The
      attempts are a heap, the two maps of the tracker hold pointers into it.
    - [Observation]: observation.go, at the grain of its atomic actions.
    - [Producer]: the fields of a producer guarded by its mutex, every method on
      them, module [ContextMutex], and [producer_step], which interleaves them.
    - [Publish]: [Publish], [PublishAsync], [PublishBatch], [publishAdmitted], with
      an interference of the other goroutines at every point where they can run.
    - [Events]: an iteration of [runGenerationWith], and [closeProducerGeneration].
    - [TopologyApply]: topology_apply.go.
    - [Consumer]: consumer.go as definitions, and [consumer_step], which interleaves
      dispatcher, workers, supervisor and the callers of the public methods;
      [ConsumerFlow] and [ConsumerRun] hold its invariants, [ConsumerSafety] the
      theorems on every run and an executable scheduler, [ConsumerQueue] a reference
      dispatcher with a plain queue and the equivalence of the code's ring with it,
      [ConsumerWake] the signals the dispatcher waits for and that it can drain.
    - [Open]: the attempt loops that open and recover producers and consumers, and
      the set-up of a consumer's generation.
    - [Dial]: amqp_client.go, channel_open.go and the dials of the three roles:
      address, TLS configuration, bounded handshake, and which connections stay open.
    - [Wire]: what the package hands to the client, typed as AMQP demands.
    - [ProducerSystem]: any number of publishers at the grain of the statements of
      [publishAdmitted], the event goroutine over generation after generation, the
      closers, [finishShutdown] and the client's calls, as one executable transition
      system; [ProducerCorrelation] holds its invariants and the theorems on what a
      reported outcome means, [ProducerShutdown] those on closing and termination.

    ** What the theorems show

    - Publishing: the tracker refines a table of attempts ([tracker_refines]); its
      operations never panic or block ([tracker_safe]); an attempt gets at most one
      outcome ([outcome_at_most_once]), a failed generation completes all
      ([failAll_completes]); a return wins over its confirmation ([return_prevails],
      [returns_before_confirm]); the caller's result fits its error, under every
      interference, and a [not_sent] means that nothing was sent unless another
      publisher ended this number ([publishAdmitted_sound],
      [cancellation_keeps_outcome], [PublishBatch_results]).
    - Producer: admission is bounded, closing and exhausted recovery are final, the
      health reports agree, blocking is coalesced, shutdown completes
      ([producer_admission_bounded] and its neighbours).
    - Producer as a whole: its runs are runs of the shared state
      ([system_refines]); a reported outcome is what the broker said of that very
      message ([publish_outcome_correlated]), what is reported as not sent was not
      sent ([publish_not_sent_sound]), each with the condition it needs and a run
      that shows why ([late_send_miscorrelated], [preflight_abandons_another]); every
      [Publish] can return by its own steps ([publish_always_returns]), every shutdown
      can complete once the client's close calls and a recovery in progress return
      ([producer_can_shut_down]), and every handle is closed exactly once
      ([producer_closes_once]).
    - Consumer, for every run: a delivery is settled at most once, on its own
      channel, in bounds ([consumer_settles_once]); order ([consumer_order]),
      bounds and absence of panics ([consumer_bounded]), admission
      ([consumer_admission_gate]), drain ([consumer_drain_complete]), results
      ([consumer_results]), stopping and health; the ring is a queue
      ([dispatcher_refines_queue]), no wake-up is lost ([consumer_no_lost_wakeup])
      and a drain can always end ([consumer_can_drain]).  [abandoned_drain_succeeds]
      is a run in which the code differs from the comment on [Drain].
    - Deliveries: what a handler sees is bounded ([deliveryFromAMQP_bounded]) and is
      what was published ([publish_deliver_round_trip]), except for exchange names
      with control characters ([control_exchange_asymmetry]); requeueing terminates
      ([requeues_bounded]); copies of a delivery agree ([AwaitSettlement_first]).
    - Topology and opening: only planned calls are made ([topology_calls_planned],
      [topology_success_complete]); the attempts end, rotate, wait the initial delay
      doubled each time and capped ([topology_attempts_bounded],
      [recovery_delay_closed_form]); nothing leaks ([producer_open_safe],
      [consumer_open_safe]), over the real dials too ([open_no_connection_leak]),
      which call the client only as the configuration says ([dial_safe],
      [address_determines_endpoint]).
    - Wire: everything handed to the client is typed as AMQP demands
      ([wire_well_typed]).
    - Validation: each [Validate] accepts exactly a declarative predicate, which uses
      none of the code's own checks ([ConnectionConfig_Validate_spec], [Publication_Validate_spec],
      [Topology_Validate_spec]), and the arguments of a queue determine it
      ([queueArguments_injective]).
    - Observations: no loss is silent ([stream_accounts_for_losses]).

    ** How the code is represented

    A Go function is a Rocq function.  A result [(T, error)] is a sum, an [error]
    an [option error].  A pointer the code shares is an index into a list or a heap.
    A call that would panic or block for ever has the result [None], so a theorem
    that shows [Some] excludes it.  Where the code waits (a channel, a timer, a
    context) or calls the client library, a credential provider, a handler or the
    random source, the definition takes the answer as an argument or from a script;
    the theorems hold for all answers.  A method that takes a mutex is one step; one
    that takes it several times is split there.  The order in which Go ranges over a
    map is an argument or shown not to matter.

    Bounds and fuel: [FormatUint] has twenty digits, enough for [2^64];
    [trim_right] has the length of its string, which every round shortens; the
    three loops that count their attempts ([attempt_loop]) have the configured number
    of them, as in the code.  The loops of [openProducerWith] and [applyTopologyWith]
    have no bound in the code: [endless_loop] and [apply_loop] have the result [None]
    when their fuel does not end them, and the theorems show that the configured
    number of attempts always does.  No transition system has fuel:
    [consumer_can_drain], [publish_always_returns] and [producer_can_shut_down] are
    proved with measures ([drain_measure], [pub_rank], [shutdown_measure]) that every
    chosen step decreases.  They show that a run to the end exists from every
    reachable state; that the scheduler takes it is fairness, and left to the Go
    runtime.

    Relied on from outside: the client numbers the publications of a channel in the
    order it transmits them ([env_gen]), reports success only for what it transmitted
    and a cancellation only for what it did not ([client_report]), and gives deliveries distinct tags
    ([fresh_delivery]); the broker confirms only numbers it was sent ([env_gen]);
    the broker carries a message unchanged ([carries]); a requeued message comes
    back marked as redelivered, with an acquired count that is reported always, and
    grows, or never, and with a larger delivery count, if any, when it was rejected
    ([redelivers]).

    Not modelled: doc.go, which is a comment.  PEM and key-pair parsing, the system
    roots and the client's handshake, a function of the address and configuration it
    is given, are parameters of [Dial]; the clock is scripted (a deadline is an
    event).  Handlers that panic or change the counters
    of the delivery they are given are left out.  The sequence numbers of
    [ProducerSystem] do not wrap (a channel would have to carry [2^64] publications).
    The settlement of an invalid delivery by the dispatcher is one step with the
    [select] that received it. *)

From Stdlib Require Export ZArith Lia.
From Stdlib Require Export Strings.Byte.
From stdpp Require Export base tactics list list_numbers numbers option strings gmap sorting.

(** ** Notation: the control flow of a Go function body *)

Declare Scope go_scope.
Delimit Scope go_scope with go.

(** [return_if c, v ;; k] is [if c { return v }; k]. *)
Notation "'return_if' c ',' v ';;' k" := (if (c : bool) then v else k)
  (at level 10, c at level 90, v at level 90, k at level 200,
   format "'return_if'  c ','  v  ';;' '//' k") : go_scope.

(** [try e ;; k] is [if err := e; err != nil { return err }; k]. *)
Notation "'try' e ';;' k" := (match e with Some err => Some err | None => k end)
  (at level 10, e at level 90, k at level 200,
   format "'try'  e  ';;' '//' k") : go_scope.

(** [bind x := e ;; k] is [x, err := e; if err != nil { return ..., err }; k], for
    a function that returns a value or an error. *)
Notation "'bind' x ':=' e ';;' k" := (match e with inl err => inl err | inr x => k end)
  (at level 10, x pattern, e at level 90, k at level 200,
   format "'bind'  x  ':='  e  ';;' '//' k") : go_scope.

(** Equality of two Go strings, as the code's [==]. *)
Infix "=s" := String.eqb (at level 70, no associativity) : go_scope.

Global Open Scope Z_scope.
Open Scope go_scope.

(** ** Machine integers

    A Go integer of width [w] is a [Z] in the range of its type.  Conversions
    and products that can leave the range are written with [wrap_u] and
    [wrap_s]; sums of lengths of values that live in memory together cannot
    reach [2^63] and are plain sums. *)

Definition wrap_u (w z : Z) : Z := z mod 2 ^ w.
Definition wrap_s (w z : Z) : Z := (z + 2 ^ (w - 1)) mod 2 ^ w - 2 ^ (w - 1).

Abbreviation uint8 := (wrap_u 8).
Abbreviation uint64 := (wrap_u 64).
Abbreviation int32 := (wrap_s 32).
Abbreviation int64 := (wrap_s 64).

Definition max_int64 : Z := 2 ^ 63 - 1.
Definition max_uint64 : Z := 2 ^ 64 - 1.

Definition is_int64 (z : Z) : Prop := - 2 ^ 63 <= z <= max_int64.
Definition is_uint64 (z : Z) : Prop := 0 <= z <= max_uint64.

Lemma wrap_u_small w z : 0 <= z < 2 ^ w → wrap_u w z = z.
Proof. intros. unfold wrap_u. by apply Z.mod_small. Qed.

Lemma wrap_u_range w z : 0 <= w → 0 <= wrap_u w z < 2 ^ w.
Proof. intros. unfold wrap_u. apply Z.mod_pos_bound. lia. Qed.

Lemma wrap_s_small w z : 0 < w → - 2 ^ (w - 1) <= z < 2 ^ (w - 1) → wrap_s w z = z.
Proof.
  intros Hw Hz. unfold wrap_s.
  assert (2 ^ w = 2 * 2 ^ (w - 1)) as Hpow.
  { rewrite <- Z.pow_succ_r by lia. f_equal. lia. }
  rewrite Z.mod_small; lia.
Qed.

Lemma uint64_small z : is_uint64 z → uint64 z = z.
Proof. unfold is_uint64, max_uint64. intros. apply wrap_u_small. lia. Qed.

Lemma int64_small z : is_int64 z → int64 z = z.
Proof. unfold is_int64, max_int64. intros. apply wrap_s_small; lia. Qed.

(** ** Slices, byte strings and instants *)

(** [len] of a Go string: its number of bytes. *)
Definition len (s : string) : Z := Z.of_nat (String.length s).

(** [len] of a slice. *)
Definition llen {A} (l : list A) : Z := Z.of_nat (length l).

(** A [[]byte]: [None] is the nil slice, which the code tells apart from an
    empty one. *)
Definition bytes : Type := option (list byte).

Definition blen (b : bytes) : Z :=
  match b with Some l => llen l | None => 0 end.

(** [append([]byte(nil), b...)]: a copy, which is nil when [b] has no bytes. *)
Definition own_bytes (b : bytes) : bytes :=
  match b with Some (x :: l) => Some (x :: l) | _ => None end.

(** [b != nil] *)
Definition bytes_present (b : bytes) : bool :=
  match b with Some _ => true | None => false end.

Lemma own_bytes_idem b : own_bytes (own_bytes b) = own_bytes b.
Proof. by destruct b as [[|]|]. Qed.

Lemma blen_own_bytes b : blen (own_bytes b) = blen b.
Proof. by destruct b as [[|]|]. Qed.

Lemma len_nonneg s : 0 <= len s.
Proof. unfold len. lia. Qed.

Lemma llen_nonneg {A} (l : list A) : 0 <= llen l.
Proof. unfold llen. lia. Qed.

Lemma blen_nonneg b : 0 <= blen b.
Proof. destruct b; simpl; [apply llen_nonneg | lia]. Qed.

Lemma len_app s1 s2 : len (s1 +:+ s2) = len s1 + len s2.
Proof.
  unfold len. induction s1 as [|c s1 IH]; [done|].
  simpl. unfold len in *. simpl. lia.
Qed.

Lemma len_empty s : len s = 0 ↔ s = ""%string.
Proof. unfold len. destruct s; simpl; split; intros; try done; lia. Qed.

Lemma llen_app {A} (l k : list A) : llen (l ++ k) = llen l + llen k.
Proof. unfold llen. rewrite length_app. lia. Qed.

Lemma llen_cons {A} (x : A) l : llen (x :: l) = 1 + llen l.
Proof. unfold llen. simpl. lia. Qed.

(** A [time.Time]: seconds and nanoseconds since the Unix epoch.  The zero
    value is the first instant of year one. *)
Record Time := mkTime { Time_sec : Z; Time_nsec : Z }.

Definition zero_time : Time := mkTime (-62135596800) 0.

Definition IsZero (t : Time) : bool :=
  (Time_sec t =? -62135596800) && (Time_nsec t =? 0).

(** [t.Before(time.Unix(0, 0))] *)
Definition BeforeUnixEpoch (t : Time) : bool :=
  (Time_sec t <? 0) || ((Time_sec t =? 0) && (Time_nsec t <? 0)).

(** Durations are [int64] nanoseconds; Go's [/] and [%] truncate. *)
Definition Millisecond : Z := 1000000.
Definition Second : Z := 1000 * Millisecond.
Definition Minute : Z := 60 * Second.

Definition Milliseconds (d : Z) : Z := Z.quot d Millisecond.

Lemma Milliseconds_exact d :
  Z.rem d Millisecond = 0 → Milliseconds d * Millisecond = d.
Proof.
  unfold Milliseconds, Millisecond. intros H.
  pose proof (Z.quot_rem' d 1000000). lia.
Qed.

(** ** Pointers read as optional values *)

Definition present {A} (o : option A) : bool :=
  match o with Some _ => true | None => false end.

Lemma present_true {A} (o : option A) : present o = true ↔ is_Some o.
Proof. destruct o; simpl; split; intros H; try done; by destruct H. Qed.

Lemma present_false {A} (o : option A) : present o = false ↔ o = None.
Proof. by destruct o. Qed.

(** ** Automation *)

Create HintDb go discriminated.

#[export] Hint Resolve len_nonneg llen_nonneg blen_nonneg : go.

Create Rewrite HintDb gobool.

#[export] Hint Rewrite orb_true_iff orb_false_iff andb_true_iff andb_false_iff
  negb_true_iff negb_false_iff Z.gtb_ltb Z.geb_leb Z.ltb_lt Z.ltb_ge Z.leb_le Z.leb_gt
  Z.eqb_eq Z.eqb_neq String.eqb_eq String.eqb_neq
  @present_true @present_false : gobool.

(** Turns the boolean tests of the code, in the goal and the hypotheses, into
    the propositions they decide. *)
Ltac breflect := autorewrite with gobool in *.

(** Follows an early-return chain in a hypothesis or in the goal: one case per
    test, closing the ones that contradict the result. *)
Ltac go_cases := repeat (case_match; simplify_eq/=; try done).

(** ** Sums over a slice *)

Fixpoint sumZ {A} (f : A → Z) (l : list A) : Z :=
  match l with [] => 0 | x :: l => f x + sumZ f l end.

Section SumZ.
Context {A : Type} (f : A → Z).

Lemma sumZ_app l k : sumZ f (l ++ k) = sumZ f l + sumZ f k.
Proof. induction l; simpl; lia. Qed.

Lemma sumZ_perm l k : l ≡ₚ k → sumZ f l = sumZ f k.
Proof. induction 1; simpl; lia. Qed.

Lemma sumZ_nonneg l : (∀ x, x ∈ l → 0 <= f x) → 0 <= sumZ f l.
Proof.
  induction l as [|x l IH]; simpl; intros H; [lia|].
  assert (0 <= f x) by (apply H; left).
  assert (0 <= sumZ f l) by (apply IH; intros; apply H; by right). lia.
Qed.

Lemma sumZ_ext (g : A → Z) l : (∀ x, x ∈ l → f x = g x) → sumZ f l = sumZ g l.
Proof.
  induction l as [|x l IH]; simpl; intros H; [done|].
  rewrite H by left. f_equal. apply IH. intros; apply H; by right.
Qed.

End SumZ.

Lemma sumZ_map {A B} (g : B → A) (f : A → Z) l : sumZ f (map g l) = sumZ (λ x, f (g x)) l.
Proof. induction l; simpl; lia. Qed.

(** ** Boolean loops *)

Lemma existsb_false {A} (f : A → bool) l :
  existsb f l = false ↔ ∀ x, x ∈ l → f x = false.
Proof.
  induction l as [|y l IH]; simpl.
  - split; [|done]. intros _ x Hx. by apply not_elem_of_nil in Hx.
  - rewrite orb_false_iff, IH. setoid_rewrite elem_of_cons.
    split; [intros [? ?] x [->|?]; auto | intros H; split; auto].
Qed.

Lemma existsb_true {A} (f : A → bool) l :
  existsb f l = true ↔ ∃ x, x ∈ l ∧ f x = true.
Proof.
  rewrite existsb_exists. by setoid_rewrite list_elem_of_In.
Qed.

Lemma forallb_true {A} (f : A → bool) l :
  forallb f l = true ↔ ∀ x, x ∈ l → f x = true.
Proof. rewrite forallb_forall. by setoid_rewrite list_elem_of_In. Qed.

(** ** Loops over a slice with a [seen] set *)

(** A fresh key in front of a duplicate-free list, as the [seen] maps of the
    loops test it. *)
Lemma nodup_names_cons {A} (name : A → string) x (l : list A) :
  NoDup (map name (x :: l)) ↔ NoDup (map name l) ∧ ∀ y, y ∈ l → name y ≠ name x.
Proof.
  simpl. rewrite NoDup_cons, list_elem_of_In, in_map_iff. setoid_rewrite list_elem_of_In.
  split.
  - intros [Hx ?]. split; [done|]. intros y Hy Heq. apply Hx. eauto.
  - intros [? Hx]. split; [|done]. intros (y & Heq & Hy). by apply (Hx y).
Qed.

Lemma forall_cons {A} (P : A → Prop) x l :
  (∀ y, y ∈ x :: l → P y) ↔ P x ∧ ∀ y, y ∈ l → P y.
Proof.
  setoid_rewrite elem_of_cons. split; [intros H; split; auto|]. intros [? ?] y [->|?]; auto.
Qed.

Lemma nodup_submseteq {A} (l k : list A) : l ⊆+ k → NoDup k → NoDup l.
Proof. intros [l' ->]%submseteq_Permutation. rewrite NoDup_app. tauto. Qed.

Lemma in_map_intro {A B} (f : A → B) l x : x ∈ l → f x ∈ map f l.
Proof. rewrite !list_elem_of_In. apply in_map. Qed.

(** ** Reachability *)

(** An invariant of every step is an invariant of every run. *)
Lemma rtc_invariant {A} (R : relation A) (P : A → Prop) :
  (∀ x y, R x y → P x → P y) → ∀ x y, rtc R x y → P x → P y.
Proof. intros Hstep x y. induction 1; eauto. Qed.
