(* ===== verification/GoText.v ===== *)
(** * Text: the Go string functions the package relies on

    Go strings are byte sequences.  [range] over a string, [strings.TrimSpace]
    and [strings.ContainsAny] read them as UTF-8, so this file models the
    decoder of the language and builds the package's two identity tests on it:
    [containsControl] (message.go) and [invalidIdentity] (config.go).  It also
    holds the decimal conversions of [strconv] used for publish tokens and
    expirations. *)

From S2P Require Import Prelude.

(** ** Bytes of a string *)

Definition code_of (c : Ascii.ascii) : Z := Z.of_N (Ascii.N_of_ascii c).
Definition ascii_of (z : Z) : Ascii.ascii := Ascii.ascii_of_N (Z.to_N z).

Definition codes (s : string) : list Z := map code_of (String.list_ascii_of_string s).
Definition of_codes (l : list Z) : string := String.string_of_list_ascii (map ascii_of l).

Lemma code_range c : 0 <= code_of c < 256.
Proof. unfold code_of. pose proof (Ascii.N_ascii_bounded c). lia. Qed.

Lemma ascii_of_code c : ascii_of (code_of c) = c.
Proof. unfold ascii_of, code_of. rewrite N2Z.id. apply Ascii.ascii_N_embedding. Qed.

Lemma of_codes_codes s : of_codes (codes s) = s.
Proof.
  unfold of_codes, codes. rewrite map_map.
  rewrite <- (String.string_of_list_ascii_of_string s) at 2. f_equal.
  rewrite <- (map_id (String.list_ascii_of_string s)) at 2.
  apply map_ext. intros. apply ascii_of_code.
Qed.

Lemma codes_inj s1 s2 : codes s1 = codes s2 → s1 = s2.
Proof. intros H. rewrite <- (of_codes_codes s1), H. apply of_codes_codes. Qed.

Lemma codes_app s1 s2 : codes (s1 +:+ s2) = codes s1 ++ codes s2.
Proof.
  unfold codes. induction s1 as [|c s1 IH]; [done|].
  change (String c s1 +:+ s2) with (String c (s1 +:+ s2)). simpl. by rewrite IH.
Qed.

Lemma length_codes s : length (codes s) = String.length s.
Proof. unfold codes. rewrite length_map. induction s; simpl; auto. Qed.

Lemma length_of_codes l : String.length (of_codes l) = length l.
Proof. unfold of_codes. induction l as [|x l IH]; [done|]. simpl. by rewrite IH. Qed.

Lemma codes_range s z : z ∈ codes s → 0 <= z < 256.
Proof.
  unfold codes. rewrite list_elem_of_In, in_map_iff. intros (c & <- & _). apply code_range.
Qed.

Lemma codes_of_codes l : (∀ z, z ∈ l → 0 <= z < 256) → codes (of_codes l) = l.
Proof.
  intros H. unfold codes, of_codes.
  rewrite String.list_ascii_of_string_of_list_ascii, map_map.
  rewrite <- (map_id l) at 2. apply map_ext_in. intros z Hz.
  unfold code_of, ascii_of. rewrite Ascii.N_ascii_embedding, Z2N.id; [done|..].
  all: apply list_elem_of_In in Hz; specialize (H _ Hz); lia.
Qed.

(** ** UTF-8 *)

Definition RuneError : Z := 0xFFFD.

Definition within (lo hi b : Z) : bool := (lo <=? b) && (b <=? hi).

(** The first rune of a non-empty byte sequence and its width; an invalid or
    truncated encoding is [RuneError] of width one. *)
Definition decode_rune (l : list Z) : Z * nat :=
  match l with
  | [] => (RuneError, 0%nat)
  | b0 :: rest =>
    if b0 <? 0x80 then (b0, 1%nat)
    else if within 0xC2 0xDF b0 then
      match rest with
      | b1 :: _ =>
        if within 0x80 0xBF b1 then ((b0 - 0xC0) * 64 + (b1 - 0x80), 2%nat) else (RuneError, 1%nat)
      | [] => (RuneError, 1%nat)
      end
    else if within 0xE0 0xEF b0 then
      match rest with
      | b1 :: b2 :: _ =>
        if within (if b0 =? 0xE0 then 0xA0 else 0x80) (if b0 =? 0xED then 0x9F else 0xBF) b1
           && within 0x80 0xBF b2
        then ((b0 - 0xE0) * 4096 + (b1 - 0x80) * 64 + (b2 - 0x80), 3%nat) else (RuneError, 1%nat)
      | _ => (RuneError, 1%nat)
      end
    else if within 0xF0 0xF4 b0 then
      match rest with
      | b1 :: b2 :: b3 :: _ =>
        if within (if b0 =? 0xF0 then 0x90 else 0x80) (if b0 =? 0xF4 then 0x8F else 0xBF) b1
           && within 0x80 0xBF b2 && within 0x80 0xBF b3
        then ((b0 - 0xF0) * 262144 + (b1 - 0x80) * 4096 + (b2 - 0x80) * 64 + (b3 - 0x80), 4%nat)
        else (RuneError, 1%nat)
      | _ => (RuneError, 1%nat)
      end
    else (RuneError, 1%nat)
  end.

#[global] Arguments decode_rune : simpl never.

(** The runes [for _, r := range s] visits: [skip] counts the bytes of the
    current rune still to be passed over. *)
Fixpoint runes_from (skip : nat) (l : list Z) : list Z :=
  match l with
  | [] => []
  | _ :: rest =>
    match skip with
    | S skip => runes_from skip rest
    | O => let '(r, size) := decode_rune l in r :: runes_from (size - 1) rest
    end
  end.

Definition runes (s : string) : list Z := runes_from 0 (codes s).

(** [unicode.IsSpace] *)
Definition is_space (r : Z) : bool :=
  within 9 13 r || (r =? 32) || (r =? 0x85) || (r =? 0xA0) || (r =? 0x1680)
  || within 0x2000 0x200A r || (r =? 0x2028) || (r =? 0x2029) || (r =? 0x202F)
  || (r =? 0x205F) || (r =? 0x3000).

Fixpoint trim_left (skip : nat) (l : list Z) : list Z :=
  match l with
  | [] => []
  | _ :: rest =>
    match skip with
    | S skip => trim_left skip rest
    | O => let '(r, size) := decode_rune l in
           if is_space r then trim_left (size - 1) rest else l
    end
  end.

Definition rune_start (b : Z) : bool := negb (within 0x80 0xBF b).

(** How many bytes [utf8.DecodeLastRune] steps back, at most three, to a byte
    that can start a rune. *)
Fixpoint step_back (fuel k : nat) (before : list Z) : option nat :=
  match fuel, before with
  | S fuel, c :: before => if rune_start c then Some k else step_back fuel (S k) before
  | _, _ => None
  end.

Definition decode_last_rune (l : list Z) : Z * nat :=
  match rev l with
  | [] => (RuneError, 0%nat)
  | b :: before =>
    if b <? 0x80 then (b, 1%nat)
    else match step_back 3 1 before with
         | Some k =>
           let '(r, size) := decode_rune (drop (length l - S k) l) in
           if Nat.eqb size (S k) then (r, size) else (RuneError, 1%nat)
         | None => (RuneError, 1%nat)
         end
  end.

#[global] Arguments decode_last_rune : simpl never.

Fixpoint trim_right (fuel : nat) (l : list Z) : list Z :=
  match fuel with
  | O => l
  | S fuel =>
    match l with
    | [] => []
    | _ => let '(r, size) := decode_last_rune l in
           if is_space r then trim_right fuel (take (length l - size) l) else l
    end
  end.

(** [strings.TrimSpace] *)
Definition TrimSpace (s : string) : string :=
  let l := trim_left 0 (codes s) in of_codes (trim_right (length l) l).

(** [strings.ContainsAny] *)
Definition ContainsAny (s chars : string) : bool :=
  existsb (λ r, existsb (Z.eqb r) (runes chars)) (runes s).

(** [strings.HasPrefix] *)
Definition HasPrefix (s prefix : string) : bool := String.prefix prefix s.

(** ** The package's identity tests *)

Definition containsControl (value : string) : bool :=
  existsb (λ character, (character <? 0x20) || (character =? 0x7f)) (runes value).

(** The three characters ["\x00\r\n"]. *)
Definition nul_cr_lf : string := of_codes [0; 13; 10].

Definition invalidIdentity (value : string) (maximum : Z) : bool :=
  (value =s "") || (len value >? maximum) || negb (TrimSpace value =s value)
  || ContainsAny value nul_cr_lf.

(** ** Runes and bytes *)

(** What the callers of the decoder need: an ASCII byte decodes to itself; any
    other first byte gives a rune outside ASCII and only consumes non-ASCII
    bytes. *)
Lemma decode_rune_spec b0 rest :
  let '(r, size) := decode_rune (b0 :: rest) in
  (b0 < 0x80 ∧ r = b0 ∧ size = 1%nat) ∨
  (0x80 <= b0 ∧ 0x80 <= r ∧ (1 <= size)%nat ∧ ∀ b, b ∈ take (size - 1) rest → 0x80 <= b).
Proof.
  unfold decode_rune, within, RuneError.
  repeat case_match; simplify_eq; first [left; split_and!; lia | right].
  all: split_and!; try lia; intros b Hb; simpl in Hb.
  all: repeat (apply elem_of_cons in Hb as [->|Hb]; [lia|]).
  all: try destruct rest; by apply not_elem_of_nil in Hb.
Qed.

Section AsciiPredicate.
Context (f : Z → bool) (f_ascii : ∀ r, 0x80 <= r → f r = false).

Lemma existsb_runes_from l skip :
  (∀ b, b ∈ take skip l → 0x80 <= b) → existsb f (runes_from skip l) = existsb f l.
Proof using f_ascii.
  revert skip. induction l as [|b l IH]; intros skip Hskip; [done|].
  destruct skip as [|skip]; simpl.
  - pose proof (decode_rune_spec b l) as Hd.
    destruct (decode_rune (b :: l)) as [r size]. simpl.
    destruct Hd as [(? & -> & ->) | (? & ? & ? & Hrest)].
    + simpl. rewrite IH; [done|]. rewrite take_0. intros ? Hb. by apply not_elem_of_nil in Hb.
    + rewrite IH by done. by rewrite !f_ascii by lia.
  - rewrite IH; [rewrite f_ascii; [done|]; apply Hskip; left | intros; apply Hskip; by right].
Qed.

(** A test that only ASCII runes pass can be made on the bytes. *)
Lemma existsb_runes s : existsb f (runes s) = existsb f (codes s).
Proof using f_ascii.
  apply existsb_runes_from. rewrite take_0. intros ? Hb. by apply not_elem_of_nil in Hb.
Qed.
End AsciiPredicate.

Definition control_byte (b : Z) : bool := (b <? 0x20) || (b =? 0x7f).

Lemma containsControl_bytes s : containsControl s = existsb control_byte (codes s).
Proof. apply existsb_runes. unfold control_byte. lia. Qed.

Lemma ContainsAny_nul_cr_lf s :
  ContainsAny s nul_cr_lf = existsb (λ b, existsb (Z.eqb b) [0; 13; 10]) (codes s).
Proof.
  unfold ContainsAny. change (runes nul_cr_lf) with [0; 13; 10].
  apply existsb_runes. intros r Hr. simpl. lia.
Qed.

Lemma containsControl_app s1 s2 :
  containsControl (s1 +:+ s2) = containsControl s1 || containsControl s2.
Proof. by rewrite !containsControl_bytes, codes_app, existsb_app. Qed.

Lemma containsControl_ContainsAny s :
  containsControl s = false → ContainsAny s nul_cr_lf = false.
Proof.
  rewrite containsControl_bytes, ContainsAny_nul_cr_lf, !existsb_false.
  intros H x Hx. specialize (H x Hx). unfold control_byte in H. simpl. lia.
Qed.

(** ** What the tests decide *)

(** No byte of the text is a control character. *)
Definition control_free (value : string) : Prop := ∀ b, b ∈ codes value → 0x20 <= b ∧ b ≠ 0x7f.

Lemma containsControl_false value : containsControl value = false ↔ control_free value.
Proof.
  rewrite containsControl_bytes, existsb_false. unfold control_free, control_byte.
  split; intros H b Hb; specialize (H b Hb); lia.
Qed.

(** A name the package takes as an identity: there, short enough, without space
    around it, and on one line. *)
Record valid_identity (value : string) (maximum : Z) : Prop := {
  vi_present : value ≠ EmptyString;
  vi_short : len value <= maximum;
  vi_trimmed : TrimSpace value = value;
  vi_one_line : ∀ b, b ∈ codes value → b ≠ 0 ∧ b ≠ 13 ∧ b ≠ 10 }.

(** ** Trimming *)

(** [invalidIdentity] unfolded to what a valid identity is. *)
Lemma invalidIdentity_false value maximum :
  invalidIdentity value maximum = false ↔
  value ≠ EmptyString ∧ len value <= maximum ∧ TrimSpace value = value
  ∧ ContainsAny value nul_cr_lf = false.
Proof.
  unfold invalidIdentity. rewrite !orb_false_iff. breflect. tauto.
Qed.

Lemma invalidIdentity_valid value maximum :
  invalidIdentity value maximum = false ↔ valid_identity value maximum.
Proof.
  rewrite invalidIdentity_false, ContainsAny_nul_cr_lf, existsb_false.
  assert ((∀ b, b ∈ codes value → existsb (Z.eqb b) [0; 13; 10] = false)
    ↔ ∀ b, b ∈ codes value → b ≠ 0 ∧ b ≠ 13 ∧ b ≠ 10) as ->.
  { split; intros H b Hb; specialize (H b Hb); simpl in *; lia. }
  split; [intros (? & ? & ? & ?); by split|by intros []].
Qed.

Lemma invalidIdentity_mono value m1 m2 :
  m1 <= m2 → invalidIdentity value m1 = false → invalidIdentity value m2 = false.
Proof. rewrite !invalidIdentity_false. intros ? (? & ? & ? & ?). split_and!; auto; lia. Qed.

Lemma decode_rune_head_app b0 rest suffix :
  (∀ c, c ∈ take 1 suffix → 0 <= c < 0x80) →
  decode_rune (b0 :: rest ++ suffix) = decode_rune (b0 :: rest).
Proof.
  intros Hs. unfold decode_rune.
  assert (∀ lo hi c, c ∈ take 1 suffix → 0x80 <= lo → within lo hi c = false) as Hw.
  { intros lo hi c Hc ?. specialize (Hs c Hc). unfold within. lia. }
  destruct suffix as [|c suffix]; [by rewrite app_nil_r|].
  assert (∀ lo hi, 0x80 <= lo → within lo hi c = false) as Hw'.
  { intros. apply Hw; [left|done]. }
  clear Hw Hs.
  destruct (b0 <? 128); [done|].
  destruct (within 0xC2 0xDF b0); [destruct rest as [|? rest]; simpl; [by rewrite Hw'|done]|].
  assert (∀ b : bool, (0x80 <= if b then 0xA0 else 0x80)) by (intros []; lia).
  assert (∀ b : bool, (0x80 <= if b then 0x90 else 0x80)) by (intros []; lia).
  destruct (within 0xE0 0xEF b0).
  { destruct rest as [|? [|? rest]]; simpl; [|by rewrite Hw', andb_false_r by lia|done].
    destruct suffix; [done|]. by rewrite Hw'. }
  destruct (within 0xF0 0xF4 b0); [|done].
  destruct rest as [|? [|? [|? rest]]]; simpl; [..|done].
  - destruct suffix as [|? [|? ?]]; [done..|]. by rewrite Hw'.
  - destruct suffix as [|? ?]; [done|]. by rewrite (Hw' 128), andb_false_r by lia.
  - by rewrite (Hw' 128), andb_false_r by lia.
Qed.

(** The bytes of a trimmed identity start with a rune that is not a space. *)
Lemma trim_left_id_head b rest :
  trim_left 0 (b :: rest) = b :: rest ↔ is_space (fst (decode_rune (b :: rest))) = false.
Proof.
  simpl. destruct (decode_rune (b :: rest)) as [r size]. simpl.
  destruct (is_space r) eqn:E; [|done]. split; [|done]. intros H.
  assert (∀ l k, (length (trim_left k l) <= length l)%nat) as Hlen.
  { induction l as [|x l IH]; intros k; simpl; [lia|].
    destruct k; [|specialize (IH k); lia].
    destruct (decode_rune (x :: l)) as [r' s']. destruct (is_space r'); [|simpl; lia].
    specialize (IH (s' - 1)%nat). lia. }
  specialize (Hlen rest (size - 1)%nat). rewrite H in Hlen. simpl in Hlen. lia.
Qed.

Lemma trim_right_ascii l c fuel :
  0 <= c < 0x80 → is_space c = false → trim_right fuel (l ++ [c]) = l ++ [c].
Proof.
  intros Hc Hs. destruct fuel; [done|]. simpl.
  destruct (l ++ [c]) eqn:E; [by destruct l|]. rewrite <- E.
  unfold decode_last_rune. rewrite rev_app_distr. simpl.
  rewrite (proj2 (Z.ltb_lt c 128)) by lia. by rewrite Hs.
Qed.

Lemma trim_left_length l k : (length (trim_left k l) <= length l)%nat.
Proof.
  revert k. induction l as [|x l IH]; intros k; simpl; [lia|].
  destruct k; [|specialize (IH k); lia].
  destruct (decode_rune (x :: l)) as [r s]. destruct (is_space r); [|simpl; lia].
  specialize (IH (s - 1)%nat). lia.
Qed.

Lemma trim_right_length fuel l : (length (trim_right fuel l) <= length l)%nat.
Proof.
  revert l. induction fuel as [|fuel IH]; intros l; simpl; [lia|].
  destruct l as [|x l]; [done|].
  destruct (decode_last_rune (x :: l)) as [r s]. destruct (is_space r); [|done].
  etrans; [apply IH|]. rewrite length_take. lia.
Qed.

(** A string equal to its trimmed copy keeps its first rune when trimmed on the
    left. *)
Lemma TrimSpace_id_left s : TrimSpace s = s → trim_left 0 (codes s) = codes s.
Proof.
  unfold TrimSpace. intros H.
  set (l := trim_left 0 (codes s)) in *.
  assert (length (trim_right (length l) l) = length (codes s)) as Hlen.
  { by rewrite length_codes, <- length_of_codes, H. }
  pose proof (trim_right_length (length l) l).
  pose proof (trim_left_length (codes s) 0). fold l in H1.
  destruct (codes s) as [|b rest] eqn:E; [done|].
  apply trim_left_id_head. destruct (is_space _) eqn:Es; [|done]. exfalso.
  subst l. simpl in *. destruct (decode_rune (b :: rest)) as [r size]. simpl in Es.
  rewrite Es in *. pose proof (trim_left_length rest (size - 1)). lia.
Qed.

(** Appending text that ends in a printable ASCII character and does not start
    with a continuation byte keeps a trimmed string trimmed. *)
Lemma TrimSpace_app_ascii s suffix c tail :
  s ≠ EmptyString → TrimSpace s = s →
  codes suffix = tail ++ [c] → (∀ z, z ∈ codes suffix → 0x20 < z < 0x7f) →
  TrimSpace (s +:+ suffix) = s +:+ suffix.
Proof.
  intros Hne Htrim Hc Hrange. unfold TrimSpace. rewrite codes_app.
  assert (trim_left 0 (codes s ++ codes suffix) = codes s ++ codes suffix) as ->.
  { apply TrimSpace_id_left in Htrim.
    destruct (codes s) as [|b rest] eqn:E.
    { destruct s; [done|]. by unfold codes in E. }
    simpl app. apply trim_left_id_head. rewrite decode_rune_head_app.
    - by apply trim_left_id_head.
    - intros z Hz. apply elem_of_take in Hz as (i & Hz & _).
      assert (0x20 < z < 0x7f); [|lia]. apply Hrange, list_elem_of_lookup. eauto. }
  rewrite Hc, app_assoc, trim_right_ascii.
  - by rewrite <- app_assoc, <- Hc, <- codes_app, of_codes_codes.
  - assert (0x20 < c < 0x7f); [|lia]. apply Hrange. rewrite Hc. apply elem_of_app. right. left.
  - assert (0x20 < c < 0x7f); [|unfold is_space, within; lia].
    apply Hrange. rewrite Hc. apply elem_of_app. right. left.
Qed.

(** ** Decimal conversions of strconv *)

(** The digits of [n], most significant first, in front of [acc]. *)
Fixpoint format_digits (fuel : nat) (n : Z) (acc : list Z) : list Z :=
  match fuel with
  | O => acc
  | S fuel =>
    let acc := (48 + n mod 10) :: acc in
    if n <? 10 then acc else format_digits fuel (n / 10) acc
  end.

(** [strconv.FormatUint(n, 10)]: a [uint64] has at most 20 digits. *)
Definition FormatUint (n : Z) : string := of_codes (format_digits 20 n []).

(** [strconv.FormatInt(n, 10)] *)
Definition FormatInt (n : Z) : string :=
  if n <? 0 then of_codes [45] +:+ FormatUint (- n) else FormatUint n.

Definition is_digit (c : Z) : bool := within 48 57 c.

(** The loop of [strconv.ParseUint] in base 10: the [cutoff] and wrap-around
    tests of the library reject what does not fit [maxVal]. *)
Fixpoint parse_digits (maxVal n : Z) (l : list Z) : option Z :=
  match l with
  | [] => Some n
  | c :: l =>
    if negb (is_digit c) then None
    else if n >=? max_uint64 / 10 + 1 then None
    else
      let n10 := uint64 (n * 10) in
      let n1 := uint64 (n10 + (c - 48)) in
      if (n1 <? n10) || (n1 >? maxVal) then None else parse_digits maxVal n1 l
  end.

(** [strconv.ParseUint(s, 10, bitSize)], with [None] for either error. *)
Definition ParseUint (s : string) (bitSize : Z) : option Z :=
  match codes s with
  | [] => None
  | l => parse_digits (2 ^ bitSize - 1) 0 l
  end.

(** The number a digit string denotes. *)
Definition digits_value (acc : Z) (l : list Z) : Z :=
  fold_left (λ a c, a * 10 + (c - 48)) l acc.

Lemma is_digit_range c : is_digit c = true ↔ 48 <= c <= 57.
Proof. unfold is_digit, within. lia. Qed.

Lemma digits_value_lower acc l :
  0 <= acc → forallb is_digit l = true → acc <= digits_value acc l.
Proof.
  revert acc. induction l as [|c l IH]; simpl; intros acc Ha Hd; [lia|].
  apply andb_true_iff in Hd as [Hc Hd]. apply is_digit_range in Hc.
  etrans; [|apply (IH (acc * 10 + (c - 48))); [lia|done]]. lia.
Qed.

(** The library's machine-width loop computes the mathematical value, and fails
    exactly when a character is not a digit or the value is out of range. *)
Lemma parse_digits_spec maxVal n l m :
  0 <= maxVal <= max_uint64 → 0 <= n <= maxVal →
  parse_digits maxVal n l = Some m ↔
  forallb is_digit l = true ∧ digits_value n l = m ∧ m <= maxVal.
Proof.
  intros Hmax. revert n. induction l as [|c l IH]; intros n Hn; simpl.
  { split; [intros [= <-]; split_and!; [done..|lia] | by intros (_ & <- & _)]. }
  destruct (is_digit c) eqn:Hc; simpl; [|split; [done | by intros (? & _)]].
  apply is_digit_range in Hc. unfold max_uint64 in *.
  pose proof (Z.div_mod (2 ^ 64 - 1) 10 ltac:(lia)).
  pose proof (Z.mod_pos_bound (2 ^ 64 - 1) 10 ltac:(lia)).
  change (fold_left _ l (n * 10 + (c - 48))) with (digits_value (n * 10 + (c - 48)) l).
  pose proof (digits_value_lower (n * 10 + (c - 48)) l ltac:(lia)) as Hlow.
  destruct (n >=? _) eqn:Hcut.
  { split; [done|]. intros (Hd & <- & Hle). specialize (Hlow Hd). lia. }
  assert (uint64 (n * 10) = n * 10) as -> by (apply wrap_u_small; lia).
  destruct (Z_lt_dec (n * 10 + (c - 48)) (2 ^ 64)) as [Hlt|Hge].
  - rewrite wrap_u_small by lia.
    destruct ((n * 10 + (c - 48) <? n * 10) || (n * 10 + (c - 48) >? maxVal)) eqn:E.
    + split; [done|]. intros (Hd & <- & Hle). specialize (Hlow Hd). lia.
    + rewrite IH by lia. done.
  - assert (uint64 (n * 10 + (c - 48)) < n * 10) as Hwrap.
    { unfold wrap_u. rewrite <- (Z.mod_add _ (-1)), Z.mod_small; lia. }
    rewrite (proj2 (Z.ltb_lt _ _) Hwrap). simpl.
    split; [done|]. intros (Hd & <- & Hle). specialize (Hlow Hd). lia.
Qed.

Lemma format_digits_spec fuel n acc :
  0 <= n < 10 ^ Z.of_nat (S fuel) →
  ∃ ds, format_digits (S fuel) n acc = ds ++ acc ∧ ds ≠ [] ∧ forallb is_digit ds = true
        ∧ (length ds <= S fuel)%nat ∧ ∀ a, digits_value a ds = a * 10 ^ Z.of_nat (length ds) + n.
Proof.
  revert n acc. induction fuel as [|fuel IH]; intros n acc Hn.
  all: pose proof (Z.mod_pos_bound n 10 ltac:(lia)); pose proof (Z.div_mod n 10 ltac:(lia)).
  - exists [48 + n mod 10]. simpl. rewrite Z.mod_small by lia.
    split_and!; try done; [destruct (_ <? _); done| |intros; lia].
    unfold is_digit, within. lia.
  - cbn [format_digits]. destruct (n <? 10) eqn:E.
    + exists [48 + n mod 10]. rewrite Z.mod_small in * by lia. simpl.
      split_and!; try done; [unfold is_digit, within; lia | lia | intros; lia].
    + assert (0 <= n / 10 < 10 ^ Z.of_nat (S fuel)) as Hdiv.
      { split; [lia|]. apply Z.div_lt_upper_bound; [lia|].
        rewrite <- Z.pow_succ_r by lia.
        replace (Z.succ (Z.of_nat (S fuel))) with (Z.of_nat (S (S fuel))) by lia. lia. }
      destruct (IH (n / 10) ((48 + n mod 10) :: acc) Hdiv) as (ds & Heq & Hne & Hd & Hlen & Hv).
      cbn [format_digits] in Heq. exists (ds ++ [48 + n mod 10]).
      split_and!.
      * by rewrite <- app_assoc.
      * by destruct ds.
      * rewrite forallb_app, Hd. simpl. unfold is_digit, within. lia.
      * rewrite length_app. simpl. lia.
      * intros a. unfold digits_value in *. rewrite fold_left_app. simpl.
        rewrite Hv, length_app. simpl.
        rewrite Nat2Z.inj_add, Z.pow_add_r by lia. simpl. lia.
Qed.

(** What [FormatUint] prints for a [uint64]. *)
Lemma FormatUint_spec n :
  is_uint64 n →
  codes (FormatUint n) ≠ [] ∧ forallb is_digit (codes (FormatUint n)) = true
  ∧ len (FormatUint n) <= 20 ∧ digits_value 0 (codes (FormatUint n)) = n.
Proof.
  unfold is_uint64, max_uint64. intros Hn.
  destruct (format_digits_spec 19 n []) as (ds & Heq & Hne & Hd & Hlen & Hv); [simpl; lia|].
  rewrite app_nil_r in Heq. unfold FormatUint. rewrite Heq.
  rewrite codes_of_codes.
  - split_and!; [done|done| |by rewrite Hv].
    unfold len. rewrite length_of_codes. lia.
  - intros z Hz. rewrite forallb_true in Hd. apply Hd, is_digit_range in Hz. lia.
Qed.

Lemma ParseUint_FormatUint n bits :
  0 <= bits <= 64 → 0 <= n < 2 ^ bits → ParseUint (FormatUint n) bits = Some n.
Proof.
  intros Hbits Hn.
  assert (2 ^ bits <= 2 ^ 64) by (apply Z.pow_le_mono_r; lia).
  destruct (FormatUint_spec n) as (Hne & Hd & _ & Hv); [unfold is_uint64, max_uint64; lia|].
  unfold ParseUint. destruct (codes (FormatUint n)) as [|c l]; [done|].
  apply parse_digits_spec; [unfold max_uint64; lia..|]. split_and!; [done..|lia].
Qed.

(** ** Hexadecimal *)

Definition hex_digit (z : Z) : Z := if z <? 10 then 48 + z else 87 + z.

(** [hex.EncodeToString] *)
Definition EncodeToString (l : list byte) : string :=
  of_codes (flat_map (λ b, let z := Z.of_N (Byte.to_N b) in
                           [hex_digit (z / 16); hex_digit (z mod 16)]) l).
