(* ===== verification/Errors.v ===== *)
(** * Errors: the sentinel errors of errors.go and the error tree

    An [error] is one of the package's sentinels, a context error, an error of
    the AMQP client, an error of some other code, or one of the two composite
    shapes the package builds: [errors.Join] of two errors and the
    [retryableTopologyOperationError] of topology_apply.go.  A Go result of
    type [error] is an [option error], [None] being nil. *)

From S2P Require Import Prelude.

Inductive error : Set :=
| ErrInvalidEndpoint
| ErrCredentialsRequired
| ErrInvalidTLS
| ErrInvalidBounds
| ErrInvalidVirtualHost
| ErrUnsupportedQueuePolicy
| ErrUnsupportedExchangeKind
| ErrInvalidTopology
| ErrTopologyMutationDenied
| ErrPassiveBindingVerificationUnsupported
| ErrTopologyUnavailable
| ErrTopologyInequivalent
| ErrTopologyUnauthorized
| ErrMessageIDRequired
| ErrPayloadTooLarge
| ErrHeadersTooLarge
| ErrDuplicateHeader
| ErrInvalidHeader
| ErrInvalidPriority
| ErrInvalidExpiration
| ErrInvalidPublication
| ErrOutstandingConfirmLimit
| ErrInvalidBatch
| ErrInvalidPublishCorrelation
| ErrContextRequired
| ErrProducerClosed
| ErrProducerUnavailable
| ErrPublishReturned
| ErrPublishRejected
| ErrPublishAmbiguous
| ErrReservedHeader
| ErrInvalidConsumer
| ErrInvalidDelivery
| ErrInvalidSettlement
| ErrSettlementResultUnavailable
| ErrConsumerClosed
| ErrConsumerUnavailable
(** [context.Canceled] and [context.DeadlineExceeded] *)
| Canceled
| DeadlineExceeded
(** [amqp.ErrClosed], and any other [*amqp.Error] by its reply code *)
| AmqpErrClosed
| AmqpError (Code : Z)
(** an error of code outside the package *)
| Foreign (id : Z)
(** [errors.Join(a, b)] with neither nil *)
| Joined (a b : error)
(** [&retryableTopologyOperationError{}], without and with a cause *)
| Retryable
| RetryableCause (cause : error).

#[global] Instance error_eq_dec : EqDecision error.
Proof. solve_decision. Defined.

Definition error_eqb (e1 e2 : error) : bool := bool_decide (e1 = e2).

#[global] Arguments error_eqb : simpl never.

(** [errors.Join(a, b)]: nil arguments are dropped. *)
Definition Join (a b : option error) : option error :=
  match a, b with
  | Some a, Some b => Some (Joined a b)
  | Some a, None => Some a
  | None, b => b
  end.

(** [errors.Is]: the error or one of those it wraps is the target. *)
Fixpoint Is (e target : error) : bool :=
  error_eqb e target ||
  match e with
  | Joined a b => Is a target || Is b target
  | Retryable => error_eqb ErrTopologyUnavailable target
  | RetryableCause c => error_eqb ErrTopologyUnavailable target || Is c target
  | _ => false
  end.

(** [errors.Is] on a possibly nil error. *)
Definition IsOpt (e : option error) (target : error) : bool :=
  match e with Some e => Is e target | None => false end.

(** [err != nil], the helper [consumerOperationFailed] of consumer.go. *)
Definition consumerOperationFailed (err : option error) : bool := present err.

(** An error that carries nothing of the code outside the package: no client or
    foreign error, and composites of such errors. *)
Fixpoint sanitized (e : error) : bool :=
  match e with
  | AmqpErrClosed | AmqpError _ | Foreign _ => false
  | Joined a b => sanitized a && sanitized b
  | RetryableCause c => sanitized c
  | _ => true
  end.

Definition sanitizedOpt (e : option error) : bool :=
  match e with Some e => sanitized e | None => true end.

(** A context reports one of its two errors once it is done. *)
Definition context_error (e : error) : bool :=
  error_eqb e Canceled || error_eqb e DeadlineExceeded.

Lemma error_eqb_true e1 e2 : error_eqb e1 e2 = true ↔ e1 = e2.
Proof. apply bool_decide_eq_true. Qed.

Lemma error_eqb_refl e : error_eqb e e = true.
Proof. by apply error_eqb_true. Qed.

Lemma Is_refl e : Is e e = true.
Proof. destruct e; cbn [Is]; rewrite error_eqb_refl; done. Qed.

Lemma Join_Is a b target :
  IsOpt (Join a b) target = true →
  IsOpt a target = true ∨ IsOpt b target = true ∨ ∃ x y, target = Joined x y.
Proof.
  destruct a as [a|], b as [b|]; simpl; auto.
  intros [H|[H|H]%orb_true_iff]%orb_true_iff; auto.
  right; right. apply error_eqb_true in H as <-. eauto.
Qed.

Lemma context_error_cases e : context_error e = true ↔ e = Canceled ∨ e = DeadlineExceeded.
Proof. unfold context_error. rewrite orb_true_iff, !error_eqb_true. done. Qed.
