(* ===== verification/Config.v ===== *)
(** * Config: connection policy, credentials and the recovery schedule

    config.go ([ConnectionConfig] and its [Validate]), and the helpers of
    producer_open.go that every open and recovery loop shares: the credential
    and session tests, the backoff delay, the endpoint rotation. *)

From S2P Require Import Prelude GoText Errors.

Definition MaxEndpoints : Z := 16.
Definition MaxReconnectAttempts : Z := 32.
Definition MaxRootCAs : Z := 16.
Definition MaxTLSMaterialBytes : Z := Z.shiftl 1 20.
Definition maxEndpointHostBytes : Z := 255.
Definition maxVirtualHostBytes : Z := 255.
Definition minimumHeartbeat : Z := 3 * Second.
Definition maximumHeartbeat : Z := 10 * Minute.
Definition maximumDialTimeout : Z := 2 * Minute.
Definition maximumRecoveryDelay : Z := 5 * Minute.

Record Endpoint := mkEndpoint { Endpoint_Host : string; Endpoint_Port : Z }.

Record Credentials := mkCredentials { Credentials_Username : string; Credentials_Password : bytes }.

Record TLSConfig := mkTLSConfig {
  TLSConfig_ServerName : string;
  TLSConfig_RootCAs : list bytes;
  TLSConfig_ClientCertificate : bytes;
  TLSConfig_ClientPrivateKey : bytes }.

Record RecoveryPolicy := mkRecoveryPolicy {
  RecoveryPolicy_MaxAttempts : Z;
  RecoveryPolicy_InitialDelay : Z;
  RecoveryPolicy_MaxDelay : Z }.

(** The credential provider is the caller's code: its type is a parameter and
    [None] is the nil interface. *)
Record ConnectionConfig {Provider : Type} := mkConnectionConfig {
  Endpoints : list Endpoint;
  VirtualHost : string;
  CredentialsProvider : option Provider;
  TLS : TLSConfig;
  DialTimeout : Z;
  Heartbeat : Z;
  Recovery : RecoveryPolicy }.
Arguments ConnectionConfig : clear implicits.

(** [CredentialProviderFunc.Credentials]: [ctx] is nil when [None], and so is
    the function. *)
Definition CredentialProviderFunc_Credentials {Ctx : Type}
    (provider : option (Ctx → Credentials * option error)) (ctx : option Ctx)
    : Credentials * option error :=
  match ctx with
  | None => (mkCredentials EmptyString None, Some ErrContextRequired)
  | Some ctx =>
    match provider with
    | None => (mkCredentials EmptyString None, Some ErrCredentialsRequired)
    | Some provider => provider ctx
    end
  end.

(** The loop that adds up the TLS material. *)
Fixpoint tls_material_exceeds (tlsBytes : Z) (materials : list bytes) : bool :=
  match materials with
  | [] => false
  | material :: materials =>
    return_if blen material >? MaxTLSMaterialBytes - tlsBytes, true ;;
    tls_material_exceeds (tlsBytes + blen material) materials
  end.

Definition ConnectionConfig_Validate {P} (config : ConnectionConfig P) : option error :=
  return_if (llen (Endpoints config) =? 0) || (llen (Endpoints config) >? MaxEndpoints),
    Some ErrInvalidEndpoint ;;
  return_if existsb (λ endpoint, (Endpoint_Port endpoint =? 0)
                || invalidIdentity (Endpoint_Host endpoint) maxEndpointHostBytes) (Endpoints config),
    Some ErrInvalidEndpoint ;;
  return_if negb (present (CredentialsProvider config)), Some ErrCredentialsRequired ;;
  return_if invalidIdentity (VirtualHost config) maxVirtualHostBytes, Some ErrInvalidVirtualHost ;;
  return_if invalidIdentity (TLSConfig_ServerName (TLS config)) maxEndpointHostBytes
      || (llen (TLSConfig_RootCAs (TLS config)) >? MaxRootCAs)
      || xorb (blen (TLSConfig_ClientCertificate (TLS config)) =? 0)
              (blen (TLSConfig_ClientPrivateKey (TLS config)) =? 0),
    Some ErrInvalidTLS ;;
  return_if tls_material_exceeds 0
      ([TLSConfig_ClientCertificate (TLS config); TLSConfig_ClientPrivateKey (TLS config)]
       ++ TLSConfig_RootCAs (TLS config)),
    Some ErrInvalidTLS ;;
  return_if (DialTimeout config <=? 0) || (DialTimeout config >? maximumDialTimeout)
      || (Heartbeat config <? minimumHeartbeat) || (Heartbeat config >? maximumHeartbeat),
    Some ErrInvalidBounds ;;
  return_if (RecoveryPolicy_MaxAttempts (Recovery config) <? 1)
      || (RecoveryPolicy_MaxAttempts (Recovery config) >? MaxReconnectAttempts)
      || (RecoveryPolicy_InitialDelay (Recovery config) <=? 0)
      || (RecoveryPolicy_MaxDelay (Recovery config) <? RecoveryPolicy_InitialDelay (Recovery config))
      || (RecoveryPolicy_MaxDelay (Recovery config) >? maximumRecoveryDelay),
    Some ErrInvalidBounds ;;
  None.

Definition ownConnectionConfig {P} (config : ConnectionConfig P) : ConnectionConfig P :=
  let tls := TLS config in
  mkConnectionConfig P (Endpoints config) (VirtualHost config) (CredentialsProvider config)
    (mkTLSConfig (TLSConfig_ServerName tls) (map own_bytes (TLSConfig_RootCAs tls))
       (own_bytes (TLSConfig_ClientCertificate tls)) (own_bytes (TLSConfig_ClientPrivateKey tls)))
    (DialTimeout config) (Heartbeat config) (Recovery config).

(** ** Credentials and sessions *)

Definition maxCredentialBytes : Z := 4096.
Definition maxProducerSessionBytes : Z := 128.

Definition validCredentials (credentials : Credentials) : bool :=
  negb (invalidIdentity (Credentials_Username credentials) 255)
  && (blen (Credentials_Password credentials) >? 0)
  && (blen (Credentials_Password credentials) <=? maxCredentialBytes).

Definition usableCredentials (credentials : Credentials) (err : option error) : bool :=
  negb (present err) && validCredentials credentials.

Definition usableProducerSession (session : string) (err : option error) : bool :=
  negb (present err) && negb (invalidIdentity session maxProducerSessionBytes).

(** [wipe] overwrites a buffer in place: the buffer's contents afterwards. *)
Definition wipe (secret : bytes) : bytes := option_map (map (λ _, x00)) secret.

(** [producerSessionFrom]: [read n] is [io.ReadFull] of [n] bytes. *)
Definition producerSessionFrom (read : nat → list byte + error) : string * option error :=
  match read 16%nat with
  | inr _ => (EmptyString, Some ErrProducerUnavailable)
  | inl random => (EncodeToString random, None)
  end.

(** ** The recovery schedule *)

Definition nextRecoveryDelay (current maximum : Z) : Z := Z.min (int64 (current * 2)) maximum.

Definition recoveryEndpointIndex (start attempt count : Z) : Z := Z.rem (start + attempt) count.

Definition finalRecoveryAttempt (attempt maximum : Z) : bool := attempt + 1 =? maximum.

Definition nextRecoveryAttempt (attempt : Z) : Z := attempt + 1.

Definition shouldWaitForRecovery (attempt : Z) : bool := attempt >? 0.

(** ** What a valid connection configuration is *)

Definition tls_material_bytes (tls : TLSConfig) : Z :=
  blen (TLSConfig_ClientCertificate tls) + blen (TLSConfig_ClientPrivateKey tls)
  + sumZ blen (TLSConfig_RootCAs tls).

Record valid_connection {P} (config : ConnectionConfig P) : Prop := {
  vc_endpoint_count : 1 <= llen (Endpoints config) <= MaxEndpoints;
  vc_endpoints : ∀ e, e ∈ Endpoints config →
    Endpoint_Port e ≠ 0 ∧ valid_identity (Endpoint_Host e) maxEndpointHostBytes;
  vc_provider : is_Some (CredentialsProvider config);
  vc_virtual_host : valid_identity (VirtualHost config) maxVirtualHostBytes;
  vc_server_name : valid_identity (TLSConfig_ServerName (TLS config)) maxEndpointHostBytes;
  vc_root_count : llen (TLSConfig_RootCAs (TLS config)) <= MaxRootCAs;
  vc_key_pair : blen (TLSConfig_ClientCertificate (TLS config)) = 0 ↔
                blen (TLSConfig_ClientPrivateKey (TLS config)) = 0;
  vc_material : tls_material_bytes (TLS config) <= MaxTLSMaterialBytes;
  vc_dial_timeout : 0 < DialTimeout config <= maximumDialTimeout;
  vc_heartbeat : minimumHeartbeat <= Heartbeat config <= maximumHeartbeat;
  vc_attempts : 1 <= RecoveryPolicy_MaxAttempts (Recovery config) <= MaxReconnectAttempts;
  vc_initial_delay : 0 < RecoveryPolicy_InitialDelay (Recovery config);
  vc_max_delay : RecoveryPolicy_InitialDelay (Recovery config)
                 <= RecoveryPolicy_MaxDelay (Recovery config) <= maximumRecoveryDelay }.

(** The running budget of the loop is the total of the material. *)
Lemma tls_material_exceeds_spec used materials :
  0 <= used <= MaxTLSMaterialBytes →
  tls_material_exceeds used materials = false ↔ used + sumZ blen materials <= MaxTLSMaterialBytes.
Proof.
  revert used. induction materials as [|m materials IH]; intros used Hu; simpl; [lia|].
  pose proof (blen_nonneg m).
  assert (0 <= sumZ blen materials) by (apply sumZ_nonneg; auto with go).
  destruct (blen m >? MaxTLSMaterialBytes - used) eqn:E; [lia|]. rewrite IH; lia.
Qed.

Lemma sumZ_own_bytes l : sumZ blen (map own_bytes l) = sumZ blen l.
Proof. rewrite sumZ_map. apply sumZ_ext. intros. apply blen_own_bytes. Qed.

Lemma tls_material_exceeds_own used materials :
  tls_material_exceeds used (map own_bytes materials) = tls_material_exceeds used materials.
Proof.
  revert used. induction materials as [|m materials IH]; intros used; [done|].
  simpl. by rewrite blen_own_bytes, IH.
Qed.

Lemma ConnectionConfig_Validate_valid {P} (config : ConnectionConfig P) :
  ConnectionConfig_Validate config = None ↔ valid_connection config.
Proof.
  pose proof (llen_nonneg (Endpoints config)).
  pose proof (tls_material_exceeds_spec 0
    ([TLSConfig_ClientCertificate (TLS config); TLSConfig_ClientPrivateKey (TLS config)]
       ++ TLSConfig_RootCAs (TLS config)) ltac:(by vm_compute)) as Htls.
  unfold ConnectionConfig_Validate. split.
  - intros Hv. go_cases.
    repeat match goal with H : _ || xorb _ _ = false |- _ => apply orb_false_iff in H as [? ?%xorb_eq] end.
    match goal with H : existsb _ _ = false |- _ => rewrite existsb_false in H end.
    breflect. destruct_and!. split; try done; try lia; try (by apply invalidIdentity_valid).
    + intros e He. match goal with H : ∀ _, _ |- _ => specialize (H e He) end. rewrite <- invalidIdentity_valid. by breflect.
    + unfold tls_material_bytes. simpl in Htls. lia.
  - intros [????????????]. unfold tls_material_bytes in *.
    rewrite (proj2 (existsb_false _ _)); cycle 1.
    { intros e He. destruct (vc_endpoints0 e He) as [? Hid%invalidIdentity_valid]. breflect. split; [|done]. lia. }
    rewrite (proj2 Htls) by (simpl; lia).
    rewrite (proj2 (present_true _)) by done.
    rewrite (proj2 (invalidIdentity_valid _ _) vc_virtual_host0), (proj2 (invalidIdentity_valid _ _) vc_server_name0).
    assert (xorb (blen (TLSConfig_ClientCertificate (TLS config)) =? 0)
                 (blen (TLSConfig_ClientPrivateKey (TLS config)) =? 0) = false) as ->.
    { destruct (blen (TLSConfig_ClientCertificate _) =? 0) eqn:?,
        (blen (TLSConfig_ClientPrivateKey _) =? 0) eqn:?; simpl; lia. }
    repeat case_match; try done; exfalso; breflect; simpl in *; try lia.
Qed.

(** C36: [ConnectionConfig.Validate] accepts exactly the configurations whose
    endpoints, identities, provider, TLS material (count, pairing and total
    size), timeouts and recovery bounds are within the documented limits. *)
Theorem ConnectionConfig_Validate_spec {P} (config : ConnectionConfig P) :
  ConnectionConfig_Validate config = None ↔ valid_connection config.
Proof. apply ConnectionConfig_Validate_valid. Qed.

Lemma ConnectionConfig_Validate_own {P} (config : ConnectionConfig P) :
  ConnectionConfig_Validate (ownConnectionConfig config) = ConnectionConfig_Validate config.
Proof.
  unfold ConnectionConfig_Validate, ownConnectionConfig. simpl.
  rewrite !blen_own_bytes, tls_material_exceeds_own. unfold llen. by rewrite length_map.
Qed.

(** ** Wiped secrets *)

Lemma blen_wipe secret : blen (wipe secret) = blen secret.
Proof. destruct secret; simpl; [unfold llen; by rewrite length_map | done]. Qed.

(** ** Sessions *)

(** Printable ASCII without spaces needs no trimming. *)
Lemma printable_identity s maximum :
  s ≠ EmptyString → len s <= maximum → (∀ z, z ∈ codes s → 0x20 < z < 0x7f) →
  invalidIdentity s maximum = false.
Proof.
  intros Hne Hlen Hr. apply invalidIdentity_false. split_and!; [done|done| |].
  - destruct (codes s) as [|b rest] eqn:E.
    { destruct s; [done|]. by unfold codes in E. }
    unfold TrimSpace. rewrite E.
    assert (trim_left 0 (b :: rest) = b :: rest) as ->.
    { apply trim_left_id_head. pose proof (decode_rune_spec b rest) as Hd.
      destruct (decode_rune (b :: rest)) as [r size].
      assert (0x20 < b < 0x7f) by (apply Hr; left).
      destruct Hd as [(? & -> & _) | (? & _)]; [|lia]. simpl. unfold is_space, within. lia. }
    destruct (exists_last (l := b :: rest)) as (tail & c & Hc); [done|]. rewrite Hc.
    assert (0x20 < c < 0x7f) by (apply Hr; rewrite Hc; apply elem_of_app; right; left).
    rewrite trim_right_ascii; [|lia | unfold is_space, within; lia].
    by rewrite <- Hc, <- E, of_codes_codes.
  - apply containsControl_ContainsAny. rewrite containsControl_bytes, existsb_false.
    intros z Hz. specialize (Hr z Hz). unfold control_byte. lia.
Qed.

Lemma hex_digit_printable z : 0 <= z < 16 → 0x20 < hex_digit z < 0x7f.
Proof. unfold hex_digit. case_match; lia. Qed.

Lemma EncodeToString_codes l :
  (∀ z, z ∈ codes (EncodeToString l) → 0x20 < z < 0x7f) ∧
  len (EncodeToString l) = 2 * llen l.
Proof.
  unfold EncodeToString.
  set (h := flat_map _ l).
  assert (∀ z, z ∈ h → 0x20 < z < 0x7f) as Hh.
  { intros z. subst h. rewrite list_elem_of_In, in_flat_map. intros (b & _ & Hb).
    pose proof (Byte.to_N_bounded b). set (n := Z.of_N (Byte.to_N b)) in *.
    pose proof (Z.mod_pos_bound n 16 ltac:(lia)).
    assert (0 <= n / 16 < 16) by (split; [apply Z.div_pos | apply Z.div_lt_upper_bound]; lia).
    simpl in Hb. destruct Hb as [<-|[<-|[]]]; by apply hex_digit_printable. }
  split.
  - rewrite codes_of_codes; [done|]. intros z Hz. apply Hh in Hz. lia.
  - unfold len. rewrite length_of_codes. subst h. unfold llen. clear Hh.
    induction l as [|b l IH]; [done|]. cbn [flat_map length app]. lia.
Qed.

(** Every session identifier the package draws for itself passes the session
    test, so an unusable session can only come from a failing random source. *)
Theorem producerSessionFrom_usable read random :
  read 16%nat = inl random → length random = 16%nat →
  let '(session, err) := producerSessionFrom read in usableProducerSession session err = true.
Proof.
  intros Hread Hlen. unfold producerSessionFrom. rewrite Hread. unfold usableProducerSession.
  simpl. apply negb_true_iff. destruct (EncodeToString_codes random) as [Hp Hl].
  unfold llen in Hl. rewrite Hlen in Hl.
  apply printable_identity; [|unfold maxProducerSessionBytes; lia | done].
  intros He. rewrite He in Hl. done.
Qed.

Lemma producerSessionFrom_usable_witness :
  let '(session, err) := producerSessionFrom (λ n, inl (repeat xab n)) in
  usableProducerSession session err = true.
Proof. exact (producerSessionFrom_usable (λ n, inl (repeat xab n)) (repeat xab 16) eq_refl eq_refl). Defined.

(** ** The recovery schedule *)

Definition valid_recovery (policy : RecoveryPolicy) : Prop :=
  0 < RecoveryPolicy_InitialDelay policy <= RecoveryPolicy_MaxDelay policy ∧
  RecoveryPolicy_MaxDelay policy <= maximumRecoveryDelay.

Lemma valid_connection_recovery {P} (config : ConnectionConfig P) :
  valid_connection config → valid_recovery (Recovery config).
Proof. intros []. unfold valid_recovery. lia. Qed.

(** With a valid policy the delay that the loops have computed after [n] retries is
    exactly the initial delay doubled [n] times and capped, never overflows, and stays
    positive and within the configured and the package maximum. *)
Theorem recovery_delay_closed_form policy n :
  valid_recovery policy →
  let delay := Nat.iter n (λ d, nextRecoveryDelay d (RecoveryPolicy_MaxDelay policy))
                 (RecoveryPolicy_InitialDelay policy) in
  delay = Z.min (RecoveryPolicy_InitialDelay policy * 2 ^ Z.of_nat n) (RecoveryPolicy_MaxDelay policy)
  ∧ 0 < delay <= maximumRecoveryDelay.
Proof.
  intros [Hi Hm] delay.
  assert (delay = Z.min (RecoveryPolicy_InitialDelay policy * 2 ^ Z.of_nat n) (RecoveryPolicy_MaxDelay policy)) as Heq.
  { subst delay. induction n as [|n IH]; [simpl; lia|]. simpl. rewrite IH.
    rewrite Nat2Z.inj_succ, Z.pow_succ_r by lia.
    assert (0 < 2 ^ Z.of_nat n) by lia. set (p := 2 ^ Z.of_nat n) in *.
    unfold maximumRecoveryDelay, Minute, Second, Millisecond in *.
    unfold nextRecoveryDelay. rewrite int64_small by (unfold is_int64, max_int64; nia). nia. }
  split; [done|]. rewrite Heq. assert (0 < 2 ^ Z.of_nat n) by lia. nia.
Qed.

Lemma recovery_delay_closed_form_witness :
  Nat.iter 3 (λ d, nextRecoveryDelay d (30 * Second)) (100 * Millisecond) = 800 * Millisecond.
Proof.
  refine (eq_trans (proj1 (recovery_delay_closed_form
    (mkRecoveryPolicy 8 (100 * Millisecond) (30 * Second)) 3 _)) _); [|reflexivity].
  unfold valid_recovery; vm_compute; repeat split; discriminate || reflexivity.
Defined.

(** the endpoint chosen for an attempt is always one of the configured
    endpoints, and any [count] successive attempts try each of them. *)
Theorem recovery_rotation start first count :
  0 < count → 0 <= start → 0 <= first →
  (∀ attempt, 0 <= attempt → 0 <= recoveryEndpointIndex start attempt count < count) ∧
  (∀ index, 0 <= index < count →
     ∃ attempt, first <= attempt < first + count ∧ recoveryEndpointIndex start attempt count = index).
Proof.
  intros Hc Hs Hf. unfold recoveryEndpointIndex. split.
  - intros attempt Ha. apply Z.rem_bound_pos; lia.
  - intros index Hi.
    exists (first + (index - (start + first)) mod count).
    pose proof (Z.mod_pos_bound (index - (start + first)) count Hc).
    split; [lia|]. rewrite Z.rem_mod_nonneg by lia.
    rewrite Z.add_assoc, Z.add_mod_idemp_r by lia.
    replace (start + first + (index - (start + first))) with index by lia.
    by apply Z.mod_small.
Qed.

Lemma recovery_rotation_witness :
  ∃ attempt, 5 <= attempt < 5 + 3 ∧ recoveryEndpointIndex 1 attempt 3 = 2.
Proof. exact (proj2 (recovery_rotation 1 5 3 ltac:(lia) ltac:(lia) ltac:(lia)) 2 ltac:(lia)). Defined.
