(* ===== verification/Amqp.v ===== *)
(** * Amqp: the data the package exchanges with the AMQP client

    Field-table values, the publishing, delivery, return and confirmation
    records of the client library as far as the package reads or writes them,
    and the string constants both sides share (exchange kinds, queue types,
    header keys, reply codes). *)

From S2P Require Import Prelude.

Unset Elimination Schemes.

(** A field-table value, that is a Go [any]: the type switches of the package
    tell these cases apart; [VOther] stands for every other dynamic type. *)
Inductive any : Type :=
| VNil
| VString (s : string)
| VBool (b : bool)
| VBytes (b : bytes)
| VInt8 (z : Z)
| VInt16 (z : Z)
| VInt32 (z : Z)
| VInt64 (z : Z)
| VUint8 (z : Z)
| VUint16 (z : Z)
| VUint32 (z : Z)
| VUint64 (z : Z)
| VTime (t : Time)
| VTable (t : gmap string any)
| VArray (l : list any)
| VOther (id : Z).

Set Elimination Schemes.

Abbreviation Table := (gmap string any).

(** [table[key]]: a missing key reads as the nil interface. *)
Definition index (table : Table) (key : string) : any := default VNil (table !! key).

(** The type assertions [value.(string)] and so on, with their [ok] flag. *)
Definition as_string (v : any) : option string :=
  match v with VString s => Some s | _ => None end.
Definition as_time (v : any) : option Time :=
  match v with VTime t => Some t | _ => None end.
Definition as_array (v : any) : option (list any) :=
  match v with VArray l => Some l | _ => None end.
Definition as_table (v : any) : option Table :=
  match v with VTable t => Some t | _ => None end.

(** [amqp.Publishing] *)
Record Publishing := mkPublishing {
  pub_Headers : Table;
  pub_ContentType : string;
  pub_ContentEncoding : string;
  pub_DeliveryMode : Z;
  pub_Priority : Z;
  pub_CorrelationId : string;
  pub_ReplyTo : string;
  pub_Expiration : string;
  pub_MessageId : string;
  pub_Timestamp : Time;
  pub_Type : string;
  pub_AppId : string;
  pub_Body : bytes }.

(** [amqp.Delivery] *)
Record AmqpDelivery := mkAmqpDelivery {
  ad_Headers : Table;
  ad_ContentType : string;
  ad_ContentEncoding : string;
  ad_DeliveryMode : Z;
  ad_Priority : Z;
  ad_CorrelationId : string;
  ad_ReplyTo : string;
  ad_Expiration : string;
  ad_MessageId : string;
  ad_Timestamp : Time;
  ad_Type : string;
  ad_UserId : string;
  ad_AppId : string;
  ad_ConsumerTag : string;
  ad_DeliveryTag : Z;
  ad_Redelivered : bool;
  ad_Exchange : string;
  ad_RoutingKey : string;
  ad_Body : bytes }.

(** [amqp.Return] and [amqp.Confirmation] *)
Record AmqpReturn := mkAmqpReturn {
  ret_ReplyCode : Z; ret_ReplyText : string; ret_Headers : Table }.

Record Confirmation := mkConfirmation { conf_DeliveryTag : Z; conf_Ack : bool }.

(** Delivery modes and reply codes of the protocol. *)
Definition amqp_Transient : Z := 1.
Definition amqp_Persistent : Z := 2.
Definition amqp_AccessRefused : Z := 403.
Definition amqp_NotFound : Z := 404.
Definition amqp_ResourceLocked : Z := 405.
Definition amqp_PreconditionFailed : Z := 406.

(** Exchange kinds (topology.go). *)
Definition ExchangeKind : Type := string.
Definition ExchangeDirect : string := "direct".
Definition ExchangeTopic : string := "topic".
Definition ExchangeFanout : string := "fanout".
Definition ExchangeHeaders : string := "headers".

(** Queue types (topology.go). *)
Definition QueueType : Type := string.
Definition QueueClassic : string := "classic".
Definition QueueQuorum : string := "quorum".

(** Header keys (message.go, delivery.go). *)
Definition publishTokenHeader : string := "x-rabbitmqqueue-publish-token".
Definition acquiredCountHeader : string := "x-acquired-count".
Definition deliveryCountHeader : string := "x-delivery-count".
Definition deathHeader : string := "x-death".
Definition firstDeathQueueHeader : string := "x-first-death-queue".
Definition firstDeathReasonHeader : string := "x-first-death-reason".
Definition firstDeathExchangeHeader : string := "x-first-death-exchange".
Definition lastDeathQueueHeader : string := "x-last-death-queue".
Definition lastDeathReasonHeader : string := "x-last-death-reason".
Definition lastDeathExchangeHeader : string := "x-last-death-exchange".

(** The keys the package and the broker keep for themselves. *)
Definition reserved_keys : list string :=
  [publishTokenHeader; acquiredCountHeader; deliveryCountHeader; deathHeader;
   firstDeathQueueHeader; firstDeathReasonHeader; firstDeathExchangeHeader;
   lastDeathQueueHeader; lastDeathReasonHeader; lastDeathExchangeHeader].

Definition reservedDeliveryMetadataHeader (key : string) : bool :=
  existsb (String.eqb key) reserved_keys.

Lemma reserved_true key : reservedDeliveryMetadataHeader key = true ↔ key ∈ reserved_keys.
Proof.
  unfold reservedDeliveryMetadataHeader. rewrite existsb_true.
  setoid_rewrite String.eqb_eq. split; [intros (x & Hx & ->) | eauto]; done.
Qed.

Lemma reserved_false_ne key k :
  reservedDeliveryMetadataHeader key = false → k ∈ reserved_keys → key ≠ k.
Proof. intros H Hk ->. apply reserved_true in Hk. congruence. Qed.
