(* ===== verification/Message.v ===== *)
(** * Message: publications, their validation and their AMQP form

    message.go ([Limits], [Header], [Message], [Publication] and
    [Publication.Validate]) with the two functions of producer.go that turn an
    admitted publication into what is sent: [ownPublication] and
    [amqpPublishing]. *)

From S2P Require Import Prelude GoText Errors Config Amqp.

Definition maxPublishTokenBytes : Z := maxProducerSessionBytes + 1 + 20.

Record Limits := mkLimits {
  MaxPayloadBytes : Z;
  MaxHeaderEntries : Z;
  MaxHeaderBytes : Z;
  MaxNameBytes : Z;
  MaxRoutingKeyBytes : Z }.

Definition DefaultLimits : Limits :=
  mkLimits (Z.shiftl 16 20) 128 (Z.shiftl 64 10) 255 255.

Definition Limits_valid (limits : Limits) : bool :=
  let maximum := DefaultLimits in
  (MaxPayloadBytes limits >? 0) && (MaxPayloadBytes limits <=? MaxPayloadBytes maximum) &&
  (MaxHeaderEntries limits >? 0) && (MaxHeaderEntries limits <=? MaxHeaderEntries maximum) &&
  (MaxHeaderBytes limits >? 0) && (MaxHeaderBytes limits <=? MaxHeaderBytes maximum) &&
  (MaxNameBytes limits >? 0) && (MaxNameBytes limits <=? MaxNameBytes maximum) &&
  (MaxRoutingKeyBytes limits >? 0) && (MaxRoutingKeyBytes limits <=? MaxRoutingKeyBytes maximum).

(** [HeaderKind] is a [uint8]; a caller can store any value in it. *)
Definition HeaderKind : Type := Z.
Definition HeaderString : HeaderKind := 1.
Definition HeaderBool : HeaderKind := 2.
Definition HeaderInt64 : HeaderKind := 3.
Definition HeaderBytes : HeaderKind := 4.

Record Header := mkHeader {
  Header_Key : string;
  Header_Kind : HeaderKind;
  Header_String : string;
  Header_Bool : bool;
  Header_Int64 : Z;
  Header_Bytes : bytes }.

Definition StringHeader (key value : string) : Header :=
  mkHeader key HeaderString value false 0 None.
Definition BoolHeader (key : string) (value : bool) : Header :=
  mkHeader key HeaderBool EmptyString value 0 None.
Definition Int64Header (key : string) (value : Z) : Header :=
  mkHeader key HeaderInt64 EmptyString false value None.
Definition BytesHeader (key : string) (value : bytes) : Header :=
  mkHeader key HeaderBytes EmptyString false 0 (own_bytes value).

Record Message := mkMessage {
  Body : bytes;
  MessageID : string;
  CorrelationID : string;
  ReplyTo : string;
  ContentType : string;
  ContentEncoding : string;
  MessageType : string;
  AppID : string;
  Timestamp : Time;
  Expiration : option Z;
  Priority : option Z;
  Headers : list Header }.

Definition DeliveryMode : Type := Z.
Definition DeliveryTransient : DeliveryMode := 1.
Definition DeliveryPersistent : DeliveryMode := 2.

Record Publication := mkPublication {
  Publication_Exchange : string;
  Publication_ExchangeKind : ExchangeKind;
  Publication_RoutingKey : string;
  Mandatory : bool;
  Publication_DeliveryMode : DeliveryMode;
  Publication_Message : Message }.

Definition validPublicationExchange (exchange : string) (kind : ExchangeKind) (limits : Limits) : bool :=
  if exchange =s "" then kind =s ExchangeDirect
  else negb (invalidIdentity exchange (MaxNameBytes limits)).

Definition validPublicationRouting (kind : ExchangeKind) (routingKey : string) (limits : Limits) : bool :=
  return_if (len routingKey >? MaxRoutingKeyBytes limits) || containsControl routingKey, false ;;
  if kind =s "" then negb (routingKey =s "")
  else if (kind =s ExchangeDirect) || (kind =s ExchangeTopic) then true
  else if (kind =s ExchangeFanout) || (kind =s ExchangeHeaders) then routingKey =s ""
  else false.

(** The [switch header.Kind] of the header loops: [None] is the [return
    ErrInvalidHeader] of a header with a stray field or an unknown kind, and
    [Some n] the bytes its value adds. *)
Definition header_value_bytes (header : Header) : option Z :=
  if Header_Kind header =? HeaderString then
    if Header_Bool header || negb (Header_Int64 header =? 0) || bytes_present (Header_Bytes header)
    then None else Some (len (Header_String header))
  else if Header_Kind header =? HeaderBool then
    if negb (Header_String header =s "") || negb (Header_Int64 header =? 0)
       || bytes_present (Header_Bytes header)
    then None else Some 1
  else if Header_Kind header =? HeaderInt64 then
    if negb (Header_String header =s "") || Header_Bool header || bytes_present (Header_Bytes header)
    then None else Some 8
  else if Header_Kind header =? HeaderBytes then
    if negb (Header_String header =s "") || Header_Bool header || negb (Header_Int64 header =? 0)
    then None else Some (blen (Header_Bytes header))
  else None.

(** The header loop of [Publication.Validate], with its [seen] set and running
    byte count. *)
Fixpoint validate_headers (limits : Limits) (seen : gset string) (headerBytes : Z)
    (headers : list Header) : option error :=
  match headers with
  | [] => None
  | header :: headers =>
    return_if invalidIdentity (Header_Key header) (MaxNameBytes limits), Some ErrInvalidHeader ;;
    return_if reservedDeliveryMetadataHeader (Header_Key header), Some ErrReservedHeader ;;
    return_if bool_decide (Header_Key header ∈ seen), Some ErrDuplicateHeader ;;
    match header_value_bytes header with
    | None => Some ErrInvalidHeader
    | Some n =>
      let headerBytes := headerBytes + len (Header_Key header) + n in
      return_if headerBytes >? MaxHeaderBytes limits, Some ErrHeadersTooLarge ;;
      validate_headers limits ({[Header_Key header]} ∪ seen) headerBytes headers
    end
  end.

Definition Publication_Validate (publication : Publication) (limits : Limits) : option error :=
  return_if negb (Limits_valid limits), Some ErrInvalidBounds ;;
  return_if negb (validPublicationExchange (Publication_Exchange publication)
                    (Publication_ExchangeKind publication) limits)
      || negb (validPublicationRouting (Publication_ExchangeKind publication)
                 (Publication_RoutingKey publication) limits)
      || (Publication_DeliveryMode publication <? DeliveryTransient)
      || (Publication_DeliveryMode publication >? DeliveryPersistent),
    Some ErrInvalidPublication ;;
  let message := Publication_Message publication in
  return_if MessageID message =s "", Some ErrMessageIDRequired ;;
  return_if blen (Body message) >? MaxPayloadBytes limits, Some ErrPayloadTooLarge ;;
  return_if existsb (λ value, (len value >? MaxNameBytes limits) || containsControl value)
      [MessageID message; CorrelationID message; ReplyTo message; ContentType message;
       ContentEncoding message; MessageType message; AppID message],
    Some ErrInvalidPublication ;;
  return_if match Priority message with Some priority => priority >? 255 | None => false end,
    Some ErrInvalidPriority ;;
  return_if negb (IsZero (Timestamp message))
      && (BeforeUnixEpoch (Timestamp message) || negb (Time_nsec (Timestamp message) =? 0)),
    Some ErrInvalidPublication ;;
  return_if match Expiration message with
            | Some expiration => (expiration <? 0) || negb (Z.rem expiration Millisecond =? 0)
            | None => false
            end,
    Some ErrInvalidExpiration ;;
  return_if llen (Headers message) >? MaxHeaderEntries limits, Some ErrHeadersTooLarge ;;
  validate_headers limits ∅ 0 (Headers message).

(** ** What is sent *)

Definition own_header (header : Header) : Header :=
  mkHeader (Header_Key header) (Header_Kind header) (Header_String header) (Header_Bool header)
    (Header_Int64 header) (own_bytes (Header_Bytes header)).

(** The copy of a publication the producer keeps once it is admitted. *)
Definition ownPublication (publication : Publication) : Publication :=
  let message := Publication_Message publication in
  mkPublication (Publication_Exchange publication) (Publication_ExchangeKind publication)
    (Publication_RoutingKey publication) (Mandatory publication)
    (Publication_DeliveryMode publication)
    (mkMessage (own_bytes (Body message)) (MessageID message) (CorrelationID message)
       (ReplyTo message) (ContentType message) (ContentEncoding message) (MessageType message)
       (AppID message) (Timestamp message) (Expiration message) (Priority message)
       (map own_header (Headers message))).

(** The table entry a header becomes; an unknown kind adds nothing. *)
Definition header_entry (header : Header) : option any :=
  if Header_Kind header =? HeaderString then Some (VString (Header_String header))
  else if Header_Kind header =? HeaderBool then Some (VBool (Header_Bool header))
  else if Header_Kind header =? HeaderInt64 then Some (VInt64 (Header_Int64 header))
  else if Header_Kind header =? HeaderBytes then Some (VBytes (own_bytes (Header_Bytes header)))
  else None.

Definition put_header (table : Table) (header : Header) : Table :=
  match header_entry header with
  | Some value => <[Header_Key header := value]> table
  | None => table
  end.

(** The loop both [amqpPublishing] and [bindingArguments] run over headers. *)
Definition header_table (headers : list Header) : Table := fold_left put_header headers ∅.

Definition amqpPublishing (message : Message) (mode : DeliveryMode) (token : string) : Publishing :=
  let headers := <[publishTokenHeader := VString token]> (header_table (Headers message)) in
  let priority := match Priority message with Some priority => uint8 priority | None => 0 end in
  let expiration := match Expiration message with
                    | Some expiration => FormatInt (Milliseconds expiration)
                    | None => EmptyString
                    end in
  mkPublishing headers (ContentType message) (ContentEncoding message) (uint8 mode) priority
    (CorrelationID message) (ReplyTo message) expiration (MessageID message) (Timestamp message)
    (MessageType message) (AppID message) (own_bytes (Body message)).

(** [producer.session + "/" + strconv.FormatUint(sequence, 10)] *)
Definition publish_token (session : string) (sequence : Z) : string :=
  session +:+ "/" +:+ FormatUint sequence.

(** ** What a valid publication is *)

(** Limits are positive and no larger than the package's own: 16 MiB of payload,
    128 headers of 64 KiB together, and the 255 bytes of an AMQP short string. *)
Record valid_limits (limits : Limits) : Prop := {
  vl_payload : 0 < MaxPayloadBytes limits <= 16777216;
  vl_header_entries : 0 < MaxHeaderEntries limits <= 128;
  vl_header_bytes : 0 < MaxHeaderBytes limits <= 65536;
  vl_name : 0 < MaxNameBytes limits <= 255;
  vl_routing_key : 0 < MaxRoutingKeyBytes limits <= 255 }.

(** A header that sets the one field its kind names and no other, with the bytes
    of its value. *)
Inductive canonical_header : Header → Z → Prop :=
| canonical_string key value : canonical_header (mkHeader key 1 value false 0 None) (len value)
| canonical_bool key value : canonical_header (mkHeader key 2 EmptyString value 0 None) 1
| canonical_int64 key value : canonical_header (mkHeader key 3 EmptyString false value None) 8
| canonical_bytes key value : canonical_header (mkHeader key 4 EmptyString false 0 value) (blen value).

(** The bytes a header takes: its key and the field its kind names. *)
Definition header_size (header : Header) : Z :=
  len (Header_Key header)
  + match Header_Kind header with
    | 1 => len (Header_String header) | 2 => 1 | 3 => 8 | 4 => blen (Header_Bytes header) | _ => 0
    end.

(** The keys of the broker's dead-letter and counting headers and of the package's
    own correlation token. *)
Definition metadata_keys : list string :=
  ["x-rabbitmqqueue-publish-token"; "x-acquired-count"; "x-delivery-count"; "x-death";
   "x-first-death-queue"; "x-first-death-reason"; "x-first-death-exchange";
   "x-last-death-queue"; "x-last-death-reason"; "x-last-death-exchange"].

Definition valid_header (limits : Limits) (header : Header) : Prop :=
  valid_identity (Header_Key header) (MaxNameBytes limits)
  ∧ (Header_Key header ∉ metadata_keys)
  ∧ ∃ n, canonical_header header n.

Definition valid_property (limits : Limits) (value : string) : Prop :=
  len value <= MaxNameBytes limits ∧ control_free value.

(** The exchange is named, or it is the default exchange, which is direct. *)
Definition names_exchange (limits : Limits) (exchange : string) (kind : ExchangeKind) : Prop :=
  exchange = EmptyString ∧ kind = "direct" ∨ valid_identity exchange (MaxNameBytes limits).

(** The routing key fits the kind of the exchange: any for a direct or topic
    exchange, none for a fanout or headers exchange, and some when the kind is not
    said. *)
Definition routes_explicitly (kind : ExchangeKind) (routingKey : string) : Prop :=
  kind = "direct" ∨ kind = "topic"
  ∨ (kind = "fanout" ∨ kind = "headers") ∧ routingKey = EmptyString
  ∨ kind = EmptyString ∧ routingKey ≠ EmptyString.

Record valid_publication (limits : Limits) (publication : Publication) : Prop := {
  vp_limits : valid_limits limits;
  vp_exchange : names_exchange limits (Publication_Exchange publication)
                  (Publication_ExchangeKind publication);
  vp_routing_key : len (Publication_RoutingKey publication) <= MaxRoutingKeyBytes limits
                   ∧ control_free (Publication_RoutingKey publication);
  vp_routing : routes_explicitly (Publication_ExchangeKind publication) (Publication_RoutingKey publication);
  vp_mode : Publication_DeliveryMode publication = DeliveryTransient
            ∨ Publication_DeliveryMode publication = DeliveryPersistent;
  vp_id : MessageID (Publication_Message publication) ≠ EmptyString;
  vp_body : blen (Body (Publication_Message publication)) <= MaxPayloadBytes limits;
  vp_properties : ∀ value, value ∈
      (let message := Publication_Message publication in
       [MessageID message; CorrelationID message; ReplyTo message; ContentType message;
        ContentEncoding message; MessageType message; AppID message]) → valid_property limits value;
  vp_priority : ∀ p, Priority (Publication_Message publication) = Some p → p <= 255;
  vp_timestamp : IsZero (Timestamp (Publication_Message publication)) = true ∨
      (BeforeUnixEpoch (Timestamp (Publication_Message publication)) = false
       ∧ Time_nsec (Timestamp (Publication_Message publication)) = 0);
  vp_expiration : ∀ e, Expiration (Publication_Message publication) = Some e →
      0 <= e ∧ Z.rem e Millisecond = 0;
  vp_header_count : llen (Headers (Publication_Message publication)) <= MaxHeaderEntries limits;
  vp_headers : ∀ h, h ∈ Headers (Publication_Message publication) → valid_header limits h;
  vp_header_keys : NoDup (map Header_Key (Headers (Publication_Message publication)));
  vp_header_bytes : sumZ header_size (Headers (Publication_Message publication))
                    <= MaxHeaderBytes limits }.

Lemma Limits_valid_true limits : Limits_valid limits = true ↔ valid_limits limits.
Proof.
  unfold Limits_valid, DefaultLimits.
  cbn [MaxPayloadBytes MaxHeaderEntries MaxHeaderBytes MaxNameBytes MaxRoutingKeyBytes].
  change (Z.shiftl 16 20) with 16777216. change (Z.shiftl 64 10) with 65536. breflect.
  split; [intros H; split; lia|intros []; lia].
Qed.

Lemma header_value_bytes_Some header n : header_value_bytes header = Some n ↔ canonical_header header n.
Proof.
  split.
  - destruct header as [key kind str b i bs]. unfold header_value_bytes. simpl. intros H.
    repeat case_match; try done; simplify_eq; breflect; destruct_and?; subst;
      destruct bs; try done; constructor.
  - intros []; reflexivity.
Qed.

Lemma canonical_header_size header n :
  canonical_header header n → header_size header = len (Header_Key header) + n.
Proof. by intros []. Qed.

Lemma reserved_false key : reservedDeliveryMetadataHeader key = false ↔ key ∉ metadata_keys.
Proof. rewrite <- not_true_iff_false, reserved_true. done. Qed.

(** What the loops compute for a header, from what a valid header is. *)
Lemma valid_header_code limits header :
  valid_header limits header ↔
  invalidIdentity (Header_Key header) (MaxNameBytes limits) = false
  ∧ reservedDeliveryMetadataHeader (Header_Key header) = false
  ∧ ∃ n, header_value_bytes header = Some n.
Proof.
  unfold valid_header. rewrite invalidIdentity_valid, reserved_false.
  by setoid_rewrite header_value_bytes_Some.
Qed.

Lemma header_size_code header n :
  header_value_bytes header = Some n → header_size header = len (Header_Key header) + n.
Proof. intros H%header_value_bytes_Some. by apply canonical_header_size. Qed.

Lemma valid_property_code limits value :
  valid_property limits value ↔ (len value >? MaxNameBytes limits) || containsControl value = false.
Proof. unfold valid_property. rewrite <- containsControl_false. breflect. intuition lia. Qed.

Lemma validPublicationExchange_true exchange kind limits :
  validPublicationExchange exchange kind limits = true ↔ names_exchange limits exchange kind.
Proof.
  unfold validPublicationExchange, names_exchange. rewrite <- invalidIdentity_valid.
  destruct (String.eqb_spec exchange "") as [->|Hne].
  - rewrite String.eqb_eq. split; [by left|]. by intros [[_ ?]|?].
  - rewrite negb_true_iff. split; [by right|]. by intros [[? _]|?].
Qed.

Lemma validPublicationRouting_true kind routingKey limits :
  validPublicationRouting kind routingKey limits = true ↔
  (len routingKey <= MaxRoutingKeyBytes limits ∧ control_free routingKey) ∧ routes_explicitly kind routingKey.
Proof.
  unfold validPublicationRouting, routes_explicitly. rewrite <- containsControl_false.
  destruct (_ || containsControl routingKey) eqn:E; breflect.
  { split; [done|]. intros [[Hl Hc] _]. destruct E as [|E]; [lia|congruence]. }
  assert (len routingKey <= MaxRoutingKeyBytes limits ∧ containsControl routingKey = false) as Hk by (split; [lia|tauto]).
  unfold ExchangeDirect, ExchangeTopic, ExchangeFanout, ExchangeHeaders.
  destruct (String.eqb_spec kind "") as [->|]; [rewrite negb_true_iff, String.eqb_neq; intuition done|].
  destruct (String.eqb_spec kind "direct") as [->|]; [tauto|].
  destruct (String.eqb_spec kind "topic") as [->|]; [tauto|].
  destruct (String.eqb_spec kind "fanout") as [->|]; [simpl; rewrite String.eqb_eq; intuition done|].
  destruct (String.eqb_spec kind "headers") as [->|]; [simpl; rewrite String.eqb_eq; intuition done|].
  simpl. intuition done.
Qed.

Lemma header_value_bytes_nonneg header n : header_value_bytes header = Some n → 0 <= n.
Proof.
  unfold header_value_bytes. intros. go_cases; auto with go; lia.
Qed.

Lemma header_size_nonneg header : 0 <= header_size header.
Proof.
  unfold header_size. pose proof (len_nonneg (Header_Key header)). pose proof (len_nonneg (Header_String header)).
  pose proof (blen_nonneg (Header_Bytes header)). repeat case_match; lia.
Qed.
#[export] Hint Resolve header_size_nonneg : go.

(** The loop with its running count and its [seen] set against the whole list. *)
Lemma validate_headers_spec limits seen n headers :
  n <= MaxHeaderBytes limits →
  validate_headers limits seen n headers = None ↔
  (∀ h, h ∈ headers → valid_header limits h) ∧ NoDup (map Header_Key headers)
  ∧ (∀ h, h ∈ headers → Header_Key h ∉ seen) ∧ n + sumZ header_size headers <= MaxHeaderBytes limits.
Proof.
  revert seen n. induction headers as [|h headers IH]; intros seen n Hn; simpl.
  { split; [intros _ | done]. split_and!; [|constructor| |lia];
      intros ? Hx; by apply not_elem_of_nil in Hx. }
  assert (0 <= sumZ header_size headers) by (apply sumZ_nonneg; auto with go).
  change (Header_Key h :: map Header_Key headers) with (map Header_Key (h :: headers)).
  rewrite !(forall_cons _ h headers), nodup_names_cons, (valid_header_code limits h).
  destruct (invalidIdentity _ _) eqn:E1; [split; [done | by intros (((?&_)&_)&_)] |].
  destruct (reservedDeliveryMetadataHeader _) eqn:E2; [split; [done | by intros (((_&?&_)&_)&_)] |].
  case_bool_decide as E3; [split; [done | by intros (_&_&[??]&_)] |].
  destruct (header_value_bytes h) as [k|] eqn:E4; cycle 1.
  { split; [done|]. by intros (((_&_&?&?)&_)&_). }
  pose proof (header_value_bytes_nonneg _ _ E4).
  pose proof (header_size_code _ _ E4) as Hsize.
  destruct (_ >? _) eqn:E5; [split; [done | intros; lia] |].
  rewrite IH by lia. setoid_rewrite not_elem_of_union. setoid_rewrite not_elem_of_singleton.
  split.
  - intros (?&?&Hs&?). split_and!; try done; first [lia | by eexists | intros; by apply Hs].
  - intros ((_&?)&[??]&[??]&?). split_and!; try done; [|lia]. intros; split; auto.
Qed.

(** The checks of [Publication.Validate], in order, against the policy they decide. *)
Lemma Publication_Validate_valid publication limits :
  Publication_Validate publication limits = None ↔ valid_publication limits publication.
Proof.
  unfold Publication_Validate. remember (Publication_Message publication) as m eqn:Hm.
  destruct (Limits_valid limits) eqn:Hlim; cycle 1.
  { split; [done|]. intros [Hl%Limits_valid_true]. congruence. }
  apply Limits_valid_true in Hlim. assert (0 <= MaxHeaderBytes limits) by (destruct Hlim; lia).
  pose proof (validate_headers_spec limits ∅ 0 (Headers m) ltac:(lia)) as Hh.
  split.
  - cbn [negb]. intros Hv. repeat (case_match; [done|]).
    apply Hh in Hv as (?&?&_&?).
    match goal with H : existsb _ _ = false |- _ => rewrite existsb_false in H; rename H into Hp end.
    repeat match goal with H : _ || _ = false |- _ => apply orb_false_iff in H as [? ?] end.
    rewrite negb_false_iff in *.
    match goal with H : validPublicationExchange _ _ _ = true |- _ => apply validPublicationExchange_true in H end.
    match goal with H : validPublicationRouting _ _ _ = true |- _ => apply validPublicationRouting_true in H as [? ?] end.
    split; rewrite <- ?Hm; try done; try (breflect; done || lia).
    + unfold DeliveryTransient, DeliveryPersistent in *. lia.
    + intros v Hv. by apply valid_property_code, Hp.
    + intros p Hpr. rewrite Hpr in *. lia.
    + intros e He. rewrite He in *. breflect. split; lia.
  - intros []. rewrite <- Hm in *. rewrite (proj2 (validPublicationExchange_true _ _ _) vp_exchange0),
      (proj2 (validPublicationRouting_true _ _ _) (conj vp_routing_key0 vp_routing0)). cbn [negb orb].
    assert ((Publication_DeliveryMode publication <? DeliveryTransient) = false) as ->
      by (unfold DeliveryTransient, DeliveryPersistent in *; lia).
    assert ((Publication_DeliveryMode publication >? DeliveryPersistent) = false) as ->
      by (unfold DeliveryTransient, DeliveryPersistent in *; lia).
    rewrite (proj2 (String.eqb_neq _ _)) by done.
    rewrite (proj2 (existsb_false _ _)); cycle 1.
    { intros v Hv. by apply valid_property_code, vp_properties0. }
    assert ((blen (Body m) >? MaxPayloadBytes limits) = false) as -> by lia.
    assert (match Priority m with Some p => p >? 255 | None => false end = false) as ->.
    { destruct (Priority m) eqn:E; [|done]. specialize (vp_priority0 _ eq_refl). lia. }
    assert (negb (IsZero (Timestamp m))
      && (BeforeUnixEpoch (Timestamp m) || negb (Time_nsec (Timestamp m) =? 0)) = false) as ->.
    { destruct vp_timestamp0 as [->|[-> ->]]; [done | by rewrite andb_false_r]. }
    assert (match Expiration m with
            | Some e => (e <? 0) || negb (Z.rem e Millisecond =? 0) | None => false end = false) as ->.
    { destruct (Expiration m) eqn:E; [|done]. destruct (vp_expiration0 _ eq_refl) as [? ->]. lia. }
    assert ((llen (Headers m) >? MaxHeaderEntries limits) = false) as -> by lia.
    apply Hh. split_and!; [done..| |lia]. intros. apply not_elem_of_empty.
Qed.

(** C35: [Publication.Validate] accepts exactly the publications that satisfy the
    documented policy: limits within the package's own, a named or default exchange,
    explicit routing for the exchange kind, a message id,
    bounded and control-free properties, whole-second timestamps, millisecond
    expirations, and unique, canonical, unreserved headers within the entry and
    byte budgets of the whole message. *)
Theorem Publication_Validate_spec publication limits :
  Publication_Validate publication limits = None ↔ valid_publication limits publication.
Proof. apply Publication_Validate_valid. Qed.

(** ** The table of a header list *)

Lemma header_entry_valid header : is_Some (header_value_bytes header) → is_Some (header_entry header).
Proof.
  unfold header_value_bytes, header_entry. intros [n Hn].
  repeat case_match; simplify_eq; by eexists.
Qed.

Lemma put_header_ne table header k :
  k ≠ Header_Key header → put_header table header !! k = table !! k.
Proof.
  intros Hk. unfold put_header. destruct (header_entry header); [|done].
  by rewrite lookup_insert_ne.
Qed.

Lemma fold_put_header_other headers table k :
  k ∉ map Header_Key headers → fold_left put_header headers table !! k = table !! k.
Proof.
  revert table. induction headers as [|h headers IH]; intros table Hk; [done|].
  simpl in *. rewrite not_elem_of_cons in Hk. destruct Hk as [Hk1 Hk2].
  rewrite IH by done. by apply put_header_ne.
Qed.

Lemma header_table_other headers k :
  k ∉ map Header_Key headers → header_table headers !! k = None.
Proof. intros. unfold header_table. by rewrite fold_put_header_other. Qed.

(** With unique keys every header is found under its key. *)
Lemma header_table_lookup headers h :
  NoDup (map Header_Key headers) → h ∈ headers →
  is_Some (header_entry h) → header_table headers !! Header_Key h = header_entry h.
Proof.
  unfold header_table. generalize (∅ : Table) as table.
  induction headers as [|x headers IH]; intros table Hnd Hin Hs.
  { by apply not_elem_of_nil in Hin. }
  simpl in *. apply NoDup_cons in Hnd as [Hx Hnd].
  apply elem_of_cons in Hin as [->|Hin]; [|by apply IH].
  rewrite fold_put_header_other by done.
  unfold put_header. destruct Hs as [v Hv]. rewrite Hv. apply lookup_insert_eq.
Qed.

Lemma header_table_Some headers k v :
  NoDup (map Header_Key headers) → header_table headers !! k = Some v →
  ∃ h, h ∈ headers ∧ Header_Key h = k ∧ header_entry h = Some v.
Proof.
  unfold header_table. assert (∀ table, NoDup (map Header_Key headers) →
    fold_left put_header headers table !! k = Some v →
    (∃ h, h ∈ headers ∧ Header_Key h = k ∧ header_entry h = Some v) ∨ table !! k = Some v) as H.
  { induction headers as [|x headers IH]; intros table Hnd Hl; [by right|].
    simpl in *. apply NoDup_cons in Hnd as [Hx Hnd].
    destruct (IH _ Hnd Hl) as [(h & ? & ? & ?) | Hput].
    - left. exists h. split_and!; [by right|done..].
    - destruct (decide (k = Header_Key x)) as [->|Hne].
      + unfold put_header in Hput. destruct (header_entry x) eqn:E; [|by right].
        rewrite lookup_insert_eq in Hput. left. exists x.
        split_and!; [by left | done | congruence].
      + right. by rewrite put_header_ne in Hput. }
  intros Hnd Hl. destruct (H ∅ Hnd Hl) as [?|He]; [done|]. by rewrite lookup_empty in He.
Qed.

(** ** Owning a publication *)

Lemma own_header_entry header : header_entry (own_header header) = header_entry header.
Proof. unfold header_entry. simpl. by rewrite own_bytes_idem. Qed.

Lemma header_table_own headers : header_table (map own_header headers) = header_table headers.
Proof.
  unfold header_table. generalize (∅ : Table).
  induction headers as [|h headers IH]; intros table; [done|].
  simpl. rewrite IH. f_equal. unfold put_header. by rewrite own_header_entry.
Qed.

(** what goes on the wire is a function of the owned copy alone: publishing
    the copy made at admission sends the same AMQP message as the caller's
    publication, so later changes to the caller's value cannot reach it. *)
Theorem amqpPublishing_ownPublication publication mode token :
  amqpPublishing (Publication_Message (ownPublication publication)) mode token
  = amqpPublishing (Publication_Message publication) mode token.
Proof.
  unfold amqpPublishing. simpl. by rewrite header_table_own, own_bytes_idem.
Qed.

Lemma own_header_value_bytes header n :
  header_value_bytes header = Some n → header_value_bytes (own_header header) = Some n.
Proof.
  unfold header_value_bytes. simpl. rewrite blen_own_bytes.
  destruct (Header_Bytes header) as [[|? ?]|]; simpl; intros; repeat case_match;
    simplify_eq; try done; rewrite ?orb_true_r in *; done.
Qed.

Lemma own_header_size header :
  header_size (own_header header) = header_size header.
Proof. unfold header_size. simpl. by rewrite blen_own_bytes. Qed.

(** The owned copy of a valid publication is valid. *)
Lemma valid_publication_own limits publication :
  valid_publication limits publication → valid_publication limits (ownPublication publication).
Proof.
  intros []. split; simpl; try done.
  - by rewrite blen_own_bytes.
  - unfold llen. by rewrite length_map.
  - intros h. rewrite list_elem_of_In, in_map_iff. intros (x & <- & Hx%list_elem_of_In).
    destruct (vp_headers0 x Hx) as (? & ? & n & Hn%header_value_bytes_Some).
    split_and!; [done..|]. exists n. by apply header_value_bytes_Some, own_header_value_bytes.
  - by rewrite map_map.
  - rewrite sumZ_map. erewrite sumZ_ext; [done|]. simpl. intros x Hx.
    apply own_header_size.
Qed.

(** ** Publish tokens *)

Lemma token_suffix_codes sequence :
  is_uint64 sequence →
  ∃ tail c, codes ("/" +:+ FormatUint sequence) = tail ++ [c]
  ∧ (∀ z, z ∈ codes ("/" +:+ FormatUint sequence) → 0x20 < z < 0x7f)
  ∧ len ("/" +:+ FormatUint sequence) <= 21.
Proof.
  intros Hs. destruct (FormatUint_spec _ Hs) as (Hne & Hd & Hl & _).
  destruct (exists_last Hne) as (tail & c & Hc).
  exists (47 :: tail), c. rewrite codes_app, Hc, len_app.
  change (codes "/") with [47]. change (len "/") with 1.
  split_and!; [done| |lia]. intros z. rewrite <- Hc. simpl. rewrite elem_of_cons.
  intros [->|Hz]; [lia|]. rewrite forallb_true in Hd.
  apply Hd, is_digit_range in Hz. lia.
Qed.

(** Every publish token, for any accepted session and any [uint64] sequence,
    is a valid identity of at most [maxPublishTokenBytes] bytes, which is what a
    consumer demands of the token of a delivery. *)
Lemma publish_token_valid session sequence :
  usableProducerSession session None = true → is_uint64 sequence →
  invalidIdentity (publish_token session sequence) maxPublishTokenBytes = false.
Proof.
  unfold usableProducerSession. simpl. rewrite negb_true_iff, invalidIdentity_false.
  intros (Hne & Hlen & Htrim & Hany) Hs.
  destruct (token_suffix_codes _ Hs) as (tail & c & Hc & Hr & Hl).
  apply invalidIdentity_false. unfold publish_token. split_and!.
  - intros He. apply (f_equal String.length) in He.
    pose proof (len_app session ("/" +:+ FormatUint sequence)) as Ha.
    unfold len in Ha. rewrite He in Ha. simpl in Ha. destruct session; [done|]. simpl in Ha. lia.
  - rewrite len_app. unfold maxPublishTokenBytes. lia.
  - by eapply TrimSpace_app_ascii.
  - rewrite ContainsAny_nul_cr_lf in *. rewrite codes_app, existsb_app, Hany. cbn [orb].
    apply existsb_false. intros z Hz. specialize (Hr z Hz). simpl. lia.
Qed.

Lemma FormatUint_inj m n : is_uint64 m → is_uint64 n → FormatUint m = FormatUint n → m = n.
Proof.
  intros Hm Hn Heq. destruct (FormatUint_spec m Hm) as (_ & _ & _ & Hvm).
  destruct (FormatUint_spec n Hn) as (_ & _ & _ & Hvn). congruence.
Qed.

(** Within one session distinct sequences have distinct tokens. *)
Lemma publish_token_inj session m n :
  is_uint64 m → is_uint64 n → publish_token session m = publish_token session n → m = n.
Proof.
  intros Hm Hn Heq. unfold publish_token in Heq. apply (f_equal codes) in Heq.
  rewrite !codes_app in Heq. apply app_inv_head in Heq. apply app_inv_head in Heq.
  apply codes_inj in Heq. by apply FormatUint_inj.
Qed.
