(* ===== verification/Topology.v ===== *)
(** * Topology: exchanges, queues, bindings and their declaration arguments

    topology.go (the policy types and every [Validate]) and the argument
    builders of topology_apply.go: [queueArguments] and [bindingArguments]. *)

From S2P Require Import Prelude GoText Errors Config Amqp Message.

Definition MaxTopologyExchanges : Z := 128.
Definition MaxTopologyQueues : Z := 128.
Definition MaxTopologyBindings : Z := 512.

Record Exchange := mkExchange {
  Exchange_Name : string;
  Exchange_Kind : ExchangeKind;
  Exchange_Durable : bool;
  Exchange_AutoDelete : bool;
  Exchange_Internal : bool }.

Definition Exchange_Validate (exchange : Exchange) : option error :=
  return_if invalidIdentity (Exchange_Name exchange) 255, Some ErrInvalidTopology ;;
  return_if (Exchange_Kind exchange =s ExchangeDirect) || (Exchange_Kind exchange =s ExchangeTopic)
      || (Exchange_Kind exchange =s ExchangeFanout) || (Exchange_Kind exchange =s ExchangeHeaders),
    None ;;
  Some ErrUnsupportedExchangeKind.

Definition QueueOverflow : Type := string.
Definition QueueOverflowDropHead : QueueOverflow := "drop-head".
Definition QueueOverflowRejectPublish : QueueOverflow := "reject-publish".
Definition QueueOverflowRejectPublishDeadLetter : QueueOverflow := "reject-publish-dlx".

Definition DeadLetterStrategy : Type := string.
Definition DeadLetterAtMostOnce : DeadLetterStrategy := "at-most-once".
Definition DeadLetterAtLeastOnce : DeadLetterStrategy := "at-least-once".

Record QueueDeadLetter := mkQueueDeadLetter {
  DeadLetter_Exchange : string;
  DeadLetter_RoutingKey : option string;
  DeadLetter_Strategy : DeadLetterStrategy }.

Definition DelayedRetryType : Type := string.
Definition DelayedRetryDisabled : DelayedRetryType := "disabled".
Definition DelayedRetryAll : DelayedRetryType := "all".
Definition DelayedRetryFailed : DelayedRetryType := "failed".
Definition DelayedRetryReturned : DelayedRetryType := "returned".

Record QueueDelayedRetry := mkQueueDelayedRetry {
  DelayedRetry_Type : DelayedRetryType;
  DelayedRetry_Minimum : Z;
  DelayedRetry_Maximum : option Z }.

Record Queue := mkQueue {
  Queue_Name : string;
  Queue_Type : QueueType;
  Queue_Durable : bool;
  Queue_AutoDelete : bool;
  Queue_Exclusive : bool;
  SingleActiveConsumer : bool;
  DeliveryLimit : option Z;
  MaxPriority : Z;
  MessageTTL : option Z;
  Expires : option Z;
  ConsumerTimeout : option Z;
  DisconnectedConsumerTimeout : option Z;
  DelayedRetry : option QueueDelayedRetry;
  MaxLength : option Z;
  MaxLengthBytes : option Z;
  Overflow : QueueOverflow;
  DeadLetter : option QueueDeadLetter }.

Definition validQueueDuration (value : option Z) (allowZero : bool) : bool :=
  match value with
  | None => true
  | Some value =>
    ((value >? 0) || (allowZero && (value =? 0))) && (Z.rem value Millisecond =? 0)
  end.

Definition validConsumerTimeout (value : option Z) : bool := validQueueDuration value true.

Definition validDelayedRetry (value : option QueueDelayedRetry) : bool :=
  match value with
  | None => true
  | Some value =>
    return_if DelayedRetry_Type value =s DelayedRetryDisabled,
      (DelayedRetry_Minimum value =? 0) && negb (present (DelayedRetry_Maximum value)) ;;
    return_if negb ((DelayedRetry_Type value =s DelayedRetryAll)
                    || (DelayedRetry_Type value =s DelayedRetryFailed)
                    || (DelayedRetry_Type value =s DelayedRetryReturned)), false ;;
    return_if (DelayedRetry_Minimum value <=? 0)
        || negb (Z.rem (DelayedRetry_Minimum value) Millisecond =? 0), false ;;
    match DelayedRetry_Maximum value with
    | None => true
    | Some maximum => (maximum >=? DelayedRetry_Minimum value) && (Z.rem maximum Millisecond =? 0)
    end
  end.

Definition validQueueLength (value : option Z) : bool :=
  match value with None => true | Some value => value <=? max_int64 end.

(** The checks on a queue's dead-letter policy (topology.go:234-249). *)
Definition dead_letter_error (queue : Queue) : option error :=
  match DeadLetter queue with
  | None => None
  | Some deadLetter =>
    return_if (len (DeadLetter_Exchange deadLetter) >? 255)
        || containsControl (DeadLetter_Exchange deadLetter)
        || match DeadLetter_RoutingKey deadLetter with
           | Some routingKey => (len routingKey >? 255) || containsControl routingKey
           | None => false
           end,
      Some ErrUnsupportedQueuePolicy ;;
    if (DeadLetter_Strategy deadLetter =s "") || (DeadLetter_Strategy deadLetter =s DeadLetterAtMostOnce)
    then None
    else if DeadLetter_Strategy deadLetter =s DeadLetterAtLeastOnce then
      return_if negb (Queue_Type queue =s QueueQuorum)
          || negb (Overflow queue =s QueueOverflowRejectPublish),
        Some ErrUnsupportedQueuePolicy ;;
      None
    else Some ErrUnsupportedQueuePolicy
  end.

(** The [switch queue.Type] of [Queue.Validate] (topology.go:200-217). *)
Definition queue_type_error (queue : Queue) : option error :=
  if Queue_Type queue =s QueueClassic then
    return_if present (DeliveryLimit queue) || (Queue_Exclusive queue && Queue_Durable queue)
        || (negb (Queue_Durable queue) && negb (Queue_Exclusive queue))
        || present (ConsumerTimeout queue) || present (DisconnectedConsumerTimeout queue)
        || present (DelayedRetry queue)
        || match DeadLetter queue with
           | Some deadLetter => negb (DeadLetter_Strategy deadLetter =s "")
           | None => false
           end,
      Some ErrUnsupportedQueuePolicy ;;
    None
  else if Queue_Type queue =s QueueQuorum then
    return_if negb (Queue_Durable queue) || Queue_Exclusive queue || Queue_AutoDelete queue
        || negb (MaxPriority queue =? 0)
        || (Overflow queue =s QueueOverflowRejectPublishDeadLetter),
      Some ErrUnsupportedQueuePolicy ;;
    None
  else Some ErrUnsupportedQueuePolicy.

Definition Queue_Validate (queue : Queue) : option error :=
  try (if Queue_Name queue =s "" then
         return_if negb (Queue_Type queue =s QueueClassic) || negb (Queue_Exclusive queue),
           Some ErrInvalidTopology ;;
         None
       else
         return_if invalidIdentity (Queue_Name queue) 255, Some ErrInvalidTopology ;;
         None) ;;
  try queue_type_error queue ;;
  return_if negb (validQueueDuration (MessageTTL queue) true)
      || negb (validQueueDuration (Expires queue) false)
      || negb (validConsumerTimeout (ConsumerTimeout queue))
      || negb (validQueueDuration (DisconnectedConsumerTimeout queue) true)
      || negb (validDelayedRetry (DelayedRetry queue))
      || negb (validQueueLength (MaxLength queue)) || negb (validQueueLength (MaxLengthBytes queue)),
    Some ErrUnsupportedQueuePolicy ;;
  return_if negb ((Overflow queue =s "") || (Overflow queue =s QueueOverflowDropHead)
                  || (Overflow queue =s QueueOverflowRejectPublish)
                  || (Overflow queue =s QueueOverflowRejectPublishDeadLetter)),
    Some ErrUnsupportedQueuePolicy ;;
  return_if (Overflow queue =s QueueOverflowRejectPublishDeadLetter)
      && negb (present (DeadLetter queue)),
    Some ErrUnsupportedQueuePolicy ;;
  dead_letter_error queue.

(** ** Policy *)

Definition TopologyMode : Type := string.
Definition TopologyPassive : TopologyMode := "passive".
Definition TopologyDeclare : TopologyMode := "declare".

Record DevelopmentTopologyPermit := mkPermit { permit_allowed : bool }.

Definition PermitDevelopmentTopology : DevelopmentTopologyPermit := mkPermit true.

Record TopologyPolicy := mkTopologyPolicy {
  Policy_Mode : TopologyMode;
  Policy_Development : DevelopmentTopologyPermit }.

Definition TopologyPolicy_Validate (policy : TopologyPolicy) : option error :=
  if Policy_Mode policy =s TopologyPassive then None
  else if Policy_Mode policy =s TopologyDeclare then
    return_if permit_allowed (Policy_Development policy), None ;;
    Some ErrTopologyMutationDenied
  else Some ErrInvalidTopology.

(** ** Bindings *)

Record Binding := mkBinding {
  Binding_Exchange : string;
  Binding_Queue : string;
  Binding_RoutingKey : string;
  Binding_Arguments : list Header }.

Fixpoint binding_match (match_ : string) (arguments : list Header) : option string :=
  match arguments with
  | [] => Some match_
  | argument :: arguments =>
    if negb (Header_Key argument =s "x-match") then binding_match match_ arguments
    else if negb (Header_Kind argument =? HeaderString) then None
    else if (Header_String argument =s "all") || (Header_String argument =s "any")
            || (Header_String argument =s "all-with-x") || (Header_String argument =s "any-with-x")
    then binding_match (Header_String argument) arguments
    else None
  end.

Definition validHeadersBindingArguments (arguments : list Header) : bool :=
  match binding_match "all" arguments with
  | None => false
  | Some match_ =>
    let includeExtensions := (match_ =s "all-with-x") || (match_ =s "any-with-x") in
    existsb (λ argument, negb (Header_Key argument =s "x-match")
                         && (includeExtensions || negb (HasPrefix (Header_Key argument) "x-")))
            arguments
  end.

(** The value check of the binding loop: as [header_value_bytes], and a string
    must have no control characters. *)
Definition argument_value_bytes (argument : Header) : option Z :=
  if (Header_Kind argument =? HeaderString) && containsControl (Header_String argument)
  then None else header_value_bytes argument.

Fixpoint validate_arguments (limits : Limits) (seen : gset string) (bytes : Z)
    (arguments : list Header) : bool :=
  match arguments with
  | [] => true
  | argument :: arguments =>
    return_if invalidIdentity (Header_Key argument) (MaxNameBytes limits)
        || (Header_Key argument =s publishTokenHeader), false ;;
    return_if bool_decide (Header_Key argument ∈ seen), false ;;
    match argument_value_bytes argument with
    | None => false
    | Some n =>
      let bytes := bytes + len (Header_Key argument) + n in
      return_if bytes >? MaxHeaderBytes limits, false ;;
      validate_arguments limits ({[Header_Key argument]} ∪ seen) bytes arguments
    end
  end.

Definition validBindingArgumentsWithLimits (arguments : list Header) (limits : Limits) : bool :=
  return_if llen arguments >? MaxHeaderEntries limits, false ;;
  validate_arguments limits ∅ 0 arguments.

Definition validBindingArguments (arguments : list Header) : bool :=
  validBindingArgumentsWithLimits arguments DefaultLimits.

Definition validExchangeBindingWithLimits (kind : ExchangeKind) (routingKey : string)
    (arguments : list Header) (limits : Limits) : bool :=
  return_if (len routingKey >? MaxRoutingKeyBytes limits) || containsControl routingKey
      || negb (validBindingArgumentsWithLimits arguments limits), false ;;
  if (kind =s ExchangeDirect) || (kind =s ExchangeTopic) then llen arguments =? 0
  else if kind =s ExchangeFanout then (routingKey =s "") && (llen arguments =? 0)
  else if kind =s ExchangeHeaders then (routingKey =s "") && validHeadersBindingArguments arguments
  else false.

Definition validExchangeBinding (kind : ExchangeKind) (routingKey : string)
    (arguments : list Header) : bool :=
  validExchangeBindingWithLimits kind routingKey arguments DefaultLimits.

(** ** The graph *)

Record Topology := mkTopology {
  Exchanges : list Exchange;
  Queues : list Queue;
  Bindings : list Binding }.

(** The exchange loop of [Topology.Validate] fills the [exchanges] map. *)
Fixpoint validate_exchanges (exchanges : gmap string ExchangeKind) (l : list Exchange)
    : error + gmap string ExchangeKind :=
  match l with
  | [] => inr exchanges
  | exchange :: l =>
    match Exchange_Validate exchange with
    | Some err => inl err
    | None =>
      return_if present (exchanges !! Exchange_Name exchange), inl ErrInvalidTopology ;;
      validate_exchanges (<[Exchange_Name exchange := Exchange_Kind exchange]> exchanges) l
    end
  end.

Fixpoint validate_queues (queues : gset string) (l : list Queue) : error + gset string :=
  match l with
  | [] => inr queues
  | queue :: l =>
    match Queue_Validate queue with
    | Some err => inl err
    | None =>
      return_if Queue_Exclusive queue || (Queue_Name queue =s ""), inl ErrInvalidTopology ;;
      return_if bool_decide (Queue_Name queue ∈ queues), inl ErrInvalidTopology ;;
      validate_queues ({[Queue_Name queue]} ∪ queues) l
    end
  end.

Definition binding_rejected (exchanges : gmap string ExchangeKind) (queues : gset string)
    (binding : Binding) : bool :=
  match exchanges !! Binding_Exchange binding with
  | None => true
  | Some kind =>
    negb (bool_decide (Binding_Queue binding ∈ queues))
    || negb (validExchangeBinding kind (Binding_RoutingKey binding) (Binding_Arguments binding))
  end.

Definition Topology_Validate (topology : Topology) (policy : TopologyPolicy) : option error :=
  try TopologyPolicy_Validate policy ;;
  return_if (llen (Exchanges topology) + llen (Queues topology) =? 0)
      || (llen (Exchanges topology) >? MaxTopologyExchanges)
      || (llen (Queues topology) >? MaxTopologyQueues)
      || (llen (Bindings topology) >? MaxTopologyBindings),
    Some ErrInvalidTopology ;;
  return_if (Policy_Mode policy =s TopologyPassive) && (llen (Bindings topology) >? 0),
    Some ErrPassiveBindingVerificationUnsupported ;;
  match validate_exchanges ∅ (Exchanges topology) with
  | inl err => Some err
  | inr exchanges =>
    match validate_queues ∅ (Queues topology) with
    | inl err => Some err
    | inr queues =>
      return_if existsb (binding_rejected exchanges queues) (Bindings topology),
        Some ErrInvalidTopology ;;
      None
    end
  end.

(** ** Declaration arguments (topology_apply.go) *)

(** [if value != nil { arguments[key] = value }] *)
Definition set_if (key : string) (value : option any) (arguments : Table) : Table :=
  match value with Some value => <[key := value]> arguments | None => arguments end.

Definition queuePriorityPresent (priority : Z) : bool := negb (priority =? 0).
Definition queueOverflowPresent (overflow : QueueOverflow) : bool := negb (overflow =s "").
Definition deadLetterStrategyPresent (strategy : DeadLetterStrategy) : bool := negb (strategy =s "").

(** A duration argument is sent as its [int64] milliseconds. *)
Definition milliseconds_argument (value : option Z) : option any :=
  option_map (λ d, VInt64 (Milliseconds d)) value.

Definition retry_enabled (retry : QueueDelayedRetry) : bool :=
  negb (DelayedRetry_Type retry =s DelayedRetryDisabled).

Definition queueArguments (queue : Queue) : Table :=
  let arguments := {["x-queue-type" := VString (Queue_Type queue)]} in
  let arguments := set_if "x-single-active-consumer"
    (if SingleActiveConsumer queue then Some (VBool true) else None) arguments in
  let arguments := set_if "x-delivery-limit"
    (option_map (λ limit, VInt64 (int64 limit)) (DeliveryLimit queue)) arguments in
  let arguments := set_if "x-max-priority"
    (if queuePriorityPresent (MaxPriority queue) then Some (VInt32 (int32 (MaxPriority queue))) else None)
    arguments in
  let arguments := set_if "x-message-ttl" (milliseconds_argument (MessageTTL queue)) arguments in
  let arguments := set_if "x-expires" (milliseconds_argument (Expires queue)) arguments in
  let arguments := set_if "x-consumer-timeout" (milliseconds_argument (ConsumerTimeout queue)) arguments in
  let arguments := set_if "x-consumer-disconnected-timeout"
    (milliseconds_argument (DisconnectedConsumerTimeout queue)) arguments in
  let arguments :=
    match DelayedRetry queue with
    | None => arguments
    | Some retry =>
      let arguments := <["x-delayed-retry-type" := VString (DelayedRetry_Type retry)]> arguments in
      if retry_enabled retry then
        let arguments := <["x-delayed-retry-min" := VInt64 (Milliseconds (DelayedRetry_Minimum retry))]> arguments in
        set_if "x-delayed-retry-max" (milliseconds_argument (DelayedRetry_Maximum retry)) arguments
      else arguments
    end in
  let arguments := set_if "x-max-length"
    (option_map (λ n, VInt64 (int64 n)) (MaxLength queue)) arguments in
  let arguments := set_if "x-max-length-bytes"
    (option_map (λ n, VInt64 (int64 n)) (MaxLengthBytes queue)) arguments in
  let arguments := set_if "x-overflow"
    (if queueOverflowPresent (Overflow queue) then Some (VString (Overflow queue)) else None) arguments in
  match DeadLetter queue with
  | None => arguments
  | Some deadLetter =>
    let arguments := <["x-dead-letter-exchange" := VString (DeadLetter_Exchange deadLetter)]> arguments in
    let arguments := set_if "x-dead-letter-routing-key"
      (option_map VString (DeadLetter_RoutingKey deadLetter)) arguments in
    set_if "x-dead-letter-strategy"
      (if deadLetterStrategyPresent (DeadLetter_Strategy deadLetter)
       then Some (VString (DeadLetter_Strategy deadLetter)) else None) arguments
  end.

Definition bindingArguments (arguments : list Header) : Table := header_table arguments.

Definition own_binding (binding : Binding) : Binding :=
  mkBinding (Binding_Exchange binding) (Binding_Queue binding) (Binding_RoutingKey binding)
    (map own_header (Binding_Arguments binding)).

(** The copy of a topology: the optional values are immutable here, so only the
    argument bytes can change, from empty to nil. *)
Definition ownTopology (topology : Topology) : Topology :=
  mkTopology (Exchanges topology) (Queues topology) (map own_binding (Bindings topology)).

(** ** The queue policy is determined by what is declared *)

(** The value ranges of the Go types of a queue's fields. *)
Record well_typed_queue (queue : Queue) : Prop := {
  wq_limit : ∀ z, DeliveryLimit queue = Some z → 0 <= z < 2 ^ 32;
  wq_priority : 0 <= MaxPriority queue < 2 ^ 8;
  wq_length : ∀ z, MaxLength queue = Some z → is_uint64 z;
  wq_length_bytes : ∀ z, MaxLengthBytes queue = Some z → is_uint64 z }.

Lemma set_if_eq key value arguments :
  set_if key value arguments !! key = match value with Some v => Some v | None => arguments !! key end.
Proof. destruct value; simpl; [apply lookup_insert_eq | done]. Qed.

Lemma set_if_ne key k value arguments :
  key ≠ k → set_if key value arguments !! k = arguments !! k.
Proof. intros. destruct value; simpl; [by apply lookup_insert_ne | done]. Qed.

(** Reads one key out of a chain of conditional and plain insertions. *)
Ltac lookup_arguments :=
  repeat first
    [ rewrite set_if_eq | rewrite set_if_ne by done
    | rewrite lookup_insert_eq | rewrite lookup_insert_ne by done
    | rewrite lookup_singleton_ne by done | rewrite lookup_singleton_eq ].

(** What [queueArguments] stores under each key it can write. *)
Record queue_arguments_spec (queue : Queue) (t : Table) : Prop := {
  qa_type : t !! "x-queue-type" = Some (VString (Queue_Type queue));
  qa_sac : t !! "x-single-active-consumer" =
           if SingleActiveConsumer queue then Some (VBool true) else None;
  qa_limit : t !! "x-delivery-limit" = option_map (λ n, VInt64 (int64 n)) (DeliveryLimit queue);
  qa_priority : t !! "x-max-priority" =
     if queuePriorityPresent (MaxPriority queue) then Some (VInt32 (int32 (MaxPriority queue))) else None;
  qa_ttl : t !! "x-message-ttl" = milliseconds_argument (MessageTTL queue);
  qa_expires : t !! "x-expires" = milliseconds_argument (Expires queue);
  qa_timeout : t !! "x-consumer-timeout" = milliseconds_argument (ConsumerTimeout queue);
  qa_disconnected : t !! "x-consumer-disconnected-timeout" =
     milliseconds_argument (DisconnectedConsumerTimeout queue);
  qa_retry_type : t !! "x-delayed-retry-type" =
     option_map (λ r, VString (DelayedRetry_Type r)) (DelayedRetry queue);
  qa_retry_min : t !! "x-delayed-retry-min" =
     r ← DelayedRetry queue; if retry_enabled r then Some (VInt64 (Milliseconds (DelayedRetry_Minimum r))) else None;
  qa_retry_max : t !! "x-delayed-retry-max" =
     r ← DelayedRetry queue; if retry_enabled r then milliseconds_argument (DelayedRetry_Maximum r) else None;
  qa_length : t !! "x-max-length" = option_map (λ n, VInt64 (int64 n)) (MaxLength queue);
  qa_length_bytes : t !! "x-max-length-bytes" = option_map (λ n, VInt64 (int64 n)) (MaxLengthBytes queue);
  qa_overflow : t !! "x-overflow" =
     if queueOverflowPresent (Overflow queue) then Some (VString (Overflow queue)) else None;
  qa_dlx : t !! "x-dead-letter-exchange" = option_map (λ d, VString (DeadLetter_Exchange d)) (DeadLetter queue);
  qa_dlk : t !! "x-dead-letter-routing-key" =
     d ← DeadLetter queue; option_map VString (DeadLetter_RoutingKey d);
  qa_dls : t !! "x-dead-letter-strategy" =
     d ← DeadLetter queue; if deadLetterStrategyPresent (DeadLetter_Strategy d)
                           then Some (VString (DeadLetter_Strategy d)) else None }.

Lemma queueArguments_spec queue : queue_arguments_spec queue (queueArguments queue).
Proof.
  unfold queueArguments.
  destruct (DelayedRetry queue) as [retry|] eqn:Er; [destruct (retry_enabled retry) eqn:Ee|];
    destruct (DeadLetter queue) as [deadLetter|] eqn:Ed; cbv zeta.
  all: split; rewrite ?Er, ?Ed; simpl; rewrite ?Ee; lookup_arguments.
  all: repeat case_match; done.
Qed.

(** ** What a valid queue is *)

Definition whole_milliseconds (lowest : Z) (value : option Z) : Prop :=
  ∀ d, value = Some d → lowest <= d ∧ Z.rem d Millisecond = 0.

Definition valid_retry (retry : QueueDelayedRetry) : Prop :=
  (DelayedRetry_Type retry = DelayedRetryDisabled
   ∧ DelayedRetry_Minimum retry = 0 ∧ DelayedRetry_Maximum retry = None) ∨
  (DelayedRetry_Type retry ∈ [DelayedRetryAll; DelayedRetryFailed; DelayedRetryReturned]
   ∧ 0 < DelayedRetry_Minimum retry ∧ Z.rem (DelayedRetry_Minimum retry) Millisecond = 0
   ∧ whole_milliseconds (DelayedRetry_Minimum retry) (DelayedRetry_Maximum retry)).

Definition short_text (value : string) : Prop := len value <= 255 ∧ control_free value.

Definition valid_dead_letter (queue : Queue) (deadLetter : QueueDeadLetter) : Prop :=
  short_text (DeadLetter_Exchange deadLetter)
  ∧ (∀ k, DeadLetter_RoutingKey deadLetter = Some k → short_text k)
  ∧ (DeadLetter_Strategy deadLetter = EmptyString ∨ DeadLetter_Strategy deadLetter = DeadLetterAtMostOnce
     ∨ (DeadLetter_Strategy deadLetter = DeadLetterAtLeastOnce ∧ Queue_Type queue = QueueQuorum
        ∧ Overflow queue = QueueOverflowRejectPublish)).

(** The classic and the quorum option sets, which are not interchangeable. *)
Definition classic_policy (queue : Queue) : Prop :=
  Queue_Type queue = QueueClassic ∧ DeliveryLimit queue = None
  ∧ Queue_Exclusive queue = negb (Queue_Durable queue)
  ∧ ConsumerTimeout queue = None ∧ DisconnectedConsumerTimeout queue = None
  ∧ DelayedRetry queue = None
  ∧ ∀ d, DeadLetter queue = Some d → DeadLetter_Strategy d = EmptyString.

Definition quorum_policy (queue : Queue) : Prop :=
  Queue_Type queue = QueueQuorum ∧ Queue_Durable queue = true ∧ Queue_Exclusive queue = false
  ∧ Queue_AutoDelete queue = false ∧ MaxPriority queue = 0
  ∧ Overflow queue ≠ QueueOverflowRejectPublishDeadLetter.

Record valid_queue (queue : Queue) : Prop := {
  vq_name : (Queue_Name queue = EmptyString ∧ Queue_Type queue = QueueClassic ∧ Queue_Exclusive queue = true)
            ∨ valid_identity (Queue_Name queue) 255;
  vq_policy : classic_policy queue ∨ quorum_policy queue;
  vq_ttl : whole_milliseconds 0 (MessageTTL queue);
  vq_expires : whole_milliseconds 1 (Expires queue);
  vq_timeout : whole_milliseconds 0 (ConsumerTimeout queue);
  vq_disconnected : whole_milliseconds 0 (DisconnectedConsumerTimeout queue);
  vq_retry : ∀ r, DelayedRetry queue = Some r → valid_retry r;
  vq_length : ∀ n, MaxLength queue = Some n → n <= max_int64;
  vq_length_bytes : ∀ n, MaxLengthBytes queue = Some n → n <= max_int64;
  vq_overflow : Overflow queue ∈ [EmptyString; QueueOverflowDropHead; QueueOverflowRejectPublish;
                                  QueueOverflowRejectPublishDeadLetter];
  vq_overflow_dlx : Overflow queue = QueueOverflowRejectPublishDeadLetter → is_Some (DeadLetter queue);
  vq_dead_letter : ∀ d, DeadLetter queue = Some d → valid_dead_letter queue d }.

Lemma validQueueDuration_true value allowZero :
  validQueueDuration value allowZero = true ↔
  whole_milliseconds (if allowZero then 0 else 1) value.
Proof.
  unfold validQueueDuration, whole_milliseconds. destruct value as [d|]; [|done].
  split.
  - intros H z [= <-]. destruct allowZero; breflect; lia.
  - intros H. destruct (H d eq_refl) as [? ->]. destruct allowZero; breflect; lia.
Qed.

Lemma validQueueLength_true value :
  validQueueLength value = true ↔ ∀ n, value = Some n → n <= max_int64.
Proof.
  destruct value; simpl; [|done]. split; [intros ? ? [= <-]; lia | intros H; specialize (H _ eq_refl); lia].
Qed.

Lemma validDelayedRetry_true value :
  validDelayedRetry value = true ↔ ∀ r, value = Some r → valid_retry r.
Proof.
  destruct value as [r|]; simpl; [|done].
  assert ((∀ x, Some r = Some x → valid_retry x) ↔ valid_retry r) as ->.
  { split; [intros H; by apply H | by intros ? ? [= <-]]. }
  unfold valid_retry. destruct (String.eqb_spec (DelayedRetry_Type r) DelayedRetryDisabled) as [Ht|Ht].
  { rewrite Ht, andb_true_iff, negb_true_iff, present_false, Z.eqb_eq. split; [tauto|].
    intros [(_&?&?)|[Hin _]]; [done|]. by set_unfold in Hin; destruct_or?. }
  destruct (negb _) eqn:Ein.
  { split; [done|]. intros [(?&_)|(Hin&_)]; [done|]. exfalso. breflect.
    rewrite !elem_of_cons in Hin. destruct_and?. destruct_or?; try done. by apply not_elem_of_nil in Hin. }
  assert (DelayedRetry_Type r ∈ [DelayedRetryAll; DelayedRetryFailed; DelayedRetryReturned]) as Hin.
  { breflect. rewrite !elem_of_cons. tauto. }
  clear Ein. destruct ((DelayedRetry_Minimum r <=? 0) || _) eqn:Emin.
  { split; [done|]. intros [(?&_)|(_&?&?&_)]; [done|]. breflect. lia. }
  destruct (DelayedRetry_Maximum r) as [m|] eqn:Em; cycle 1.
  { split; [intros _|done]. right. breflect. split_and!; try done; lia. }
  rewrite andb_true_iff, Z.eqb_eq, Z.geb_le. breflect. split.
  - intros [? ?]. right. split_and!; try lia; try done. by intros ? [= <-].
  - intros [(?&_)|(_&_&_&Hm)]; [done|]. by destruct (Hm m eq_refl).
Qed.

Lemma queue_type_error_None queue :
  queue_type_error queue = None ↔ classic_policy queue ∨ quorum_policy queue.
Proof.
  unfold queue_type_error, classic_policy, quorum_policy.
  destruct (String.eqb_spec (Queue_Type queue) QueueClassic) as [Ht|Ht].
  - rewrite Ht. destruct (_ || _) eqn:E.
    + split; [done|]. intros [(_&?&Hx&?&?&?&Hs)|(?&_)]; [|done]. exfalso.
      rewrite !orb_true_iff in E.
      repeat match goal with H : _ = None |- _ => rewrite H in E end. simpl in E.
      rewrite Hx in E. destruct (Queue_Durable queue); simpl in E;
      destruct (DeadLetter queue) as [d|]; try (rewrite (Hs d) in E by done); simpl in E;
      destruct_or?; done.
    + split; [intros _; left | done]. breflect. destruct_and?.
      split_and!; try done.
      * destruct (Queue_Exclusive queue), (Queue_Durable queue); simpl in *; destruct_or?; done.
      * intros d Hd. rewrite Hd in *. by breflect.
  - destruct (String.eqb_spec (Queue_Type queue) QueueQuorum) as [Hq|Hq].
    + destruct (_ || _) eqn:E; breflect.
      * split; [done|]. intros [(?&_)|(_&?&?&?&?&?)]; [done|]. destruct_or?; congruence.
      * split; [intros _; right | done]. destruct_and?. done.
    + split; [done|]. intros [(?&_)|(?&_)]; done.
Qed.

Lemma dead_letter_error_None queue :
  dead_letter_error queue = None ↔ ∀ d, DeadLetter queue = Some d → valid_dead_letter queue d.
Proof.
  unfold dead_letter_error. destruct (DeadLetter queue) as [d|]; [|done].
  assert ((∀ x, Some d = Some x → valid_dead_letter queue x) ↔ valid_dead_letter queue d) as ->.
  { split; [intros H; by apply H | by intros ? ? [= <-]]. }
  unfold valid_dead_letter, short_text. setoid_rewrite <- containsControl_false.
  destruct (_ || _ || _) eqn:E.
  { split; [done|]. intros ([??]&Hk&_). exfalso. rewrite !orb_true_iff in E.
    destruct (DeadLetter_RoutingKey d) as [k|]; [destruct (Hk k eq_refl)|]; breflect;
      destruct_or?; try lia; congruence. }
  apply orb_false_iff in E as [E Ek]. apply orb_false_iff in E as [E1 E2].
  assert (∀ k, DeadLetter_RoutingKey d = Some k → len k <= 255 ∧ containsControl k = false) as Hk.
  { intros k Hk. rewrite Hk in Ek. breflect. lia || (destruct Ek; split; [lia|done]). }
  destruct (_ || _) eqn:Es.
  { split; [intros _|done]. breflect. split_and!; [lia|done|done|tauto]. }
  breflect. destruct Es as [Es1 Es2].
  destruct (String.eqb_spec (DeadLetter_Strategy d) DeadLetterAtLeastOnce) as [Hs|Hs].
  - destruct (_ || _) eqn:Eo; breflect.
    + split; [done|]. intros (_&_&[?|[?|(_&?&?)]]); try done. destruct_or?; done.
    + split; [intros _|done]. split_and!; [lia|done|done|tauto].
  - split; [done|]. intros (_&_&[?|[?|(?&_)]]); done.
Qed.

(** The checks of [Queue.Validate], in order, against the policy they decide. *)
Lemma Queue_Validate_valid queue : Queue_Validate queue = None ↔ valid_queue queue.
Proof.
  unfold Queue_Validate. split.
  - intros Hv.
    destruct (if Queue_Name queue =s "" then _ else _) eqn:Ename; [done|].
    destruct (queue_type_error queue) eqn:Etype; [done|].
    destruct (_ || _) eqn:Eopt in Hv; [done|].
    destruct (negb _) eqn:Eover in Hv; [done|].
    destruct (_ && _) eqn:Edlx in Hv; [done|].
    rewrite dead_letter_error_None in Hv. rewrite queue_type_error_None in Etype.
    repeat match goal with H : _ || _ = false |- _ => apply orb_false_iff in H as [? ?] end.
    rewrite negb_false_iff in *. unfold validConsumerTimeout in *.
    rewrite validQueueDuration_true, validQueueLength_true, validDelayedRetry_true in *.
    split; try done.
    + destruct (String.eqb_spec (Queue_Name queue) ""); [left | right; apply invalidIdentity_valid; by case_match].
      case_match; [done|]. by breflect.
    + breflect. rewrite !elem_of_cons. tauto.
    + intros Ho. rewrite Ho in Edlx. destruct (DeadLetter queue); [by eexists | done].
  - intros [Hname ???????? Hover Hdlx ?].
    rewrite (proj2 (queue_type_error_None _)), (proj2 (dead_letter_error_None _)) by done.
    rewrite (proj2 (validQueueDuration_true (MessageTTL queue) true)) by done.
    rewrite (proj2 (validQueueDuration_true (Expires queue) false)) by done.
    unfold validConsumerTimeout.
    rewrite !(proj2 (validQueueDuration_true _ true)) by done.
    rewrite (proj2 (validDelayedRetry_true _)), !(proj2 (validQueueLength_true _)) by done.
    assert (negb ((Overflow queue =s "") || (Overflow queue =s QueueOverflowDropHead)
      || (Overflow queue =s QueueOverflowRejectPublish)
      || (Overflow queue =s QueueOverflowRejectPublishDeadLetter)) = false) as ->.
    { rewrite !elem_of_cons in Hover. breflect.
      destruct Hover as [?|[?|[?|[?|Hn]]]]; try tauto. by apply not_elem_of_nil in Hn. }
    assert ((Overflow queue =s QueueOverflowRejectPublishDeadLetter) && negb (present (DeadLetter queue))
      = false) as ->.
    { destruct (String.eqb_spec (Overflow queue) QueueOverflowRejectPublishDeadLetter); [|done].
      destruct Hdlx as [d ->]; done. }
    destruct Hname as [(->&->&->)|Hid]; [done|]. apply invalidIdentity_valid in Hid. rewrite Hid.
    destruct (Queue_Name queue =s "") eqn:E; [|done].
    apply String.eqb_eq in E. by rewrite E in Hid.
Qed.

(** [Queue.Validate] accepts exactly the documented subset: a server-named
    queue only when classic and exclusive, the classic and the quorum option
    sets kept apart, whole-millisecond durations, lengths that fit the signed
    argument, and dead-letter strategies only where the broker supports them. *)
Theorem Queue_Validate_spec queue : Queue_Validate queue = None ↔ valid_queue queue.
Proof. apply Queue_Validate_valid. Qed.

(** ** Distinct policies are declared with distinct arguments *)

Lemma milliseconds_argument_inj a b la lb :
  whole_milliseconds la a → whole_milliseconds lb b →
  milliseconds_argument a = milliseconds_argument b → a = b.
Proof.
  unfold milliseconds_argument. intros Ha Hb.
  destruct a as [a|], b as [b|]; simpl; intros Heq; try done. f_equal. injection Heq as Heq.
  destruct (Ha a eq_refl) as [_ Ra], (Hb b eq_refl) as [_ Rb].
  rewrite <- (Milliseconds_exact a Ra), <- (Milliseconds_exact b Rb). congruence.
Qed.

Lemma int64_argument_inj a b :
  (∀ n, a = Some n → is_int64 n) → (∀ n, b = Some n → is_int64 n) →
  option_map (λ n, VInt64 (int64 n)) a = option_map (λ n, VInt64 (int64 n)) b → a = b.
Proof.
  intros Ha Hb. destruct a as [a|], b as [b|]; simpl; intros Heq; try done. injection Heq as Heq.
  rewrite !int64_small in Heq by eauto. congruence.
Qed.

Lemma retry_argument_inj a b :
  (∀ r, a = Some r → valid_retry r) → (∀ r, b = Some r → valid_retry r) →
  option_map (λ r, VString (DelayedRetry_Type r)) a = option_map (λ r, VString (DelayedRetry_Type r)) b →
  (r ← a; if retry_enabled r then Some (VInt64 (Milliseconds (DelayedRetry_Minimum r))) else None)
  = (r ← b; if retry_enabled r then Some (VInt64 (Milliseconds (DelayedRetry_Minimum r))) else None) →
  (r ← a; if retry_enabled r then milliseconds_argument (DelayedRetry_Maximum r) else None)
  = (r ← b; if retry_enabled r then milliseconds_argument (DelayedRetry_Maximum r) else None) →
  a = b.
Proof.
  intros Ha Hb. destruct a as [[ta ma xa]|], b as [[tb mb xb]|]; simpl; [|done..].
  intros [= <-]. unfold retry_enabled. simpl.
  specialize (Ha _ eq_refl). specialize (Hb _ eq_refl). unfold valid_retry in *. simpl in *.
  destruct (String.eqb_spec ta DelayedRetryDisabled) as [->|Hne]; simpl.
  - intros _ _. destruct Ha as [(_&->&->)|(Ha&_)], Hb as [(_&->&->)|(Hb&_)]; [done|..];
      exfalso; first [set_unfold in Ha; by destruct_or? | set_unfold in Hb; by destruct_or?].
  - destruct Ha as [(?&_)|(_&_&Ra&Xa)], Hb as [(?&_)|(_&_&Rb&Xb)]; [done..|].
    intros [= Hm] Hx. rewrite <- (Milliseconds_exact ma Ra), <- (Milliseconds_exact mb Rb), Hm.
    by rewrite (milliseconds_argument_inj _ _ _ _ Xa Xb Hx).
Qed.

Lemma dead_letter_argument_inj a b :
  option_map (λ d, VString (DeadLetter_Exchange d)) a = option_map (λ d, VString (DeadLetter_Exchange d)) b →
  (d ← a; option_map VString (DeadLetter_RoutingKey d)) = (d ← b; option_map VString (DeadLetter_RoutingKey d)) →
  (d ← a; if deadLetterStrategyPresent (DeadLetter_Strategy d) then Some (VString (DeadLetter_Strategy d)) else None)
  = (d ← b; if deadLetterStrategyPresent (DeadLetter_Strategy d) then Some (VString (DeadLetter_Strategy d)) else None) →
  a = b.
Proof.
  destruct a as [[xa ka sa]|], b as [[xb kb sb]|]; simpl; [|done..].
  unfold deadLetterStrategyPresent. intros [= <-] Hk Hs. f_equal. f_equal.
  - destruct ka, kb; simpl in Hk; congruence.
  - destruct (String.eqb_spec sa ""), (String.eqb_spec sb ""); simpl in Hs; congruence.
Qed.

Lemma is_int64_of_uint n : 0 <= n <= max_int64 → is_int64 n.
Proof. unfold is_int64, max_int64. lia. Qed.

(** The declaration arguments lose no policy: two valid queues with the same
    name and flags that are declared with the same arguments are the same queue
    policy, so every omitted, zero or explicit option the caller can express
    reaches the broker as a distinct declaration. *)
Theorem queueArguments_injective q1 q2 :
  Queue_Validate q1 = None → Queue_Validate q2 = None → well_typed_queue q1 → well_typed_queue q2 →
  Queue_Name q1 = Queue_Name q2 → Queue_Durable q1 = Queue_Durable q2 →
  Queue_AutoDelete q1 = Queue_AutoDelete q2 → Queue_Exclusive q1 = Queue_Exclusive q2 →
  queueArguments q1 = queueArguments q2 → q1 = q2.
Proof.
  rewrite !Queue_Validate_valid. intros V1 V2 W1 W2 Hn Hd Ha He Heq.
  pose proof (queueArguments_spec q1) as S1. pose proof (queueArguments_spec q2) as S2.
  rewrite <- Heq in S2. destruct S1, S2. clear Heq.
  assert (∀ q, well_typed_queue q → ∀ n, DeliveryLimit q = Some n → is_int64 n) as Hlim.
  { intros q W n Hl. apply (wq_limit q W) in Hl. unfold is_int64, max_int64. lia. }
  assert (∀ q, valid_queue q → well_typed_queue q → ∀ n, MaxLength q = Some n → is_int64 n) as Hlen.
  { intros q V W n Hl. apply is_int64_of_uint. split; [by apply (wq_length q W) in Hl as [? _] | by eapply vq_length]. }
  assert (∀ q, valid_queue q → well_typed_queue q → ∀ n, MaxLengthBytes q = Some n → is_int64 n) as Hbytes.
  { intros q V W n Hl. apply is_int64_of_uint. split; [by apply (wq_length_bytes q W) in Hl as [? _] | by eapply vq_length_bytes]. }
  assert (MaxPriority q1 = MaxPriority q2) as Hprio.
  { rewrite qa_priority0 in qa_priority1. unfold queuePriorityPresent in qa_priority1.
    pose proof (wq_priority q1 W1). pose proof (wq_priority q2 W2).
    rewrite !wrap_s_small in qa_priority1 by lia.
    destruct (Z.eqb_spec (MaxPriority q1) 0), (Z.eqb_spec (MaxPriority q2) 0); simpl in *; congruence. }
  assert (Overflow q1 = Overflow q2) as Hover.
  { rewrite qa_overflow0 in qa_overflow1. unfold queueOverflowPresent in qa_overflow1.
    destruct (String.eqb_spec (Overflow q1) ""), (String.eqb_spec (Overflow q2) ""); simpl in *; congruence. }
  assert (SingleActiveConsumer q1 = SingleActiveConsumer q2) as Hsac.
  { rewrite qa_sac0 in qa_sac1. by destruct (SingleActiveConsumer q1), (SingleActiveConsumer q2). }
  destruct V1, V2.
  assert (DelayedRetry q1 = DelayedRetry q2) as Hretry
    by (apply retry_argument_inj; [done|done| by etrans..]).
  assert (DeadLetter q1 = DeadLetter q2) as Hdl by (apply dead_letter_argument_inj; by etrans).
  assert (DeliveryLimit q1 = DeliveryLimit q2) as H1
    by (apply int64_argument_inj; [by apply Hlim.. | by etrans]).
  assert (MaxLength q1 = MaxLength q2) as H2 by (apply int64_argument_inj; [by apply Hlen.. | by etrans]).
  assert (MaxLengthBytes q1 = MaxLengthBytes q2) as H3
    by (apply int64_argument_inj; [by apply Hbytes.. | by etrans]).
  assert (MessageTTL q1 = MessageTTL q2) as H4 by (eapply milliseconds_argument_inj; [done..|by etrans]).
  assert (Expires q1 = Expires q2) as H5 by (eapply milliseconds_argument_inj; [done..|by etrans]).
  assert (ConsumerTimeout q1 = ConsumerTimeout q2) as H6
    by (eapply milliseconds_argument_inj; [done..|by etrans]).
  assert (DisconnectedConsumerTimeout q1 = DisconnectedConsumerTimeout q2) as H7
    by (eapply milliseconds_argument_inj; [done..|by etrans]).
  rewrite qa_type0 in qa_type1. injection qa_type1 as Htype.
  clear -Hn Hd Ha He Hprio Hover Hsac Hretry Hdl H1 H2 H3 H4 H5 H6 H7 Htype.
  destruct q1, q2; simpl in *. by subst.
Qed.

Definition example_queue : Queue :=
  mkQueue "orders" QueueQuorum true false false true (Some 5) 0 (Some (1500 * Millisecond)) None
    (Some 0) None (Some (mkQueueDelayedRetry DelayedRetryAll Second (Some Minute)))
    (Some 10000) None QueueOverflowRejectPublish
    (Some (mkQueueDeadLetter "dlx" (Some EmptyString) DeadLetterAtLeastOnce)).

Lemma queueArguments_injective_witness :
  Queue_Validate example_queue = None ∧ example_queue = example_queue.
Proof.
  assert (well_typed_queue example_queue) as W.
  { split; simpl; intros; simplify_eq; unfold is_uint64, max_uint64; lia. }
  split; [by vm_compute|].
  exact (queueArguments_injective example_queue example_queue eq_refl eq_refl W W
           eq_refl eq_refl eq_refl eq_refl eq_refl).
Defined.

(** ** What a valid topology is *)

Definition valid_exchange (exchange : Exchange) : Prop :=
  valid_identity (Exchange_Name exchange) 255
  ∧ Exchange_Kind exchange ∈ ["direct"; "topic"; "fanout"; "headers"].

(** The arguments of a binding: unique keys, none of them the package's token,
    canonical values, text without control characters, at most 128 of them in
    64 KiB. *)
Definition valid_argument (argument : Header) : Prop :=
  valid_identity (Header_Key argument) 255
  ∧ Header_Key argument ≠ "x-rabbitmqqueue-publish-token"
  ∧ (∃ n, canonical_header argument n)
  ∧ (Header_Kind argument = HeaderString → control_free (Header_String argument)).

Record valid_arguments (arguments : list Header) : Prop := {
  va_count : llen arguments <= 128;
  va_each : ∀ a, a ∈ arguments → valid_argument a;
  va_keys : NoDup (map Header_Key arguments);
  va_bytes : sumZ header_size arguments <= 65536 }.

(** How a headers exchange matches: the mode an [x-match] argument names, or
    [all]. *)
Definition match_mode (arguments : list Header) (mode : string) : Prop :=
  (∃ a, a ∈ arguments ∧ Header_Key a = "x-match" ∧ Header_Kind a = HeaderString ∧ Header_String a = mode)
  ∨ (∀ a, a ∈ arguments → Header_Key a ≠ "x-match") ∧ mode = "all".

(** A headers binding has a known mode and an argument that the mode compares: the
    modes without [x] ignore the keys that start with [x-]. *)
Definition matches_headers (arguments : list Header) : Prop :=
  ∃ mode, match_mode arguments mode ∧ mode ∈ ["all"; "any"; "all-with-x"; "any-with-x"]
  ∧ ∃ a, a ∈ arguments ∧ Header_Key a ≠ "x-match"
         ∧ (mode ∈ ["all-with-x"; "any-with-x"] ∨ ¬ ∃ rest, Header_Key a = "x-" +:+ rest).

(** What a binding to an exchange of each kind may say. *)
Record valid_binding (kind : ExchangeKind) (routingKey : string) (arguments : list Header) : Prop := {
  vb_routing_key : short_text routingKey;
  vb_arguments : valid_arguments arguments;
  vb_kind : (kind = "direct" ∨ kind = "topic") ∧ arguments = []
            ∨ kind = "fanout" ∧ routingKey = EmptyString ∧ arguments = []
            ∨ kind = "headers" ∧ routingKey = EmptyString ∧ matches_headers arguments }.

Record valid_topology (topology : Topology) (policy : TopologyPolicy) : Prop := {
  vt_policy : Policy_Mode policy = TopologyPassive ∨
              (Policy_Mode policy = TopologyDeclare ∧ permit_allowed (Policy_Development policy) = true);
  vt_nonempty : 0 < llen (Exchanges topology) + llen (Queues topology);
  vt_exchange_count : llen (Exchanges topology) <= 128;
  vt_queue_count : llen (Queues topology) <= 128;
  vt_binding_count : llen (Bindings topology) <= 512;
  vt_passive : Policy_Mode policy = TopologyPassive → Bindings topology = [];
  vt_exchanges : ∀ e, e ∈ Exchanges topology → valid_exchange e;
  vt_exchange_names : NoDup (map Exchange_Name (Exchanges topology));
  vt_queues : ∀ q, q ∈ Queues topology →
    valid_queue q ∧ Queue_Exclusive q = false ∧ Queue_Name q ≠ EmptyString;
  vt_queue_names : NoDup (map Queue_Name (Queues topology));
  vt_bindings : ∀ b, b ∈ Bindings topology →
    (∃ e, e ∈ Exchanges topology ∧ Exchange_Name e = Binding_Exchange b
          ∧ valid_binding (Exchange_Kind e) (Binding_RoutingKey b) (Binding_Arguments b))
    ∧ ∃ q, q ∈ Queues topology ∧ Queue_Name q = Binding_Queue b }.

Lemma Exchange_Validate_None exchange : Exchange_Validate exchange = None ↔ valid_exchange exchange.
Proof.
  unfold Exchange_Validate, valid_exchange. rewrite <- invalidIdentity_valid, !elem_of_cons.
  destruct (invalidIdentity _ _); [split; [done|by intros [? _]]|].
  destruct (_ || _) eqn:E; breflect; unfold ExchangeDirect, ExchangeTopic, ExchangeFanout, ExchangeHeaders in *.
  - split; [|done]. tauto.
  - split; [done|]. intros (_ & [?|[?|[?|[?|Hn]]]]); try tauto. by apply not_elem_of_nil in Hn.
Qed.

Lemma argument_value_bytes_Some argument n :
  argument_value_bytes argument = Some n ↔
  canonical_header argument n ∧ (Header_Kind argument = HeaderString → control_free (Header_String argument)).
Proof.
  unfold argument_value_bytes. rewrite <- header_value_bytes_Some, <- containsControl_false.
  destruct (Z.eqb_spec (Header_Kind argument) HeaderString) as [Hk|Hk]; simpl; [|tauto].
  destruct (containsControl _); [|tauto]. split; [done|]. intros [_ H]. by specialize (H Hk).
Qed.

(** The loop with its running count and its [seen] set against the whole list. *)
Lemma validate_arguments_spec seen n arguments :
  n <= 65536 →
  validate_arguments DefaultLimits seen n arguments = true ↔
  (∀ a, a ∈ arguments → valid_argument a) ∧ NoDup (map Header_Key arguments)
  ∧ (∀ a, a ∈ arguments → Header_Key a ∉ seen) ∧ n + sumZ header_size arguments <= 65536.
Proof.
  revert seen n. induction arguments as [|a arguments IH]; intros seen n Hn; cbn [validate_arguments sumZ].
  { split; [intros _ | done]. split_and!; [|constructor| |simpl; lia]; intros ? Hx; by apply not_elem_of_nil in Hx. }
  assert (0 <= sumZ header_size arguments) by (apply sumZ_nonneg; auto with go).
  rewrite !(forall_cons _ a arguments), nodup_names_cons. change (MaxNameBytes DefaultLimits) with 255.
  change (MaxHeaderBytes DefaultLimits) with 65536. unfold valid_argument at 1. rewrite <- invalidIdentity_valid.
  destruct (invalidIdentity _ _); [split; [done | by intros (((?&_)&_)&_)] |].
  destruct (String.eqb_spec (Header_Key a) publishTokenHeader) as [He|Hne]; [split; [done | by intros (((_&?&_)&_)&_)] |].
  cbn [orb]. case_bool_decide as E3; [split; [done | by intros (_&_&[??]&_)] |].
  destruct (argument_value_bytes a) as [k|] eqn:E4; cycle 1.
  { split; [done|]. intros (((_&_&[m Hm]&Hc)&_)&_).
    by rewrite (proj2 (argument_value_bytes_Some a m) (conj Hm Hc)) in E4. }
  apply argument_value_bytes_Some in E4 as [Hk Hc]. pose proof (canonical_header_size _ _ Hk) as Hsize.
  pose proof (header_size_nonneg a). simpl. destruct (_ >? _) eqn:E5; [split; [done | intros; lia] |].
  rewrite IH by lia. setoid_rewrite not_elem_of_union. setoid_rewrite not_elem_of_singleton.
  split.
  - intros (?&?&Hs&?). split_and!; try done; first [lia | by eexists | intros; by apply Hs].
  - intros ((_&?)&[??]&[??]&?). split_and!; try done; [|lia]. intros; split; auto.
Qed.

Lemma validBindingArguments_true arguments :
  validBindingArguments arguments = true ↔ valid_arguments arguments.
Proof.
  unfold validBindingArguments, validBindingArgumentsWithLimits. change (MaxHeaderEntries DefaultLimits) with 128.
  destruct (llen arguments >? 128) eqn:E; [split; [done|intros []; lia]|].
  rewrite validate_arguments_spec by lia. split.
  - intros (?&?&_&?). split; try done; lia.
  - intros []. by split_and!.
Qed.

(** The [x-match] loop: with unique keys its last match is the only one. *)
Lemma binding_match_Some default_mode arguments mode :
  NoDup (map Header_Key arguments) →
  binding_match default_mode arguments = Some mode ↔
  (∃ a, a ∈ arguments ∧ Header_Key a = "x-match" ∧ Header_Kind a = HeaderString ∧ Header_String a = mode
        ∧ mode ∈ ["all"; "any"; "all-with-x"; "any-with-x"])
  ∨ (∀ a, a ∈ arguments → Header_Key a ≠ "x-match") ∧ mode = default_mode.
Proof.
  revert default_mode mode. induction arguments as [|a arguments IH]; intros m mode Hnd; cbn [binding_match].
  { split; [intros [= ->]; right; split; [by intros a ?%not_elem_of_nil|done]|].
    intros [(a & ?%not_elem_of_nil & _)|[_ ->]]; done. }
  apply nodup_names_cons in Hnd as [Hnd Hne].
  assert (∀ b, b ∈ a :: arguments ↔ b = a ∨ b ∈ arguments) as Hcons by (intros; apply elem_of_cons).
  setoid_rewrite Hcons.
  destruct (String.eqb_spec (Header_Key a) "x-match") as [Hk|Hk]; cbn [negb].
  - assert (∀ m', binding_match m' arguments = Some m') as Hrest.
    { intros m'. apply IH; [done|]. right. split; [|done]. intros b Hb Heq. apply (Hne b Hb). congruence. }
    destruct (Z.eqb_spec (Header_Kind a) HeaderString) as [Hkind|Hkind]; cbn [negb]; cycle 1.
    { split; [done|]. intros [(b & [->|Hb] & Hkb & Hs & _)|[Hall _]]; [done| |by destruct (Hall a (or_introl eq_refl))].
      destruct (Hne b Hb). congruence. }
    rewrite Hrest. assert (∀ x : string, x ∈ ["all"; "any"; "all-with-x"; "any-with-x"] ↔
      (x =s "all") || (x =s "any") || (x =s "all-with-x") || (x =s "any-with-x") = true) as Hmodes.
    { intros x. rewrite !elem_of_cons, elem_of_nil. breflect. tauto. }
    setoid_rewrite Hmodes. destruct (_ || _) eqn:E.
    + split; [intros [= <-]; left; exists a; split_and!; auto|].
      intros [(b & [->|Hb] & Hkb & _ & <- & _)|[Hall _]]; [done| |by destruct (Hall a (or_introl eq_refl))].
      destruct (Hne b Hb). congruence.
    + split; [done|]. intros [(b & [->|Hb] & Hkb & _ & <- & Hm)|[Hall _]];
        [congruence| |by destruct (Hall a (or_introl eq_refl))]. destruct (Hne b Hb). congruence.
  - rewrite IH by done. split.
    + intros [(b & Hb & Hrest)|[Hall ->]]; [left; exists b; auto|]. right. split; [|done]. intros b [->|Hb]; auto.
    + intros [(b & [->|Hb] & Hkb & Hrest)|[Hall ->]]; [done|left; exists b; auto|]. right. auto.
Qed.

Lemma HasPrefix_true value prefix : HasPrefix value prefix = true ↔ ∃ rest, value = prefix +:+ rest.
Proof.
  unfold HasPrefix. revert value. induction prefix as [|c prefix IH]; intros value.
  - split; [by exists value|]. by destruct value.
  - destruct value as [|d value]; [split; [done|by intros [rest ?]]|]. simpl.
    destruct (Ascii.ascii_dec c d) as [->|Hne].
    + rewrite IH. split; intros [rest Hr]; exists rest; [by rewrite Hr|by injection Hr].
    + split; [done|]. intros [rest Hr]. injection Hr as ->. done.
Qed.

Lemma validHeadersBindingArguments_true arguments :
  NoDup (map Header_Key arguments) →
  validHeadersBindingArguments arguments = true ↔ matches_headers arguments.
Proof.
  intros Hnd. unfold validHeadersBindingArguments, matches_headers, match_mode.
  pose proof (binding_match_Some "all" arguments) as Hmatch.
  destruct (binding_match "all" arguments) as [mode|]; cycle 1.
  { split; [done|]. intros (mode & Hmode & Hin & _). enough (None = Some mode) by done. apply (Hmatch mode Hnd).
    destruct Hmode as [(a & ? & ? & ? & ?)|Hnone]; [left; by exists a|by right]. }
  assert (match_mode arguments mode ∧ mode ∈ ["all"; "any"; "all-with-x"; "any-with-x"]) as [Hmode Hin].
  { destruct (proj1 (Hmatch mode Hnd) eq_refl) as [(a & ? & ? & ? & ? & ?)|[? ->]].
    - split; [left; by exists a|done].
    - split; [by right|by left]. }
  assert (∀ m, match_mode arguments m → m ∈ ["all"; "any"; "all-with-x"; "any-with-x"] → m = mode) as Huniq.
  { intros m Hm Hmin. enough (Some mode = Some m) by congruence. apply (Hmatch m Hnd).
    destruct Hm as [(a & ? & ? & ? & ?)|Hnone]; [left; by exists a|by right]. }
  assert (∀ a, negb (Header_Key a =s "x-match")
    && ((mode =s "all-with-x") || (mode =s "any-with-x") || negb (HasPrefix (Header_Key a) "x-")) = true
    ↔ Header_Key a ≠ "x-match" ∧ (mode ∈ ["all-with-x"; "any-with-x"] ∨ ¬ ∃ rest, Header_Key a = "x-" +:+ rest)) as Ha.
  { intros a. rewrite <- HasPrefix_true, !elem_of_cons, elem_of_nil. breflect. rewrite not_true_iff_false. tauto. }
  rewrite existsb_true. setoid_rewrite Ha. split.
  - intros (a & Hin' & H). exists mode. split; [done|]. split; [done|]. by exists a.
  - intros (m & Hm & Hmin & a & ? & H). rewrite (Huniq m Hm Hmin) in H. by exists a.
Qed.

Lemma validExchangeBinding_true kind routingKey arguments :
  validExchangeBinding kind routingKey arguments = true ↔ valid_binding kind routingKey arguments.
Proof.
  unfold validExchangeBinding, validExchangeBindingWithLimits. change (MaxRoutingKeyBytes DefaultLimits) with 255.
  change (validBindingArgumentsWithLimits arguments DefaultLimits) with (validBindingArguments arguments).
  assert (short_text routingKey ↔ (len routingKey >? 255) || containsControl routingKey = false) as Hkey.
  { unfold short_text. rewrite <- containsControl_false. breflect. intuition lia. }
  destruct (_ || containsControl routingKey); [split; [done|]; by intros [H%Hkey _ _]|].
  apply proj2 in Hkey. specialize (Hkey eq_refl). destruct (validBindingArguments arguments) eqn:E2; cbn [negb orb]; cycle 1.
  { split; [done|]. intros [_ H%validBindingArguments_true _]. congruence. }
  apply validBindingArguments_true in E2.
  unfold ExchangeDirect, ExchangeTopic, ExchangeFanout, ExchangeHeaders.
  assert ((llen arguments =? 0) = true ↔ arguments = []) as Hnil
    by (rewrite Z.eqb_eq; unfold llen; destruct arguments; simpl; split; (done || lia)).
  transitivity ((kind = "direct" ∨ kind = "topic") ∧ arguments = []
     ∨ kind = "fanout" ∧ routingKey = EmptyString ∧ arguments = []
     ∨ kind = "headers" ∧ routingKey = EmptyString ∧ matches_headers arguments);
    [|split; [by split|by intros []]].
  rewrite <- (validHeadersBindingArguments_true arguments) by apply E2.
  destruct (String.eqb_spec kind "direct") as [->|]; [simpl; rewrite Hnil; intuition done|].
  destruct (String.eqb_spec kind "topic") as [->|]; [simpl; rewrite Hnil; intuition done|].
  destruct (String.eqb_spec kind "fanout") as [->|];
    [simpl; rewrite andb_true_iff, String.eqb_eq, Hnil; intuition done|].
  destruct (String.eqb_spec kind "headers") as [->|];
    [simpl; rewrite andb_true_iff, String.eqb_eq; intuition done|].
  simpl. intuition done.
Qed.

Lemma validate_exchanges_spec m l :
  match validate_exchanges m l with
  | inr m' =>
    (∀ e, e ∈ l → Exchange_Validate e = None ∧ m !! Exchange_Name e = None)
    ∧ NoDup (map Exchange_Name l)
    ∧ ∀ k kind, m' !! k = Some kind ↔
        m !! k = Some kind ∨ ∃ e, e ∈ l ∧ Exchange_Name e = k ∧ Exchange_Kind e = kind
  | inl _ =>
    ¬ ((∀ e, e ∈ l → Exchange_Validate e = None ∧ m !! Exchange_Name e = None)
       ∧ NoDup (map Exchange_Name l))
  end.
Proof.
  revert m. induction l as [|e l IH]; intros m.
  { simpl. split_and!; [|constructor|].
    - intros ? He. by apply not_elem_of_nil in He.
    - intros k kind. split; [auto|]. intros [?|(e&He&_)]; [done|]. by apply not_elem_of_nil in He. }
  cbn [validate_exchanges].
  destruct (Exchange_Validate e) eqn:Ev; [rewrite (forall_cons _ e l); intros [[[? _] _] _]; congruence|].
  destruct (m !! Exchange_Name e) as [x|] eqn:Em; cbn [present];
    [rewrite (forall_cons _ e l); intros [[[_ ?] _] _]; congruence|].
  specialize (IH (<[Exchange_Name e := Exchange_Kind e]> m)).
  assert ((∀ y, y ∈ l → Exchange_Validate y = None ∧ <[Exchange_Name e:=Exchange_Kind e]> m !! Exchange_Name y = None)
    ↔ (∀ y, y ∈ l → Exchange_Validate y = None ∧ m !! Exchange_Name y = None)
      ∧ ∀ y, y ∈ l → Exchange_Name y ≠ Exchange_Name e) as Hsplit.
  { split.
    - intros H. split; intros y Hy; destruct (H y Hy) as [? Hl];
        apply lookup_insert_None in Hl as [? ?]; auto.
    - intros [H1 H2] y Hy. destruct (H1 y Hy). split; [done|]. rewrite lookup_insert_ne; auto.
      intros Heq. by apply (H2 y Hy). }
  destruct (validate_exchanges _ l) as [err|m']; rewrite (forall_cons _ e l), nodup_names_cons.
  - intros ([_ ?] & ? & ?). apply IH. split; [|done]. apply Hsplit. split; done.
  - destruct IH as (Hl & Hnd & Hm'). apply Hsplit in Hl as [??]. split_and!; try done.
    intros k kind. rewrite Hm', lookup_insert_Some. setoid_rewrite elem_of_cons. split.
    + intros [[[<- <-]|[? ?]]|(y&?&?&?)]; [right; exists e; auto | by left | right; exists y; auto].
    + intros [Hk|(y&[->|?]&<-&<-)]; [|by left; left|right; exists y; auto].
      left. right. split; [|done]. intros <-. congruence.
Qed.

Lemma validate_queues_spec m l :
  match validate_queues m l with
  | inr m' =>
    (∀ q, q ∈ l → (Queue_Validate q = None ∧ Queue_Exclusive q = false ∧ Queue_Name q ≠ EmptyString)
                  ∧ Queue_Name q ∉ m)
    ∧ NoDup (map Queue_Name l)
    ∧ ∀ k, k ∈ m' ↔ k ∈ m ∨ ∃ q, q ∈ l ∧ Queue_Name q = k
  | inl _ =>
    ¬ ((∀ q, q ∈ l → (Queue_Validate q = None ∧ Queue_Exclusive q = false ∧ Queue_Name q ≠ EmptyString)
                     ∧ Queue_Name q ∉ m)
       ∧ NoDup (map Queue_Name l))
  end.
Proof.
  revert m. induction l as [|q l IH]; intros m.
  { simpl. split_and!; [|constructor|].
    - intros ? Hq. by apply not_elem_of_nil in Hq.
    - intros k. split; [auto|]. intros [?|(q&Hq&_)]; [done|]. by apply not_elem_of_nil in Hq. }
  cbn [validate_queues].
  destruct (Queue_Validate q) eqn:Ev; [rewrite (forall_cons _ q l); intros [[[[? _] _] _] _]; congruence|].
  destruct (Queue_Exclusive q || _) eqn:Ex.
  { apply orb_true_iff in Ex. rewrite String.eqb_eq in Ex.
    rewrite (forall_cons _ q l). intros [[[(_&?&?) _] _] _]. destruct Ex; congruence. }
  apply orb_false_iff in Ex as [Ex1 Ex2%String.eqb_neq].
  case_bool_decide as Em; [rewrite (forall_cons _ q l); by intros [[[_ ?] _] _]|].
  specialize (IH ({[Queue_Name q]} ∪ m)).
  assert (∀ (P : Queue → Prop),
    (∀ y, y ∈ l → P y ∧ Queue_Name y ∉ {[Queue_Name q]} ∪ m)
    ↔ (∀ y, y ∈ l → P y ∧ Queue_Name y ∉ m) ∧ ∀ y, y ∈ l → Queue_Name y ≠ Queue_Name q) as Hsplit.
  { intros P. setoid_rewrite not_elem_of_union. setoid_rewrite not_elem_of_singleton. split.
    - intros H. split; intros y Hy; destruct (H y Hy) as (?&?&?); done.
    - intros [H1 H2] y Hy. destruct (H1 y Hy). auto. }
  destruct (validate_queues _ l) as [err|m']; rewrite (forall_cons _ q l), nodup_names_cons.
  - intros ([_ ?] & ? & ?). apply IH. split; [|done]. apply Hsplit. done.
  - destruct IH as (Hl & Hnd & Hm'). apply Hsplit in Hl as [??]. split_and!; try done.
    intros k. rewrite Hm', elem_of_union, elem_of_singleton. setoid_rewrite elem_of_cons. split.
    + intros [[->|?]|(y&?&?)]; [right; exists q; auto | by left | right; exists y; auto].
    + intros [?|(y&[->|?]&<-)]; [by left; right | by left; left | right; exists y; auto].
Qed.

Lemma TopologyPolicy_Validate_None policy :
  TopologyPolicy_Validate policy = None ↔
  Policy_Mode policy = TopologyPassive ∨
  (Policy_Mode policy = TopologyDeclare ∧ permit_allowed (Policy_Development policy) = true).
Proof.
  unfold TopologyPolicy_Validate.
  destruct (String.eqb_spec (Policy_Mode policy) TopologyPassive); [tauto|].
  destruct (String.eqb_spec (Policy_Mode policy) TopologyDeclare); [|split; [done|tauto]].
  destruct (permit_allowed _); split; try done; [tauto|]. intros [?|[_ ?]]; done.
Qed.

(** The checks of [Topology.Validate], in order, against the graph they decide. *)
Lemma Topology_Validate_valid topology policy :
  Topology_Validate topology policy = None ↔ valid_topology topology policy.
Proof.
  unfold Topology_Validate.
  pose proof (llen_nonneg (Exchanges topology)). pose proof (llen_nonneg (Queues topology)).
  pose proof (TopologyPolicy_Validate_None policy) as Hpol.
  destruct (TopologyPolicy_Validate policy) eqn:Ep.
  { split; [done|]. intros []. by apply Hpol in vt_policy0. }
  destruct (_ || _) eqn:Ecount; [split; [done | intros []; unfold MaxTopologyExchanges, MaxTopologyQueues, MaxTopologyBindings in *; lia]|].
  destruct (_ && _) eqn:Epass.
  { split; [done|]. intros []. apply andb_true_iff in Epass as [Hm%String.eqb_eq Hb].
    rewrite (vt_passive0 Hm) in Hb. done. }
  pose proof (validate_exchanges_spec ∅ (Exchanges topology)) as Hex.
  destruct (validate_exchanges ∅ _) as [err|exchanges].
  { split; [done|]. intros []. exfalso. apply Hex. split; [|done].
    intros e He. split; [by apply Exchange_Validate_None, vt_exchanges0 | apply lookup_empty]. }
  pose proof (validate_queues_spec ∅ (Queues topology)) as Hqu.
  destruct (validate_queues ∅ _) as [err|queues].
  { split; [done|]. intros []. exfalso. apply Hqu. split; [|done].
    intros q Hq. rewrite Queue_Validate_valid. split; [auto | set_solver]. }
  destruct Hex as (Hex1 & Hex2 & Hex3), Hqu as (Hqu1 & Hqu2 & Hqu3).
  assert (∀ b, binding_rejected exchanges queues b = false ↔
    (∃ e, e ∈ Exchanges topology ∧ Exchange_Name e = Binding_Exchange b
          ∧ valid_binding (Exchange_Kind e) (Binding_RoutingKey b) (Binding_Arguments b))
    ∧ ∃ q, q ∈ Queues topology ∧ Queue_Name q = Binding_Queue b) as Hb.
  { intros b. unfold binding_rejected. setoid_rewrite <- validExchangeBinding_true. specialize (Hex3 (Binding_Exchange b)).
    specialize (Hqu3 (Binding_Queue b)). rewrite lookup_empty in Hex3.
    destruct (exchanges !! Binding_Exchange b) as [kind|] eqn:El.
    - destruct (proj1 (Hex3 kind) eq_refl) as [?|(e&He&Hn&Hk)]; [done|].
      rewrite orb_false_iff, !negb_false_iff, bool_decide_eq_true, Hqu3.
      split.
      + intros [[Hq|Hq] Hv]; [set_solver|]. split; [|done]. exists e. by rewrite Hk.
      + intros [(e'&He'&Hn'&Hv') Hq]. split; [by right|].
        assert (Some kind = Some (Exchange_Kind e')) as [= ->]; [|done].
        apply Hex3. right. exists e'. done.
    - split; [done|]. intros [(e&He&Hn&_) _]. exfalso.
      assert (None = Some (Exchange_Kind e)); [|done]. apply Hex3. right. exists e. done. }
  destruct (existsb _ _) eqn:Eb.
  - split; [done|]. intros []. apply existsb_true in Eb as (b & Hin & Hrej).
    apply vt_bindings0, Hb in Hin. congruence.
  - rewrite existsb_false in Eb. split; [intros _|done].
    unfold MaxTopologyExchanges, MaxTopologyQueues, MaxTopologyBindings in *.
    split; try done; try lia.
    + by apply Hpol.
    + intros Hm. rewrite Hm, String.eqb_refl in Epass. cbn [andb] in Epass.
      destruct (Bindings topology) as [|b l]; [done|]. rewrite llen_cons in Epass.
      pose proof (llen_nonneg l). lia.
    + intros e He. by apply Exchange_Validate_None, Hex1.
    + intros q Hq. rewrite <- Queue_Validate_valid. by apply Hqu1.
    + intros b Hin. by apply Hb, Eb.
Qed.

(** C32: [Topology.Validate] accepts exactly the well-formed graphs: a permitted
    policy, bounded non-empty lists, valid exchanges and queues with unique
    names, no exclusive or server-named queue, no bindings in passive mode, and
    every binding pointing at a declared exchange and queue with a routing key and
    arguments that fit the exchange's kind: none for direct, topic and fanout, and
    for headers a known [x-match] mode with something to compare. *)
Theorem Topology_Validate_spec topology policy :
  Topology_Validate topology policy = None ↔ valid_topology topology policy.
Proof. apply Topology_Validate_valid. Qed.
