(* ===== verification/Settlement.v ===== *)
(** * Settlement: settlement requests and their awaited result

    settlement.go (the request type and its [Validate]) and
    delivery_settlement.go (the write-once result a delivery's copies share). *)

From S2P Require Import Prelude Errors.

Definition SettlementMethod : Type := string.
Definition SettlementAcknowledge : SettlementMethod := "ack".
Definition SettlementNegativeAcknowledge : SettlementMethod := "nack".
Definition SettlementReject : SettlementMethod := "reject".
Definition SettlementDelegate : SettlementMethod := "delegate".

Record Settlement := mkSettlement { Method : SettlementMethod; Requeue : bool }.

Definition Acknowledge : Settlement := mkSettlement SettlementAcknowledge false.
Definition NegativeAcknowledge (requeue : bool) : Settlement :=
  mkSettlement SettlementNegativeAcknowledge requeue.
Definition Reject (requeue : bool) : Settlement := mkSettlement SettlementReject requeue.
Definition Delegate : Settlement := mkSettlement SettlementDelegate false.

Definition Settlement_Validate (settlement : Settlement) : option error :=
  if (Method settlement =s SettlementAcknowledge) || (Method settlement =s SettlementDelegate) then
    return_if Requeue settlement, Some ErrInvalidSettlement ;;
    None
  else if (Method settlement =s SettlementNegativeAcknowledge) || (Method settlement =s SettlementReject)
  then None
  else Some ErrInvalidSettlement.

(** The six requests a handler can validly make. *)
Lemma Settlement_Validate_None settlement :
  Settlement_Validate settlement = None ↔
  settlement ∈ [Acknowledge; NegativeAcknowledge false; NegativeAcknowledge true;
                Reject false; Reject true; Delegate].
Proof.
  destruct settlement as [m r]. unfold Settlement_Validate. simpl. rewrite !elem_of_cons, elem_of_nil.
  unfold Acknowledge, NegativeAcknowledge, Reject, Delegate.
  destruct (String.eqb_spec m SettlementAcknowledge) as [->|];
  [|destruct (String.eqb_spec m SettlementDelegate) as [->|];
  [|destruct (String.eqb_spec m SettlementNegativeAcknowledge) as [->|];
  [|destruct (String.eqb_spec m SettlementReject) as [->|]]]];
  destruct r; simpl; split; intros H; try done; try tauto;
  destruct_or?; simplify_eq; done.
Qed.

(** ** The shared result *)

(** A [deliverySettlement]: [done] is closed at most once, by [once]. *)
Record deliverySettlement := mkDeliverySettlement {
  ds_done : bool;
  ds_err : option error }.

Definition newDeliverySettlement : deliverySettlement := mkDeliverySettlement false None.

(** [completeSettlement] through the [sync.Once]; a nil settlement is left alone. *)
Definition completeSettlement (settlement : option deliverySettlement) (err : option error)
    : option deliverySettlement :=
  match settlement with
  | None => None
  | Some s => if ds_done s then Some s else Some (mkDeliverySettlement true err)
  end.

Definition settlementResultOrContext (settlement : deliverySettlement) (contextErr : option error)
    : option error :=
  if ds_done settlement then ds_err settlement else contextErr.

(** What ends the second [select] of [AwaitSettlement], with the state of the
    result at that moment: the result's channel, or the context with its error. *)
Inductive await_event :=
| AwaitDone (later : deliverySettlement)
| AwaitContext (contextErr : error) (later : deliverySettlement).

(** [AwaitSettlement]: [ctx] tells whether a context was supplied, [settlement]
    is what the first, non-blocking [select] sees. *)
Definition AwaitSettlement (ctx : bool) (settlement : option deliverySettlement)
    (event : await_event) : option error :=
  return_if negb ctx, Some ErrContextRequired ;;
  match settlement with
  | None => Some ErrSettlementResultUnavailable
  | Some s =>
    return_if ds_done s, ds_err s ;;
    match event with
    | AwaitDone later => ds_err later
    | AwaitContext contextErr later => settlementResultOrContext later (Some contextErr)
    end
  end.

(** The result evolves only by completions, and the first one stays. *)
Inductive settlement_step : relation deliverySettlement :=
| settlement_complete s s' err :
    completeSettlement (Some s) err = Some s' → settlement_step s s'.

Lemma settlement_final s s' :
  rtc settlement_step s s' → ds_done s = true → s' = s.
Proof.
  induction 1 as [|x y z Hstep _ IH]; [done|]. intros Hd.
  inversion Hstep as [? ? err Hc]; subst. simpl in Hc. rewrite Hd in Hc. injection Hc as <-. auto.
Qed.

(** The result after a sequence of completions, in the order they took the [Once]. *)
Definition completions (errs : list (option error)) : deliverySettlement :=
  fold_left (λ s err, default s (completeSettlement (Some s) err)) errs newDeliverySettlement.

Lemma completions_cons err errs : completions (err :: errs) = mkDeliverySettlement true err.
Proof. unfold completions. simpl. by induction errs. Qed.

(** The result an event of [AwaitSettlement] sees. *)
Definition event_result (event : await_event) : deliverySettlement :=
  match event with AwaitDone later => later | AwaitContext _ later => later end.

(** [AwaitDone] is received only from a closed channel. *)
Definition event_possible (event : await_event) : Prop :=
  match event with AwaitDone later => ds_done later = true | AwaitContext _ _ => True end.

(** Every copy of a delivery reports one settlement result: whatever
    completions happened before and during the wait, [AwaitSettlement] returns the
    error of the first one, and the context's error only when none had happened
    by the time it returns, so a cancellation never hides a known result. *)
Theorem AwaitSettlement_first seen more event :
  event_possible event → event_result event = completions (seen ++ more) →
  AwaitSettlement true (Some (completions seen)) event =
  match seen ++ more, event with
  | err :: _, _ => err
  | [], AwaitContext contextErr _ => Some contextErr
  | [], AwaitDone _ => None
  end.
Proof.
  intros Hp Hr. destruct seen as [|err seen]; simpl in *; [|by rewrite completions_cons].
  destruct more as [|err more]; [|rewrite completions_cons in Hr];
    destruct event as [later|contextErr later]; simpl in *; by subst.
Qed.

Lemma AwaitSettlement_first_witness :
  AwaitSettlement true (Some (completions []))
    (AwaitContext Canceled (completions [Some ErrConsumerUnavailable; None])) = Some ErrConsumerUnavailable.
Proof.
  exact (AwaitSettlement_first [] [Some ErrConsumerUnavailable; None]
    (AwaitContext Canceled (completions [Some ErrConsumerUnavailable; None])) I eq_refl).
Defined.
