(* ===== verification/Delivery.v ===== *)
(** * Delivery: consumer policy and the conversion of broker deliveries

    delivery.go: [QueueReference], [ConsumerConfig] and their validation, and
    [deliveryFromAMQP] with every helper it calls.  Go maps are iterated in an
    unspecified order: the loops over a field table take the entries as a list,
    the executable definitions run them over one enumeration, and the theorems
    show that any other enumeration gives the same result.  The requeue bound of
    settlement.go ([boundedSettlement]) is here too, since it reads a delivery. *)

From S2P Require Import Prelude GoText Errors Config Amqp Message Topology Settlement.

Definition MaxConsumerPrefetch : Z := 4096.
Definition MaxConsumerConcurrency : Z := 256.
Definition MaxConsumerRequeues : Z := 100.
Definition MaxDeathRecords : Z := 128.
Definition MaxDeathRoutingKeys : Z := 32.

Record TransientQueue := mkTransientQueue {
  Transient_Exchange : Exchange;
  Transient_RoutingKey : string;
  Transient_Arguments : list Header }.

Record QueueReference := mkQueueReference {
  Reference_Name : string;
  Reference_Type : QueueType;
  Reference_SingleActiveConsumer : bool;
  Reference_Transient : option TransientQueue }.

Definition QueueReference_validate (reference : QueueReference) (limits : Limits) : option error :=
  match Reference_Transient reference with
  | Some transient =>
    return_if negb (Reference_Name reference =s "") || negb (Reference_Type reference =s QueueClassic)
        || Reference_SingleActiveConsumer reference
        || present (Exchange_Validate (Transient_Exchange transient))
        || invalidIdentity (Exchange_Name (Transient_Exchange transient)) (MaxNameBytes limits)
        || negb (validExchangeBindingWithLimits (Exchange_Kind (Transient_Exchange transient))
                   (Transient_RoutingKey transient) (Transient_Arguments transient) limits),
      Some ErrInvalidConsumer ;;
    None
  | None =>
    return_if invalidIdentity (Reference_Name reference) (MaxNameBytes limits),
      Some ErrInvalidConsumer ;;
    return_if (Reference_Type reference =s QueueClassic) || (Reference_Type reference =s QueueQuorum),
      None ;;
    Some ErrInvalidConsumer
  end.

Definition QueueReference_Validate (reference : QueueReference) : option error :=
  QueueReference_validate reference DefaultLimits.

Record ConsumerConfig := mkConsumerConfig {
  Consumer_Limits : Limits;
  Consumer_Queue : QueueReference;
  Consumer_Name : string;
  Consumer_Priority : option Z;
  Exclusive : bool;
  Prefetch : Z;
  Concurrency : Z;
  HandlerTimeout : Z;
  MaxRequeues : Z;
  Failure : Settlement }.

Definition ConsumerConfig_Validate (config : ConsumerConfig) : option error :=
  return_if negb (Limits_valid (Consumer_Limits config))
      || present (QueueReference_validate (Consumer_Queue config) (Consumer_Limits config))
      || invalidIdentity (Consumer_Name config) (MaxNameBytes (Consumer_Limits config))
      || (Exclusive config && (negb (Reference_Type (Consumer_Queue config) =s QueueClassic)
                               || Reference_SingleActiveConsumer (Consumer_Queue config)))
      || (Prefetch config <? 1) || (Prefetch config >? MaxConsumerPrefetch)
      || (Concurrency config <? 1) || (Concurrency config >? MaxConsumerConcurrency)
      || (Concurrency config >? Prefetch config) || (HandlerTimeout config <=? 0)
      || (HandlerTimeout config >? maximumDialTimeout) || (MaxRequeues config >? MaxConsumerRequeues)
      || present (Settlement_Validate (Failure config))
      || (Method (Failure config) =s SettlementAcknowledge)
      || (Method (Failure config) =s SettlementDelegate),
    Some ErrInvalidConsumer ;;
  None.

Definition own_transient (transient : TransientQueue) : TransientQueue :=
  mkTransientQueue (Transient_Exchange transient) (Transient_RoutingKey transient)
    (map own_header (Transient_Arguments transient)).

Definition ownConsumerConfig (config : ConsumerConfig) : ConsumerConfig :=
  let queue := Consumer_Queue config in
  mkConsumerConfig (Consumer_Limits config)
    (mkQueueReference (Reference_Name queue) (Reference_Type queue)
       (Reference_SingleActiveConsumer queue) (option_map own_transient (Reference_Transient queue)))
    (Consumer_Name config) (Consumer_Priority config) (Exclusive config) (Prefetch config)
    (Concurrency config) (HandlerTimeout config) (MaxRequeues config) (Failure config).

Record Death := mkDeath {
  Death_Count : Z;
  Death_Reason : string;
  Death_Queue : string;
  Death_Exchange : string;
  Death_RoutingKeys : list string;
  Death_Time : Time;
  OriginalExpiration : option Z }.

Record Delivery := mkDelivery {
  Delivery_Body : bytes;
  Delivery_Headers : list Header;
  Delivery_MessageID : string;
  Delivery_CorrelationID : string;
  Delivery_ContentType : string;
  Delivery_ContentEncoding : string;
  Delivery_ReplyTo : string;
  Delivery_Type : string;
  Delivery_UserID : string;
  Delivery_AppID : string;
  Delivery_Timestamp : Time;
  Delivery_Expiration : option Z;
  Delivery_Priority : Z;
  Delivery_DeliveryMode : DeliveryMode;
  Delivery_Consumer : string;
  Delivery_Exchange : string;
  Delivery_RoutingKey : string;
  Redelivered : bool;
  AcquiredCount : option Z;
  DeliveryCount : option Z;
  Deaths : list Death;
  Delivery_settlement : option deliverySettlement }.

Definition validDeliveryTag (tag : Z) : bool := tag >? 0.

Definition fitsRemainingHeaderBudget (additional used maximum : Z) : bool :=
  additional <=? maximum - used.

(** [parseDeliveryExpiration]: the text is a count of milliseconds. *)
Definition parseDeliveryExpiration (value : string) : error + option Z :=
  return_if value =s "", inr None ;;
  match ParseUint value 63 with
  | None => inl ErrInvalidDelivery
  | Some milliseconds =>
    return_if milliseconds >? Z.quot max_int64 Millisecond, inl ErrInvalidDelivery ;;
    inr (Some (int64 (milliseconds * Millisecond)))
  end.

(** [borrowedDeliveryHeader]: the header, its size and whether the type is one
    of the supported ones. *)
Definition borrowedDeliveryHeader (key : string) (value : any) : option (Header * Z) :=
  match value with
  | VString s => Some (StringHeader key s, len s)
  | VBool b => Some (BoolHeader key b, 1)
  | VBytes b => Some (mkHeader key HeaderBytes EmptyString false 0 b, blen b)
  | VInt8 z | VInt16 z | VInt32 z | VInt64 z | VUint8 z | VUint16 z | VUint32 z =>
    Some (Int64Header key z, 8)
  | _ => None
  end.

(** The admission loop over the table's entries in some order. *)
Fixpoint admit_entries (limits : Limits) (count bytes : Z) (entries : list (string * any))
    : error + Z :=
  match entries with
  | [] => inr count
  | (key, value) :: entries =>
    if reservedDeliveryMetadataHeader key then admit_entries limits count bytes entries
    else
      let count := count + 1 in
      return_if (count >? MaxHeaderEntries limits) || invalidIdentity key (MaxNameBytes limits)
          || negb (fitsRemainingHeaderBudget (len key) bytes (MaxHeaderBytes limits)),
        inl ErrInvalidDelivery ;;
      let bytes := bytes + len key in
      match borrowedDeliveryHeader key value with
      | None => inl ErrInvalidDelivery
      | Some (_, size) =>
        return_if negb (fitsRemainingHeaderBudget size bytes (MaxHeaderBytes limits)),
          inl ErrInvalidDelivery ;;
        admit_entries limits count (bytes + size) entries
      end
  end.

Definition admittedDeliveryHeaderCount (table : Table) (limits : Limits) : error + Z :=
  admit_entries limits 0 0 (map_to_list table).

(** The keys the delivery exposes, sorted as [sort.Strings] does. *)
Definition application_keys (entries : list (string * any)) : list string :=
  merge_sort String.le (List.filter (λ key, negb (reservedDeliveryMetadataHeader key)) (map fst entries)).

(** One iteration of the materialisation loop. *)
Definition materialize (table : Table) (acc : list Header * Z) (key : string) : list Header * Z :=
  let '(headers, bytes) := acc in
  let bytes := bytes + len key in
  let '(header, size) := default (mkHeader EmptyString 0 EmptyString false 0 None, 0)
                           (borrowedDeliveryHeader key (index table key)) in
  let bytes := bytes + size in
  let header := if Header_Kind header =? HeaderBytes then own_header header else header in
  (headers ++ [header], bytes).

(** The check on a delivery's own publish token. *)
Definition token_rejected (table : Table) : bool :=
  match table !! publishTokenHeader with
  | None => false
  | Some value =>
    match as_string value with
    | None => true
    | Some token => invalidIdentity token maxPublishTokenBytes
    end
  end.

Definition deliveryHeaders (table : Table) (limits : Limits) : error + (list Header * Z) :=
  return_if token_rejected table, inl ErrInvalidDelivery ;;
  bind _ := admittedDeliveryHeaderCount table limits ;;
  inr (fold_left (materialize table) (application_keys (map_to_list table)) ([], 0)).

Definition validDeathSummaryField (value : any) (allowEmpty : bool) (limits : Limits) : option string :=
  match as_string value with
  | None => None
  | Some text =>
    return_if len text >? MaxNameBytes limits, None ;;
    return_if containsControl text, None ;;
    return_if negb allowEmpty && invalidIdentity text (MaxNameBytes limits), None ;;
    Some text
  end.

Definition summary_fields : list (string * bool) :=
  [(firstDeathQueueHeader, false); (firstDeathReasonHeader, false); (firstDeathExchangeHeader, true);
   (lastDeathQueueHeader, false); (lastDeathReasonHeader, false); (lastDeathExchangeHeader, true)].

Fixpoint death_summary (table : Table) (limits : Limits) (bytes : Z) (fields : list (string * bool))
    : error + Z :=
  match fields with
  | [] => inr bytes
  | (key, allowEmpty) :: fields =>
    match table !! key with
    | None => death_summary table limits bytes fields
    | Some value =>
      match validDeathSummaryField value allowEmpty limits with
      | None => inl ErrInvalidDelivery
      | Some text =>
        let bytes := bytes + len text in
        return_if bytes >? MaxHeaderBytes limits, inl ErrInvalidDelivery ;;
        death_summary table limits bytes fields
      end
    end
  end.

Definition deliveryDeathSummaryBytes (table : Table) (limits : Limits) : error + Z :=
  death_summary table limits 0 summary_fields.

(** [unsignedAMQPInteger]: a negative value is not ok. *)
Definition unsignedAMQPInteger (value : any) : option Z :=
  match value with
  | VInt8 z | VInt16 z | VInt32 z | VInt64 z => if z >=? 0 then Some (uint64 z) else None
  | VUint8 z | VUint16 z | VUint32 z | VUint64 z => Some z
  | _ => None
  end.

Definition deliveryCounter (table : Table) (key : string) : error + option Z :=
  match table !! key with
  | None => inr None
  | Some value =>
    match unsignedAMQPInteger value with
    | None => inl ErrInvalidDelivery
    | Some count => inr (Some count)
    end
  end.

Definition validDeliveryDeathFields (reason queue exchange : option string) (deathTime : option Time)
    (limits : Limits) : bool :=
  match reason with
  | Some reason => negb (invalidIdentity reason (MaxNameBytes limits)) | None => false end &&
  match queue with
  | Some queue => negb (invalidIdentity queue (MaxNameBytes limits)) | None => false end &&
  match exchange with
  | Some exchange => negb ((len exchange >? MaxNameBytes limits) || containsControl exchange)
  | None => false end &&
  match deathTime with Some t => negb (BeforeUnixEpoch t) | None => false end.

Definition deliveryDeathMetadataBytes (reason queue exchange : string) (expirationBytes : Z) : Z :=
  16 + len reason + len queue + len exchange + expirationBytes.

Definition deathOriginalExpiration (fields : Table) : error + (option Z * Z) :=
  match fields !! "original-expiration" with
  | None => inr (None, 0)
  | Some value =>
    match as_string value with
    | None => inl ErrInvalidDelivery
    | Some encoded =>
      return_if encoded =s "", inl ErrInvalidDelivery ;;
      bind expiration := parseDeliveryExpiration encoded ;;
      inr (expiration, len encoded)
    end
  end.

(** The routing-key loop of [deliveryDeath]. *)
Fixpoint death_routing_keys (limits : Limits) (metadataBytes : Z) (values : list any)
    : error + (list string * Z) :=
  match values with
  | [] => inr ([], metadataBytes)
  | value :: values =>
    match as_string value with
    | None => inl ErrInvalidDelivery
    | Some routingKey =>
      return_if (len routingKey >? MaxRoutingKeyBytes limits) || containsControl routingKey,
        inl ErrInvalidDelivery ;;
      bind (routingKeys, total) := death_routing_keys limits (metadataBytes + len routingKey) values ;;
      inr (routingKey :: routingKeys, total)
    end
  end.

Definition deliveryDeath (fields : Table) (limits : Limits) : error + (Death * Z) :=
  match unsignedAMQPInteger (index fields "count") with
  | None => inl ErrInvalidDelivery
  | Some count =>
    let reason := as_string (index fields "reason") in
    let queue := as_string (index fields "queue") in
    let exchange := as_string (index fields "exchange") in
    let deathTime := as_time (index fields "time") in
    return_if negb (validDeliveryDeathFields reason queue exchange deathTime limits),
      inl ErrInvalidDelivery ;;
    let reason := default EmptyString reason in
    let queue := default EmptyString queue in
    let exchange := default EmptyString exchange in
    let deathTime := default zero_time deathTime in
    match as_array (index fields "routing-keys") with
    | None => inl ErrInvalidDelivery
    | Some routingValues =>
      return_if llen routingValues >? MaxDeathRoutingKeys, inl ErrInvalidDelivery ;;
      bind (originalExpiration, expirationBytes) := deathOriginalExpiration fields ;;
      bind (routingKeys, metadataBytes) := death_routing_keys limits
          (deliveryDeathMetadataBytes reason queue exchange expirationBytes) routingValues ;;
      inr (mkDeath count reason queue exchange routingKeys deathTime originalExpiration, metadataBytes)
    end
  end.

(** The record loop of [deliveryDeaths]. *)
Fixpoint death_records (limits : Limits) (metadataBytes : Z) (records : list any)
    : error + list Death :=
  match records with
  | [] => inr []
  | record :: records =>
    match as_table record with
    | None => inl ErrInvalidDelivery
    | Some fields =>
      bind (death, size) := deliveryDeath fields limits ;;
      return_if size >? MaxHeaderBytes limits - metadataBytes, inl ErrInvalidDelivery ;;
      bind deaths := death_records limits (metadataBytes + size) records ;;
      inr (death :: deaths)
    end
  end.

Definition deliveryDeaths (table : Table) (limits : Limits) (metadataBytes : Z) : error + list Death :=
  match table !! deathHeader with
  | None => inr []
  | Some value =>
    match as_array value with
    | None => inl ErrInvalidDelivery
    | Some records =>
      return_if llen records >? MaxDeathRecords, inl ErrInvalidDelivery ;;
      death_records limits metadataBytes records
    end
  end.

(** The loop that charges eight bytes per counter present. *)
Fixpoint charge_counters (limits : Limits) (metadataBytes : Z) (counts : list (option Z)) : error + Z :=
  match counts with
  | [] => inr metadataBytes
  | None :: counts => charge_counters limits metadataBytes counts
  | Some _ :: counts =>
    let metadataBytes := metadataBytes + 8 in
    return_if metadataBytes >? MaxHeaderBytes limits, inl ErrInvalidDelivery ;;
    charge_counters limits metadataBytes counts
  end.

Definition deliveryFromAMQP (source : AmqpDelivery) (config : ConsumerConfig) : error + Delivery :=
  let limits := Consumer_Limits config in
  return_if consumerOperationFailed (ConsumerConfig_Validate config), inl ErrInvalidDelivery ;;
  return_if negb (validDeliveryTag (ad_DeliveryTag source)), inl ErrInvalidDelivery ;;
  return_if invalidIdentity (ad_ConsumerTag source) (MaxNameBytes limits)
      || (len (ad_RoutingKey source) >? MaxRoutingKeyBytes limits)
      || containsControl (ad_RoutingKey source) || (len (ad_Exchange source) >? MaxNameBytes limits)
      || containsControl (ad_Exchange source) || (blen (ad_Body source) >? MaxPayloadBytes limits),
    inl ErrInvalidDelivery ;;
  return_if existsb (λ value, (len value >? MaxNameBytes limits) || containsControl value)
      [ad_MessageId source; ad_CorrelationId source; ad_ContentType source; ad_ContentEncoding source;
       ad_ReplyTo source; ad_Type source; ad_UserId source; ad_AppId source],
    inl ErrInvalidDelivery ;;
  return_if negb (IsZero (ad_Timestamp source)) && BeforeUnixEpoch (ad_Timestamp source),
    inl ErrInvalidDelivery ;;
  match parseDeliveryExpiration (ad_Expiration source) with
  | inl _ => inl ErrInvalidDelivery
  | inr expiration =>
    bind (headers, metadataBytes) := deliveryHeaders (ad_Headers source) limits ;;
    match deliveryDeathSummaryBytes (ad_Headers source) limits with
    | inl _ => inl ErrInvalidDelivery
    | inr deathSummaryBytes =>
      return_if negb (fitsRemainingHeaderBudget deathSummaryBytes metadataBytes (MaxHeaderBytes limits)),
        inl ErrInvalidDelivery ;;
      let metadataBytes := metadataBytes + deathSummaryBytes in
      bind acquiredCount := deliveryCounter (ad_Headers source) acquiredCountHeader ;;
      bind deliveryCount := deliveryCounter (ad_Headers source) deliveryCountHeader ;;
      bind metadataBytes := charge_counters limits metadataBytes [acquiredCount; deliveryCount] ;;
      bind deaths := deliveryDeaths (ad_Headers source) limits metadataBytes ;;
      let mode := if ad_DeliveryMode source =? amqp_Persistent then DeliveryPersistent
                  else DeliveryTransient in
      return_if negb (ad_DeliveryMode source =? amqp_Persistent)
          && negb (ad_DeliveryMode source =? 0) && negb (ad_DeliveryMode source =? amqp_Transient),
        inl ErrInvalidDelivery ;;
      inr (mkDelivery (own_bytes (ad_Body source)) headers (ad_MessageId source)
             (ad_CorrelationId source) (ad_ContentType source) (ad_ContentEncoding source)
             (ad_ReplyTo source) (ad_Type source) (ad_UserId source) (ad_AppId source)
             (ad_Timestamp source) expiration (ad_Priority source) mode (ad_ConsumerTag source)
             (ad_Exchange source) (ad_RoutingKey source) (ad_Redelivered source) acquiredCount
             deliveryCount deaths (Some newDeliverySettlement))
    end
  end.

(** ** The requeue bound (settlement.go) *)

Definition boundedSettlement (delivery : Delivery) (requested : Settlement) (config : ConsumerConfig)
    : Settlement :=
  return_if negb (Requeue requested), requested ;;
  let refused := mkSettlement (Method requested) false in
  let requeue_if b := mkSettlement (Method requested) b in
  return_if MaxRequeues config =? 0, refused ;;
  let quorum := Reference_Type (Consumer_Queue config) =s QueueQuorum in
  match (if quorum then AcquiredCount delivery else None) with
  | Some acquired => requeue_if (acquired <? MaxRequeues config)
  | None =>
    return_if (Method requested =s SettlementNegativeAcknowledge) && Redelivered delivery, refused ;;
    match (if quorum && (Method requested =s SettlementReject) then DeliveryCount delivery else None) with
    | Some failed => requeue_if (failed <? MaxRequeues config)
    | None => requeue_if (negb (Redelivered delivery))
    end
  end.

(** ** Failures *)

Create HintDb delivery discriminated.

(** Closes the failing branches of a conversion, whose errors come from the
    branch itself or from a helper already known to fail only one way. *)
Ltac invalid_only := intros; repeat case_match; simplify_eq; eauto with delivery.

Lemma parseDeliveryExpiration_err value e :
  parseDeliveryExpiration value = inl e → e = ErrInvalidDelivery.
Proof. unfold parseDeliveryExpiration. invalid_only. Qed.
#[export] Hint Resolve parseDeliveryExpiration_err : delivery.

Lemma admit_entries_err limits count bytes entries e :
  admit_entries limits count bytes entries = inl e → e = ErrInvalidDelivery.
Proof.
  revert count bytes. induction entries as [|[key value] entries IH]; intros count bytes; simpl; invalid_only.
Qed.
#[export] Hint Resolve admit_entries_err : delivery.

Lemma deliveryHeaders_err table limits e : deliveryHeaders table limits = inl e → e = ErrInvalidDelivery.
Proof. unfold deliveryHeaders, admittedDeliveryHeaderCount. invalid_only. Qed.
#[export] Hint Resolve deliveryHeaders_err : delivery.

Lemma deliveryCounter_err table key e : deliveryCounter table key = inl e → e = ErrInvalidDelivery.
Proof. unfold deliveryCounter. invalid_only. Qed.
#[export] Hint Resolve deliveryCounter_err : delivery.

Lemma charge_counters_err limits n counts e :
  charge_counters limits n counts = inl e → e = ErrInvalidDelivery.
Proof. revert n. induction counts as [|[c|] counts IH]; intros n; simpl; invalid_only. Qed.
#[export] Hint Resolve charge_counters_err : delivery.

Lemma deathOriginalExpiration_err fields e :
  deathOriginalExpiration fields = inl e → e = ErrInvalidDelivery.
Proof. unfold deathOriginalExpiration. invalid_only. Qed.
#[export] Hint Resolve deathOriginalExpiration_err : delivery.

Lemma death_routing_keys_err limits n values e :
  death_routing_keys limits n values = inl e → e = ErrInvalidDelivery.
Proof. revert n e. induction values as [|v values IH]; intros n e; simpl; invalid_only. Qed.
#[export] Hint Resolve death_routing_keys_err : delivery.

Lemma deliveryDeath_err fields limits e : deliveryDeath fields limits = inl e → e = ErrInvalidDelivery.
Proof. unfold deliveryDeath. invalid_only. Qed.
#[export] Hint Resolve deliveryDeath_err : delivery.

Lemma death_records_err limits n records e :
  death_records limits n records = inl e → e = ErrInvalidDelivery.
Proof. revert n e. induction records as [|v records IH]; intros n e; simpl; invalid_only. Qed.
#[export] Hint Resolve death_records_err : delivery.

Lemma deliveryDeaths_err table limits n e : deliveryDeaths table limits n = inl e → e = ErrInvalidDelivery.
Proof. unfold deliveryDeaths. invalid_only. Qed.
#[export] Hint Resolve deliveryDeaths_err : delivery.

(** A delivery the package does not accept is always reported as
    [ErrInvalidDelivery], whichever of the identity, size, header, counter,
    expiration or dead-letter checks failed. *)
Lemma deliveryFromAMQP_err source config e :
  deliveryFromAMQP source config = inl e → e = ErrInvalidDelivery.
Proof. unfold deliveryFromAMQP. invalid_only. Qed.

(** ** Header admission does not depend on the iteration order *)

(** The reference for the admission loop: the application entries counted and
    measured as a whole. *)
Definition application_entries (entries : list (string * any)) : list (string * any) :=
  List.filter (λ entry, negb (reservedDeliveryMetadataHeader entry.1)) entries.

Definition value_size (value : any) : Z :=
  match borrowedDeliveryHeader EmptyString value with Some (_, size) => size | None => 0 end.

Definition entry_size (entry : string * any) : Z := len entry.1 + value_size entry.2.

Definition supported_value (value : any) : bool :=
  present (borrowedDeliveryHeader EmptyString value).

Definition entry_ok (limits : Limits) (entry : string * any) : bool :=
  negb (invalidIdentity entry.1 (MaxNameBytes limits)) && supported_value entry.2.

Definition admissible (limits : Limits) (count bytes : Z) (entries : list (string * any)) : bool :=
  (count + llen entries <=? MaxHeaderEntries limits) && forallb (entry_ok limits) entries
  && (bytes + sumZ entry_size entries <=? MaxHeaderBytes limits).

Lemma borrowed_size key value :
  match borrowedDeliveryHeader key value with
  | Some (_, size) => supported_value value = true ∧ size = value_size value
  | None => supported_value value = false
  end.
Proof. unfold supported_value, value_size. by destruct value. Qed.

Lemma value_size_nonneg value : 0 <= value_size value.
Proof. unfold value_size. destruct value; simpl; auto with go; lia. Qed.

Lemma entry_size_nonneg entry : 0 <= entry_size entry.
Proof. unfold entry_size. pose proof (value_size_nonneg entry.2). pose proof (len_nonneg entry.1). lia. Qed.
#[export] Hint Resolve entry_size_nonneg value_size_nonneg : go.

(** The reference refuses too: its test holds on no branch where the loop has
    gone over a limit. *)
Local Ltac refused :=
  match goal with |- _ = (if ?b then _ else _) => destruct b eqn:?; [breflect; lia | done] end.

Lemma admit_entries_spec limits count bytes entries :
  count <= MaxHeaderEntries limits → bytes <= MaxHeaderBytes limits →
  admit_entries limits count bytes entries =
  if admissible limits count bytes (application_entries entries)
  then inr (count + llen (application_entries entries)) else inl ErrInvalidDelivery.
Proof.
  revert count bytes. induction entries as [|[key value] entries IH]; intros count bytes Hc Hb.
  { unfold admissible, application_entries, llen. simpl. rewrite !Z.add_0_r.
    rewrite (proj2 (Z.leb_le _ _) Hc), (proj2 (Z.leb_le _ _) Hb). done. }
  simpl. destruct (reservedDeliveryMetadataHeader key); simpl; [by apply IH|].
  assert (0 <= sumZ entry_size (application_entries entries)) by (apply sumZ_nonneg; auto with go).
  pose proof (llen_nonneg (application_entries entries)).
  pose proof (borrowed_size key value) as Hbs. pose proof (value_size_nonneg value).
  unfold admissible. rewrite llen_cons. cbn [forallb sumZ].
  unfold entry_ok at 1, entry_size at 1. simpl. unfold fitsRemainingHeaderBudget.
  destruct (invalidIdentity key (MaxNameBytes limits)).
  { rewrite orb_true_r. simpl. by rewrite andb_false_r. }
  rewrite orb_false_r.
  destruct (count + 1 >? MaxHeaderEntries limits) eqn:E1; simpl.
  { refused. }
  destruct (len key <=? MaxHeaderBytes limits - bytes) eqn:E2; simpl; [|refused].
  destruct (borrowedDeliveryHeader key value) as [[h size]|].
  - destruct Hbs as [-> ->]. simpl.
    destruct (value_size value <=? MaxHeaderBytes limits - (bytes + len key)) eqn:E3; simpl;
      [|refused].
    rewrite IH by lia. unfold admissible.
    replace (count + 1 + llen (application_entries entries))
      with (count + (1 + llen (application_entries entries))) by lia.
    replace (bytes + len key + value_size value + sumZ entry_size (application_entries entries))
      with (bytes + (len key + value_size value + sumZ entry_size (application_entries entries))) by lia.
    done.
  - rewrite Hbs. simpl. by rewrite andb_false_r.
Qed.

Lemma application_entries_perm l k : l ≡ₚ k → application_entries l ≡ₚ application_entries k.
Proof.
  unfold application_entries. induction 1; simpl; try done.
  - case_match; [by constructor | done].
  - repeat case_match; try done. by constructor.
  - by etrans.
Qed.

Lemma admissible_perm limits l k : l ≡ₚ k → admissible limits 0 0 l = admissible limits 0 0 k.
Proof.
  intros Hp. unfold admissible. rewrite (sumZ_perm _ _ _ Hp).
  unfold llen. rewrite (Permutation_length Hp).
  assert (forallb (entry_ok limits) l = forallb (entry_ok limits) k) as ->; [|done].
  apply eq_true_iff_eq. rewrite !forallb_true. by setoid_rewrite Hp.
Qed.

Lemma limits_valid_pos limits :
  Limits_valid limits = true → 0 < MaxHeaderEntries limits ∧ 0 < MaxHeaderBytes limits
  ∧ 0 < MaxNameBytes limits ∧ 0 < MaxRoutingKeyBytes limits ∧ 0 < MaxPayloadBytes limits.
Proof. unfold Limits_valid. breflect. lia. Qed.

Lemma application_keys_fst entries :
  List.filter (λ key, negb (reservedDeliveryMetadataHeader key)) (map fst entries)
  = map fst (application_entries entries).
Proof.
  unfold application_entries. induction entries as [|[key value] entries IH]; [done|].
  simpl. case_match; simpl; by rewrite IH.
Qed.

(** converting the header table of a delivery does not depend on the order in
    which Go happens to iterate over the map: any enumeration of the entries is
    admitted or refused alike, with the same count, and yields the same sorted
    keys. *)
Theorem header_conversion_order_independent table limits entries :
  Limits_valid limits = true → entries ≡ₚ map_to_list table →
  admit_entries limits 0 0 entries = admittedDeliveryHeaderCount table limits
  ∧ application_keys entries = application_keys (map_to_list table).
Proof.
  intros Hl Hp. apply limits_valid_pos in Hl as (?&?&_). split.
  - unfold admittedDeliveryHeaderCount. rewrite !admit_entries_spec by lia.
    pose proof (application_entries_perm _ _ Hp) as Ha.
    rewrite (admissible_perm _ _ _ Ha). unfold llen. by rewrite (Permutation_length Ha).
  - unfold application_keys. rewrite !application_keys_fst.
    apply (Sorted_unique String.le); [apply (Sorted_merge_sort String.le)..|].
    rewrite !(merge_sort_Permutation String.le). apply (Permutation_map fst).
    by apply application_entries_perm.
Qed.

Lemma header_conversion_order_independent_witness :
  let table : Table := <["b" := VBool true]> (<["a" := VInt64 1]> ∅) in
  admit_entries DefaultLimits 0 0 (rev (map_to_list table)) = inr 2
  ∧ application_keys (rev (map_to_list table)) = ["a"; "b"].
Proof.
  intros table.
  destruct (header_conversion_order_independent table DefaultLimits (rev (map_to_list table)))
    as [-> ->].
  - by vm_compute.
  - apply Permutation_sym, Permutation_rev.
  - split; by vm_compute.
Defined.

(** ** The materialised headers *)

(** The header a table entry becomes in a delivery. *)
Definition delivered_header (table : Table) (key : string) : Header :=
  own_header (default (mkHeader EmptyString 0 EmptyString false 0 None, 0)
                (borrowedDeliveryHeader key (index table key))).1.

Lemma materialize_step table headers bytes key :
  materialize table (headers, bytes) key
  = (headers ++ [delivered_header table key], bytes + entry_size (key, index table key)).
Proof.
  unfold materialize, delivered_header, entry_size, value_size. simpl.
  destruct (index table key); simpl; f_equal; try done; lia.
Qed.

Lemma materialize_fold table keys headers bytes :
  fold_left (materialize table) keys (headers, bytes)
  = (headers ++ map (delivered_header table) keys,
     bytes + sumZ (λ key, entry_size (key, index table key)) keys).
Proof.
  revert headers bytes. induction keys as [|key keys IH]; intros headers bytes; cbn [fold_left map sumZ].
  { by rewrite app_nil_r, Z.add_0_r. }
  rewrite materialize_step, IH, <- app_assoc. simpl. f_equal. lia.
Qed.

Lemma application_keys_perm entries :
  application_keys entries ≡ₚ map fst (application_entries entries).
Proof. unfold application_keys. by rewrite (merge_sort_Permutation String.le), application_keys_fst. Qed.

Lemma elem_of_application_entries table key value :
  (key, value) ∈ application_entries (map_to_list table) ↔
  table !! key = Some value ∧ reservedDeliveryMetadataHeader key = false.
Proof.
  unfold application_entries. rewrite list_elem_of_In, filter_In, <- list_elem_of_In.
  rewrite elem_of_map_to_list. simpl. by rewrite negb_true_iff.
Qed.

Lemma elem_of_application_keys table key :
  key ∈ application_keys (map_to_list table) ↔
  is_Some (table !! key) ∧ reservedDeliveryMetadataHeader key = false.
Proof.
  rewrite application_keys_perm, list_elem_of_In, in_map_iff. split.
  - intros ([k v] & <- & Hin). apply list_elem_of_In, elem_of_application_entries in Hin as [? ?]. eauto.
  - intros [[v Hv] Hr]. exists (key, v). split; [done|].
    by apply list_elem_of_In, elem_of_application_entries.
Qed.

Lemma application_keys_nodup table : NoDup (application_keys (map_to_list table)).
Proof.
  unfold application_keys. rewrite (merge_sort_Permutation String.le), NoDup_ListNoDup.
  apply List.NoDup_filter, NoDup_ListNoDup. apply NoDup_fst_map_to_list.
Qed.

Lemma application_keys_sorted entries : StronglySorted String.le (application_keys entries).
Proof. apply (StronglySorted_merge_sort String.le). Qed.

Lemma application_bytes table :
  sumZ (λ key, entry_size (key, index table key)) (application_keys (map_to_list table))
  = sumZ entry_size (application_entries (map_to_list table)).
Proof.
  rewrite (sumZ_perm _ _ _ (application_keys_perm _)), sumZ_map. apply sumZ_ext.
  intros [key value] Hin. apply elem_of_application_entries in Hin as [Hl _].
  unfold index. simpl. by rewrite Hl.
Qed.

(** [deliveryHeaders] as a whole: the checks, the sorted headers and their size. *)
Lemma deliveryHeaders_spec table limits :
  Limits_valid limits = true →
  deliveryHeaders table limits =
  if negb (token_rejected table) && admissible limits 0 0 (application_entries (map_to_list table))
  then inr (map (delivered_header table) (application_keys (map_to_list table)),
            sumZ entry_size (application_entries (map_to_list table)))
  else inl ErrInvalidDelivery.
Proof.
  intros Hl. apply limits_valid_pos in Hl as (?&?&_).
  unfold deliveryHeaders. destruct (token_rejected table); [done|]. simpl.
  unfold admittedDeliveryHeaderCount. rewrite admit_entries_spec by lia.
  destruct (admissible _ _ _ _); [|done].
  by rewrite materialize_fold, application_bytes.
Qed.

(** ** What an accepted delivery satisfies *)

(** A duration that AMQP can carry: a whole, nonnegative number of milliseconds. *)
Definition valid_expiration (e : Z) : Prop := 0 <= e <= max_int64 ∧ Z.rem e Millisecond = 0.

Lemma ParseUint_nonneg s bits m : 0 <= bits <= 64 → ParseUint s bits = Some m → 0 <= m < 2 ^ bits.
Proof.
  intros Hbits. assert (0 < 2 ^ bits <= 2 ^ 64) by (split; [lia | apply Z.pow_le_mono_r; lia]).
  unfold ParseUint. destruct (codes s) as [|c l]; [done|]. intros Hp.
  apply parse_digits_spec in Hp as (Hd & <- & ?); [|unfold max_uint64; lia..].
  pose proof (digits_value_lower 0 (c :: l) ltac:(lia) Hd). lia.
Qed.

Lemma parseDeliveryExpiration_inr value e :
  parseDeliveryExpiration value = inr (Some e) → valid_expiration e.
Proof.
  unfold parseDeliveryExpiration. intros H. go_cases.
  match goal with H : ParseUint _ _ = Some ?m |- _ => apply ParseUint_nonneg in H; [|lia] end.
  unfold valid_expiration, Millisecond, max_int64 in *.
  change (Z.quot (2 ^ 63 - 1) 1000000) with 9223372036854 in *.
  rewrite int64_small by (unfold is_int64, max_int64; lia).
  split; [lia|]. by apply Z.rem_mul.
Qed.

Record valid_death (limits : Limits) (death : Death) : Prop := {
  vd_reason : valid_identity (Death_Reason death) (MaxNameBytes limits);
  vd_queue : valid_identity (Death_Queue death) (MaxNameBytes limits);
  vd_exchange : valid_property limits (Death_Exchange death);
  vd_keys : llen (Death_RoutingKeys death) <= MaxDeathRoutingKeys;
  vd_key : ∀ k, k ∈ Death_RoutingKeys death →
    len k <= MaxRoutingKeyBytes limits ∧ control_free k;
  vd_time : BeforeUnixEpoch (Death_Time death) = false;
  vd_expiration : ∀ e, OriginalExpiration death = Some e → valid_expiration e }.

(** The bytes a death record holds at least: two eight-byte scalars and its text. *)
Definition death_size (death : Death) : Z :=
  16 + len (Death_Reason death) + len (Death_Queue death) + len (Death_Exchange death)
  + sumZ len (Death_RoutingKeys death).

Lemma death_routing_keys_inr limits n values keys total :
  death_routing_keys limits n values = inr (keys, total) →
  total = n + sumZ len keys ∧ llen keys = llen values
  ∧ ∀ k, k ∈ keys → len k <= MaxRoutingKeyBytes limits ∧ control_free k.
Proof.
  revert n keys total. induction values as [|v values IH]; intros n keys total; simpl; intros H.
  { simplify_eq. split_and!; [simpl; lia|done|]. intros k Hk. by apply not_elem_of_nil in Hk. }
  destruct (as_string v) as [k|]; [|done]. case_match; [done|]. go_cases.
  breflect. destruct (IH _ _ _ ltac:(eassumption)) as (-> & Hl & Hk). rewrite !llen_cons.
  split_and!; [lia..|]. apply forall_cons. split; [rewrite <- containsControl_false; split; [lia|tauto] | done].
Qed.

Lemma deathOriginalExpiration_inr fields expiration n :
  deathOriginalExpiration fields = inr (expiration, n) →
  0 <= n ∧ ∀ e, expiration = Some e → valid_expiration e.
Proof.
  unfold deathOriginalExpiration. intros H. go_cases.
  split; [auto with go|]. intros e ->. by eapply parseDeliveryExpiration_inr.
Qed.

Lemma deliveryDeath_inr fields limits death total :
  deliveryDeath fields limits = inr (death, total) →
  valid_death limits death ∧ death_size death <= total.
Proof.
  unfold deliveryDeath, validDeliveryDeathFields. intros H.
  destruct (unsignedAMQPInteger _); [|done].
  destruct (as_string (index fields "reason")) as [reason|]; [|done].
  destruct (as_string (index fields "queue")) as [queue|]; [|by rewrite ?andb_false_r in H; simpl in H].
  destruct (as_string (index fields "exchange")) as [exchange|]; [|by rewrite ?andb_false_r in H; simpl in H].
  destruct (as_time (index fields "time")) as [t|]; [|by rewrite ?andb_false_r in H; simpl in H].
  simpl in H. destruct (negb (_ && _)) eqn:Ev; [done|].
  destruct (as_array _) as [values|]; [|done].
  destruct (llen values >? MaxDeathRoutingKeys) eqn:El; [done|].
  destruct (deathOriginalExpiration fields) as [|[e n]] eqn:Ee; [done|].
  destruct (death_routing_keys _ _ _) as [|[keys m]] eqn:Ek; [done|]. injection H as <- <-.
  apply deathOriginalExpiration_inr in Ee as [? ?].
  apply death_routing_keys_inr in Ek as (-> & Hl & Hk).
  unfold deliveryDeathMetadataBytes, death_size, valid_property in *. breflect. simpl.
  split; [|lia]. rewrite !invalidIdentity_valid, containsControl_false in Ev. destruct Ev as [[[? ?] [? ?]] ?].
  split; simpl; try done; try lia.
Qed.

Lemma death_size_nonneg death : 0 <= death_size death.
Proof.
  unfold death_size. pose proof (len_nonneg (Death_Reason death)). pose proof (len_nonneg (Death_Queue death)).
  pose proof (len_nonneg (Death_Exchange death)).
  assert (0 <= sumZ len (Death_RoutingKeys death)) by (apply sumZ_nonneg; auto with go). lia.
Qed.

Lemma death_records_inr limits n records deaths :
  n <= MaxHeaderBytes limits → death_records limits n records = inr deaths →
  llen deaths = llen records ∧ (∀ d, d ∈ deaths → valid_death limits d)
  ∧ n + sumZ death_size deaths <= MaxHeaderBytes limits.
Proof.
  revert n deaths. induction records as [|r records IH]; intros n deaths Hn; simpl; intros H.
  { simplify_eq. split_and!; [done| |simpl; lia]. intros d Hd. by apply not_elem_of_nil in Hd. }
  destruct (as_table r) as [fields|]; [|done].
  destruct (deliveryDeath fields limits) as [|[death size]] eqn:Ed; [done|].
  case_match; [done|]. destruct (death_records _ _ _) as [|rest] eqn:Er; [done|]. simplify_eq.
  apply deliveryDeath_inr in Ed as [? ?]. apply IH in Er as (? & ? & ?); [|lia].
  rewrite !llen_cons. split_and!; [lia| |simpl; lia]. by apply forall_cons.
Qed.

Lemma deliveryDeaths_inr table limits n deaths :
  n <= MaxHeaderBytes limits → deliveryDeaths table limits n = inr deaths →
  llen deaths <= MaxDeathRecords ∧ (∀ d, d ∈ deaths → valid_death limits d)
  ∧ n + sumZ death_size deaths <= MaxHeaderBytes limits.
Proof.
  unfold deliveryDeaths. intros Hn H.
  destruct (table !! deathHeader) as [v|]; simplify_eq.
  - destruct (as_array v) as [records|]; [|done]. case_match; [done|].
    apply death_records_inr in H as (? & ? & ?); [|done]. split_and!; [lia|done..].
  - split_and!; [unfold llen, MaxDeathRecords; simpl; lia| |simpl; lia].
    intros d Hd. by apply not_elem_of_nil in Hd.
Qed.

Definition counter_bytes (counts : list (option Z)) : Z :=
  sumZ (λ c, if present c then 8 else 0) counts.

Lemma charge_counters_inr limits n counts total :
  n <= MaxHeaderBytes limits → charge_counters limits n counts = inr total →
  total = n + counter_bytes counts ∧ total <= MaxHeaderBytes limits.
Proof.
  revert n. induction counts as [|[c|] counts IH]; intros n Hn; simpl; intros H.
  - simplify_eq. unfold counter_bytes. simpl. lia.
  - case_match; [done|]. apply IH in H; [|lia]. unfold counter_bytes in *. simpl. lia.
  - apply IH in H; [|lia]. unfold counter_bytes in *. simpl. lia.
Qed.

Lemma death_summary_inr table limits n fields total :
  death_summary table limits n fields = inr total → n <= total.
Proof.
  revert n. induction fields as [|[key allowEmpty] fields IH]; intros n; simpl; intros H; [simplify_eq; lia|].
  destruct (table !! key); [|by apply IH].
  destruct (validDeathSummaryField _ _ _) as [text|]; [|done]. case_match; [done|].
  apply IH in H. pose proof (len_nonneg text). lia.
Qed.

Lemma delivered_header_ok table key value :
  table !! key = Some value → supported_value value = true →
  Header_Key (delivered_header table key) = key
  ∧ header_value_bytes (delivered_header table key) = Some (value_size value).
Proof.
  intros Hl Hs. unfold delivered_header, index, value_size. rewrite Hl. simpl.
  destruct value; try done. unfold header_value_bytes. simpl. by rewrite blen_own_bytes.
Qed.

Record bounded_delivery (limits : Limits) (delivery : Delivery) : Prop := {
  bd_body : blen (Delivery_Body delivery) <= MaxPayloadBytes limits;
  bd_header_count : llen (Delivery_Headers delivery) <= MaxHeaderEntries limits;
  bd_headers : ∀ h, h ∈ Delivery_Headers delivery → valid_header limits h;
  bd_keys : NoDup (map Header_Key (Delivery_Headers delivery));
  bd_sorted : StronglySorted String.le (map Header_Key (Delivery_Headers delivery));
  bd_metadata : sumZ header_size (Delivery_Headers delivery)
      + counter_bytes [AcquiredCount delivery; DeliveryCount delivery]
      + sumZ death_size (Deaths delivery) <= MaxHeaderBytes limits;
  bd_death_count : llen (Deaths delivery) <= MaxDeathRecords;
  bd_deaths : ∀ d, d ∈ Deaths delivery → valid_death limits d;
  bd_consumer : valid_identity (Delivery_Consumer delivery) (MaxNameBytes limits);
  bd_exchange : valid_property limits (Delivery_Exchange delivery);
  bd_routing_key : len (Delivery_RoutingKey delivery) <= MaxRoutingKeyBytes limits
                   ∧ control_free (Delivery_RoutingKey delivery);
  bd_properties : ∀ value, value ∈
      [Delivery_MessageID delivery; Delivery_CorrelationID delivery; Delivery_ContentType delivery;
       Delivery_ContentEncoding delivery; Delivery_ReplyTo delivery; Delivery_Type delivery;
       Delivery_UserID delivery; Delivery_AppID delivery] → valid_property limits value;
  bd_timestamp : IsZero (Delivery_Timestamp delivery) = true
                 ∨ BeforeUnixEpoch (Delivery_Timestamp delivery) = false;
  bd_expiration : ∀ e, Delivery_Expiration delivery = Some e → valid_expiration e;
  bd_mode : Delivery_DeliveryMode delivery = DeliveryTransient
            ∨ Delivery_DeliveryMode delivery = DeliveryPersistent;
  bd_unsettled : Delivery_settlement delivery = Some newDeliverySettlement }.

(** The headers [deliveryHeaders] returns are valid, unique, sorted and of the
    size it reports. *)
Lemma deliveryHeaders_inr table limits headers n :
  Limits_valid limits = true → deliveryHeaders table limits = inr (headers, n) →
  n = sumZ header_size headers ∧ n <= MaxHeaderBytes limits
  ∧ llen headers <= MaxHeaderEntries limits
  ∧ map Header_Key headers = application_keys (map_to_list table)
  ∧ ∀ h, h ∈ headers → valid_header limits h.
Proof.
  intros Hl. rewrite deliveryHeaders_spec by done.
  destruct (negb _ && _) eqn:E; [|done]. intros [= <- <-].
  apply andb_true_iff in E as [_ Ha]. unfold admissible in Ha. breflect. destruct Ha as [[Hc Hok] Hb].
  rewrite forallb_true in Hok.
  assert (∀ key, key ∈ application_keys (map_to_list table) → ∃ v, table !! key = Some v
    ∧ entry_ok limits (key, v) = true ∧ reservedDeliveryMetadataHeader key = false) as Hkey.
  { intros key Hk. apply elem_of_application_keys in Hk as [[v Hv] Hr]. exists v.
    split_and!; [done| |done]. by apply Hok, elem_of_application_entries. }
  clear Hok. rewrite <- application_bytes in *. split_and!.
  - rewrite sumZ_map. apply sumZ_ext. intros key Hk. destruct (Hkey key Hk) as (v & Hv & Hok & _).
    unfold entry_ok in Hok. breflect. destruct Hok as [_ Hs].
    destruct (delivered_header_ok _ _ _ Hv Hs) as [Hk1 Hk2].
    rewrite (header_size_code _ _ Hk2), Hk1. unfold entry_size, index. simpl in *. by rewrite Hv.
  - lia.
  - unfold llen in *. rewrite length_map, (Permutation_length (application_keys_perm _)), length_map. lia.
  - rewrite map_map. rewrite <- (map_id (application_keys _)) at 2. apply map_ext_in.
    intros key Hk%list_elem_of_In. destruct (Hkey key Hk) as (v & Hv & Hok & _).
    unfold entry_ok in Hok. breflect. destruct Hok as [_ Hs]. apply (delivered_header_ok _ _ _ Hv Hs).
  - intros h. rewrite list_elem_of_In, in_map_iff. intros (key & <- & Hk%list_elem_of_In).
    destruct (Hkey key Hk) as (v & Hv & Hok & Hr). unfold entry_ok in Hok. breflect.
    destruct Hok as [Hid Hs]. destruct (delivered_header_ok _ _ _ Hv Hs) as [Hk1 Hk2].
    apply valid_header_code. rewrite Hk1, Hk2. split_and!; [done..|by eexists].
Qed.

Lemma ConsumerConfig_Validate_limits config :
  ConsumerConfig_Validate config = None → Limits_valid (Consumer_Limits config) = true.
Proof. unfold ConsumerConfig_Validate. case_match; [done|]. breflect. tauto. Qed.

(** The successful run of [deliveryFromAMQP], check by check, with the values its
    helpers computed: headers and their size, expiration, dead-letter summary
    size, counters, the size charged before the records, and the records. *)
Record accepted (source : AmqpDelivery) (config : ConsumerConfig) (headers : list Header) (n : Z)
    (expiration : option Z) (summary : Z) (acquired count : option Z) (charged : Z)
    (deaths : list Death) : Prop := {
  ac_config : ConsumerConfig_Validate config = None;
  ac_tag : 0 < ad_DeliveryTag source;
  ac_consumer : valid_identity (ad_ConsumerTag source) (MaxNameBytes (Consumer_Limits config));
  ac_routing_key : len (ad_RoutingKey source) <= MaxRoutingKeyBytes (Consumer_Limits config)
                   ∧ control_free (ad_RoutingKey source);
  ac_exchange : valid_property (Consumer_Limits config) (ad_Exchange source);
  ac_body : blen (ad_Body source) <= MaxPayloadBytes (Consumer_Limits config);
  ac_properties : ∀ value, value ∈
      [ad_MessageId source; ad_CorrelationId source; ad_ContentType source; ad_ContentEncoding source;
       ad_ReplyTo source; ad_Type source; ad_UserId source; ad_AppId source] →
      valid_property (Consumer_Limits config) value;
  ac_timestamp : IsZero (ad_Timestamp source) = true ∨ BeforeUnixEpoch (ad_Timestamp source) = false;
  ac_expiration : parseDeliveryExpiration (ad_Expiration source) = inr expiration;
  ac_headers : deliveryHeaders (ad_Headers source) (Consumer_Limits config) = inr (headers, n);
  ac_summary : deliveryDeathSummaryBytes (ad_Headers source) (Consumer_Limits config) = inr summary;
  ac_summary_fits : n + summary <= MaxHeaderBytes (Consumer_Limits config);
  ac_acquired : deliveryCounter (ad_Headers source) acquiredCountHeader = inr acquired;
  ac_count : deliveryCounter (ad_Headers source) deliveryCountHeader = inr count;
  ac_charged : charge_counters (Consumer_Limits config) (n + summary) [acquired; count] = inr charged;
  ac_deaths : deliveryDeaths (ad_Headers source) (Consumer_Limits config) charged = inr deaths;
  ac_mode : ad_DeliveryMode source = 0 ∨ ad_DeliveryMode source = amqp_Transient
            ∨ ad_DeliveryMode source = amqp_Persistent }.

(** The delivery of an accepted source. *)
Definition accepted_delivery (source : AmqpDelivery) (headers : list Header) (expiration : option Z)
    (acquired count : option Z) (deaths : list Death) : Delivery :=
  mkDelivery (own_bytes (ad_Body source)) headers (ad_MessageId source)
    (ad_CorrelationId source) (ad_ContentType source) (ad_ContentEncoding source)
    (ad_ReplyTo source) (ad_Type source) (ad_UserId source) (ad_AppId source)
    (ad_Timestamp source) expiration (ad_Priority source)
    (if ad_DeliveryMode source =? amqp_Persistent then DeliveryPersistent else DeliveryTransient)
    (ad_ConsumerTag source) (ad_Exchange source) (ad_RoutingKey source) (ad_Redelivered source)
    acquired count deaths (Some newDeliverySettlement).

Lemma deliveryFromAMQP_inr source config delivery :
  deliveryFromAMQP source config = inr delivery →
  ∃ headers n expiration summary acquired count charged deaths,
    accepted source config headers n expiration summary acquired count charged deaths
    ∧ delivery = accepted_delivery source headers expiration acquired count deaths.
Proof.
  unfold deliveryFromAMQP. intros H.
  destruct (ConsumerConfig_Validate config) eqn:Hv; [done|].
  cbn [consumerOperationFailed present] in H.
  destruct (validDeliveryTag _) eqn:Htag; cbn [negb] in H; [|done].
  destruct (_ || (blen _ >? _)) eqn:Henv; [done|].
  destruct (existsb _ _) eqn:Hprop in H; [done|].
  destruct (negb (IsZero _) && _) eqn:Htime; [done|].
  destruct (parseDeliveryExpiration _) as [|expiration] eqn:Hexp; [done|].
  destruct (deliveryHeaders _ _) as [|[headers n]] eqn:Hh; [done|].
  destruct (deliveryDeathSummaryBytes _ _) as [|summary] eqn:Hs; [done|].
  destruct (negb (fitsRemainingHeaderBudget _ _ _)) eqn:Hfit; [done|].
  destruct (deliveryCounter _ acquiredCountHeader) as [|acquired] eqn:Ha; [done|].
  destruct (deliveryCounter _ deliveryCountHeader) as [|count] eqn:Hc; [done|].
  destruct (charge_counters _ _ _) as [|charged] eqn:Hch; [done|].
  destruct (deliveryDeaths _ _ _) as [|deaths] eqn:Hd; [done|].
  destruct (negb _ && negb _ && negb _) eqn:Hm; [done|]. injection H as <-.
  exists headers, n, expiration, summary, acquired, count, charged, deaths. split; [|done].
  unfold validDeliveryTag, fitsRemainingHeaderBudget in *.
  rewrite existsb_false in Hprop. breflect.
  split; unfold valid_property; rewrite <- ?invalidIdentity_valid, <- ?containsControl_false; try done; try lia; try tauto.
  intros v Hin. by apply valid_property_code, Hprop.
Qed.

Lemma deliveryFromAMQP_accepted source config headers n expiration summary acquired count charged deaths :
  accepted source config headers n expiration summary acquired count charged deaths →
  deliveryFromAMQP source config
  = inr (accepted_delivery source headers expiration acquired count deaths).
Proof.
  intros []. unfold deliveryFromAMQP, valid_property in *.
  rewrite <- ?invalidIdentity_valid, <- ?containsControl_false in *.
  rewrite ac_config0. cbn [consumerOperationFailed present].
  rewrite (proj2 (Z.gtb_lt _ _) ac_tag0 : validDeliveryTag _ = true). cbn [negb].
  destruct (_ || (blen _ >? _)) eqn:Henv; [breflect; destruct_or?; destruct_and?; congruence || lia|].
  rewrite (proj2 (existsb_false _ _)); cycle 1.
  { intros v Hin. by apply valid_property_code, ac_properties0. }
  destruct (negb (IsZero _) && _) eqn:Htime; [breflect; destruct_or?; destruct_and?; congruence|].
  rewrite ac_expiration0, ac_headers0, ac_summary0. unfold fitsRemainingHeaderBudget.
  destruct (negb (_ <=? _)) eqn:Hfit; [breflect; lia|].
  rewrite ac_acquired0, ac_count0, ac_charged0, ac_deaths0.
  destruct (negb _ && negb _ && negb _) eqn:Hm; [breflect; destruct_and?; lia|]. done.
Qed.

(** C19: every delivery handed to a handler obeys the consumer's limits.  The body
    is bounded.  The exchange, the routing key, the properties and the exchange and
    routing keys of the dead-letter records are bounded and free of control
    characters; the consumer tag, the header keys and the reason and queue of the
    dead-letter records are bounded identities, trimmed and without NUL, CR and LF
    only.  Headers are unique, unreserved, canonical and sorted by key, dead-letter
    records are bounded in number, and headers, counters and dead-letter records
    together stay within one [MaxHeaderBytes] budget. *)
Theorem deliveryFromAMQP_bounded source config delivery :
  deliveryFromAMQP source config = inr delivery →
  bounded_delivery (Consumer_Limits config) delivery.
Proof.
  intros (headers & n & expiration & summary & acquired & count & charged & deaths & [] & ->)%deliveryFromAMQP_inr.
  apply ConsumerConfig_Validate_limits in ac_config0 as Hlim.
  apply deliveryHeaders_inr in ac_headers0 as (-> & ? & ? & Hkeys & ?); [|done].
  apply death_summary_inr in ac_summary0. apply charge_counters_inr in ac_charged0 as [-> ?]; [|lia].
  apply deliveryDeaths_inr in ac_deaths0 as (? & ? & ?); [|lia].
  split; simpl; try done; rewrite ?blen_own_bytes, ?Hkeys; try done; try lia.
  - apply application_keys_nodup.
  - apply application_keys_sorted.
  - intros e ->. by eapply parseDeliveryExpiration_inr.
  - case_match; auto.
Qed.

(** A consumer of a quorum queue, and a first delivery to it. *)
Definition example_consumer : ConsumerConfig :=
  mkConsumerConfig DefaultLimits (mkQueueReference "jobs" QueueQuorum false None) "worker-1" None false
    8 4 Second 3 (NegativeAcknowledge true).

Definition example_source (acquired : Z) : AmqpDelivery :=
  mkAmqpDelivery (<["tenant" := VString "acme"]> (<[acquiredCountHeader := VInt64 acquired]> ∅))
    "application/json" "" amqp_Persistent 0 "" "" "" "m-1" zero_time "" "" "" "worker-1" 1
    (0 <? acquired) "orders" "created" (Some []).

Lemma deliveryFromAMQP_bounded_witness :
  match deliveryFromAMQP (example_source 2) example_consumer with
  | inr delivery => bounded_delivery DefaultLimits delivery
  | inl _ => False
  end.
Proof.
  destruct (deliveryFromAMQP (example_source 2) example_consumer) as [e|d] eqn:E.
  - by vm_compute in E.
  - apply (deliveryFromAMQP_bounded _ _ _ E).
Defined.

(** ** The requeue bound *)

(** Whether one more requeue of a delivery is within the consumer's bound: the
    acquired count of a quorum queue decides when the broker reports it; without
    it a negative acknowledgement gets one requeue, and a rejection goes by the
    delivery count of a quorum queue or gets one requeue. *)
Definition requeue_allowed (delivery : Delivery) (method : SettlementMethod) (config : ConsumerConfig)
    : bool :=
  let quorum := Reference_Type (Consumer_Queue config) =s QueueQuorum in
  let first := negb (Redelivered delivery) in
  match AcquiredCount delivery, DeliveryCount delivery with
  | Some acquired, _ => if quorum then acquired <? MaxRequeues config else first
  | None, Some failed =>
    if quorum && (method =s SettlementReject) then failed <? MaxRequeues config else first
  | None, None => first
  end.

Lemma boundedSettlement_method delivery requested config :
  boundedSettlement delivery requested config =
  mkSettlement (Method requested) (Requeue (boundedSettlement delivery requested config)).
Proof.
  destruct requested as [m r]. unfold boundedSettlement. simpl. by repeat case_match; simplify_eq/=.
Qed.

(** The settlement a consumer sends keeps the method the handler asked for,
    and requeues only when the handler asked for it, the consumer allows requeues
    at all, and the delivery is still within its bound. *)
Theorem boundedSettlement_spec delivery requested config :
  boundedSettlement delivery requested config =
  mkSettlement (Method requested)
    (Requeue requested && negb (MaxRequeues config =? 0)
     && requeue_allowed delivery (Method requested) config).
Proof.
  destruct requested as [m r]. unfold boundedSettlement, requeue_allowed. simpl.
  destruct r; [|done]. simpl. destruct (MaxRequeues config =? 0); [done|]. simpl.
  destruct (_ =s QueueQuorum), (AcquiredCount delivery); try done; simpl;
  destruct (String.eqb_spec m SettlementNegativeAcknowledge) as [->|];
    destruct (Redelivered delivery), (DeliveryCount delivery); try done; simpl;
  by destruct (m =s SettlementReject).
Qed.

(** What the broker documents of a message it delivers again after the requeue that
    settled [previous]: the redelivered flag is set; the acquired count is reported
    always, and has grown, or never; and a reported delivery count has grown when
    the message was rejected (a negative acknowledgement need not change it). *)
Definition redelivers (previous next : Delivery * Settlement) : Prop :=
  Redelivered next.1 = true
  ∧ (AcquiredCount previous.1 = None → AcquiredCount next.1 = None)
  ∧ (∀ a, AcquiredCount previous.1 = Some a → ∃ b, AcquiredCount next.1 = Some b ∧ a < b)
  ∧ (Method previous.2 = SettlementReject →
     ∀ c, DeliveryCount next.1 = Some c → default 0 (DeliveryCount previous.1) < c).

(** The counters of a delivery are unsigned. *)
Definition unsigned_counters (delivery : Delivery) : Prop :=
  0 <= default 0 (AcquiredCount delivery) ∧ 0 <= default 0 (DeliveryCount delivery).

(** One message on its way through the consumer: the deliveries of it, each with
    what the handler asked for, every one sent back with a requeue. *)
Record requeue_run (config : ConsumerConfig) (run : list (Delivery * Settlement)) : Prop := {
  rr_redelivered : Sorted redelivers run;
  rr_counters : Forall (λ x, unsigned_counters x.1) run;
  rr_requeued : Forall (λ x, Requeue (boundedSettlement x.1 x.2 config) = true) run }.

Lemma requeue_run_cons config d s run :
  requeue_run config ((d, s) :: run) →
  requeue_run config run ∧ HdRel redelivers (d, s) run ∧ unsigned_counters d
  ∧ MaxRequeues config ≠ 0 ∧ requeue_allowed d (Method s) config = true.
Proof.
  intros [[Hs Hd]%Sorted_inv [Hu Hus]%Forall_cons_1 [Hr Hrs]%Forall_cons_1]. split; [done|]. split; [done|]. split; [done|].
  rewrite boundedSettlement_spec in Hr. cbn [Requeue fst snd] in Hr. rewrite !andb_true_iff, negb_true_iff, Z.eqb_neq in Hr. tauto.
Qed.

(** The acquired count bounds the rest of the run. *)
Lemma acquired_run config run d s a :
  Reference_Type (Consumer_Queue config) = QueueQuorum → requeue_run config ((d, s) :: run) →
  AcquiredCount d = Some a → a + llen ((d, s) :: run) <= MaxRequeues config.
Proof.
  intros Hq. revert d s a. induction run as [|[d' s'] run IH]; intros d s a Hrun Ha.
  all: apply requeue_run_cons in Hrun as (Hrun & Hd & _ & _ & Hok); unfold requeue_allowed in Hok; rewrite Hq, Ha in Hok; simpl in Hok.
  { unfold llen. simpl. lia. }
  apply HdRel_inv in Hd as (_ & _ & Hacq & _). destruct (Hacq a Ha) as (b & Hb & Hlt).
  pose proof (IH _ _ _ Hrun Hb). rewrite llen_cons. simpl in *. lia.
Qed.

(** Without it every redelivery that is requeued was rejected, and the delivery
    count bounds the rest of the run. *)
Lemma rejected_run config run d s :
  Reference_Type (Consumer_Queue config) = QueueQuorum → requeue_run config ((d, s) :: run) →
  AcquiredCount d = None → Redelivered d = true →
  ∃ c, DeliveryCount d = Some c ∧ c + llen ((d, s) :: run) <= MaxRequeues config.
Proof.
  intros Hq. revert d s. induction run as [|[d' s'] run IH]; intros d s Hrun Ha Hre.
  all: apply requeue_run_cons in Hrun as (Hrun & Hd & _ & _ & Hok); unfold requeue_allowed in Hok;
    rewrite Hq, Ha, Hre in Hok; simpl in Hok; destruct (DeliveryCount d) as [c|] eqn:Hc; [|done];
    destruct (String.eqb_spec (Method s) SettlementReject) as [Hm|]; [|done]; exists c; (split; [done|]).
  { unfold llen. simpl. lia. }
  apply HdRel_inv in Hd as (Hre' & Hno & _ & Hgrow). simpl in *.
  destruct (IH d' s' Hrun (Hno Ha) Hre') as (c' & Hc' & Hle). pose proof (Hgrow Hm c' Hc') as Hlt.
  rewrite Hc in Hlt. rewrite llen_cons. simpl in Hlt. lia.
Qed.

(** C20: requeueing terminates: however often a handler asks for it, one message is
    requeued at most once through a classic queue, at most [MaxRequeues] times
    through a quorum queue whose broker reports the acquired count, and through one
    whose broker does not at most [MaxRequeues] times, or once more when the first
    requeue was not a rejection, given that the broker flags redeliveries and its
    counters grow the way it documents. *)
Theorem requeues_bounded config run d s :
  requeue_run config ((d, s) :: run) → 0 <= MaxRequeues config →
  llen ((d, s) :: run) <=
    if Reference_Type (Consumer_Queue config) =s QueueQuorum then
      if present (AcquiredCount d) || (Method s =s SettlementReject)
      then MaxRequeues config else MaxRequeues config + 1
    else 1.
Proof.
  intros Hrun Hmax. pose proof (requeue_run_cons _ _ _ _ Hrun) as (Hrun' & Hd & [Hua Hud] & Hnz & _).
  destruct (String.eqb_spec (Reference_Type (Consumer_Queue config)) QueueQuorum) as [Hq|Hq].
  - destruct (AcquiredCount d) as [a|] eqn:Ha; cbn [present orb].
    { pose proof (acquired_run _ _ _ _ _ Hq Hrun Ha). simpl in Hua. lia. }
    destruct run as [|[d' s'] run]; [unfold llen; simpl; case_match; lia|].
    apply HdRel_inv in Hd as (Hre & Hno & _ & Hgrow).
    destruct (rejected_run _ _ _ _ Hq Hrun' (Hno Ha) Hre) as (c & Hc & Hle). rewrite llen_cons.
    apply requeue_run_cons in Hrun' as (_ & _ & [_ Hu] & _). rewrite Hc in Hu. simpl in *.
    destruct (String.eqb_spec (Method s) SettlementReject) as [Hm|]; [|lia]. pose proof (Hgrow Hm c Hc). lia.
  - destruct run as [|[d' s'] run]; [unfold llen; simpl; lia|]. apply HdRel_inv in Hd as (Hre & _). simpl in Hre.
    apply requeue_run_cons in Hrun' as (_ & _ & _ & _ & Hok). unfold requeue_allowed in Hok.
    rewrite (proj2 (String.eqb_neq _ _) Hq), Hre in Hok. simpl in Hok. by repeat case_match.
Qed.

Definition example_delivery (redelivered : bool) (acquired delivered : option Z) : Delivery :=
  mkDelivery None [] "m-1" "" "" "" "" "" "" "" zero_time None 0 DeliveryPersistent "worker-1" "orders"
    "created" redelivered acquired delivered [] (Some newDeliverySettlement).

(** One message through the quorum queue of [example_consumer], whose bound is
    three: three requeues by the acquired count, and four without it, of which the
    first is a negative acknowledgement. *)
Lemma requeues_bounded_witness :
  llen [(example_delivery false (Some 0) None, NegativeAcknowledge true);
        (example_delivery true (Some 1) None, Reject true);
        (example_delivery true (Some 2) (Some 1), NegativeAcknowledge true)] <= 3
  ∧ llen [(example_delivery false None None, NegativeAcknowledge true);
          (example_delivery true None (Some 0), Reject true);
          (example_delivery true None (Some 1), Reject true);
          (example_delivery true None (Some 2), Reject true)] <= 4.
Proof.
  split; apply (requeues_bounded example_consumer); try done; (split;
    [|repeat constructor; done|repeat constructor; by vm_compute]);
    repeat (constructor; try done); simpl; intros; simplify_eq/=; try lia; try done; eexists; (split; [done|lia]).
Defined.
