(* ===== verification/RoundTrip.v ===== *)
(** * RoundTrip: what a producer publishes is what a consumer's handler receives

    The producer half ([amqpPublishing] of producer.go) and the consumer half
    ([deliveryFromAMQP] of delivery.go) composed.  The broker between them is
    outside the package: [carries] states what is relied on of it, for the first
    delivery of a message. *)

From S2P Require Import Prelude GoText Errors Config Amqp Message Topology Settlement Delivery.

(** Two field-table values that print to the same bytes on the wire and are read
    back as either: a nil and an empty byte slice are not told apart. *)
Inductive same_value : any → any → Prop :=
| same_refl v : same_value v v
| same_bytes b b' : own_bytes b = own_bytes b' → same_value (VBytes b) (VBytes b').

(** The broker delivers what was published, unchanged, under the exchange and
    routing key of the publication and the tag of the consumer. *)
Record carries (exchange routingKey : string) (sent : Publishing) (source : AmqpDelivery) : Prop := {
  ca_headers : ∀ key, option_Forall2 same_value (pub_Headers sent !! key) (ad_Headers source !! key);
  ca_content_type : ad_ContentType source = pub_ContentType sent;
  ca_content_encoding : ad_ContentEncoding source = pub_ContentEncoding sent;
  ca_mode : ad_DeliveryMode source = pub_DeliveryMode sent;
  ca_priority : ad_Priority source = pub_Priority sent;
  ca_correlation : ad_CorrelationId source = pub_CorrelationId sent;
  ca_reply_to : ad_ReplyTo source = pub_ReplyTo sent;
  ca_expiration : ad_Expiration source = pub_Expiration sent;
  ca_message_id : ad_MessageId source = pub_MessageId sent;
  ca_timestamp : ad_Timestamp source = pub_Timestamp sent;
  ca_type : ad_Type source = pub_Type sent;
  ca_user : ad_UserId source = EmptyString;
  ca_app : ad_AppId source = pub_AppId sent;
  ca_tag : 0 < ad_DeliveryTag source;
  ca_exchange : ad_Exchange source = exchange;
  ca_routing_key : ad_RoutingKey source = routingKey;
  ca_body : own_bytes (ad_Body source) = own_bytes (pub_Body sent) }.

(** The value ranges of the Go types a [Message] is made of. *)
Definition typed_message (message : Message) : Prop :=
  (∀ p, Priority message = Some p → 0 <= p < 2 ^ 16) ∧
  (∀ e, Expiration message = Some e → is_int64 e).

(** ** Expirations *)

Lemma expiration_round_trip e :
  valid_expiration e → parseDeliveryExpiration (FormatInt (Milliseconds e)) = inr (Some e).
Proof.
  intros [Hr Hm]. pose proof (Milliseconds_exact e Hm) as Hex. unfold Milliseconds in *.
  pose proof (Z.quot_pos e Millisecond ltac:(lia) ltac:(by vm_compute)) as Hpos.
  unfold max_int64, Millisecond in *.
  unfold parseDeliveryExpiration, FormatInt.
  rewrite (proj2 (Z.ltb_ge _ _)) by lia.
  destruct (FormatUint_spec (Z.quot e 1000000)) as (Hne & _ & _ & _);
    [unfold is_uint64, max_uint64; lia|].
  rewrite (proj2 (String.eqb_neq _ _)) by (intros He; by rewrite He in Hne).
  rewrite ParseUint_FormatUint by lia. unfold max_int64, Millisecond.
  change (Z.quot (2 ^ 63 - 1) 1000000) with 9223372036854.
  destruct (_ >? _) eqn:E; [lia|]. rewrite Hex, int64_small; [done|]. unfold is_int64, max_int64. lia.
Qed.

(** ** Headers *)

(** A canonical header, its table entry as the broker returns it, and the header
    a delivery exposes for that entry. *)
Lemma delivered_header_own h v v' n table :
  header_value_bytes h = Some n → header_entry h = Some v → same_value v v' →
  table !! Header_Key h = Some v' →
  supported_value v' = true ∧ value_size v' = n ∧ delivered_header table (Header_Key h) = own_header h.
Proof.
  intros Hn Hv Hs Hl. unfold delivered_header, index. rewrite Hl. clear Hl.
  destruct h as [key kind str bool int b]. unfold header_value_bytes, header_entry in *. simpl in *.
  destruct (Z.eqb_spec kind HeaderString) as [->|]; [|
  destruct (Z.eqb_spec kind HeaderBool) as [->|]; [|
  destruct (Z.eqb_spec kind HeaderInt64) as [->|]; [|
  destruct (Z.eqb_spec kind HeaderBytes) as [->|]; [|done]]]].
  all: destruct (_ || _ || _) eqn:E; [done|]; injection Hv as <-; injection Hn as <-.
  all: breflect; destruct E as [[E1 E2] E3]; try (destruct b; [done|]); subst.
  1-3: inversion Hs; subst; unfold value_size, supported_value, own_header; by simpl.
  assert (∃ b', v' = VBytes b' ∧ own_bytes b' = own_bytes b) as (b' & -> & Hb').
  { inversion Hs as [|? b' Heq]; subst; eexists; split; try done.
    - apply own_bytes_idem.
    - by rewrite <- Heq, own_bytes_idem. }
  unfold value_size, supported_value, own_header. simpl. rewrite Hb'. split_and!; try done.
  by rewrite <- (blen_own_bytes b), <- Hb', blen_own_bytes.
Qed.

Section Headers.
Context (limits : Limits) (headers : list Header) (token : string) (table : Table).
Hypothesis Hvalid : ∀ h, h ∈ headers → valid_header limits h.
Hypothesis Hkeys : NoDup (map Header_Key headers).
Hypothesis Hcarried : ∀ key, option_Forall2 same_value
  ((<[publishTokenHeader := VString token]> (header_table headers) : Table) !! key) (table !! key).

Lemma carried_token : table !! publishTokenHeader = Some (VString token).
Proof using Hcarried.
  pose proof (Hcarried publishTokenHeader) as H. rewrite lookup_insert_eq in H.
  inversion H as [? v Hs|]; subst. by inversion Hs.
Qed.

Lemma carried_other key :
  key ≠ publishTokenHeader → key ∉ map Header_Key headers → table !! key = None.
Proof using Hcarried.
  intros Hne Hk. pose proof (Hcarried key) as H.
  rewrite lookup_insert_ne, header_table_other in H by done. by inversion H.
Qed.

Lemma carried_reserved key : key ∈ reserved_keys → key ≠ publishTokenHeader → table !! key = None.
Proof using Hvalid Hcarried.
  intros Hr Hne. apply carried_other; [done|].
  rewrite list_elem_of_In, in_map_iff. intros (h & <- & Hh%list_elem_of_In).
  destruct (Hvalid h Hh) as (_ & Hnr%reserved_false & _). by apply reserved_true in Hr; congruence.
Qed.

Lemma carried_header h :
  h ∈ headers → ∃ v n, table !! Header_Key h = Some v ∧ header_value_bytes h = Some n
  ∧ supported_value v = true ∧ value_size v = n
  ∧ delivered_header table (Header_Key h) = own_header h.
Proof using Hvalid Hkeys Hcarried.
  intros Hh. destruct (proj1 (valid_header_code _ _) (Hvalid h Hh)) as (_ & Hnr & n & Hn).
  destruct (header_entry_valid h ltac:(by eexists)) as [v Hv].
  pose proof (Hcarried (Header_Key h)) as H.
  rewrite lookup_insert_ne in H by (intros Heq; rewrite <- Heq in Hnr; done).
  rewrite (header_table_lookup headers h), Hv in H by (done || by eexists).
  inversion H as [? v' Hs Heq|]; subst. exists v', n.
  pose proof (delivered_header_own _ _ _ _ table Hn Hv Hs ltac:(done)). tauto.
Qed.

Lemma carried_keys : application_keys (map_to_list table) ≡ₚ map Header_Key headers.
Proof using Hvalid Hkeys Hcarried.
  apply NoDup_Permutation; [apply application_keys_nodup | done |].
  intros key. rewrite elem_of_application_keys. split.
  - intros [[v Hv] Hr]. destruct (decide (key ∈ map Header_Key headers)) as [|Hn]; [done|].
    destruct (decide (key = publishTokenHeader)) as [->|Hne]; [done|].
    rewrite (carried_other key) in Hv by done. done.
  - rewrite list_elem_of_In, in_map_iff. intros (h & <- & Hh%list_elem_of_In).
    destruct (carried_header h Hh) as (v & _ & -> & _). destruct (Hvalid h Hh) as (_ & ?%reserved_false & _).
    split; [by eexists|done].
Qed.

Lemma carried_bytes :
  sumZ entry_size (application_entries (map_to_list table)) = sumZ header_size headers.
Proof using Hvalid Hkeys Hcarried.
  rewrite <- application_bytes, (sumZ_perm _ _ _ carried_keys), sumZ_map. apply sumZ_ext.
  intros h Hh. destruct (carried_header h Hh) as (v & n & Hv & Hn & _ & Hs & _).
  rewrite (header_size_code _ _ Hn), <- Hs. unfold entry_size, index. simpl. by rewrite Hv.
Qed.

Hypothesis Hlimits : Limits_valid limits = true.
Hypothesis Hcount : llen headers <= MaxHeaderEntries limits.
Hypothesis Hbytes : sumZ header_size headers <= MaxHeaderBytes limits.
Hypothesis Htoken : invalidIdentity token maxPublishTokenBytes = false.

Lemma carried_admissible :
  admissible limits 0 0 (application_entries (map_to_list table)) = true.
Proof using Hvalid Hkeys Hcarried Hcount Hbytes.
  unfold admissible. breflect. rewrite carried_bytes. split_and!; [|apply forallb_true|lia].
  - assert (llen (application_entries (map_to_list table)) = llen headers) as ->; [|lia].
    unfold llen. rewrite <- (length_map fst), <- (Permutation_length (application_keys_perm _)).
    by rewrite (Permutation_length carried_keys), length_map.
  - intros [key v] Hin. apply elem_of_application_entries in Hin as [Hv Hr].
    assert (key ∈ map Header_Key headers) as Hk.
    { rewrite <- carried_keys, elem_of_application_keys. split; [by eexists|done]. }
    rewrite list_elem_of_In, in_map_iff in Hk. destruct Hk as (h & <- & Hh%list_elem_of_In).
    destruct (carried_header h Hh) as (v' & n & Hv' & _ & Hs & _).
    destruct (Hvalid h Hh) as (Hid%invalidIdentity_valid & _ & _). unfold entry_ok. simpl.
    rewrite Hv in Hv'. injection Hv' as <-. by rewrite Hid, Hs.
Qed.

(** The headers of the delivery are the owned headers of the message, in key
    order. *)
Lemma carried_delivery_headers :
  ∃ delivered, deliveryHeaders table limits = inr (delivered, sumZ header_size headers)
  ∧ delivered ≡ₚ map own_header headers.
Proof using All.
  exists (map (delivered_header table) (application_keys (map_to_list table))). split.
  - rewrite deliveryHeaders_spec, carried_admissible, carried_bytes by done.
    unfold token_rejected. rewrite carried_token. cbn [as_string]. by rewrite Htoken.
  - rewrite carried_keys, map_map. erewrite map_ext_in; [done|].
    intros h Hh%list_elem_of_In. by destruct (carried_header h Hh) as (v & n & _ & _ & _ & _ & ?).
Qed.

(** A first delivery has no broker metadata. *)
Lemma carried_metadata :
  deliveryDeathSummaryBytes table limits = inr 0
  ∧ deliveryCounter table acquiredCountHeader = inr None
  ∧ deliveryCounter table deliveryCountHeader = inr None
  ∧ ∀ n, deliveryDeaths table limits n = inr [].
Proof using Hvalid Hcarried.
  unfold deliveryDeathSummaryBytes, death_summary, summary_fields, deliveryCounter, deliveryDeaths.
  rewrite !carried_reserved by (apply reserved_true; reflexivity) || done. done.
Qed.
End Headers.

(** ** The round trip *)

(** The delivery a handler sees, field by field, against the publication. *)
Record received (publication : Publication) (delivery : Delivery) : Prop := {
  re_body : Delivery_Body delivery = own_bytes (Body (Publication_Message publication));
  re_headers : Delivery_Headers delivery ≡ₚ map own_header (Headers (Publication_Message publication));
  re_sorted : StronglySorted String.le (map Header_Key (Delivery_Headers delivery));
  re_message_id : Delivery_MessageID delivery = MessageID (Publication_Message publication);
  re_correlation : Delivery_CorrelationID delivery = CorrelationID (Publication_Message publication);
  re_content_type : Delivery_ContentType delivery = ContentType (Publication_Message publication);
  re_content_encoding :
    Delivery_ContentEncoding delivery = ContentEncoding (Publication_Message publication);
  re_reply_to : Delivery_ReplyTo delivery = ReplyTo (Publication_Message publication);
  re_type : Delivery_Type delivery = MessageType (Publication_Message publication);
  re_app : Delivery_AppID delivery = AppID (Publication_Message publication);
  re_timestamp : Delivery_Timestamp delivery = Timestamp (Publication_Message publication);
  re_expiration : Delivery_Expiration delivery = Expiration (Publication_Message publication);
  re_priority : Delivery_Priority delivery = default 0 (Priority (Publication_Message publication));
  re_mode : Delivery_DeliveryMode delivery = Publication_DeliveryMode publication;
  re_exchange : Delivery_Exchange delivery = Publication_Exchange publication;
  re_routing_key : Delivery_RoutingKey delivery = Publication_RoutingKey publication;
  re_fresh : AcquiredCount delivery = None ∧ DeliveryCount delivery = None ∧ Deaths delivery = [] }.

Lemma names_exchange_length limits exchange kind :
  valid_limits limits → names_exchange limits exchange kind → len exchange <= MaxNameBytes limits.
Proof. intros [] [[-> _]|[]]; [change (len "") with 0; lia|done]. Qed.

Lemma ConsumerConfig_Validate_name config :
  ConsumerConfig_Validate config = None →
  valid_identity (Consumer_Name config) (MaxNameBytes (Consumer_Limits config)).
Proof. unfold ConsumerConfig_Validate. rewrite <- invalidIdentity_valid. case_match; [done|]. breflect. tauto. Qed.

(** The expiration text of a valid message parses back to its expiration. *)
Lemma message_expiration message :
  (∀ e, Expiration message = Some e → valid_expiration e) →
  parseDeliveryExpiration
    match Expiration message with Some e => FormatInt (Milliseconds e) | None => EmptyString end
  = inr (Expiration message).
Proof.
  destruct (Expiration message) as [e|]; intros H; [|done]. by apply expiration_round_trip, H.
Qed.

(** C18: a valid publication to an exchange whose name has no control characters
    reaches the handler intact: when the broker carries the AMQP message the producer
    built to a consumer with the same limits, as a first delivery without counters
    and dead-letter records, the consumer accepts it, and the handler sees the same body, properties, timestamp,
    expiration, priority, mode, exchange and routing key, with the same headers in
    key order. *)
Theorem publish_deliver_round_trip limits publication session sequence config source :
  Publication_Validate publication limits = None →
  typed_message (Publication_Message publication) →
  control_free (Publication_Exchange publication) →
  usableProducerSession session None = true → is_uint64 sequence →
  ConsumerConfig_Validate config = None → Consumer_Limits config = limits →
  ad_ConsumerTag source = Consumer_Name config →
  carries (Publication_Exchange publication) (Publication_RoutingKey publication)
    (amqpPublishing (Publication_Message (ownPublication publication))
       (Publication_DeliveryMode publication) (publish_token session sequence)) source →
  ∃ delivery, deliveryFromAMQP source config = inr delivery ∧ received publication delivery.
Proof.
  intros Hv%Publication_Validate_valid [Hprio Hexpi] Hex Hsession Hseq Hconfig <- Hconsumer [].
  destruct Hv. unfold amqpPublishing in *. simpl in *. rewrite header_table_own in *.
  pose proof (publish_token_valid _ _ Hsession Hseq) as Htoken.
  destruct (carried_delivery_headers (Consumer_Limits config) _ _ _ vp_headers vp_header_keys
    ca_headers0 (proj2 (Limits_valid_true _) vp_limits) vp_header_count vp_header_bytes Htoken) as (delivered & Hh & Hperm).
  destruct (carried_metadata (Consumer_Limits config) _ _ _ vp_headers ca_headers0)
    as (Hsum & Hacq & Hcnt & Hdeaths).
  assert (∀ e, Expiration (Publication_Message publication) = Some e → valid_expiration e) as Hexpv.
  { intros e He. destruct (vp_expiration e He). destruct (Hexpi e He). split; [lia|done]. }
  eexists. split.
  - apply (deliveryFromAMQP_accepted _ _ delivered (sumZ header_size (Headers (Publication_Message publication)))
             (Expiration (Publication_Message publication)) 0 None None
             (sumZ header_size (Headers (Publication_Message publication)) + 0) []).
    split; rewrite ?ca_routing_key0, ?ca_exchange0, ?Hconsumer; try done.
    + by apply ConsumerConfig_Validate_name.
    + split; [by eapply names_exchange_length | done].
    + rewrite <- blen_own_bytes, ca_body0, !own_bytes_idem, !blen_own_bytes. done.
    + rewrite ca_message_id0, ca_correlation0, ca_content_type0, ca_content_encoding0, ca_reply_to0,
        ca_type0, ca_user0, ca_app0.
      intros v. rewrite !elem_of_cons. intros Hin.
      assert (v = ""%string ∨ v ≠ ""%string) as [->|Hne] by (destruct v; auto).
      { split; [destruct vp_limits; change (len "") with 0; lia|by intros b ?%not_elem_of_nil]. }
      apply vp_properties. rewrite !elem_of_cons. tauto.
    + rewrite ca_timestamp0. tauto.
    + rewrite ca_expiration0. by apply message_expiration.
    + lia.
    + rewrite ca_mode0. destruct vp_mode as [->| ->]; auto.
  - split; simpl; try done; try congruence.
    + by rewrite ca_body0, !own_bytes_idem.
    + apply deliveryHeaders_inr in Hh as (_ & _ & _ & -> & _); [|by apply Limits_valid_true]. apply application_keys_sorted.
    + rewrite ca_priority0. destruct (Priority _) as [p|]; [|done]. simpl.
      specialize (vp_priority p eq_refl). specialize (Hprio p eq_refl). apply wrap_u_small. lia.
    + rewrite ca_mode0. by destruct vp_mode as [->| ->].
Qed.

(** ** A concrete broker *)

(** The broker as a function: the message as published, first delivery. *)
Definition first_delivery (exchange routingKey consumer : string) (sent : Publishing) : AmqpDelivery :=
  mkAmqpDelivery (pub_Headers sent) (pub_ContentType sent) (pub_ContentEncoding sent)
    (pub_DeliveryMode sent) (pub_Priority sent) (pub_CorrelationId sent) (pub_ReplyTo sent)
    (pub_Expiration sent) (pub_MessageId sent) (pub_Timestamp sent) (pub_Type sent) EmptyString
    (pub_AppId sent) consumer 1 false exchange routingKey (pub_Body sent).

Lemma first_delivery_carries exchange routingKey consumer sent :
  carries exchange routingKey sent (first_delivery exchange routingKey consumer sent).
Proof.
  split; try done. intros key. simpl. destruct (pub_Headers sent !! key); constructor. constructor.
Qed.

Definition example_publication (exchange : string) : Publication :=
  mkPublication exchange ExchangeTopic "orders.created" true DeliveryPersistent
    (mkMessage (Some [x7b; x7d]) "m-42" "c-7" "" "application/json" "" "order" "shop"
       (mkTime 1700000000 0) (Some (1500 * Millisecond)) (Some 3)
       [StringHeader "tenant" "acme"; Int64Header "attempt" (-1); BytesHeader "digest" (Some [x00; xff])]).

Lemma publish_deliver_round_trip_witness :
  match deliveryFromAMQP
          (first_delivery "orders" "orders.created" "worker-1"
             (amqpPublishing (Publication_Message (ownPublication (example_publication "orders")))
                DeliveryPersistent (publish_token "0123456789abcdef" 42))) example_consumer with
  | inr delivery => received (example_publication "orders") delivery
  | inl _ => False
  end.
Proof.
  edestruct (publish_deliver_round_trip DefaultLimits (example_publication "orders") "0123456789abcdef" 42
    example_consumer) as (d & Hd & Hr).
  9: apply (first_delivery_carries "orders" "orders.created" "worker-1").
  1, 4-8: try reflexivity; by vm_compute.
  2: by apply containsControl_false; vm_compute.
  - split; intros ? [= <-]; unfold is_int64, max_int64, Millisecond; lia.
  - change (Publication_DeliveryMode (example_publication "orders")) with DeliveryPersistent in Hd.
    by rewrite Hd.
Defined.

(** An exchange name with a tab in it. *)
Definition tabbed_exchange : string := of_codes [97; 9; 98].

(** C37: the publisher and the topology accept exchange names with interior
    control characters that the consumer refuses: an exchange can be declared
    and published to under such a name, while every delivery that came through
    it is invalid. *)
Theorem control_exchange_asymmetry :
  Exchange_Validate (mkExchange tabbed_exchange ExchangeTopic true false false) = None
  ∧ Publication_Validate (example_publication tabbed_exchange) DefaultLimits = None
  ∧ ∀ source config, ad_Exchange source = tabbed_exchange →
      deliveryFromAMQP source config = inl ErrInvalidDelivery.
Proof.
  split; [by vm_compute|]. split; [by vm_compute|]. intros source config Hs.
  destruct (deliveryFromAMQP source config) as [e|d] eqn:E.
  - f_equal. by eapply deliveryFromAMQP_err.
  - apply deliveryFromAMQP_inr in E as (?&?&?&?&?&?&?&?&[]&_).
    destruct ac_exchange as [_ Hc%containsControl_false]. rewrite Hs in Hc. by vm_compute in Hc.
Qed.
