(* ===== verification/Tracker.v ===== *)
(** * Tracker: publish outcomes and their correlation

    result.go (outcome states and results) and publish_tracker.go.  The tracker
    shares [publishAttempt] values with the publishing goroutines, so attempts
    live in a heap and the two maps of the tracker hold pointers into it.  Every
    operation runs under the tracker's mutex, so it is one step; an operation
    that would panic (a send on a closed channel, a close of a closed one, a
    pointer that is not allocated) or block for ever under the mutex (a send on a
    full channel) has the result [None].

    [spec_step] is the abstract tracker, a single table of attempts without
    indexes; [exec_refines] shows that the two maps implement it. *)

From S2P Require Import Prelude Errors.

(** ** Outcomes (result.go) *)

Definition PublishState : Type := string.
Definition PublishNotSent : PublishState := "not_sent".
Definition PublishRejected : PublishState := "rejected".
Definition PublishReturned : PublishState := "returned".
Definition PublishConfirmed : PublishState := "confirmed".
Definition PublishAmbiguous : PublishState := "ambiguous".

Definition PublishState_Valid (state : PublishState) : bool :=
  (state =s PublishNotSent) || (state =s PublishRejected) || (state =s PublishReturned)
  || (state =s PublishConfirmed) || (state =s PublishAmbiguous).

Record Return := mkReturn {
  Return_Code : Z;
  Return_Reason : string;
  Return_Exchange : string;
  Return_RoutingKey : string }.

Record PublishResult := mkPublishResult {
  Result_State : PublishState;
  Result_Return : option Return }.

Record PublishOutcome := mkPublishOutcome {
  Outcome_Result : PublishResult;
  Outcome_Err : option error }.

Definition PublishResult_Valid (result : PublishResult) : bool :=
  return_if negb (PublishState_Valid (Result_State result)), false ;;
  return_if Result_State result =s PublishReturned, present (Result_Return result) ;;
  negb (present (Result_Return result)).

#[global] Instance Return_eq_dec : EqDecision Return.
Proof. solve_decision. Defined.
#[global] Instance PublishResult_eq_dec : EqDecision PublishResult.
Proof. solve_decision. Defined.

Module PublishTracker.

(** ** Channels *)

(** A buffered channel of capacity one. *)
Record outcome_chan := mkChan { ch_buffer : list PublishResult; ch_closed : bool }.

#[global] Instance outcome_chan_eq_dec : EqDecision outcome_chan.
Proof. solve_decision. Defined.

Definition make_chan : outcome_chan := mkChan [] false.

(** [c <- result]: a panic when closed, a block when full. *)
Definition chan_send (c : outcome_chan) (result : PublishResult) : option outcome_chan :=
  return_if ch_closed c, None ;;
  match ch_buffer c with [] => Some (mkChan [result] false) | _ => None end.

(** [close(c)]: a panic when already closed. *)
Definition chan_close (c : outcome_chan) : option outcome_chan :=
  return_if ch_closed c, None ;;
  Some (mkChan (ch_buffer c) true).

(** [result, open := <-c]; [None] blocks. *)
Definition chan_recv (c : outcome_chan) : option (option PublishResult * outcome_chan) :=
  match ch_buffer c with
  | result :: rest => Some (Some result, mkChan rest (ch_closed c))
  | [] => if ch_closed c then Some (None, c) else None
  end.

(** ** The tracker *)

Record publishAttempt := mkAttempt {
  at_sequence : Z;
  at_token : string;
  at_exchange : string;
  at_route : string;
  at_returned : option Return;
  at_outcome : outcome_chan }.

(** The heap of attempts, the next free address, and the tracker's own fields. *)
Record publishTracker := mkTracker {
  tr_heap : gmap nat publishAttempt;
  tr_next : nat;
  tr_maximum : Z;
  tr_sequence : gmap Z nat;
  tr_token : gmap string nat }.

Definition newPublishTracker (maximum : Z) : publishTracker := mkTracker ∅ 0 maximum ∅ ∅.

Definition publishRegistrationAdmission (maximum sequence : Z) (token : string) (registered : Z)
    : option error :=
  return_if maximum <? 1, Some ErrInvalidBounds ;;
  return_if (sequence =? 0) || (token =s ""), Some ErrInvalidPublishCorrelation ;;
  return_if registered >=? maximum, Some ErrOutstandingConfirmLimit ;;
  None.

Definition register (tracker : publishTracker) (sequence : Z) (token exchange route : string)
    : (error + nat) * publishTracker :=
  match publishRegistrationAdmission (tr_maximum tracker) sequence token
          (Z.of_nat (size (tr_sequence tracker))) with
  | Some err => (inl err, tracker)
  | None =>
    return_if present (tr_sequence tracker !! sequence), (inl ErrInvalidPublishCorrelation, tracker) ;;
    return_if present (tr_token tracker !! token), (inl ErrInvalidPublishCorrelation, tracker) ;;
    let attempt := tr_next tracker in
    (inr attempt,
     mkTracker (<[attempt := mkAttempt sequence token exchange route None make_chan]> (tr_heap tracker))
       (S attempt) (tr_maximum tracker) (<[sequence := attempt]> (tr_sequence tracker))
       (<[token := attempt]> (tr_token tracker)))
  end.

Definition returned (tracker : publishTracker) (token : string) (ret : Return)
    : option (bool * publishTracker) :=
  match tr_token tracker !! token with
  | None => Some (false, tracker)
  | Some p =>
    match tr_heap tracker !! p with
    | None => None
    | Some attempt =>
      let ret := mkReturn (Return_Code ret) (Return_Reason ret) (at_exchange attempt) (at_route attempt) in
      let attempt := mkAttempt (at_sequence attempt) (at_token attempt) (at_exchange attempt)
                       (at_route attempt) (Some ret) (at_outcome attempt) in
      Some (true, mkTracker (<[p := attempt]> (tr_heap tracker)) (tr_next tracker) (tr_maximum tracker)
                    (tr_sequence tracker) (tr_token tracker))
    end
  end.

(** [complete]: both indexes go before the one buffered outcome is sent. *)
Definition complete (tracker : publishTracker) (p : nat) (result : PublishResult)
    : option publishTracker :=
  match tr_heap tracker !! p with
  | None => None
  | Some attempt =>
    let sequence := delete (at_sequence attempt) (tr_sequence tracker) in
    let token := delete (at_token attempt) (tr_token tracker) in
    match chan_send (at_outcome attempt) result with
    | None => None
    | Some sent =>
      match chan_close sent with
      | None => None
      | Some outcome =>
        let attempt := mkAttempt (at_sequence attempt) (at_token attempt) (at_exchange attempt)
                         (at_route attempt) (at_returned attempt) outcome in
        Some (mkTracker (<[p := attempt]> (tr_heap tracker)) (tr_next tracker) (tr_maximum tracker)
                sequence token)
      end
    end
  end.

Definition confirm_result (attempt : publishAttempt) (acknowledged : bool) : PublishResult :=
  match at_returned attempt with
  | Some ret => mkPublishResult PublishReturned (Some ret)
  | None => mkPublishResult (if acknowledged then PublishConfirmed else PublishRejected) None
  end.

Definition confirm (tracker : publishTracker) (sequence : Z) (acknowledged : bool)
    : option (bool * publishTracker) :=
  match tr_sequence tracker !! sequence with
  | None => Some (false, tracker)
  | Some p =>
    match tr_heap tracker !! p with
    | None => None
    | Some attempt =>
      match complete tracker p (confirm_result attempt acknowledged) with
      | None => None
      | Some tracker => Some (true, tracker)
      end
    end
  end.

Definition abandonablePublishState (state : PublishState) : bool :=
  (state =s PublishNotSent) || (state =s PublishAmbiguous).

Definition abandon (tracker : publishTracker) (sequence : Z) (state : PublishState)
    : option (bool * publishTracker) :=
  return_if negb (abandonablePublishState state), Some (false, tracker) ;;
  match tr_sequence tracker !! sequence with
  | None => Some (false, tracker)
  | Some p =>
    match complete tracker p (mkPublishResult state None) with
    | None => None
    | Some tracker => Some (true, tracker)
    end
  end.

(** The [range] loop of [failAll] over the keys in some order; a key deleted
    before it is reached is not visited. *)
Fixpoint fail_each (tracker : publishTracker) (state : PublishState) (order : list Z)
    : option publishTracker :=
  match order with
  | [] => Some tracker
  | sequence :: order =>
    match tr_sequence tracker !! sequence with
    | None => fail_each tracker state order
    | Some p =>
      match complete tracker p (mkPublishResult state None) with
      | None => None
      | Some tracker => fail_each tracker state order
      end
    end
  end.

Definition failAll (tracker : publishTracker) (state : PublishState) (order : list Z)
    : option (Z * publishTracker) :=
  return_if negb (abandonablePublishState state), Some (0, tracker) ;;
  let count := Z.of_nat (size (tr_sequence tracker)) in
  match fail_each tracker state order with
  | None => None
  | Some tracker => Some (count, tracker)
  end.

(** A publishing goroutine receives from the outcome of the attempt it holds. *)
Definition receive (tracker : publishTracker) (p : nat) : option (option PublishResult * publishTracker) :=
  match tr_heap tracker !! p with
  | None => None
  | Some attempt =>
    match chan_recv (at_outcome attempt) with
    | None => None
    | Some (result, outcome) =>
      let attempt := mkAttempt (at_sequence attempt) (at_token attempt) (at_exchange attempt)
                       (at_route attempt) (at_returned attempt) outcome in
      Some (result, mkTracker (<[p := attempt]> (tr_heap tracker)) (tr_next tracker) (tr_maximum tracker)
                      (tr_sequence tracker) (tr_token tracker))
    end
  end.

(** ** Operations as labelled steps *)

Inductive op :=
| ORegister (sequence : Z) (token exchange route : string)
| OReturned (token : string) (ret : Return)
| OConfirm (sequence : Z) (acknowledged : bool)
| OAbandon (sequence : Z) (state : PublishState)
| OFailAll (state : PublishState) (order : list Z)
| OReceive (p : nat).

Inductive out :=
| RAttempt (r : error + nat)
| RBool (b : bool)
| RCount (n : Z)
| RResult (r : option PublishResult).

Definition exec (tracker : publishTracker) (o : op) : option (out * publishTracker) :=
  match o with
  | ORegister sequence token exchange route =>
    let '(r, tracker) := register tracker sequence token exchange route in Some (RAttempt r, tracker)
  | OReturned token ret => prod_map RBool id <$> returned tracker token ret
  | OConfirm sequence acknowledged => prod_map RBool id <$> confirm tracker sequence acknowledged
  | OAbandon sequence state => prod_map RBool id <$> abandon tracker sequence state
  | OFailAll state order => prod_map RCount id <$> failAll tracker state order
  | OReceive p => prod_map RResult id <$> receive tracker p
  end.

(** What the callers guarantee: the loop of [failAll] ranges over the keys, and
    a goroutine receives only from an attempt it registered. *)
Definition enabled (tracker : publishTracker) (o : op) : Prop :=
  match o with
  | OFailAll _ order => order ≡ₚ (map_to_list (tr_sequence tracker)).*1
  | OReceive p => is_Some (tr_heap tracker !! p)
  | _ => True
  end.

Definition tracker_step (tracker tracker' : publishTracker) : Prop :=
  ∃ o r, enabled tracker o ∧ exec tracker o = Some (r, tracker').

(** ** The invariant *)

Definition pending (attempt : publishAttempt) : Prop := at_outcome attempt = make_chan.

#[global] Instance pending_dec attempt : Decision (pending attempt).
Proof. unfold pending. apply _. Defined.

(** A finished attempt: the channel is closed over at most one canonical result. *)
Definition finished (attempt : publishAttempt) : Prop :=
  ∃ b, at_outcome attempt = mkChan b true ∧ (length b <= 1)%nat
  ∧ ∀ r, r ∈ b → PublishResult_Valid r = true.

Record wf (tracker : publishTracker) : Prop := {
  wf_sequence : ∀ s p, tr_sequence tracker !! s = Some p ↔
    ∃ a, tr_heap tracker !! p = Some a ∧ at_sequence a = s ∧ pending a;
  wf_token : ∀ t p, tr_token tracker !! t = Some p ↔
    ∃ a, tr_heap tracker !! p = Some a ∧ at_token a = t ∧ pending a;
  wf_fresh : ∀ p, (tr_next tracker <= p)%nat → tr_heap tracker !! p = None;
  wf_attempt : ∀ p a, tr_heap tracker !! p = Some a → pending a ∨ finished a;
  wf_bound : Z.of_nat (size (tr_sequence tracker)) <= Z.max 0 (tr_maximum tracker) }.

Lemma pending_not_finished a : pending a → ¬ finished a.
Proof. intros Hp (b & Hb & _). by rewrite Hp in Hb. Qed.

Lemma wf_new maximum : wf (newPublishTracker maximum).
Proof.
  split; simpl; try done.
  - intros s p. split; [done|]. by intros (a & Ha & _).
  - intros t p. split; [done|]. by intros (a & Ha & _).
  - rewrite map_size_empty. lia.
Qed.

(** A heap cell rewritten without touching its identity or its channel. *)
Lemma wf_update tracker p a a' :
  wf tracker → tr_heap tracker !! p = Some a → at_sequence a' = at_sequence a →
  at_token a' = at_token a → (pending a' ↔ pending a) → (pending a' ∨ finished a') →
  wf (mkTracker (<[p := a']> (tr_heap tracker)) (tr_next tracker) (tr_maximum tracker)
        (tr_sequence tracker) (tr_token tracker)).
Proof.
  intros [Hs Ht Hf Ha Hb] Hp Eseq Etok Hpend Hok. split; simpl; try done.
  - intros s q. rewrite Hs. destruct (decide (q = p)) as [->|Hne].
    + rewrite lookup_insert_eq, Hp. split; intros (b & [= <-] & <- & ?); eexists; split_and!; done || tauto.
    + by rewrite lookup_insert_ne.
  - intros t q. rewrite Ht. destruct (decide (q = p)) as [->|Hne].
    + rewrite lookup_insert_eq, Hp. split; intros (b & [= <-] & <- & ?); eexists; split_and!; done || tauto.
    + by rewrite lookup_insert_ne.
  - intros q Hq. rewrite lookup_insert_ne; [by apply Hf|]. intros ->. rewrite Hf in Hp by done. done.
  - intros q b. rewrite lookup_insert_Some. intros [[<- <-]|[_ ?]]; [done|by eapply Ha].
Qed.

Definition done_with (a : publishAttempt) (result : PublishResult) : publishAttempt :=
  mkAttempt (at_sequence a) (at_token a) (at_exchange a) (at_route a) (at_returned a) (mkChan [result] true).

Definition completed (tracker : publishTracker) (p : nat) (a : publishAttempt) (result : PublishResult)
    : publishTracker :=
  mkTracker (<[p := done_with a result]> (tr_heap tracker)) (tr_next tracker) (tr_maximum tracker)
    (delete (at_sequence a) (tr_sequence tracker)) (delete (at_token a) (tr_token tracker)).

Lemma done_not_pending a result : ¬ pending (done_with a result).
Proof. done. Qed.

(** Completing a pending attempt neither panics nor blocks. *)
Lemma complete_pending tracker p a result :
  tr_heap tracker !! p = Some a → pending a → complete tracker p result = Some (completed tracker p a result).
Proof. intros Hp Hpend. unfold complete. by rewrite Hp, Hpend. Qed.

Lemma wf_completed tracker p a result :
  wf tracker → tr_heap tracker !! p = Some a → pending a → PublishResult_Valid result = true →
  wf (completed tracker p a result).
Proof.
  intros [Hs Ht Hf Ha Hb] Hp Hpend Hv.
  pose proof (done_not_pending a result) as Hnp.
  split; simpl.
  - intros s q. rewrite lookup_delete_Some, Hs. split.
    + intros (Hne & b & Hq & <- & Hb'). exists b. rewrite lookup_insert_ne; [done|]. congruence.
    + intros (b & Hq & <- & Hb'). rewrite lookup_insert_Some in Hq. destruct Hq as [[<- <-]|[Hne Hq]]; [done|].
      split; [|by exists b]. intros Heq. apply Hne.
      enough (Some p = Some q) by congruence.
      rewrite <- (proj2 (Hs (at_sequence b) q)) by (by exists b). rewrite <- Heq.
      symmetry. apply Hs. by exists a.
  - intros t q. rewrite lookup_delete_Some, Ht. split.
    + intros (Hne & b & Hq & <- & Hb'). exists b. rewrite lookup_insert_ne; [done|]. congruence.
    + intros (b & Hq & <- & Hb'). rewrite lookup_insert_Some in Hq. destruct Hq as [[<- <-]|[Hne Hq]]; [done|].
      split; [|by exists b]. intros Heq. apply Hne.
      enough (Some p = Some q) by congruence.
      rewrite <- (proj2 (Ht (at_token b) q)) by (by exists b). rewrite <- Heq.
      symmetry. apply Ht. by exists a.
  - intros q Hq. rewrite lookup_insert_ne; [by apply Hf|]. intros ->. rewrite Hf in Hp by done. done.
  - intros q b. rewrite lookup_insert_Some. intros [[<- <-]|[_ ?]]; [|by eapply Ha].
    right. exists [result]. split_and!; [done|simpl; lia|]. intros r Hr.
    apply list_elem_of_singleton in Hr as ->. done.
  - rewrite map_size_delete. case_match; unfold id; lia.
Qed.

Lemma wf_registered tracker sequence token exchange route :
  wf tracker → tr_sequence tracker !! sequence = None → tr_token tracker !! token = None →
  Z.of_nat (size (tr_sequence tracker)) < tr_maximum tracker →
  wf (register tracker sequence token exchange route).2.
Proof.
  intros Hwf Hseq Htok Hmax. unfold register.
  destruct (publishRegistrationAdmission _ _ _ _); [done|]. rewrite Hseq, Htok. simpl.
  destruct Hwf as [Hs Ht Hf Ha Hb]. pose proof (Hf (tr_next tracker) ltac:(lia)) as Hnext.
  split; simpl.
  - intros s q. rewrite lookup_insert_Some, Hs. split.
    + intros [[<- <-]|(Hne & b & Hq & ?)]; [eexists; by rewrite lookup_insert_eq|].
      exists b. rewrite lookup_insert_ne; [done|]. congruence.
    + intros (b & Hq & <- & Hp). rewrite lookup_insert_Some in Hq.
      destruct Hq as [[<- <-]|[Hne Hq]]; [by left|]. right. split; [|by exists b].
      intros ->. by rewrite (proj2 (Hs _ q)) in Hseq by (by exists b).
  - intros t q. rewrite lookup_insert_Some, Ht. split.
    + intros [[<- <-]|(Hne & b & Hq & ?)]; [eexists; by rewrite lookup_insert_eq|].
      exists b. rewrite lookup_insert_ne; [done|]. congruence.
    + intros (b & Hq & <- & Hp). rewrite lookup_insert_Some in Hq.
      destruct Hq as [[<- <-]|[Hne Hq]]; [by left|]. right. split; [|by exists b].
      intros ->. by rewrite (proj2 (Ht _ q)) in Htok by (by exists b).
  - intros q Hq. rewrite lookup_insert_ne by lia. apply Hf. lia.
  - intros q b. rewrite lookup_insert_Some. intros [[_ <-]|[_ ?]]; [by left|by eapply Ha].
  - rewrite map_size_insert_None by done. lia.
Qed.

Lemma admission_None maximum sequence token n :
  publishRegistrationAdmission maximum sequence token n = None ↔
  1 <= maximum ∧ sequence ≠ 0 ∧ token ≠ EmptyString ∧ n < maximum.
Proof.
  unfold publishRegistrationAdmission. split.
  - intros H. repeat (case_match; [done|]). breflect. split_and!; tauto || lia.
  - intros (? & ? & ? & ?). repeat (case_match; [breflect; destruct_or?; done || lia|]). done.
Qed.

(** Every result a completion can send is canonical. *)
Lemma confirm_result_valid a acknowledged : PublishResult_Valid (confirm_result a acknowledged) = true.
Proof. unfold confirm_result. by destruct (at_returned a), acknowledged. Qed.

Lemma abandon_result_valid state :
  abandonablePublishState state = true → PublishResult_Valid (mkPublishResult state None) = true.
Proof.
  unfold abandonablePublishState. rewrite orb_true_iff, !String.eqb_eq. by intros [->| ->].
Qed.

(** The loop over the keys completes exactly the pending attempts among them. *)
Lemma fail_each_ok tracker state order :
  wf tracker → abandonablePublishState state = true →
  ∃ tracker', fail_each tracker state order = Some tracker' ∧ wf tracker'
  ∧ tr_maximum tracker' = tr_maximum tracker ∧ tr_next tracker' = tr_next tracker
  ∧ ∀ p, tr_heap tracker' !! p =
      (λ a, if bool_decide (pending a ∧ at_sequence a ∈ order)
            then done_with a (mkPublishResult state None) else a) <$> tr_heap tracker !! p.
Proof.
  intros Hwf Hst. revert tracker Hwf. induction order as [|s order IH]; intros tracker Hwf; simpl.
  { eexists. split_and!; [done..|]. intros p. destruct (tr_heap tracker !! p) as [a|]; [|done]. simpl.
    rewrite bool_decide_false; [done|]. intros [_ H]. by apply not_elem_of_nil in H. }
  destruct (tr_sequence tracker !! s) as [p|] eqn:Hs.
  - destruct (proj1 (wf_sequence _ Hwf s p) Hs) as (a & Hp & Hseq & Hpend).
    rewrite (complete_pending _ _ _ _ Hp Hpend).
    destruct (IH (completed tracker p a (mkPublishResult state None))) as (t' & -> & Hwf' & Hm & Hn & Hheap).
    { apply wf_completed; try done. by apply abandon_result_valid. }
    exists t'. split_and!; [done..|]. intros q. rewrite Hheap. simpl.
    destruct (decide (q = p)) as [->|Hne].
    + rewrite lookup_insert_eq, Hp. simpl. by rewrite bool_decide_true by (split; [done|]; subst; by left).
    + rewrite lookup_insert_ne by done. destruct (tr_heap tracker !! q) as [b|] eqn:Hq; [|done]. simpl.
      f_equal. erewrite bool_decide_ext; [done|]. rewrite elem_of_cons.
      split; [tauto|]. intros [Hb [Heq|?]]; [|done]. exfalso. apply Hne.
      enough (tr_sequence tracker !! s = Some q) by congruence.
      apply (wf_sequence _ Hwf). by exists b.
  - destruct (IH tracker Hwf) as (t' & -> & Hwf' & Hm & Hn & Hheap). exists t'. split_and!; [done..|].
    intros q. rewrite Hheap. destruct (tr_heap tracker !! q) as [b|] eqn:Hq; [|done]. simpl.
    f_equal. erewrite bool_decide_ext; [done|]. rewrite elem_of_cons.
    split; [tauto|]. intros [Hb [Heq|?]]; [|done]. exfalso.
    assert (tr_sequence tracker !! s = Some q) by (apply (wf_sequence _ Hwf); by exists b). congruence.
Qed.

(** ** Every operation succeeds and keeps the invariant *)

(** The only operation that can block: receiving before the outcome is sent. *)
Definition blocks (tracker : publishTracker) (o : op) : Prop :=
  ∃ p a, o = OReceive p ∧ tr_heap tracker !! p = Some a ∧ pending a.

Lemma register_wf tracker s t ex rt : wf tracker → wf (register tracker s t ex rt).2.
Proof.
  intros Hwf. destruct (register tracker s t ex rt) as [r t'] eqn:E. simpl.
  destruct (publishRegistrationAdmission (tr_maximum tracker) s t (Z.of_nat (size (tr_sequence tracker)))) eqn:Ea.
  { unfold register in E. rewrite Ea in E. by injection E as <- <-. }
  destruct (tr_sequence tracker !! s) eqn:Es.
  { unfold register in E. rewrite Ea, Es in E. by injection E as <- <-. }
  destruct (tr_token tracker !! t) eqn:Et.
  { unfold register in E. rewrite Ea, Es, Et in E. by injection E as <- <-. }
  apply admission_None in Ea as (_ & _ & _ & ?).
  replace t' with (register tracker s t ex rt).2 by (by rewrite E). by apply wf_registered.
Qed.

Definition with_return (a : publishAttempt) (ret : Return) : publishAttempt :=
  mkAttempt (at_sequence a) (at_token a) (at_exchange a) (at_route a)
    (Some (mkReturn (Return_Code ret) (Return_Reason ret) (at_exchange a) (at_route a))) (at_outcome a).

Definition set_cell (tracker : publishTracker) (p : nat) (a : publishAttempt) : publishTracker :=
  mkTracker (<[p := a]> (tr_heap tracker)) (tr_next tracker) (tr_maximum tracker)
    (tr_sequence tracker) (tr_token tracker).

Definition with_outcome (a : publishAttempt) (c : outcome_chan) : publishAttempt :=
  mkAttempt (at_sequence a) (at_token a) (at_exchange a) (at_route a) (at_returned a) c.

(** The outcome of each operation on a well-formed tracker, as one equation per
    operation that can fail. *)
Lemma returned_eq tracker token ret :
  wf tracker →
  returned tracker token ret =
  match tr_token tracker !! token with
  | None => Some (false, tracker)
  | Some p => (λ a, (true, set_cell tracker p (with_return a ret))) <$> tr_heap tracker !! p
  end.
Proof. intros _. unfold returned. destruct (tr_token tracker !! token); [|done]. by destruct (_ !! _). Qed.

Lemma confirm_eq tracker s p a acknowledged :
  wf tracker → tr_sequence tracker !! s = Some p → tr_heap tracker !! p = Some a →
  confirm tracker s acknowledged
  = Some (true, completed tracker p a (confirm_result a acknowledged)).
Proof.
  intros Hwf Hs Hp. unfold confirm. rewrite Hs, Hp.
  destruct (proj1 (wf_sequence _ Hwf s p) Hs) as (a' & Hp' & _ & Hpend).
  rewrite Hp in Hp'. injection Hp' as <-. by rewrite (complete_pending _ _ _ _ Hp Hpend).
Qed.

Lemma abandon_eq tracker s p a state :
  wf tracker → abandonablePublishState state = true →
  tr_sequence tracker !! s = Some p → tr_heap tracker !! p = Some a →
  abandon tracker s state = Some (true, completed tracker p a (mkPublishResult state None)).
Proof.
  intros Hwf Hst Hs Hp. unfold abandon. rewrite Hst, Hs. simpl.
  destruct (proj1 (wf_sequence _ Hwf s p) Hs) as (a' & Hp' & _ & Hpend).
  rewrite Hp in Hp'. injection Hp' as <-. by rewrite (complete_pending _ _ _ _ Hp Hpend).
Qed.

Lemma receive_eq tracker p a :
  wf tracker → tr_heap tracker !! p = Some a → ¬ pending a →
  ∃ b, at_outcome a = mkChan b true ∧
  receive tracker p = Some (head b, set_cell tracker p (with_outcome a (mkChan [] true))).
Proof.
  intros Hwf Hp Hn. destruct (wf_attempt _ Hwf p a Hp) as [?|(b & Hb & Hl & _)]; [done|].
  exists b. split; [done|]. unfold receive. rewrite Hp, Hb. destruct b as [|r [|? ?]]; [done..|]. simpl in Hl. lia.
Qed.

Lemma exec_ok tracker o :
  wf tracker → enabled tracker o → ¬ blocks tracker o →
  ∃ r tracker', exec tracker o = Some (r, tracker') ∧ wf tracker'.
Proof.
  intros Hwf He Hnb. destruct o as [s t ex rt|t ret|s ack|s st|st order|p]; simpl.
  - pose proof (register_wf tracker s t ex rt Hwf). destruct (register _ _ _ _ _) as [r t']. eauto.
  - rewrite returned_eq by done. destruct (tr_token tracker !! t) as [p|] eqn:Ht; [|by eauto].
    destruct (proj1 (wf_token _ Hwf t p) Ht) as (a & Hp & _ & Hpend). rewrite Hp. simpl.
    do 2 eexists. split; [done|]. by eapply wf_update; eauto.
  - destruct (tr_sequence tracker !! s) as [p|] eqn:Hs; [|unfold confirm; rewrite Hs; by eauto].
    destruct (proj1 (wf_sequence _ Hwf s p) Hs) as (a & Hp & _ & Hpend).
    rewrite (confirm_eq _ _ _ _ _ Hwf Hs Hp). simpl. do 2 eexists. split; [done|].
    apply wf_completed; try done. apply confirm_result_valid.
  - destruct (abandonablePublishState st) eqn:Est; [|unfold abandon; rewrite Est; by eauto].
    destruct (tr_sequence tracker !! s) as [p|] eqn:Hs; [|unfold abandon; rewrite Est, Hs; by eauto].
    destruct (proj1 (wf_sequence _ Hwf s p) Hs) as (a & Hp & _ & Hpend).
    rewrite (abandon_eq _ _ _ _ _ Hwf Est Hs Hp). simpl. do 2 eexists. split; [done|].
    apply wf_completed; try done. by apply abandon_result_valid.
  - unfold failAll. destruct (abandonablePublishState st) eqn:Est; [|by eauto]. simpl.
    destruct (fail_each_ok tracker st order Hwf Est) as (t' & -> & Hwf' & _). eauto.
  - destruct He as [a Hp]. destruct (receive_eq tracker p a Hwf Hp) as (b & Hb & ->).
    { intros Hpend. apply Hnb. by exists p, a. }
    do 2 eexists. split; [done|]. eapply wf_update; try done.
    + by unfold pending; rewrite Hb.
    + right. exists []. split_and!; [done|simpl; lia|]. intros r Hr. by apply not_elem_of_nil in Hr.
Qed.

Lemma step_wf tracker tracker' : tracker_step tracker tracker' → wf tracker → wf tracker'.
Proof.
  intros (o & r & He & Hx) Hwf.
  destruct (exec_ok tracker o Hwf He) as (r' & t' & Hx' & ?); [|congruence].
  intros (p & a & -> & Hp & Hpend). simpl in Hx. unfold receive in Hx. rewrite Hp, Hpend in Hx. done.
Qed.

Lemma reachable_wf maximum tracker : rtc tracker_step (newPublishTracker maximum) tracker → wf tracker.
Proof. intros H. eapply (rtc_invariant tracker_step wf); [apply step_wf|done|apply wf_new]. Qed.

(** C16: in every state the tracker can reach its two indexes agree with the
    attempts still pending, it never tracks more than the configured maximum, and
    every operation the callers can issue completes without panicking on a closed
    channel or blocking under the mutex; the one operation that can wait is a
    receive from an attempt whose outcome is still pending. *)
Theorem tracker_safe maximum tracker o :
  rtc tracker_step (newPublishTracker maximum) tracker → enabled tracker o → ¬ blocks tracker o →
  wf tracker ∧ ∃ r tracker', exec tracker o = Some (r, tracker') ∧ wf tracker'.
Proof. intros H%reachable_wf He Hb. split; [done|]. by apply exec_ok. Qed.

(** ** The abstract tracker *)

(** One table of attempts, each pending (with the return recorded so far), done
    with a result nobody has received, or done and received. *)
Inductive status :=
| Pending (ret : option Return)
| Done (result : PublishResult)
| Received.

Record attempt := mkA {
  aa_sequence : Z; aa_token : string; aa_exchange : string; aa_route : string; aa_status : status }.

Definition is_pending (a : attempt) : Prop :=
  match aa_status a with Pending _ => True | _ => False end.

#[global] Instance is_pending_dec a : Decision (is_pending a).
Proof. unfold is_pending. destruct (aa_status a); apply _. Defined.

Definition set_status (a : attempt) (s : status) : attempt :=
  mkA (aa_sequence a) (aa_token a) (aa_exchange a) (aa_route a) s.

Abbreviation table := (gmap nat attempt).

Definition pending_count (m : table) : Z :=
  Z.of_nat (size (filter (λ x : nat * attempt, is_pending x.2) m)).

Definition no_pending (m : table) (P : attempt → Prop) : Prop :=
  ∀ p a, m !! p = Some a → is_pending a → ¬ P a.

(** The result a confirmation gives an attempt: a return recorded before it
    prevails over the acknowledgement. *)
Definition classify (ret : option Return) (acknowledged : bool) : PublishResult :=
  match ret with
  | Some ret => mkPublishResult PublishReturned (Some ret)
  | None => mkPublishResult (if acknowledged then PublishConfirmed else PublishRejected) None
  end.

Inductive spec_step (maximum : Z) (m : table) : op → out → table → Prop :=
| spec_register s t ex rt p :
    publishRegistrationAdmission maximum s t (pending_count m) = None →
    no_pending m (λ a, aa_sequence a = s ∨ aa_token a = t) → m !! p = None →
    spec_step maximum m (ORegister s t ex rt) (RAttempt (inr p)) (<[p := mkA s t ex rt (Pending None)]> m)
| spec_refuse s t ex rt e :
    publishRegistrationAdmission maximum s t (pending_count m) = Some e →
    spec_step maximum m (ORegister s t ex rt) (RAttempt (inl e)) m
| spec_duplicate s t ex rt p a :
    publishRegistrationAdmission maximum s t (pending_count m) = None →
    m !! p = Some a → is_pending a → aa_sequence a = s ∨ aa_token a = t →
    spec_step maximum m (ORegister s t ex rt) (RAttempt (inl ErrInvalidPublishCorrelation)) m
| spec_returned t ret p a ret0 :
    m !! p = Some a → aa_status a = Pending ret0 → aa_token a = t →
    spec_step maximum m (OReturned t ret) (RBool true)
      (<[p := set_status a (Pending (Some (mkReturn (Return_Code ret) (Return_Reason ret)
                                             (aa_exchange a) (aa_route a))))]> m)
| spec_returned_late t ret :
    no_pending m (λ a, aa_token a = t) → spec_step maximum m (OReturned t ret) (RBool false) m
| spec_confirm s ack p a ret :
    m !! p = Some a → aa_status a = Pending ret → aa_sequence a = s →
    spec_step maximum m (OConfirm s ack) (RBool true) (<[p := set_status a (Done (classify ret ack))]> m)
| spec_confirm_late s ack :
    no_pending m (λ a, aa_sequence a = s) → spec_step maximum m (OConfirm s ack) (RBool false) m
| spec_abandon s st p a ret :
    abandonablePublishState st = true → m !! p = Some a → aa_status a = Pending ret → aa_sequence a = s →
    spec_step maximum m (OAbandon s st) (RBool true)
      (<[p := set_status a (Done (mkPublishResult st None))]> m)
| spec_abandon_late s st :
    abandonablePublishState st = false ∨ no_pending m (λ a, aa_sequence a = s) →
    spec_step maximum m (OAbandon s st) (RBool false) m
| spec_failAll st order :
    abandonablePublishState st = true →
    spec_step maximum m (OFailAll st order) (RCount (pending_count m))
      ((λ a, if decide (is_pending a) then set_status a (Done (mkPublishResult st None)) else a) <$> m)
| spec_failAll_refused st order :
    abandonablePublishState st = false → spec_step maximum m (OFailAll st order) (RCount 0) m
| spec_receive p a result :
    m !! p = Some a → aa_status a = Done result →
    spec_step maximum m (OReceive p) (RResult (Some result)) (<[p := set_status a Received]> m)
| spec_receive_again p a :
    m !! p = Some a → aa_status a = Received → spec_step maximum m (OReceive p) (RResult None) m.

(** ** Refinement *)

Definition abs_attempt (a : publishAttempt) : attempt :=
  mkA (at_sequence a) (at_token a) (at_exchange a) (at_route a)
    (if ch_closed (at_outcome a)
     then match ch_buffer (at_outcome a) with [] => Received | r :: _ => Done r end
     else Pending (at_returned a)).

Definition abs (tracker : publishTracker) : table := abs_attempt <$> tr_heap tracker.

Section Refinement.
Context (tracker : publishTracker) (Hwf : wf tracker).

Lemma abs_lookup p a : tr_heap tracker !! p = Some a → abs tracker !! p = Some (abs_attempt a).
Proof using. intros H. unfold abs. by rewrite lookup_fmap, H. Qed.

Lemma abs_Some p a : abs tracker !! p = Some a → ∃ c, tr_heap tracker !! p = Some c ∧ a = abs_attempt c.
Proof using. unfold abs. rewrite lookup_fmap_Some. intros (c & <- & ?). eauto. Qed.

Lemma abs_pending p c : tr_heap tracker !! p = Some c → is_pending (abs_attempt c) ↔ pending c.
Proof using Hwf.
  intros Hp. unfold is_pending, abs_attempt. simpl. destruct (wf_attempt _ Hwf p c Hp) as [Hc|(b & Hc & _ & _)].
  - split; [done|]. by rewrite Hc.
  - unfold pending. rewrite Hc. simpl. split; [by destruct b|done].
Qed.

Lemma abs_status_pending c : pending c → aa_status (abs_attempt c) = Pending (at_returned c).
Proof using. intros Hc. unfold abs_attempt. by rewrite Hc. Qed.

(** The sequence index has one entry per pending attempt. *)
Lemma abs_count : pending_count (abs tracker) = Z.of_nat (size (tr_sequence tracker)).
Proof using Hwf.
  unfold pending_count. f_equal. rewrite <- !length_map_to_list.
  rewrite <- (length_map fst (map_to_list (filter _ _))), <- (length_map snd (map_to_list (tr_sequence tracker))).
  apply Permutation_length, NoDup_Permutation.
  - apply NoDup_fst_map_to_list.
  - apply NoDup_fmap_2_strong; [|apply NoDup_map_to_list].
    intros [s p] [s' p'] H H' Heq. simpl in Heq. subst.
    apply elem_of_map_to_list, (wf_sequence _ Hwf) in H as (a & Ha & <- & _).
    apply elem_of_map_to_list, (wf_sequence _ Hwf) in H' as (a' & Ha' & <- & _). congruence.
  - intros p. rewrite !list_elem_of_In, !in_map_iff. split.
    + intros ([q a] & <- & Hin). apply list_elem_of_In, elem_of_map_to_list in Hin.
      apply map_lookup_filter_Some in Hin as [Hq Hpend]. apply abs_Some in Hq as (c & Hc & ->).
      simpl in *. apply (abs_pending q c Hc) in Hpend.
      exists (at_sequence c, q). split; [done|]. apply list_elem_of_In, elem_of_map_to_list.
      apply (wf_sequence _ Hwf). by exists c.
    + intros ([s q] & <- & Hin). apply list_elem_of_In, elem_of_map_to_list in Hin.
      apply (wf_sequence _ Hwf) in Hin as (c & Hc & _ & Hpend).
      exists (q, abs_attempt c). split; [done|]. apply list_elem_of_In, elem_of_map_to_list.
      apply map_lookup_filter_Some. split; [by apply abs_lookup|]. simpl. by apply (abs_pending q c Hc).
Qed.

Lemma abs_no_sequence s : tr_sequence tracker !! s = None → no_pending (abs tracker) (λ a, aa_sequence a = s).
Proof using Hwf.
  intros Hs p a (c & Hc & ->)%abs_Some Hp <-. apply (abs_pending p c Hc) in Hp.
  assert (tr_sequence tracker !! at_sequence c = Some p) by (apply (wf_sequence _ Hwf); by exists c).
  simpl in Hs. congruence.
Qed.

Lemma abs_no_token t : tr_token tracker !! t = None → no_pending (abs tracker) (λ a, aa_token a = t).
Proof using Hwf.
  intros Hs p a (c & Hc & ->)%abs_Some Hp <-. apply (abs_pending p c Hc) in Hp.
  assert (tr_token tracker !! at_token c = Some p) by (apply (wf_token _ Hwf); by exists c).
  simpl in Hs. congruence.
Qed.
End Refinement.

Lemma abs_set_cell tracker p a : abs (set_cell tracker p a) = <[p := abs_attempt a]> (abs tracker).
Proof. unfold abs. simpl. apply fmap_insert. Qed.

Lemma abs_completed tracker p a result :
  abs (completed tracker p a result) = <[p := set_status (abs_attempt a) (Done result)]> (abs tracker).
Proof. unfold abs. simpl. by rewrite fmap_insert. Qed.

Lemma refine_register tracker s t ex rt :
  wf tracker →
  spec_step (tr_maximum tracker) (abs tracker) (ORegister s t ex rt)
    (RAttempt (register tracker s t ex rt).1) (abs (register tracker s t ex rt).2).
Proof.
  intros Hwf. unfold register. rewrite <- abs_count by done.
  destruct (publishRegistrationAdmission _ _ _ _) as [e|] eqn:Ea; [by constructor|].
  destruct (tr_sequence tracker !! s) as [p|] eqn:Es.
  { apply (wf_sequence _ Hwf) in Es as (a & Hp & Hs & Hpend).
    eapply spec_duplicate; [done|by apply abs_lookup|by apply (abs_pending _ Hwf p)|by left]. }
  destruct (tr_token tracker !! t) as [p|] eqn:Et.
  { apply (wf_token _ Hwf) in Et as (a & Hp & Hs & Hpend).
    eapply spec_duplicate; [done|by apply abs_lookup|by apply (abs_pending _ Hwf p)|by right]. }
  simpl. unfold abs. simpl. rewrite fmap_insert. apply spec_register; [done| |].
  - intros p a Hp Hpend [H|H].
    + by apply (abs_no_sequence _ Hwf s Es p a).
    + by apply (abs_no_token _ Hwf t Et p a).
  - by rewrite lookup_fmap, (wf_fresh _ Hwf).
Qed.

Lemma refine_failAll tracker st order :
  wf tracker → order ≡ₚ (map_to_list (tr_sequence tracker)).*1 →
  ∃ n tracker', failAll tracker st order = Some (n, tracker') ∧
  spec_step (tr_maximum tracker) (abs tracker) (OFailAll st order) (RCount n) (abs tracker').
Proof.
  intros Hwf Hord. unfold failAll. destruct (abandonablePublishState st) eqn:Est; simpl; cycle 1.
  { do 2 eexists. split; [done|]. by constructor. }
  destruct (fail_each_ok tracker st order Hwf Est) as (t' & -> & _ & _ & _ & Hheap).
  do 2 eexists. split; [done|]. rewrite <- abs_count by done.
  replace (abs t') with ((λ a, if decide (is_pending a)
    then set_status a (Done (mkPublishResult st None)) else a) <$> abs tracker); [by constructor|].
  apply map_eq. intros p. unfold abs. rewrite !lookup_fmap, Hheap.
  destruct (tr_heap tracker !! p) as [c|] eqn:Hc; [|done]. simpl. f_equal.
  pose proof (abs_pending _ Hwf p c Hc) as Hiff. destruct (decide _) as [Hp|Hn].
  - apply Hiff in Hp. rewrite bool_decide_true; [done|]. split; [done|].
    rewrite Hord, list_elem_of_In, in_map_iff. exists (at_sequence c, p). split; [done|].
    apply list_elem_of_In, elem_of_map_to_list, (wf_sequence _ Hwf). by exists c.
  - rewrite bool_decide_false; [done|]. tauto.
Qed.

Lemma exec_refines tracker o r tracker' :
  wf tracker → enabled tracker o → exec tracker o = Some (r, tracker') →
  spec_step (tr_maximum tracker) (abs tracker) o r (abs tracker').
Proof.
  intros Hwf He Hx. destruct o as [s t ex rt|t ret|s ack|s st|st order|p]; simpl in Hx.
  - pose proof (refine_register tracker s t ex rt Hwf). destruct (register _ _ _ _ _) as [r0 t0].
    by injection Hx as <- <-.
  - rewrite returned_eq in Hx by done. destruct (tr_token tracker !! t) as [p|] eqn:Ht.
    + apply (wf_token _ Hwf) in Ht as (a & Hp & Ht & Hpend). rewrite Hp in Hx. injection Hx as <- <-.
      rewrite abs_set_cell. replace (abs_attempt (with_return a ret)) with (set_status (abs_attempt a)
        (Pending (Some (mkReturn (Return_Code ret) (Return_Reason ret) (aa_exchange (abs_attempt a))
           (aa_route (abs_attempt a)))))) by (unfold abs_attempt; simpl; by rewrite Hpend).
      eapply spec_returned; [by apply abs_lookup|by apply abs_status_pending|done].
    + injection Hx as <- <-. constructor. by apply abs_no_token.
  - destruct (tr_sequence tracker !! s) as [p|] eqn:Hs.
    + destruct (proj1 (wf_sequence _ Hwf s p) Hs) as (a & Hp & Hseq & Hpend).
      rewrite (confirm_eq _ _ _ _ _ Hwf Hs Hp) in Hx. injection Hx as <- <-. rewrite abs_completed.
      replace (confirm_result a ack) with (classify (at_returned a) ack) by done.
      eapply spec_confirm; [by apply abs_lookup|by apply abs_status_pending|done].
    + unfold confirm in Hx. rewrite Hs in Hx. injection Hx as <- <-. constructor. by apply abs_no_sequence.
  - destruct (abandonablePublishState st) eqn:Est; cycle 1.
    { unfold abandon in Hx. rewrite Est in Hx. injection Hx as <- <-. constructor. by left. }
    destruct (tr_sequence tracker !! s) as [p|] eqn:Hs.
    + destruct (proj1 (wf_sequence _ Hwf s p) Hs) as (a & Hp & Hseq & Hpend).
      rewrite (abandon_eq _ _ _ _ _ Hwf Est Hs Hp) in Hx. injection Hx as <- <-. rewrite abs_completed.
      eapply spec_abandon; [done|by apply abs_lookup|by apply abs_status_pending|done].
    + unfold abandon in Hx. rewrite Est, Hs in Hx. injection Hx as <- <-. constructor. right.
      by apply abs_no_sequence.
  - destruct (refine_failAll tracker st order Hwf He) as (n & t' & Hf & ?).
    rewrite Hf in Hx. by injection Hx as <- <-.
  - destruct He as [a Hp]. destruct (decide (pending a)) as [Hpend|Hn].
    { unfold receive in Hx. rewrite Hp, Hpend in Hx. done. }
    destruct (receive_eq tracker p a Hwf Hp Hn) as (b & Hb & Heq). rewrite Heq in Hx. injection Hx as <- <-.
    rewrite abs_set_cell. replace (abs_attempt (with_outcome a (mkChan [] true)))
      with (set_status (abs_attempt a) Received) by done.
    destruct b as [|result b]; simpl.
    + rewrite insert_id by (rewrite abs_lookup with (a := a) by done; unfold abs_attempt; by rewrite Hb).
      eapply spec_receive_again; [by apply abs_lookup|]. simpl. by rewrite Hb.
    + eapply spec_receive; [by apply abs_lookup|]. simpl. by rewrite Hb.
Qed.

(** ** Runs *)

(** A run of the tracker and a run of the specification, with their observable
    trace of operations and results. *)
Inductive runs : publishTracker → list (op * out) → publishTracker → Prop :=
| runs_nil t : runs t [] t
| runs_cons t o r t1 tr t2 :
    enabled t o → exec t o = Some (r, t1) → runs t1 tr t2 → runs t ((o, r) :: tr) t2.

Inductive spec_runs (maximum : Z) : table → list (op * out) → table → Prop :=
| spec_runs_nil m : spec_runs maximum m [] m
| spec_runs_cons m o r m1 tr m2 :
    spec_step maximum m o r m1 → spec_runs maximum m1 tr m2 → spec_runs maximum m ((o, r) :: tr) m2.

Lemma exec_wf t o r t' : enabled t o → exec t o = Some (r, t') → wf t → wf t'.
Proof. intros He Hx. apply step_wf. by exists o, r. Qed.

Lemma exec_maximum t o r t' : wf t → exec t o = Some (r, t') → tr_maximum t' = tr_maximum t.
Proof.
  intros Hwf Hx. destruct o as [s tok ex rt|tok ret|s ack|s st|st order|p]; simpl in Hx.
  5:{ unfold failAll in Hx. destruct (abandonablePublishState st) eqn:Est; simpl in Hx; [|by simplify_eq].
      destruct (fail_each_ok t st order Hwf Est) as (t1 & Heq & _ & Hm & _). rewrite Heq in Hx.
      simpl in Hx. by simplify_eq. }
  all: unfold register, returned, confirm, abandon, receive, complete in Hx;
    repeat case_match; simplify_eq/=; done.
Qed.

Lemma runs_refine t tr t' : wf t → runs t tr t' → spec_runs (tr_maximum t) (abs t) tr (abs t').
Proof.
  intros Hwf Hr. induction Hr as [|t o r t1 tr t2 He Hx _ IH]; [constructor|].
  econstructor; [by apply exec_refines|]. rewrite <- (exec_maximum _ _ _ _ Hwf Hx).
  apply IH. by eapply exec_wf.
Qed.

(** C1: the tracker with its two indexes and shared attempts behaves like a
    single table of attempts: whatever callers and broker callbacks interleave,
    every result it returns and every outcome it delivers is one the table
    allows. *)
Theorem tracker_refines maximum tr t :
  runs (newPublishTracker maximum) tr t → spec_runs maximum ∅ tr (abs t).
Proof.
  intros Hr. apply runs_refine in Hr; [|apply wf_new]. unfold abs in Hr at 1. simpl in Hr.
  by rewrite fmap_empty in Hr.
Qed.

(** The deliveries of an outcome to the goroutine that holds attempt [p]. *)
Definition delivered (p : nat) (x : op * out) : Z :=
  match x with
  | (OReceive q, RResult (Some _)) => if decide (q = p) then 1 else 0
  | _ => 0
  end.

Lemma delivered_nonneg p x : 0 <= delivered p x.
Proof. unfold delivered. repeat case_match; lia. Qed.

Definition left_to_deliver (p : nat) (m : table) : Z :=
  match aa_status <$> m !! p with Some Received => 0 | _ => 1 end.

(** One step either delivers the outcome of [p] for good or leaves it to be
    delivered. *)
Lemma spec_step_delivers maximum m o r m' p :
  spec_step maximum m o r m' → delivered p (o, r) + left_to_deliver p m' <= left_to_deliver p m.
Proof.
  intros Hs. unfold left_to_deliver. inversion Hs; subst; simpl; try lia.
  all: try (match goal with |- context [<[?q := _]> ?m !! ?p] =>
    destruct (decide (q = p)) as [->|]; [rewrite ?lookup_insert_eq | rewrite ?lookup_insert_ne by done] end).
  all: try (match goal with H : ?m !! ?p = Some ?a |- context [?m !! ?p] => rewrite H; simpl;
    match goal with H' : aa_status a = _ |- _ => rewrite H' end end); simpl; try lia.
  - by rewrite H1.
  - rewrite lookup_fmap. destruct (m !! p) as [a|]; simpl; [|lia].
    destruct (decide (is_pending a)) as [Hp|]; simpl; [|lia].
    unfold is_pending in Hp. by destruct (aa_status a).
Qed.

Lemma spec_runs_delivers maximum m tr m' p :
  spec_runs maximum m tr m' → sumZ (delivered p) tr + left_to_deliver p m' <= left_to_deliver p m.
Proof.
  induction 1 as [|m o r m1 tr m2 Hs _ IH]; cbn [sumZ]; [lia|].
  apply (spec_step_delivers _ _ _ _ _ p) in Hs. lia.
Qed.

(** A result that is received was sent by a completion, and is canonical. *)
Lemma exec_received_valid t p r t' :
  wf t → exec t (OReceive p) = Some (RResult (Some r), t') → PublishResult_Valid r = true.
Proof.
  intros Hwf Hx. simpl in Hx. destruct (tr_heap t !! p) as [a|] eqn:Hp; cycle 1.
  { unfold receive in Hx. by rewrite Hp in Hx. }
  destruct (wf_attempt _ Hwf p a Hp) as [Hpend|(b & Hb & Hl & Hv)]; unfold receive in Hx; rewrite Hp in Hx.
  - by rewrite Hpend in Hx.
  - rewrite Hb in Hx. destruct b as [|r0 b]; simpl in Hx; simplify_eq. apply Hv. left.
Qed.

Lemma runs_received_valid t tr t' p r :
  wf t → runs t tr t' → (OReceive p, RResult (Some r)) ∈ tr → PublishResult_Valid r = true.
Proof.
  intros Hwf Hr. induction Hr as [|t o r0 t1 tr t2 He Hx _ IH]; [by intros ?%not_elem_of_nil|].
  rewrite elem_of_cons. intros [[= <- <-]|Hin]; [by eapply exec_received_valid|].
  apply IH; [by eapply exec_wf|done].
Qed.

(** C22: a publish attempt gets at most one outcome, a canonical one, however
    returns, confirmations, abandonments and generation failures race for it. *)
Theorem outcome_at_most_once maximum tr t p :
  runs (newPublishTracker maximum) tr t →
  sumZ (delivered p) tr <= 1 ∧
  ∀ r, (OReceive p, RResult (Some r)) ∈ tr → PublishResult_Valid r = true.
Proof.
  intros Hr. split; [|intros r; by eapply runs_received_valid, Hr; apply wf_new].
  pose proof (runs_refine _ _ _ (wf_new maximum) Hr) as Hs.
  apply (spec_runs_delivers _ _ _ _ p) in Hs.
  assert (left_to_deliver p (abs (newPublishTracker maximum)) = 1) as Hone by done.
  assert (0 <= left_to_deliver p (abs t)) by (unfold left_to_deliver; repeat case_match; lia). lia.
Qed.

(** When a generation ends, nothing is left waiting: after [failAll] with an
    admissible state every attempt ever registered has its outcome, both indexes
    are empty, the reported count is the number of attempts that were pending,
    and the attempts that were already finished keep the outcome they had. *)
Theorem failAll_completes maximum t state order :
  rtc tracker_step (newPublishTracker maximum) t → abandonablePublishState state = true →
  order ≡ₚ (map_to_list (tr_sequence t)).*1 →
  ∃ t', failAll t state order = Some (Z.of_nat (size (tr_sequence t)), t')
  ∧ tr_sequence t' = ∅ ∧ tr_token t' = ∅
  ∧ ∀ p a, tr_heap t !! p = Some a → ∃ a', tr_heap t' !! p = Some a' ∧
      at_outcome a' = if decide (pending a) then mkChan [mkPublishResult state None] true
                      else at_outcome a.
Proof.
  intros Hwf%reachable_wf Hst Hord. unfold failAll. rewrite Hst. simpl.
  destruct (fail_each_ok t state order Hwf Hst) as (t' & -> & Hwf' & _ & _ & Hheap).
  assert (∀ p a, tr_heap t !! p = Some a → tr_heap t' !! p =
    Some (if decide (pending a) then done_with a (mkPublishResult state None) else a)) as Hall.
  { intros p a Hp. rewrite Hheap, Hp. simpl. f_equal. destruct (decide (pending a)) as [Ha|Ha].
    - rewrite bool_decide_true; [done|]. split; [done|].
      rewrite Hord, list_elem_of_In, in_map_iff. exists (at_sequence a, p). split; [done|].
      apply list_elem_of_In, elem_of_map_to_list, (wf_sequence _ Hwf). by exists a.
    - rewrite bool_decide_false; [done|]. tauto. }
  assert (∀ p a, tr_heap t' !! p = Some a → ¬ pending a) as Hnone.
  { intros p a' Hp'. destruct (tr_heap t !! p) as [a|] eqn:Hp; [|by rewrite Hheap, Hp in Hp'].
    rewrite (Hall p a Hp) in Hp'. injection Hp' as <-. by destruct (decide (pending a)). }
  exists t'. split_and!; [done| | |].
  - apply map_empty. intros s. apply eq_None_not_Some. intros [p Hp].
    apply (wf_sequence _ Hwf') in Hp as (a & Hp & _ & Ha). by apply Hnone in Hp.
  - apply map_empty. intros s. apply eq_None_not_Some. intros [p Hp].
    apply (wf_token _ Hwf') in Hp as (a & Hp & _ & Ha). by apply Hnone in Hp.
  - intros p a Hp. rewrite (Hall p a Hp). eexists. split; [done|]. by destruct (decide (pending a)).
Qed.

Lemma receive_completed t p a result :
  receive (completed t p a result) p
  = Some (Some result, set_cell (completed t p a result) p (with_outcome (done_with a result) (mkChan [] true))).
Proof. unfold receive. simpl. by rewrite lookup_insert_eq. Qed.

(** A confirmation settles exactly the attempt it names: the goroutine
    receives [returned] if a return was correlated before, else [confirmed] or
    [rejected] by the broker's flag, and every later confirmation or return for
    the same sequence or token is ignored. *)
Theorem confirm_classifies maximum t s p a acknowledged :
  rtc tracker_step (newPublishTracker maximum) t → tr_sequence t !! s = Some p →
  tr_heap t !! p = Some a →
  ∃ t', confirm t s acknowledged = Some (true, t')
  ∧ fst <$> receive t' p = Some (Some (classify (at_returned a) acknowledged))
  ∧ (∀ again, confirm t' s again = Some (false, t'))
  ∧ ∀ ret, returned t' (at_token a) ret = Some (false, t').
Proof.
  intros Hwf%reachable_wf Hs Hp.
  destruct (proj1 (wf_sequence _ Hwf s p) Hs) as (a' & Hp' & Hseq & Hpend).
  rewrite Hp in Hp'. injection Hp' as <-.
  exists (completed t p a (confirm_result a acknowledged)). split_and!.
  - by apply confirm_eq.
  - by rewrite receive_completed.
  - intros again. unfold confirm, completed. simpl. by rewrite Hseq, lookup_delete_eq.
  - intros ret. unfold returned, completed. simpl. by rewrite lookup_delete_eq.
Qed.

(** A mandatory return always reaches the caller: registered, returned and
    then confirmed either way, an attempt ends as [returned] with the broker's
    code and reason and the exchange and routing key of its own registration,
    never those of the broker's frame. *)
Theorem return_prevails maximum t s token exchange route p t1 ret acknowledged :
  rtc tracker_step (newPublishTracker maximum) t →
  register t s token exchange route = (inr p, t1) →
  ∃ t2 t3, returned t1 token ret = Some (true, t2) ∧ confirm t2 s acknowledged = Some (true, t3)
  ∧ fst <$> receive t3 p = Some (Some (mkPublishResult PublishReturned
      (Some (mkReturn (Return_Code ret) (Return_Reason ret) exchange route)))).
Proof.
  intros Hwf%reachable_wf Hreg.
  assert (wf t1) as Hwf1 by (change t1 with (inr (A := error) p, t1).2; rewrite <- Hreg; by apply register_wf).
  unfold register in Hreg.
  destruct (publishRegistrationAdmission _ _ _ _); [done|]. do 2 (case_match; [done|]). simplify_eq.
  set (a := mkAttempt s token exchange route None make_chan) in *.
  set (t1 := mkTracker _ _ _ _ _) in *. set (p := tr_next t) in *.
  assert (tr_heap t1 !! p = Some a) as Hp by apply lookup_insert_eq.
  set (t2 := set_cell t1 p (with_return a ret)).
  assert (returned t1 token ret = Some (true, t2)) as Hret.
  { unfold returned, t1. simpl. by rewrite lookup_insert_eq, lookup_insert_eq. }
  assert (wf t2) as Hwf2 by (apply (wf_update t1 p a); done || by left).
  exists t2, (completed t2 p (with_return a ret) (confirm_result (with_return a ret) acknowledged)).
  split_and!; [done| |by rewrite receive_completed].
  apply confirm_eq; [done|apply lookup_insert_eq|apply lookup_insert_eq].
Qed.

(** ** A concrete run *)

Definition example_return : Return := mkReturn 312 "NO_ROUTE" "spoofed" "spoofed".

(** One attempt, registered in a tracker of capacity two. *)
Definition example_tracker : publishTracker := (register (newPublishTracker 2) 1 "s/1" "orders" "created").2.

Lemma example_reachable : rtc tracker_step (newPublishTracker 2) example_tracker.
Proof.
  eapply rtc_once. exists (ORegister 1 "s/1" "orders" "created"), (RAttempt (inr 0%nat)). split; done.
Qed.

Lemma tracker_safe_witness :
  wf example_tracker ∧ ∃ r tracker', exec example_tracker (OConfirm 1 true) = Some (r, tracker') ∧ wf tracker'.
Proof.
  apply (tracker_safe 2); [apply example_reachable | done |]. by intros (p & a & ? & _).
Defined.

Lemma tracker_refines_witness :
  spec_runs 2 ∅ [(ORegister 1 "s/1" "orders" "created", RAttempt (inr 0%nat))] (abs example_tracker).
Proof. apply tracker_refines. econstructor; [done|reflexivity|constructor]. Defined.

Lemma outcome_at_most_once_witness :
  sumZ (delivered 0)
    [(ORegister 1 "s/1" "orders" "created", RAttempt (inr 0%nat)); (OConfirm 1 true, RBool true);
     (OConfirm 1 false, RBool false); (OReceive 0, RResult (Some (mkPublishResult PublishConfirmed None)));
     (OReceive 0, RResult None)] <= 1.
Proof.
  eapply (outcome_at_most_once 2). repeat (econstructor; [done || (simpl; by eexists)|reflexivity|]).
  constructor.
Defined.

Lemma failAll_completes_witness :
  ∃ t', failAll example_tracker PublishAmbiguous [1] = Some (1, t') ∧ tr_sequence t' = ∅.
Proof.
  destruct (failAll_completes 2 example_tracker PublishAmbiguous [1] example_reachable eq_refl)
    as (t' & H & Hs & _); [done|].
  exists t'. by split.
Defined.

Lemma confirm_classifies_witness :
  ∃ t', confirm example_tracker 1 true = Some (true, t')
  ∧ fst <$> receive t' 0 = Some (Some (mkPublishResult PublishConfirmed None)).
Proof.
  destruct (confirm_classifies 2 example_tracker 1 0
    (mkAttempt 1 "s/1" "orders" "created" None make_chan) true example_reachable)
    as (t' & H & Hr & _); [done..|]. exists t'. by split.
Defined.

Lemma return_prevails_witness :
  ∃ t2 t3, returned example_tracker "s/1" example_return = Some (true, t2)
  ∧ confirm t2 1 true = Some (true, t3)
  ∧ fst <$> receive t3 0 = Some (Some (mkPublishResult PublishReturned
      (Some (mkReturn 312 "NO_ROUTE" "orders" "created")))).
Proof.
  apply (return_prevails 2 (newPublishTracker 2) 1 "s/1" "orders" "created" 0 example_tracker example_return true).
  - apply rtc_refl.
  - done.
Defined.

End PublishTracker.
