(* ===== verification/Observation.v ===== *)
(** * Observation: the bounded, lossy event stream

    observation.go.  [emit] runs under a read lock, so any number of emitters
    interleave between its two atomic actions (the swap of the drop counter and
    the non-blocking send); [close] runs under the write lock, after the last
    emitter has left, and interleaves only with readers of the channel.  The
    state machine [obs_step] has those interleavings; the sequential [emit] and
    [close] are runs of it. *)

From S2P Require Import Prelude Errors Tracker.

Definition observationBufferSize : Z := 256.

Definition ObservationResource : Type := string.
Definition ObservationProducer : ObservationResource := "producer".
Definition ObservationConsumer : ObservationResource := "consumer".

Definition ObservationKind : Type := string.
Definition ObservationConnectionState : ObservationKind := "connection_state".
Definition ObservationConnectionBlocked : ObservationKind := "connection_blocked".
Definition ObservationReconnect : ObservationKind := "reconnect".
Definition ObservationPublish : ObservationKind := "publish".
Definition ObservationReturn : ObservationKind := "return".
Definition ObservationConfirm : ObservationKind := "confirm".
Definition ObservationConfirmationLatency : ObservationKind := "confirmation_latency".
Definition ObservationAmbiguous : ObservationKind := "ambiguous".
Definition ObservationDelivery : ObservationKind := "delivery".
Definition ObservationRedelivery : ObservationKind := "redelivery".
Definition ObservationConsumerCancellation : ObservationKind := "consumer_cancellation".
Definition ObservationAcknowledgement : ObservationKind := "acknowledgement".
Definition ObservationSettlement : ObservationKind := "settlement".
Definition ObservationHandlerFailure : ObservationKind := "handler_failure".
Definition ObservationDeadLetter : ObservationKind := "dead_letter".
Definition ObservationBacklogPressure : ObservationKind := "backlog_pressure".
Definition ObservationShutdown : ObservationKind := "shutdown".
Definition ObservationStreamClosed : ObservationKind := "stream_closed".

Definition ObservationOutcome : Type := string.
Definition ObservationConnected : ObservationOutcome := "connected".
Definition ObservationRecovering : ObservationOutcome := "recovering".
Definition ObservationRecovered : ObservationOutcome := "recovered".
Definition ObservationUnavailable : ObservationOutcome := "unavailable".
Definition ObservationBlocked : ObservationOutcome := "blocked".
Definition ObservationUnblocked : ObservationOutcome := "unblocked".
Definition ObservationAttempted : ObservationOutcome := "attempted".
Definition ObservationConfirmed : ObservationOutcome := "confirmed".
Definition ObservationRejected : ObservationOutcome := "rejected".
Definition ObservationReturned : ObservationOutcome := "returned".
Definition ObservationNotSent : ObservationOutcome := "not_sent".
Definition ObservationAmbiguousOutcome : ObservationOutcome := "ambiguous".
Definition ObservationDelivered : ObservationOutcome := "delivered".
Definition ObservationRedelivered : ObservationOutcome := "redelivered".
Definition ObservationCancelled : ObservationOutcome := "cancelled".
Definition ObservationAcknowledged : ObservationOutcome := "acknowledged".
Definition ObservationNegativeAcknowledged : ObservationOutcome := "negative_acknowledged".
Definition ObservationHandlerFailed : ObservationOutcome := "failed".
Definition ObservationDeadLettered : ObservationOutcome := "dead_lettered".
Definition ObservationBacklogFull : ObservationOutcome := "full".
Definition ObservationShutdownStarted : ObservationOutcome := "started".
Definition ObservationShutdownCompleted : ObservationOutcome := "completed".
Definition ObservationClosed : ObservationOutcome := "closed".

Record Observation := mkObservation {
  Obs_Resource : ObservationResource;
  Obs_Kind : ObservationKind;
  Obs_Outcome : ObservationOutcome;
  Obs_Duration : Z;
  Obs_Dropped : Z }.

(** An observation as the callers build it. *)
Definition observation (kind : ObservationKind) (outcome : ObservationOutcome) : Observation :=
  mkObservation EmptyString kind outcome 0 0.

Definition with_dropped (o : Observation) (dropped : Z) : Observation :=
  mkObservation (Obs_Resource o) (Obs_Kind o) (Obs_Outcome o) (Obs_Duration o) dropped.

(** Where the one [close] is: not called, about to send the terminal event, about
    to displace an event of the full channel, about to send for good, done. *)
Inductive close_phase :=
| CloseIdle
| CloseSelect (terminal : Observation)
| CloseDisplace (terminal : Observation)
| CloseSend (terminal : Observation)
| CloseDone.

(** The stream: [os_emitting] are the emitters between their swap and their send
    (each holds the read lock), [os_read] what readers received so far and
    [os_emitted] how many events were offered, the terminal one included. *)
Record observationStream := mkStream {
  os_channel : list Observation;
  os_capacity : Z;
  os_resource : ObservationResource;
  os_dropped : Z;
  os_emitting : list Observation;
  os_close : close_phase;
  os_read : list Observation;
  os_emitted : Z }.

Definition newObservationStream (resource : ObservationResource) (capacity : Z) : observationStream :=
  mkStream [] capacity resource 0 [] CloseIdle [] 0.

(** [stream.closed], set first thing under the write lock. *)
Definition os_closed (stream : observationStream) : bool :=
  match os_close stream with CloseIdle => false | _ => true end.

Definition has_room (stream : observationStream) : bool :=
  llen (os_channel stream) <? os_capacity stream.

(** The first action of [emit]: the closed test and the swap. *)
Definition emit_begin (stream : observationStream) (o : Observation) : observationStream :=
  return_if os_closed stream, stream ;;
  let o := mkObservation (os_resource stream) (Obs_Kind o) (Obs_Outcome o) (Obs_Duration o)
             (os_dropped stream) in
  mkStream (os_channel stream) (os_capacity stream) (os_resource stream) 0
    (os_emitting stream ++ [o]) (os_close stream) (os_read stream) (os_emitted stream + 1).

(** The second action of [emit], of the emitter that holds [o]: the send, or the
    accumulated loss given back to the counter. *)
Definition emit_finish (stream : observationStream) (before after : list Observation) (o : Observation)
    : observationStream :=
  if has_room stream then
    mkStream (os_channel stream ++ [o]) (os_capacity stream) (os_resource stream) (os_dropped stream)
      (before ++ after) (os_close stream) (os_read stream) (os_emitted stream)
  else
    mkStream (os_channel stream) (os_capacity stream) (os_resource stream)
      (uint64 (os_dropped stream + uint64 (Obs_Dropped o + 1)))
      (before ++ after) (os_close stream) (os_read stream) (os_emitted stream).

Definition set_close (stream : observationStream) (channel : list Observation) (dropped : Z)
    (phase : close_phase) (emitted : Z) : observationStream :=
  mkStream channel (os_capacity stream) (os_resource stream) dropped (os_emitting stream) phase
    (os_read stream) emitted.

(** The four actions of [close]. *)
Definition close_begin (stream : observationStream) : observationStream :=
  let terminal := mkObservation (os_resource stream) ObservationStreamClosed ObservationClosed 0
                    (os_dropped stream) in
  set_close stream (os_channel stream) 0 (CloseSelect terminal) (os_emitted stream + 1).

Definition close_select (stream : observationStream) (terminal : Observation) : observationStream :=
  if has_room stream
  then set_close stream (os_channel stream ++ [terminal]) (os_dropped stream) CloseDone (os_emitted stream)
  else set_close stream (os_channel stream) (os_dropped stream) (CloseDisplace terminal) (os_emitted stream).

(** [takeObservation] *)
Definition takeObservation (channel : list Observation) : option (Observation * list Observation) :=
  match channel with [] => None | o :: channel => Some (o, channel) end.

Definition close_displace (stream : observationStream) (terminal : Observation) : observationStream :=
  match takeObservation (os_channel stream) with
  | Some (displaced, channel) =>
    let terminal := with_dropped terminal
                      (uint64 (Obs_Dropped terminal + uint64 (Obs_Dropped displaced + 1))) in
    set_close stream channel (os_dropped stream) (CloseSend terminal) (os_emitted stream)
  | None => set_close stream (os_channel stream) (os_dropped stream) (CloseSend terminal) (os_emitted stream)
  end.

(** [None]: the send blocks. *)
Definition close_send (stream : observationStream) (terminal : Observation) : option observationStream :=
  return_if negb (has_room stream), None ;;
  Some (set_close stream (os_channel stream ++ [terminal]) (os_dropped stream) CloseDone (os_emitted stream)).

(** A reader of the channel. *)
Definition obs_receive (stream : observationStream) : option (Observation * observationStream) :=
  match os_channel stream with
  | [] => None
  | o :: channel =>
    Some (o, mkStream channel (os_capacity stream) (os_resource stream) (os_dropped stream)
               (os_emitting stream) (os_close stream) (os_read stream ++ [o]) (os_emitted stream))
  end.

(** [emit] by one caller alone. *)
Definition emit (stream : observationStream) (o : Observation) : observationStream :=
  let stream := emit_begin stream o in
  match os_emitting stream with
  | [o] => emit_finish stream [] [] o
  | _ => stream
  end.

(** [close] with no reader in between; a second call does nothing. *)
Definition close (stream : observationStream) : option observationStream :=
  match os_close stream with
  | CloseIdle =>
    let stream := close_begin stream in
    match os_close stream with
    | CloseSelect terminal =>
      let stream := close_select stream terminal in
      match os_close stream with
      | CloseDisplace terminal =>
        let stream := close_displace stream terminal in
        match os_close stream with
        | CloseSend terminal => close_send stream terminal
        | _ => Some stream
        end
      | _ => Some stream
      end
    | _ => Some stream
    end
  | _ => Some stream
  end.

Definition publishObservationOutcome (state : PublishState) : ObservationOutcome :=
  if state =s PublishConfirmed then ObservationConfirmed
  else if state =s PublishRejected then ObservationRejected
  else if state =s PublishReturned then ObservationReturned
  else if state =s PublishAmbiguous then ObservationAmbiguousOutcome
  else ObservationNotSent.

(** ** Interleavings *)

Inductive obs_step : relation observationStream :=
| step_emit_begin s o : obs_step s (emit_begin s o)
| step_emit_finish s before o after :
    os_emitting s = before ++ o :: after → obs_step s (emit_finish s before after o)
| step_receive s s' o : obs_receive s = Some (o, s') → obs_step s s'
| step_close_begin s :
    os_close s = CloseIdle → os_emitting s = [] → obs_step s (close_begin s)
| step_close_select s terminal :
    os_close s = CloseSelect terminal → obs_step s (close_select s terminal)
| step_close_displace s terminal :
    os_close s = CloseDisplace terminal → obs_step s (close_displace s terminal)
| step_close_send s s' terminal :
    os_close s = CloseSend terminal → close_send s terminal = Some s' → obs_step s s'.

(** ** Accounting *)

(** An event accounts for itself and for the losses it reports. *)
Definition weight (o : Observation) : Z := 1 + Obs_Dropped o.

Definition close_weight (phase : close_phase) : Z :=
  match phase with
  | CloseSelect t | CloseDisplace t | CloseSend t => weight t
  | CloseIdle | CloseDone => 0
  end.

Definition accounted (s : observationStream) : Z :=
  sumZ weight (os_read s) + sumZ weight (os_channel s) + sumZ weight (os_emitting s)
  + close_weight (os_close s) + os_dropped s.

Definition nonneg_dropped (l : list Observation) : Prop := ∀ o, o ∈ l → 0 <= Obs_Dropped o.

Definition is_terminal (o : Observation) : Prop :=
  Obs_Kind o = ObservationStreamClosed ∧ Obs_Outcome o = ObservationClosed.

Record stream_inv (s : observationStream) : Prop := {
  si_capacity : 0 < os_capacity s;
  si_bound : llen (os_channel s) <= os_capacity s;
  si_closing : os_close s ≠ CloseIdle → os_emitting s = [];
  si_room : ∀ t, os_close s = CloseSend t → llen (os_channel s) < os_capacity s;
  si_dropped : 0 <= os_dropped s;
  si_nonneg : nonneg_dropped (os_read s ++ os_channel s ++ os_emitting s);
  si_terminal : match os_close s with
    | CloseIdle => True
    | CloseSelect t | CloseDisplace t | CloseSend t => is_terminal t ∧ 0 <= Obs_Dropped t
    | CloseDone => ∃ l t, os_read s ++ os_channel s = l ++ [t] ∧ is_terminal t
    end;
  si_quiet : os_close s ≠ CloseIdle → os_dropped s = 0;
  si_emitted : 0 <= os_emitted s;
  si_exact : os_emitted s < 2 ^ 64 → accounted s = os_emitted s }.

Lemma nonneg_app l k : nonneg_dropped (l ++ k) ↔ nonneg_dropped l ∧ nonneg_dropped k.
Proof.
  unfold nonneg_dropped. setoid_rewrite elem_of_app. split; [auto|]. intros [? ?] o [?|?]; auto.
Qed.

Lemma nonneg_cons o l : nonneg_dropped (o :: l) ↔ 0 <= Obs_Dropped o ∧ nonneg_dropped l.
Proof. unfold nonneg_dropped. by rewrite (forall_cons _ o l). Qed.

Lemma nonneg_nil : nonneg_dropped [].
Proof. intros o Ho. by apply not_elem_of_nil in Ho. Qed.

Lemma weight_sum_nonneg l : nonneg_dropped l → 0 <= sumZ weight l.
Proof. intros H. apply sumZ_nonneg. intros o Ho. unfold weight. specialize (H o Ho). lia. Qed.

#[export] Hint Resolve nonneg_nil weight_sum_nonneg : go.

Lemma uint64_nonneg z : 0 <= uint64 z.
Proof. apply wrap_u_range. lia. Qed.
#[export] Hint Resolve uint64_nonneg : go.

(** Two additions of the counter type that stay in range are exact. *)
Lemma uint64_add_exact a b : 0 <= a → 0 <= b → a + (b + 1) < 2 ^ 64 → uint64 (a + uint64 (b + 1)) = a + (b + 1).
Proof. intros. rewrite (wrap_u_small 64 (b + 1)) by lia. apply wrap_u_small. lia. Qed.

Lemma stream_inv_new resource capacity :
  0 < capacity → stream_inv (newObservationStream resource capacity).
Proof. intros. split; simpl; auto with go; try done; unfold llen; simpl; lia. Qed.

Ltac stream_split := rewrite ?nonneg_app, ?nonneg_cons, ?sumZ_app, ?llen_app in *; simpl in *.

Lemma emit_begin_inv s o : stream_inv s → stream_inv (emit_begin s o).
Proof.
  intros []. unfold emit_begin. destruct (os_closed s) eqn:Hc; [by split|].
  unfold os_closed in Hc. destruct (os_close s) eqn:Hp; try done.
  split; simpl; rewrite ?Hp; try done; try lia; stream_split; rewrite ?nonneg_cons.
  { destruct si_nonneg0 as (?&?&?). split_and!; auto with go. }
  intros. unfold accounted in *. simpl. rewrite Hp in si_exact0. rewrite sumZ_app. cbn [sumZ close_weight].
  unfold weight at 4. simpl. unfold close_weight in *. lia.
Qed.

Lemma emit_finish_inv s before o after :
  stream_inv s → os_emitting s = before ++ o :: after → stream_inv (emit_finish s before after o).
Proof.
  intros [] He. unfold emit_finish. rewrite He in *.
  assert (os_close s = CloseIdle) as Hidle.
  { destruct (os_close s); try done; by destruct before; specialize (si_closing0 ltac:(done)). }
  rewrite Hidle in *. stream_split. unfold has_room. destruct (_ <? _) eqn:Hr.
  - split; simpl; rewrite ?Hidle; try done; try lia; stream_split; rewrite ?nonneg_cons; auto with go.
    + unfold llen in *. simpl. lia.
    + destruct si_nonneg0 as (?&?&?&?&?). split_and!; auto with go.
    + unfold accounted in *. simpl. rewrite He, Hidle in si_exact0. rewrite !sumZ_app in *.
      simpl in *. lia.
  - split; simpl; rewrite ?Hidle; try done; try lia; stream_split; auto with go.
    + tauto.
    + intros Hlt. specialize (si_exact0 Hlt). unfold accounted in *. simpl.
      rewrite He, Hidle, !sumZ_app in si_exact0. rewrite !sumZ_app. simpl in *. unfold weight at 4 in si_exact0.
      destruct si_nonneg0 as (? & ? & ? & ? & ?).
      pose proof (weight_sum_nonneg (os_read s) ltac:(done)).
      pose proof (weight_sum_nonneg (os_channel s) ltac:(done)).
      pose proof (weight_sum_nonneg before ltac:(done)). pose proof (weight_sum_nonneg after ltac:(done)).
      rewrite uint64_add_exact by lia. lia.
Qed.

Lemma obs_receive_inv s s' o : obs_receive s = Some (o, s') → stream_inv s → stream_inv s'.
Proof.
  unfold obs_receive. destruct (os_channel s) as [|x channel] eqn:Hch; [done|]. intros [= -> <-] [].
  rewrite Hch, ?llen_cons in *. pose proof (llen_nonneg channel).
  split; simpl; try done; try lia.
  - by rewrite <- app_assoc.
  - destruct (os_close s); try done. by rewrite <- app_assoc.
  - intros Hlt. specialize (si_exact0 Hlt). unfold accounted in *. rewrite Hch in si_exact0. simpl in *.
    rewrite sumZ_app. simpl. lia.
Qed.

Lemma close_begin_inv s :
  os_close s = CloseIdle → os_emitting s = [] → stream_inv s → stream_inv (close_begin s).
Proof.
  intros Hp He []. split; simpl; try done; try lia.
  intros Hlt. unfold accounted in *. rewrite Hp, He in si_exact0. simpl in *.
  rewrite He. unfold weight at 4. simpl. lia.
Qed.

Lemma close_done_inv s terminal :
  is_terminal terminal → 0 <= Obs_Dropped terminal → os_close s ≠ CloseIdle →
  close_weight (os_close s) = weight terminal → has_room s = true → stream_inv s →
  stream_inv (set_close s (os_channel s ++ [terminal]) (os_dropped s) CloseDone (os_emitted s)).
Proof.
  intros Ht Hd Hp Hw Hr []. unfold has_room in Hr. specialize (si_closing0 Hp).
  split; simpl; try done; auto.
  - rewrite llen_app. unfold llen in *. simpl. lia.
  - rewrite !nonneg_app, nonneg_cons in *. destruct si_nonneg0 as (?&?&?). split_and!; auto with go.
  - exists (os_read s ++ os_channel s), terminal. by rewrite app_assoc.
  - intros Hlt. specialize (si_exact0 Hlt). unfold accounted in *. simpl. rewrite Hw in si_exact0.
    rewrite sumZ_app. simpl. lia.
Qed.

Lemma close_select_inv s terminal :
  os_close s = CloseSelect terminal → stream_inv s → stream_inv (close_select s terminal).
Proof.
  intros Hp Hinv. pose proof Hinv as []. rewrite Hp in si_terminal0. destruct si_terminal0 as [Ht Hd].
  unfold close_select. destruct (has_room s) eqn:Hr.
  - apply close_done_inv; try done; by rewrite Hp.
  - split; simpl; try done; rewrite ?Hp in *; auto.
    intros Hlt. specialize (si_exact0 Hlt). unfold accounted in *. by rewrite Hp in si_exact0.
Qed.

Lemma close_displace_inv s terminal :
  os_close s = CloseDisplace terminal → stream_inv s → stream_inv (close_displace s terminal).
Proof.
  intros Hp Hinv. pose proof Hinv as []. rewrite Hp in si_terminal0. destruct si_terminal0 as [Ht Hd].
  assert (os_close s ≠ CloseIdle) as Hni by (by rewrite Hp).
  specialize (si_closing0 Hni). specialize (si_quiet0 Hni).
  unfold close_displace. destruct (os_channel s) as [|x channel] eqn:Hch; simpl.
  - split; simpl; rewrite ?Hch; try done; auto. intros Hlt. specialize (si_exact0 Hlt).
    unfold accounted in *. simpl. by rewrite Hp, Hch in si_exact0.
  - rewrite llen_cons in si_bound0. rewrite !nonneg_app, nonneg_cons in si_nonneg0.
    destruct si_nonneg0 as (? & (? & ?) & ?).
    split; simpl; try done; auto with go; try lia.
    + rewrite !nonneg_app. auto.
    + intros Hlt. specialize (si_exact0 Hlt). unfold accounted in *. simpl.
      rewrite Hp, Hch, si_closing0, si_quiet0 in si_exact0. rewrite si_closing0, si_quiet0. simpl in *.
      pose proof (weight_sum_nonneg (os_read s) ltac:(done)).
      pose proof (weight_sum_nonneg channel ltac:(done)).
      unfold weight in *. simpl. rewrite uint64_add_exact by lia. lia.
Qed.

Lemma obs_step_inv s s' : obs_step s s' → stream_inv s → stream_inv s'.
Proof.
  intros Hs Hinv. inversion Hs as [|? before o after|? ? o|?|? terminal|? terminal|? ? terminal Hp Hx]; subst.
  - by apply emit_begin_inv.
  - by apply emit_finish_inv.
  - by eapply obs_receive_inv.
  - by apply close_begin_inv.
  - by apply close_select_inv.
  - by apply close_displace_inv.
  - unfold close_send in Hx. destruct (has_room s) eqn:Hr; [|done]. injection Hx as <-.
    pose proof Hinv as []. rewrite Hp in si_terminal0. destruct si_terminal0.
    apply close_done_inv; try done; by rewrite Hp.
Qed.

Lemma stream_reachable_inv resource capacity s :
  0 < capacity → rtc obs_step (newObservationStream resource capacity) s → stream_inv s.
Proof.
  intros Hc H. eapply (rtc_invariant obs_step stream_inv); [apply obs_step_inv|done|].
  by apply stream_inv_new.
Qed.

(** C30: no event is lost silently: under any interleaving of emitters, readers
    and [close], once the stream is closed its last event is the terminal one, and
    the events of the channel, each counted with the losses it reports, account
    for every event offered (fewer than 2^64 of them), the terminal one included. *)
Theorem stream_accounts_for_losses resource capacity s :
  0 < capacity → rtc obs_step (newObservationStream resource capacity) s →
  os_close s = CloseDone → os_emitted s < 2 ^ 64 →
  (∃ l t, os_read s ++ os_channel s = l ++ [t] ∧ is_terminal t)
  ∧ sumZ weight (os_read s ++ os_channel s) = os_emitted s.
Proof.
  intros Hc Hr%stream_reachable_inv Hp Hlt; [|done]. destruct Hr. rewrite Hp in si_terminal0.
  split; [done|]. specialize (si_exact0 Hlt). specialize (si_closing0 ltac:(by rewrite Hp)).
  specialize (si_quiet0 ltac:(by rewrite Hp)). unfold accounted in si_exact0.
  rewrite Hp, si_closing0, si_quiet0 in si_exact0. rewrite sumZ_app. simpl in si_exact0. lia.
Qed.

(** the stream stays within its capacity and [close] always makes progress:
    wherever it is interleaved with readers, its next action is enabled, the
    final blocking send included, which always finds room. *)
Theorem stream_close_progress resource capacity s :
  0 < capacity → rtc obs_step (newObservationStream resource capacity) s →
  llen (os_channel s) <= capacity
  ∧ match os_close s with
    | CloseSend terminal => ∃ s', close_send s terminal = Some s' ∧ os_close s' = CloseDone
    | CloseSelect terminal => obs_step s (close_select s terminal)
    | CloseDisplace terminal => obs_step s (close_displace s terminal)
    | _ => True
    end.
Proof.
  intros Hc Hr. assert (os_capacity s = capacity) as Hcap.
  { clear Hc. eapply (rtc_invariant obs_step (λ s, os_capacity s = capacity)) in Hr; [done| |done].
    intros x y Hs <-. inversion Hs; subst; unfold emit_begin, emit_finish, close_select, close_displace,
      close_send, obs_receive in *; repeat case_match; simplify_eq/=; done. }
  apply stream_reachable_inv in Hr; [|done]. destruct Hr. split; [lia|].
  destruct (os_close s) eqn:Hp; try done.
  - by apply step_close_select.
  - by apply step_close_displace.
  - unfold close_send, has_room. specialize (si_room0 _ eq_refl). rewrite (proj2 (Z.ltb_lt _ _)) by lia. eauto.
Qed.

(** ** The sequential operations are runs *)

Lemma emit_runs s o : os_emitting s = [] → rtc obs_step s (emit s o) ∧ os_emitting (emit s o) = [].
Proof.
  intros He. unfold emit. pose proof (step_emit_begin s o) as H1. revert H1.
  unfold emit_begin. destruct (os_closed s); intros H1; simpl; rewrite He in *; [done|]. simpl in *.
  split; [|unfold emit_finish; by case_match].
  eapply rtc_l; [exact H1|]. by apply rtc_once, (step_emit_finish _ []).
Qed.

(** An event emitted while no other emitter is active keeps the stream's invariant. *)
Lemma emit_quiet s o :
  stream_inv s → os_emitting s = [] →
  stream_inv (emit s o) ∧ os_emitting (emit s o) = [] ∧ os_close (emit s o) = os_close s.
Proof.
  intros Hinv He. destruct (emit_runs s o He) as [Hr Hq]. split_and!; [|done|].
  - eapply (rtc_invariant obs_step stream_inv); [apply obs_step_inv|exact Hr|done].
  - unfold emit, emit_begin, emit_finish. destruct (os_closed s); simpl; rewrite He; simpl; repeat case_match; done.
Qed.

Lemma close_runs s s' : os_emitting s = [] → close s = Some s' → rtc obs_step s s'.
Proof.
  intros He. unfold close. destruct (os_close s) eqn:Hp; try (by intros [= <-]).
  simpl. assert (obs_step s (close_begin s)) as H1 by (by constructor).
  set (t := mkObservation _ _ _ _ _) in *. set (s1 := close_begin s) in *.
  assert (obs_step s1 (close_select s1 t)) as H2 by (by constructor).
  unfold close_select in *. destruct (has_room s1); simpl.
  { intros [= <-]. eapply rtc_l; [exact H1|]. by apply rtc_once. }
  set (s2 := set_close s1 _ _ (CloseDisplace t) _) in *.
  assert (obs_step s2 (close_displace s2 t)) as H3 by (by constructor).
  destruct (os_close (close_displace s2 t)) as [| | |t'|] eqn:Hp2; intros Hx.
  4: eapply rtc_l; [exact H1|]; eapply rtc_l; [exact H2|]; eapply rtc_l; [exact H3|];
     apply rtc_once; by eapply step_close_send.
  all: injection Hx as <-; eapply rtc_l; [exact H1|]; eapply rtc_l; [exact H2|]; by apply rtc_once.
Qed.

Lemma close_steps s :
  os_close s = CloseIdle → stream_inv s → os_emitting s = [] →
  ∃ s', close s = Some s' ∧ os_close s' = CloseDone ∧ os_emitting s' = [].
Proof.
  intros Hp Hinv He. unfold close. rewrite Hp. simpl.
  unfold close_select. destruct (has_room _) eqn:Hr; simpl; [by eexists|].
  pose proof (close_begin_inv s Hp He Hinv) as H1.
  pose proof (close_select_inv (close_begin s) _ eq_refl H1) as H2.
  unfold close_select in H2. rewrite Hr in H2.
  pose proof (close_displace_inv (set_close (close_begin s) _ _ (CloseDisplace _) _) _ eq_refl H2) as H3.
  unfold close_displace in *. simpl in *. destruct (os_channel s) as [|x channel]; simpl in *;
    unfold close_send, has_room; simpl; pose proof (si_room _ H3 _ eq_refl) as Hroom; simpl in Hroom;
    rewrite (proj2 (Z.ltb_lt _ _) Hroom); simpl; by eexists.
Qed.

(** Two events for a channel of one, then [close]: the second event is dropped,
    the first displaced, and the terminal event reports both. *)
Definition example_stream : observationStream :=
  emit (emit (newObservationStream ObservationProducer 1) (observation ObservationPublish ObservationConfirmed))
    (observation ObservationShutdown ObservationShutdownStarted).

Definition example_closed : observationStream := default example_stream (close example_stream).

Lemma example_closed_reachable : rtc obs_step (newObservationStream ObservationProducer 1) example_closed.
Proof.
  destruct (emit_runs (newObservationStream ObservationProducer 1)
    (observation ObservationPublish ObservationConfirmed) eq_refl) as [H1 E1].
  destruct (emit_runs _ (observation ObservationShutdown ObservationShutdownStarted) E1) as [H2 E2].
  etrans; [exact H1|]. etrans; [exact H2|]. by apply close_runs.
Qed.

Lemma stream_accounts_for_losses_witness :
  sumZ weight (os_read example_closed ++ os_channel example_closed) = 3.
Proof.
  apply (stream_accounts_for_losses ObservationProducer 1 example_closed);
    [lia | apply example_closed_reachable | reflexivity | reflexivity].
Defined.

Lemma stream_close_progress_witness : llen (os_channel example_closed) <= 1.
Proof.
  apply (stream_close_progress ObservationProducer 1 example_closed); [lia | apply example_closed_reachable].
Defined.
