(* ===== verification/Producer.v ===== *)
(** * Producer: the state a producer's goroutines share

    producer.go (configuration, admission, recovery flags, blocking
    notifications, shutdown), the producer half of health.go and
    connection_state.go.  Every method that holds [stateMu] is one definition on
    the record of the fields that mutex guards; the methods that take it several
    times are split at the points where other goroutines can run, and
    [producer_step] interleaves them all. *)

From S2P Require Import Prelude GoText Errors Config Message Tracker Observation.

(** ** Configuration *)

Definition MaxOutstandingConfirms : Z := 4096.
Definition MaxPublishBatchSize : Z := 1024.

Record ProducerConfig := mkProducerConfig {
  Producer_Limits : Limits;
  MaxOutstanding : Z;
  PublishTimeout : Z }.

Definition validProducerBounds (maxOutstanding publishTimeout : Z) : bool :=
  (maxOutstanding >=? 1) && (maxOutstanding <=? MaxOutstandingConfirms) &&
  (publishTimeout >? 0) && (publishTimeout <=? maximumDialTimeout).

Definition ProducerConfig_Validate (config : ProducerConfig) : option error :=
  return_if negb (Limits_valid (Producer_Limits config))
      || negb (validProducerBounds (MaxOutstanding config) (PublishTimeout config)),
    Some ErrInvalidBounds ;;
  None.

Definition validPublishBatchSize (size : Z) : bool := (size >? 0) && (size <=? MaxPublishBatchSize).

(** ** The publish mutex *)

(** [contextMutex]: a token in a channel of capacity one; [None] is the
    uninitialised channel. *)
Module ContextMutex.
Record contextMutex := mkMutex { token : option nat }.

Definition initialize (m : contextMutex) : contextMutex :=
  match token m with None => mkMutex (Some 1%nat) | Some _ => m end.

(** Receiving the token; [None] blocks. *)
Definition Lock (m : contextMutex) : option contextMutex :=
  match token (initialize m) with
  | Some (S n) => Some (mkMutex (Some n))
  | _ => None
  end.

(** [TryLock] *)
Definition TryLock (m : contextMutex) : bool * contextMutex :=
  match Lock m with Some m => (true, m) | None => (false, initialize m) end.

(** [LockContext]: when both are ready the [select] may take either; [ctx] is
    the context's error when the [select] took it. *)
Definition LockContext (m : contextMutex) (ctx : option error) : option (option error * contextMutex) :=
  match ctx with
  | Some err => Some (Some err, initialize m)
  | None => match Lock m with Some m => Some (None, m) | None => None end
  end.

(** Sending the token back; [None] blocks (the channel is full). *)
Definition Unlock (m : contextMutex) : option contextMutex :=
  match token m with
  | Some O => Some (mkMutex (Some 1%nat))
  | _ => None
  end.

(** A run of lock and unlock actions, with the number of holders; a goroutine
    unlocks only what it holds. *)
Inductive mutex_step : relation (contextMutex * nat) :=
| mutex_lock m m' h : Lock m = Some m' → mutex_step (m, h) (m', S h)
| mutex_try m m' h : TryLock m = (true, m') → mutex_step (m, h) (m', S h)
| mutex_fail m m' h : TryLock m = (false, m') → mutex_step (m, h) (m', h)
| mutex_cancel m m' err h : LockContext m (Some err) = Some (Some err, m') → mutex_step (m, h) (m', h)
| mutex_unlock m m' h : Unlock m = Some m' → mutex_step (m, S h) (m', h).

Definition exclusive (x : contextMutex * nat) : Prop :=
  match token x.1 with None => x.2 = O | Some n => (n + x.2 = 1)%nat end.

Lemma exclusive_step x y : mutex_step x y → exclusive x → exclusive y.
Proof.
  unfold exclusive. intros Hs. destruct Hs as [m m' h Hl|m m' h Hl|m m' h Hl|m m' err h Hl|m m' h Hl];
    unfold TryLock, LockContext, Unlock, Lock, initialize in Hl; destruct m as [[[|n]|]]; simplify_eq/=; lia.
Qed.

(** the context-aware mutex excludes: under any interleaving of locking,
    trying, cancelled waits and unlocking there is never more than one holder,
    and the holder's unlock never blocks. *)
Theorem contextMutex_exclusive m h :
  rtc mutex_step (mkMutex None, O) (m, h) →
  (h <= 1)%nat ∧ (h = 1%nat → is_Some (Unlock m)).
Proof.
  intros Hr. eapply (rtc_invariant mutex_step exclusive) in Hr; [|apply exclusive_step|done].
  unfold exclusive in Hr. simpl in Hr. destruct m as [[n|]]; simpl in *; [|lia].
  split; [lia|]. intros ->. destruct n as [|n]; [by eexists|lia].
Qed.

Lemma contextMutex_exclusive_witness : is_Some (Unlock (mkMutex (Some 0%nat))).
Proof.
  apply (contextMutex_exclusive (mkMutex (Some 0%nat)) 1); [|done].
  eapply rtc_once, mutex_lock. reflexivity.
Defined.
End ContextMutex.

(** ** Shared state *)

(** Where the event goroutine is: in a generation, past its end and its cleared
    blocking state, in recovery, past a successful replacement but before
    [finishRecovery(true)], past the loop, and ended. *)
Inductive events_phase :=
| EventsRunning
| EventsEnding
| EventsRecovering
| EventsInstalled
| EventsReturned
| EventsDone.

(** Where the one [finishShutdown] goroutine is. *)
Inductive shutdown_phase :=
| ShutdownIdle
| ShutdownDraining
| ShutdownClosing
| ShutdownDone.

(** The fields [stateMu] guards, the channels closed at most once, the coalesced
    blocking notifications and the observation stream.  [pr_failure] is the
    failure signal of the current generation. *)
Record Producer := mkProducer {
  pr_config : ProducerConfig;
  pr_closed : bool;
  pr_unavailable : bool;
  pr_recovering : bool;
  pr_terminal : bool;
  pr_stopped : bool;
  pr_blocked : bool;
  pr_active : Z;
  pr_drained : bool;
  pr_shutdownForce : bool;
  pr_shutdownClosing : bool;
  pr_resourceErr : option error;
  pr_failure : bool;
  pr_blockedEvents : list bool;
  pr_blockedClosed : bool;
  pr_observations : observationStream;
  pr_events : events_phase;
  pr_shutdown : shutdown_phase }.

(** [newProducerFromChannelWithRecovery], once the inputs are accepted: the
    initial state with its first observation. *)
Definition observe (p : Producer) (o : Observation) : Producer :=
  mkProducer (pr_config p) (pr_closed p) (pr_unavailable p) (pr_recovering p) (pr_terminal p)
    (pr_stopped p) (pr_blocked p) (pr_active p) (pr_drained p) (pr_shutdownForce p)
    (pr_shutdownClosing p) (pr_resourceErr p) (pr_failure p) (pr_blockedEvents p)
    (pr_blockedClosed p) (emit (pr_observations p) o) (pr_events p) (pr_shutdown p).

Definition newProducer (config : ProducerConfig) : Producer :=
  observe (mkProducer config false false false false false false 0 false false false None false [] false
             (newObservationStream ObservationProducer observationBufferSize) EventsRunning ShutdownIdle)
    (observation ObservationConnectionState ObservationConnected).

Definition set_flags (p : Producer) (closed unavailable recovering terminal stopped : bool) : Producer :=
  mkProducer (pr_config p) closed unavailable recovering terminal stopped (pr_blocked p) (pr_active p)
    (pr_drained p) (pr_shutdownForce p) (pr_shutdownClosing p) (pr_resourceErr p) (pr_failure p)
    (pr_blockedEvents p) (pr_blockedClosed p) (pr_observations p) (pr_events p) (pr_shutdown p).

Definition set_active (p : Producer) (active : Z) (drained : bool) : Producer :=
  mkProducer (pr_config p) (pr_closed p) (pr_unavailable p) (pr_recovering p) (pr_terminal p)
    (pr_stopped p) (pr_blocked p) active drained (pr_shutdownForce p) (pr_shutdownClosing p)
    (pr_resourceErr p) (pr_failure p) (pr_blockedEvents p) (pr_blockedClosed p) (pr_observations p)
    (pr_events p) (pr_shutdown p).

Definition set_blocked_state (p : Producer) (blocked : bool) (events : list bool) (closed : bool) : Producer :=
  mkProducer (pr_config p) (pr_closed p) (pr_unavailable p) (pr_recovering p) (pr_terminal p)
    (pr_stopped p) blocked (pr_active p) (pr_drained p) (pr_shutdownForce p) (pr_shutdownClosing p)
    (pr_resourceErr p) (pr_failure p) events closed (pr_observations p) (pr_events p) (pr_shutdown p).

Definition set_phases (p : Producer) (failure : bool) (events : events_phase) (shutdown : shutdown_phase)
    : Producer :=
  mkProducer (pr_config p) (pr_closed p) (pr_unavailable p) (pr_recovering p) (pr_terminal p)
    (pr_stopped p) (pr_blocked p) (pr_active p) (pr_drained p) (pr_shutdownForce p)
    (pr_shutdownClosing p) (pr_resourceErr p) failure (pr_blockedEvents p) (pr_blockedClosed p)
    (pr_observations p) events shutdown.

Definition set_shutdown (p : Producer) (force closing : bool) (err : option error)
    (observations : observationStream) : Producer :=
  mkProducer (pr_config p) (pr_closed p) (pr_unavailable p) (pr_recovering p) (pr_terminal p)
    (pr_stopped p) (pr_blocked p) (pr_active p) (pr_drained p) force closing err (pr_failure p)
    (pr_blockedEvents p) (pr_blockedClosed p) observations (pr_events p) (pr_shutdown p).

(** ** Admission *)

Definition producerCapacityAvailable (active maximum : Z) : bool := active <? maximum.
Definition nextProducerActive (active : Z) : Z := active + 1.
Definition previousProducerActive (active : Z) : Z := active - 1.
Definition producerDrainComplete (closed : bool) (active : Z) : bool := closed && (active =? 0).

Definition Producer_admit (p : Producer) : option error * Producer :=
  return_if pr_closed p, (Some ErrProducerClosed, p) ;;
  return_if pr_unavailable p, (Some ErrProducerUnavailable, p) ;;
  return_if negb (producerCapacityAvailable (pr_active p) (MaxOutstanding (pr_config p))),
    (Some ErrOutstandingConfirmLimit, observe p (observation ObservationBacklogPressure ObservationBacklogFull)) ;;
  (None, set_active p (nextProducerActive (pr_active p)) (pr_drained p)).

(** [release], with the close of [drained] through its [Once]. *)
Definition release (p : Producer) : Producer :=
  let active := previousProducerActive (pr_active p) in
  set_active p active (pr_drained p || producerDrainComplete (pr_closed p) active).

(** ** Recovery flags *)

Definition producerRecoveryAllowed (closed recovering : bool) : bool := negb closed && negb recovering.
Definition producerRecoveryTerminal (recovered closed : bool) : bool := negb recovered && negb closed.

Definition markRecovering (p : Producer) : Producer :=
  if producerRecoveryAllowed (pr_closed p) (pr_recovering p)
  then observe (set_flags p (pr_closed p) true true (pr_terminal p) (pr_stopped p))
         (observation ObservationConnectionState ObservationRecovering)
  else p.

Definition finishRecovery (p : Producer) (recovered : bool) : Producer :=
  let terminal := producerRecoveryTerminal recovered (pr_closed p) in
  let p := set_flags p (pr_closed p) (pr_unavailable p) false (pr_terminal p || terminal) (pr_stopped p) in
  if recovered then observe p (observation ObservationConnectionState ObservationRecovered)
  else if terminal then observe p (observation ObservationConnectionState ObservationUnavailable)
  else p.

(** [signalProducerFailure]: whether the one-slot channel took the signal. *)
Definition signalProducerFailure (p : Producer) : bool * Producer :=
  (negb (pr_failure p), set_phases p true (pr_events p) (pr_shutdown p)).

(** [failGeneration]: [current] tells whether the caller's tracker is still the
    producer's. *)
Definition failGeneration (p : Producer) (current : bool) : Producer :=
  return_if negb current, p ;;
  (signalProducerFailure (markRecovering p)).2.

Definition isUnavailable (p : Producer) : bool := pr_unavailable p.
Definition isShutdownClosing (p : Producer) : bool := pr_shutdownClosing p.
Definition IsBlocked (p : Producer) : bool := pr_blocked p.

(** ** Blocking notifications *)

Definition producerBlockedChanged (current next : bool) : bool := negb (Bool.eqb current next).

(** The channel [blockedEvents] has capacity one. *)
Definition offerBlockedState (events : list bool) (state : bool) : bool * list bool :=
  match events with [] => (true, [state]) | _ => (false, events) end.

Definition takeBlockedState (events : list bool) : option bool * list bool :=
  match events with [] => (None, []) | state :: events => (Some state, events) end.

Definition setBlocked (p : Producer) (active : bool) : Producer :=
  return_if negb (producerBlockedChanged (pr_blocked p) active), p ;;
  let outcome := if active then ObservationBlocked else ObservationUnblocked in
  let p := observe (set_blocked_state p active (pr_blockedEvents p) (pr_blockedClosed p))
             (observation ObservationConnectionBlocked outcome) in
  let '(offered, events) := offerBlockedState (pr_blockedEvents p) active in
  return_if offered, set_blocked_state p active events (pr_blockedClosed p) ;;
  let '(_, events) := takeBlockedState events in
  let '(_, events) := offerBlockedState events active in
  set_blocked_state p active events (pr_blockedClosed p).

(** ** Shutdown *)

(** The body [startShutdown] runs once: it returns true when it starts the
    [finishShutdown] goroutine. *)
Definition startShutdown (p : Producer) : bool * Producer :=
  match pr_shutdown p with
  | ShutdownIdle =>
    let p := set_flags p true (pr_unavailable p) (pr_recovering p) (pr_terminal p) (pr_stopped p) in
    let p := set_active p (pr_active p) (pr_drained p || producerDrainComplete true (pr_active p)) in
    let p := observe p (observation ObservationShutdown ObservationShutdownStarted) in
    (true, set_phases p (pr_failure p) (pr_events p) ShutdownDraining)
  | _ => (false, p)
  end.

(** The close of [shutdownForce] through its [Once]. *)
Definition forceShutdown (p : Producer) : Producer :=
  set_shutdown p true (pr_shutdownClosing p) (pr_resourceErr p) (pr_observations p).

(** What ends the [select] of [Shutdown], with the producer at that moment. *)
Inductive shutdown_event :=
| ShutdownContext (contextErr : error)
| ShutdownFinished.

(** [Shutdown]: [ctx] tells whether a context was supplied, [ctxErr] is its error
    right after the shutdown started, [event] and [later] how the wait ended. *)
Definition Shutdown (p : Producer) (ctx : bool) (ctxErr : option error) (later : Producer)
    (event : shutdown_event) : option error * Producer :=
  return_if negb ctx, (Some ErrContextRequired, p) ;;
  let p := (startShutdown p).2 in
  match ctxErr with
  | Some err => (Some err, forceShutdown p)
  | None =>
    match event with
    | ShutdownContext err => (Some err, forceShutdown later)
    | ShutdownFinished => (pr_resourceErr later, later)
    end
  end.

(** [finishShutdown] past its wait: the closing flag. *)
Definition beginClosing (p : Producer) : Producer :=
  set_phases (set_shutdown p (pr_shutdownForce p) true (pr_resourceErr p) (pr_observations p))
    (pr_failure p) (pr_events p) ShutdownClosing.

(** [closeOwnedResources], given the error of closing the generation. *)
Definition closeOwnedResources (p : Producer) (closeErr : option error) : Producer :=
  set_shutdown p (pr_shutdownForce p) (pr_shutdownClosing p)
    (if present closeErr then Some ErrProducerUnavailable else pr_resourceErr p) (pr_observations p).

(** The rest of [finishShutdown]: stopped, the last observation, the streams and
    [shutdownDone]; [None] if closing the stream blocks. *)
Definition endShutdown (p : Producer) : option Producer :=
  let p := set_flags p (pr_closed p) (pr_unavailable p) (pr_recovering p) (pr_terminal p) true in
  let p := observe p (observation ObservationShutdown ObservationShutdownCompleted) in
  match close (pr_observations p) with
  | None => None
  | Some observations =>
    let p := set_shutdown p (pr_shutdownForce p) (pr_shutdownClosing p) (pr_resourceErr p) observations in
    Some (set_phases p (pr_failure p) (pr_events p) ShutdownDone)
  end.

(** The deferred end of [runEvents]. *)
Definition endEvents (p : Producer) : Producer :=
  let p := setBlocked p false in
  set_phases (set_blocked_state p (pr_blocked p) (pr_blockedEvents p) true) (pr_failure p) EventsDone
    (pr_shutdown p).

(** The installation of a new generation in [recoverRuntime]: refused once the
    producer is closed. *)
Definition installGeneration (p : Producer) : option Producer :=
  return_if pr_closed p, None ;;
  let p := set_flags p (pr_closed p) false false (pr_terminal p) (pr_stopped p) in
  Some (set_phases p false (pr_events p) (pr_shutdown p)).

(** ** Health (health.go) *)

Definition Liveness : Type := string.
Definition LivenessLive : Liveness := "live".
Definition LivenessFailed : Liveness := "failed".
Definition LivenessStopped : Liveness := "stopped".

Definition Readiness : Type := string.
Definition ReadinessReady : Readiness := "ready".
Definition ReadinessNotReady : Readiness := "not_ready".

Definition DependencyHealth : Type := string.
Definition DependencyAvailable : DependencyHealth := "available".
Definition DependencyBlocked : DependencyHealth := "blocked".
Definition DependencyRecovering : DependencyHealth := "recovering".
Definition DependencyUnavailable : DependencyHealth := "unavailable".
Definition DependencyUnknown : DependencyHealth := "unknown".

Definition Producer_Liveness (p : Producer) : Liveness :=
  return_if pr_terminal p, LivenessFailed ;;
  return_if pr_stopped p, LivenessStopped ;;
  LivenessLive.

Definition Producer_Readiness (p : Producer) : Readiness :=
  return_if pr_closed p || pr_unavailable p || pr_recovering p || pr_blocked p || pr_terminal p,
    ReadinessNotReady ;;
  ReadinessReady.

Definition Producer_DependencyHealth (p : Producer) : DependencyHealth :=
  return_if pr_terminal p, DependencyUnavailable ;;
  return_if pr_stopped p || pr_closed p, DependencyUnknown ;;
  return_if pr_recovering p, DependencyRecovering ;;
  return_if pr_blocked p, DependencyBlocked ;;
  return_if pr_unavailable p, DependencyUnavailable ;;
  DependencyAvailable.

(** ** Interleavings *)

Definition set_events (p : Producer) (phase : events_phase) : Producer :=
  set_phases p (pr_failure p) phase (pr_shutdown p).

(** One step of any goroutine: an observation, callers of [Publish] ([admit],
    [release], [failGeneration]), the event goroutine ([runEvents] with [recoverRuntime]),
    callers of [Shutdown], the [finishShutdown] goroutine, and readers of the
    blocking notifications and of the observations. *)
Inductive producer_step : relation Producer :=
| ps_observe p o : producer_step p (observe p o)
| ps_admit p : producer_step p (Producer_admit p).2
| ps_release p : 0 < pr_active p → producer_step p (release p)
| ps_fail p current : producer_step p (failGeneration p current)
| ps_blocked p active : pr_events p = EventsRunning → producer_step p (setBlocked p active)
| ps_generation_end p :
    pr_events p = EventsRunning → producer_step p (set_events (setBlocked p false) EventsEnding)
| ps_mark p :
    pr_events p = EventsEnding → producer_step p (set_events (markRecovering p) EventsRecovering)
| ps_clear_failure p :
    pr_events p = EventsRecovering → producer_step p (set_phases p false EventsRecovering (pr_shutdown p))
| ps_reconnect p :
    pr_events p = EventsRecovering →
    producer_step p (observe p (observation ObservationReconnect ObservationAttempted))
| ps_install p p' :
    pr_events p = EventsRecovering → installGeneration p = Some p' →
    producer_step p (set_events p' EventsInstalled)
| ps_recovered p :
    pr_events p = EventsInstalled → producer_step p (set_events (finishRecovery p true) EventsRunning)
| ps_exhausted p :
    pr_events p = EventsRecovering → producer_step p (set_events (finishRecovery p false) EventsReturned)
| ps_stop_events p :
    pr_events p = EventsRunning → pr_shutdown p = ShutdownClosing →
    producer_step p (set_events p EventsReturned)
| ps_end_events p : pr_events p = EventsReturned → producer_step p (endEvents p)
| ps_start_shutdown p : producer_step p (startShutdown p).2
| ps_force p : pr_shutdown p ≠ ShutdownIdle → producer_step p (forceShutdown p)
| ps_begin_closing p timer :
    pr_shutdown p = ShutdownDraining → pr_drained p || pr_shutdownForce p || timer = true →
    producer_step p (beginClosing p)
| ps_close_resources p closeErr :
    pr_shutdown p = ShutdownClosing → producer_step p (closeOwnedResources p closeErr)
| ps_end_shutdown p p' :
    pr_shutdown p = ShutdownClosing → pr_events p = EventsDone → endShutdown p = Some p' →
    producer_step p p'
| ps_read_blocked p :
    producer_step p (set_blocked_state p (pr_blocked p) (takeBlockedState (pr_blockedEvents p)).2
                       (pr_blockedClosed p))
| ps_read_observation p o observations :
    obs_receive (pr_observations p) = Some (o, observations) →
    producer_step p (set_shutdown p (pr_shutdownForce p) (pr_shutdownClosing p) (pr_resourceErr p) observations).

(** ** The invariant *)

Record producer_inv (p : Producer) : Prop := {
  pi_active : 0 <= pr_active p <= MaxOutstanding (pr_config p);
  pi_drained : pr_drained p = pr_closed p && (pr_active p =? 0);
  pi_closed : pr_closed p = true ↔ pr_shutdown p ≠ ShutdownIdle;
  pi_recovering : pr_recovering p = true → pr_unavailable p = true;
  pi_terminal : pr_terminal p = true →
    pr_unavailable p = true ∧ (pr_events p = EventsReturned ∨ pr_events p = EventsDone);
  pi_in_recovery : pr_events p = EventsRecovering → pr_closed p = true ∨ pr_unavailable p = true;
  pi_stopped : pr_stopped p = true ↔ pr_shutdown p = ShutdownDone;
  pi_stopped_events : pr_stopped p = true → pr_events p = EventsDone;
  pi_closing : pr_shutdownClosing p = true ↔
    (pr_shutdown p = ShutdownClosing ∨ pr_shutdown p = ShutdownDone);
  pi_blocked : pr_blockedEvents p = [] ∨ pr_blockedEvents p = [pr_blocked p];
  pi_blocked_closed : pr_blockedClosed p = true ↔ pr_events p = EventsDone;
  pi_unblocked : pr_events p = EventsDone → pr_blocked p = false;
  pi_stream : stream_inv (pr_observations p);
  pi_stream_quiet : os_emitting (pr_observations p) = [];
  pi_stream_open : os_close (pr_observations p) = if pr_stopped p then CloseDone else CloseIdle }.

(** An observation changes nothing but the stream. *)
Lemma observe_inv p o : producer_inv p → producer_inv (observe p o).
Proof.
  intros []. destruct (emit_quiet _ o pi_stream0 pi_stream_quiet0) as (? & ? & ?).
  split; simpl; try done. congruence.
Qed.
#[export] Hint Resolve observe_inv : go.

Lemma producer_inv_new config : 0 <= MaxOutstanding config → producer_inv (newProducer config).
Proof.
  intros. apply observe_inv. split; simpl; try done; try lia; auto.
  - split; [done|by intros [?|?]].
  - apply stream_inv_new. unfold observationBufferSize. lia.
Qed.

(** Closes what a step leaves of the invariant once its changes are evaluated. *)
Ltac inv_solve :=
  split; simpl in *; try done; try lia; try tauto; try congruence.

Lemma admit_inv p : producer_inv p → producer_inv (Producer_admit p).2.
Proof.
  intros Hinv. unfold Producer_admit. destruct (pr_closed p) eqn:Hc; [done|]. destruct (pr_unavailable p); [done|].
  unfold producerCapacityAvailable, nextProducerActive. destruct (_ <? _) eqn:Hlt; simpl; [|by apply observe_inv].
  destruct Hinv. inv_solve. rewrite pi_drained0, Hc. done.
Qed.

Lemma release_inv p : 0 < pr_active p → producer_inv p → producer_inv (release p).
Proof.
  intros Hpos []. unfold release, producerDrainComplete, previousProducerActive. inv_solve.
  rewrite pi_drained0. destruct (pr_closed p); [|done]. simpl.
  destruct (pr_active p =? 0) eqn:E; [lia|done].
Qed.

Lemma markRecovering_inv p : producer_inv p → producer_inv (markRecovering p).
Proof.
  intros Hinv. unfold markRecovering, producerRecoveryAllowed. case_match; [|done].
  apply observe_inv. destruct Hinv. inv_solve.
Qed.

(** What [markRecovering] leaves: a producer that is closed or unavailable. *)
Lemma markRecovering_refuses p :
  producer_inv p → pr_closed (markRecovering p) = true ∨ pr_unavailable (markRecovering p) = true.
Proof.
  intros []. unfold markRecovering, producerRecoveryAllowed.
  destruct (pr_closed p) eqn:Hc; simpl; [by left|]. destruct (pr_recovering p) eqn:Hr; simpl; auto.
Qed.

Lemma failGeneration_inv p current : producer_inv p → producer_inv (failGeneration p current).
Proof.
  intros Hinv. unfold failGeneration. destruct current; [|done]. simpl.
  destruct (markRecovering_inv p Hinv). inv_solve.
Qed.

Lemma setBlocked_fields p active :
  pr_blocked (setBlocked p active) = active ∧
  (pr_blockedEvents p = [] ∨ pr_blockedEvents p = [pr_blocked p] →
   pr_blockedEvents (setBlocked p active) = [] ∨ pr_blockedEvents (setBlocked p active) = [active]).
Proof.
  unfold setBlocked, producerBlockedChanged. destruct (Bool.eqb (pr_blocked p) active) eqn:E; simpl.
  - apply Bool.eqb_prop in E. rewrite E. done.
  - destruct (pr_blockedEvents p) as [|b l] eqn:Hb; simpl; [by auto|].
    split; [by destruct l|]. intros [?|[= -> ->]]; [done|]. by right.
Qed.

Lemma setBlocked_inv p active : pr_events p ≠ EventsDone → producer_inv p → producer_inv (setBlocked p active).
Proof.
  intros He Hinv. pose proof (setBlocked_fields p active) as [Hb Hev].
  unfold setBlocked in *. destruct (negb (producerBlockedChanged _ _)); [done|].
  destruct (observe_inv p (observation ObservationConnectionBlocked
    (if active then ObservationBlocked else ObservationUnblocked)) Hinv).
  destruct (offerBlockedState _ _) as [[|] events] eqn:E1; simpl in *.
  - inv_solve.
  - destruct (takeBlockedState events) as [? events'] eqn:E2.
    destruct (offerBlockedState events' active) as [? events''] eqn:E3. simpl in *.
    inv_solve.
Qed.

Lemma finishRecovery_exhausted_inv p :
  pr_events p = EventsRecovering → producer_inv p →
  producer_inv (set_events (finishRecovery p false) EventsReturned).
Proof.
  intros He Hinv. pose proof (pi_in_recovery _ Hinv He) as Hor. pose proof (pi_terminal _ Hinv) as Ht0.
  assert (pr_terminal p = false) as Hnt.
  { destruct (pr_terminal p); [|done]. destruct (Ht0 eq_refl) as [_ [?|?]]; congruence. }
  assert (producer_inv (set_events (set_flags p (pr_closed p) (pr_unavailable p) false
    (pr_terminal p || producerRecoveryTerminal false (pr_closed p)) (pr_stopped p)) EventsReturned)) as Hinv'.
  { destruct Hinv. unfold producerRecoveryTerminal. inv_solve.
    - rewrite Hnt. simpl. destruct (pr_closed p); [done|]. intros _. split; [|by left]. by destruct Hor.
    - intros Hst. specialize (pi_stopped_events0 Hst). congruence.
    - rewrite pi_blocked_closed0, He. done. }
  unfold finishRecovery. destruct (producerRecoveryTerminal false (pr_closed p)); [|done].
  apply (observe_inv _ (observation ObservationConnectionState ObservationUnavailable)) in Hinv'.
  destruct Hinv'. inv_solve.
Qed.

Lemma finishRecovery_recovered_inv p :
  pr_events p = EventsInstalled → producer_inv p →
  producer_inv (set_events (finishRecovery p true) EventsRunning).
Proof.
  intros He Hinv. unfold finishRecovery. simpl.
  assert (producer_inv (set_flags p (pr_closed p) (pr_unavailable p) false (pr_terminal p || false) (pr_stopped p)))
    as Hinv' by (rewrite orb_false_r; destruct Hinv; inv_solve).
  apply (observe_inv _ (observation ObservationConnectionState ObservationRecovered)) in Hinv'.
  destruct Hinv'. simpl in *. rewrite He in *. inv_solve.
  - intros Ht. destruct (pi_terminal0 Ht) as [_ [?|?]]; done.
  - intros Hs. specialize (pi_stopped_events0 Hs). done.
  - rewrite pi_blocked_closed0. done.
Qed.

Lemma startShutdown_inv p : producer_inv p → producer_inv (startShutdown p).2.
Proof.
  intros Hinv. unfold startShutdown, producerDrainComplete.
  destruct (pr_shutdown p) eqn:Hs; try done. simpl.
  assert (pr_closed p = false) as Hc.
  { destruct (pr_closed p) eqn:Hc; [|done]. by apply (pi_closed _ Hinv) in Hc. }
  destruct (observe_inv p (observation ObservationShutdown ObservationShutdownStarted) Hinv).
  simpl in *. rewrite Hs, Hc in *. inv_solve.
  - by rewrite pi_drained0.
  - split; [intros H; apply pi_stopped0 in H|]; done.
  - rewrite pi_closing0. split; intros [?|?]; done.
Qed.

Lemma beginClosing_inv p : pr_shutdown p = ShutdownDraining → producer_inv p → producer_inv (beginClosing p).
Proof.
  intros Hs []. rewrite Hs in *. inv_solve.
  - rewrite pi_closed0. done.
  - rewrite pi_stopped0. done.
Qed.

Lemma endEvents_inv p : pr_events p = EventsReturned → producer_inv p → producer_inv (endEvents p).
Proof.
  intros He Hinv. pose proof (setBlocked_fields p false) as [Hb _].
  destruct (setBlocked_inv p false ltac:(congruence) Hinv). unfold endEvents. inv_solve.
Qed.

Lemma endShutdown_ok p :
  pr_shutdown p = ShutdownClosing → pr_events p = EventsDone → producer_inv p →
  ∃ p', endShutdown p = Some p' ∧ producer_inv p'.
Proof.
  intros Hs He Hinv. unfold endShutdown.
  set (q := set_flags p _ _ _ _ true).
  assert (pr_stopped p = false) as Hns.
  { destruct (pr_stopped p) eqn:E; [|done]. apply (pi_stopped _ Hinv) in E. congruence. }
  destruct (emit_quiet (pr_observations q) (observation ObservationShutdown ObservationShutdownCompleted))
    as (Hi & Hq & Hcl); [apply (pi_stream _ Hinv)|apply (pi_stream_quiet _ Hinv)|].
  assert (os_close (pr_observations q) = CloseIdle) as Hidle.
  { change (pr_observations q) with (pr_observations p). by rewrite (pi_stream_open _ Hinv), Hns. }
  rewrite Hidle in Hcl. simpl.
  destruct (close_steps _ Hcl Hi Hq) as (observations & Hclose & Hd1 & Hd2).
  change (pr_observations q) with (pr_observations p) in Hclose. rewrite Hclose.
  eexists. split; [done|]. apply close_runs in Hclose; [|done].
  assert (stream_inv observations) as Hinv'.
  { eapply (rtc_invariant obs_step stream_inv); [apply obs_step_inv|exact Hclose|done]. }
  destruct Hinv. rewrite Hs in *. inv_solve.
  rewrite pi_closed0. done.
Qed.

Lemma set_events_inv p phase :
  producer_inv p → phase ≠ EventsDone → pr_events p ≠ EventsDone → pr_terminal p = false →
  (phase = EventsRecovering → pr_closed p = true ∨ pr_unavailable p = true) →
  producer_inv (set_events p phase).
Proof.
  intros [] H1 H2 H3 H4. inv_solve.
Qed.

Lemma running_not_terminal p :
  producer_inv p → pr_events p ≠ EventsReturned → pr_events p ≠ EventsDone → pr_terminal p = false.
Proof.
  intros [] H1 H2. destruct (pr_terminal p); [|done]. destruct (pi_terminal0 eq_refl) as [_ [?|?]]; done.
Qed.

Lemma markRecovering_terminal p : pr_terminal (markRecovering p) = pr_terminal p.
Proof. unfold markRecovering. by case_match. Qed.

Lemma markRecovering_events p : pr_events (markRecovering p) = pr_events p.
Proof. unfold markRecovering. by case_match. Qed.

Lemma setBlocked_same p active :
  pr_events (setBlocked p active) = pr_events p ∧ pr_terminal (setBlocked p active) = pr_terminal p
  ∧ pr_closed (setBlocked p active) = pr_closed p ∧ pr_unavailable (setBlocked p active) = pr_unavailable p
  ∧ pr_active (setBlocked p active) = pr_active p.
Proof.
  unfold setBlocked. case_match; [done|]. destruct (offerBlockedState _ _) as [[|] events]; [done|].
  destruct (takeBlockedState events) as [? events']. by destruct (offerBlockedState events' active).
Qed.

Lemma installGeneration_inv p p' :
  pr_events p = EventsRecovering → installGeneration p = Some p' → producer_inv p →
  producer_inv (set_events p' EventsInstalled).
Proof.
  intros He Hi Hinv. unfold installGeneration in Hi. destruct (pr_closed p) eqn:Hc; [done|].
  injection Hi as <-. pose proof (running_not_terminal p Hinv ltac:(congruence) ltac:(congruence)) as Hnt.
  destruct Hinv. rewrite He, Hnt, Hc in *. inv_solve.
  - intros Hs. apply pi_stopped_events0 in Hs. done.
  - rewrite pi_blocked_closed0. done.
Qed.

Lemma producer_step_inv p p' : producer_step p p' → producer_inv p → producer_inv p'.
Proof.
  intros Hs Hinv. destruct Hs as [p o|p|p|p c|p b|p He|p He|p He|p He|p p' He Hi|p He|p He|p He Hsh|p He|p|p Hsh
    |p timer Hsh Hw|p err Hsh|p p' Hsh He Hx|p|p o observations Ho].
  - by apply observe_inv.
  - by apply admit_inv.
  - by apply release_inv.
  - by apply failGeneration_inv.
  - apply setBlocked_inv; [congruence|done].
  - destruct (setBlocked_same p false) as (E1 & E2 & E3 & E4 & _).
    apply set_events_inv; try done; rewrite ?E1, ?E2.
    + apply setBlocked_inv; [congruence|done].
    + congruence.
    + apply running_not_terminal; congruence || done.
  - pose proof (markRecovering_refuses p Hinv). apply set_events_inv; try done.
    + by apply markRecovering_inv.
    + rewrite markRecovering_events. congruence.
    + rewrite markRecovering_terminal. apply running_not_terminal; congruence || done.
  - destruct Hinv. rewrite He in *. inv_solve.
  - by apply observe_inv.
  - by eapply installGeneration_inv.
  - by apply finishRecovery_recovered_inv.
  - by apply finishRecovery_exhausted_inv.
  - apply set_events_inv; try done; [congruence|]. apply running_not_terminal; congruence || done.
  - by apply endEvents_inv.
  - by apply startShutdown_inv.
  - destruct Hinv. inv_solve.
  - by apply beginClosing_inv.
  - destruct Hinv. inv_solve.
  - destruct (endShutdown_ok p Hsh He Hinv) as (q & Hq & ?). congruence.
  - destruct Hinv. inv_solve. destruct pi_blocked0 as [-> | ->]; simpl; by left.
  - pose proof (obs_receive_inv _ _ _ Ho (pi_stream _ Hinv)).
    destruct Hinv. unfold obs_receive in Ho. destruct (os_channel _); [done|]. injection Ho as -> <-. inv_solve.
Qed.

Lemma producer_reachable_inv config p :
  0 <= MaxOutstanding config → rtc producer_step (newProducer config) p → producer_inv p.
Proof.
  intros Hc H. eapply (rtc_invariant producer_step producer_inv); [apply producer_step_inv|done|].
  by apply producer_inv_new.
Qed.

(** ** What callers can rely on *)

(** The steps that matter to admission: everything else leaves the fields alone. *)
Lemma producer_step_monotone p p' :
  producer_step p p' →
  pr_config p' = pr_config p ∧ (pr_closed p = true → pr_closed p' = true ∧ pr_active p' <= pr_active p)
  ∧ (pr_terminal p = true → pr_terminal p' = true).
Proof.
  intros Hs. destruct Hs as [p o|p|p|p c|p b|p He|p He|p He|p He|p p' He Hi|p He|p He|p He Hsh|p He|p|p Hsh
    |p timer Hsh Hw|p err Hsh|p p' Hsh He Hx|p|p o observations Ho]; simpl.
  - split_and!; intros; try done; lia.
  - unfold Producer_admit, nextProducerActive. repeat case_match; simpl; split_and!; intros; try done; lia.
  - unfold previousProducerActive. split_and!; [done|intros; split; [done|lia]|done].
  - unfold failGeneration, markRecovering. repeat case_match; simpl; split_and!; intros; try done; lia.
  - unfold setBlocked. repeat (case_match; simpl); split_and!; intros; try done; lia.
  - unfold setBlocked. repeat (case_match; simpl); split_and!; intros; try done; lia.
  - unfold markRecovering. repeat case_match; simpl; split_and!; intros; try done; lia.
  - split_and!; intros; try done; lia.
  - split_and!; intros; try done; lia.
  - unfold installGeneration in Hi. destruct (pr_closed p) eqn:Hc; [done|]. injection Hi as <-.
    simpl. split_and!; intros; done.
  - unfold finishRecovery. simpl. rewrite orb_false_r. split_and!; intros; try done; lia.
  - unfold finishRecovery. repeat case_match; simpl; split_and!; try done; intros; try lia;
      by apply orb_true_iff; left.
  - split_and!; intros; try done; lia.
  - unfold endEvents, setBlocked. repeat (case_match; simpl); split_and!; intros; try done; lia.
  - unfold startShutdown. repeat case_match; simpl; split_and!; intros; try done; lia.
  - split_and!; intros; try done; lia.
  - split_and!; intros; try done; lia.
  - split_and!; intros; try done; lia.
  - unfold endShutdown in Hx. repeat case_match; simplify_eq/=. split_and!; intros; try done; lia.
  - split_and!; intros; try done; lia.
  - split_and!; intros; try done; lia.
Qed.

Lemma producer_config_same config p : rtc producer_step (newProducer config) p → pr_config p = config.
Proof.
  intros H. eapply (rtc_invariant producer_step (λ p, pr_config p = config)) in H; [done| |done].
  intros x y Hs <-. by destruct (producer_step_monotone _ _ Hs).
Qed.

(** C29: whatever publishers, recovery and shutdown interleave, a producer never
    has more than its configured number of publications in flight (at most 4096),
    and its drain signal is given exactly when it is closed and none is left. *)
Theorem producer_admission_bounded config p :
  ProducerConfig_Validate config = None → rtc producer_step (newProducer config) p →
  0 <= pr_active p <= MaxOutstanding config ∧ MaxOutstanding config <= MaxOutstandingConfirms
  ∧ (pr_drained p = true ↔ pr_closed p = true ∧ pr_active p = 0).
Proof.
  unfold ProducerConfig_Validate, validProducerBounds. case_match; [done|]. intros _ Hr.
  breflect. pose proof (producer_config_same _ _ Hr) as Hc.
  apply producer_reachable_inv in Hr; [|lia]. destruct Hr. rewrite Hc in pi_active0.
  split_and!; try lia. rewrite pi_drained0, andb_true_iff, Z.eqb_eq. done.
Qed.

(** Once shutdown has begun no publication is ever admitted again, and the
    publications in flight only drain. *)
Theorem producer_closed_for_good p p' :
  pr_closed p = true → rtc producer_step p p' →
  pr_closed p' = true ∧ pr_active p' <= pr_active p ∧ (Producer_admit p').1 = Some ErrProducerClosed.
Proof.
  intros Hc Hr. assert (pr_closed p' = true ∧ pr_active p' <= pr_active p) as [Hc' Ha].
  { induction Hr as [|x y z Hs _ IH]; [split; [done|lia]|].
    destruct (producer_step_monotone _ _ Hs) as (_ & Hm & _). destruct (Hm Hc) as [Hy ?].
    destruct (IH Hy). split; [done|lia]. }
  split_and!; try done. unfold Producer_admit. by rewrite Hc'.
Qed.

(** Exhausted recovery is terminal: from then on the producer is failed,
    unavailable and refuses every publication, for good. *)
Theorem producer_terminal_for_good config p p' :
  0 <= MaxOutstanding config → rtc producer_step (newProducer config) p → pr_terminal p = true →
  rtc producer_step p p' →
  Producer_Liveness p' = LivenessFailed ∧ Producer_Readiness p' = ReadinessNotReady
  ∧ ((Producer_admit p').1 = Some ErrProducerClosed ∨ (Producer_admit p').1 = Some ErrProducerUnavailable).
Proof.
  intros Hc Hr Ht Hr'.
  assert (pr_terminal p' = true) as Ht'.
  { clear Hr. induction Hr' as [|x y z Hs _ IH]; [done|]. apply IH.
    by destruct (producer_step_monotone _ _ Hs) as (_ & _ & ?); auto. }
  assert (producer_inv p') as Hinv by (eapply producer_reachable_inv; [done|by etrans]).
  destruct (pi_terminal _ Hinv Ht') as [Hu _].
  unfold Producer_Liveness, Producer_Readiness, Producer_admit. rewrite Ht', Hu. simpl. rewrite !orb_true_r.
  split_and!; try done. destruct (pr_closed p'); auto.
Qed.

(** The three health reports agree: a producer is ready exactly when its
    dependency is available; a ready producer is live, and a publication it is
    offered can only be refused for lack of capacity. *)
Theorem producer_health_coherent config p :
  0 <= MaxOutstanding config → rtc producer_step (newProducer config) p →
  (Producer_Readiness p = ReadinessReady ↔ Producer_DependencyHealth p = DependencyAvailable)
  ∧ (Producer_Readiness p = ReadinessReady → Producer_Liveness p = LivenessLive
     ∧ ((Producer_admit p).1 = None ∨ (Producer_admit p).1 = Some ErrOutstandingConfirmLimit)).
Proof.
  intros Hc Hr. apply producer_reachable_inv in Hr; [|done]. destruct Hr.
  assert (pr_stopped p = true → pr_closed p = true) as Hsc.
  { intros Hs. apply pi_stopped0 in Hs. apply pi_closed0. by rewrite Hs. }
  unfold Producer_Readiness, Producer_DependencyHealth, Producer_Liveness, Producer_admit.
  destruct (pr_closed p), (pr_unavailable p), (pr_recovering p), (pr_blocked p), (pr_terminal p), (pr_stopped p);
    simpl; try done; try (by specialize (Hsc eq_refl)).
  split; [done|]. intros _. split; [done|]. destruct (negb _); auto.
Qed.

(** Blocking notifications are coalesced, never stale: the channel holds at
    most one notification, it is always the current state, and once the event
    goroutine has ended the state is unblocked. *)
Theorem producer_blocked_coalesced config p active :
  0 <= MaxOutstanding config → rtc producer_step (newProducer config) p →
  (∀ state, (takeBlockedState (pr_blockedEvents p)).1 = Some state → state = IsBlocked p)
  ∧ (takeBlockedState (takeBlockedState (pr_blockedEvents p)).2).1 = None
  ∧ (pr_events p = EventsDone → IsBlocked p = false)
  ∧ (IsBlocked p ≠ active → (takeBlockedState (pr_blockedEvents (setBlocked p active))).1 = Some active).
Proof.
  intros Hc Hr. apply producer_reachable_inv in Hr; [|done]. destruct Hr. unfold IsBlocked.
  split_and!.
  - intros state. destruct pi_blocked0 as [-> | ->]; simpl; congruence.
  - by destruct pi_blocked0 as [-> | ->].
  - done.
  - intros Hne. unfold setBlocked, producerBlockedChanged.
    destruct (Bool.eqb (pr_blocked p) active) eqn:E; [by apply Bool.eqb_prop in E|]. simpl.
    by destruct pi_blocked0 as [-> | ->].
Qed.

(** The last part of shutdown always completes: when the event goroutine has
    ended, the producer becomes stopped, its observation stream is closed behind
    its terminal event without blocking, and it is never ready again. *)
Theorem producer_shutdown_completes config p :
  0 <= MaxOutstanding config → rtc producer_step (newProducer config) p →
  pr_shutdown p = ShutdownClosing → pr_events p = EventsDone →
  ∃ p', endShutdown p = Some p' ∧ pr_stopped p' = true ∧ os_close (pr_observations p') = CloseDone
  ∧ (∃ l t, os_read (pr_observations p') ++ os_channel (pr_observations p') = l ++ [t] ∧ is_terminal t)
  ∧ Producer_Readiness p' = ReadinessNotReady.
Proof.
  intros Hc Hr Hs He. apply producer_reachable_inv in Hr; [|done].
  destruct (endShutdown_ok p Hs He Hr) as (p' & Hp' & Hinv).
  exists p'. split; [done|].
  assert (pr_stopped p' = true) as Hst.
  { unfold endShutdown in Hp'. case_match; [|done]. by injection Hp' as <-. }
  destruct Hinv. rewrite Hst in pi_stream_open0. destruct pi_stream0. rewrite pi_stream_open0 in si_terminal.
  split_and!; try done. apply pi_stopped0 in Hst. unfold Producer_Readiness.
  rewrite (proj2 pi_closed0) by congruence. done.
Qed.

(** ** Concrete runs *)

Definition example_producer_config : ProducerConfig := mkProducerConfig DefaultLimits 2 Second.

(** Two admitted publications, then shutdown begins. *)
Definition example_draining : Producer :=
  (startShutdown (Producer_admit (Producer_admit (newProducer example_producer_config)).2).2).2.

Lemma example_draining_reachable : rtc producer_step (newProducer example_producer_config) example_draining.
Proof.
  eapply rtc_l; [apply ps_admit|]. eapply rtc_l; [apply ps_admit|].
  apply rtc_once, ps_start_shutdown.
Qed.

Lemma producer_admission_bounded_witness :
  0 <= pr_active example_draining <= 2 ∧ pr_drained example_draining = false.
Proof.
  destruct (producer_admission_bounded example_producer_config example_draining)
    as (? & _ & _); [by vm_compute | apply example_draining_reachable |].
  split; [done|reflexivity].
Defined.

Lemma producer_closed_for_good_witness :
  (Producer_admit (release (release example_draining))).1 = Some ErrProducerClosed
  ∧ pr_drained (release (release example_draining)) = true.
Proof.
  split; [|by vm_compute].
  apply (producer_closed_for_good example_draining); [by vm_compute|].
  eapply rtc_l; [by apply ps_release|]. by apply rtc_once, ps_release.
Defined.

(** A generation ends and recovery is exhausted. *)
Definition example_failed : Producer :=
  set_events (finishRecovery (set_events (markRecovering (set_events
    (setBlocked (newProducer example_producer_config) false) EventsEnding)) EventsRecovering) false) EventsReturned.

Lemma example_failed_reachable : rtc producer_step (newProducer example_producer_config) example_failed.
Proof.
  eapply rtc_l; [by apply ps_generation_end|]. eapply rtc_l; [by apply ps_mark|].
  by apply rtc_once, ps_exhausted.
Qed.

Lemma producer_terminal_for_good_witness :
  Producer_Liveness example_failed = LivenessFailed.
Proof.
  apply (producer_terminal_for_good example_producer_config example_failed example_failed);
    [by vm_compute | apply example_failed_reachable | reflexivity | apply rtc_refl].
Defined.

Lemma producer_health_coherent_witness :
  Producer_Liveness (newProducer example_producer_config) = LivenessLive.
Proof.
  apply (producer_health_coherent example_producer_config); [by vm_compute | apply rtc_refl | reflexivity].
Defined.

Lemma producer_blocked_coalesced_witness :
  (takeBlockedState (pr_blockedEvents (setBlocked (setBlocked (newProducer example_producer_config) true) false))).1
  = Some false.
Proof.
  apply (producer_blocked_coalesced example_producer_config); [by vm_compute | | by vm_compute].
  by apply rtc_once, ps_blocked.
Defined.

(** Shutdown of an idle producer up to the end of its event goroutine. *)
Definition example_closing : Producer :=
  endEvents (set_events (closeOwnedResources (beginClosing
    (startShutdown (newProducer example_producer_config)).2) None) EventsReturned).

Lemma example_closing_reachable : rtc producer_step (newProducer example_producer_config) example_closing.
Proof.
  eapply rtc_l; [apply ps_start_shutdown|]. eapply rtc_l; [by apply (ps_begin_closing _ false)|].
  eapply rtc_l; [by apply (ps_close_resources _ None)|]. eapply rtc_l; [by apply ps_stop_events|].
  by apply rtc_once, ps_end_events.
Qed.

Lemma producer_shutdown_completes_witness :
  ∃ p', endShutdown example_closing = Some p' ∧ pr_stopped p' = true.
Proof.
  destruct (producer_shutdown_completes example_producer_config example_closing)
    as (p' & H & Hs & _); [by vm_compute | apply example_closing_reachable | reflexivity | reflexivity |].
  by exists p'.
Defined.
