(* ===== verification/Publish.v ===== *)
(** * Publish: one publication from admission to its outcome

    The publishing path of producer.go: [Publish], [PublishAsync],
    [PublishBatch], [publishAdmitted] and the functions that turn the tracker's
    outcome, a client error or a cancellation into the caller's result.

    A publishing goroutine shares the producer and the tracker of its generation
    with others.  [publishAdmitted] follows the code line by line; at every
    numbered point where other goroutines can run it applies an interference
    function to the shared state.  The theorems hold for every interference made
    of steps of the other goroutines ([others]), which may use this goroutine's
    sequence number too.  What the context, the client's
    send and the waits do is in a script, one entry per point of the code that
    observes them. *)

From S2P Require Import Prelude GoText Errors Config Amqp Message Tracker Observation Producer.
Import PublishTracker.

(** The shared state, the attempt this goroutine holds and what it handed to the
    client library. *)
Record world := mkWorld {
  w_producer : Producer;
  w_tracker : publishTracker;
  w_current : bool;
  w_attempt : option nat;
  w_sent : list (string * string * bool * Publishing) }.

Definition set_tracker (w : world) (t : publishTracker) : world :=
  mkWorld (w_producer w) t (w_current w) (w_attempt w) (w_sent w).
Definition set_producer (w : world) (p : Producer) : world :=
  mkWorld p (w_tracker w) (w_current w) (w_attempt w) (w_sent w).

Definition publishResultError (result : PublishResult) : option error :=
  if Result_State result =s PublishConfirmed then None
  else if Result_State result =s PublishReturned then Some ErrPublishReturned
  else if Result_State result =s PublishRejected then Some ErrPublishRejected
  else if Result_State result =s PublishAmbiguous then Some ErrPublishAmbiguous
  else Some ErrProducerUnavailable.

Definition isPreflightCancellation (err contextErr : option error) : bool :=
  match contextErr with Some contextErr => IsOpt err contextErr | None => false end.

Definition publishFailureRequiresRecovery (err : option error) (preflightCancellation : bool) : bool :=
  present err && negb preflightCancellation.

(** A receive from a closed and drained channel yields the zero result. *)
Definition received_result (r : option PublishResult) : PublishResult :=
  default (mkPublishResult EmptyString None) r.

(** What ends the client's send: its own return, or the context while the send is
    still running. *)
Inductive send_event :=
| SendReturned (err : option error)
| SendTimedOut (contextErr : error).

(** What ends the second [select] of [waitForOutcome]. *)
Inductive wait_event :=
| WaitOutcome
| WaitContext (contextErr : error).

Record script := mkScript {
  sc_preflight : option error;   (** the context at the first [select] *)
  sc_lock : option error;        (** [LockContext] *)
  sc_sequence : Z;               (** [channel.GetNextPublishSeqNo()] *)
  sc_send : send_event;
  sc_context : option error;     (** [publishContext.Err()] after the send *)
  sc_wait : wait_event;
  sc_latency : Z }.

Definition notSent : PublishResult := mkPublishResult PublishNotSent None.

Definition shouldObserveConfirmationLatency (started : bool) (state : PublishState) : bool :=
  return_if negb started, false ;;
  (state =s PublishConfirmed) || (state =s PublishRejected) || (state =s PublishReturned).

Definition observePublish (p : Producer) (result : PublishResult) (started : bool) (latency : Z) : Producer :=
  let outcome := publishObservationOutcome (Result_State result) in
  let p := observe p (observation ObservationPublish outcome) in
  let p := if Result_State result =s PublishAmbiguous
           then observe p (observation ObservationAmbiguous ObservationAmbiguousOutcome) else p in
  return_if negb (shouldObserveConfirmationLatency started (Result_State result)), p ;;
  observe p (mkObservation EmptyString ObservationConfirmationLatency outcome latency 0).

Section Publishing.
Context (interfere : nat → world → world).

(** [completePublishError]; [None] blocks or panics. *)
Definition completePublishError (w : world) (p : nat) (sequence : Z) (state : PublishState)
    (err : option error) : option (PublishResult * option error * world) :=
  match abandon (w_tracker w) sequence state with
  | None => None
  | Some (true, t) => Some (mkPublishResult state None, err, set_tracker w t)
  | Some (false, t) =>
    let w := interfere 10 (set_tracker w t) in
    match receive (w_tracker w) p with
    | None => None
    | Some (r, t) =>
      let result := received_result r in
      return_if Result_State result =s state, Some (result, err, set_tracker w t) ;;
      Some (result, publishResultError result, set_tracker w t)
    end
  end.

Definition outcomeOrCancellation (w : world) (p : nat) (sequence : Z) (contextErr : error)
    : option (PublishResult * option error * world) :=
  match receive (w_tracker w) p with
  | Some (r, t) => let result := received_result r in Some (result, publishResultError result, set_tracker w t)
  | None =>
    let w := interfere 11 w in
    match abandon (w_tracker w) sequence PublishAmbiguous with
    | None => None
    | Some (true, t) =>
      Some (mkPublishResult PublishAmbiguous None, Join (Some ErrPublishAmbiguous) (Some contextErr),
            set_tracker w t)
    | Some (false, t) =>
      let w := interfere 12 (set_tracker w t) in
      match receive (w_tracker w) p with
      | None => None
      | Some (r, t) => let result := received_result r in Some (result, publishResultError result, set_tracker w t)
      end
    end
  end.

Definition waitForOutcome (w : world) (p : nat) (sequence : Z) (wait : wait_event)
    : option (PublishResult * option error * world) :=
  match receive (w_tracker w) p with
  | Some (r, t) => let result := received_result r in Some (result, publishResultError result, set_tracker w t)
  | None =>
    let w := interfere 13 w in
    match wait with
    | WaitOutcome =>
      match receive (w_tracker w) p with
      | Some (r, t) => let result := received_result r in Some (result, publishResultError result, set_tracker w t)
      | None => None
      end
    | WaitContext contextErr => outcomeOrCancellation w p sequence contextErr
    end
  end.

(** The body of [publishAdmitted] from the send on. *)
Definition publishSent (script : script) (w : world) (p : nat) (sequence : Z)
    : option (PublishResult * option error * world) :=
  let '(err, transmissionTimeout, w) :=
    match sc_send script with
    | SendReturned err => (err, None, w)
    | SendTimedOut contextErr =>
      (None, Some contextErr, set_producer w (failGeneration (w_producer w) (w_current w)))
    end in
  let contextErr := sc_context script in
  let preflightCancellation := isPreflightCancellation err contextErr in
  let w := if publishFailureRequiresRecovery err preflightCancellation
           then set_producer w (failGeneration (w_producer w) (w_current w)) else w in
  let w := interfere 5 w in
  match err with
  | Some _ =>
    if preflightCancellation then
      match abandon (w_tracker w) sequence PublishNotSent with
      | None => None
      | Some (_, t) => Some (notSent, contextErr, set_tracker w t)
      end
    else completePublishError w p sequence PublishAmbiguous (Some ErrPublishAmbiguous)
  | None =>
    match transmissionTimeout with
    | Some timeout =>
      completePublishError w p sequence PublishAmbiguous (Join (Some ErrPublishAmbiguous) (Some timeout))
    | None => waitForOutcome w p sequence (sc_wait script)
    end
  end.

(** The body of [publishAdmitted] before its deferred observation, with whether
    the send began. *)
Definition publishAttempted (script : script) (session : string) (publication : Publication) (w : world)
    : option (PublishResult * option error * bool * world) :=
  match sc_preflight script with
  | Some err => Some (notSent, Some err, false, w)
  | None =>
    let w := interfere 0 w in
    match sc_lock script with
    | Some err => Some (notSent, Some err, false, w)
    | None =>
      return_if isShutdownClosing (w_producer w), Some (notSent, Some ErrProducerClosed, false, w) ;;
      let w := interfere 1 w in
      return_if isUnavailable (w_producer w), Some (notSent, Some ErrProducerUnavailable, false, w) ;;
      let w := interfere 2 w in
      let sequence := sc_sequence script in
      let token := publish_token session sequence in
      match register (w_tracker w) sequence token (Publication_Exchange publication)
              (Publication_RoutingKey publication) with
      | (inl err, t) => Some (notSent, Some err, false, set_tracker w t)
      | (inr p, t) =>
        let w := interfere 3 (mkWorld (w_producer w) t (w_current w) (Some p) (w_sent w)) in
        if isShutdownClosing (w_producer w) then
          match abandon (w_tracker w) sequence PublishNotSent with
          | None => None
          | Some (_, t) => Some (notSent, Some ErrProducerClosed, false, set_tracker w t)
          end
        else
          let message := (Publication_Exchange publication, Publication_RoutingKey publication,
                          Mandatory publication,
                          amqpPublishing (Publication_Message publication)
                            (Publication_DeliveryMode publication) token) in
          let w := interfere 4 (mkWorld (w_producer w) (w_tracker w) (w_current w) (w_attempt w)
                                  (w_sent w ++ [message])) in
          match publishSent script w p sequence with
          | None => None
          | Some (result, err, w) => Some (result, err, true, w)
          end
      end
    end
  end.

Definition publishAdmitted (script : script) (session : string) (publication : Publication) (w : world)
    : option (PublishResult * option error * world) :=
  match publishAttempted script session publication w with
  | None => None
  | Some (result, err, started, w) =>
    Some (result, err, set_producer w (observePublish (w_producer w) result started (sc_latency script)))
  end.

(** [Publish]: [ctx] tells whether a context was supplied. *)
Definition Publish (ctx : bool) (script : script) (session : string) (publication : Publication) (w : world)
    : option (PublishResult * option error * world) :=
  return_if negb ctx, Some (notSent, Some ErrContextRequired, w) ;;
  match Publication_Validate publication (Producer_Limits (pr_config (w_producer w))) with
  | Some err => Some (notSent, Some err, w)
  | None =>
    match Producer_admit (w_producer w) with
    | (Some err, p) => Some (notSent, Some err, set_producer w p)
    | (None, p) =>
      let w := interfere 20 (set_producer w p) in
      match publishAdmitted script session (ownPublication publication) w with
      | None => None
      | Some (result, err, w) => Some (result, err, set_producer w (release (w_producer w)))
      end
    end
  end.

(** [PublishAsync] with the goroutine it starts: the error of the call, or the
    one outcome of the future. *)
Definition PublishAsync (ctx : bool) (ctxErr : option error) (script : script) (session : string)
    (publication : Publication) (w : world) : option ((error + PublishOutcome) * world) :=
  return_if negb ctx, Some (inl ErrContextRequired, w) ;;
  match Publication_Validate publication (Producer_Limits (pr_config (w_producer w))) with
  | Some err => Some (inl err, w)
  | None =>
    match ctxErr with
    | Some err => Some (inl err, w)
    | None =>
      match Producer_admit (w_producer w) with
      | (Some err, p) => Some (inl err, set_producer w p)
      | (None, p) =>
        let w := interfere 20 (set_producer w p) in
        match publishAdmitted script session (ownPublication publication) w with
        | None => None
        | Some (result, err, w) =>
          Some (inr (mkPublishOutcome result err), set_producer w (release (w_producer w)))
        end
      end
    end
  end.

(** The sequential loop of [PublishBatch], one script per item. *)
Fixpoint publishEach (session : string) (items : list (script * Publication)) (w : world)
    : option (list PublishOutcome * world) :=
  match items with
  | [] => Some ([], w)
  | (script, publication) :: items =>
    match Publish true script session publication w with
    | None => None
    | Some (result, err, w) =>
      match publishEach session items (interfere 21 w) with
      | None => None
      | Some (outcomes, w) => Some (mkPublishOutcome result err :: outcomes, w)
      end
    end
  end.

(** The prevalidation loop of [PublishBatch]. *)
Fixpoint validateEach (limits : Limits) (publications : list Publication) : option error :=
  match publications with
  | [] => None
  | publication :: publications =>
    match Publication_Validate publication limits with
    | Some err => Join (Some ErrInvalidBatch) (Some err)
    | None => validateEach limits publications
    end
  end.

Definition PublishBatch (ctx : bool) (ctxErr : option error) (session : string)
    (items : list (script * Publication)) (w : world) : option ((error + list PublishOutcome) * world) :=
  return_if negb ctx, Some (inl ErrContextRequired, w) ;;
  return_if negb (validPublishBatchSize (llen items)), Some (inl ErrInvalidBatch, w) ;;
  match ctxErr with
  | Some err => Some (inl err, w)
  | None =>
    match validateEach (Producer_Limits (pr_config (w_producer w))) (map snd items) with
    | Some err => Some (inl err, w)
    | None =>
      match publishEach session items w with
      | None => None
      | Some (outcomes, w) => Some (inr outcomes, w)
      end
    end
  end.
End Publishing.

(** ** The other goroutines *)

(** What other goroutines do to the tracker while this one holds attempt [p] of
    sequence [s].  They register, confirm, return and abandon under any number,
    the one of this goroutine included, and receive their own attempts only.
    [late] says whether one of them may end the number [s] as [not_sent]: a
    publisher that gave up before the client took its message abandons its number
    after it released the publishing mutex, when the client may have given the
    same number to the next publisher. *)
Definition other_op (late : bool) (p : nat) (s : Z) (o : op) : Prop :=
  match o with
  | ORegister _ _ _ _ | OReturned _ _ | OConfirm _ _ => True
  | OAbandon s' state => late = true ∨ s' ≠ s ∨ state ≠ PublishNotSent
  | OFailAll state _ => late = true ∨ state ≠ PublishNotSent
  | OReceive q => q ≠ p
  end.

Inductive other_step (late : bool) (s : Z) : relation world :=
| other_producer w p' :
    producer_step (w_producer w) p' → other_step late s w (set_producer w p')
| other_tracker w o r t' :
    match w_attempt w with Some p => other_op late p s o | None => True end →
    enabled (w_tracker w) o → exec (w_tracker w) o = Some (r, t') → other_step late s w (set_tracker w t')
| other_generation w :
    other_step late s w (mkWorld (w_producer w) (w_tracker w) false (w_attempt w) (w_sent w)).

(** [others true s]: every behaviour of the other goroutines.  [others false s]:
    those in which none of them ends number [s] as [not_sent]. *)
Definition others (late : bool) (s : Z) (interfere : nat → world → world) : Prop :=
  ∀ n w, rtc (other_step late s) w (interfere n w).

(** The outcomes other goroutines can give an attempt. *)
Definition foreign_outcome (late : bool) (r : PublishResult) : Prop :=
  PublishResult_Valid r = true ∧ (late = true ∨ Result_State r ≠ PublishNotSent).

(** The attempt this goroutine holds: pending, or done with an outcome it has not
    received. *)
Definition owned (late : bool) (m : table) (p : nat) (s : Z) : Prop :=
  ∃ a, m !! p = Some a ∧ aa_sequence a = s
  ∧ (is_pending a ∨ ∃ r, aa_status a = Done r ∧ foreign_outcome late r).

Lemma classify_foreign late ret ack : foreign_outcome late (classify ret ack).
Proof. split; [by destruct ret, ack|right; by destruct ret, ack]. Qed.

Lemma abandoned_foreign late state :
  abandonablePublishState state = true → late = true ∨ state ≠ PublishNotSent →
  foreign_outcome late (mkPublishResult state None).
Proof. intros Ha Hs. split; [by apply abandon_result_valid|done]. Qed.

Lemma owned_insert_other late m p s q a : owned late m p s → q ≠ p → owned late (<[q := a]> m) p s.
Proof. intros (a1 & Hp & H) Hne. exists a1. by rewrite lookup_insert_ne. Qed.

(** The attempt itself, completed by somebody else. *)
Lemma owned_insert_done late m p s a r :
  owned late m p s → m !! p = Some a → foreign_outcome late r →
  owned late (<[p := set_status a (Done r)]> m) p s.
Proof.
  intros (a1 & Hp & Hs & _) Ha Hr. rewrite Hp in Ha. injection Ha as ->.
  exists (set_status a (Done r)). rewrite lookup_insert_eq. split_and!; [done..|]. right. by exists r.
Qed.

Lemma owned_insert_pending late m p s a ret' :
  owned late m p s → m !! p = Some a → owned late (<[p := set_status a (Pending ret')]> m) p s.
Proof.
  intros (a1 & Hp & Hs & _) Ha. rewrite Hp in Ha. injection Ha as ->.
  exists (set_status a (Pending ret')). rewrite lookup_insert_eq. split_and!; [done..|]. by left.
Qed.

Lemma spec_step_owned late maximum m o r m' p s :
  spec_step maximum m o r m' → other_op late p s o → owned late m p s → owned late m' p s.
Proof.
  intros Hs Ho Hown. destruct Hs as [s' t ex rt q Ha Hn Hq| | |t ret q a ret0 Hq Hst Ht| |s' ack q a ret Hq Hst Hseq|
    |s' st q a ret Hab Hq Hst Hseq| |st order Hab| |q a result Hq Hst| ]; try done; simpl in Ho.
  - destruct Hown as (a1 & Hp & H). apply owned_insert_other; [by exists a1|congruence].
  - destruct (decide (q = p)) as [->|Hne]; [by apply owned_insert_pending|by apply owned_insert_other].
  - destruct (decide (q = p)) as [->|Hne]; [|by apply owned_insert_other].
    apply owned_insert_done; auto using classify_foreign.
  - destruct (decide (q = p)) as [->|Hne]; [|by apply owned_insert_other].
    apply owned_insert_done; [done..|]. apply abandoned_foreign; [done|].
    destruct Hown as (a1 & Hp & Hs & _). simplify_eq. tauto.
  - destruct Hown as (a1 & Hp & Hs & Hst). unfold owned. setoid_rewrite lookup_fmap. rewrite Hp. simpl.
    eexists. split; [done|]. destruct (decide (is_pending a1)); simpl; [|tauto].
    split; [done|]. right. eexists. split; [done|by apply abandoned_foreign].
  - by apply owned_insert_other.
Qed.

(** An outcome sent by somebody else stays until this goroutine receives it. *)
Definition settled_as (m : table) (p : nat) (r : PublishResult) : Prop :=
  ∃ a, m !! p = Some a ∧ aa_status a = Done r.

Lemma spec_step_settled late maximum m o out m' p s r :
  spec_step maximum m o out m' → other_op late p s o → settled_as m p r → settled_as m' p r.
Proof.
  intros Hs Ho (a0 & Hp & Hr). destruct Hs as [s' t ex rt q Ha Hn Hq| | |t ret q a ret0 Hq Hst Ht|
    |s' ack q a ret Hq Hst Hseq| |s' st q a ret Hab Hq Hst Hseq| |st order Hab| |q a result Hq Hst| ];
    try (by exists a0); simpl in Ho.
  1-4, 6: exists a0; split; [rewrite lookup_insert_ne; congruence|done].
  unfold settled_as. setoid_rewrite lookup_fmap. rewrite Hp. simpl. eexists. split; [done|].
  destruct (decide (is_pending a0)) as [Hip|]; [|done]. unfold is_pending in Hip. by rewrite Hr in Hip.
Qed.

(** What this goroutine can do with an attempt it owns. *)
Inductive owned_view (late : bool) (t : publishTracker) (p : nat) (s : Z) : Prop :=
| view_pending a :
    tr_heap t !! p = Some a → pending a → tr_sequence t !! s = Some p → receive t p = None →
    owned_view late t p s
| view_done r t' :
    foreign_outcome late r → settled_as (abs t) p r → receive t p = Some (Some r, t') → owned_view late t p s.

Lemma owned_cases late t p s : wf t → owned late (abs t) p s → owned_view late t p s.
Proof.
  intros Hwf (a & Hp & Hs & Hst). apply abs_Some in Hp as (c & Hc & ->). simpl in Hs.
  destruct (wf_attempt _ Hwf p c Hc) as [Hpend|(b & Hb & Hl & _)].
  - apply (view_pending _ _ _ _ c); try done; [apply (wf_sequence _ Hwf); by exists c|].
    unfold receive. by rewrite Hc, Hpend.
  - assert (¬ pending c) as Hnp by (unfold pending; by rewrite Hb).
    destruct Hst as [Hip|(r & Hr & Hbr)]; [by apply (abs_pending _ Hwf p c Hc) in Hip|].
    unfold abs_attempt in Hr. rewrite Hb in Hr. simpl in Hr. destruct b as [|r' b]; [done|].
    injection Hr as ->. destruct b; [|simpl in Hl; lia].
    destruct (receive_eq t p c Hwf Hc Hnp) as (b' & Hb' & Hrec). rewrite Hb in Hb'. injection Hb' as <-.
    eapply (view_done _ _ _ _ r); [done| |exact Hrec].
    exists (abs_attempt c). split; [by apply abs_lookup|]. unfold abs_attempt. by rewrite Hb.
Qed.

Record good (late : bool) (w : world) (p : nat) (s : Z) : Prop := {
  good_wf : wf (w_tracker w);
  good_owned : owned late (abs (w_tracker w)) p s;
  good_attempt : w_attempt w = Some p }.

Lemma other_step_wf late s w w' : other_step late s w w' → wf (w_tracker w) → wf (w_tracker w').
Proof. intros Hs Hwf. destruct Hs; simpl; try done. by eapply exec_wf. Qed.

Lemma other_step_good late s w w' p : other_step late s w w' → good late w p s → good late w' p s.
Proof.
  intros Hs [Hwf Hown Ha]. destruct Hs as [| w o r t' Ho He Hx|]; split; simpl in *; try done.
  - by eapply exec_wf.
  - rewrite Ha in Ho. eapply spec_step_owned; [by eapply exec_refines|done|done].
Qed.

Lemma other_step_settled late s w w' p r :
  other_step late s w w' → good late w p s → settled_as (abs (w_tracker w)) p r →
  settled_as (abs (w_tracker w')) p r.
Proof.
  intros Hs [Hwf Hown Ha] Hr. destruct Hs as [| w o out t' Ho He Hx|]; simpl in *; try done.
  rewrite Ha in Ho. eapply spec_step_settled; [by eapply exec_refines|done|done].
Qed.

Lemma other_step_ghost late s w w' :
  other_step late s w w' → w_attempt w' = w_attempt w ∧ w_sent w' = w_sent w.
Proof. by destruct 1. Qed.

Section Interference.
Context (late : bool) (s : Z) (interfere : nat → world → world) (Hothers : others late s interfere).

Lemma interfere_wf n w : wf (w_tracker w) → wf (w_tracker (interfere n w)).
Proof using Hothers. intros H. pose proof (Hothers n w) as Hr. induction Hr; eauto using other_step_wf. Qed.

Lemma interfere_good n w p : good late w p s → good late (interfere n w) p s.
Proof using Hothers. intros H. pose proof (Hothers n w) as Hr. induction Hr; eauto using other_step_good. Qed.

Lemma interfere_settled n w p r :
  good late w p s → settled_as (abs (w_tracker w)) p r → settled_as (abs (w_tracker (interfere n w))) p r.
Proof using Hothers.
  intros Hg Hr. pose proof (Hothers n w) as Hrun.
  induction Hrun; eauto using other_step_good, other_step_settled.
Qed.

Lemma interfere_ghost n w :
  w_attempt (interfere n w) = w_attempt w ∧ w_sent (interfere n w) = w_sent w.
Proof using Hothers.
  pose proof (Hothers n w) as Hr. induction Hr as [|x y z Hs _ [IH1 IH2]]; [done|].
  destruct (other_step_ghost _ _ _ _ Hs). split; congruence.
Qed.

Lemma interfere_sent n w : w_sent (interfere n w) = w_sent w.
Proof using Hothers. apply interfere_ghost. Qed.

(** A result that fits its error. *)
Definition publish_consistent (r : PublishResult) (err : option error) : Prop :=
  PublishResult_Valid r = true
  ∧ (Result_State r = PublishConfirmed ↔ err = None)
  ∧ (Result_State r = PublishReturned → err = Some ErrPublishReturned)
  ∧ (Result_State r = PublishRejected → err = Some ErrPublishRejected)
  ∧ (Result_State r = PublishAmbiguous → IsOpt err ErrPublishAmbiguous = true).

Lemma foreign_consistent r : foreign_outcome late r → publish_consistent r (publishResultError r).
Proof using.
  intros [Hv Hn]. split; [done|]. unfold publishResultError.
  unfold PublishResult_Valid, PublishState_Valid in Hv.
  destruct (String.eqb_spec (Result_State r) PublishConfirmed) as [->|H1]; [done|].
  destruct (String.eqb_spec (Result_State r) PublishReturned) as [->|H2]; [done|].
  destruct (String.eqb_spec (Result_State r) PublishRejected) as [->|H3]; [done|].
  destruct (String.eqb_spec (Result_State r) PublishAmbiguous) as [->|H4]; [done|].
  split_and!; done.
Qed.

Lemma ambiguous_consistent r err :
  PublishResult_Valid r = true → Result_State r = PublishAmbiguous →
  IsOpt err ErrPublishAmbiguous = true → publish_consistent r err.
Proof using. intros Hv Hs Herr. unfold publish_consistent. rewrite Hs. split_and!; try done. by destruct err. Qed.

Lemma notSent_consistent err : publish_consistent notSent (Some err).
Proof using. split_and!; done. Qed.

(** What every completion of an owned attempt guarantees. *)
Definition settled (w : world) (x : option (PublishResult * option error * world)) : Prop :=
  ∃ r err w', x = Some (r, err, w') ∧ publish_consistent r err
  ∧ (late = true ∨ Result_State r ≠ PublishNotSent) ∧ w_sent w' = w_sent w ∧ wf (w_tracker w').

Lemma receive_wf t p r t' : wf t → receive t p = Some (r, t') → wf t'.
Proof using.
  intros Hwf Hr. apply (exec_wf t (OReceive p) (RResult r)); [| |done].
  - simpl. unfold receive in Hr. destruct (tr_heap t !! p); [by eexists|done].
  - simpl. by rewrite Hr.
Qed.

Lemma abandon_wf t s' state b t' : wf t → abandon t s' state = Some (b, t') → wf t'.
Proof using.
  intros Hwf Ha. apply (exec_wf t (OAbandon s' state) (RBool b)); [done| |done]. simpl. by rewrite Ha.
Qed.

Lemma settled_foreign w w' p r t :
  foreign_outcome late r → w_sent w' = w_sent w → wf (w_tracker w') →
  receive (w_tracker w') p = Some (Some r, t) →
  settled w (Some (r, publishResultError r, set_tracker w' t)).
Proof using.
  intros Hr Hs Hwf Hrec. do 3 eexists. split; [done|].
  split_and!; [by apply foreign_consistent|apply Hr|done|by eapply receive_wf].
Qed.

(** Giving the number up as ambiguous: either nobody is registered under it, or
    whoever is gets that outcome; afterwards no confirmation finds the number. *)
Lemma abandon_ambiguous t :
  wf t →
  abandon t s PublishAmbiguous = Some (false, t)
  ∨ ∃ t', abandon t s PublishAmbiguous = Some (true, t') ∧ wf t'
          ∧ ∀ ack, confirm t' s ack = Some (false, t').
Proof using.
  intros Hwf. destruct (tr_sequence t !! s) as [q|] eqn:Hs.
  - right. destruct (proj1 (wf_sequence _ Hwf s q) Hs) as (a & Hq & Hseq & _).
    pose proof (abandon_eq _ _ _ _ PublishAmbiguous Hwf eq_refl Hs Hq) as Hab. eexists. split; [exact Hab|].
    split; [by eapply abandon_wf, Hab|]. intros ack. unfold confirm, completed. simpl.
    by rewrite Hseq, lookup_delete_eq.
  - left. unfold abandon. by rewrite Hs.
Qed.

(** An owned attempt that is done yields its outcome whenever it is received. *)
Lemma receive_settled w p r :
  good late w p s → settled_as (abs (w_tracker w)) p r →
  foreign_outcome late r ∧ ∃ t, receive (w_tracker w) p = Some (Some r, t).
Proof using.
  intros [Hwf Hown _] (a & Ha & Hst).
  destruct (owned_cases _ _ _ _ Hwf Hown) as [c Hc Hpend _ _|r' t' Hr (a' & Ha' & Hst') Hrec].
  - rewrite (abs_lookup _ _ _ Hc) in Ha. injection Ha as <-. rewrite abs_status_pending in Hst by done. done.
  - rewrite Ha in Ha'. injection Ha' as <-. rewrite Hst in Hst'. injection Hst' as <-. eauto.
Qed.

Lemma good_same w p : good late w p s → good late (set_tracker w (w_tracker w)) p s.
Proof using. by destruct w. Qed.

Lemma completePublishError_settled w p err :
  good late w p s → IsOpt err ErrPublishAmbiguous = true →
  settled w (completePublishError interfere w p s PublishAmbiguous err).
Proof using Hothers.
  intros Hg Herr. unfold completePublishError.
  destruct (abandon_ambiguous _ (good_wf _ _ _ _ Hg)) as [Hab|(t & Hab & Hwf & _)]; rewrite Hab.
  2: { do 3 eexists. split; [done|]. split_and!; [by apply ambiguous_consistent|by right|done|done]. }
  destruct (owned_cases _ _ _ _ (good_wf _ _ _ _ Hg) (good_owned _ _ _ _ Hg)) as [a Hp Hpend Hs _|r t' Hr Hset _].
  { rewrite (abandon_eq _ _ _ _ PublishAmbiguous (good_wf _ _ _ _ Hg) eq_refl Hs Hp) in Hab. done. }
  apply good_same in Hg. pose proof (interfere_settled 10 _ _ _ Hg Hset) as Hset'.
  pose proof (interfere_good 10 _ _ Hg) as Hg'. pose proof (interfere_sent 10 (set_tracker w (w_tracker w))) as Hsent.
  destruct (receive_settled _ _ _ Hg' Hset') as (_ & t1 & Hrec). rewrite Hrec.
  pose proof (good_wf _ _ _ _ Hg') as Hwf'. unfold received_result. simpl.
  destruct (String.eqb_spec (Result_State r) PublishAmbiguous) as [Heq|]; [|by eapply settled_foreign].
  do 3 eexists. split; [done|]. split_and!; [|apply Hr|done|by eapply receive_wf].
  apply ambiguous_consistent; [apply Hr|done|done].
Qed.

(** [outcomeOrCancellation] always ends: with the outcome that was already
    there, with the one that arrives before it can abandon the attempt, or
    ambiguous with the attempt gone from the tracker. *)
Lemma outcomeOrCancellation_cases w p contextErr :
  good late w p s →
  ∃ r err w', outcomeOrCancellation interfere w p s contextErr = Some (r, err, w') ∧ w_sent w' = w_sent w
  ∧ wf (w_tracker w')
  ∧ (foreign_outcome late r ∧ err = publishResultError r ∧ (∀ r0, settled_as (abs (w_tracker w)) p r0 → r = r0)
     ∨ r = mkPublishResult PublishAmbiguous None
       ∧ err = Some (Joined ErrPublishAmbiguous contextErr)
       ∧ (∀ r0, ¬ settled_as (abs (w_tracker w)) p r0)
       ∧ ∀ ack, confirm (w_tracker w') s ack = Some (false, w_tracker w')).
Proof using Hothers.
  intros Hg. unfold outcomeOrCancellation.
  assert (∀ r r0, settled_as (abs (w_tracker w)) p r → settled_as (abs (w_tracker w)) p r0 → r = r0) as Hfun.
  { intros r r0 (a & Ha & Hr) (a0 & Ha0 & Hr0). congruence. }
  destruct (owned_cases _ _ _ _ (good_wf _ _ _ _ Hg) (good_owned _ _ _ _ Hg)) as [a Hp Hpend Hs Hrec|r t' Hr Hset Hrec];
    rewrite Hrec; cycle 1.
  { do 3 eexists. split; [done|]. split; [done|]. split; [by eapply receive_wf, Hrec; apply Hg|].
    left. split_and!; try done. intros r0. by apply Hfun. }
  pose proof (interfere_good 11 _ _ Hg) as Hg1. pose proof (interfere_sent 11 w) as Hs1.
  assert (∀ r0, ¬ settled_as (abs (w_tracker w)) p r0) as Hnone.
  { intros r0 (c & Hc & Hst). rewrite (abs_lookup _ _ _ Hp) in Hc. injection Hc as <-.
    by rewrite abs_status_pending in Hst. }
  destruct (abandon_ambiguous _ (good_wf _ _ _ _ Hg1)) as [Hab|(t & Hab & Hwf & Hconf)]; rewrite Hab; cycle 1.
  { do 3 eexists. split_and!; [done..|]. by right. }
  destruct (owned_cases _ _ _ _ (good_wf _ _ _ _ Hg1) (good_owned _ _ _ _ Hg1))
    as [a1 Hp1 Hpend1 Hs1' _|r t' Hr Hset1 _].
  { rewrite (abandon_eq _ _ _ _ PublishAmbiguous (good_wf _ _ _ _ Hg1) eq_refl Hs1' Hp1) in Hab. done. }
  apply good_same in Hg1. pose proof (interfere_settled 12 _ _ _ Hg1 Hset1) as Hset2.
  pose proof (interfere_good 12 _ _ Hg1) as Hg2.
  destruct (receive_settled _ _ _ Hg2 Hset2) as (_ & t2 & Hrec2). rewrite Hrec2.
  do 3 eexists. split; [done|]. split; [simpl; by rewrite interfere_sent|].
  split; [by eapply receive_wf, Hrec2; apply Hg2|]. left. split_and!; try done.
  intros r0 Hr0. by apply Hnone in Hr0.
Qed.

Lemma outcomeOrCancellation_settled w p contextErr :
  good late w p s → settled w (outcomeOrCancellation interfere w p s contextErr).
Proof using Hothers.
  intros Hg. destruct (outcomeOrCancellation_cases w p contextErr Hg)
    as (r & err & w' & -> & Hsent & Hwf & [(Hr & -> & _)|(-> & -> & _ & _)]).
  - do 3 eexists. split; [done|]. split_and!; [by apply foreign_consistent|apply Hr|done|done].
  - do 3 eexists. split; [done|]. split_and!; [by apply ambiguous_consistent|by right|done|done].
Qed.

Lemma waitForOutcome_settled w p wait :
  good late w p s →
  waitForOutcome interfere w p s wait = None ∧ wait = WaitOutcome
  ∨ settled w (waitForOutcome interfere w p s wait).
Proof using Hothers.
  intros Hg. unfold waitForOutcome. pose proof (interfere_good 13 _ _ Hg) as Hg1.
  pose proof (interfere_sent 13 w) as Hs1.
  destruct (owned_cases _ _ _ _ (good_wf _ _ _ _ Hg) (good_owned _ _ _ _ Hg)) as [a Hp Hpend Hs ->|r t' Hr Hset Hrec].
  - destruct wait as [|contextErr].
    + destruct (owned_cases _ _ _ _ (good_wf _ _ _ _ Hg1) (good_owned _ _ _ _ Hg1))
        as [a1 Hp1 Hpend1 Hs1' ->|r t' Hr Hset1 Hrec]; [by left|]. right. rewrite Hrec.
      eapply settled_foreign; try done. apply Hg1.
    + right. destruct (outcomeOrCancellation_settled _ p contextErr Hg1) as (r & err & w' & ? & ? & ? & ? & ?).
      exists r, err, w'. split_and!; try done. congruence.
  - right. rewrite Hrec. eapply settled_foreign; try done. apply Hg.
Qed.
End Interference.

Section Claims.
Context (interfere : nat → world → world).

(** The client refused the send with the error of the cancelled context. *)
Definition preflight_refusal (script : script) : Prop :=
  ∃ err, sc_send script = SendReturned (Some err)
         ∧ isPreflightCancellation (Some err) (sc_context script) = true.

(** What the part after the send guarantees: a result that fits its error, and
    [not_sent] only for a preflight refusal unless somebody else ended the number;
    it blocks only waiting for an outcome that has not come. *)
Definition sent_result (late : bool) (script : script) (w : world) (x : option (PublishResult * option error * world)) : Prop :=
  match x with
  | None => sc_wait script = WaitOutcome
  | Some (r, err, w') =>
    publish_consistent r err ∧ w_sent w' = w_sent w ∧ wf (w_tracker w')
    ∧ (late = true ∨ Result_State r ≠ PublishNotSent ∨ preflight_refusal script)
  end.

Lemma settled_sent late script w w0 x :
  settled late w0 x → w_sent w0 = w_sent w → sent_result late script w x.
Proof using.
  intros (r & err & w' & -> & Hc & Hn & Hs & Hwf) Heq. simpl. split_and!; [done|congruence|done|tauto].
Qed.

Lemma good_producer late w p s q : good late w p s → good late (set_producer w q) p s.
Proof using. by intros []. Qed.

Lemma publishSent_result late script w p s :
  others late s interfere → good late w p s → sent_result late script w (publishSent interfere script w p s).
Proof using.
  intros Hothers Hg. unfold publishSent.
  assert (∀ w1, good late w1 p s → w_sent w1 = w_sent w →
    good late (interfere 5 w1) p s ∧ w_sent (interfere 5 w1) = w_sent w) as Hint.
  { intros w1 H1 H2. split; [by eapply interfere_good|]. by rewrite (interfere_sent late s interfere Hothers). }
  destruct (sc_send script) as [[err|]|contextErr] eqn:Hsend; cbn [publishFailureRequiresRecovery].
  - unfold publishFailureRequiresRecovery. simpl.
    destruct (isPreflightCancellation (Some err) (sc_context script)) eqn:Hpre; simpl.
    + destruct (Hint w Hg eq_refl) as [Hg1 Hs1].
      destruct (exec_ok _ (OAbandon s PublishNotSent) (good_wf _ _ _ _ Hg1)) as (r & t & Hx & _);
        [done|by intros (? & ? & ? & _)|]. simpl in Hx.
      destruct (abandon _ s PublishNotSent) as [[b t']|] eqn:Hab; [|done]. simpl.
      unfold isPreflightCancellation in Hpre. destruct (sc_context script) eqn:Hctx; [|done].
      split_and!; [apply notSent_consistent|done|by eapply abandon_wf, Hab; apply Hg1|].
      right. right. exists err. split; [done|].
      unfold isPreflightCancellation. by rewrite Hctx.
    + destruct (Hint _ (good_producer _ _ _ _ (failGeneration (w_producer w) (w_current w)) Hg) eq_refl) as [Hg1 Hs1].
      eapply settled_sent; [by apply completePublishError_settled|done].
  - destruct (Hint w Hg eq_refl) as [Hg1 Hs1]. simpl.
    destruct (waitForOutcome_settled late s interfere Hothers _ p (sc_wait script) Hg1) as [[-> Hw]|Hset]; [done|].
    by eapply settled_sent.
  - destruct (Hint _ (good_producer _ _ _ _ (failGeneration (w_producer w) (w_current w)) Hg) eq_refl) as [Hg1 Hs1].
    simpl. eapply settled_sent; [by apply completePublishError_settled|done].
Qed.

(** A registration makes the attempt this goroutine's. *)
Lemma register_good late w s token exchange route p t :
  wf (w_tracker w) → register (w_tracker w) s token exchange route = (inr p, t) →
  good late (mkWorld (w_producer w) t (w_current w) (Some p) (w_sent w)) p s.
Proof using.
  intros Hwf Hreg. pose proof (register_wf _ s token exchange route Hwf) as Hwf'. rewrite Hreg in Hwf'. simpl in Hwf'.
  assert (tr_sequence t !! s = Some p) as Hs.
  { unfold register in Hreg. repeat case_match; simplify_eq/=. apply lookup_insert_eq. }
  split; simpl; [done| |done]. destruct (proj1 (wf_sequence _ Hwf' s p) Hs) as (a & Hp & Hseq & Hpend).
  exists (abs_attempt a). split_and!; [by apply abs_lookup|done|]. left. by apply (abs_pending _ Hwf' p a Hp).
Qed.

(** The message handed to the client for a publication. *)
Definition outgoing (script : script) (session : string) (publication : Publication)
    : string * string * bool * Publishing :=
  (Publication_Exchange publication, Publication_RoutingKey publication, Mandatory publication,
   amqpPublishing (Publication_Message publication) (Publication_DeliveryMode publication)
     (publish_token session (sc_sequence script))).

(** [publishAttempted] as a whole: either nothing was handed to the client and
    the result is [not_sent], or exactly one message was. *)
Definition attempted_result (script : script) (session : string) (publication : Publication) (w : world)
    (r : PublishResult) (err : option error) (w' : world) : Prop :=
  publish_consistent r err ∧ wf (w_tracker w')
  ∧ (w_sent w' = w_sent w ∧ Result_State r = PublishNotSent
     ∨ w_sent w' = w_sent w ++ [outgoing script session publication]).

(** [not_sent] means that the client was not handed the message or refused it for
    the cancelled context. *)
Definition not_sent_sound (script : script) (w : world) (r : PublishResult) (w' : world) : Prop :=
  Result_State r = PublishNotSent → w_sent w' = w_sent w ∨ preflight_refusal script.

Lemma notSent_attempted script session publication w err w' :
  w_sent w' = w_sent w → wf (w_tracker w') →
  attempted_result script session publication w notSent (Some err) w' ∧ not_sent_sound script w notSent w'.
Proof using.
  intros Hs Hwf. split; [|by left]. split; [apply notSent_consistent|split; [done|by left]].
Qed.

Lemma publishAttempted_result late script session publication w :
  others late (sc_sequence script) interfere → wf (w_tracker w) →
  match publishAttempted interfere script session publication w with
  | None => sc_wait script = WaitOutcome
  | Some (r, err, _, w') =>
    attempted_result script session publication w r err w' ∧ (late = false → not_sent_sound script w r w')
  end.
Proof using.
  intros Hothers Hwf. unfold publishAttempted.
  assert (∀ n w, wf (w_tracker w) → wf (w_tracker (interfere n w))) as Hw by (intros; by eapply interfere_wf).
  assert (∀ n w, w_sent (interfere n w) = w_sent w) as Hse by (intros; by eapply interfere_sent).
  assert (∀ err w', w_sent w' = w_sent w → wf (w_tracker w') →
    attempted_result script session publication w notSent (Some err) w'
    ∧ (late = false → not_sent_sound script w notSent w')) as Hns.
  { intros err w' H Hw'. destruct (notSent_attempted script session publication w err w' H Hw'). done. }
  destruct (sc_preflight script); [by apply Hns|]. destruct (sc_lock script); [apply Hns; auto|].
  destruct (isShutdownClosing _); [apply Hns; auto|].
  destruct (isUnavailable _); [apply Hns; [by rewrite !Hse|auto]|].
  destruct (register _ _ _ _ _) as [[err|p] t] eqn:Hreg.
  { apply Hns; simpl; [by rewrite !Hse|]. change t with (inl (B := nat) err, t).2. rewrite <- Hreg.
    apply register_wf. auto. }
  apply (register_good late) in Hreg; [|auto]. apply (interfere_good _ _ interfere Hothers 3) in Hreg as Hg.
  set (w3 := interfere 3 _) in *. assert (w_sent w3 = w_sent w) as Hs3 by (unfold w3; by rewrite !Hse).
  destruct (isShutdownClosing (w_producer w3)).
  { destruct (exec_ok _ (OAbandon (sc_sequence script) PublishNotSent) (good_wf _ _ _ _ Hg)) as (r & t' & Hx & _);
      [done|by intros (? & ? & ? & _)|]. simpl in Hx.
    destruct (abandon _ _ _) as [[b t1]|] eqn:Hab; [|done]. apply Hns; [done|].
    by eapply abandon_wf, Hab; apply Hg. }
  set (w3' := mkWorld (w_producer w3) _ _ _ _).
  assert (good late w3' p (sc_sequence script)) as Hg' by (by destruct Hg).
  apply (interfere_good _ _ interfere Hothers 4) in Hg'.
  pose proof (publishSent_result late script _ p _ Hothers Hg') as Hres.
  destruct (publishSent _ _ _ _ _) as [[[r err] w']|]; simpl in Hres; [|done].
  destruct Hres as (Hc & Hs & Hw' & Hn). rewrite Hse in Hs. simpl in Hs. rewrite Hs3 in Hs.
  split; [split_and!; [done|done|by right]|]. intros -> Hst. right. by destruct Hn as [|[|]].
Qed.

(** C3: an admitted publication ends with a result that fits its error, however
    confirmations, returns, recovery, shutdown and other publishers interleave,
    also those that register or abandon the same number: confirmed exactly when
    there is no error, [returned], [rejected] and [ambiguous] with their own
    errors.  The message is handed to the client at most once, and the call
    blocks only while it waits for an outcome that has not come.  In the
    interleavings in which no other goroutine ends this publication's number as
    [not_sent], [not_sent] is reported only when the message was not handed over
    or the client refused it for the cancelled context. *)
Theorem publishAdmitted_sound script session publication w :
  others true (sc_sequence script) interfere → wf (w_tracker w) →
  match publishAdmitted interfere script session publication w with
  | None => sc_wait script = WaitOutcome
  | Some (r, err, w') =>
    attempted_result script session publication w r err w'
    ∧ (others false (sc_sequence script) interfere → not_sent_sound script w r w')
  end.
Proof using.
  intros Hothers Hwf. pose proof (publishAttempted_result true script session publication w Hothers Hwf) as H.
  pose proof (λ Ho, publishAttempted_result false script session publication w Ho Hwf) as H'.
  unfold publishAdmitted.
  destruct (publishAttempted _ _ _ _ _) as [[[[r err] started] w']|]; [|done].
  split; [by destruct H|]. intros Ho. destruct (H' Ho) as [_ Hn]. by apply Hn.
Qed.

(** A definitive outcome wins over a cancellation: when the context ends the
    wait, the caller gets the outcome if the tracker already had it or gets it
    before the attempt is given up, and otherwise an ambiguous result with the
    context's error, after which no confirmation can touch the attempt. *)
Theorem cancellation_keeps_outcome late w p s contextErr :
  others late s interfere → good late w p s →
  ∃ r err w', outcomeOrCancellation interfere w p s contextErr = Some (r, err, w')
  ∧ (foreign_outcome late r ∧ err = publishResultError r ∧ (∀ r0, settled_as (abs (w_tracker w)) p r0 → r = r0)
     ∨ r = mkPublishResult PublishAmbiguous None ∧ err = Some (Joined ErrPublishAmbiguous contextErr)
       ∧ (∀ r0, ¬ settled_as (abs (w_tracker w)) p r0)
       ∧ ∀ ack, confirm (w_tracker w') s ack = Some (false, w_tracker w')).
Proof using.
  intros Ho Hg. destruct (outcomeOrCancellation_cases late s interfere Ho w p contextErr Hg)
    as (r & err & w' & H & _ & _ & Hor). by exists r, err, w'.
Qed.

(** [Publish], with its validation, admission and release around the admitted
    part. *)
Lemma Publish_result script session publication w :
  others true (sc_sequence script) interfere → wf (w_tracker w) →
  match Publish interfere true script session publication w with
  | None => sc_wait script = WaitOutcome
  | Some (r, err, w') => attempted_result script session (ownPublication publication) w r err w'
  end.
Proof using.
  intros Hothers Hwf. unfold Publish. simpl.
  destruct (Publication_Validate _ _); [by apply notSent_attempted|].
  destruct (Producer_admit (w_producer w)) as [[err|] p]; [by apply notSent_attempted|].
  pose proof (publishAttempted_result true script session (ownPublication publication)
    (interfere 20 (set_producer w p)) Hothers) as H.
  assert (wf (w_tracker (interfere 20 (set_producer w p)))) as Hw by (by eapply interfere_wf).
  specialize (H Hw). unfold publishAdmitted.
  destruct (publishAttempted _ _ _ _ _) as [[[[r err] started] w']|]; [|done]. destruct H as [H _].
  unfold attempted_result in *. rewrite (interfere_sent _ _ interfere Hothers) in H. done.
Qed.

Lemma validateEach_cases limits publications :
  match validateEach limits publications with
  | None => ∀ publication, publication ∈ publications → Publication_Validate publication limits = None
  | Some err => ∃ publication e, publication ∈ publications
      ∧ Publication_Validate publication limits = Some e ∧ err = Joined ErrInvalidBatch e
  end.
Proof using.
  induction publications as [|publication publications IH]; simpl.
  { intros x Hx. by apply not_elem_of_nil in Hx. }
  destruct (Publication_Validate publication limits) as [e0|] eqn:Hv.
  - exists publication, e0. split_and!; [by left|done|done].
  - destruct (validateEach limits publications) as [e1|].
    + destruct IH as (x & e & Hx & ?). exists x, e. split; [by right|done].
    + by apply forall_cons.
Qed.

Lemma publishEach_results session items w :
  (∀ x, x ∈ items → others true (sc_sequence x.1) interfere ∧ sc_wait x.1 ≠ WaitOutcome) → wf (w_tracker w) →
  ∃ outcomes w', publishEach interfere session items w = Some (outcomes, w')
  ∧ length outcomes = length items
  ∧ ∀ o, o ∈ outcomes → publish_consistent (Outcome_Result o) (Outcome_Err o).
Proof using.
  revert w. induction items as [|[script publication] items IH]; intros w Hitems Hwf; cbn [publishEach].
  { do 2 eexists. split_and!; [done..|]. intros o Ho. by apply not_elem_of_nil in Ho. }
  rewrite (forall_cons _ (script, publication) items) in Hitems. destruct Hitems as [[Ho Hwait] Hitems].
  pose proof (Publish_result script session publication w Ho Hwf) as H.
  destruct (Publish interfere true script session publication w) as [[[r err] w1]|]; [|done].
  destruct H as (Hc & Hw1 & _).
  destruct (IH (interfere 21 w1) Hitems) as (outcomes & w' & -> & Hl & Hall); [by eapply interfere_wf|].
  do 2 eexists. split_and!; [done|simpl; by rewrite Hl|]. by apply forall_cons.
Qed.

(** A batch is prevalidated as a whole and then published in order: one
    invalid item fails the call with its reason and nothing is published; a
    valid batch yields exactly one consistent outcome per item, in input order,
    whatever happens to the individual items. *)
Theorem PublishBatch_results session items w :
  (∀ x, x ∈ items → others true (sc_sequence x.1) interfere ∧ sc_wait x.1 ≠ WaitOutcome) →
  wf (w_tracker w) → validPublishBatchSize (llen items) = true →
  (∃ publication e, publication ∈ map snd items
     ∧ Publication_Validate publication (Producer_Limits (pr_config (w_producer w))) = Some e
     ∧ PublishBatch interfere true None session items w = Some (inl (Joined ErrInvalidBatch e), w))
  ∨ ∃ outcomes w', PublishBatch interfere true None session items w = Some (inr outcomes, w')
     ∧ length outcomes = length items
     ∧ ∀ o, o ∈ outcomes → publish_consistent (Outcome_Result o) (Outcome_Err o).
Proof using.
  intros Hitems Hwf Hsize. unfold PublishBatch. rewrite Hsize. cbn [negb].
  pose proof (validateEach_cases (Producer_Limits (pr_config (w_producer w))) (map snd items)) as Hv.
  destruct (validateEach _ _) as [err|].
  - left. destruct Hv as (publication & e & Hin & He & ->). by exists publication, e.
  - right. destruct (publishEach_results session items w Hitems Hwf) as (outcomes & w' & -> & Hl & Hall).
    by exists outcomes, w'.
Qed.
End Claims.

(** ** A concrete publication *)

(** The event goroutine confirms sequence one right after the send. *)
Definition example_interference (n : nat) (w : world) : world :=
  match n with
  | 4%nat => match exec (w_tracker w) (OConfirm 1 true) with
             | Some (_, t) => set_tracker w t
             | None => w
             end
  | _ => w
  end.

Lemma example_others late : others late 1 example_interference.
Proof.
  intros n w. unfold example_interference. do 5 (destruct n as [|n]; try apply rtc_refl).
  destruct (exec (w_tracker w) (OConfirm 1 true)) as [[r t]|] eqn:E; [|apply rtc_refl].
  apply rtc_once, (other_tracker _ _ _ (OConfirm 1 true) r); [by destruct (w_attempt w)|done|exact E].
Qed.

Definition example_script : script :=
  mkScript None None 1 (SendReturned None) None (WaitContext DeadlineExceeded) Millisecond.

Definition example_message : Publication :=
  mkPublication "orders" ExchangeTopic "orders.created" true DeliveryPersistent
    (mkMessage (Some [x7b; x7d]) "m-42" "" "" "" "" "" "" zero_time None None []).

Definition example_world : world :=
  mkWorld (newProducer example_producer_config) (newPublishTracker 2) true None [].

Lemma publishAdmitted_sound_witness :
  match publishAdmitted example_interference example_script "0123456789abcdef" example_message example_world with
  | Some (r, err, w') =>
    r = mkPublishResult PublishConfirmed None ∧ publish_consistent r err ∧ not_sent_sound example_script example_world r w'
  | None => False
  end.
Proof.
  pose proof (publishAdmitted_sound example_interference example_script "0123456789abcdef" example_message
    example_world (example_others true) (wf_new 2)) as H.
  assert (∃ w', publishAdmitted example_interference example_script "0123456789abcdef" example_message
    example_world = Some (mkPublishResult PublishConfirmed None, None, w')) as (w' & Hw)
    by (eexists; vm_compute; reflexivity).
  rewrite Hw in H |- *. destruct H as [[Hc _] Hn]. split_and!; [done|done|]. apply Hn, example_others.
Defined.

Lemma cancellation_keeps_outcome_witness :
  ∃ r err w', outcomeOrCancellation (λ _ w, w) (mkWorld (newProducer example_producer_config)
    (register (newPublishTracker 2) 1 "s/1" "orders" "created").2 true (Some 0%nat) []) 0 1 Canceled
  = Some (r, err, w') ∧ (Result_State r = PublishNotSent → False).
Proof.
  edestruct (cancellation_keeps_outcome (λ _ w, w) false (mkWorld (newProducer example_producer_config)
    (register (newPublishTracker 2) 1 "s/1" "orders" "created").2 true (Some 0%nat) []) 0 1 Canceled)
    as (r & err & w' & H & Hor).
  - intros n w. apply rtc_refl.
  - apply (register_good false example_world 1 "s/1" "orders" "created" 0); [apply wf_new|reflexivity].
  - exists r, err, w'. split; [exact H|]. destruct Hor as [[[_ [?|Hn]] _]|[-> _]]; done.
Defined.

Lemma PublishBatch_results_witness :
  match PublishBatch example_interference true None "0123456789abcdef" [(example_script, example_message)]
          example_world with
  | Some (inr outcomes, _) => length outcomes = 1%nat
  | _ => False
  end.
Proof.
  destruct (PublishBatch_results example_interference "0123456789abcdef" [(example_script, example_message)]
    example_world) as [(publication & e & _ & _ & H)|(outcomes & w' & H & Hl & _)].
  - apply forall_cons. split; [split; [apply example_others|done]|]. intros x Hx. by apply not_elem_of_nil in Hx.
  - apply wf_new.
  - reflexivity.
  - exfalso. revert H. vm_compute. discriminate.
  - by rewrite H.
Defined.
