(* ===== verification/Events.v ===== *)
(** * Events: the event goroutine of a producer generation

    producer.go: [runGenerationWith], [drainReturns], [applyReturn] and
    [closeProducerGeneration].  One iteration of the event loop is [gen_step]: the
    [select] is given the case it takes, which must be ready. *)

From S2P Require Import Prelude GoText Errors Config Amqp Message Tracker Observation Producer.
Import PublishTracker.

(** A channel the client library feeds; a nil channel is never ready. *)
Record feed (A : Type) := mkFeed { fd_queue : list A; fd_closed : bool }.
Arguments mkFeed {A} _ _.
Arguments fd_queue {A} _.
Arguments fd_closed {A} _.

Definition sanitizedReturnReason (reason : string) : string :=
  if (len reason <=? 255) && negb (containsControl reason) then reason else EmptyString.

(** [applyReturn]; [None] only where the tracker panics. *)
Definition applyReturn (p : Producer) (tracker : publishTracker) (ret : AmqpReturn)
    : option (bool * Producer * publishTracker) :=
  let p := observe p (observation ObservationReturn ObservationReturned) in
  match as_string (index (ret_Headers ret) publishTokenHeader) with
  | None => Some (false, p, tracker)
  | Some token =>
    let reason := sanitizedReturnReason (ret_ReplyText ret) in
    match returned tracker token (mkReturn (ret_ReplyCode ret) reason EmptyString EmptyString) with
    | None => None
    | Some (ok, tracker) => Some (ok, p, tracker)
    end
  end.

(** The loop of [drainReturns] over what the channel holds; the queue that is
    left comes back with the verdict. *)
Fixpoint drain_queue (p : Producer) (tracker : publishTracker) (queue : list AmqpReturn)
    : option (bool * Producer * publishTracker * list AmqpReturn) :=
  match queue with
  | [] => Some (true, p, tracker, [])
  | ret :: queue =>
    match applyReturn p tracker ret with
    | None => None
    | Some (false, p, tracker) => Some (false, p, tracker, queue)
    | Some (true, p, tracker) => drain_queue p tracker queue
    end
  end.

Definition drainReturns (p : Producer) (tracker : publishTracker) (returns : option (feed AmqpReturn))
    : option (bool * Producer * publishTracker * option (feed AmqpReturn)) :=
  match returns with
  | None => Some (true, p, tracker, None)
  | Some returns =>
    match drain_queue p tracker (fd_queue returns) with
    | None => None
    | Some (ok, p, tracker, queue) => Some (ok, p, tracker, Some (mkFeed queue (fd_closed returns)))
    end
  end.

(** What the loop works on. *)
Record generation := mkGeneration {
  g_producer : Producer;
  g_tracker : publishTracker;
  g_returns : option (feed AmqpReturn);
  g_confirms : feed Confirmation;
  g_blocked : option (feed bool);
  g_connectionClosed : bool;
  g_stopped : bool }.

Inductive gen_case := GenReturn | GenConfirm | GenConnectionClosed | GenBlocked | GenFailure | GenStop.

Inductive gen_result :=
| GenContinue (g : generation)
| GenExit (recover : bool) (g : generation).

Definition with_tracker (g : generation) (p : Producer) (t : publishTracker)
    (returns : option (feed AmqpReturn)) (confirms : feed Confirmation) : generation :=
  mkGeneration p t returns confirms (g_blocked g) (g_connectionClosed g) (g_stopped g).

(** One iteration of [runGenerationWith]; [None]: the case is not ready. *)
Definition gen_step (g : generation) (c : gen_case) (order : list Z) : option gen_result :=
  match c with
  | GenReturn =>
    match g_returns g with
    | None => None
    | Some returns =>
      match fd_queue returns with
      | ret :: queue =>
        match applyReturn (g_producer g) (g_tracker g) ret with
        | None => None
        | Some (ok, p, t) =>
          let g := with_tracker g p t (Some (mkFeed queue (fd_closed returns))) (g_confirms g) in
          if negb ok then Some (GenExit true g) else Some (GenContinue g)
        end
      | [] => if fd_closed returns
              then Some (GenContinue (with_tracker g (g_producer g) (g_tracker g) None (g_confirms g)))
              else None
      end
    end
  | GenConfirm =>
    match fd_queue (g_confirms g) with
    | [] => if fd_closed (g_confirms g) then Some (GenExit true g) else None
    | confirmation :: queue =>
      let confirms := mkFeed queue (fd_closed (g_confirms g)) in
      match drainReturns (g_producer g) (g_tracker g) (g_returns g) with
      | None => None
      | Some (false, p, t, returns) => Some (GenExit true (with_tracker g p t returns confirms))
      | Some (true, p, t, returns) =>
        let outcome := if conf_Ack confirmation then ObservationConfirmed else ObservationRejected in
        let p := observe p (observation ObservationConfirm outcome) in
        match confirm t (conf_DeliveryTag confirmation) (conf_Ack confirmation) with
        | None => None
        | Some (_, t) => Some (GenContinue (with_tracker g p t returns confirms))
        end
      end
    end
  | GenConnectionClosed => if g_connectionClosed g then Some (GenExit true g) else None
  | GenBlocked =>
    match g_blocked g with
    | None => None
    | Some blocked =>
      match fd_queue blocked with
      | active :: queue =>
        Some (GenContinue (mkGeneration (setBlocked (g_producer g) active) (g_tracker g) (g_returns g)
               (g_confirms g) (Some (mkFeed queue (fd_closed blocked))) (g_connectionClosed g) (g_stopped g)))
      | [] => if fd_closed blocked
              then Some (GenContinue (mkGeneration (g_producer g) (g_tracker g) (g_returns g) (g_confirms g)
                                        None (g_connectionClosed g) (g_stopped g)))
              else None
      end
    end
  | GenFailure => if pr_failure (g_producer g) then Some (GenExit true g) else None
  | GenStop =>
    if g_stopped g then
      match failAll (g_tracker g) PublishAmbiguous order with
      | None => None
      | Some (_, t) =>
        Some (GenExit false (with_tracker g (g_producer g) t (g_returns g) (g_confirms g)))
      end
    else None
  end.

(** ** Closing a generation *)

(** [producerGenerationClose], with how often each handle was closed. *)
Record generationClose := mkGenerationClose {
  gc_done : bool; gc_err : option error; gc_resource_closes : nat; gc_channel_closes : nat }.

Definition newGenerationClose : generationClose := mkGenerationClose false None 0 0.

(** [closeProducerGeneration]: a handle is [None] when nil, else the error its
    close returns; [state] is [None] for a nil close state. *)
Definition closeProducerGeneration (channel resource : option (option error)) (state : option generationClose)
    : option error * option generationClose :=
  match state with
  | None => (None, None)
  | Some state =>
    let state :=
      return_if gc_done state, state ;;
      let '(err, resources) :=
        match resource with
        | None => (gc_err state, gc_resource_closes state)
        | Some closeErr => (if present closeErr then Some ErrProducerUnavailable else gc_err state,
                            S (gc_resource_closes state))
        end in
      let '(err, channels) :=
        match channel with
        | None => (err, gc_channel_closes state)
        | Some closeErr => (if present closeErr then Some ErrProducerUnavailable else err,
                            S (gc_channel_closes state))
        end in
      mkGenerationClose true err resources channels in
    (gc_err state, Some state)
  end.

(** Any number of goroutines close the same generation. *)
Definition close_all (channel resource : option (option error)) (n : nat) : generationClose :=
  Nat.iter n (λ state, default state (closeProducerGeneration channel resource (Some state)).2) newGenerationClose.

(** a generation is closed once, however many of its users ask for it: every
    call reports the same result, which is [ErrProducerUnavailable] exactly when
    one of the two closes failed, and each handle is closed exactly once. *)
Theorem generation_closed_once channel resource n :
  let state := close_all channel resource n in
  (closeProducerGeneration channel resource (Some state)).1
  = (if match resource with Some e => present e | None => false end
        || match channel with Some e => present e | None => false end
     then Some ErrProducerUnavailable else None)
  ∧ (0 < n → gc_resource_closes state = (if present resource then 1 else 0)
             ∧ gc_channel_closes state = (if present channel then 1 else 0))%nat.
Proof.
  assert (∀ n, close_all channel resource (S n) = close_all channel resource 1) as Hfix.
  { intros k. induction k as [|k IH]; [done|].
    change (close_all channel resource (S (S k))) with
      (default (close_all channel resource (S k))
         (closeProducerGeneration channel resource (Some (close_all channel resource (S k)))).2).
    rewrite IH. by destruct channel as [[|]|], resource as [[|]|]. }
  intros state. unfold state. destruct n as [|n]; [|rewrite Hfix]; (split; [by destruct channel as [[|]|], resource as [[|]|]|]);
    intros; [lia|by destruct channel as [[|]|], resource as [[|]|]].
Qed.

(** ** Returns are drained before a confirmation is applied *)

(** The attempt a return or a confirmation is about, while it is pending. *)
Definition tracked (t : publishTracker) (p : nat) (token exchange route : string) (ret : option Return) : Prop :=
  ∃ a, tr_heap t !! p = Some a ∧ pending a ∧ at_token a = token ∧ at_exchange a = exchange
       ∧ at_route a = route ∧ at_returned a = ret.

Definition return_token (ret : AmqpReturn) : option string :=
  as_string (index (ret_Headers ret) publishTokenHeader).

(** The return a caller sees for a broker return. *)
Definition correlated (ret : AmqpReturn) (exchange route : string) : Return :=
  mkReturn (ret_ReplyCode ret) (sanitizedReturnReason (ret_ReplyText ret)) exchange route.

Lemma applyReturn_ok p t ret :
  wf t → ∃ ok p' t', applyReturn p t ret = Some (ok, p', t') ∧ wf t' ∧ tr_sequence t' = tr_sequence t
  ∧ ∀ q token exchange route prev, tracked t q token exchange route prev →
      tracked t' q token exchange route
        (if decide (return_token ret = Some token) then Some (correlated ret exchange route) else prev)
      ∧ (return_token ret = Some token → ok = true).
Proof.
  intros Hwf. unfold applyReturn, return_token. destruct (as_string _) as [token|] eqn:Htok; cycle 1.
  { do 3 eexists. split; [done|]. split_and!; try done. }
  destruct (exec_ok t (OReturned token (mkReturn (ret_ReplyCode ret) (sanitizedReturnReason (ret_ReplyText ret)) "" "")) Hwf)
    as (r & t' & Hx & Hwf'); [done|by intros (? & ? & ? & _)|]. simpl in Hx.
  rewrite returned_eq in * by done. destruct (tr_token t !! token) as [q0|] eqn:Hq0.
  - destruct (proj1 (wf_token _ Hwf token q0) Hq0) as (a & Ha & Hat & Hap). rewrite Ha in *. simpl in *.
    injection Hx as <- <-. do 3 eexists. split; [done|]. split; [done|]. split; [done|].
    intros q tok ex rt prev (b & Hb & Hbp & <- & <- & <- & <-). split; [|done].
    destruct (decide (Some token = Some (at_token b))) as [[= ->]|Hne].
    + assert (q0 = q) as ->.
      { enough (tr_token t !! at_token b = Some q) by congruence. apply (wf_token _ Hwf). by exists b. }
      rewrite Ha in Hb. injection Hb as ->. exists (with_return b (mkReturn (ret_ReplyCode ret)
        (sanitizedReturnReason (ret_ReplyText ret)) "" "")). simpl. rewrite lookup_insert_eq. done.
    + exists b. simpl. rewrite lookup_insert_ne; [done|]. intros ->. congruence.
  - simpl in Hx. injection Hx as <- <-. do 3 eexists. split; [done|]. split; [done|]. split; [done|].
    intros q tok ex rt prev (b & Hb & Hbp & <- & <- & <- & <-).
    assert (token ≠ at_token b) as Hne.
    { intros ->. enough (tr_token t !! at_token b = Some q) by congruence. apply (wf_token _ Hwf). by exists b. }
    rewrite decide_False by congruence. split; [by exists b|]. congruence.
Qed.

(** The last of the queued returns for a token. *)
Fixpoint last_return (token : string) (queue : list AmqpReturn) (prev : option AmqpReturn) : option AmqpReturn :=
  match queue with
  | [] => prev
  | ret :: queue =>
    last_return token queue (if decide (return_token ret = Some token) then Some ret else prev)
  end.

Lemma drain_queue_ok p t queue :
  wf t → ∃ ok p' t' rest, drain_queue p t queue = Some (ok, p', t', rest) ∧ wf t'
  ∧ tr_sequence t' = tr_sequence t
  ∧ ∀ q token exchange route prev, tracked t q token exchange route (option_map (λ r, correlated r exchange route) prev) →
      (∃ prev', tracked t' q token exchange route (option_map (λ r, correlated r exchange route) prev'))
      ∧ (ok = true → tracked t' q token exchange route
           (option_map (λ r, correlated r exchange route) (last_return token queue prev))).
Proof.
  revert p t. induction queue as [|ret queue IH]; intros p t Hwf; cbn [drain_queue last_return].
  { do 4 eexists. split; [done|]. split_and!; try done. intros q token ex rt prev H. split; [by exists prev|done]. }
  destruct (applyReturn_ok p t ret Hwf) as (ok & p' & t' & -> & Hwf' & Hseq & Htr).
  destruct ok; cycle 1.
  { do 4 eexists. split; [done|]. split_and!; try done. intros q token ex rt prev H.
    destruct (Htr _ _ _ _ _ H) as [H' _]. split; [|done].
    exists (if decide (return_token ret = Some token) then Some ret else prev). by destruct (decide _). }
  destruct (IH p' t' Hwf') as (ok & p1 & t1 & rest & -> & Hwf1 & Hseq1 & Htr1).
  do 4 eexists. split; [done|]. split; [done|]. split; [congruence|].
  intros q token ex rt prev H. destruct (Htr _ _ _ _ _ H) as [H' _].
  apply (Htr1 q token ex rt (if decide (return_token ret = Some token) then Some ret else prev)).
  by destruct (decide (return_token ret = Some token)).
Qed.

Lemma last_return_Some token queue prev :
  (∃ ret, ret ∈ queue ∧ return_token ret = Some token) ∨ is_Some prev →
  ∃ ret, last_return token queue prev = Some ret.
Proof.
  revert prev. induction queue as [|x queue IH]; intros prev H; simpl.
  { destruct H as [(ret & Hin & _)|[r ->]]; [by apply not_elem_of_nil in Hin|by exists r]. }
  apply IH. destruct (decide (return_token x = Some token)) as [|Hne]; [right; by eexists|].
  destruct H as [(ret & [->|Hin]%elem_of_cons & Hr)|?]; [done|left; eauto|by right].
Qed.

Lemma last_return_token token queue prev last :
  (∀ r, prev = Some r → return_token r = Some token) →
  last_return token queue prev = Some last → return_token last = Some token.
Proof.
  revert prev. induction queue as [|x queue IH]; intros prev Hprev; simpl; [auto|]. apply IH.
  destruct (decide (return_token x = Some token)); [|done]. by intros r [= <-].
Qed.

(** C17: an unroutable mandatory publication is never reported as confirmed: if
    its return is in the returns channel when its confirmation is processed, the
    iteration either gives the publisher the [returned] outcome, with the
    exchange and routing key it published to, or ends the generation with the
    attempt still pending (and so ambiguous). *)
Theorem returns_before_confirm g confirmation queue p a returns ret order :
  wf (g_tracker g) → fd_queue (g_confirms g) = confirmation :: queue →
  tr_sequence (g_tracker g) !! conf_DeliveryTag confirmation = Some p →
  tr_heap (g_tracker g) !! p = Some a → at_returned a = None →
  g_returns g = Some returns → ret ∈ fd_queue returns → return_token ret = Some (at_token a) →
  match gen_step g GenConfirm order with
  | Some (GenContinue g') => ∃ last, return_token last = Some (at_token a) ∧
      fst <$> receive (g_tracker g') p =
      Some (Some (mkPublishResult PublishReturned (Some (correlated last (at_exchange a) (at_route a)))))
  | Some (GenExit recover g') => recover = true ∧ ∃ a', tr_heap (g_tracker g') !! p = Some a' ∧ pending a'
  | None => False
  end.
Proof.
  intros Hwf Hq Hs Hp Hnone Hret Hin Htok. unfold gen_step. rewrite Hq. unfold drainReturns. rewrite Hret.
  destruct (proj1 (wf_sequence _ Hwf _ _) Hs) as (a0 & Hp0 & Hseq & Hpend). rewrite Hp in Hp0. injection Hp0 as <-.
  destruct (drain_queue_ok (g_producer g) (g_tracker g) (fd_queue returns) Hwf)
    as (ok & p' & t' & rest & -> & Hwf' & Hseq' & Htr).
  assert (tracked (g_tracker g) p (at_token a) (at_exchange a) (at_route a)
    (option_map (λ r, correlated r (at_exchange a) (at_route a)) None)) as Htracked by (by exists a).
  destruct (Htr _ _ _ _ _ Htracked) as [(prev' & a' & Ha' & Hpa' & _) Hok].
  destruct ok; [|split; [done|by exists a']].
  destruct (Hok eq_refl) as (a1 & Ha1 & Hpa1 & Ht1 & He1 & Hr1 & Hret1).
  destruct (last_return_Some (at_token a) (fd_queue returns) None) as [last Hlast]; [left; eauto|].
  rewrite (confirm_eq t' _ p a1) by (done || congruence).
  exists last. split.
  - by eapply last_return_token, Hlast.
  - simpl. rewrite receive_completed. simpl. unfold confirm_result. rewrite Hret1, Hlast. done.
Qed.

(** ** The loop never gets stuck *)

(** The case's channel has a value, is closed, or its context is done. *)
Definition ready (g : generation) (c : gen_case) (order : list Z) : Prop :=
  match c with
  | GenReturn => ∃ f, g_returns g = Some f ∧ (fd_queue f ≠ [] ∨ fd_closed f = true)
  | GenConfirm => fd_queue (g_confirms g) ≠ [] ∨ fd_closed (g_confirms g) = true
  | GenConnectionClosed => g_connectionClosed g = true
  | GenBlocked => ∃ f, g_blocked g = Some f ∧ (fd_queue f ≠ [] ∨ fd_closed f = true)
  | GenFailure => pr_failure (g_producer g) = true
  | GenStop => g_stopped g = true ∧ order ≡ₚ (map_to_list (tr_sequence (g_tracker g))).*1
  end.

Definition result_tracker (r : gen_result) : publishTracker :=
  match r with GenContinue g | GenExit _ g => g_tracker g end.

Lemma gen_step_ready g c order :
  wf (g_tracker g) → ready g c order →
  ∃ r, gen_step g c order = Some r ∧ wf (result_tracker r).
Proof.
  intros Hwf Hr. destruct c; simpl in *.
  - destruct Hr as (f & -> & Hf). destruct (fd_queue f) as [|ret queue].
    + destruct Hf as [?| ->]; [done|]. by eexists.
    + destruct (applyReturn_ok (g_producer g) (g_tracker g) ret Hwf) as (ok & p & t & -> & ? & _).
      destruct ok; by eexists.
  - destruct (fd_queue (g_confirms g)) as [|confirmation queue].
    + destruct Hr as [?| ->]; [done|]. by eexists.
    + assert (∃ ok p t returns, drainReturns (g_producer g) (g_tracker g) (g_returns g) = Some (ok, p, t, returns)
        ∧ wf t) as (ok & p & t & returns & -> & Hwft).
      { unfold drainReturns. destruct (g_returns g) as [f|]; [|by do 4 eexists].
        destruct (drain_queue_ok (g_producer g) (g_tracker g) (fd_queue f) Hwf) as (ok & p & t & rest & -> & ? & _).
        by do 4 eexists. }
      destruct ok; [|by eexists].
      destruct (exec_ok t (OConfirm (conf_DeliveryTag confirmation) (conf_Ack confirmation)) Hwft)
        as (r & t' & Hx & Hwf'); [done|by intros (? & ? & ? & _)|]. simpl in Hx.
      destruct (confirm t _ _) as [[b t1]|]; [|done]. simpl in Hx. injection Hx as <- <-. by eexists.
  - rewrite Hr. by eexists.
  - destruct Hr as (f & -> & Hf). destruct (fd_queue f) as [|active queue]; [|by eexists].
    destruct Hf as [?| ->]; [done|]. by eexists.
  - rewrite Hr. by eexists.
  - destruct Hr as [-> Hord].
    destruct (exec_ok (g_tracker g) (OFailAll PublishAmbiguous order) Hwf) as (r & t' & Hx & Hwf');
      [done|by intros (? & ? & ? & _)|]. simpl in Hx.
    destruct (failAll _ _ _) as [[n t1]|]; [|done]. simpl in Hx. injection Hx as <- <-. by eexists.
Qed.

(** the event loop never panics and never deadlocks on the tracker: from any
    well-formed tracker every ready case of its [select] runs to completion, in
    finitely many steps however many returns are queued, and leaves the tracker
    well formed. *)
Theorem event_loop_progress maximum g c order :
  rtc tracker_step (newPublishTracker maximum) (g_tracker g) → ready g c order →
  ∃ r, gen_step g c order = Some r ∧ wf (result_tracker r).
Proof. intros Hr%reachable_wf. by apply gen_step_ready. Qed.

(** ** A concrete generation *)

(** One publication outstanding, its return and its positive confirmation both
    waiting. *)
Definition example_generation : generation :=
  mkGeneration (newProducer example_producer_config) example_tracker
    (Some (mkFeed [mkAmqpReturn 312 "NO_ROUTE" (<[publishTokenHeader := VString "s/1"]> ∅)] false))
    (mkFeed [mkConfirmation 1 true] false) None false false.

Lemma returns_before_confirm_witness :
  match gen_step example_generation GenConfirm [] with
  | Some (GenContinue g') =>
    fst <$> receive (g_tracker g') 0 =
      Some (Some (mkPublishResult PublishReturned (Some (mkReturn 312 "NO_ROUTE" "orders" "created"))))
    ∧ ∃ last, return_token last = Some "s/1" ∧ fst <$> receive (g_tracker g') 0 =
        Some (Some (mkPublishResult PublishReturned (Some (correlated last "orders" "created"))))
  | _ => False
  end.
Proof.
  pose proof (returns_before_confirm example_generation (mkConfirmation 1 true) [] 0
    (mkAttempt 1 "s/1" "orders" "created" None make_chan) _
    (mkAmqpReturn 312 "NO_ROUTE" (<[publishTokenHeader := VString "s/1"]> ∅)) []
    (reachable_wf 2 _ example_reachable) eq_refl eq_refl eq_refl eq_refl eq_refl ltac:(left) eq_refl) as H.
  assert (∃ g', gen_step example_generation GenConfirm [] = Some (GenContinue g')
    ∧ fst <$> receive (g_tracker g') 0 = Some (Some (mkPublishResult PublishReturned
        (Some (mkReturn 312 "NO_ROUTE" "orders" "created"))))) as (g' & Hg & Hr)
    by (eexists; split; [reflexivity|vm_compute; reflexivity]).
  rewrite Hg in H |- *. exact (conj Hr H).
Defined.

Lemma event_loop_progress_witness :
  ∃ r, gen_step example_generation GenReturn [] = Some r ∧ wf (result_tracker r).
Proof.
  apply (event_loop_progress 2); [apply example_reachable|]. eexists. split; [reflexivity|]. by left.
Defined.
