(* ===== verification/TopologyApply.v ===== *)
(** * TopologyApply: verifying or declaring a topology

    topology_apply.go: [applyTopologyWith] with its bounded attempts,
    [applyTopologyChannel], [runTopologyOperation] and the error classification.

    What is outside the package (the caller's context, the credential provider,
    the dialler, the broker's channel) is a script: per attempt, what each of them
    answers at each point the code asks.  Every channel call the code makes is
    recorded, with its arguments, in the order it is started. *)

From S2P Require Import Prelude GoText Errors Config Amqp Message Topology.

(** ** Calls and their results *)

Inductive topology_call :=
| CallExchangeDeclarePassive (name kind : string) (durable autoDelete internal noWait : bool)
| CallQueueDeclarePassive (name : string) (durable autoDelete exclusive noWait : bool) (arguments : Table)
| CallExchangeDeclare (name kind : string) (durable autoDelete internal noWait : bool)
| CallQueueDeclare (name : string) (durable autoDelete exclusive noWait : bool) (arguments : Table)
| CallQueueBind (queue key exchange : string) (noWait : bool) (arguments : Table).

(** What happens to one operation: its context was over before it started, the
    call returned (with the name of a declared queue), or the context ended while
    the call was running. *)
Inductive op_event :=
| OpSkipped (contextErr : error)
| OpReturned (err : option error) (declared : string)
| OpTimedOut (contextErr : error).

(** The calls of an attempt so far, and whether its generation was closed early. *)
Record attempt_log := mkLog { lg_calls : list topology_call; lg_closed : bool }.

(** [runTopologyOperation]: the error, the declared name and the new log. *)
Definition runTopologyOperation (log : attempt_log) (event : op_event) (call : topology_call)
    : option error * string * attempt_log :=
  match event with
  | OpSkipped contextErr => (Some contextErr, EmptyString, log)
  | OpReturned err declared => (err, declared, mkLog (lg_calls log ++ [call]) (lg_closed log))
  | OpTimedOut contextErr => (Some contextErr, EmptyString, mkLog (lg_calls log ++ [call]) true)
  end.

(** ** Errors *)

(** [errors.As(err, &broker)]: the code of the first AMQP error of the tree. *)
Fixpoint as_broker (e : error) : option Z :=
  match e with
  | AmqpError code => Some code
  | AmqpErrClosed => Some 504
  | Joined a b => match as_broker a with Some code => Some code | None => as_broker b end
  | RetryableCause cause => as_broker cause
  | _ => None
  end.

Definition topologyOperationError (err : option error) : option error :=
  match err with
  | None => None
  | Some err =>
    return_if Is err Canceled || Is err DeadlineExceeded, Some (RetryableCause err) ;;
    match as_broker err with
    | Some code =>
      return_if code =? amqp_AccessRefused, Some ErrTopologyUnauthorized ;;
      return_if (code =? amqp_ResourceLocked) || (code =? amqp_PreconditionFailed),
        Some ErrTopologyInequivalent ;;
      return_if code =? amqp_NotFound, Some ErrTopologyUnavailable ;;
      Some Retryable
    | None => Some Retryable
    end
  end.

#[global] Arguments topologyOperationError : simpl never.

(** [errors.As(err, &retryable)] *)
Fixpoint retryableTopologyOperation (e : error) : bool :=
  match e with
  | Retryable | RetryableCause _ => true
  | Joined a b => retryableTopologyOperation a || retryableTopologyOperation b
  | _ => false
  end.

(** [closeTopologyResources]: a handle is [None] when nil, else the error of its
    close. *)
Definition topology_close_failed (handle : option (option error)) : bool :=
  match handle with
  | Some (Some err) => negb (Is err AmqpErrClosed)
  | _ => false
  end.

Definition closeTopologyResources (channel resource : option (option error)) : option error :=
  if topology_close_failed resource || topology_close_failed channel then Some ErrTopologyUnavailable else None.

Definition usableTopologyResources (channel resource : bool) (err : option error) : bool :=
  negb (present err) && channel && resource.

(** ** One attempt on an open channel *)

Definition exchange_call (policy : TopologyPolicy) (exchange : Exchange) : topology_call :=
  if Policy_Mode policy =s TopologyPassive
  then CallExchangeDeclarePassive (Exchange_Name exchange) (Exchange_Kind exchange)
         (Exchange_Durable exchange) (Exchange_AutoDelete exchange) (Exchange_Internal exchange) false
  else CallExchangeDeclare (Exchange_Name exchange) (Exchange_Kind exchange)
         (Exchange_Durable exchange) (Exchange_AutoDelete exchange) (Exchange_Internal exchange) false.

Definition queue_call (policy : TopologyPolicy) (queue : Queue) : topology_call :=
  if Policy_Mode policy =s TopologyPassive
  then CallQueueDeclarePassive (Queue_Name queue) (Queue_Durable queue) (Queue_AutoDelete queue)
         (Queue_Exclusive queue) false (queueArguments queue)
  else CallQueueDeclare (Queue_Name queue) (Queue_Durable queue) (Queue_AutoDelete queue)
         (Queue_Exclusive queue) false (queueArguments queue).

Definition binding_call (binding : Binding) : topology_call :=
  CallQueueBind (Binding_Queue binding) (Binding_RoutingKey binding) (Binding_Exchange binding) false
    (bindingArguments (Binding_Arguments binding)).

Section Attempt.
(** What happens to the [n]-th operation of the attempt. *)
Context (events : nat → op_event) (policy : TopologyPolicy).

Fixpoint apply_exchanges (n : nat) (log : attempt_log) (exchanges : list Exchange)
    : option error * attempt_log :=
  match exchanges with
  | [] => (None, log)
  | exchange :: exchanges =>
    let '(err, _, log) := runTopologyOperation log (events n) (exchange_call policy exchange) in
    return_if present err, (topologyOperationError err, log) ;;
    apply_exchanges (S n) log exchanges
  end.

Fixpoint apply_queues (n : nat) (log : attempt_log) (names : list string) (queues : list Queue)
    : option error * list string * attempt_log :=
  match queues with
  | [] => (None, names, log)
  | queue :: queues =>
    let '(err, declared, log) := runTopologyOperation log (events n) (queue_call policy queue) in
    return_if present err, (topologyOperationError err, [], log) ;;
    return_if invalidIdentity declared 255, (Some ErrTopologyUnavailable, [], log) ;;
    return_if negb (Queue_Name queue =s "") && negb (declared =s Queue_Name queue),
      (Some ErrTopologyInequivalent, [], log) ;;
    apply_queues (S n) log (names ++ [declared]) queues
  end.

Fixpoint apply_bindings (n : nat) (log : attempt_log) (bindings : list Binding)
    : option error * attempt_log :=
  match bindings with
  | [] => (None, log)
  | binding :: bindings =>
    let '(err, _, log) := runTopologyOperation log (events n) (binding_call binding) in
    return_if present err, (topologyOperationError err, log) ;;
    apply_bindings (S n) log bindings
  end.

(** [applyTopologyChannel]: the error, the queue names and the log. *)
Definition applyTopologyChannel (topology : Topology) : option error * list string * attempt_log :=
  let n := length (Exchanges topology) in
  match apply_exchanges 0 (mkLog [] false) (Exchanges topology) with
  | (Some err, log) => (Some err, [], log)
  | (None, log) =>
    match apply_queues n log [] (Queues topology) with
    | (Some err, _, log) => (Some err, [], log)
    | (None, names, log) =>
      match apply_bindings (n + length (Queues topology)) log (Bindings topology) with
      | (Some err, log) => (Some err, [], log)
      | (None, log) => (None, names, log)
      end
    end
  end.
End Attempt.

(** ** The attempt loop *)

Record attempt_script := mkAttemptScript {
  at_context : option error;            (** [ctx] at the top of the loop *)
  at_credentials : Credentials * option error;
  at_dial : bool * bool * option error; (** channel and resource present, error *)
  at_attempt_context : option error;    (** [attemptContext.Err()] on a failed attempt *)
  at_operations : nat → op_event;
  at_channel_close : option error;
  at_resource_close : option error;
  at_context_apply : option error;      (** [ctx.Err()] after a retryable operation error *)
  at_context_after : option error;      (** [ctx.Err()] before the next attempt *)
  at_wait : option error }.             (** [waitForRecovery] *)

(** One attempt of the run: the endpoint it used, when it dialled, and its calls. *)
Record attempt_record := mkAttemptRecord { ar_endpoint : option Z; ar_calls : list topology_call }.

(** How an iteration ends. *)
Inductive iteration :=
| IterReturn (result : error + list string) (record : attempt_record)
| IterRetry (record : attempt_record).

Section Loop.
Context {P : Type} (connection : ConnectionConfig P) (policy : TopologyPolicy) (topology : Topology)
  (scripts : nat → attempt_script).

(** The part of an iteration after the attempt. *)
Definition after_attempt (attempt : Z) (s : attempt_script) (attemptErr : option error) (record : attempt_record)
    : iteration :=
  match at_context_after s with
  | Some ctxErr => IterReturn (inl (Joined ErrTopologyUnavailable ctxErr)) record
  | None =>
    if finalRecoveryAttempt attempt (RecoveryPolicy_MaxAttempts (Recovery connection)) then
      match attemptErr with
      | Some err => IterReturn (inl (Joined ErrTopologyUnavailable err)) record
      | None => IterReturn (inl ErrTopologyUnavailable) record
      end
    else
      match at_wait s with
      | Some err => IterReturn (inl (Joined ErrTopologyUnavailable err)) record
      | None => IterRetry record
      end
  end.

Definition apply_iteration (attempt : Z) (s : attempt_script) : iteration :=
  let none := mkAttemptRecord None [] in
  match at_context s with
  | Some ctxErr => IterReturn (inl (Joined ErrTopologyUnavailable ctxErr)) none
  | None =>
    let '(credentials, credentialErr) := at_credentials s in
    if negb (usableCredentials credentials credentialErr)
    then after_attempt attempt s (at_attempt_context s) none
    else
      let endpoint := recoveryEndpointIndex 0 attempt (llen (Endpoints connection)) in
      let '(channel, resource, dialErr) := at_dial s in
      if usableTopologyResources channel resource dialErr then
        let '(applyErr, names, log) := applyTopologyChannel (at_operations s) policy topology in
        let closeErr := closeTopologyResources (Some (at_channel_close s)) (Some (at_resource_close s)) in
        let record := mkAttemptRecord (Some endpoint) (lg_calls log) in
        match applyErr with
        | Some applyErr =>
          return_if negb (Policy_Mode policy =s TopologyPassive) || negb (retryableTopologyOperation applyErr),
            IterReturn (inl applyErr) record ;;
          match at_context_apply s with
          | Some ctxErr => IterReturn (inl (Joined ErrTopologyUnavailable ctxErr)) record
          | None =>
            return_if present closeErr
                || finalRecoveryAttempt attempt (RecoveryPolicy_MaxAttempts (Recovery connection)),
              IterReturn (inl applyErr) record ;;
            after_attempt attempt s None record
          end
        | None =>
          return_if present closeErr, IterReturn (inl ErrTopologyUnavailable) record ;;
          IterReturn (inr names) record
        end
      else after_attempt attempt s (at_attempt_context s) (mkAttemptRecord (Some endpoint) [])
  end.

(** The loop with fuel: the result, if any, the attempts made and the delays
    waited between them. *)
Fixpoint apply_loop (fuel : nat) (attempt : nat) (delay : Z) (records : list attempt_record) (waits : list Z)
    : option (error + list string) * list attempt_record * list Z :=
  match fuel with
  | O => (None, records, waits)
  | S fuel =>
    match apply_iteration (Z.of_nat attempt) (scripts attempt) with
    | IterReturn result record => (Some result, records ++ [record], waits)
    | IterRetry record =>
      apply_loop fuel (S attempt) (nextRecoveryDelay delay (RecoveryPolicy_MaxDelay (Recovery connection)))
        (records ++ [record]) (waits ++ [delay])
    end
  end.
End Loop.

(** [applyTopologyWith]: the configured number of attempts is fuel enough. *)
Definition applyTopologyWith {P} (ctx : bool) (connection : ConnectionConfig P) (policy : TopologyPolicy)
    (topology : Topology) (dial : bool) (scripts : nat → attempt_script)
    : option (error + list string) * list attempt_record * list Z :=
  return_if negb ctx, (Some (inl ErrContextRequired), [], []) ;;
  match ConnectionConfig_Validate connection with
  | Some err => (Some (inl err), [], [])
  | None =>
    match Topology_Validate topology policy with
    | Some err => (Some (inl err), [], [])
    | None =>
      return_if negb dial, (Some (inl ErrTopologyUnavailable), [], []) ;;
      apply_loop (ownConnectionConfig connection) policy (ownTopology topology) scripts
        (Z.to_nat (RecoveryPolicy_MaxAttempts (Recovery connection))) 0
        (RecoveryPolicy_InitialDelay (Recovery connection)) [] []
    end
  end.

(** ** The plan of an attempt *)

(** The calls a complete attempt makes: exchanges, queues, bindings, each in
    input order. *)
Definition plan (policy : TopologyPolicy) (topology : Topology) : list topology_call :=
  map (exchange_call policy) (Exchanges topology) ++ map (queue_call policy) (Queues topology)
  ++ map binding_call (Bindings topology).

(** A call that leaves the broker's topology as it is. *)
Definition passive_call (c : topology_call) : bool :=
  match c with CallExchangeDeclarePassive _ _ _ _ _ _ | CallQueueDeclarePassive _ _ _ _ _ _ => true | _ => false end.

Section AttemptLemmas.
Context (events : nat → op_event) (policy : TopologyPolicy).

(** A run of operations: the calls made are an initial part of the calls
    planned, and all of them when no error is reported. *)
Definition performed (log log' : attempt_log) (calls : list topology_call) (ok : bool) : Prop :=
  ∃ k, lg_calls log' = lg_calls log ++ take k calls ∧ (ok = true → take k calls = calls).

Lemma operation_performed log event call err declared log' :
  runTopologyOperation log event call = (err, declared, log') →
  performed log log' [call] (negb (present err)) .
Proof using.
  unfold runTopologyOperation, performed. intros H. destruct event as [e|err' d|e]; simplify_eq/=.
  - exists 0%nat. rewrite app_nil_r. by split.
  - exists 1%nat. by split.
  - exists 1%nat. by split.
Qed.

Lemma performed_stop log log' call calls ok :
  performed log log' [call] ok → performed log log' (call :: calls) false.
Proof using.
  intros (k & Hk & _). destruct k as [|k].
  - exists 0%nat. by split.
  - exists 1%nat. simpl in *. rewrite take_nil in Hk. by rewrite take_0.
Qed.

Lemma performed_cons log log1 log' call calls ok :
  performed log log1 [call] true → performed log1 log' calls ok → performed log log' (call :: calls) ok.
Proof using.
  intros (k & Hk & Hall) (k' & Hk' & Hall'). specialize (Hall eq_refl). exists (S k').
  rewrite Hk', Hk, Hall, <- app_assoc. simpl. split; [done|]. intros Hok. f_equal. auto.
Qed.

Lemma performed_app log log1 log' calls calls' ok :
  performed log log1 calls true → performed log1 log' calls' ok → performed log log' (calls ++ calls') ok.
Proof using.
  intros (k & Hk & Hall) (k' & Hk' & Hall'). specialize (Hall eq_refl). exists (length calls + k')%nat.
  rewrite take_app_add. rewrite Hk', Hk, Hall, <- app_assoc. split; [done|].
  intros Hok. f_equal. auto.
Qed.

Lemma performed_weaken log log' calls calls' :
  performed log log' calls false → performed log log' (calls ++ calls') false.
Proof using.
  intros (k & Hk & _). exists (min k (length calls)). split; [|done].
  rewrite Hk. f_equal. rewrite take_app_le by lia.
  destruct (decide (k <= length calls)%nat); [by rewrite Nat.min_l by lia|].
  rewrite Nat.min_r by lia. by rewrite !take_ge by lia.
Qed.
End AttemptLemmas.

(** An operation error is never lost in classification. *)
Lemma operation_error_present e : present (topologyOperationError (Some e)) = true.
Proof. unfold topologyOperationError. by repeat case_match. Qed.

Section AttemptSpec.
Context (events : nat → op_event) (policy : TopologyPolicy).

Lemma apply_exchanges_performed n log exchanges err log' :
  apply_exchanges events policy n log exchanges = (err, log') →
  performed log log' (map (exchange_call policy) exchanges) (negb (present err)).
Proof using.
  revert n log. induction exchanges as [|exchange exchanges IH]; intros n log; simpl.
  { intros [= <- <-]. exists 0%nat. by rewrite app_nil_r. }
  destruct (runTopologyOperation _ _ _) as [[e d] log1] eqn:Hop. apply operation_performed in Hop.
  destruct e as [e|]; simpl in *.
  - intros [= <- <-]. rewrite operation_error_present. by eapply performed_stop.
  - intros H. eapply performed_cons; [done|by eapply IH].
Qed.

Lemma apply_bindings_performed n log bindings err log' :
  apply_bindings events n log bindings = (err, log') →
  performed log log' (map binding_call bindings) (negb (present err)).
Proof using.
  revert n log. induction bindings as [|binding bindings IH]; intros n log; simpl.
  { intros [= <- <-]. exists 0%nat. by rewrite app_nil_r. }
  destruct (runTopologyOperation _ _ _) as [[e d] log1] eqn:Hop. apply operation_performed in Hop.
  destruct e as [e|]; simpl in *.
  - intros [= <- <-]. rewrite operation_error_present. by eapply performed_stop.
  - intros H. eapply performed_cons; [done|by eapply IH].
Qed.

Lemma apply_queues_performed n log names queues err names' log' :
  (∀ q, q ∈ queues → Queue_Name q ≠ EmptyString) →
  apply_queues events policy n log names queues = (err, names', log') →
  performed log log' (map (queue_call policy) queues) (negb (present err))
  ∧ (err = None → names' = names ++ map Queue_Name queues).
Proof using.
  revert n log names. induction queues as [|queue queues IH]; intros n log names Hnames; simpl.
  { intros [= <- <- <-]. split; [exists 0%nat; by rewrite app_nil_r|by rewrite app_nil_r]. }
  rewrite (forall_cons _ queue queues) in Hnames. destruct Hnames as [Hname Hnames].
  destruct (runTopologyOperation _ _ _) as [[e d] log1] eqn:Hop. apply operation_performed in Hop.
  destruct e as [e|]; simpl in *.
  { intros [= <- <- <-]. rewrite operation_error_present. split; [by eapply performed_stop|].
    intros He. pose proof (operation_error_present e) as Hp. by rewrite He in Hp. }
  destruct (invalidIdentity d 255).
  { intros [= <- <- <-]. split; [by eapply performed_stop|done]. }
  destruct (String.eqb_spec (Queue_Name queue) "") as [|_]; [done|].
  destruct (String.eqb_spec d (Queue_Name queue)) as [->|Hne]; simpl; cycle 1.
  { intros [= <- <- <-]. split; [by eapply performed_stop|done]. }
  intros H. destruct (IH _ _ _ Hnames H) as [Hp Hn]. split; [by eapply performed_cons|].
  intros He. rewrite (Hn He), <- app_assoc. done.
Qed.

(** One attempt makes an initial part of the planned calls, all of them when it
    succeeds, and then reports the queue names in input order. *)
Lemma applyTopologyChannel_performed topology err names log :
  (∀ q, q ∈ Queues topology → Queue_Name q ≠ EmptyString) →
  applyTopologyChannel events policy topology = (err, names, log) →
  (∃ k, lg_calls log = take k (plan policy topology))
  ∧ (err = None → lg_calls log = plan policy topology ∧ names = map Queue_Name (Queues topology)).
Proof using.
  intros Hnames. unfold applyTopologyChannel, plan.
  destruct (apply_exchanges _ _ _ _ _) as [e1 log1] eqn:H1. apply apply_exchanges_performed in H1.
  destruct e1 as [e1|].
  { intros [= <- <- <-]. split; [|done]. apply (performed_weaken _ _ _ (map (queue_call policy) (Queues topology)
      ++ map binding_call (Bindings topology))) in H1 as (k & Hk & _). by exists k. }
  destruct (apply_queues _ _ _ _ _ _) as [[e2 names2] log2] eqn:H2.
  apply apply_queues_performed in H2 as [H2 Hn]; [|done].
  destruct e2 as [e2|].
  { intros [= <- <- <-]. split; [|done].
    apply (performed_weaken _ _ _ (map binding_call (Bindings topology))) in H2.
    destruct (performed_app _ _ _ _ _ _ H1 H2) as (k & Hk & _). by exists k. }
  destruct (apply_bindings _ _ _ _) as [e3 log3] eqn:H3. apply apply_bindings_performed in H3.
  pose proof (performed_app _ _ _ _ _ _ H2 H3) as H23.
  destruct (performed_app _ _ _ _ _ _ H1 H23) as (k & Hk & Hall).
  destruct e3 as [e3|]; intros [= <- <- <-]; (split; [by exists k|]); [done|]. intros _.
  split; [|by apply Hn]. rewrite Hk. simpl. by apply Hall.
Qed.
End AttemptSpec.

(** ** The loop *)

Section LoopSpec.
Context {P : Type} (connection : ConnectionConfig P) (policy : TopologyPolicy) (topology : Topology)
  (scripts : nat → attempt_script).
Hypothesis Hnames : ∀ q, q ∈ Queues topology → Queue_Name q ≠ EmptyString.

Abbreviation maximum := (RecoveryPolicy_MaxAttempts (Recovery connection)).

(** What an attempt may have done, given its number. *)
Definition attempt_ok (n : nat) (r : attempt_record) : Prop :=
  (∃ k, ar_calls r = take k (plan policy topology))
  ∧ (∀ e, ar_endpoint r = Some e → e = Z.rem (Z.of_nat n) (llen (Endpoints connection))).

Lemma no_calls_ok n endpoint :
  endpoint = None ∨ endpoint = Some (recoveryEndpointIndex 0 (Z.of_nat n) (llen (Endpoints connection))) →
  attempt_ok n (mkAttemptRecord endpoint []).
Proof using. intros He. split; [by exists 0%nat|]. simpl. destruct He as [-> | ->]; [done|]. by intros e [= <-]. Qed.

Lemma after_attempt_cases n s attemptErr r :
  match after_attempt connection n s attemptErr r with
  | IterReturn result r' => r' = r ∧ ∃ e, result = inl e
  | IterRetry r' => r' = r ∧ n + 1 ≠ maximum
  end.
Proof using.
  unfold after_attempt, finalRecoveryAttempt.
  repeat case_match; simplify_eq; try (split; [done|by eexists]). split; [done|]. breflect. done.
Qed.

(** An iteration: its record is in order; a success performed the whole plan; a
    retry has attempts left and, when declaring, has called nothing. *)
Lemma iteration_cases n :
  match apply_iteration connection policy topology (Z.of_nat n) (scripts n) with
  | IterReturn result r => attempt_ok n r ∧ ∀ names, result = inr names →
      ar_calls r = plan policy topology ∧ names = map Queue_Name (Queues topology)
  | IterRetry r => attempt_ok n r ∧ Z.of_nat n + 1 ≠ maximum
      ∧ (Policy_Mode policy ≠ TopologyPassive → ar_calls r = [])
  end.
Proof using Hnames.
  assert (∀ s attemptErr r, attempt_ok n r → (Policy_Mode policy ≠ TopologyPassive → ar_calls r = []) →
    match after_attempt connection (Z.of_nat n) s attemptErr r with
    | IterReturn result r => attempt_ok n r ∧ ∀ names, result = inr names →
        ar_calls r = plan policy topology ∧ names = map Queue_Name (Queues topology)
    | IterRetry r => attempt_ok n r ∧ Z.of_nat n + 1 ≠ maximum ∧ (Policy_Mode policy ≠ TopologyPassive → ar_calls r = [])
    end) as Hafter.
  { intros s attemptErr r Hr Hc. pose proof (after_attempt_cases (Z.of_nat n) s attemptErr r) as H.
    destruct (after_attempt _ _ _ _ _) as [result r'|r']; [|by destruct H as [-> ?]].
    destruct H as [-> [e ->]]. by split. }
  unfold apply_iteration. destruct (at_context (scripts n)).
  { split; [apply no_calls_ok; by left|done]. }
  destruct (at_credentials (scripts n)) as [credentials credentialErr].
  destruct (negb (usableCredentials _ _)); [apply Hafter; [apply no_calls_ok; by left|done]|].
  destruct (at_dial (scripts n)) as [[channel resource] dialErr].
  destruct (usableTopologyResources _ _ _); [|apply Hafter; [apply no_calls_ok; by right|done]].
  destruct (applyTopologyChannel _ _ _) as [[applyErr names] log] eqn:Happly.
  apply applyTopologyChannel_performed in Happly as [Hk Hall]; [|done].
  set (r := mkAttemptRecord _ (lg_calls log)).
  assert (attempt_ok n r) as Hr by (split; [done|]; by intros e [= <-]).
  destruct applyErr as [applyErr|].
  - destruct (negb (_ =s _) || _) eqn:Hmode; [by split|].
    apply orb_false_iff in Hmode as [Hpassive%negb_false_iff%String.eqb_eq _].
    destruct (at_context_apply (scripts n)); [by split|]. destruct (present _ || _); [by split|].
    apply Hafter; [done|]. by intros.
  - destruct (present _); [by split|]. split; [done|]. intros names' [= <-]. by apply Hall.
Qed.

(** Everything the loop does from attempt [n] on. *)
Lemma apply_loop_spec fuel n delay records waits result records' waits' :
  Z.of_nat n < maximum → Z.to_nat maximum = (n + fuel)%nat →
  apply_loop connection policy topology scripts fuel n delay records waits = (result, records', waits') →
  ∃ new last more, records' = records ++ new ++ [last] ∧ waits' = waits ++ more
  ∧ length more = length new ∧ (length new < fuel)%nat
  ∧ (∀ i r, (new ++ [last]) !! i = Some r → attempt_ok (n + i) r)
  ∧ (∀ i d, more !! i = Some d →
       d = Nat.iter i (λ d, nextRecoveryDelay d (RecoveryPolicy_MaxDelay (Recovery connection))) delay)
  ∧ (Policy_Mode policy ≠ TopologyPassive → ∀ r, r ∈ new → ar_calls r = [])
  ∧ ∃ outcome, result = Some outcome ∧ ∀ names, outcome = inr names →
      ar_calls last = plan policy topology ∧ names = map Queue_Name (Queues topology).
Proof using Hnames.
  revert n delay records waits. induction fuel as [|fuel IH]; intros n delay records waits Hn Hfuel; simpl; [lia|].
  pose proof (iteration_cases n) as Hit. destruct (apply_iteration _ _ _ _ _) as [outcome r|r].
  - intros [= <- <- <-]. exists [], r, []. rewrite app_nil_r. destruct Hit as [Hr Hout].
    split_and!; try done; try lia; simpl; [lia| | |by exists outcome].
    + intros i r'. destruct i as [|i]; simpl; [intros [= <-]; by rewrite Nat.add_0_r|by rewrite lookup_nil].
    + intros _ x Hx. by apply not_elem_of_nil in Hx.
  - destruct Hit as (Hr & Hmax & Hc). intros H.
    apply IH in H as (new & last & more & -> & -> & Hlen & Hlt & Hrec & Hdel & Hnone & Hout); [|lia|lia].
    exists (r :: new), last, (delay :: more). rewrite <- !app_assoc. split_and!; try done; simpl; try lia.
    + intros [|i] r'; simpl; [intros [= <-]; by rewrite Nat.add_0_r|]. intros Hi.
      replace (n + S i)%nat with (S n + i)%nat by lia. by apply Hrec.
    + intros [|i] d; simpl; [by intros [= <-]|]. intros Hi. rewrite (Hdel i d Hi).
      symmetry. apply (Nat.iter_succ_r i (λ d, nextRecoveryDelay d _)).
    + intros Hp. rewrite (forall_cons _ r new). split; [by apply Hc|by apply Hnone].
Qed.
End LoopSpec.

Lemma plan_own policy topology : plan policy (ownTopology topology) = plan policy topology.
Proof.
  unfold plan. simpl. do 2 f_equal. rewrite map_map. apply map_ext. intros binding.
  unfold binding_call, bindingArguments. simpl. by rewrite header_table_own.
Qed.

Lemma plan_passive policy topology :
  Policy_Mode policy = TopologyPassive → Bindings topology = [] →
  forallb passive_call (plan policy topology) = true.
Proof.
  intros Hp Hb. unfold plan. rewrite Hb, !forallb_app. simpl. rewrite andb_true_r, andb_true_iff.
  split; apply forallb_true; intros c; rewrite list_elem_of_In, in_map_iff; intros (x & <- & _).
  - unfold exchange_call. by rewrite Hp.
  - unfold queue_call. by rewrite Hp.
Qed.

Lemma forallb_take {A} (f : A → bool) k l : forallb f l = true → forallb f (take k l) = true.
Proof.
  intros H. rewrite <- (take_drop k l), forallb_app, andb_true_iff in H. tauto.
Qed.

Section Apply.
Context {P : Type} (connection : ConnectionConfig P) (policy : TopologyPolicy) (topology : Topology)
  (scripts : nat → attempt_script).

(** The whole run once the inputs are accepted. *)
Lemma applyTopologyWith_run result records waits :
  ConnectionConfig_Validate connection = None → Topology_Validate topology policy = None →
  applyTopologyWith true connection policy topology true scripts = (result, records, waits) →
  ∃ new last, records = new ++ [last] ∧ length waits = length new
  ∧ Z.of_nat (length records) <= RecoveryPolicy_MaxAttempts (Recovery connection)
  ∧ (∀ i r, records !! i = Some r → (∃ k, ar_calls r = take k (plan policy topology)) ∧
       ∀ e, ar_endpoint r = Some e → e = Z.rem (Z.of_nat i) (llen (Endpoints connection)))
  ∧ (∀ i d, waits !! i = Some d → d = Z.min (RecoveryPolicy_InitialDelay (Recovery connection) * 2 ^ Z.of_nat i)
                                        (RecoveryPolicy_MaxDelay (Recovery connection)))
  ∧ (Policy_Mode policy ≠ TopologyPassive → ∀ r, r ∈ new → ar_calls r = [])
  ∧ ∃ outcome, result = Some outcome ∧ ∀ names, outcome = inr names →
      ar_calls last = plan policy topology ∧ names = map Queue_Name (Queues topology).
Proof using.
  intros Hc Ht. unfold applyTopologyWith. rewrite Hc, Ht. simpl. intros Hrun.
  apply ConnectionConfig_Validate_valid in Hc. apply Topology_Validate_valid in Ht.
  assert (1 <= RecoveryPolicy_MaxAttempts (Recovery connection)) by (destruct Hc; lia).
  apply (apply_loop_spec (ownConnectionConfig connection) policy (ownTopology topology) scripts) in Hrun
    as (new & last & more & -> & -> & Hlen & Hlt & Hrec & Hdel & Hnone & outcome & -> & Hout); simpl.
  - exists new, last. split_and!; try done; [by rewrite length_app; simpl; lia| | |by exists outcome; rewrite plan_own in Hout].
    2: { intros i d Hi. rewrite (Hdel i d Hi).
         apply (recovery_delay_closed_form (Recovery connection)), (valid_connection_recovery _ Hc). }
    intros i r Hi. destruct (Hrec i r Hi) as [Hk He]. rewrite plan_own in Hk. split; [done|].
    intros e Hr. specialize (He e Hr). simpl in He. exact He.
  - intros q Hq. by destruct Ht as [_ _ _ _ _ _ _ _ Hqs _ _]; apply Hqs in Hq as (_ & _ & ?).
  - lia.
  - lia.
Qed.

(** C21: [ApplyTopology] touches the broker only as planned: every attempt makes
    an initial part of the calls for exchanges, then queues, then bindings, in
    input order and with the arguments of the topology; a passive run makes only
    passive calls; and a declaring run issues calls in its last attempt alone,
    so a failed mutation is never replayed. *)
Theorem topology_calls_planned result records waits :
  ConnectionConfig_Validate connection = None → Topology_Validate topology policy = None →
  applyTopologyWith true connection policy topology true scripts = (result, records, waits) →
  (∀ r, r ∈ records → ∃ k, ar_calls r = take k (plan policy topology))
  ∧ (Policy_Mode policy = TopologyPassive → ∀ r, r ∈ records → forallb passive_call (ar_calls r) = true)
  ∧ (Policy_Mode policy ≠ TopologyPassive →
       ∃ k, concat (map ar_calls records) = take k (plan policy topology)).
Proof using.
  intros Hc Ht Hrun. destruct (applyTopologyWith_run _ _ _ Hc Ht Hrun)
    as (new & last & -> & _ & _ & Hrec & _ & Hnone & _).
  assert (∀ r, r ∈ new ++ [last] → ∃ k, ar_calls r = take k (plan policy topology)) as Hall.
  { intros r [i Hi]%list_elem_of_lookup. by destruct (Hrec i r Hi) as [? _]. }
  split_and!; [done| |].
  - intros Hp r Hr. destruct (Hall r Hr) as [k ->]. apply forallb_take, plan_passive; [done|].
    apply Topology_Validate_valid in Ht. destruct Ht. auto.
  - intros Hp. rewrite map_app, concat_app. simpl. rewrite app_nil_r.
    assert (concat (map ar_calls new) = []) as ->.
    { specialize (Hnone Hp). clear -Hnone. induction new as [|r new IH]; [done|].
      rewrite (forall_cons _ r new) in Hnone. destruct Hnone as [Hr Hn]. simpl. rewrite Hr. by apply IH. }
    apply Hall. apply elem_of_app. right. by left.
Qed.

(** C31: [ApplyTopology] terminates within the configured number of attempts:
    it always returns, attempt [i] goes to the endpoint [i] modulo the number of
    endpoints, and the [i]-th wait is the initial delay doubled [i] times, but never
    more than the maximal delay. *)
Theorem topology_attempts_bounded :
  ConnectionConfig_Validate connection = None → Topology_Validate topology policy = None →
  ∃ outcome records waits,
    applyTopologyWith true connection policy topology true scripts = (Some outcome, records, waits)
    ∧ Z.of_nat (length records) <= RecoveryPolicy_MaxAttempts (Recovery connection)
    ∧ (∀ i r e, records !! i = Some r → ar_endpoint r = Some e →
         e = Z.rem (Z.of_nat i) (llen (Endpoints connection)))
    ∧ ∀ i d, waits !! i = Some d → d = Z.min (RecoveryPolicy_InitialDelay (Recovery connection) * 2 ^ Z.of_nat i)
                                        (RecoveryPolicy_MaxDelay (Recovery connection)).
Proof using.
  intros Hc Ht.
  destruct (applyTopologyWith true connection policy topology true scripts) as [[result records] waits] eqn:Hrun.
  destruct (applyTopologyWith_run _ _ _ Hc Ht Hrun)
    as (new & last & _ & _ & Hmax & Hrec & Hdel & _ & outcome & -> & _).
  exists outcome, records, waits. split_and!; try done. intros i r e Hi. by apply Hrec.
Qed.

(** A successful [ApplyTopology] did all of it: the last attempt made every
    planned call, and the result lists the queues under their own names, in
    input order. *)
Theorem topology_success_complete names records waits :
  ConnectionConfig_Validate connection = None → Topology_Validate topology policy = None →
  applyTopologyWith true connection policy topology true scripts = (Some (inr names), records, waits) →
  names = map Queue_Name (Queues topology)
  ∧ ∃ r, last records = Some r ∧ ar_calls r = plan policy topology.
Proof using.
  intros Hc Ht Hrun. destruct (applyTopologyWith_run _ _ _ Hc Ht Hrun)
    as (new & final & -> & _ & _ & _ & _ & _ & outcome & [= <-] & Hout).
  destruct (Hout names eq_refl) as [Hcalls ->]. split; [done|]. exists final. split; [|done].
  by rewrite last_snoc.
Qed.
End Apply.

(** ** Errors of operations *)

(** A broker refusal is reported by its class, and an operation error is reported
    without what the client said, unless it carries a context error. *)
Lemma topologyOperationError_sanitized err :
  Is err Canceled || Is err DeadlineExceeded = false →
  sanitizedOpt (topologyOperationError (Some err)) = true.
Proof. intros H. unfold topologyOperationError. rewrite H. by repeat case_match. Qed.

(** An error that carries a context error is kept whole, whatever else it
    carries: the cause of [retryableTopologyOperationError] can hold an error of
    the client. *)
Theorem topology_cause_retained err :
  Is err Canceled || Is err DeadlineExceeded = true →
  topologyOperationError (Some err) = Some (RetryableCause err)
  ∧ sanitizedOpt (topologyOperationError (Some (Joined Canceled (Foreign 1)))) = false.
Proof. intros H. unfold topologyOperationError. rewrite H. by vm_compute. Qed.

(** ** An example run *)

Definition example_topology_connection : ConnectionConfig unit :=
  mkConnectionConfig unit [mkEndpoint "mq-1" 5671; mkEndpoint "mq-2" 5671] "/" (Some ())
    (mkTLSConfig "mq" [] None None) (5 * Second) (10 * Second)
    (mkRecoveryPolicy 3 (100 * Millisecond) Second).

Definition example_plain_queue (name : string) : Queue :=
  mkQueue name QueueQuorum true false false false None 0 None None None None None None None EmptyString None.

Definition example_topology : Topology :=
  mkTopology [mkExchange "orders" ExchangeTopic true false false]
    [example_plain_queue "orders.eu"; example_plain_queue "orders.us"]
    [mkBinding "orders" "orders.eu" "eu.#" []].

Definition example_passive_topology : Topology :=
  mkTopology (Exchanges example_topology) (Queues example_topology) [].

Definition example_declare : TopologyPolicy := mkTopologyPolicy TopologyDeclare PermitDevelopmentTopology.
Definition example_passive : TopologyPolicy := mkTopologyPolicy TopologyPassive (mkPermit false).

(** The broker answers every operation; the second queue is operation 2. *)
Definition example_answers (n : nat) : op_event :=
  OpReturned None (if (n =? 1)%nat then "orders.eu" else "orders.us").

Definition example_attempt (dial : bool) (operations : nat → op_event) : attempt_script :=
  mkAttemptScript None (mkCredentials "worker" (Some [x01]), None)
    (dial, dial, if dial then None else Some (Foreign 7)) None operations None None None None None.

(** The first endpoint refuses the connection. *)
Definition example_scripts (attempt : nat) : attempt_script :=
  example_attempt (negb (attempt =? 0)%nat) example_answers.

(** The connection is lost during the first attempt's queue check. *)
Definition example_lossy_scripts (attempt : nat) : attempt_script :=
  example_attempt true (λ n,
    if (attempt =? 0)%nat && (n =? 1)%nat then OpReturned (Some AmqpErrClosed) EmptyString else example_answers n).

Definition example_run :=
  applyTopologyWith true example_topology_connection example_declare example_topology true example_scripts.

Lemma topology_calls_planned_witness :
  map ar_calls (snd (fst example_run)) = [[]; plan example_declare example_topology]
  ∧ ∃ k, concat (map ar_calls (snd (fst example_run))) = take k (plan example_declare example_topology).
Proof.
  split; [by vm_compute|].
  destruct example_run as [[result records] waits] eqn:Hrun.
  refine (proj2 (proj2 (topology_calls_planned example_topology_connection example_declare example_topology
    example_scripts result records waits _ _ Hrun)) _); [by vm_compute|by vm_compute|done].
Defined.

Lemma topology_attempts_bounded_witness :
  (let '(result, records, waits) := applyTopologyWith true example_topology_connection example_passive
     example_passive_topology true example_lossy_scripts in
   result = Some (inr ["orders.eu"; "orders.us"]) ∧ map ar_endpoint records = [Some 0; Some 1]
   ∧ map (λ r, length (ar_calls r)) records = [2; 3]%nat ∧ waits = [100 * Millisecond])
  ∧ ∃ outcome records waits, applyTopologyWith true example_topology_connection example_passive
      example_passive_topology true example_lossy_scripts = (Some outcome, records, waits)
      ∧ Z.of_nat (length records) <= 3.
Proof.
  split; [by vm_compute|].
  destruct (topology_attempts_bounded example_topology_connection example_passive example_passive_topology
    example_lossy_scripts) as (outcome & records & waits & Hrun & Hmax & _); [by vm_compute|by vm_compute|].
  exists outcome, records, waits. by split.
Defined.

Lemma topology_success_complete_witness :
  ∃ r, last (snd (fst example_run)) = Some r ∧ ar_calls r = plan example_declare example_topology.
Proof.
  refine (proj2 (topology_success_complete example_topology_connection example_declare example_topology
    example_scripts ["orders.eu"; "orders.us"] (snd (fst example_run)) (snd example_run) _ _ _)); by vm_compute.
Defined.
