(* ===== verification/Consumer.v ===== *)
(** * Consumer: the state and the operations of a consumer

    consumer.go and the consumer half of health.go: the lifecycle flags, pausing,
    draining and shutdown, the generations with their close and cancellation, the
    dispatcher of [consumeGeneration] with its ring of pending deliveries, and the
    workers' [handle] with [settle].

    What [stateMu] guards is the record [lifecycle], what [admissionMu] guards the
    record [admission].  A generation and the result shared by the copies of a
    delivery are referred to by their index, as the code refers to them by
    pointer.  The record [traffic] holds the jobs channel, the workers, the
    results and the client calls, with logs of what was received, accepted and
    admitted.  Where the code waits for a channel, a timer or a context, the
    definition takes what ended the wait as an argument. *)

From S2P Require Import Prelude GoText Errors Config Amqp Message Topology Settlement Delivery Observation.
From S2P Require Import Producer.

(** ** Generations *)

(** [consumerGeneration]: the failure slot, the close and the cancellation with
    their results once they are known, and the delegation mark. *)
Record consumerGeneration := mkConsumerGeneration {
  cg_failure : bool;
  cg_closed : bool;
  cg_closeResult : option (option error);
  cg_cancelStarted : bool;
  cg_cancelResult : option (option error);
  cg_delegated : bool }.

Definition newConsumerGeneration : consumerGeneration :=
  mkConsumerGeneration false false None false None false.

(** [consumerEnvelope]: the delivery with its tag, its generation and the result
    its copies share. *)
Record consumerEnvelope := mkEnvelope {
  env_delivery : Delivery;
  env_tag : Z;
  env_generation : nat;
  env_settlement : nat }.

(** ** Consumer state *)

Record lifecycle := mkLifecycle {
  lc_stopping : bool;
  lc_recovering : bool;
  lc_stopped : bool;
  lc_terminalErr : option error;
  lc_generation : nat;
  lc_drainErr : option error;
  lc_resourceErr : option error }.

(** [am_resume] is the current resume channel, [am_resumes] how many were made;
    [am_changed] is the one-slot [admissionChanged]. *)
Record admission := mkAdmission {
  am_paused : bool;
  am_resume : option nat;
  am_resumes : nat;
  am_shutdownAdmissionClosed : bool;
  am_changed : bool }.

(** Where the one shutdown is: not begun, past the closing of admission, past the
    stopping flag, done. *)
Inductive consumer_shutdown :=
| ConsumerOpen
| ConsumerAdmissionClosed
| ConsumerStopping
| ConsumerShutdownDone.

Record Consumer := mkConsumer {
  cn_lifecycle : lifecycle;
  cn_admission : admission;
  cn_recoveryStopped : bool;
  cn_lifetimeStopped : bool;
  cn_generations : list consumerGeneration;
  cn_observations : observationStream;
  cn_shutdown : consumer_shutdown;
  cn_shutdownErr : option error }.

Definition set_lifecycle (c : Consumer) (l : lifecycle) : Consumer :=
  mkConsumer l (cn_admission c) (cn_recoveryStopped c) (cn_lifetimeStopped c) (cn_generations c)
    (cn_observations c) (cn_shutdown c) (cn_shutdownErr c).
Definition set_admission (c : Consumer) (a : admission) : Consumer :=
  mkConsumer (cn_lifecycle c) a (cn_recoveryStopped c) (cn_lifetimeStopped c) (cn_generations c)
    (cn_observations c) (cn_shutdown c) (cn_shutdownErr c).
Definition set_contexts (c : Consumer) (recovery lifetime : bool) : Consumer :=
  mkConsumer (cn_lifecycle c) (cn_admission c) recovery lifetime (cn_generations c)
    (cn_observations c) (cn_shutdown c) (cn_shutdownErr c).
Definition set_generations (c : Consumer) (l : list consumerGeneration) : Consumer :=
  mkConsumer (cn_lifecycle c) (cn_admission c) (cn_recoveryStopped c) (cn_lifetimeStopped c) l
    (cn_observations c) (cn_shutdown c) (cn_shutdownErr c).
Definition set_observations (c : Consumer) (s : observationStream) : Consumer :=
  mkConsumer (cn_lifecycle c) (cn_admission c) (cn_recoveryStopped c) (cn_lifetimeStopped c)
    (cn_generations c) s (cn_shutdown c) (cn_shutdownErr c).
Definition set_consumer_shutdown (c : Consumer) (phase : consumer_shutdown) (err : option error) : Consumer :=
  mkConsumer (cn_lifecycle c) (cn_admission c) (cn_recoveryStopped c) (cn_lifetimeStopped c)
    (cn_generations c) (cn_observations c) phase err.

(** Lifecycle updates of one or two fields. *)
Definition with_stopping (l : lifecycle) : lifecycle :=
  mkLifecycle true (lc_recovering l) (lc_stopped l) (lc_terminalErr l) (lc_generation l)
    (lc_drainErr l) (lc_resourceErr l).
Definition with_recovering (l : lifecycle) (recovering : bool) : lifecycle :=
  mkLifecycle (lc_stopping l) recovering (lc_stopped l) (lc_terminalErr l) (lc_generation l)
    (lc_drainErr l) (lc_resourceErr l).
Definition with_terminal (l : lifecycle) (err : option error) : lifecycle :=
  mkLifecycle (lc_stopping l) (lc_recovering l) (lc_stopped l) err (lc_generation l)
    (lc_drainErr l) (lc_resourceErr l).
Definition with_generation (l : lifecycle) (g : nat) : lifecycle :=
  mkLifecycle (lc_stopping l) (lc_recovering l) (lc_stopped l) (lc_terminalErr l) g
    (lc_drainErr l) (lc_resourceErr l).
Definition with_drainErr (l : lifecycle) (err : option error) : lifecycle :=
  mkLifecycle (lc_stopping l) (lc_recovering l) (lc_stopped l) (lc_terminalErr l) (lc_generation l)
    err (lc_resourceErr l).
Definition with_resourceErr (l : lifecycle) (err : option error) : lifecycle :=
  mkLifecycle (lc_stopping l) (lc_recovering l) (lc_stopped l) (lc_terminalErr l) (lc_generation l)
    (lc_drainErr l) err.

Definition Consumer_observe (c : Consumer) (o : Observation) : Consumer :=
  set_observations c (emit (cn_observations c) o).

(** An observation made only on some condition. *)
Definition observe_if (b : bool) (c : Consumer) (o : Observation) : Consumer :=
  if b then Consumer_observe c o else c.

(** A generation's fields, updated through its pointer. *)
Definition set_generation (c : Consumer) (g : nat) (f : consumerGeneration → consumerGeneration) : Consumer :=
  set_generations c (alter f g (cn_generations c)).

(** ** Flags *)

Definition consumerRecoveryAllowed (current stopping : bool) (terminal : option error) (recovering : bool)
    : bool := current && negb stopping && negb (present terminal) && negb recovering.

Definition consumerGenerationCanSignal (current stopping : bool) : bool := current && negb stopping.

Definition consumerTerminalUnset (err : option error) : bool := negb (present err).

Definition signal_failure (g : consumerGeneration) : consumerGeneration :=
  mkConsumerGeneration true (cg_closed g) (cg_closeResult g) (cg_cancelStarted g) (cg_cancelResult g)
    (cg_delegated g).

Definition clear_failure (g : consumerGeneration) : consumerGeneration :=
  mkConsumerGeneration false (cg_closed g) (cg_closeResult g) (cg_cancelStarted g) (cg_cancelResult g)
    (cg_delegated g).

Definition Consumer_failGeneration (c : Consumer) (generation : nat) : Consumer :=
  let l := cn_lifecycle c in
  let current := (lc_generation l =? generation)%nat in
  let stopping := lc_stopping l in
  let l := if current && stopping && negb (present (lc_drainErr l))
           then with_drainErr l (Some ErrConsumerUnavailable) else l in
  let changed := consumerRecoveryAllowed current stopping (lc_terminalErr l) (lc_recovering l) in
  let l := if changed then with_recovering l true else l in
  let c := set_lifecycle c l in
  return_if negb (consumerGenerationCanSignal current stopping), c ;;
  let c := observe_if changed c (observation ObservationConnectionState ObservationRecovering) in
  set_generation c generation signal_failure.

Definition beginRecovery (c : Consumer) : Consumer :=
  let l := cn_lifecycle c in
  let changed := consumerRecoveryAllowed true (lc_stopping l) (lc_terminalErr l) (lc_recovering l) in
  let c := set_lifecycle c (if changed then with_recovering l true else l) in
  observe_if changed c (observation ObservationConnectionState ObservationRecovering).

Definition Consumer_finishRecovery (c : Consumer) : Consumer :=
  Consumer_observe (set_lifecycle c (with_recovering (cn_lifecycle c) false))
    (observation ObservationConnectionState ObservationRecovered).

Definition isStopping (c : Consumer) : bool := lc_stopping (cn_lifecycle c).

Definition setTerminalError (c : Consumer) (err : option error) : Consumer :=
  let l := cn_lifecycle c in
  let changed := consumerTerminalUnset (lc_terminalErr l) in
  let c := set_lifecycle c (if changed then with_terminal l err else l) in
  observe_if changed c (observation ObservationConnectionState ObservationUnavailable).

Definition setResourceError (c : Consumer) (err : option error) : Consumer :=
  return_if negb (present err), c ;;
  set_lifecycle c (with_resourceErr (cn_lifecycle c) (Some ErrConsumerUnavailable)).

Definition setDrainError (c : Consumer) : Consumer :=
  set_lifecycle c (with_drainErr (cn_lifecycle c) (Some ErrConsumerUnavailable)).

Definition drainError (c : Consumer) : option error :=
  return_if present (lc_drainErr (cn_lifecycle c)) || present (lc_resourceErr (cn_lifecycle c)),
    Some ErrConsumerUnavailable ;;
  None.

Definition currentGeneration (c : Consumer) : nat := lc_generation (cn_lifecycle c).

Definition Consumer_Err (c : Consumer) : option error := lc_terminalErr (cn_lifecycle c).

(** ** Pausing *)

Definition consumerLifecycleClosed (stopping stopped terminal : bool) : bool := stopping || stopped || terminal.

Definition Consumer_closed (c : Consumer) : bool :=
  let l := cn_lifecycle c in
  consumerLifecycleClosed (lc_stopping l) (lc_stopped l) (present (lc_terminalErr l)).

Definition signalAdmissionChanged (c : Consumer) : Consumer :=
  let a := cn_admission c in
  set_admission c (mkAdmission (am_paused a) (am_resume a) (am_resumes a) (am_shutdownAdmissionClosed a) true).

Definition Pause (c : Consumer) : option error * Consumer :=
  return_if Consumer_closed c, (Some ErrConsumerClosed, c) ;;
  let a := cn_admission c in
  return_if am_paused a, (None, c) ;;
  let c := set_admission c (mkAdmission true (Some (am_resumes a)) (S (am_resumes a))
                              (am_shutdownAdmissionClosed a) (am_changed a)) in
  (None, signalAdmissionChanged c).

Definition Resume (c : Consumer) : option error * Consumer :=
  return_if Consumer_closed c, (Some ErrConsumerClosed, c) ;;
  let a := cn_admission c in
  return_if negb (am_paused a), (None, c) ;;
  let c := set_admission c (mkAdmission false None (am_resumes a) (am_shutdownAdmissionClosed a) (am_changed a)) in
  (None, signalAdmissionChanged c).

(** A resume channel is closed once it was made and is no longer the current one. *)
Definition resume_closed (c : Consumer) (resume : nat) : bool :=
  (resume <? am_resumes (cn_admission c))%nat
  && negb (match am_resume (cn_admission c) with Some r => (r =? resume)%nat | None => false end).

(** ** Closing and cancelling a generation *)

(** How the close of a handle ended: not in time, or with its error. *)
Definition close_outcome : Type := option (option error).

Definition consumerCloseFailed (err : option error) : bool :=
  match err with Some err => negb (Is err AmqpErrClosed) | None => false end.

(** [boundedCloseConsumerResources]: a handle is [None] when nil; the result with
    whether the close of the resource and of the channel was started. *)
Definition boundedCloseConsumerResources (resource channel : option close_outcome)
    : option error * bool * bool :=
  let '(unfinished, failed) :=
    match resource with
    | None => (false, false)
    | Some None => (true, false)
    | Some (Some err) => (false, consumerCloseFailed err)
    end in
  return_if unfinished, (Some ErrConsumerUnavailable, present resource, present channel) ;;
  match channel with
  | None => (if failed then Some ErrConsumerUnavailable else None, present resource, false)
  | Some None => (Some ErrConsumerUnavailable, present resource, true)
  | Some (Some err) =>
    (if failed || consumerCloseFailed err then Some ErrConsumerUnavailable else None, present resource, true)
  end.

(** What ends [closeGeneration]: its deadline had passed, the close finished (with
    the outcomes of its two handles), or the timer. *)
Inductive close_event :=
| CloseLate
| CloseFinished (resource channel : close_outcome)
| CloseTimer.

Definition begin_close (g : consumerGeneration) : consumerGeneration :=
  mkConsumerGeneration (cg_failure g) true (cg_closeResult g) (cg_cancelStarted g) (cg_cancelResult g)
    (cg_delegated g).

Definition end_close (err : option error) (g : consumerGeneration) : consumerGeneration :=
  mkConsumerGeneration (cg_failure g) (cg_closed g) (Some err) (cg_cancelStarted g) (cg_cancelResult g)
    (cg_delegated g).

(** [closeGeneration]: the close runs once, and every caller sees its result. *)
Definition closeGeneration (c : Consumer) (generation : nat) (event : close_event) : option error * Consumer :=
  match cn_generations c !! generation with
  | None => (None, c)
  | Some g =>
    let c := set_generation c generation begin_close in
    match event with
    | CloseLate | CloseTimer => (Some ErrConsumerUnavailable, c)
    | CloseFinished resource channel =>
      match cg_closeResult g with
      | Some err => (err, c)
      | None =>
        let err := (boundedCloseConsumerResources (Some resource) (Some channel)).1.1 in
        (err, set_generation c generation (end_close err))
      end
    end
  end.

Definition consumerGenerationCanCancel (closed : bool) : bool := negb closed.

(** What ends the wait for the broker's cancellation. *)
Inductive cancel_event :=
| CancelFinished (err : option error)
| CancelContext (contextErr : error).

Definition begin_cancel (g : consumerGeneration) : consumerGeneration :=
  mkConsumerGeneration (cg_failure g) (cg_closed g) (cg_closeResult g) true (cg_cancelResult g) (cg_delegated g).

Definition end_cancel (err : option error) (g : consumerGeneration) : consumerGeneration :=
  mkConsumerGeneration (cg_failure g) (cg_closed g) (cg_closeResult g) (cg_cancelStarted g) (Some err)
    (cg_delegated g).

(** [cancelGeneration]: [ctxErr] is the context's error before the wait. *)
Definition cancelGeneration (c : Consumer) (generation : nat) (ctxErr : option error) (event : cancel_event)
    : option error * Consumer :=
  match cn_generations c !! generation with
  | None => (None, c)
  | Some g =>
    return_if negb (consumerGenerationCanCancel (cg_closed g)), (None, c) ;;
    let c := set_generation c generation begin_cancel in
    match ctxErr with
    | Some err => (Some err, c)
    | None =>
      match event with
      | CancelContext err => (Some err, c)
      | CancelFinished err =>
        match cg_cancelResult g with
        | Some err => (err, c)
        | None =>
          let err := if present err then Some ErrConsumerUnavailable else None in
          (err, set_generation c generation (end_cancel err))
        end
      end
    end
  end.

(** ** Drain and shutdown *)

Definition stopRecovery (c : Consumer) : Consumer := set_contexts c true (cn_lifetimeStopped c).
Definition stopLifetime (c : Consumer) : Consumer := set_contexts c (cn_recoveryStopped c) true.

(** The stopping flag, with its observation the first time. *)
Definition begin_stopping (c : Consumer) : Consumer :=
  let first := negb (lc_stopping (cn_lifecycle c)) in
  observe_if first (set_lifecycle c (with_stopping (cn_lifecycle c)))
    (observation ObservationShutdown ObservationShutdownStarted).

(** [Drain] up to the cancellation of its generation. *)
Definition Drain_begin (c : Consumer) : Consumer := stopRecovery (begin_stopping c).

(** [Drain] giving up on a generation. *)
Definition Drain_abort (c : Consumer) (generation : nat) (close : close_event) : Consumer :=
  (closeGeneration (stopLifetime c) generation close).2.

Definition consumerCompletedDrainResult (ctxErr drainErr : option error) : option error :=
  match ctxErr with Some err => Some err | None => drainErr end.

(** What ends the last wait of [Drain]: [done], with the context's error at that
    moment, or the context. *)
Inductive drain_event :=
| DrainDone (ctxErr : option error)
| DrainContext (contextErr : error).

(** [Drain]: [ctx] tells whether a context was supplied; [later] is the consumer
    when the last wait ends. *)
Definition Drain (c : Consumer) (ctx : bool) (ctxErr : option error) (cancel : cancel_event)
    (later : Consumer) (event : drain_event) (close : close_event) : option error * Consumer :=
  return_if negb ctx, (Some ErrContextRequired, c) ;;
  let generation := currentGeneration c in
  let '(err, c) := cancelGeneration (Drain_begin c) generation ctxErr cancel in
  match err with
  | Some err => (Some err, Drain_abort c generation close)
  | None =>
    match event with
    | DrainDone ctxErr => (consumerCompletedDrainResult ctxErr (drainError later), later)
    | DrainContext err => (Some err, Drain_abort later generation close)
    end
  end.

(** The body [Shutdown] runs once: it closes admission, then stops. *)
Definition Shutdown_close (c : Consumer) : Consumer :=
  match cn_shutdown c with
  | ConsumerOpen =>
    let a := cn_admission c in
    let c := set_admission c (mkAdmission (am_paused a) (am_resume a) (am_resumes a) true (am_changed a)) in
    set_consumer_shutdown (signalAdmissionChanged c) ConsumerAdmissionClosed None
  | _ => c
  end.

Definition Shutdown_stop (c : Consumer) : Consumer :=
  match cn_shutdown c with
  | ConsumerAdmissionClosed => set_consumer_shutdown (begin_stopping c) ConsumerStopping None
  | _ => c
  end.

(** [finishShutdown] past its [Drain]. *)
Definition Consumer_finishShutdown (c : Consumer) (drainErr : option error) (close : close_event) : Consumer :=
  let '(closeErr, c) := closeGeneration c (currentGeneration c) close in
  let c := setResourceError c closeErr in
  match drainErr with
  | Some err => set_consumer_shutdown c ConsumerShutdownDone (Some err)
  | None => set_consumer_shutdown c ConsumerShutdownDone (lc_resourceErr (cn_lifecycle c))
  end.

(** [Shutdown]: [later] is the consumer when the last wait ends. *)
Definition Consumer_Shutdown (c : Consumer) (ctx : bool) (ctxErr : option error) (later : Consumer)
    (event : shutdown_event) : option error * Consumer :=
  return_if negb ctx, (Some ErrContextRequired, c) ;;
  let c := Shutdown_stop (Shutdown_close c) in
  match ctxErr with
  | Some err => (Some err, c)
  | None =>
    match event with
    | ShutdownContext err => (Some err, later)
    | ShutdownFinished => (cn_shutdownErr later, later)
    end
  end.

(** ** Health (health.go) *)

Definition Consumer_Liveness (c : Consumer) : Liveness :=
  return_if present (lc_terminalErr (cn_lifecycle c)), LivenessFailed ;;
  return_if lc_stopped (cn_lifecycle c), LivenessStopped ;;
  LivenessLive.

Definition Consumer_Readiness (c : Consumer) : Readiness :=
  return_if am_paused (cn_admission c), ReadinessNotReady ;;
  let l := cn_lifecycle c in
  return_if lc_stopping l || lc_recovering l || present (lc_terminalErr l) || lc_stopped l, ReadinessNotReady ;;
  ReadinessReady.

Definition Consumer_DependencyHealth (c : Consumer) : DependencyHealth :=
  let l := cn_lifecycle c in
  return_if present (lc_terminalErr l), DependencyUnavailable ;;
  return_if lc_stopped l || lc_stopping l, DependencyUnknown ;;
  return_if lc_recovering l, DependencyRecovering ;;
  DependencyAvailable.

(** ** Settling *)

(** The client's settlement calls; [multiple] is always false. *)
Inductive settlement_call :=
| CallAck (tag : Z) (multiple : bool)
| CallNack (tag : Z) (multiple requeue : bool)
| CallReject (tag : Z) (requeue : bool).

(** A worker: in the handler, settling, or past the settlement with its error. *)
Inductive worker :=
| Handling (envelope : consumerEnvelope)
| Settling (envelope : consumerEnvelope) (settlement : Settlement)
| Completing (envelope : consumerEnvelope) (err : option error).

(** What passes through a consumer.  [tf_calls] are the client calls with the
    generation whose channel they went to; [tf_received], [tf_accepted] and
    [tf_admitted] log the deliveries received from the broker, put into the ring
    and put into the jobs channel. *)
Record traffic := mkTraffic {
  tf_jobs : list consumerEnvelope;
  tf_jobsClosed : bool;
  tf_workers : list worker;
  tf_settlements : list deliverySettlement;
  tf_calls : list (nat * settlement_call);
  tf_received : list (nat * AmqpDelivery);
  tf_accepted : list consumerEnvelope;
  tf_admitted : list consumerEnvelope }.

Definition set_jobs (t : traffic) (jobs : list consumerEnvelope) (closed : bool) : traffic :=
  mkTraffic jobs closed (tf_workers t) (tf_settlements t) (tf_calls t) (tf_received t) (tf_accepted t)
    (tf_admitted t).
Definition set_workers (t : traffic) (workers : list worker) : traffic :=
  mkTraffic (tf_jobs t) (tf_jobsClosed t) workers (tf_settlements t) (tf_calls t) (tf_received t)
    (tf_accepted t) (tf_admitted t).
Definition set_settlements (t : traffic) (l : list deliverySettlement) : traffic :=
  mkTraffic (tf_jobs t) (tf_jobsClosed t) (tf_workers t) l (tf_calls t) (tf_received t)
    (tf_accepted t) (tf_admitted t).
Definition log_call (t : traffic) (generation : nat) (call : option settlement_call) : traffic :=
  mkTraffic (tf_jobs t) (tf_jobsClosed t) (tf_workers t) (tf_settlements t)
    (tf_calls t ++ match call with Some call => [(generation, call)] | None => [] end)
    (tf_received t) (tf_accepted t) (tf_admitted t).
Definition log_received (t : traffic) (generation : nat) (source : AmqpDelivery) : traffic :=
  mkTraffic (tf_jobs t) (tf_jobsClosed t) (tf_workers t) (tf_settlements t) (tf_calls t)
    (tf_received t ++ [(generation, source)]) (tf_accepted t) (tf_admitted t).
Definition log_accepted (t : traffic) (envelope : consumerEnvelope) : traffic :=
  mkTraffic (tf_jobs t) (tf_jobsClosed t) (tf_workers t) (tf_settlements t ++ [newDeliverySettlement])
    (tf_calls t) (tf_received t) (tf_accepted t ++ [envelope]) (tf_admitted t).
Definition log_admitted (t : traffic) (envelope : consumerEnvelope) : traffic :=
  mkTraffic (tf_jobs t ++ [envelope]) (tf_jobsClosed t) (tf_workers t) (tf_settlements t) (tf_calls t)
    (tf_received t) (tf_accepted t) (tf_admitted t ++ [envelope]).

(** [applySettlement]: the call it makes; [None] is [ErrInvalidSettlement]. *)
Definition applySettlement (tag : Z) (settlement : Settlement) : option settlement_call :=
  if Method settlement =s SettlementAcknowledge then Some (CallAck tag false)
  else if Method settlement =s SettlementNegativeAcknowledge then Some (CallNack tag false (Requeue settlement))
  else if Method settlement =s SettlementReject then Some (CallReject tag (Requeue settlement))
  else None.

Definition isAcknowledgement (method : SettlementMethod) : bool := method =s SettlementAcknowledge.

(** What ends [settle]: the client's call returned, or the context, after which
    the generation is closed. *)
Inductive settle_event :=
| SettleReturned (err : option error)
| SettleTimedOut (close : close_event).

Definition settlement_outcome (method : SettlementMethod) : ObservationOutcome :=
  if method =s SettlementAcknowledge then ObservationAcknowledged
  else if method =s SettlementNegativeAcknowledge then ObservationNegativeAcknowledged
  else ObservationRejected.

Definition settle (c : Consumer) (t : traffic) (generation : nat) (tag : Z) (settlement : Settlement)
    (event : settle_event) : option error * Consumer * traffic :=
  let call := applySettlement tag settlement in
  let t := log_call t generation call in
  match event with
  | SettleReturned err =>
    let err := if present call then err else Some ErrInvalidSettlement in
    return_if present err, (err, c, t) ;;
    let outcome := settlement_outcome (Method settlement) in
    let c := Consumer_observe c (observation ObservationSettlement outcome) in
    (None, observe_if (isAcknowledgement (Method settlement)) c (observation ObservationAcknowledgement outcome), t)
  | SettleTimedOut close => (Some ErrConsumerUnavailable, (closeGeneration c generation close).2, t)
  end.

(** ** Handling a delivery *)

Definition invalidConsumerHandlerOutcome (handlerErr contextErr : option error) (requested : Settlement) : bool :=
  present handlerErr || present contextErr || present (Settlement_Validate requested).

Definition delegatedSettlement (method : SettlementMethod) : bool := method =s SettlementDelegate.

Definition mark_delegated (g : consumerGeneration) : consumerGeneration :=
  mkConsumerGeneration (cg_failure g) (cg_closed g) (cg_closeResult g) (cg_cancelStarted g) (cg_cancelResult g) true.

(** The result shared by the copies of the envelope's delivery. *)
Definition complete_envelope (t : traffic) (envelope : consumerEnvelope) (err : option error) : traffic :=
  set_settlements t (alter (λ s, default s (completeSettlement (Some s) err)) (env_settlement envelope)
                       (tf_settlements t)).

Section Operations.
Context (config : ConsumerConfig).

(** [handle] from the handler's return to the settlement it starts; [None] when
    the settlement is delegated. *)
Definition handle_decide (c : Consumer) (t : traffic) (envelope : consumerEnvelope)
    (requested : Settlement) (handlerErr contextErr : option error)
    : option Settlement * Consumer * traffic :=
  let invalid := invalidConsumerHandlerOutcome handlerErr contextErr requested in
  let c := observe_if invalid c (observation ObservationHandlerFailure ObservationHandlerFailed) in
  let requested := if invalid then Failure config else requested in
  if delegatedSettlement (Method requested)
  then (None, set_generation c (env_generation envelope) mark_delegated,
        complete_envelope t envelope (Some ErrSettlementResultUnavailable))
  else (Some (boundedSettlement (env_delivery envelope) requested config), c, t).

(** [handle] once the settlement has ended. *)
Definition handle_complete (c : Consumer) (t : traffic) (envelope : consumerEnvelope) (settlementErr : option error)
    : Consumer * traffic :=
  let settlementResult := if consumerOperationFailed settlementErr then Some ErrConsumerUnavailable else None in
  let t := complete_envelope t envelope settlementResult in
  (if consumerOperationFailed settlementErr then Consumer_failGeneration c (env_generation envelope) else c, t).

(** [handle], when nothing else runs in between. *)
Definition handle (c : Consumer) (t : traffic) (envelope : consumerEnvelope)
    (requested : Settlement) (handlerErr contextErr : option error) (event : settle_event) : Consumer * traffic :=
  match handle_decide c t envelope requested handlerErr contextErr with
  | (None, c, t) => (c, t)
  | (Some settlement, c, t) =>
    let '(err, c, t) := settle c t (env_generation envelope) (env_tag envelope) settlement event in
    handle_complete c t envelope err
  end.

(** ** The dispatcher *)

Definition consumerPendingCapacity (prefetch : Z) : Z := prefetch + 1.
Definition nextConsumerPendingCount (pending : Z) : Z := pending + 1.
Definition consumerAdmissionPaused (paused draining : bool) : bool := paused && negb draining.
Definition consumerDrainComplete (draining deliveriesClosed : bool) (pendingCount : Z) : bool :=
  draining && deliveriesClosed && (pendingCount =? 0).
Definition hasDeadLetterHistory (deaths : list Death) : bool := negb (llen deaths =? 0).
Definition consumerBacklogFull (pendingCount admittedCount prefetch : Z) : bool :=
  pendingCount + admittedCount >=? prefetch.
Definition matchingConsumerCancellation (tag name : string) : bool := tag =s name.
Definition suspendConsumerDeliveries (deliveriesClosed paused : bool) (pendingCount capacity : Z) : bool :=
  deliveriesClosed || (negb paused && (pendingCount >? 0)) || (pendingCount =? capacity).

(** The slice [pending] with its head and count; an empty slot is the zero
    envelope. *)
Record ring := mkRing {
  rg_pending : list (option consumerEnvelope);
  rg_head : Z;
  rg_count : Z }.

Definition newRing : ring :=
  mkRing (replicate (Z.to_nat (consumerPendingCapacity (Prefetch config))) None) 0 0.

Definition discardConsumerPending (r : ring) : ring := mkRing (map (λ _, None) (rg_pending r)) 0 0.

Definition ring_front (r : ring) : option consumerEnvelope := mjoin (rg_pending r !! Z.to_nat (rg_head r)).

Definition ring_pop (r : ring) : ring :=
  mkRing (<[Z.to_nat (rg_head r) := None]> (rg_pending r))
    (Z.rem (rg_head r + 1) (llen (rg_pending r))) (rg_count r - 1).

Definition ring_push (r : ring) (envelope : consumerEnvelope) : ring :=
  mkRing (<[Z.to_nat (Z.rem (rg_head r + rg_count r) (llen (rg_pending r))) := Some envelope]> (rg_pending r))
    (rg_head r) (nextConsumerPendingCount (rg_count r)).

(** The local variables of [consumeGeneration]; the two channels are true while
    they are not nil. *)
Record dispatcher := mkDispatcher {
  dp_generation : nat;
  dp_ring : ring;
  dp_cancellations : bool;
  dp_recoveryDone : bool;
  dp_draining : bool;
  dp_deliveriesClosed : bool }.

Definition newDispatcher (generation : nat) : dispatcher :=
  mkDispatcher generation newRing true true false false.

Definition set_ring (d : dispatcher) (r : ring) : dispatcher :=
  mkDispatcher (dp_generation d) r (dp_cancellations d) (dp_recoveryDone d) (dp_draining d) (dp_deliveriesClosed d).

(** [draining = true; recoveryDone = nil] *)
Definition start_draining (d : dispatcher) : dispatcher :=
  mkDispatcher (dp_generation d) (dp_ring d) (dp_cancellations d) false true (dp_deliveriesClosed d).

Definition set_cancellations (d : dispatcher) : dispatcher :=
  mkDispatcher (dp_generation d) (dp_ring d) false (dp_recoveryDone d) (dp_draining d) (dp_deliveriesClosed d).

Definition close_deliveries (d : dispatcher) : dispatcher :=
  mkDispatcher (dp_generation d) (dp_ring d) (dp_cancellations d) (dp_recoveryDone d) (dp_draining d) true.

(** How the part of an iteration before its [select] ends. *)
Inductive top_result :=
| TopContinue (d : dispatcher)
| TopSelect (d : dispatcher) (deliveries : bool) (resume : option nat)
| TopDrained.

(** A shutdown discards what is pending. *)
Definition dispatch_discard (c : Consumer) (d : dispatcher) : Consumer * dispatcher :=
  if am_shutdownAdmissionClosed (cn_admission c)
  then (if rg_count (dp_ring d) >? 0 then setDrainError c else c,
        start_draining (set_ring d (discardConsumerPending (dp_ring d))))
  else (c, d).

(** The part of an iteration under [admissionMu], and the tests before the
    [select]; [None] would send an empty slot of the ring. *)
Definition dispatch_top (c : Consumer) (t : traffic) (d : dispatcher) : option (Consumer * traffic * top_result) :=
  let '(c, d) := dispatch_discard c d in
  let r := dp_ring d in
  let paused := consumerAdmissionPaused (am_paused (cn_admission c)) (dp_draining d) in
  if (rg_count r >? 0) && negb paused && (llen (tf_jobs t) <? Prefetch config) then
    match ring_front r with
    | None => None
    | Some envelope => Some (c, log_admitted t envelope, TopContinue (set_ring d (ring_pop r)))
    end
  else
    let resume := if paused then am_resume (cn_admission c) else None in
    let deliveries :=
      negb (suspendConsumerDeliveries (dp_deliveriesClosed d) paused (rg_count r) (llen (rg_pending r))) in
    return_if consumerDrainComplete (dp_draining d) (dp_deliveriesClosed d) (rg_count r), Some (c, t, TopDrained) ;;
    Some (c, t, TopSelect d deliveries resume).

(** The cases of the [select].  [pending] is the cancellation waiting when the
    deliveries end; [event] is how the rejection of an invalid delivery went. *)
Inductive select_case :=
| CaseDelivery (source : AmqpDelivery) (event : settle_event)
| CaseDeliveriesClosed (pending : option string)
| CaseResume
| CaseAdmissionChanged
| CaseCancellation (tag : string)
| CaseCancellationsClosed
| CaseFailure
| CaseRecoveryDone
| CaseLifetimeDone.

(** How an iteration ends: the next one, or the result of [consumeGeneration]. *)
Inductive select_result :=
| SelectContinue (d : dispatcher)
| SelectReturn (recover : bool).

Definition cancelled_observation : Observation :=
  observation ObservationConsumerCancellation ObservationCancelled.

(** [observePendingCancellation]: [open] is false for a nil channel. *)
Definition observePendingCancellation (c : Consumer) (cancellations : bool) (pending : option string) : Consumer :=
  match pending with
  | Some tag =>
    observe_if (cancellations && matchingConsumerCancellation tag (Consumer_Name config)) c cancelled_observation
  | None => c
  end.

(** A delivery received while admission is open. *)
Definition dispatch_delivery (c : Consumer) (t : traffic) (d : dispatcher) (source : AmqpDelivery)
    (event : settle_event) : Consumer * traffic * select_result :=
  let c := Consumer_observe c (observation ObservationDelivery ObservationDelivered) in
  let c := observe_if (ad_Redelivered source) c (observation ObservationRedelivery ObservationRedelivered) in
  match deliveryFromAMQP source config with
  | inl _ =>
    let '(err, c, t) := settle c t (dp_generation d) (ad_DeliveryTag source) (Reject false) event in
    (c, t, if consumerOperationFailed err then SelectReturn true else SelectContinue d)
  | inr delivery =>
    let c := observe_if (hasDeadLetterHistory (Deaths delivery)) c
               (observation ObservationDeadLetter ObservationDeadLettered) in
    let c := observe_if (consumerBacklogFull (rg_count (dp_ring d)) (llen (tf_jobs t)) (Prefetch config)) c
               (observation ObservationBacklogPressure ObservationBacklogFull) in
    let envelope := mkEnvelope delivery (ad_DeliveryTag source) (dp_generation d) (length (tf_settlements t)) in
    (c, log_accepted t envelope, SelectContinue (set_ring d (ring_push (dp_ring d) envelope)))
  end.

(** The [select] and its case; [None]: the case is not ready. *)
Definition dispatch_select (c : Consumer) (t : traffic) (d : dispatcher) (deliveries : bool)
    (resume : option nat) (case : select_case) : option (Consumer * traffic * select_result) :=
  match case with
  | CaseDelivery source event =>
    return_if negb deliveries, None ;;
    let t := log_received t (dp_generation d) source in
    return_if am_shutdownAdmissionClosed (cn_admission c),
      Some (setDrainError c, t, SelectContinue (start_draining d)) ;;
    Some (dispatch_delivery c t d source event)
  | CaseDeliveriesClosed pending =>
    return_if negb deliveries, None ;;
    let c := observePendingCancellation c (dp_cancellations d) pending in
    return_if negb (isStopping c), Some (c, t, SelectReturn true) ;;
    Some (c, t, SelectContinue (start_draining (close_deliveries d)))
  | CaseResume =>
    match resume with
    | Some r => if resume_closed c r then Some (c, t, SelectContinue d) else None
    | None => None
    end
  | CaseAdmissionChanged =>
    let a := cn_admission c in
    return_if negb (am_changed a), None ;;
    Some (set_admission c (mkAdmission (am_paused a) (am_resume a) (am_resumes a)
                             (am_shutdownAdmissionClosed a) false), t, SelectContinue d)
  | CaseCancellation tag =>
    return_if negb (dp_cancellations d), None ;;
    return_if negb (matchingConsumerCancellation tag (Consumer_Name config)), Some (c, t, SelectContinue d) ;;
    let c := Consumer_observe c cancelled_observation in
    return_if isStopping c, Some (c, t, SelectContinue (set_cancellations (start_draining d))) ;;
    Some (c, t, SelectReturn true)
  | CaseCancellationsClosed =>
    return_if negb (dp_cancellations d), None ;;
    Some (c, t, SelectContinue (set_cancellations d))
  | CaseFailure =>
    match cn_generations c !! dp_generation d with
    | Some g => if cg_failure g then Some (set_generation c (dp_generation d) clear_failure, t, SelectReturn true)
                else None
    | None => None
    end
  | CaseRecoveryDone =>
    return_if negb (dp_recoveryDone d && cn_recoveryStopped c), None ;;
    return_if negb (isStopping c), Some (c, t, SelectReturn false) ;;
    Some (c, t, SelectContinue (start_draining d))
  | CaseLifetimeDone =>
    return_if negb (cn_lifetimeStopped c), None ;;
    Some (c, t, SelectReturn false)
  end.
End Operations.

(** ** The supervisor *)

(** Where [run] is: before and at the [select] of a generation's dispatcher, past
    the end of a generation, past [beginRecovery], in [recoverRuntime], past a
    successful replacement, in [finishRun] before and after the jobs channel is
    closed, and ended.  [drained] tells that the dispatcher ended by completing a
    drain. *)
Inductive run_phase :=
| RunTop (d : dispatcher)
| RunSelect (d : dispatcher) (deliveries : bool) (resume : option nat)
| RunEnded (generation : nat)
| RunClosing (generation : nat)
| RunReconnecting
| RunInstalled
| RunFinishing (drained : bool)
| RunWaiting (drained : bool)
| RunDone (drained : bool).

Record system := mkSystem {
  sy_consumer : Consumer;
  sy_traffic : traffic;
  sy_run : run_phase }.

(** [run] between the end of a generation and [recoverRuntime]: the close of the
    old generation. *)
Definition run_close (c : Consumer) (generation : nat) (event : close_event) : Consumer * run_phase :=
  let '(err, c) := closeGeneration c generation event in
  if consumerOperationFailed err
  then (setTerminalError (setResourceError c err) (Some ErrConsumerUnavailable), RunFinishing false)
  else (c, RunReconnecting).

(** The installation of a new generation by [recoverRuntime]; [None] once the
    consumer is stopping. *)
Definition install_generation (c : Consumer) : option Consumer :=
  return_if isStopping c, None ;;
  let c := set_lifecycle c (with_generation (cn_lifecycle c) (length (cn_generations c))) in
  Some (set_generations c (cn_generations c ++ [newConsumerGeneration])).

(** [run] after a failed [recoverRuntime]. *)
Definition recovery_failed (c : Consumer) : Consumer :=
  if negb (isStopping c) then setTerminalError c (Some ErrConsumerUnavailable) else c.

(** [finishRun] up to the closing of the jobs channel. *)
Definition finishRun_begin (c : Consumer) (t : traffic) (event : close_event) : Consumer * traffic :=
  let c := stopRecovery c in
  let c := if present (Consumer_Err c)
           then (closeGeneration (stopLifetime c) (currentGeneration c) event).2 else c in
  (c, set_jobs t (tf_jobs t) true).

Definition with_stopped (l : lifecycle) : lifecycle :=
  mkLifecycle (lc_stopping l) false true (lc_terminalErr l) (lc_generation l) (lc_drainErr l) (lc_resourceErr l).

(** [finishRun] after the workers ended; [None] if closing the stream blocks. *)
Definition finishRun_end (c : Consumer) (event : close_event) : option Consumer :=
  let delegated := match cn_generations c !! currentGeneration c with
                   | Some g => cg_delegated g
                   | None => false
                   end in
  let c := if present (drainError c) || delegated
           then let '(err, c) := closeGeneration c (currentGeneration c) event in setResourceError c err
           else c in
  let c := set_lifecycle c (with_stopped (cn_lifecycle c)) in
  let c := Consumer_observe c (observation ObservationShutdown ObservationShutdownCompleted) in
  match close (cn_observations c) with
  | None => None
  | Some observations => Some (set_observations c observations)
  end.

(** [newConsumerFromChannelWithRecovery] once its first generation is set up. *)
Definition newConsumer : Consumer :=
  Consumer_observe
    (mkConsumer (mkLifecycle false false false None 0 None None) (mkAdmission false None 0 false false)
       false false [newConsumerGeneration] (newObservationStream ObservationConsumer observationBufferSize)
       ConsumerOpen None)
    (observation ObservationConnectionState ObservationConnected).

Definition newTraffic : traffic := mkTraffic [] false [] [] [] [] [] [].

Section Run.
Context (config : ConsumerConfig).

Definition newSystem : system := mkSystem newConsumer newTraffic (RunTop (newDispatcher config 0)).

(** [run] and the dispatcher. *)
Definition after_top (r : top_result) : run_phase :=
  match r with
  | TopContinue d => RunTop d
  | TopSelect d deliveries resume => RunSelect d deliveries resume
  | TopDrained => RunFinishing true
  end.

Definition after_select (generation : nat) (r : select_result) : run_phase :=
  match r with
  | SelectContinue d => RunTop d
  | SelectReturn true => RunEnded generation
  | SelectReturn false => RunFinishing false
  end.

(** The client numbers the deliveries of a channel: a new one has a tag of its
    own. *)
Definition fresh_delivery (t : traffic) (generation : nat) (case : select_case) : Prop :=
  match case with
  | CaseDelivery source _ =>
    ∀ source', (generation, source') ∈ tf_received t → ad_DeliveryTag source' ≠ ad_DeliveryTag source
  | _ => True
  end.

(** One step of any goroutine: the supervisor with its dispatcher, a worker, a
    caller of [Pause], [Resume], [Drain] or [Shutdown], the [finishShutdown]
    goroutine, a reader of the observations. *)
Inductive consumer_step : relation system :=
| cs_top c t d c' t' r :
    dispatch_top config c t d = Some (c', t', r) →
    consumer_step (mkSystem c t (RunTop d)) (mkSystem c' t' (after_top r))
| cs_select c t d deliveries resume case c' t' r :
    fresh_delivery t (dp_generation d) case →
    dispatch_select config c t d deliveries resume case = Some (c', t', r) →
    consumer_step (mkSystem c t (RunSelect d deliveries resume))
      (mkSystem c' t' (after_select (dp_generation d) r))
| cs_begin_recovery c t g :
    consumer_step (mkSystem c t (RunEnded g)) (mkSystem (beginRecovery c) t (RunClosing g))
| cs_close c t g event :
    consumer_step (mkSystem c t (RunClosing g))
      (mkSystem (run_close c g event).1 t (run_close c g event).2)
| cs_reconnect c t :
    consumer_step (mkSystem c t RunReconnecting)
      (mkSystem (Consumer_observe c (observation ObservationReconnect ObservationAttempted)) t RunReconnecting)
| cs_install c t c' :
    install_generation c = Some c' →
    consumer_step (mkSystem c t RunReconnecting) (mkSystem c' t RunInstalled)
| cs_recovery_failed c t :
    consumer_step (mkSystem c t RunReconnecting) (mkSystem (recovery_failed c) t (RunFinishing false))
| cs_recovered c t :
    consumer_step (mkSystem c t RunInstalled)
      (mkSystem (Consumer_finishRecovery c) t (RunTop (newDispatcher config (currentGeneration c))))
| cs_finish_begin c t drained event :
    consumer_step (mkSystem c t (RunFinishing drained))
      (mkSystem (finishRun_begin c t event).1 (finishRun_begin c t event).2 (RunWaiting drained))
| cs_finish_end c t drained event c' :
    tf_jobs t = [] → tf_workers t = [] → finishRun_end c event = Some c' →
    consumer_step (mkSystem c t (RunWaiting drained)) (mkSystem c' t (RunDone drained))
| cs_take c t p envelope jobs :
    tf_jobs t = envelope :: jobs → llen (tf_workers t) < Concurrency config →
    consumer_step (mkSystem c t p)
      (mkSystem c (set_workers (set_jobs t jobs (tf_jobsClosed t)) (Handling envelope :: tf_workers t)) p)
| cs_delegate c t p before after envelope requested handlerErr contextErr c' t' :
    tf_workers t = before ++ Handling envelope :: after →
    handle_decide config c t envelope requested handlerErr contextErr = (None, c', t') →
    consumer_step (mkSystem c t p)
      (mkSystem (signalAdmissionChanged c') (set_workers t' (before ++ after)) p)
| cs_decide c t p before after envelope requested handlerErr contextErr settlement c' t' :
    tf_workers t = before ++ Handling envelope :: after →
    handle_decide config c t envelope requested handlerErr contextErr = (Some settlement, c', t') →
    consumer_step (mkSystem c t p)
      (mkSystem c' (set_workers t' (before ++ Settling envelope settlement :: after)) p)
| cs_settle c t p before after envelope settlement event err c' t' :
    tf_workers t = before ++ Settling envelope settlement :: after →
    settle c t (env_generation envelope) (env_tag envelope) settlement event = (err, c', t') →
    consumer_step (mkSystem c t p)
      (mkSystem c' (set_workers t' (before ++ Completing envelope err :: after)) p)
| cs_complete c t p before after envelope err :
    tf_workers t = before ++ Completing envelope err :: after →
    consumer_step (mkSystem c t p)
      (mkSystem (signalAdmissionChanged (handle_complete c t envelope err).1)
         (set_workers (handle_complete c t envelope err).2 (before ++ after)) p)
| cs_pause c t p : consumer_step (mkSystem c t p) (mkSystem (Pause c).2 t p)
| cs_resume c t p : consumer_step (mkSystem c t p) (mkSystem (Resume c).2 t p)
| cs_drain_begin c t p : consumer_step (mkSystem c t p) (mkSystem (Drain_begin c) t p)
| cs_drain_cancel c t p g ctxErr event :
    isStopping c = true →
    consumer_step (mkSystem c t p) (mkSystem (cancelGeneration c g ctxErr event).2 t p)
| cs_drain_abort c t p g event :
    isStopping c = true → consumer_step (mkSystem c t p) (mkSystem (Drain_abort c g event) t p)
| cs_shutdown_close c t p : consumer_step (mkSystem c t p) (mkSystem (Shutdown_close c) t p)
| cs_shutdown_stop c t p : consumer_step (mkSystem c t p) (mkSystem (Shutdown_stop c) t p)
| cs_shutdown_end c t p drainErr event :
    cn_shutdown c = ConsumerStopping →
    consumer_step (mkSystem c t p) (mkSystem (Consumer_finishShutdown c drainErr event) t p)
| cs_read c t p o observations :
    obs_receive (cn_observations c) = Some (o, observations) →
    consumer_step (mkSystem c t p) (mkSystem (set_observations c observations) t p).
End Run.
