(* ===== verification/ConsumerFlow.v ===== *)
(** * ConsumerFlow: what becomes of the deliveries of a consumer

    The ring of [consumeGeneration] behaves like a queue that never overflows,
    and the path of a delivery through ring, jobs channel, workers and settlement
    calls keeps it in one place at a time: the invariants behind the claims on
    settlement, ordering and drain. *)

From S2P Require Import Prelude GoText Errors Config Amqp Message Topology Settlement Delivery Observation.
From S2P Require Import Producer Consumer.

(** ** The ring is a queue *)

(** Slot [i] after the head holds element [i] of the queue, if there is one. *)
Definition ring_rep (r : ring) (q : list consumerEnvelope) : Prop :=
  let n := length (rg_pending r) in
  ∃ h, rg_head r = Z.of_nat h ∧ (h < n)%nat ∧ rg_count r = llen q ∧ (length q <= n)%nat
  ∧ ∀ i, (i < n)%nat → rg_pending r !! ((h + i) mod n)%nat = Some (q !! i).

Lemma ring_index h i n :
  (h < n)%nat → (i < n)%nat → ((h + i) mod n = if (h + i <? n) then h + i else h + i - n)%nat.
Proof.
  intros Hh Hi. destruct (Nat.ltb_spec (h + i) n) as [H|H]; [by apply Nat.mod_small|].
  symmetry. apply (Nat.mod_unique _ _ 1); lia.
Qed.

Lemma ring_index_inj h i j n :
  (h < n)%nat → (i < n)%nat → (j < n)%nat → ((h + i) mod n = (h + j) mod n)%nat → i = j.
Proof.
  intros Hh Hi Hj. rewrite !ring_index by done.
  destruct (Nat.ltb_spec (h + i) n), (Nat.ltb_spec (h + j) n); lia.
Qed.

Lemma ring_rep_empty l : l ≠ [] → ring_rep (mkRing (map (λ _ : option consumerEnvelope, None) l) 0 0) [].
Proof.
  intros Hl. unfold ring_rep. cbn [rg_pending rg_head rg_count]. rewrite length_map.
  exists 0%nat. simpl. split_and!; try done; [destruct l; simpl; [done|lia]|lia|].
  intros i Hi. rewrite list_lookup_fmap.
  destruct (l !! (i mod length l)%nat) eqn:E; [done|].
  apply lookup_ge_None in E. pose proof (Nat.mod_upper_bound i (length l)). lia.
Qed.

Lemma ring_front_rep r e q : ring_rep r (e :: q) → ring_front r = Some e.
Proof.
  intros (h & Hh & Hlt & _ & Hle & Hs). unfold ring_front. rewrite Hh, Nat2Z.id.
  pose proof (Hs 0%nat ltac:(lia)) as H0. rewrite Nat.add_0_r, Nat.mod_small in H0 by done. by rewrite H0.
Qed.

Lemma ring_pop_rep r e q : ring_rep r (e :: q) → ring_rep (ring_pop r) q.
Proof.
  intros (h & Hh & Hlt & Hc & Hle & Hs). exists ((h + 1) mod length (rg_pending r))%nat.
  unfold ring_pop. simpl. rewrite length_insert, Hh, Hc, llen_cons. simpl in Hle. unfold llen.
  split_and!.
  - rewrite Z.rem_mod_nonneg by lia. rewrite Nat2Z.inj_mod. f_equal. lia.
  - apply Nat.mod_upper_bound. lia.
  - lia.
  - lia.
  - intros i Hi. rewrite Nat2Z.id. rewrite Nat.Div0.add_mod_idemp_l.
    replace (h + 1 + i)%nat with (h + S i)%nat by lia.
    destruct (decide (S i = length (rg_pending r))) as [Heq|Hne].
    + rewrite Heq. replace ((h + length (rg_pending r)) mod length (rg_pending r))%nat with h.
      * rewrite list_lookup_insert_eq by done. f_equal. symmetry. apply lookup_ge_None. lia.
      * rewrite <- (Nat.mul_1_l (length (rg_pending r))) at 1. by rewrite Nat.Div0.mod_add, Nat.mod_small.
    + rewrite list_lookup_insert_ne; [by rewrite Hs by lia|]. intros Heq.
      enough (0 = S i)%nat by done. apply (ring_index_inj h _ _ (length (rg_pending r))); [lia..|].
      by rewrite Nat.add_0_r, (Nat.mod_small h).
Qed.

Lemma ring_push_rep r e q :
  ring_rep r q → (length q < length (rg_pending r))%nat → ring_rep (ring_push r e) (q ++ [e]).
Proof.
  intros (h & Hh & Hlt & Hc & Hle & Hs) Hroom. exists h. unfold ring_push. simpl.
  rewrite length_insert, length_app, llen_app, Hc, Hh. unfold nextConsumerPendingCount, llen. simpl.
  split_and!; try done; try lia. intros i Hi.
  rewrite Z.rem_mod_nonneg by lia. rewrite <- Nat2Z.inj_add, <- Nat2Z.inj_mod, Nat2Z.id.
  destruct (decide (i = length q)) as [->|Hne].
  - rewrite list_lookup_insert_eq by (apply Nat.mod_upper_bound; lia).
    by rewrite lookup_app_r, Nat.sub_diag by lia.
  - rewrite list_lookup_insert_ne; [|intros Heq; by apply ring_index_inj in Heq; [|lia..]].
    rewrite Hs by done. f_equal. destruct (decide (i < length q)%nat); [by rewrite lookup_app_l|].
    rewrite lookup_app_r by lia. rewrite (proj2 (lookup_ge_None q i)) by lia.
    symmetry. apply lookup_ge_None. simpl. lia.
Qed.

Lemma ring_rep_bound r q : ring_rep r q → rg_count r = llen q ∧ llen q <= llen (rg_pending r).
Proof. intros (h & _ & _ & Hc & Hle & _). split; [done|]. unfold llen. lia. Qed.

Lemma ring_length_pop r : length (rg_pending (ring_pop r)) = length (rg_pending r).
Proof. simpl. by rewrite length_insert. Qed.

Lemma ring_length_push r e : length (rg_pending (ring_push r e)) = length (rg_pending r).
Proof. simpl. by rewrite length_insert. Qed.

(** ** Where a delivery is *)

(** A delivery is known by its generation and its tag. *)
Definition env_key (e : consumerEnvelope) : nat * Z := (env_generation e, env_tag e).
Definition source_key (x : nat * AmqpDelivery) : nat * Z := (x.1, ad_DeliveryTag x.2).
Definition call_tag (call : settlement_call) : Z :=
  match call with CallAck tag _ | CallNack tag _ _ | CallReject tag _ => tag end.
Definition call_key (x : nat * settlement_call) : nat * Z := (x.1, call_tag x.2).

Definition worker_envelope (w : worker) : consumerEnvelope :=
  match w with Handling e | Settling e _ | Completing e _ => e end.

(** The delivery of a worker that has not made its settlement call. *)
Definition unsent (w : worker) : option (nat * Z) :=
  match w with Handling e | Settling e _ => Some (env_key e) | Completing _ _ => None end.

(** Every place a delivery can be in: the ring, the jobs channel, a worker before
    its call, the calls made. *)
Definition holders (t : traffic) (q : list consumerEnvelope) : list (nat * Z) :=
  map env_key q ++ map env_key (tf_jobs t) ++ omap unsent (tf_workers t) ++ map call_key (tf_calls t).

Section Flow.
Context (config : ConsumerConfig).

(** The envelope is the conversion of a delivery received on its generation. *)
Definition converted (t : traffic) (e : consumerEnvelope) : Prop :=
  ∃ source, (env_generation e, source) ∈ tf_received t ∧ ad_DeliveryTag source = env_tag e
  ∧ deliveryFromAMQP source config = inr (env_delivery e).

(** A settlement is what the bound leaves of a valid request that is not a
    delegation. *)
Definition requested_as (delivery : Delivery) (settlement : Settlement) : Prop :=
  ∃ requested, Settlement_Validate requested = None ∧ Method requested ≠ SettlementDelegate
  ∧ settlement = boundedSettlement delivery requested config.

(** Why a settlement call was made on the channel of generation [x.1]: to reject
    an invalid delivery for good, or to settle a valid one within the bound. *)
Definition justified (t : traffic) (x : nat * settlement_call) : Prop :=
  ∃ source, (x.1, source) ∈ tf_received t
  ∧ match deliveryFromAMQP source config with
    | inl _ => x.2 = CallReject (ad_DeliveryTag source) false
    | inr delivery => ∃ settlement, requested_as delivery settlement
        ∧ applySettlement (ad_DeliveryTag source) settlement = Some x.2
    end.

(** What a result tells: nil only after the settlement call. *)
Definition result_ok (t : traffic) (e : consumerEnvelope) (s : deliverySettlement) : Prop :=
  ds_done s = true →
  match ds_err s with
  | None => env_key e ∈ map call_key (tf_calls t)
  | Some err => err = ErrConsumerUnavailable ∨ err = ErrSettlementResultUnavailable
  end.

Definition worker_ok (t : traffic) (w : worker) : Prop :=
  match w with
  | Handling _ => True
  | Settling e settlement => requested_as (env_delivery e) settlement
  | Completing e err => err = None → env_key e ∈ map call_key (tf_calls t)
  end.

Record flow_inv (t : traffic) (q : list consumerEnvelope) : Prop := {
  fi_received : NoDup (map source_key (tf_received t));
  fi_holders : NoDup (holders t q);
  fi_held : ∀ k, k ∈ holders t q → k ∈ map source_key (tf_received t);
  fi_accepted : ∀ e, e ∈ tf_accepted t → converted t e;
  fi_queue : ∀ e, e ∈ q → e ∈ tf_accepted t;
  fi_admitted : ∀ e, e ∈ tf_admitted t → e ∈ tf_accepted t;
  fi_active : ∀ e, e ∈ tf_jobs t ++ map worker_envelope (tf_workers t) → e ∈ tf_admitted t;
  fi_workers : ∀ w, w ∈ tf_workers t → worker_ok t w;
  fi_calls : ∀ x, x ∈ tf_calls t → justified t x;
  fi_cells : map env_settlement (tf_accepted t) = seq 0 (length (tf_settlements t));
  fi_results : ∀ e s, e ∈ tf_accepted t → tf_settlements t !! env_settlement e = Some s → result_ok t e s;
  fi_finished : ∀ e, e ∈ tf_admitted t →
    e ∈ tf_jobs t ++ map worker_envelope (tf_workers t)
    ∨ ∃ s, tf_settlements t !! env_settlement e = Some s ∧ ds_done s = true }.

Lemma flow_inv_new : flow_inv newTraffic [].
Proof using. split; simpl; try apply NoDup_nil_2; try done; intros; set_solver. Qed.

(** *** Steps *)

Lemma holders_fewer t t' q q' :
  flow_inv t q → holders t' q' ⊆+ holders t q → tf_received t' = tf_received t →
  NoDup (holders t' q') ∧ ∀ k, k ∈ holders t' q' → k ∈ map source_key (tf_received t').
Proof using.
  intros [] Hs Hr. split; [by eapply nodup_submseteq|]. intros k Hk. rewrite Hr. apply fi_held0.
  by eapply elem_of_submseteq.
Qed.

(** A dispatcher's pending deliveries can be dropped. *)
Lemma flow_drop t q : flow_inv t q → flow_inv t [].
Proof using.
  intros Hinv. destruct (holders_fewer t t q [] Hinv) as [Hn Hh]; [|done|].
  { unfold holders. simpl. solve_submseteq. }
  destruct Hinv. split; try done. intros e He. by apply not_elem_of_nil in He.
Qed.

(** The head of the queue moves into the jobs channel. *)
Lemma flow_admit t e q : flow_inv t (e :: q) → flow_inv (log_admitted t e) q.
Proof using.
  intros Hinv. destruct (holders_fewer t (log_admitted t e) (e :: q) q Hinv) as [Hn Hh]; [|done|].
  { unfold holders. simpl. rewrite map_app. simpl. solve_submseteq. }
  destruct Hinv. split; simpl in *; try done.
  - intros e' He. apply fi_queue0. by right.
  - intros e' [He| ->%list_elem_of_singleton]%elem_of_app; [by apply fi_admitted0|]. apply fi_queue0. by left.
  - intros e'. rewrite !elem_of_app, list_elem_of_singleton. specialize (fi_active0 e').
    rewrite elem_of_app in fi_active0. tauto.
  - intros e'. rewrite !elem_of_app, list_elem_of_singleton. specialize (fi_finished0 e').
    rewrite elem_of_app in fi_finished0. tauto.
Qed.

(** A worker takes the next job. *)
Lemma flow_take t q e jobs closed :
  flow_inv t q → tf_jobs t = e :: jobs →
  flow_inv (set_workers (set_jobs t jobs closed) (Handling e :: tf_workers t)) q.
Proof using.
  intros Hinv Hj. destruct (holders_fewer t (set_workers (set_jobs t jobs closed) (Handling e :: tf_workers t)) q q Hinv)
    as [Hn Hh]; [|done|].
  { unfold holders. simpl. rewrite Hj. simpl. solve_submseteq. }
  destruct Hinv. rewrite Hj in *. split; simpl in *; try done.
  - intros e' He. apply fi_active0. clear -He. set_solver.
  - intros w [->|Hw]%elem_of_cons; [done|]. by apply fi_workers0.
  - intros e' He. destruct (fi_finished0 e' He) as [H|H]; [left|by right]. clear -H. set_solver.
Qed.

(** The handler's decision. *)
Lemma flow_decide t q before after e settlement :
  flow_inv t q → tf_workers t = before ++ Handling e :: after → requested_as (env_delivery e) settlement →
  flow_inv (set_workers t (before ++ Settling e settlement :: after)) q.
Proof using.
  intros Hinv Hw Hs.
  destruct (holders_fewer t (set_workers t (before ++ Settling e settlement :: after)) q q Hinv) as [Hn Hh]; [|done|].
  { unfold holders. simpl. rewrite Hw, !omap_app. done. }
  destruct Hinv. rewrite Hw in *. rewrite map_app in *. split; simpl in *; try done.
  - rewrite map_app. done.
  - intros w [?|[->|?]%elem_of_cons]%elem_of_app; [|done|]; apply fi_workers0; set_solver.
  - rewrite map_app. done.
Qed.

Lemma converted_mono t t' e : tf_received t ⊆ tf_received t' → converted t e → converted t' e.
Proof using. intros Hs (source & Hr & H). exists source. split; [by apply Hs|done]. Qed.

Lemma justified_mono t t' x : tf_received t ⊆ tf_received t' → justified t x → justified t' x.
Proof using. intros Hs (source & Hr & H). exists source. split; [by apply Hs|done]. Qed.

Lemma call_mono t t' (k : nat * Z) :
  tf_calls t ⊆ tf_calls t' → k ∈ map call_key (tf_calls t) → k ∈ map call_key (tf_calls t').
Proof using.
  intros Hs (x & -> & Hx)%list_elem_of_fmap. apply in_map_intro. by apply Hs.
Qed.

Lemma worker_ok_mono t t' w : tf_calls t ⊆ tf_calls t' → worker_ok t w → worker_ok t' w.
Proof using. intros Hs. destruct w; simpl; try done. intros H He. eapply call_mono; [done|auto]. Qed.

Lemma result_ok_mono t t' e s : tf_calls t ⊆ tf_calls t' → result_ok t e s → result_ok t' e s.
Proof using.
  intros Hs H Hd. specialize (H Hd). destruct (ds_err s); [done|]. by eapply call_mono.
Qed.

(** A delivery arrives under a tag of its own. *)
Lemma flow_receive t q g source :
  flow_inv t q → (∀ source', (g, source') ∈ tf_received t → ad_DeliveryTag source' ≠ ad_DeliveryTag source) →
  flow_inv (log_received t g source) q ∧ (g, ad_DeliveryTag source) ∉ holders t q.
Proof using.
  intros Hinv Hfresh. assert ((g, ad_DeliveryTag source) ∉ map source_key (tf_received t)) as Hk.
  { intros ([g' source'] & [= -> Htag] & Hin)%list_elem_of_fmap. by apply (Hfresh source'). }
  destruct Hinv. split; [|auto]. assert (tf_received t ⊆ tf_received (log_received t g source)) as Hs.
  { simpl. set_solver. }
  split; try done.
  - simpl. rewrite map_app. apply NoDup_app. split_and!; [done| |by apply NoDup_singleton].
    intros k Hk1. simpl. rewrite list_elem_of_singleton. intros ->. done.
  - intros k Hin. simpl. rewrite map_app. apply elem_of_app. left. by apply fi_held0.
  - intros e He. by eapply converted_mono, fi_accepted0.
  - intros x Hx. by eapply justified_mono, fi_calls0.
Qed.

(** A valid delivery enters the ring. *)
Lemma flow_accept t q g source delivery :
  flow_inv t q → (g, source) ∈ tf_received t → (g, ad_DeliveryTag source) ∉ holders t q →
  deliveryFromAMQP source config = inr delivery →
  let e := mkEnvelope delivery (ad_DeliveryTag source) g (length (tf_settlements t)) in
  flow_inv (log_accepted t e) (q ++ [e]).
Proof using.
  intros Hinv Hin Hk Hd e. destruct Hinv.
  assert (holders (log_accepted t e) (q ++ [e]) ≡ₚ env_key e :: holders t q) as Hp.
  { unfold holders. simpl. rewrite map_app. simpl. solve_Permutation. }
  split; simpl; try done.
  - rewrite Hp. by constructor.
  - intros k. rewrite Hp, elem_of_cons. intros [->|?]; [|by apply fi_held0].
    change (env_key e) with (source_key (g, source)). by apply in_map_intro.
  - intros e' [He| ->%list_elem_of_singleton]%elem_of_app; [by apply fi_accepted0|]. by exists source.
  - intros e' [He| ->%list_elem_of_singleton]%elem_of_app; apply elem_of_app; [left; by apply fi_queue0|right; by left].
  - intros e' He. apply elem_of_app. left. by apply fi_admitted0.
  - rewrite map_app, fi_cells0, length_app, seq_app. done.
  - intros e' s [He| ->%list_elem_of_singleton]%elem_of_app; simpl.
    + assert (env_settlement e' ∈ map env_settlement (tf_accepted t)) as Hlt by by apply in_map_intro.
      rewrite fi_cells0, elem_of_seq in Hlt. rewrite lookup_app_l by lia. by apply fi_results0.
    + rewrite lookup_app_r, Nat.sub_diag by lia. intros [= <-]. done.
  - intros e' He. destruct (fi_finished0 e' He) as [H|(s & Hs & Hdone)]; [by left|right].
    exists s. split; [|done]. apply lookup_app_l_Some. done.
Qed.

(** A call is made for a delivery that nothing else holds any more. *)
Lemma flow_call t t' q g call :
  flow_inv t q → tf_calls t' = tf_calls t ++ [(g, call)] → tf_received t' = tf_received t →
  tf_accepted t' = tf_accepted t → tf_admitted t' = tf_admitted t → tf_settlements t' = tf_settlements t →
  tf_jobs t' = tf_jobs t → map worker_envelope (tf_workers t') = map worker_envelope (tf_workers t) →
  justified t (g, call) → NoDup (holders t' q) →
  (∀ k, k ∈ holders t' q → k ∈ map source_key (tf_received t)) →
  (∀ w, w ∈ tf_workers t' → w ∈ tf_workers t ∨ worker_ok t' w) → flow_inv t' q.
Proof using.
  intros Hinv Hc Hr Ha Had Hs Hj Hw Hjust Hn Hh Hwo. destruct Hinv.
  assert (tf_calls t ⊆ tf_calls t') as Hcs by (rewrite Hc; set_solver).
  assert (tf_received t ⊆ tf_received t') as Hrs by (by rewrite Hr).
  split; rewrite ?Hr, ?Ha, ?Had, ?Hs, ?Hj, ?Hw; try done.
  - intros e He. by eapply converted_mono, fi_accepted0.
  - intros w Hin. destruct (Hwo w Hin) as [?|?]; [by eapply worker_ok_mono, fi_workers0|done].
  - rewrite Hc. intros x [Hx| ->%list_elem_of_singleton]%elem_of_app; (eapply justified_mono; [done|]); auto.
  - intros e s He Hl. eapply result_ok_mono; eauto.
Qed.

(** An invalid delivery is rejected for good. *)
Lemma flow_reject t q g source err :
  flow_inv t q → (g, source) ∈ tf_received t → (g, ad_DeliveryTag source) ∉ holders t q →
  deliveryFromAMQP source config = inl err →
  flow_inv (log_call t g (applySettlement (ad_DeliveryTag source) (Reject false))) q.
Proof using.
  intros Hinv Hin Hk Hd.
  assert (holders (log_call t g (Some (CallReject (ad_DeliveryTag source) false))) q
          ≡ₚ (g, ad_DeliveryTag source) :: holders t q) as Hp.
  { unfold holders. simpl. rewrite map_app. simpl. unfold call_key at 2. simpl. solve_Permutation. }
  change (applySettlement _ _) with (Some (CallReject (ad_DeliveryTag source) false)).
  eapply (flow_call t _ q g); try done.
  - exists source. rewrite Hd. done.
  - rewrite Hp. constructor; [done|]. by destruct Hinv.
  - intros k. rewrite Hp, elem_of_cons. intros [->|?]; [|by apply Hinv].
    change (g, ad_DeliveryTag source) with (source_key (g, source)). by apply in_map_intro.
  - intros w Hw. by left.
Qed.

Lemma requested_call delivery settlement tag :
  requested_as delivery settlement → ∃ call, applySettlement tag settlement = Some call ∧ call_tag call = tag.
Proof using.
  intros (requested & Hv & Hd & ->). rewrite boundedSettlement_method. unfold applySettlement. simpl.
  apply Settlement_Validate_None in Hv. rewrite !elem_of_cons in Hv.
  destruct Hv as [->|[->|[->|[->|[->|[->|Hv%not_elem_of_nil]]]]]]; try done; simpl in *; eauto; done.
Qed.

(** A worker makes its settlement call. *)
Lemma flow_settle t q before after e settlement err :
  flow_inv t q → tf_workers t = before ++ Settling e settlement :: after →
  flow_inv (set_workers (log_call t (env_generation e) (applySettlement (env_tag e) settlement))
              (before ++ Completing e err :: after)) q.
Proof using.
  intros Hinv Hw. pose proof Hinv as Hinv'. destruct Hinv'.
  assert (requested_as (env_delivery e) settlement) as Hreq.
  { apply (fi_workers0 (Settling e settlement)). rewrite Hw. set_solver. }
  destruct (requested_call _ _ (env_tag e) Hreq) as (call & Hcall & Htag). rewrite Hcall.
  assert (e ∈ tf_admitted t) as Hadm.
  { apply fi_active0. rewrite Hw, map_app. apply elem_of_app. right. apply elem_of_app. right. by left. }
  assert (holders (set_workers (log_call t (env_generation e) (Some call)) (before ++ Completing e err :: after)) q
          ≡ₚ holders t q) as Hp.
  { unfold holders. simpl. rewrite Hw, !omap_app, map_app. simpl. unfold call_key at 2. simpl. rewrite Htag.
    fold (env_key e). solve_Permutation. }
  eapply (flow_call t _ q (env_generation e) call); try done.
  - simpl. by rewrite Hw, !map_app.
  - destruct (fi_accepted0 e) as (source & Hin & Hs & Hd); [by apply fi_admitted0|].
    exists source. split; [done|]. rewrite Hd. exists settlement. split; [done|]. by rewrite Hs.
  - by rewrite Hp.
  - intros k. rewrite Hp. apply fi_held0.
  - simpl. intros w. rewrite elem_of_app, elem_of_cons. intros Hin. destruct Hin as [?|[->|?]].
    + left. rewrite Hw. set_solver.
    + right. intros _. simpl. rewrite map_app. apply elem_of_app. right. simpl. rewrite list_elem_of_singleton.
      unfold call_key, env_key. simpl. by rewrite Htag.
    + left. rewrite Hw. set_solver.
Qed.

Lemma accepted_unique t q e e' :
  flow_inv t q → e ∈ tf_accepted t → e' ∈ tf_accepted t → env_settlement e = env_settlement e' → e = e'.
Proof using.
  intros [] [i Hi]%list_elem_of_lookup [j Hj]%list_elem_of_lookup Heq.
  assert (map env_settlement (tf_accepted t) !! i = map env_settlement (tf_accepted t) !! j) as H.
  { rewrite !list_lookup_fmap, Hi, Hj. simpl. by rewrite Heq. }
  rewrite fi_cells0 in H. apply lookup_lt_Some in Hi as Hli. apply lookup_lt_Some in Hj as Hlj.
  apply (f_equal length) in fi_cells0. rewrite length_map, length_seq in fi_cells0.
  rewrite !lookup_seq_lt in H by lia. assert (i = j) as -> by (injection H; lia). congruence.
Qed.

(** A worker completes the result of its delivery and is done. *)
Lemma flow_complete t q before after w err :
  flow_inv t q → tf_workers t = before ++ w :: after →
  result_ok t (worker_envelope w) (mkDeliverySettlement true err) →
  flow_inv (set_workers (complete_envelope t (worker_envelope w) err) (before ++ after)) q.
Proof using.
  intros Hinv Hw Hok. set (e := worker_envelope w) in *.
  set (t' := set_workers (complete_envelope t e err) (before ++ after)).
  destruct (holders_fewer t t' q q Hinv) as [Hn Hh]; [|done|].
  { unfold holders, t'. simpl. rewrite Hw, !omap_app. simpl. destruct (unsent w); solve_submseteq. }
  assert (e ∈ tf_accepted t) as Hacc.
  { destruct Hinv. apply fi_admitted0, fi_active0. rewrite Hw, map_app. apply elem_of_app. right.
    apply elem_of_app. right. by left. }
  assert (∀ e' s', e' ∈ tf_accepted t → tf_settlements t' !! env_settlement e' = Some s' →
    ∃ s, tf_settlements t !! env_settlement e' = Some s ∧ (s' = s ∨ e' = e ∧ s' = mkDeliverySettlement true err)) as Hcell.
  { intros e' s' He'. unfold t'. simpl. destruct (decide (env_settlement e = env_settlement e')) as [Heq|Hne].
    - apply (accepted_unique t q e e' Hinv) in Heq; [|done..]. subst e'. rewrite list_lookup_alter_eq.
      destruct (tf_settlements t !! env_settlement e) as [s|]; [|done]. simpl. intros [= <-]. exists s.
      split; [done|]. destruct (ds_done s); simpl; auto.
    - rewrite list_lookup_alter_ne by done. intros ->. eauto. }
  assert (∀ e', e' ∈ tf_accepted t → is_Some (tf_settlements t !! env_settlement e')) as Hsome.
  { intros e' He'. apply lookup_lt_is_Some. destruct Hinv.
    assert (env_settlement e' ∈ map env_settlement (tf_accepted t)) as H by by apply in_map_intro.
    rewrite fi_cells0, elem_of_seq in H. lia. }
  destruct Hinv. split; try done.
  - unfold t'. simpl. intros e' He'. apply fi_active0. rewrite Hw. rewrite map_app in *. simpl. set_solver.
  - unfold t'. simpl. intros w' Hin. apply (worker_ok_mono t); [done|]. apply fi_workers0. rewrite Hw. set_solver.
  - unfold t'. simpl. rewrite length_alter. done.
  - intros e' s' He' Hs'. destruct (Hcell e' s' He' Hs') as (s & Hs & [->|[-> ->]]); [by apply (fi_results0 e' s)|done].
  - intros e' He'. destruct (decide (env_settlement e = env_settlement e')) as [Heq|Hne].
    + right. unfold t'. simpl. rewrite <- Heq, list_lookup_alter_eq.
      destruct (Hsome e Hacc) as [s ->]. simpl. eexists. split; [done|]. by destruct (ds_done s) eqn:E; simpl; rewrite ?E.
    + destruct (fi_finished0 e' He') as [H|(s & Hs & Hdone)].
      * left. unfold t'. simpl. rewrite Hw in H. rewrite map_app in *. simpl in H.
        assert (e' ≠ e) by congruence. rewrite !elem_of_app, elem_of_cons in *. fold e in H. tauto.
      * right. exists s. unfold t'. simpl. by rewrite list_lookup_alter_ne.
Qed.
End Flow.
