(* ===== verification/ConsumerRun.v ===== *)
(** * ConsumerRun: every run of a consumer

    The invariants of [consumer_step]: how the operations of consumer.go change
    the shared state ([evolves]), what holds of the state in each phase of the
    supervisor ([state_inv]), and that deliveries are admitted in the order of the
    broker ([order_inv]). *)

From S2P Require Import Prelude GoText Errors Config Amqp Message Topology Settlement Delivery Observation.
From S2P Require Import Producer Consumer ConsumerFlow.

(** ** What an operation may change *)

Definition unavailable_or_none (err : option error) : Prop := err = None ∨ err = Some ErrConsumerUnavailable.

(** The stream is in order, quiet, and open until the consumer has stopped. *)
Definition stream_ok (c : Consumer) : Prop :=
  stream_inv (cn_observations c) ∧ os_emitting (cn_observations c) = []
  ∧ os_close (cn_observations c) = if lc_stopped (cn_lifecycle c) then CloseDone else CloseIdle.

(** Admission is closed first thing in a shutdown, then the consumer stops. *)
Definition shutdown_ok (c : Consumer) : Prop :=
  (am_shutdownAdmissionClosed (cn_admission c) = true ↔ cn_shutdown c ≠ ConsumerOpen)
  ∧ (cn_shutdown c = ConsumerStopping ∨ cn_shutdown c = ConsumerShutdownDone → isStopping c = true).

(** The operations other than the supervisor's own keep the generation, the
    terminal error and the stopped flag, never take back stopping, a closed
    admission or a reported drain error, begin no recovery once stopping, and end
    the contexts only when stopping. *)
Record evolves (c c' : Consumer) : Prop := {
  ev_generation : currentGeneration c' = currentGeneration c;
  ev_generations : length (cn_generations c') = length (cn_generations c);
  ev_stopped : lc_stopped (cn_lifecycle c') = lc_stopped (cn_lifecycle c);
  ev_terminal : lc_terminalErr (cn_lifecycle c') = lc_terminalErr (cn_lifecycle c);
  ev_stopping : isStopping c = true → isStopping c' = true;
  ev_recovering : isStopping c = true → lc_recovering (cn_lifecycle c') = true →
    lc_recovering (cn_lifecycle c) = true;
  ev_drainErr : lc_drainErr (cn_lifecycle c') = lc_drainErr (cn_lifecycle c)
    ∨ lc_drainErr (cn_lifecycle c') = Some ErrConsumerUnavailable;
  ev_resourceErr : lc_resourceErr (cn_lifecycle c') = lc_resourceErr (cn_lifecycle c)
    ∨ lc_resourceErr (cn_lifecycle c') = Some ErrConsumerUnavailable;
  ev_closed : am_shutdownAdmissionClosed (cn_admission c) = true →
    am_shutdownAdmissionClosed (cn_admission c') = true;
  ev_recovery : cn_recoveryStopped c' = true → cn_recoveryStopped c = true ∨ isStopping c' = true;
  ev_lifetime : cn_lifetimeStopped c' = true → cn_lifetimeStopped c = true ∨ isStopping c' = true;
  ev_shutdown : shutdown_ok c → shutdown_ok c';
  ev_stream : stream_ok c → stream_ok c' }.

#[global] Instance evolves_refl : Reflexive evolves.
Proof. intros c. split; auto. Qed.

#[global] Instance evolves_trans : Transitive evolves.
Proof.
  intros c1 c2 c3 [] []. split; try congruence; try tauto.
  - destruct ev_drainErr1 as [->|]; auto.
  - destruct ev_resourceErr1 as [->|]; auto.
Qed.

Create HintDb evolves discriminated.

(** Splits an operation at its tests and evaluates what it leaves unchanged. *)
Ltac evolve_cases := repeat case_match; simplify_eq/=; try reflexivity.
Ltac evolve_solve := split; simpl in *; try done; try tauto; auto.

Lemma evolves_observe c o : evolves c (Consumer_observe c o).
Proof.
  evolve_solve. intros (Hs & He & Hc). destruct (emit_quiet _ o Hs He) as (? & ? & ?).
  unfold stream_ok. simpl. split_and!; congruence.
Qed.
#[export] Hint Resolve evolves_observe : evolves.

Lemma evolves_observe_if b c o : evolves c (observe_if b c o).
Proof. destruct b; [apply evolves_observe|reflexivity]. Qed.
#[export] Hint Resolve evolves_observe_if : evolves.

Lemma evolves_set_generation c g f : evolves c (set_generation c g f).
Proof. evolve_solve. by rewrite length_alter. Qed.
#[export] Hint Resolve evolves_set_generation : evolves.

(** A change of the lifecycle record alone. *)
Lemma evolves_lifecycle c l :
  let l0 := cn_lifecycle c in
  lc_generation l = lc_generation l0 → lc_stopped l = lc_stopped l0 → lc_terminalErr l = lc_terminalErr l0 →
  (lc_stopping l0 = true → lc_stopping l = true) →
  (lc_stopping l0 = true → lc_recovering l = true → lc_recovering l0 = true) →
  (lc_drainErr l = lc_drainErr l0 ∨ lc_drainErr l = Some ErrConsumerUnavailable) →
  (lc_resourceErr l = lc_resourceErr l0 ∨ lc_resourceErr l = Some ErrConsumerUnavailable) →
  evolves c (set_lifecycle c l).
Proof.
  simpl. intros Hg Hs Ht Hst Hr Hd Hre. split; simpl; try done; auto.
  - intros [H1 H2]. split; [done|]. unfold isStopping in *. simpl. auto.
  - unfold stream_ok. simpl. by rewrite Hs.
Qed.

Ltac evolve_lifecycle := apply evolves_lifecycle; simpl; try done; auto.

Lemma evolves_setDrainError c : evolves c (setDrainError c).
Proof. evolve_lifecycle. Qed.
#[export] Hint Resolve evolves_setDrainError : evolves.

Lemma evolves_setResourceError c err : evolves c (setResourceError c err).
Proof. unfold setResourceError. destruct err; [|reflexivity]. evolve_lifecycle. Qed.
#[export] Hint Resolve evolves_setResourceError : evolves.

Lemma evolves_begin_stopping c : evolves c (begin_stopping c).
Proof. etrans; [|apply evolves_observe_if]. evolve_lifecycle. Qed.
#[export] Hint Resolve evolves_begin_stopping : evolves.

Lemma evolves_beginRecovery c : evolves c (beginRecovery c).
Proof.
  etrans; [|apply evolves_observe_if]. unfold consumerRecoveryAllowed.
  destruct (lc_stopping (cn_lifecycle c)) eqn:Hs; simpl; [by evolve_lifecycle|].
  destruct (_ && _); evolve_lifecycle; congruence.
Qed.
#[export] Hint Resolve evolves_beginRecovery : evolves.

Lemma evolves_finishRecovery c : evolves c (Consumer_finishRecovery c).
Proof. etrans; [|apply evolves_observe]. evolve_lifecycle. Qed.
#[export] Hint Resolve evolves_finishRecovery : evolves.

Lemma evolves_failGeneration c g : evolves c (Consumer_failGeneration c g).
Proof.
  unfold Consumer_failGeneration. set (current := (lc_generation _ =? g)%nat).
  set (l1 := if current && lc_stopping (cn_lifecycle c) && negb (present (lc_drainErr (cn_lifecycle c)))
             then with_drainErr (cn_lifecycle c) (Some ErrConsumerUnavailable) else cn_lifecycle c).
  set (changed := consumerRecoveryAllowed _ _ _ _).
  assert (evolves c (set_lifecycle c (if changed then with_recovering l1 true else l1))) as H.
  { subst changed l1. unfold consumerRecoveryAllowed.
    destruct (lc_stopping (cn_lifecycle c)) eqn:Hs; simpl.
    - rewrite andb_false_r. simpl. destruct (_ && _); evolve_lifecycle.
    - rewrite andb_false_r. simpl. destruct (_ && _); evolve_lifecycle; congruence. }
  destruct (negb (consumerGenerationCanSignal _ _)); [done|].
  etrans; [exact H|]. etrans; [apply evolves_observe_if|]. apply evolves_set_generation.
Qed.
#[export] Hint Resolve evolves_failGeneration : evolves.

(** A change of the admission record alone. *)
Lemma evolves_admission c a :
  am_shutdownAdmissionClosed a = am_shutdownAdmissionClosed (cn_admission c) → evolves c (set_admission c a).
Proof. intros H. split; simpl; try done; auto; [congruence|]. unfold shutdown_ok. simpl. by rewrite H. Qed.

Lemma evolves_signal c : evolves c (signalAdmissionChanged c).
Proof. by apply evolves_admission. Qed.
#[export] Hint Resolve evolves_signal : evolves.

Lemma evolves_Pause c : evolves c (Pause c).2.
Proof.
  unfold Pause. destruct (Consumer_closed c); [reflexivity|]. destruct (am_paused _); [reflexivity|].
  etrans; [|apply evolves_signal]. by apply evolves_admission.
Qed.
#[export] Hint Resolve evolves_Pause : evolves.

Lemma evolves_Resume c : evolves c (Resume c).2.
Proof.
  unfold Resume. destruct (Consumer_closed c); [reflexivity|]. destruct (negb _); [reflexivity|].
  etrans; [|apply evolves_signal]. by apply evolves_admission.
Qed.
#[export] Hint Resolve evolves_Resume : evolves.

Lemma evolves_closeGeneration c g event : evolves c (closeGeneration c g event).2.
Proof.
  unfold closeGeneration. destruct (cn_generations c !! g) as [x|]; [|reflexivity].
  destruct event as [|r ch|]; try apply evolves_set_generation.
  destruct (cg_closeResult x); [apply evolves_set_generation|].
  etrans; apply evolves_set_generation.
Qed.
#[export] Hint Resolve evolves_closeGeneration : evolves.

Lemma evolves_cancelGeneration c g ctxErr event : evolves c (cancelGeneration c g ctxErr event).2.
Proof.
  unfold cancelGeneration. destruct (cn_generations c !! g) as [x|]; [|reflexivity].
  destruct (negb _); [reflexivity|]. destruct ctxErr; [apply evolves_set_generation|].
  destruct event; [|apply evolves_set_generation].
  destruct (cg_cancelResult x); [apply evolves_set_generation|]. etrans; apply evolves_set_generation.
Qed.
#[export] Hint Resolve evolves_cancelGeneration : evolves.

Lemma evolves_Drain_begin c : evolves c (Drain_begin c).
Proof.
  etrans; [apply evolves_begin_stopping|]. assert (isStopping (begin_stopping c) = true) as Hs.
  { unfold begin_stopping. by destruct (negb _). }
  split; simpl; try done; auto.
Qed.
#[export] Hint Resolve evolves_Drain_begin : evolves.

Lemma evolves_Drain_abort c g event : isStopping c = true → evolves c (Drain_abort c g event).
Proof. intros Hs. etrans; [|apply evolves_closeGeneration]. split; simpl; try done; auto. Qed.

Lemma evolves_Shutdown_close c : evolves c (Shutdown_close c).
Proof.
  unfold Shutdown_close. destruct (cn_shutdown c) eqn:Hc; try reflexivity.
  split; simpl; try done; auto. intros [_ H]. split; [done|]. by intros [?|?].
Qed.
#[export] Hint Resolve evolves_Shutdown_close : evolves.

Lemma evolves_Shutdown_stop c : evolves c (Shutdown_stop c).
Proof.
  unfold Shutdown_stop. destruct (cn_shutdown c) eqn:Hc; try reflexivity.
  pose proof (evolves_begin_stopping c) as []. assert (isStopping (begin_stopping c) = true) as Hs.
  { unfold begin_stopping. by destruct (negb _). }
  split; try done. intros Hok. split; simpl; [|done]. specialize (ev_shutdown0 Hok).
  destruct ev_shutdown0 as [H _]. unfold begin_stopping in *. destruct (negb _); simpl in *; rewrite Hc in H;
    (split; [done|]; intros _; by apply H).
Qed.
#[export] Hint Resolve evolves_Shutdown_stop : evolves.

Lemma evolves_finishShutdown c drainErr event :
  cn_shutdown c = ConsumerStopping → evolves c (Consumer_finishShutdown c drainErr event).
Proof.
  intros Hs. unfold Consumer_finishShutdown.
  destruct (closeGeneration c (currentGeneration c) event) as [closeErr c1] eqn:Hc.
  assert (evolves c (setResourceError c1 closeErr)) as Hev.
  { etrans; [|apply evolves_setResourceError]. replace c1 with (closeGeneration c (currentGeneration c) event).2
      by (by rewrite Hc). apply evolves_closeGeneration. }
  assert (cn_shutdown (setResourceError c1 closeErr) = ConsumerStopping) as Hph.
  { assert (cn_shutdown c1 = ConsumerStopping); [|by destruct closeErr].
    unfold closeGeneration in Hc. rewrite <- Hs. by repeat case_match; simplify_eq/=. }
  assert (∀ c' err, evolves c c' → cn_shutdown c' = ConsumerStopping →
    evolves c (set_consumer_shutdown c' ConsumerShutdownDone err)) as Hset.
  { clear. intros c' err Hev Hc. destruct Hev. split; try done. intros Hok. specialize (ev_shutdown0 Hok) as [H1 H2].
    rewrite Hc in *. split; simpl; [|intros _; apply H2; by left]. split; [done|]. intros _. by apply H1. }
  destruct drainErr; by apply Hset.
Qed.

Lemma evolves_settle c t g tag settlement event err c' t' :
  settle c t g tag settlement event = (err, c', t') →
  evolves c c' ∧ t' = log_call t g (applySettlement tag settlement)
  ∧ (err = None → is_Some (applySettlement tag settlement)).
Proof.
  unfold settle. destruct event as [e|close].
  - destruct (applySettlement tag settlement) as [call|] eqn:Hcall; simpl.
    + destruct e; simpl; intros [= <- <- <-]; (split; [|by eauto]); [reflexivity|].
      etrans; [apply evolves_observe|apply evolves_observe_if].
    + intros [= <- <- <-]. split; [reflexivity|]. done.
  - intros [= <- <- <-]. split; [apply evolves_closeGeneration|done].
Qed.

Lemma evolves_decide config c t envelope requested handlerErr contextErr settlement c' t' :
  handle_decide config c t envelope requested handlerErr contextErr = (settlement, c', t') → evolves c c'.
Proof.
  unfold handle_decide. destruct (delegatedSettlement _); intros [= <- <- <-]; [|apply evolves_observe_if].
  etrans; [apply evolves_observe_if|apply evolves_set_generation].
Qed.

Lemma evolves_complete c t envelope err : evolves c (handle_complete c t envelope err).1.
Proof. unfold handle_complete. simpl. destruct (consumerOperationFailed err); auto with evolves. reflexivity. Qed.

Lemma evolves_read c o observations :
  obs_receive (cn_observations c) = Some (o, observations) → evolves c (set_observations c observations).
Proof.
  intros H. split; simpl; try done; auto. intros (Hs & He & Hc). unfold stream_ok. simpl.
  assert (stream_inv observations) by (eapply obs_step_inv; [by eapply step_receive|done]).
  unfold obs_receive in H. destruct (os_channel _); [done|]. by simplify_eq.
Qed.

Lemma evolves_discard c d : evolves c (dispatch_discard c d).1.
Proof.
  unfold dispatch_discard. destruct (am_shutdownAdmissionClosed _); [|reflexivity]. simpl.
  destruct (_ >? _); [auto with evolves|reflexivity].
Qed.

Lemma evolves_top config c t d c' t' r : dispatch_top config c t d = Some (c', t', r) → evolves c c'.
Proof.
  unfold dispatch_top. pose proof (evolves_discard c d) as Hev. destruct (dispatch_discard c d) as [c1 d1].
  intros H. by repeat case_match; simplify_eq/=.
Qed.

Lemma evolves_delivery config c t d source event :
  evolves c (dispatch_delivery config c t d source event).1.1.
Proof.
  unfold dispatch_delivery. set (c1 := observe_if (ad_Redelivered source) _ _).
  assert (evolves c c1) as Hev1 by (etrans; [apply evolves_observe|apply evolves_observe_if]).
  destruct (deliveryFromAMQP source config).
  - destruct (settle c1 _ _ _ _ _) as [[err c2] t2] eqn:Hs. apply evolves_settle in Hs as [Hev2 _]. by etrans.
  - simpl. etrans; [exact Hev1|]. etrans; apply evolves_observe_if.
Qed.

Lemma evolves_select config c t d deliveries resume case c' t' r :
  dispatch_select config c t d deliveries resume case = Some (c', t', r) → evolves c c'.
Proof.
  intros Hsel. destruct case as [source event|pending| | |tag| | | |]; simpl in Hsel.
  - destruct (negb deliveries); [done|]. destruct (am_shutdownAdmissionClosed _).
    + injection Hsel as <- <- <-. auto with evolves.
    + injection Hsel as Hsel.
      pose proof (evolves_delivery config c (log_received t (dp_generation d) source) d source event) as Hev.
      by rewrite Hsel in Hev.
  - assert (evolves c (observePendingCancellation config c (dp_cancellations d) pending)) as Hev
      by (destruct pending; [apply evolves_observe_if|reflexivity]).
    by repeat case_match; simplify_eq/=.
  - by repeat case_match; simplify_eq/=.
  - destruct (negb _); simplify_eq/=. by apply evolves_admission.
  - repeat case_match; simplify_eq/=; auto with evolves; reflexivity.
  - by repeat case_match; simplify_eq/=.
  - repeat case_match; simplify_eq/=; auto with evolves.
  - by repeat case_match; simplify_eq/=.
  - by repeat case_match; simplify_eq/=.
Qed.

(** ** Phases *)

Definition phase_dispatcher (p : run_phase) : option dispatcher :=
  match p with RunTop d | RunSelect d _ _ => Some d | _ => None end.

Definition is_done (p : run_phase) : bool := match p with RunDone _ => true | _ => false end.
Definition waiting (p : run_phase) : bool := match p with RunWaiting _ | RunDone _ => true | _ => false end.
Definition finishing (p : run_phase) : bool :=
  match p with RunFinishing _ | RunWaiting _ | RunDone _ => true | _ => false end.

(** The generation's deliveries are still being admitted, or the dispatcher ended
    by completing a drain. *)
Definition tracking (p : run_phase) : bool :=
  match p with
  | RunTop _ | RunSelect _ _ _ => true
  | RunFinishing drained | RunWaiting drained | RunDone drained => drained
  | _ => false
  end.

(** The dispatcher is at a [select] that receives deliveries. *)
Definition selecting (p : run_phase) : bool := match p with RunSelect _ deliveries _ => deliveries | _ => false end.

Section Invariants.
Context (config : ConsumerConfig).

(** The deliveries in the ring of the current dispatcher. *)
Definition pending_rep (p : run_phase) (q : list consumerEnvelope) : Prop :=
  match phase_dispatcher p with
  | Some d => ring_rep (dp_ring d) q ∧ llen (rg_pending (dp_ring d)) = consumerPendingCapacity (Prefetch config)
              ∧ (selecting p = true → rg_count (dp_ring d) < llen (rg_pending (dp_ring d)))
  | None => q = []
  end.

Record state_inv (c : Consumer) (t : traffic) (p : run_phase) : Prop := {
  st_generation : (currentGeneration c < length (cn_generations c))%nat;
  st_dispatcher : ∀ d, phase_dispatcher p = Some d →
    dp_generation d = currentGeneration c ∧ (dp_deliveriesClosed d = true → isStopping c = true);
  st_jobs : llen (tf_jobs t) <= Prefetch config;
  st_workers : llen (tf_workers t) <= Concurrency config;
  st_jobsClosed : tf_jobsClosed t = waiting p;
  st_done : is_done p = true → tf_jobs t = [] ∧ tf_workers t = [];
  st_stopped : lc_stopped (cn_lifecycle c) = is_done p;
  st_terminal : lc_terminalErr (cn_lifecycle c) ≠ None → finishing p = true;
  st_terminalErr : unavailable_or_none (lc_terminalErr (cn_lifecycle c));
  st_drainErr : unavailable_or_none (lc_drainErr (cn_lifecycle c));
  st_resourceErr : unavailable_or_none (lc_resourceErr (cn_lifecycle c));
  st_contexts : cn_recoveryStopped c = true ∨ cn_lifetimeStopped c = true →
    isStopping c = true ∨ waiting p = true;
  st_finishing : finishing p = true → isStopping c = true ∨ lc_terminalErr (cn_lifecycle c) ≠ None;
  st_shutdown : shutdown_ok c;
  st_stream : stream_ok c }.

(** A step that neither fails the consumer for good nor replaces its generation. *)
Lemma state_step c c' t t' p p' :
  state_inv c t p → evolves c c' →
  llen (tf_jobs t') <= Prefetch config → llen (tf_workers t') <= Concurrency config →
  tf_jobsClosed t' = tf_jobsClosed t → waiting p' = waiting p → is_done p' = is_done p →
  (is_done p = true → tf_jobs t' = [] ∧ tf_workers t' = []) →
  (finishing p = true → finishing p' = true) →
  (finishing p' = true → finishing p = true ∨ isStopping c' = true) →
  (∀ d, phase_dispatcher p' = Some d →
     dp_generation d = currentGeneration c ∧ (dp_deliveriesClosed d = true → isStopping c' = true)) →
  state_inv c' t' p'.
Proof.
  intros [] [] Hj Hw Hjc Hwait Hdone Hd Hf Hf' Hdisp. unfold unavailable_or_none in *. split; auto; try congruence.
  - intros d Hd'. destruct (Hdisp d Hd'). split; [congruence|auto].
  - intros Hd'. apply Hd. congruence.
  - rewrite ev_terminal0. auto.
  - by rewrite ev_terminal0.
  - destruct ev_drainErr0 as [H|H]; rewrite H; [done|by right].
  - destruct ev_resourceErr0 as [H|H]; rewrite H; [done|by right].
  - rewrite Hwait. assert (isStopping c = true ∨ waiting p = true → isStopping c' = true ∨ waiting p = true) as Hc
      by (intros [?|?]; auto).
    intros [H|H]; [destruct (ev_recovery0 H)|destruct (ev_lifetime0 H)]; auto.
  - intros H. rewrite ev_terminal0. destruct (Hf' H) as [Hp|]; [|auto]. destruct (st_finishing0 Hp); auto.
Qed.

(** A step of a goroutine other than the supervisor. *)
Lemma state_same c c' t t' p :
  state_inv c t p → evolves c c' →
  llen (tf_jobs t') <= Prefetch config → llen (tf_workers t') <= Concurrency config →
  tf_jobsClosed t' = tf_jobsClosed t → (is_done p = true → tf_jobs t' = [] ∧ tf_workers t' = []) →
  state_inv c' t' p.
Proof.
  intros Hinv Hev Hj Hw Hjc Hd. eapply state_step; try done; auto.
  intros d Hdisp. destruct Hinv, Hev. destruct (st_dispatcher0 d Hdisp). auto.
Qed.

Lemma state_frame c c' t p : state_inv c t p → evolves c c' → state_inv c' t p.
Proof. intros Hinv Hev. pose proof Hinv as []. by eapply state_same. Qed.

(** The consumer fails for good. *)
Lemma state_fail c t p :
  state_inv c t p → finishing p = false →
  state_inv (setTerminalError c (Some ErrConsumerUnavailable)) t (RunFinishing false).
Proof.
  intros Hinv Hp. pose proof Hinv as [].
  assert (lc_terminalErr (cn_lifecycle c) = None) as Ht.
  { destruct (lc_terminalErr (cn_lifecycle c)); [|done]. rewrite st_terminal0 in Hp; done. }
  assert (waiting p = false ∧ is_done p = false) as [Hw Hd] by by destruct p.
  unfold setTerminalError. rewrite Ht. simpl. destruct (evolves_observe
    (set_lifecycle c (with_terminal (cn_lifecycle c) (Some ErrConsumerUnavailable)))
    (observation ObservationConnectionState ObservationUnavailable)).
  split; simpl in *; try done; try congruence.
  - by right.
  - intros H. destruct (st_contexts0 H); [by left|congruence].
  - intros _. by right.
  - auto.
Qed.

(** ** Order *)

(** The deliveries of one generation. *)
Definition of_generation (g : nat) (l : list consumerEnvelope) : list consumerEnvelope :=
  filter (λ e, env_generation e = g) l.

Record order_inv (c : Consumer) (t : traffic) (p : run_phase) (q : list consumerEnvelope) : Prop := {
  or_received : map env_key (tf_accepted t) `sublist_of` map source_key (tf_received t);
  or_generations : ∀ e, e ∈ tf_accepted t → (env_generation e < length (cn_generations c))%nat;
  or_fresh : p = RunInstalled → ∀ e, e ∈ tf_accepted t → env_generation e ≠ currentGeneration c;
  or_prefix : ∀ g, of_generation g (tf_admitted t) `prefix_of` of_generation g (tf_accepted t);
  or_tracking : tracking p = true → ∃ dropped,
    of_generation (currentGeneration c) (tf_accepted t)
      = of_generation (currentGeneration c) (tf_admitted t) ++ dropped ++ q
    ∧ (dropped ≠ [] → am_shutdownAdmissionClosed (cn_admission c) = true
                      ∧ lc_drainErr (cn_lifecycle c) ≠ None) }.

Lemma drainErr_kept c c' :
  evolves c c' → lc_drainErr (cn_lifecycle c) ≠ None → lc_drainErr (cn_lifecycle c') ≠ None.
Proof using. intros [] H. destruct ev_drainErr0 as [->| ->]; done. Qed.

(** A step that leaves the logs alone, except for deliveries that are not
    accepted. *)
Lemma order_frame c c' t t' p p' q q' :
  order_inv c t p q → evolves c c' →
  tf_accepted t' = tf_accepted t → tf_admitted t' = tf_admitted t →
  map source_key (tf_received t) `sublist_of` map source_key (tf_received t') →
  p' ≠ RunInstalled ∨ p' = p → (tracking p' = true → tracking p = true ∧ q' = q) →
  order_inv c' t' p' q'.
Proof using.
  intros [] Hev Ha Had Hr Hp Ht. pose proof Hev as []. split; rewrite ?Ha, ?Had; try done.
  - by etrans.
  - intros e He. rewrite ev_generations0. auto.
  - intros ->. rewrite ev_generation0. destruct Hp as [?|<-]; [done|auto].
  - intros Htr. destruct (Ht Htr) as [Htr' ->]. destruct (or_tracking0 Htr') as (dropped & Heq & Hd).
    exists dropped. rewrite ev_generation0. split; [done|]. intros Hne. destruct (Hd Hne).
    split; [auto|by eapply drainErr_kept].
Qed.

(** The next delivery of the queue is admitted. *)
Lemma order_admit c t d e q :
  order_inv c t (RunTop d) (e :: q) → am_shutdownAdmissionClosed (cn_admission c) = false →
  order_inv c (log_admitted t e) (RunTop (set_ring d (ring_pop (dp_ring d)))) q.
Proof using.
  intros [] Hopen. destruct (or_tracking0 eq_refl) as (dropped & Heq & Hd).
  assert (dropped = []) as ->.
  { destruct dropped; [done|]. destruct Hd as [Hc _]; [done|]. congruence. }
  simpl in Heq. assert (env_generation e = currentGeneration c) as Hg.
  { assert (e ∈ of_generation (currentGeneration c) (tf_accepted t)) as He.
    { rewrite Heq. apply elem_of_app. right. by left. }
    by apply list_elem_of_filter in He as [? _]. }
  assert (of_generation (currentGeneration c) (tf_admitted t ++ [e]) =
          of_generation (currentGeneration c) (tf_admitted t) ++ [e]) as Happ.
  { unfold of_generation. rewrite filter_app, filter_cons_True, filter_nil by done. done. }
  split; simpl; try done.
  - intros g. destruct (decide (g = currentGeneration c)) as [->|Hne].
    + rewrite Happ, Heq. exists q. by rewrite <- app_assoc.
    + unfold of_generation. rewrite filter_app, filter_cons_False, filter_nil, app_nil_r by congruence.
      apply or_prefix0.
  - intros _. exists []. rewrite Happ, Heq. split; [|done]. simpl. by rewrite <- app_assoc.
Qed.

(** A delivery is accepted behind the queue. *)
Lemma order_accept c c' t t' p p' q e :
  order_inv c t p q → evolves c c' → tracking p = true → tracking p' = true → p' ≠ RunInstalled →
  env_generation e = currentGeneration c → (currentGeneration c < length (cn_generations c))%nat →
  tf_accepted t' = tf_accepted t ++ [e] → tf_admitted t' = tf_admitted t →
  map source_key (tf_received t') = map source_key (tf_received t) ++ [env_key e] →
  order_inv c' t' p' (q ++ [e]).
Proof using.
  intros [] Hev Hp Hp' Hni Hg Hlt Ha Had Hr. pose proof Hev as []. split; rewrite ?Ha, ?Had, ?Hr; try done.
  - rewrite map_app. by apply sublist_app.
  - intros e' [He| ->%list_elem_of_singleton]%elem_of_app; rewrite ev_generations0; [auto|congruence].
  - intros g. etrans; [apply or_prefix0|]. unfold of_generation. rewrite filter_app. by apply prefix_app_r.
  - intros _. destruct (or_tracking0 Hp) as (dropped & Heq & Hd). exists dropped. rewrite ev_generation0. split.
    + unfold of_generation in *. rewrite filter_app, Heq, filter_cons_True, filter_nil by done.
      by rewrite <- !app_assoc.
    + intros Hne. destruct (Hd Hne). split; [auto|by eapply drainErr_kept].
Qed.

(** The pending deliveries are discarded by a shutdown, which reports it. *)
Lemma order_discard c c' t p p' q :
  order_inv c t p q → evolves c c' → tracking p = true → p' ≠ RunInstalled →
  am_shutdownAdmissionClosed (cn_admission c) = true →
  (q ≠ [] → lc_drainErr (cn_lifecycle c') ≠ None) →
  order_inv c' t p' [].
Proof using.
  intros [] Hev Hp Hni Hc Hq. pose proof Hev as []. split; try done.
  - intros e He. rewrite ev_generations0. auto.
  - intros Htr. destruct (or_tracking0 Hp) as (dropped & Heq & Hd). exists (dropped ++ q).
    rewrite ev_generation0, app_nil_r. split; [done|]. intros Hne. split; [auto|].
    destruct q as [|e q]; [|by apply Hq]. rewrite app_nil_r in Hne. eapply drainErr_kept; [done|]. by apply Hd.
Qed.

(** ** The invariant of a run *)

Record sys_inv_with (s : system) (q : list consumerEnvelope) : Prop := {
  sy_pending : pending_rep (sy_run s) q;
  sy_flow : flow_inv config (sy_traffic s) q;
  sy_order : order_inv (sy_consumer s) (sy_traffic s) (sy_run s) q;
  sy_state : state_inv (sy_consumer s) (sy_traffic s) (sy_run s) }.

Definition sys_inv (s : system) : Prop := ∃ q, sys_inv_with s q.

Hypothesis Hconfig : ConsumerConfig_Validate config = None.

Lemma config_bounds : 1 <= Prefetch config ∧ 1 <= Concurrency config <= Prefetch config.
Proof using Hconfig.
  unfold ConsumerConfig_Validate in Hconfig.
  repeat match type of Hconfig with context [?a || ?b] => destruct a eqn:?; simpl in Hconfig; [done|] end. lia.
Qed.

Lemma config_failure : Settlement_Validate (Failure config) = None ∧ Method (Failure config) ≠ SettlementDelegate.
Proof using Hconfig.
  unfold ConsumerConfig_Validate in Hconfig.
  destruct (_ || (Method (Failure config) =s SettlementDelegate)) eqn:H; [done|].
  apply orb_false_iff in H as [H Hd]. split; [|by breflect].
  apply orb_false_iff in H as [H _]. apply orb_false_iff in H as [_ Hv]. by apply present_false in Hv.
Qed.

Lemma new_ring_rep : ring_rep (newRing config) [] ∧ llen (rg_pending (newRing config)) = consumerPendingCapacity (Prefetch config).
Proof using Hconfig.
  pose proof config_bounds. unfold newRing, consumerPendingCapacity. split.
  - replace (replicate _ None) with (map (λ _ : option consumerEnvelope, None : option consumerEnvelope)
      (replicate (Z.to_nat (Prefetch config + 1)) None)).
    + apply ring_rep_empty. destruct (Z.to_nat (Prefetch config + 1)) eqn:E; [lia|done].
    + apply (fmap_replicate (λ _ : option consumerEnvelope, None)).
  - simpl. unfold llen. rewrite length_replicate. lia.
Qed.

Lemma sys_inv_new : sys_inv (newSystem config).
Proof using Hconfig.
  pose proof config_bounds. exists []. split; simpl.
  - destruct new_ring_rep. by split.
  - apply flow_inv_new.
  - split; simpl; try done; [set_solver|]. intros _. exists []. done.
  - assert (stream_ok newConsumer) as Hs.
    { apply evolves_observe. split_and!; [|done|done]. apply stream_inv_new. unfold observationBufferSize. lia. }
    split; simpl; try done; try (by left); unfold llen; simpl; try lia.
    + intros d [= <-]. done.
    + split; simpl; [by split|]. by intros [?|?].
Qed.

(** *** The dispatcher before its [select] *)

Lemma discard_inv c t d c' d' q :
  sys_inv_with (mkSystem c t (RunTop d)) q → dispatch_discard c d = (c', d') →
  ∃ q', sys_inv_with (mkSystem c' t (RunTop d')) q'
  ∧ (q' ≠ [] → am_shutdownAdmissionClosed (cn_admission c') = false).
Proof using Hconfig.
  intros Hsys. unfold dispatch_discard.
  destruct (am_shutdownAdmissionClosed (cn_admission c)) eqn:Hc; intros [= <- <-]; [|by exists q].
  destruct Hsys as [(Hrep & Hcap & _) Hflow Horder Hstate]. simpl in *.
  destruct (ring_rep_bound _ _ Hrep) as [Hcount _]. exists []. split; [|done].
  assert (evolves c (if rg_count (dp_ring d) >? 0 then setDrainError c else c)) as Hev
    by (destruct (_ >? _); auto with evolves; reflexivity).
  split; simpl.
  - unfold pending_rep. simpl. unfold llen. rewrite length_map. split_and!; [|done|done].
    apply ring_rep_empty. pose proof config_bounds. unfold consumerPendingCapacity, llen in Hcap.
    intros E. rewrite E in Hcap. simpl in Hcap. lia.
  - by eapply flow_drop.
  - eapply order_discard; try done. intros Hq. destruct (Z.gtb_spec (rg_count (dp_ring d)) 0); [done|].
    destruct q; [done|]. rewrite Hcount, llen_cons in *. pose proof (llen_nonneg q). lia.
  - eapply state_step; try done; try apply Hstate.
    intros d' [= <-]. destruct (st_dispatcher _ _ _ Hstate d eq_refl) as [? Hcl]. split; [done|].
    simpl. intros Hd. apply Hev. by apply Hcl.
Qed.

Lemma top_inv c t d c' t' r :
  sys_inv (mkSystem c t (RunTop d)) → dispatch_top config c t d = Some (c', t', r) →
  sys_inv (mkSystem c' t' (after_top r)).
Proof using Hconfig.
  intros [q Hsys0]. unfold dispatch_top. destruct (dispatch_discard c d) as [c1 d1] eqn:Hdis.
  destruct (discard_inv _ _ _ _ _ _ Hsys0 Hdis) as (q1 & Hsys & Hopen). clear Hsys0 Hdis q. intros Htop.
  destruct Hsys. simpl in *. destruct sy_pending0 as (Hrep1 & Hcap1 & _).
  destruct (ring_rep_bound _ _ Hrep1) as [Hcount1 Hle1].
  destruct ((rg_count (dp_ring d1) >? 0) && _ && _) eqn:Hsend.
  - apply andb_true_iff in Hsend as [[Hpos _]%andb_true_iff Hroom].
    destruct q1 as [|e q2] eqn:Hq1; [rewrite Hcount1 in Hpos; by vm_compute in Hpos|].
    rewrite (ring_front_rep _ _ _ Hrep1) in Htop. injection Htop as <- <- <-.
    exists q2. split; simpl.
    + split_and!; simpl; [by eapply ring_pop_rep| |done]. unfold llen in *. by rewrite length_insert.
    + by eapply flow_admit.
    + eapply order_admit; [done|]. by apply Hopen.
    + eapply state_step; try done; try apply sy_state0; try reflexivity.
      * simpl. rewrite llen_app. unfold llen at 2. simpl. lia.
      * intros d' [= <-]. by apply (st_dispatcher _ _ _ sy_state0 d1).
  - destruct (consumerDrainComplete _ _ _) eqn:Hdrain; injection Htop as <- <- <-.
    + apply andb_true_iff in Hdrain as [[_ Hcl]%andb_true_iff Hz].
      assert (q1 = []) as Hq. { destruct q1; [done|]. rewrite Hcount1, llen_cons in Hz. pose proof (llen_nonneg q1). lia. }
      rewrite Hq in *. exists []. split; simpl; [done|done| |].
      * eapply order_frame; try done; try reflexivity; by left.
      * eapply state_step; try done; try apply sy_state0; try reflexivity.
        intros _. right. by apply (st_dispatcher _ _ _ sy_state0 d1).
    + exists q1. split; simpl; [|done| |].
      * split_and!; [done|done|]. simpl. intros Hsel%negb_true_iff. apply orb_false_iff in Hsel as [_ Hne]. lia.
      * eapply order_frame; try done; try reflexivity; by left.
      * eapply state_step; try done; try apply sy_state0; try reflexivity.
Qed.

(** *** The dispatcher's [select] *)

(** The dispatcher goes on with the same pending deliveries. *)
Lemma dispatch_on c c' t p d d' q :
  sys_inv_with (mkSystem c t p) q → phase_dispatcher p = Some d → evolves c c' →
  dp_ring d' = dp_ring d → dp_generation d' = dp_generation d →
  (dp_deliveriesClosed d' = true → dp_deliveriesClosed d = true ∨ isStopping c' = true) →
  sys_inv_with (mkSystem c' t (RunTop d')) q.
Proof using.
  intros [] Hp Hev Hr Hg Hcl. simpl in *. assert (tracking p = true ∧ waiting p = false ∧ is_done p = false
    ∧ finishing p = false) as (Htr & Hw & Hd & Hf) by by destruct p.
  split; simpl.
  - unfold pending_rep in *. rewrite Hp in sy_pending0. simpl. rewrite Hr. destruct sy_pending0 as (? & ? & _).
    by split_and!.
  - done.
  - eapply order_frame; try done; by left.
  - eapply state_step; try done; try apply sy_state0; try congruence. intros d1 [= <-].
    destruct (st_dispatcher _ _ _ sy_state0 d Hp) as [Hgen Hc]. split; [congruence|]. intros H.
    destruct (Hcl H) as [H'|]; [|done]. apply Hev. auto.
Qed.

(** The dispatcher leaves its generation. *)
Lemma dispatch_end c c' t p p' q :
  sys_inv_with (mkSystem c t p) q → evolves c c' → phase_dispatcher p ≠ None → phase_dispatcher p' = None →
  p' ≠ RunInstalled → tracking p' = false → waiting p' = false → is_done p' = false →
  (finishing p' = true → isStopping c' = true) →
  sys_inv (mkSystem c' t p').
Proof using.
  intros [] Hev Hp Hp' Hi Htr Hw Hd Hf. simpl in *.
  assert (waiting p = false ∧ is_done p = false ∧ finishing p = false) as (Hw0 & Hd0 & Hf0) by by destruct p.
  exists []. split; simpl.
  - unfold pending_rep. by rewrite Hp'.
  - by eapply flow_drop.
  - eapply order_frame; try done; [by left|congruence].
  - eapply state_step; try done; try apply sy_state0; try congruence; auto.
Qed.

Lemma delivery_inv c t d deliveries resume source event c' t' r q :
  sys_inv_with (mkSystem c t (RunSelect d deliveries resume)) q → deliveries = true →
  fresh_delivery t (dp_generation d) (CaseDelivery source event) →
  dispatch_delivery config c (log_received t (dp_generation d) source) d source event = (c', t', r) →
  sys_inv (mkSystem c' t' (after_select (dp_generation d) r)).
Proof using.
  intros Hsys Hsel Hfresh. pose proof Hsys as []. simpl in *. pose proof sy_pending0 as (Hrep & Hcap & Hroom).
  specialize (Hroom Hsel). simpl in Hroom.
  destruct (ring_rep_bound _ _ Hrep) as [Hcount _].
  destruct (flow_receive _ _ _ _ _ sy_flow0 Hfresh) as [Hflow Hkey].
  destruct (st_dispatcher _ _ _ sy_state0 d eq_refl) as [Hgen Hcl].
  assert ((dp_generation d, source) ∈ tf_received (log_received t (dp_generation d) source)) as Hin.
  { simpl. apply elem_of_app. right. by left. }
  unfold dispatch_delivery.
  set (c1 := observe_if (ad_Redelivered source) _ _).
  assert (evolves c c1) as Hev1 by (etrans; [apply evolves_observe|apply evolves_observe_if]).
  destruct (deliveryFromAMQP source config) as [e|delivery] eqn:Hconv.
  - destruct (settle c1 _ _ _ _ _) as [[err c2] t2] eqn:Hs. apply evolves_settle in Hs as (Hev2 & -> & _).
    intros [= <- <- <-].
    assert (sys_inv_with (mkSystem c2 (log_call (log_received t (dp_generation d) source) (dp_generation d)
      (applySettlement (ad_DeliveryTag source) (Reject false))) (RunSelect d deliveries resume)) q) as Hnew.
    { split; simpl; [done| | |].
      - eapply flow_reject; try done.
      - eapply order_frame; [done|by etrans|done|done| |by right|done].
        simpl. rewrite map_app. by apply sublist_inserts_r.
      - eapply state_same; try done; try apply sy_state0. by etrans. }
    destruct (consumerOperationFailed err); simpl.
    + eapply dispatch_end; try done; reflexivity.
    + exists q. eapply dispatch_on; try done; try reflexivity; auto.
  - intros [= <- <- <-]. simpl.
    set (c2 := observe_if (hasDeadLetterHistory _) _ _). set (c3 := observe_if _ c2 _).
    assert (evolves c c3) as Hev3 by (etrans; [exact Hev1|]; etrans; apply evolves_observe_if).
    eexists. split; simpl.
    + split_and!; simpl; [eapply ring_push_rep; [done|]| |done].
      * unfold llen in *. lia.
      * unfold llen in *. by rewrite length_insert.
    + apply (flow_accept config _ _ _ _ _ Hflow Hin Hkey Hconv).
    + eapply order_accept; try done; [apply sy_state0|]. simpl. by rewrite map_app.
    + eapply state_step; try done; try apply sy_state0. intros d' [= <-]. split; [done|].
      simpl. intros Hc. apply Hev3. auto.
Qed.

Lemma select_inv c t d deliveries resume case c' t' r :
  sys_inv (mkSystem c t (RunSelect d deliveries resume)) →
  fresh_delivery t (dp_generation d) case →
  dispatch_select config c t d deliveries resume case = Some (c', t', r) →
  sys_inv (mkSystem c' t' (after_select (dp_generation d) r)).
Proof using.
  intros [q Hsys] Hfresh Hsel.
  pose proof (sy_state _ _ Hsys) as Hst. simpl in Hst.
  assert (∀ c' d', evolves c c' → dp_ring d' = dp_ring d → dp_generation d' = dp_generation d →
    (dp_deliveriesClosed d' = true → dp_deliveriesClosed d = true ∨ isStopping c' = true) →
    sys_inv (mkSystem c' t (RunTop d'))) as Hon.
  { intros. exists q. by eapply dispatch_on. }
  assert (∀ c', evolves c c' → sys_inv (mkSystem c' t (RunEnded (dp_generation d)))) as Hend.
  { intros. by eapply dispatch_end. }
  assert (isStopping c = true → sys_inv (mkSystem c t (RunFinishing false))) as Hfin.
  { intros. eapply dispatch_end; try done. }
  destruct case as [source event|pending| | |tag| | | |]; simpl in Hsel.
  - destruct deliveries; [|done]. simpl in Hsel.
    destruct (am_shutdownAdmissionClosed (cn_admission c)).
    + injection Hsel as <- <- <-. exists q. pose proof Hsys as []. simpl in *. split; simpl; [by destruct sy_pending0 as (? & ? & _)| | |].
      * by apply flow_receive.
      * eapply order_frame; try done; [auto with evolves| |by left].
        simpl. rewrite map_app. by apply sublist_inserts_r.
      * eapply state_step; try done; try apply Hst; [auto with evolves|]. intros d' [= <-].
        by apply (st_dispatcher _ _ _ Hst d).
    + injection Hsel as Hsel. by eapply delivery_inv.
  - destruct deliveries; [|done]. simpl in Hsel.
    assert (evolves c (observePendingCancellation config c (dp_cancellations d) pending)) as Hev
      by (destruct pending; [apply evolves_observe_if|reflexivity]).
    destruct (negb (isStopping _)) eqn:Hs; injection Hsel as <- <- <-; simpl; [auto|].
    apply negb_false_iff in Hs. apply Hon; auto.
  - destruct resume as [x|]; [|done]. destruct (resume_closed c x); [|done]. injection Hsel as <- <- <-.
    apply Hon; auto. reflexivity.
  - destruct (negb _); [done|]. injection Hsel as <- <- <-. apply Hon; auto. by apply evolves_admission.
  - destruct (negb (dp_cancellations d)); [done|].
    destruct (negb (matchingConsumerCancellation _ _)); [injection Hsel as <- <- <-; apply Hon; auto; reflexivity|].
    destruct (isStopping _); injection Hsel as <- <- <-; simpl; [apply Hon|apply Hend]; auto with evolves.
  - destruct (negb _); [done|]. injection Hsel as <- <- <-. apply Hon; auto. reflexivity.
  - destruct (cn_generations c !! _) as [g|]; [|done]. destruct (cg_failure g); [|done].
    injection Hsel as <- <- <-. simpl. auto with evolves.
  - destruct (negb (_ && _)) eqn:Hr; [done|]. destruct (negb (isStopping c)) eqn:Hs; injection Hsel as <- <- <-.
    + apply Hfin. apply negb_false_iff, andb_true_iff in Hr as [_ Hr]. destruct (st_contexts _ _ _ Hst); auto. done.
    + apply Hon; auto. reflexivity.
  - destruct (cn_lifetimeStopped c) eqn:Hl; [|done]. injection Hsel as <- <- <-. simpl. apply Hfin.
    destruct (st_contexts _ _ _ Hst); auto. done.
Qed.

(** *** The other steps *)

(** A caller or the environment changes the consumer alone. *)
Lemma side_inv c c' t p : sys_inv (mkSystem c t p) → evolves c c' → sys_inv (mkSystem c' t p).
Proof using.
  intros [q []] Hev. simpl in *. exists q. split; simpl; [done|done| |by eapply state_frame].
  eapply order_frame; try done. by right.
Qed.

(** A worker changes the traffic. *)
Lemma worker_inv c c' t t' p q :
  sys_inv_with (mkSystem c t p) q → evolves c c' → flow_inv config t' q →
  tf_accepted t' = tf_accepted t → tf_admitted t' = tf_admitted t → tf_received t' = tf_received t →
  tf_jobsClosed t' = tf_jobsClosed t →
  llen (tf_jobs t') <= llen (tf_jobs t) → llen (tf_workers t') <= Concurrency config → tf_workers t ≠ [] ∨ tf_jobs t ≠ [] →
  sys_inv (mkSystem c' t' p).
Proof using.
  intros [] Hev Hflow Ha Had Hr Hjc Hj Hw Hne. simpl in *. exists q. split; simpl; [done|done| |].
  - eapply order_frame; try done; [by rewrite Hr|by right].
  - eapply state_same; try done; [pose proof (st_jobs _ _ _ sy_state0); lia|]. intros Hd.
    destruct (st_done _ _ _ sy_state0 Hd). by destruct Hne.
Qed.

(** The supervisor moves between phases without a dispatcher. *)
Lemma supervise_inv c c' t p p' :
  sys_inv (mkSystem c t p) → evolves c c' → phase_dispatcher p = None → phase_dispatcher p' = None →
  tracking p' = false → p' ≠ RunInstalled → waiting p = false → waiting p' = false → is_done p' = false →
  (finishing p = true → finishing p' = true) → (finishing p' = true → finishing p = true ∨ isStopping c' = true) →
  sys_inv (mkSystem c' t p').
Proof using.
  intros [q []] Hev Hp Hp' Htr Hi Hw Hw' Hd' Hf Hf'. simpl in *. assert (is_done p = false) by by destruct p.
  unfold pending_rep in sy_pending0. rewrite Hp in sy_pending0. subst q. exists []. split; simpl.
  - unfold pending_rep. by rewrite Hp'.
  - done.
  - eapply order_frame; try done; [by left|congruence].
  - eapply state_step; try done; try apply sy_state0; congruence.
Qed.

Lemma fail_inv c t p :
  sys_inv (mkSystem c t p) → phase_dispatcher p = None → finishing p = false →
  sys_inv (mkSystem (setTerminalError c (Some ErrConsumerUnavailable)) t (RunFinishing false)).
Proof using.
  intros [q []] Hp Hf. simpl in *. unfold pending_rep in sy_pending0. rewrite Hp in sy_pending0. subst q.
  exists []. split; simpl; [done|done| |by eapply state_fail].
  destruct sy_order0. unfold setTerminalError. split; try done; destruct (consumerTerminalUnset _); done.
Qed.

Lemma run_close_inv c t g event :
  sys_inv (mkSystem c t (RunClosing g)) →
  sys_inv (mkSystem (run_close c g event).1 t (run_close c g event).2).
Proof using.
  intros Hinv. unfold run_close. pose proof (evolves_closeGeneration c g event) as Hev.
  destruct (closeGeneration c g event) as [err c1]. simpl in Hev.
  destruct (consumerOperationFailed err); simpl.
  - apply (fail_inv _ _ (RunClosing g)); [|done|done]. eapply side_inv; [exact Hinv|]. etrans; [done|]. apply evolves_setResourceError.
  - by eapply supervise_inv.
Qed.

Lemma install_inv c t c' :
  sys_inv (mkSystem c t RunReconnecting) → install_generation c = Some c' →
  sys_inv (mkSystem c' t RunInstalled).
Proof using.
  unfold install_generation. intros [q []] H. simpl in *. destruct (isStopping c) eqn:Hs; [done|]. injection H as <-.
  exists q. split; simpl; try done.
  - destruct sy_order0. split; simpl; try done.
    + intros e He. rewrite length_app. specialize (or_generations0 e He). simpl. lia.
    + intros _ e He Heq. unfold currentGeneration in Heq. simpl in Heq. specialize (or_generations0 e He). lia.
  - destruct sy_state0. split; simpl; try done. unfold currentGeneration. simpl. rewrite length_app. simpl. lia.
Qed.

Lemma recovered_inv c t :
  sys_inv (mkSystem c t RunInstalled) →
  sys_inv (mkSystem (Consumer_finishRecovery c) t (RunTop (newDispatcher config (currentGeneration c)))).
Proof using Hconfig.
  intros [q []]. simpl in *. unfold pending_rep in sy_pending0. simpl in sy_pending0. subst q.
  exists []. pose proof (evolves_finishRecovery c) as Hev. destruct new_ring_rep. split; simpl; [by split|done| |].
  - destruct sy_order0. destruct Hev. split; simpl; try done.
    intros _. exists []. simpl. rewrite app_nil_r. split; [|done].
    assert (of_generation (currentGeneration c) (tf_accepted t) = []) as Hnil.
    { specialize (or_fresh0 eq_refl). clear -or_fresh0. induction (tf_accepted t) as [|e l IH]; [done|].
      rewrite (forall_cons _ e l) in or_fresh0. destruct or_fresh0 as [He Hl]. unfold of_generation in *.
      rewrite filter_cons_False by done. by apply IH. }
    change (currentGeneration (Consumer_finishRecovery c)) with (currentGeneration c).
    pose proof (or_prefix0 (currentGeneration c)) as Hp. rewrite Hnil in *.
    by apply prefix_nil_inv in Hp as ->.
  - eapply state_step; try done; try apply sy_state0. intros d [= <-]. done.
Qed.

Lemma finish_begin_inv c t drained event :
  sys_inv (mkSystem c t (RunFinishing drained)) →
  sys_inv (mkSystem (finishRun_begin c t event).1 (finishRun_begin c t event).2 (RunWaiting drained)).
Proof using.
  intros Hinv. unfold finishRun_begin. simpl.
  assert (sys_inv (mkSystem (stopRecovery c) (set_jobs t (tf_jobs t) true) (RunWaiting drained))
    ∧ sys_inv (mkSystem (stopLifetime (stopRecovery c)) (set_jobs t (tf_jobs t) true) (RunWaiting drained))) as [H1 H2].
  { destruct Hinv as [q []]. simpl in *. destruct sy_flow0, sy_order0, sy_state0.
    split; exists q; (split; simpl; [done|by split|by split|]); split; simpl; try done; auto. }
  destruct (present (Consumer_Err (stopRecovery c))); [|done]. eapply side_inv; [exact H2|].
  apply evolves_closeGeneration.
Qed.

(** [finishRun] up to the stopped flag. *)
Definition finish_resources (c : Consumer) (event : close_event) : Consumer :=
  let delegated := match cn_generations c !! currentGeneration c with Some g => cg_delegated g | None => false end in
  if present (drainError c) || delegated
  then let '(err, c) := closeGeneration c (currentGeneration c) event in setResourceError c err
  else c.

Lemma evolves_finish_resources c event : evolves c (finish_resources c event).
Proof using.
  unfold finish_resources. destruct (_ || _); [|reflexivity].
  pose proof (evolves_closeGeneration c (currentGeneration c) event) as Hev.
  destruct (closeGeneration _ _ _) as [err c1]. etrans; [exact Hev|]. apply evolves_setResourceError.
Qed.

Lemma finish_end_ok c t drained event :
  sys_inv (mkSystem c t (RunWaiting drained)) → tf_jobs t = [] → tf_workers t = [] →
  ∃ c', finishRun_end c event = Some c' ∧ sys_inv (mkSystem c' t (RunDone drained))
  ∧ lc_stopped (cn_lifecycle c') = true ∧ lc_recovering (cn_lifecycle c') = false.
Proof using.
  intros Hinv Hj Hw. apply (side_inv c (finish_resources c event)) in Hinv; [|apply evolves_finish_resources].
  unfold finishRun_end. fold (finish_resources c event). set (c1 := finish_resources c event) in *.
  destruct Hinv as [q [Hp Hflow Horder Hstate]]. simpl in *.
  destruct (st_stream _ _ _ Hstate) as (Hs & Hq & Hcl). rewrite (st_stopped _ _ _ Hstate) in Hcl. simpl in Hcl.
  destruct (emit_quiet _ (observation ObservationShutdown ObservationShutdownCompleted) Hs Hq) as (Hs' & Hq' & Hcl').
  rewrite Hcl in Hcl'. destruct (close_steps _ Hcl' Hs' Hq') as (observations & Hclose & Hd1 & Hd2).
  rewrite Hclose. eexists. split; [done|]. apply close_runs in Hclose; [|done].
  assert (stream_inv observations).
  { eapply (rtc_invariant obs_step stream_inv); [apply obs_step_inv|exact Hclose|done]. }
  split; [|done]. exists q. split; simpl; [done|done| |].
  - destruct Horder. by split.
  - destruct Hstate. split; simpl; try done; auto.
Qed.

Lemma finish_end_inv c t drained event c' :
  sys_inv (mkSystem c t (RunWaiting drained)) → tf_jobs t = [] → tf_workers t = [] →
  finishRun_end c event = Some c' → sys_inv (mkSystem c' t (RunDone drained)).
Proof using.
  intros Hinv Hj Hw H. destruct (finish_end_ok _ _ _ event Hinv Hj Hw) as (c1 & H1 & Hs & _). congruence.
Qed.

(** *** Workers *)

Lemma decide_requested c t envelope requested handlerErr contextErr settlement c' t' :
  handle_decide config c t envelope requested handlerErr contextErr = (Some settlement, c', t') →
  t' = t ∧ requested_as config (env_delivery envelope) settlement.
Proof using Hconfig.
  unfold handle_decide. set (invalid := invalidConsumerHandlerOutcome _ _ _).
  destruct (delegatedSettlement _) eqn:Hd; [done|]. intros [= <- <- <-]. split; [done|].
  exists (if invalid then Failure config else requested). split_and!; [| |done].
  - destruct invalid eqn:Hi; [apply config_failure|]. unfold invalid, invalidConsumerHandlerOutcome in Hi.
    apply orb_false_iff in Hi as [_ Hi]. by apply present_false in Hi.
  - unfold delegatedSettlement in Hd. by breflect.
Qed.

Lemma decide_delegated c t envelope requested handlerErr contextErr c' t' :
  handle_decide config c t envelope requested handlerErr contextErr = (None, c', t') →
  t' = complete_envelope t envelope (Some ErrSettlementResultUnavailable).
Proof using. unfold handle_decide. destruct (delegatedSettlement _); [|done]. by intros [= <- <-]. Qed.

Lemma worker_count {A} (before after : list A) w w' :
  llen (before ++ w' :: after) = llen (before ++ w :: after) ∧ llen (before ++ after) <= llen (before ++ w :: after).
Proof using. unfold llen. rewrite !length_app. simpl. lia. Qed.

(** The facts of the invariant a worker's step uses. *)
Ltac worker_facts Hinv Hw :=
  let q := fresh "q" in let Hn := fresh "Hn" in
  destruct Hinv as [q Hinv]; pose proof (sy_flow _ _ Hinv) as Hflow;
  pose proof (st_workers _ _ _ (sy_state _ _ Hinv)) as Hn; simpl in *; rewrite Hw in Hn.

Ltac busy Hw := rewrite Hw; left; match goal with |- ?l ++ _ ≠ [] => by destruct l end.

Lemma consumer_step_inv s s' : consumer_step config s s' → sys_inv s → sys_inv s'.
Proof using Hconfig.
  intros Hstep Hinv. pose proof config_bounds as Hb.
  destruct Hstep as [c t d c' t' r Htop|c t d deliveries resume case c' t' r Hfresh Hsel|c t g|c t g event|c t
    |c t c' Hi|c t|c t|c t drained event|c t drained event c' Hj Hw He|c t p envelope jobs Hj Hc
    |c t p before after envelope requested he ce c' t' Hw Hd|c t p before after envelope requested he ce s c' t' Hw Hd
    |c t p before after envelope s event err c' t' Hw Hs|c t p before after envelope err Hw
    |c t p|c t p|c t p|c t p g ctxErr event Hs|c t p g event Hs|c t p|c t p|c t p drainErr event Hs|c t p o observations Ho].
  - by eapply top_inv.
  - by eapply select_inv.
  - eapply supervise_inv; try done. auto with evolves.
  - by apply run_close_inv.
  - eapply side_inv; [done|]. auto with evolves.
  - by eapply install_inv.
  - unfold recovery_failed. destruct (isStopping c) eqn:Hs; simpl; [|by eapply fail_inv].
    eapply supervise_inv; try done; try reflexivity; auto.
  - by apply recovered_inv.
  - by apply finish_begin_inv.
  - by eapply finish_end_inv.
  - destruct Hinv as [q Hinv]. pose proof (sy_flow _ _ Hinv) as Hflow. simpl in Hflow.
    eapply worker_inv; try done; [by apply flow_take| | |].
    + simpl. rewrite Hj, llen_cons. lia.
    + simpl. rewrite llen_cons. lia.
    + right. by rewrite Hj.
  - worker_facts Hinv Hw.
    pose proof (worker_count before after (Handling envelope) (Handling envelope)) as [_ Hcount].
    apply evolves_decide in Hd as Hev. apply decide_delegated in Hd as ->.
    eapply worker_inv; try done; [etrans; [done|]; auto with evolves| |simpl; lia|busy Hw].
    apply (flow_complete _ _ _ _ _ (Handling envelope)); try done. intros _. simpl. by right.
  - worker_facts Hinv Hw.
    pose proof (worker_count before after (Handling envelope) (Settling envelope s)) as [Hcount _].
    apply evolves_decide in Hd as Hev. apply decide_requested in Hd as [-> Hreq].
    eapply worker_inv; try done; [by eapply flow_decide|simpl; lia|busy Hw].
  - worker_facts Hinv Hw.
    pose proof (worker_count before after (Settling envelope s) (Completing envelope err)) as [Hcount _].
    apply evolves_settle in Hs as (Hev & -> & _).
    eapply worker_inv; try done; [by eapply flow_settle|simpl; lia|busy Hw].
  - worker_facts Hinv Hw.
    pose proof (worker_count before after (Completing envelope err) (Completing envelope err)) as [_ Hcount].
    eapply worker_inv; try done; [etrans; [apply (evolves_complete c t)|apply evolves_signal]| |simpl; lia
      |busy Hw].
    apply (flow_complete _ _ _ _ _ (Completing envelope err)); try done. intros _. simpl.
    destruct err; simpl; [by left|]. apply (fi_workers _ _ _ Hflow (Completing envelope None)); [|done].
    rewrite Hw. set_solver.
  - eapply side_inv; [done|]. auto with evolves.
  - eapply side_inv; [done|]. auto with evolves.
  - eapply side_inv; [done|]. auto with evolves.
  - eapply side_inv; [done|]. auto with evolves.
  - eapply side_inv; [done|]. by apply evolves_Drain_abort.
  - eapply side_inv; [done|]. auto with evolves.
  - eapply side_inv; [done|]. auto with evolves.
  - eapply side_inv; [done|]. by apply evolves_finishShutdown.
  - eapply side_inv; [done|]. by eapply evolves_read.
Qed.

Lemma consumer_reachable s : rtc (consumer_step config) (newSystem config) s → sys_inv s.
Proof using Hconfig.
  intros Hr. eapply (rtc_invariant (consumer_step config) sys_inv); [apply consumer_step_inv|exact Hr|apply sys_inv_new].
Qed.
End Invariants.
