(* ===== verification/ConsumerSafety.v ===== *)
(** * ConsumerSafety: the claims on the consumer

    What every run of [consumer_step] guarantees, whatever the broker, the
    handlers and the callers of [Pause], [Resume], [Drain] and [Shutdown] do, and
    an executable scheduler with which concrete runs are exhibited. *)

From S2P Require Import Prelude GoText Errors Config Amqp Message Topology Settlement Delivery Observation.
From S2P Require Import Producer Consumer ConsumerFlow ConsumerRun.

(** ** Steps *)

Section Steps.
Context (config : ConsumerConfig).

(** A step is an operation that evolves the consumer, the terminal failure, the
    installation of a generation, or the supervisor's end. *)
Lemma step_stopping s s' :
  consumer_step config s s' → isStopping (sy_consumer s) = true →
  isStopping (sy_consumer s') = true ∧ currentGeneration (sy_consumer s') = currentGeneration (sy_consumer s)
  ∧ length (cn_generations (sy_consumer s')) = length (cn_generations (sy_consumer s))
  ∧ (lc_recovering (cn_lifecycle (sy_consumer s')) = true → lc_recovering (cn_lifecycle (sy_consumer s)) = true).
Proof using.
  intros Hstep Hs.
  assert (∀ c c', evolves c c' → isStopping c = true → isStopping c' = true ∧ currentGeneration c' = currentGeneration c
    ∧ length (cn_generations c') = length (cn_generations c)
    ∧ (lc_recovering (cn_lifecycle c') = true → lc_recovering (cn_lifecycle c) = true)) as Hev.
  { intros c c' [] Hc. auto. }
  destruct Hstep; cbn [sy_consumer] in *.
  - eapply Hev; [by eapply evolves_top|done].
  - eapply Hev; [by eapply evolves_select|done].
  - apply Hev; [auto with evolves|done].
  - unfold run_close. pose proof (evolves_closeGeneration c g event) as He.
    destruct (closeGeneration c g event) as [err c1]. simpl in He.
    destruct (consumerOperationFailed err); [|by apply Hev].
    destruct (Hev _ _ (evolves_trans _ _ _ He (evolves_setResourceError c1 err)) Hs) as (? & ? & ? & ?).
    unfold setTerminalError. simpl. by destruct (consumerTerminalUnset _).
  - apply Hev; [auto with evolves|done].
  - unfold install_generation in *. by rewrite Hs in *.
  - unfold recovery_failed. by rewrite Hs.
  - apply Hev; [auto with evolves|done].
  - unfold finishRun_begin. simpl. destruct (present _); [|done].
    apply (Hev (stopLifetime (stopRecovery c))); [auto with evolves|done].
  - unfold finishRun_end in *. fold (finish_resources c event) in *. destruct (close _); [|done]. simplify_eq/=.
    by destruct (Hev _ _ (evolves_finish_resources c event) Hs) as (? & ? & ? & ?).
  - done.
  - eapply Hev; [|done]. etrans; [by eapply evolves_decide|auto with evolves].
  - eapply Hev; [by eapply evolves_decide|done].
  - eapply Hev; [|done]. by eapply evolves_settle.
  - eapply Hev; [|done]. etrans; [apply (evolves_complete c t)|auto with evolves].
  - apply Hev; [auto with evolves|done].
  - apply Hev; [auto with evolves|done].
  - apply Hev; [auto with evolves|done].
  - apply Hev; [auto with evolves|done].
  - apply Hev; [by apply evolves_Drain_abort|done].
  - apply Hev; [auto with evolves|done].
  - apply Hev; [auto with evolves|done].
  - apply Hev; [by apply evolves_finishShutdown|done].
  - eapply Hev; [by eapply evolves_read|done].
Qed.

(** Only the dispatcher admits a delivery to the handlers. *)
Lemma step_admits s s' :
  consumer_step config s s' →
  tf_admitted (sy_traffic s') = tf_admitted (sy_traffic s)
  ∨ ∃ d e, sy_run s = RunTop d ∧ tf_admitted (sy_traffic s') = tf_admitted (sy_traffic s) ++ [e]
    ∧ ring_front (dp_ring d) = Some e
    ∧ am_shutdownAdmissionClosed (cn_admission (sy_consumer s)) = false
    ∧ consumerAdmissionPaused (am_paused (cn_admission (sy_consumer s))) (dp_draining d) = false
    ∧ llen (tf_jobs (sy_traffic s)) < Prefetch config.
Proof using.
  intros Hstep. destruct Hstep; try (by left); cbn [sy_consumer sy_traffic sy_run].
  - unfold dispatch_top, dispatch_discard in H.
    destruct (am_shutdownAdmissionClosed (cn_admission c)) eqn:Hc.
    + left. simpl in H. by repeat case_match; simplify_eq/=.
    + destruct ((_ >? 0) && _ && _) eqn:Hsend; [|left; by repeat case_match; simplify_eq/=].
      destruct (ring_front (dp_ring d)) as [e|] eqn:Hf; [|done]. injection H as <- <- <-. right. exists d, e.
      apply andb_true_iff in Hsend as [[_ Hp]%andb_true_iff Hroom]. apply negb_true_iff in Hp.
      split_and!; try done. lia.
  - left. destruct case; simpl in H0; repeat case_match; simplify_eq/=; try done.
    unfold dispatch_delivery in *. destruct (deliveryFromAMQP source config); simplify_eq/=; [|done].
    destruct (settle _ _ _ _ _ _) as [[err c1] t1] eqn:Hs. apply evolves_settle in Hs as (_ & -> & _). by simplify_eq/=.
  - left. by apply decide_delegated in H0 as ->.
  - left. unfold handle_decide in H0. by repeat case_match; simplify_eq/=.
  - left. by apply evolves_settle in H0 as (_ & -> & _).
Qed.
End Steps.

(** ** Claims *)

Section Claims.
Context (config : ConsumerConfig).
Hypothesis Hconfig : ConsumerConfig_Validate config = None.

Abbreviation reachable := (rtc (consumer_step config) (newSystem config)).

(** C4: a delivery is settled at most once and only on the channel it came from:
    the settlement calls of a generation have distinct tags; each is for a
    delivery received on that generation; an invalid delivery is rejected without
    requeue, and a valid one gets what the requeue bound leaves of a valid request,
    never a delegation and never "multiple". *)
Theorem consumer_settles_once s :
  reachable s →
  NoDup (map call_key (tf_calls (sy_traffic s)))
  ∧ ∀ g call, (g, call) ∈ tf_calls (sy_traffic s) → ∃ source, (g, source) ∈ tf_received (sy_traffic s)
    ∧ match deliveryFromAMQP source config with
      | inl _ => call = CallReject (ad_DeliveryTag source) false
      | inr delivery => ∃ requested, Settlement_Validate requested = None ∧ Method requested ≠ SettlementDelegate
          ∧ applySettlement (ad_DeliveryTag source) (boundedSettlement delivery requested config) = Some call
      end.
Proof using Hconfig.
  intros [q [_ Hflow _ _]]%consumer_reachable; [|done]. destruct Hflow. split.
  - eapply nodup_submseteq; [|exact fi_holders]. unfold holders. rewrite !app_assoc. by apply submseteq_inserts_l.
  - intros g call Hin. destruct (fi_calls _ Hin) as (source & Hr & Hj). exists source. split; [done|].
    cbn [fst snd] in Hj. destruct (deliveryFromAMQP source config); [done|].
    destruct Hj as (settlement & (requested & Hv & Hd & ->) & Ha). by exists requested.
Qed.

(** C5: handlers get the deliveries of a channel in the broker's order: what was
    admitted of a generation is an initial part of what was accepted of it, and
    what was accepted follows the order of the deliveries received, each once. *)
Theorem consumer_order s g :
  reachable s →
  of_generation g (tf_admitted (sy_traffic s)) `prefix_of` of_generation g (tf_accepted (sy_traffic s))
  ∧ map env_key (tf_accepted (sy_traffic s)) `sublist_of` map source_key (tf_received (sy_traffic s))
  ∧ NoDup (map env_key (tf_accepted (sy_traffic s))).
Proof using Hconfig.
  intros [q [_ Hflow Horder _]]%consumer_reachable; [|done]. destruct Hflow, Horder.
  split_and!; [done..|]. eapply nodup_submseteq; [by apply sublist_submseteq|done].
Qed.

(** C15: the dispatcher is bounded and never panics: at most the prefetch is
    queued for the workers and at most the configured number of handlers runs, the
    ring never overwrites a pending delivery nor sends an empty slot, and nothing
    is sent on the closed jobs channel. *)
Theorem consumer_bounded c t p :
  reachable (mkSystem c t p) →
  llen (tf_jobs t) <= Prefetch config ∧ llen (tf_workers t) <= Concurrency config
  ∧ ∀ d, phase_dispatcher p = Some d → tf_jobsClosed t = false
      ∧ 0 <= rg_count (dp_ring d) <= Prefetch config + 1 ∧ 0 <= rg_head (dp_ring d) <= Prefetch config
      ∧ (selecting p = true → rg_count (dp_ring d) <= Prefetch config)
      ∧ is_Some (dispatch_top config c t d).
Proof using Hconfig.
  intros Hr. apply consumer_reachable in Hr as [q Hsys0]; [|done]. pose proof Hsys0 as [Hp _ _ Hstate].
  cbn [sy_run sy_consumer sy_traffic] in *. pose proof Hstate as []. split_and!; [done..|]. intros d Hd. unfold pending_rep in Hp. rewrite Hd in Hp.
  destruct Hp as (Hrep & Hcap & Hsel). destruct (ring_rep_bound _ _ Hrep) as [Hcount Hle].
  unfold consumerPendingCapacity in Hcap. pose proof (llen_nonneg q).
  assert (waiting p = false) as Hw by by destruct p. split_and!; try lia; [congruence|..].
  - destruct Hrep as (h & -> & Hh & _). unfold llen in *. lia.
  - destruct Hrep as (h & -> & Hh & _). unfold llen in *. lia.
  - intros Hs. specialize (Hsel Hs). lia.
  - assert (sys_inv_with config (mkSystem c t (RunTop d)) q) as Hsys.
    { eapply (dispatch_on config c c t p d d); try done. by left. }
    unfold dispatch_top. destruct (dispatch_discard c d) as [c1 d1] eqn:Hdis.
    destruct (discard_inv _ Hconfig _ _ _ _ _ _ Hsys Hdis) as (q1 & [(Hrep1 & _) _ _ _] & _). simpl in Hrep1.
    destruct (ring_rep_bound _ _ Hrep1) as [Hcount1 _].
    destruct ((rg_count (dp_ring d1) >? 0) && _ && _) eqn:Hsend; [|by destruct (consumerDrainComplete _ _ _)].
    destruct q1 as [|e q1]; [rewrite Hcount1 in Hsend; by vm_compute in Hsend|].
    by rewrite (ring_front_rep _ _ _ Hrep1).
Qed.

(** C23: admission obeys [Pause] and [Shutdown]: a step hands at most one delivery
    to the workers, the oldest pending one; never after shutdown closed
    admission, never while the consumer is paused and not draining, and never past
    the prefetch. *)
Theorem consumer_admission_gate s s' :
  consumer_step config s s' → tf_admitted (sy_traffic s') ≠ tf_admitted (sy_traffic s) →
  ∃ d e, sy_run s = RunTop d ∧ tf_admitted (sy_traffic s') = tf_admitted (sy_traffic s) ++ [e]
  ∧ ring_front (dp_ring d) = Some e
  ∧ am_shutdownAdmissionClosed (cn_admission (sy_consumer s)) = false
  ∧ (am_paused (cn_admission (sy_consumer s)) = true → dp_draining d = true)
  ∧ llen (tf_jobs (sy_traffic s)) < Prefetch config.
Proof using.
  intros Hstep Hne. destruct (step_admits config s s' Hstep) as [?|(d & e & Hd & Ha & Hf & Hc & Hp & Hroom)]; [done|].
  exists d, e. split_and!; try done. intros Hpaused. unfold consumerAdmissionPaused in Hp. rewrite Hpaused in Hp.
  by apply negb_false_iff in Hp.
Qed.

(** C24: stopping is for good: once [Drain] or [Shutdown] has begun, the consumer
    stays stopping, replaces its generation no more and begins no recovery, is
    never ready, and refuses [Pause] and [Resume]. *)
Theorem consumer_stops_for_good s s' :
  isStopping (sy_consumer s) = true → rtc (consumer_step config) s s' →
  isStopping (sy_consumer s') = true
  ∧ currentGeneration (sy_consumer s') = currentGeneration (sy_consumer s)
  ∧ length (cn_generations (sy_consumer s')) = length (cn_generations (sy_consumer s))
  ∧ (lc_recovering (cn_lifecycle (sy_consumer s')) = true → lc_recovering (cn_lifecycle (sy_consumer s)) = true)
  ∧ Consumer_Readiness (sy_consumer s') = ReadinessNotReady
  ∧ (Pause (sy_consumer s')).1 = Some ErrConsumerClosed ∧ (Resume (sy_consumer s')).1 = Some ErrConsumerClosed.
Proof using.
  intros Hs Hr.
  assert (∀ c, isStopping c = true → Consumer_Readiness c = ReadinessNotReady
    ∧ (Pause c).1 = Some ErrConsumerClosed ∧ (Resume c).1 = Some ErrConsumerClosed) as Hc.
  { intros c Hc. unfold isStopping in Hc. unfold Consumer_Readiness, Pause, Resume, Consumer_closed,
      consumerLifecycleClosed. rewrite Hc. simpl. by destruct (am_paused _). }
  induction Hr as [s|s1 s2 s3 Hstep _ IH]; [by split_and!; auto; apply Hc|].
  destruct (step_stopping config s1 s2 Hstep Hs) as (Hs2 & Hg & Hl & Hrec).
  destruct (IH Hs2) as (H1 & H2 & H3 & H4 & H5). split_and!; try done; try congruence; auto; apply H5.
Qed.

(** The health reports agree and a consumer never ends silently: it is ready
    exactly when it is not paused and its dependency is available, and then live;
    it has failed exactly when [Err] reports the unavailable consumer; and when
    its supervisor has ended, it was asked to stop or it has failed. *)
Theorem consumer_health_coherent c t p :
  reachable (mkSystem c t p) →
  (Consumer_Readiness c = ReadinessReady ↔
     am_paused (cn_admission c) = false ∧ Consumer_DependencyHealth c = DependencyAvailable)
  ∧ (Consumer_Readiness c = ReadinessReady → Consumer_Liveness c = LivenessLive ∧ (Pause c).1 = None)
  ∧ (Consumer_Liveness c = LivenessFailed ↔ Consumer_Err c = Some ErrConsumerUnavailable)
  ∧ (finishing p = true → isStopping c = true ∨ Consumer_Err c = Some ErrConsumerUnavailable).
Proof using Hconfig.
  intros Hr. apply consumer_reachable in Hr as [q [_ _ _ Hstate]]; [|done]. simpl in *. destruct Hstate.
  unfold Consumer_Readiness, Consumer_DependencyHealth, Consumer_Liveness, Consumer_Err, Pause, Consumer_closed,
    consumerLifecycleClosed, isStopping in *. destruct (cn_lifecycle c) as [st rec sp term g de re]. simpl in *.
  destruct (am_paused (cn_admission c)), st, rec, sp; destruct st_terminalErr as [-> | ->]; simpl;
    split_and!; try done; try tauto; (split; [done|by intros [? ?]]) || (by split).
Qed.

(** C6: a completed drain left nothing behind: when the supervisor has ended by
    completing a drain that reports no error, every delivery accepted on the last
    generation was handed to a handler, and every handler has settled or delegated
    its delivery. *)
Theorem consumer_drain_complete c t :
  reachable (mkSystem c t (RunDone true)) → drainError c = None →
  of_generation (currentGeneration c) (tf_admitted t) = of_generation (currentGeneration c) (tf_accepted t)
  ∧ tf_jobs t = [] ∧ tf_workers t = []
  ∧ ∀ e, e ∈ of_generation (currentGeneration c) (tf_accepted t) →
      ∃ s, tf_settlements t !! env_settlement e = Some s ∧ ds_done s = true.
Proof using Hconfig.
  intros Hr Hnone. apply consumer_reachable in Hr as [q [Hp Hflow Horder Hstate]]; [|done].
  unfold pending_rep in Hp. simpl in Hp. subst q. cbn [sy_run sy_consumer sy_traffic] in *.
  destruct (or_tracking _ _ _ _ Horder eq_refl) as (dropped & Heq & Hd).
  destruct (st_done _ _ _ _ Hstate eq_refl) as [Hj Hw].
  assert (dropped = []) as ->.
  { destruct dropped as [|e dropped]; [done|]. destruct Hd as [_ Hde]; [done|].
    unfold drainError in Hnone. by destruct (lc_drainErr (cn_lifecycle c)). }
  rewrite !app_nil_r in Heq. split_and!; try done. intros e He. rewrite Heq in He.
  apply list_elem_of_filter in He as [_ He]. destruct (fi_finished _ _ _ Hflow e He) as [Hin|Hs]; [|done].
  rewrite Hj, Hw in Hin. by apply not_elem_of_nil in Hin.
Qed.

(** No handler's caller waits in vain: once the consumer is done, every
    delivery that was handed to a handler has its settlement result; a nil result
    means the settlement call was made on the delivery's own channel, and any
    other is the unavailable consumer or the delegated settlement. *)
Theorem consumer_results c t p e :
  reachable (mkSystem c t p) → e ∈ tf_admitted t →
  (is_done p = true → ∃ s, tf_settlements t !! env_settlement e = Some s ∧ ds_done s = true)
  ∧ ∀ s, tf_settlements t !! env_settlement e = Some s → ds_done s = true →
      match ds_err s with
      | None => ∃ call, (env_generation e, call) ∈ tf_calls t ∧ call_tag call = env_tag e
      | Some err => err = ErrConsumerUnavailable ∨ err = ErrSettlementResultUnavailable
      end.
Proof using Hconfig.
  intros Hr He. apply consumer_reachable in Hr as [q [_ Hflow _ Hstate]]; [|done].
  cbn [sy_run sy_consumer sy_traffic] in *. split.
  - intros Hd. destruct (st_done _ _ _ _ Hstate Hd) as [Hj Hw].
    destruct (fi_finished _ _ _ Hflow e He) as [Hin|Hs]; [|done].
    rewrite Hj, Hw in Hin. by apply not_elem_of_nil in Hin.
  - intros s Hs Hd. pose proof (fi_results _ _ _ Hflow e s (fi_admitted _ _ _ Hflow e He) Hs Hd) as Hok.
    destruct (ds_err s); [done|]. apply list_elem_of_fmap in Hok as ([g call] & Hk & Hin).
    injection Hk as -> ->. eauto.
Qed.

(** The consumer always finishes: once its workers have ended, the last part
    of [finishRun] completes without blocking, and leaves a stopped consumer that
    is not ready. *)
Theorem consumer_finish_completes c t drained event :
  reachable (mkSystem c t (RunWaiting drained)) → tf_jobs t = [] → tf_workers t = [] →
  ∃ c', finishRun_end c event = Some c' ∧ Consumer_Readiness c' = ReadinessNotReady
  ∧ lc_recovering (cn_lifecycle c') = false ∧ os_close (cn_observations c') = CloseDone.
Proof using Hconfig.
  intros Hr Hj Hw. apply consumer_reachable in Hr; [|done].
  destruct (finish_end_ok config c t drained event Hr Hj Hw) as (c' & Hf & [q [_ _ _ Hs]] & Hstop & Hrec).
  exists c'. split_and!; try done.
  - unfold Consumer_Readiness. rewrite Hstop, !orb_true_r. by destruct (am_paused _).
  - destruct (st_stream _ _ _ _ Hs) as (_ & _ & Hcl). cbn [sy_consumer] in Hcl. by rewrite Hcl, Hstop.
Qed.
End Claims.

(** ** A scheduler *)

(** The steps of a run, chosen by a scheduler; [n] is the position of a worker. *)
Inductive action :=
| ATop
| ASelect (case : select_case)
| ABeginRecovery
| AClose (event : close_event)
| AInstall
| ARecoveryFailed
| ARecovered
| AFinishBegin (event : close_event)
| AFinishEnd (event : close_event)
| ATake
| ADecide (n : nat) (requested : Settlement) (handlerErr contextErr : option error)
| ASettle (n : nat) (event : settle_event)
| AComplete (n : nat)
| APause
| AResume
| ADrainBegin
| ADrainCancel (event : cancel_event)
| ADrainAbort (event : close_event)
| AShutdownClose
| AShutdownStop.

Definition fresh_delivery_b (t : traffic) (generation : nat) (case : select_case) : bool :=
  match case with
  | CaseDelivery source _ =>
    forallb (λ x, negb ((x.1 =? generation)%nat && (ad_DeliveryTag x.2 =? ad_DeliveryTag source))) (tf_received t)
  | _ => true
  end.

Definition exec_action (config : ConsumerConfig) (s : system) (a : action) : option system :=
  let c := sy_consumer s in
  let t := sy_traffic s in
  let p := sy_run s in
  match a, p with
  | ATop, RunTop d =>
    match dispatch_top config c t d with
    | Some (c, t, r) => Some (mkSystem c t (after_top r))
    | None => None
    end
  | ASelect case, RunSelect d deliveries resume =>
    return_if negb (fresh_delivery_b t (dp_generation d) case), None ;;
    match dispatch_select config c t d deliveries resume case with
    | Some (c, t, r) => Some (mkSystem c t (after_select (dp_generation d) r))
    | None => None
    end
  | ABeginRecovery, RunEnded g => Some (mkSystem (beginRecovery c) t (RunClosing g))
  | AClose event, RunClosing g => Some (mkSystem (run_close c g event).1 t (run_close c g event).2)
  | AInstall, RunReconnecting =>
    match install_generation c with Some c => Some (mkSystem c t RunInstalled) | None => None end
  | ARecoveryFailed, RunReconnecting => Some (mkSystem (recovery_failed c) t (RunFinishing false))
  | ARecovered, RunInstalled =>
    Some (mkSystem (Consumer_finishRecovery c) t (RunTop (newDispatcher config (currentGeneration c))))
  | AFinishBegin event, RunFinishing drained =>
    Some (mkSystem (finishRun_begin c t event).1 (finishRun_begin c t event).2 (RunWaiting drained))
  | AFinishEnd event, RunWaiting drained =>
    match tf_jobs t, tf_workers t, finishRun_end c event with
    | [], [], Some c => Some (mkSystem c t (RunDone drained))
    | _, _, _ => None
    end
  | ATake, _ =>
    match tf_jobs t with
    | envelope :: jobs =>
      return_if negb (llen (tf_workers t) <? Concurrency config), None ;;
      Some (mkSystem c (set_workers (set_jobs t jobs (tf_jobsClosed t)) (Handling envelope :: tf_workers t)) p)
    | [] => None
    end
  | ADecide n requested handlerErr contextErr, _ =>
    match tf_workers t !! n with
    | Some (Handling envelope) =>
      let before := take n (tf_workers t) in
      let after := drop (S n) (tf_workers t) in
      match handle_decide config c t envelope requested handlerErr contextErr with
      | (None, c, t) => Some (mkSystem (signalAdmissionChanged c) (set_workers t (before ++ after)) p)
      | (Some settlement, c, t) =>
        Some (mkSystem c (set_workers t (before ++ Settling envelope settlement :: after)) p)
      end
    | _ => None
    end
  | ASettle n event, _ =>
    match tf_workers t !! n with
    | Some (Settling envelope settlement) =>
      let before := take n (tf_workers t) in
      let after := drop (S n) (tf_workers t) in
      let '(err, c, t) := settle c t (env_generation envelope) (env_tag envelope) settlement event in
      Some (mkSystem c (set_workers t (before ++ Completing envelope err :: after)) p)
    | _ => None
    end
  | AComplete n, _ =>
    match tf_workers t !! n with
    | Some (Completing envelope err) =>
      Some (mkSystem (signalAdmissionChanged (handle_complete c t envelope err).1)
              (set_workers (handle_complete c t envelope err).2
                 (take n (tf_workers t) ++ drop (S n) (tf_workers t))) p)
    | _ => None
    end
  | APause, _ => Some (mkSystem (Pause c).2 t p)
  | AResume, _ => Some (mkSystem (Resume c).2 t p)
  | ADrainBegin, _ => Some (mkSystem (Drain_begin c) t p)
  | ADrainCancel event, _ =>
    return_if negb (isStopping c), None ;;
    Some (mkSystem (cancelGeneration c (currentGeneration c) None event).2 t p)
  | ADrainAbort event, _ =>
    return_if negb (isStopping c), None ;;
    Some (mkSystem (Drain_abort c (currentGeneration c) event) t p)
  | AShutdownClose, _ => Some (mkSystem (Shutdown_close c) t p)
  | AShutdownStop, _ => Some (mkSystem (Shutdown_stop c) t p)
  | _, _ => None
  end.

Lemma worker_split (l : list worker) n w : l !! n = Some w → l = take n l ++ w :: drop (S n) l.
Proof. intros H. symmetry. by apply take_drop_middle. Qed.

Lemma exec_action_step config s a s' : exec_action config s a = Some s' → consumer_step config s s'.
Proof.
  destruct s as [c t p]. destruct a; simpl; intros H.
  - destruct p; try done. destruct (dispatch_top _ _ _ _) as [[[c1 t1] r]|] eqn:E; simplify_eq. by constructor.
  - destruct p as [|d deliveries resume| | | | | | |]; try done. destruct (fresh_delivery_b _ _ _) eqn:Hf; [|done].
    simpl in H. destruct (dispatch_select _ _ _ _ _ _ _) as [[[c1 t1] r]|] eqn:E; simplify_eq.
    eapply cs_select; [|done]. destruct case; try done. simpl in *. rewrite forallb_true in Hf.
    intros source' Hin Heq. specialize (Hf _ Hin). simpl in Hf. rewrite Heq, Nat.eqb_refl, Z.eqb_refl in Hf. done.
  - destruct p; simplify_eq. constructor.
  - destruct p; simplify_eq. constructor.
  - destruct p; try done. destruct (install_generation c) eqn:E; simplify_eq. by constructor.
  - destruct p; simplify_eq. constructor.
  - destruct p; simplify_eq. constructor.
  - destruct p; simplify_eq. constructor.
  - destruct p; try done. destruct (tf_jobs t) eqn:?; [|done]. destruct (tf_workers t) eqn:?; [|done].
    destruct (finishRun_end c event) eqn:E; simplify_eq. by econstructor.
  - destruct (tf_jobs t) as [|e jobs] eqn:E; [done|]. destruct (Z.ltb_spec (llen (tf_workers t)) (Concurrency config));
      simplify_eq/=. by apply cs_take.
  - destruct (tf_workers t !! n) as [[e| |]|] eqn:E; try done. apply worker_split in E.
    destruct (handle_decide _ _ _ _ _ _ _) as [[[settlement|] c1] t1] eqn:Hd; simplify_eq; by econstructor.
  - destruct (tf_workers t !! n) as [[|e settlement|]|] eqn:E; try done. apply worker_split in E.
    destruct (settle _ _ _ _ _ _) as [[err c1] t1] eqn:Hd; simplify_eq. by econstructor.
  - destruct (tf_workers t !! n) as [[| |e err]|] eqn:E; try done. apply worker_split in E. simplify_eq. by constructor.
  - simplify_eq. constructor.
  - simplify_eq. constructor.
  - simplify_eq. constructor.
  - destruct (isStopping c) eqn:E; simplify_eq/=. by constructor.
  - destruct (isStopping c) eqn:E; simplify_eq/=. by constructor.
  - simplify_eq. constructor.
  - simplify_eq. constructor.
Qed.

Fixpoint exec (config : ConsumerConfig) (s : system) (actions : list action) : option system :=
  match actions with
  | [] => Some s
  | a :: actions =>
    match exec_action config s a with
    | Some s => exec config s actions
    | None => None
    end
  end.

Lemma exec_run config s actions s' : exec config s actions = Some s' → rtc (consumer_step config) s s'.
Proof.
  revert s. induction actions as [|a actions IH]; intros s; simpl; [intros [= <-]; reflexivity|].
  destruct (exec_action config s a) as [s1|] eqn:E; [|done]. intros H.
  eapply rtc_l; [by eapply exec_action_step|by apply IH].
Qed.

(** ** Example runs *)

(** A delivery of the example consumer under a tag, with a valid or an invalid
    exchange name. *)
Definition example_tagged (tag : Z) (exchange : string) : AmqpDelivery :=
  mkAmqpDelivery (<["tenant" := VString "acme"]> (<[acquiredCountHeader := VInt64 0]> ∅))
    "application/json" "" amqp_Persistent 0 "" "" "" "m-1" zero_time "" "" "" "worker-1" tag
    false exchange "created" (Some []).

(** "or<TAB>ders" *)
Definition tabbed_name : string := of_codes [111; 114; 9; 100; 101; 114; 115].

Definition example_arrival (tag : Z) (exchange : string) : action :=
  ASelect (CaseDelivery (example_tagged tag exchange) (SettleReturned None)).

(** Three deliveries, the second one invalid; the first is acknowledged, the third
    requeued while the consumer drains. *)
Definition example_actions : list action :=
  [ATop; example_arrival 1 "orders"; ATop; ATop; example_arrival 2 tabbed_name; ATop; ATake;
   ADecide 0 Acknowledge None None; ASettle 0 (SettleReturned None); AComplete 0;
   example_arrival 3 "orders"; ADrainBegin; ADrainCancel (CancelFinished None); ATop; ATop; ATake;
   ASelect (CaseDeliveriesClosed None); ATop; AFinishBegin CloseTimer;
   ADecide 0 (NegativeAcknowledge true) None None; ASettle 0 (SettleReturned None); AComplete 0;
   AFinishEnd CloseTimer].

Definition example_after (n : nat) : system :=
  default (newSystem example_consumer) (exec example_consumer (newSystem example_consumer) (take n example_actions)).

Definition example_done : system := example_after (length example_actions).

Lemma exec_default config s actions :
  exec config s actions ≠ None → rtc (consumer_step config) s (default s (exec config s actions)).
Proof. intros H. destruct (exec config s actions) as [s'|] eqn:E; [by eapply exec_run|done]. Qed.

Lemma example_after_reachable n :
  exec example_consumer (newSystem example_consumer) (take n example_actions) ≠ None →
  rtc (consumer_step example_consumer) (newSystem example_consumer) (example_after n).
Proof. apply exec_default. Qed.

Lemma example_done_reachable : rtc (consumer_step example_consumer) (newSystem example_consumer) example_done.
Proof. apply example_after_reachable. by vm_compute. Qed.

Lemma consumer_settles_once_witness :
  tf_calls (sy_traffic example_done) = [(0%nat, CallReject 2 false); (0%nat, CallAck 1 false); (0%nat, CallNack 3 false true)]
  ∧ NoDup (map call_key (tf_calls (sy_traffic example_done))).
Proof.
  split; [by vm_compute|].
  exact (proj1 (consumer_settles_once example_consumer eq_refl example_done example_done_reachable)).
Defined.

Lemma consumer_order_witness :
  map env_tag (of_generation 0 (tf_accepted (sy_traffic example_done))) = [1; 3]
  ∧ of_generation 0 (tf_admitted (sy_traffic example_done)) `prefix_of` of_generation 0 (tf_accepted (sy_traffic example_done)).
Proof.
  split; [by vm_compute|].
  exact (proj1 (consumer_order example_consumer eq_refl example_done 0 example_done_reachable)).
Defined.

(** While the third delivery is pending. *)
Lemma consumer_bounded_witness :
  llen (tf_jobs (sy_traffic (example_after 11))) <= 8 ∧ llen (tf_workers (sy_traffic (example_after 11))) <= 4.
Proof.
  destruct (example_after 11) as [c t p] eqn:E.
  destruct (consumer_bounded example_consumer eq_refl c t p) as (Hj & Hw & _); [|by split].
  rewrite <- E. apply example_after_reachable. by vm_compute.
Defined.

(** The admission of the first delivery. *)
Lemma consumer_admission_gate_witness :
  ∃ d e, sy_run (example_after 2) = RunTop d ∧ ring_front (dp_ring d) = Some e
  ∧ am_shutdownAdmissionClosed (cn_admission (sy_consumer (example_after 2))) = false.
Proof.
  destruct (consumer_admission_gate example_consumer (example_after 2) (example_after 3)) as (d & e & Hd & _ & Hf & Hc & _).
  - assert (exec_action example_consumer (example_after 2) ATop = Some (example_after 3)) as Hstep by by vm_compute.
    exact (exec_action_step _ _ _ _ Hstep).
  - by vm_compute.
  - exact (ex_intro _ d (ex_intro _ e (conj Hd (conj Hf Hc)))).
Defined.

Lemma consumer_stops_for_good_witness :
  (Pause (sy_consumer example_done)).1 = Some ErrConsumerClosed.
Proof.
  assert (exec example_consumer (example_after 12) (drop 12 example_actions) = Some example_done) as Hrun by by vm_compute.
  assert (isStopping (sy_consumer (example_after 12)) = true) as Hs by by vm_compute.
  destruct (consumer_stops_for_good example_consumer _ _ Hs (exec_run _ _ _ _ Hrun)) as (_ & _ & _ & _ & _ & Hp & _).
  exact Hp.
Defined.

Lemma consumer_health_coherent_witness :
  Consumer_Readiness (sy_consumer (example_after 7)) = ReadinessReady
  ∧ Consumer_Liveness (sy_consumer (example_after 7)) = LivenessLive.
Proof.
  destruct (example_after 7) as [c t p] eqn:E.
  assert (Consumer_Readiness c = ReadinessReady) as Hr.
  { change c with (sy_consumer (mkSystem c t p)). rewrite <- E. by vm_compute. }
  assert (rtc (consumer_step example_consumer) (newSystem example_consumer) (mkSystem c t p)) as Hreach.
  { rewrite <- E. apply example_after_reachable. by vm_compute. }
  destruct (consumer_health_coherent example_consumer eq_refl c t p Hreach) as (_ & Hlive & _).
  exact (conj Hr (proj1 (Hlive Hr))).
Defined.

Lemma consumer_drain_complete_witness :
  map env_tag (of_generation 0 (tf_admitted (sy_traffic example_done))) = [1; 3]
  ∧ of_generation (currentGeneration (sy_consumer example_done)) (tf_admitted (sy_traffic example_done))
    = of_generation (currentGeneration (sy_consumer example_done)) (tf_accepted (sy_traffic example_done)).
Proof.
  split; [by vm_compute|]. destruct example_done as [c t p] eqn:E.
  assert (p = RunDone true) as ->.
  { change p with (sy_run (mkSystem c t p)). rewrite <- E. by vm_compute. }
  refine (proj1 (consumer_drain_complete example_consumer eq_refl c t _ _)).
  - rewrite <- E. apply example_done_reachable.
  - change c with (sy_consumer (mkSystem c t (RunDone true))). rewrite <- E. by vm_compute.
Defined.

Lemma consumer_results_witness :
  map env_tag (tf_admitted (sy_traffic example_done)) = [1; 3]
  ∧ Forall (λ e, ∃ s, tf_settlements (sy_traffic example_done) !! env_settlement e = Some s ∧ ds_done s = true)
      (tf_admitted (sy_traffic example_done)).
Proof.
  split; [by vm_compute|]. apply Forall_forall. destruct example_done as [c t p] eqn:E. intros e He.
  refine (proj1 (consumer_results example_consumer eq_refl c t p e _ He) _).
  - rewrite <- E. apply example_done_reachable.
  - change p with (sy_run (mkSystem c t p)). rewrite <- E. by vm_compute.
Defined.

Lemma consumer_finish_completes_witness :
  ∃ c', finishRun_end (sy_consumer (example_after 22)) CloseTimer = Some c'
  ∧ Consumer_Readiness c' = ReadinessNotReady.
Proof.
  destruct (example_after 22) as [c t p] eqn:E.
  assert (p = RunWaiting true) as ->.
  { change p with (sy_run (mkSystem c t p)). rewrite <- E. by vm_compute. }
  assert (tf_jobs t = []) as Hj.
  { change t with (sy_traffic (mkSystem c t (RunWaiting true))). rewrite <- E. by vm_compute. }
  assert (tf_workers t = []) as Hw.
  { change t with (sy_traffic (mkSystem c t (RunWaiting true))). rewrite <- E. by vm_compute. }
  destruct (consumer_finish_completes example_consumer eq_refl c t true CloseTimer) as (c' & Hf & Hr & _);
    [|exact Hj|exact Hw|].
  - rewrite <- E. apply example_after_reachable. by vm_compute.
  - exists c'. exact (conj Hf Hr).
Defined.

(** ** A drain that is forgotten *)

(** A paused consumer holds a delivery; a first [Drain] gives up at its deadline. *)
Definition abandoned_actions : list action :=
  [APause; ATop; example_arrival 1 "orders"; ADrainBegin; ADrainCancel (CancelFinished None); ADrainAbort CloseTimer;
   ATop; ASelect CaseLifetimeDone; AFinishBegin CloseTimer; AFinishEnd CloseTimer].

Definition abandoned : system :=
  default (newSystem example_consumer) (exec example_consumer (newSystem example_consumer) abandoned_actions).

(** C38: a later [Drain] can report success for a drain that was abandoned: after
    a first [Drain] gave up at its deadline, the consumer ends with a delivery
    that no handler ever saw, and every further [Drain] returns nil. *)
Theorem abandoned_drain_succeeds :
  rtc (consumer_step example_consumer) (newSystem example_consumer) abandoned
  ∧ sy_run abandoned = RunDone false
  ∧ map env_tag (tf_accepted (sy_traffic abandoned)) = [1] ∧ tf_admitted (sy_traffic abandoned) = []
  ∧ tf_calls (sy_traffic abandoned) = []
  ∧ ∀ cancel close,
      (Drain (sy_consumer abandoned) true None cancel (sy_consumer abandoned) (DrainDone None) close).1 = None.
Proof.
  split_and!; [apply exec_default; by vm_compute|by vm_compute..|].
  intros cancel close. by vm_compute.
Qed.
