(* ===== verification/ConsumerQueue.v ===== *)
(** * ConsumerQueue: the dispatcher's ring is a queue

    [consumeGeneration] of consumer.go keeps the deliveries it has accepted and not
    yet admitted in a fixed slice with a head and a count.  The reference here keeps
    them in a list: it takes from the front, appends at the back and discards by
    emptying it.  The two dispatchers do the same to the consumer and to the
    traffic, in every reachable state and for every case of the [select]. *)

From S2P Require Import Prelude GoText Errors Config Amqp Message Topology Settlement Delivery Observation.
From S2P Require Import Producer Consumer ConsumerFlow ConsumerRun ConsumerSafety.

(** ** The reference dispatcher *)

Record queue_dispatcher := mkQueueDispatcher {
  qd_generation : nat;
  qd_pending : list consumerEnvelope;
  qd_cancellations : bool;
  qd_recoveryDone : bool;
  qd_draining : bool;
  qd_deliveriesClosed : bool }.

Definition qd_set_pending (q : queue_dispatcher) (pending : list consumerEnvelope) : queue_dispatcher :=
  mkQueueDispatcher (qd_generation q) pending (qd_cancellations q) (qd_recoveryDone q) (qd_draining q)
    (qd_deliveriesClosed q).

Definition qd_drain (q : queue_dispatcher) : queue_dispatcher :=
  mkQueueDispatcher (qd_generation q) (qd_pending q) (qd_cancellations q) false true (qd_deliveriesClosed q).

Definition qd_forget_cancellations (q : queue_dispatcher) : queue_dispatcher :=
  mkQueueDispatcher (qd_generation q) (qd_pending q) false (qd_recoveryDone q) (qd_draining q) (qd_deliveriesClosed q).

Definition qd_end_deliveries (q : queue_dispatcher) : queue_dispatcher :=
  mkQueueDispatcher (qd_generation q) (qd_pending q) (qd_cancellations q) false true true.

Inductive queue_top_result :=
| QueueContinue (q : queue_dispatcher)
| QueueSelect (q : queue_dispatcher) (deliveries : bool) (resume : option nat)
| QueueDrained.

Inductive queue_select_result :=
| QueueGoesOn (q : queue_dispatcher)
| QueueReturns (recover : bool).

Section Reference.
Context (config : ConsumerConfig).

(** Before the [select]: a closed admission drops what is pending; an admitted
    delivery leaves the front of the queue; a drain is complete when the deliveries
    have ended and nothing is pending; deliveries are received unless something is
    pending that could be admitted, or the queue is full. *)
Definition queue_top (c : Consumer) (t : traffic) (q : queue_dispatcher) : Consumer * traffic * queue_top_result :=
  let '(c, q) :=
    if am_shutdownAdmissionClosed (cn_admission c)
    then (match qd_pending q with [] => c | _ => setDrainError c end, qd_drain (qd_set_pending q []))
    else (c, q) in
  let paused := am_paused (cn_admission c) && negb (qd_draining q) in
  let full := llen (qd_pending q) =? Prefetch config + 1 in
  match qd_pending q with
  | [] =>
    if qd_draining q && qd_deliveriesClosed q then (c, t, QueueDrained)
    else (c, t, QueueSelect q (negb (qd_deliveriesClosed q) && negb full)
                  (if paused then am_resume (cn_admission c) else None))
  | envelope :: pending =>
    if paused then (c, t, QueueSelect q (negb (qd_deliveriesClosed q) && negb full) (am_resume (cn_admission c)))
    else if llen (tf_jobs t) <? Prefetch config
    then (c, log_admitted t envelope, QueueContinue (qd_set_pending q pending))
    else (c, t, QueueSelect q false None)
  end.

(** A delivery received while admission is open goes to the back of the queue, or
    is rejected if it is invalid. *)
Definition queue_delivery (c : Consumer) (t : traffic) (q : queue_dispatcher) (source : AmqpDelivery)
    (event : settle_event) : Consumer * traffic * queue_select_result :=
  let c := Consumer_observe c (observation ObservationDelivery ObservationDelivered) in
  let c := observe_if (ad_Redelivered source) c (observation ObservationRedelivery ObservationRedelivered) in
  match deliveryFromAMQP source config with
  | inl _ =>
    let '(err, c, t) := settle c t (qd_generation q) (ad_DeliveryTag source) (Reject false) event in
    (c, t, match err with None => QueueGoesOn q | Some _ => QueueReturns true end)
  | inr delivery =>
    let c := observe_if (hasDeadLetterHistory (Deaths delivery)) c
               (observation ObservationDeadLetter ObservationDeadLettered) in
    let c := observe_if (llen (qd_pending q) + llen (tf_jobs t) >=? Prefetch config) c
               (observation ObservationBacklogPressure ObservationBacklogFull) in
    let envelope := mkEnvelope delivery (ad_DeliveryTag source) (qd_generation q) (length (tf_settlements t)) in
    (c, log_accepted t envelope, QueueGoesOn (qd_set_pending q (qd_pending q ++ [envelope])))
  end.

Definition queue_select (c : Consumer) (t : traffic) (q : queue_dispatcher) (deliveries : bool)
    (resume : option nat) (case : select_case) : option (Consumer * traffic * queue_select_result) :=
  match case with
  | CaseDelivery source event =>
    if deliveries then
      let t := log_received t (qd_generation q) source in
      if am_shutdownAdmissionClosed (cn_admission c) then Some (setDrainError c, t, QueueGoesOn (qd_drain q))
      else Some (queue_delivery c t q source event)
    else None
  | CaseDeliveriesClosed pending =>
    if deliveries then
      let c := observePendingCancellation config c (qd_cancellations q) pending in
      if isStopping c then Some (c, t, QueueGoesOn (qd_end_deliveries q)) else Some (c, t, QueueReturns true)
    else None
  | CaseResume =>
    match resume with
    | Some r => if resume_closed c r then Some (c, t, QueueGoesOn q) else None
    | None => None
    end
  | CaseAdmissionChanged =>
    let a := cn_admission c in
    if am_changed a
    then Some (set_admission c (mkAdmission (am_paused a) (am_resume a) (am_resumes a)
                                  (am_shutdownAdmissionClosed a) false), t, QueueGoesOn q)
    else None
  | CaseCancellation tag =>
    if qd_cancellations q then
      if tag =s Consumer_Name config then
        let c := Consumer_observe c cancelled_observation in
        Some (c, t, if isStopping c then QueueGoesOn (qd_forget_cancellations (qd_drain q)) else QueueReturns true)
      else Some (c, t, QueueGoesOn q)
    else None
  | CaseCancellationsClosed => if qd_cancellations q then Some (c, t, QueueGoesOn (qd_forget_cancellations q)) else None
  | CaseFailure =>
    match cn_generations c !! qd_generation q with
    | Some g => if cg_failure g then Some (set_generation c (qd_generation q) clear_failure, t, QueueReturns true)
                else None
    | None => None
    end
  | CaseRecoveryDone =>
    if qd_recoveryDone q && cn_recoveryStopped c
    then Some (c, t, if isStopping c then QueueGoesOn (qd_drain q) else QueueReturns false)
    else None
  | CaseLifetimeDone => if cn_lifetimeStopped c then Some (c, t, QueueReturns false) else None
  end.
End Reference.

(** ** From the ring to the queue *)

(** The occupied slots of the ring, from the head. *)
Definition ring_contents (r : ring) : list consumerEnvelope :=
  omap (λ i, mjoin (rg_pending r !! Z.to_nat (Z.rem (rg_head r + Z.of_nat i) (llen (rg_pending r)))))
    (seq 0 (Z.to_nat (rg_count r))).

Definition queue_of (d : dispatcher) : queue_dispatcher :=
  mkQueueDispatcher (dp_generation d) (ring_contents (dp_ring d)) (dp_cancellations d) (dp_recoveryDone d)
    (dp_draining d) (dp_deliveriesClosed d).

Definition queue_of_top (x : Consumer * traffic * top_result) : Consumer * traffic * queue_top_result :=
  let '(c, t, r) := x in
  (c, t, match r with
         | TopContinue d => QueueContinue (queue_of d)
         | TopSelect d deliveries resume => QueueSelect (queue_of d) deliveries resume
         | TopDrained => QueueDrained
         end).

Definition queue_of_select (x : Consumer * traffic * select_result) : Consumer * traffic * queue_select_result :=
  let '(c, t, r) := x in
  (c, t, match r with
         | SelectContinue d => QueueGoesOn (queue_of d)
         | SelectReturn recover => QueueReturns recover
         end).

Lemma omap_seq {A B} (f : A → option B) (g : nat → option B) (l : list A) n :
  (∀ i, (i < length l)%nat → g (n + i)%nat = l !! i ≫= f) → omap g (seq n (length l)) = omap f l.
Proof.
  revert n. induction l as [|x l IH]; intros n H; [done|]. pose proof (H 0%nat ltac:(simpl; lia)) as H0.
  rewrite Nat.add_0_r in H0. csimpl. rewrite H0, (IH (S n)); [done|].
  intros i Hi. specialize (H (S i) ltac:(simpl; lia)). simpl in H. by rewrite <- H, Nat.add_succ_r.
Qed.

Lemma ring_contents_rep r q : ring_rep r q → ring_contents r = q.
Proof.
  intros (h & Hh & Hlt & Hc & Hle & Hs). unfold ring_contents. rewrite Hc. unfold llen at 2. rewrite Nat2Z.id.
  rewrite (omap_seq Some _ q 0).
  - clear. induction q as [|e q IH]; [done|]. csimpl. by rewrite IH.
  - intros i Hi. simpl. rewrite Hh. unfold llen. rewrite Z.rem_mod_nonneg by lia.
    rewrite <- Nat2Z.inj_add, <- Nat2Z.inj_mod, Nat2Z.id, Hs by lia. simpl. by destruct (q !! i).
Qed.

(** ** The dispatchers agree *)

Lemma queue_of_set d r : queue_of (set_ring d r) = qd_set_pending (queue_of d) (ring_contents r).
Proof. done. Qed.

Section Agree.
Context (config : ConsumerConfig).


Lemma discard_agrees c d q :
  ring_rep (dp_ring d) q →
  let '(c', d') := dispatch_discard c d in
  ring_rep (dp_ring d') (if am_shutdownAdmissionClosed (cn_admission c) then [] else q)
  ∧ llen (rg_pending (dp_ring d')) = llen (rg_pending (dp_ring d))
  ∧ (c', queue_of d') = (if am_shutdownAdmissionClosed (cn_admission c)
     then (match q with [] => c | _ => setDrainError c end, qd_drain (qd_set_pending (queue_of d) []))
     else (c, queue_of d)).
Proof.
  intros Hrep. unfold dispatch_discard. destruct (am_shutdownAdmissionClosed _); [|done].
  assert (ring_rep (discardConsumerPending (dp_ring d)) []) as Hempty.
  { apply ring_rep_empty. destruct Hrep as (h & _ & Hlt & _). intros Hn. rewrite Hn in Hlt. simpl in Hlt. lia. }
  split_and!; [done|simpl; unfold llen; by rewrite length_map|].
  pose proof (ring_rep_bound _ _ Hrep) as [-> _]. f_equal.
  destruct q; [done|]. rewrite llen_cons. by rewrite (proj2 (Z.gtb_lt _ _)) by (unfold llen; lia).
Qed.

Lemma top_agrees c t d q :
  ring_rep (dp_ring d) q → llen (rg_pending (dp_ring d)) = Prefetch config + 1 →
  Some (queue_top config c t (queue_of d)) = option_map queue_of_top (dispatch_top config c t d).
Proof.
  intros Hrep Hcap. unfold dispatch_top, queue_top. pose proof (discard_agrees c d q Hrep) as Hd.
  destruct (dispatch_discard c d) as [c1 d1]. destruct Hd as (Hrep1 & Hcap1 & Heq). rewrite Hcap in Hcap1.
  cbn [queue_of qd_pending]. rewrite (ring_contents_rep _ _ Hrep). fold (queue_of d).
  rewrite <- Heq. clear Heq. set (q1 := if am_shutdownAdmissionClosed _ then [] else q) in *.
  cbn [queue_of qd_pending qd_draining qd_deliveriesClosed]. rewrite (ring_contents_rep _ _ Hrep1).
  pose proof (ring_rep_bound _ _ Hrep1) as [Hc1 _]. rewrite Hc1, Hcap1. fold (queue_of d1).
  unfold consumerAdmissionPaused, consumerDrainComplete, suspendConsumerDeliveries.
  set (paused := am_paused _ && _). clearbody q1 paused. destruct q1 as [|e q1].
  - change (llen []) with 0. cbn [Z.gtb Z.compare andb]. rewrite Z.eqb_refl, andb_true_r.
    destruct (_ && _); [done|]. simpl. rewrite andb_false_r, orb_false_r. by rewrite negb_orb.
  - rewrite (ring_front_rep _ _ _ Hrep1), (proj2 (Z.gtb_lt _ _)) by (rewrite llen_cons; unfold llen; lia).
    assert ((llen (e :: q1) =? 0) = false) as -> by (apply Z.eqb_neq; rewrite llen_cons; unfold llen; lia).
    rewrite andb_false_r. destruct paused; cbn [negb andb].
    + simpl. by rewrite orb_false_r, negb_orb.
    + destruct (llen (tf_jobs t) <? Prefetch config); cbn [option_map queue_of_top].
      * rewrite queue_of_set. by rewrite (ring_contents_rep _ _ (ring_pop_rep _ _ _ Hrep1)).
      * by rewrite orb_true_r.
Qed.

Lemma delivery_agrees c t d q source event :
  ring_rep (dp_ring d) q → rg_count (dp_ring d) < llen (rg_pending (dp_ring d)) →
  queue_delivery config c t (queue_of d) source event
  = queue_of_select (dispatch_delivery config c t d source event).
Proof.
  intros Hrep Hroom. pose proof (ring_rep_bound _ _ Hrep) as [Hcount _]. unfold queue_delivery, dispatch_delivery.
  cbn [qd_pending qd_generation queue_of]. rewrite (ring_contents_rep _ _ Hrep), Hcount. fold (queue_of d).
  destruct (deliveryFromAMQP source config) as [err|delivery].
  - destruct (settle _ _ _ _ _ _) as [[err' c'] t']. by destruct err'.
  - cbn [queue_of_select]. rewrite queue_of_set. rewrite Hcount in Hroom.
    by rewrite (ring_contents_rep _ _ (ring_push_rep _ _ _ Hrep ltac:(unfold llen in Hroom; lia))).
Qed.

Lemma select_agrees c t d q deliveries resume case :
  ring_rep (dp_ring d) q →
  (deliveries = true → rg_count (dp_ring d) < llen (rg_pending (dp_ring d))) →
  queue_select config c t (queue_of d) deliveries resume case
  = option_map queue_of_select (dispatch_select config c t d deliveries resume case).
Proof.
  intros Hrep Hroom. destruct case as [source event|pending| | |tag| | | |]; simpl.
  - destruct deliveries; [|done]. cbn [negb]. destruct (am_shutdownAdmissionClosed _); [done|].
    cbn [option_map]. f_equal. apply delivery_agrees with q; auto.
  - destruct deliveries; [|done]. simpl. by destruct (isStopping _).
  - destruct resume as [r|]; [|done]. by destruct (resume_closed c r).
  - by destruct (am_changed _).
  - destruct (dp_cancellations d); [|done]. simpl. unfold matchingConsumerCancellation.
    destruct (tag =s _); [|done]. by destruct (isStopping _).
  - by destruct (dp_cancellations d).
  - destruct (cn_generations c !! dp_generation d) as [g|]; [|done]. by destruct (cg_failure g).
  - destruct (dp_recoveryDone d && cn_recoveryStopped c); [|done]. simpl. by destruct (isStopping c).
  - by destruct (cn_lifetimeStopped c).
Qed.

Hypothesis Hconfig : ConsumerConfig_Validate config = None.

(** C14: the ring buffer is a queue: in every reachable state the dispatcher of the
    code and the reference that keeps its pending deliveries in a list do exactly
    the same, before the [select] and in each of its cases: the same change of the
    consumer, the same deliveries admitted, accepted and rejected, the same next
    step, with the same deliveries pending in the same order. *)
Theorem dispatcher_refines_queue c t :
  (∀ d, rtc (consumer_step config) (newSystem config) (mkSystem c t (RunTop d)) →
    option_map queue_of_top (dispatch_top config c t d) = Some (queue_top config c t (queue_of d)))
  ∧ ∀ d deliveries resume case,
    rtc (consumer_step config) (newSystem config) (mkSystem c t (RunSelect d deliveries resume)) →
    option_map queue_of_select (dispatch_select config c t d deliveries resume case)
    = queue_select config c t (queue_of d) deliveries resume case.
Proof using Hconfig.
  split.
  - intros d Hr. destruct (consumer_reachable config Hconfig _ Hr) as [q [(Hrep & Hcap & _) _ _ _]].
    symmetry. by eapply top_agrees.
  - intros d deliveries resume case Hr.
    destruct (consumer_reachable config Hconfig _ Hr) as [q [(Hrep & _ & Hroom) _ _ _]].
    symmetry. by eapply select_agrees.
Qed.
End Agree.

(** ** Example run *)

(** The dispatcher of the example run about to admit its first delivery. *)
Lemma dispatcher_refines_queue_witness :
  ∃ d e, sy_run (example_after 2) = RunTop d ∧ qd_pending (queue_of d) = [e]
  ∧ option_map queue_of_top (dispatch_top example_consumer (sy_consumer (example_after 2)) (sy_traffic (example_after 2)) d)
    = Some (queue_top example_consumer (sy_consumer (example_after 2)) (sy_traffic (example_after 2)) (queue_of d)).
Proof.
  assert (match sy_run (example_after 2) with RunTop d => length (qd_pending (queue_of d)) = 1%nat | _ => False end) as Hone
    by by vm_compute.
  assert (rtc (consumer_step example_consumer) (newSystem example_consumer) (example_after 2)) as Hr
    by (apply example_after_reachable; by vm_compute).
  destruct (example_after 2) as [c t p]. cbn [sy_run sy_consumer sy_traffic] in *.
  destruct p as [d| | | | | | | |]; try done. destruct (qd_pending (queue_of d)) as [|e [|]] eqn:He; try done.
  exists d, e. split_and!; [done|done|]. exact (proj1 (dispatcher_refines_queue example_consumer eq_refl c t) d Hr).
Defined.
