(* ===== verification/ConsumerWake.v ===== *)
(** * ConsumerWake: the dispatcher of a consumer is always woken, and a stopping consumer can always drain

    The dispatcher of consumer.go waits in a [select] while the jobs channel is full
    or the consumer is paused.  This file shows that no wake-up is lost
    ([wake_inv]): whatever it waits for, the goroutine that will signal it is still
    at work, or the signal is already there.  From this follows that nothing in the
    package blocks a consumer that was asked to stop: from every reachable state
    there is a continuation in which handlers and broker cooperate and the consumer
    ends, having handed over everything it had accepted. *)

From S2P Require Import Prelude GoText Errors Config Amqp Message Topology Settlement Delivery Observation.
From S2P Require Import Producer Consumer ConsumerFlow ConsumerRun ConsumerSafety.

(** ** Admission *)

(** A paused consumer has a current resume channel, which was made. *)
Record gate_ok (a : admission) : Prop := {
  go_paused : am_paused a = present (am_resume a);
  go_made : ∀ r, am_resume a = Some r → (r < am_resumes a)%nat }.

(** What the goroutines other than the dispatcher do to the admission state: the
    wake-up slot stays full, admission is closed only with a wake-up, and a closed
    resume channel stays closed. *)
Record gate_step (a a' : admission) : Prop := {
  gs_ok : gate_ok a → gate_ok a';
  gs_changed : am_changed a = true → am_changed a' = true;
  gs_closed : am_shutdownAdmissionClosed a' = true → am_shutdownAdmissionClosed a = true ∨ am_changed a' = true;
  gs_made : (am_resumes a <= am_resumes a')%nat }.

#[global] Instance gate_step_refl : Reflexive gate_step.
Proof. intros a. split; auto. Qed.

#[global] Instance gate_step_trans : Transitive gate_step.
Proof.
  intros a1 a2 a3 [] []. split; auto; [|lia]. intros H. destruct (gs_closed1 H) as [H'|]; [|by right].
  destruct (gs_closed0 H') as [|]; auto.
Qed.

(** An operation that leaves the admission state alone and does not restart the
    recovery context. *)
Definition keeps (c c' : Consumer) : Prop :=
  cn_admission c' = cn_admission c ∧ (cn_recoveryStopped c = true → cn_recoveryStopped c' = true).

#[global] Instance keeps_refl : Reflexive keeps.
Proof. by split. Qed.
#[global] Instance keeps_trans : Transitive keeps.
Proof. intros c1 c2 c3 [E1 ?] [E2 ?]. split; [congruence|auto]. Qed.

Create HintDb keeps discriminated.

Ltac keep_cases := intros; cbv beta delta [keeps]; repeat case_match; simplify_eq/=; by auto.

Lemma keeps_observe c o : keeps c (Consumer_observe c o).
Proof. by split. Qed.
Lemma keeps_observe_if b c o : keeps c (observe_if b c o).
Proof. by destruct b. Qed.
Lemma keeps_set_generation c g f : keeps c (set_generation c g f).
Proof. by split. Qed.
Lemma keeps_lifecycle c l : keeps c (set_lifecycle c l).
Proof. by split. Qed.
#[export] Hint Resolve keeps_observe keeps_observe_if keeps_set_generation keeps_lifecycle : keeps.

Lemma keeps_setResourceError c err : keeps c (setResourceError c err).
Proof. destruct err; [apply keeps_lifecycle|reflexivity]. Qed.
Lemma keeps_setTerminalError c err : keeps c (setTerminalError c err).
Proof. unfold setTerminalError. keep_cases. Qed.
Lemma keeps_beginRecovery c : keeps c (beginRecovery c).
Proof. unfold beginRecovery. keep_cases. Qed.
Lemma keeps_failGeneration c g : keeps c (Consumer_failGeneration c g).
Proof. unfold Consumer_failGeneration, observe_if. keep_cases. Qed.
Lemma keeps_begin_stopping c : keeps c (begin_stopping c).
Proof. unfold begin_stopping, observe_if. keep_cases. Qed.
Lemma keeps_closeGeneration c g event : keeps c (closeGeneration c g event).2.
Proof. unfold closeGeneration. keep_cases. Qed.
Lemma keeps_cancelGeneration c g ctxErr event : keeps c (cancelGeneration c g ctxErr event).2.
Proof. unfold cancelGeneration. keep_cases. Qed.
#[export] Hint Resolve keeps_setResourceError keeps_setTerminalError keeps_beginRecovery keeps_failGeneration
  keeps_begin_stopping keeps_closeGeneration keeps_cancelGeneration : keeps.

Lemma keeps_Drain_begin c : keeps c (Drain_begin c).
Proof. etrans; [apply keeps_begin_stopping|]. by split. Qed.
Lemma keeps_stopLifetime c : keeps c (stopLifetime c).
Proof. by split. Qed.
Lemma keeps_Drain_abort c g event : keeps c (Drain_abort c g event).
Proof. etrans; [apply keeps_stopLifetime|]. apply keeps_closeGeneration. Qed.
Lemma keeps_Shutdown_stop c : keeps c (Shutdown_stop c).
Proof. unfold Shutdown_stop. destruct (cn_shutdown c); try reflexivity. etrans; [apply keeps_begin_stopping|]. by split. Qed.

Lemma keeps_finishShutdown c drainErr event : keeps c (Consumer_finishShutdown c drainErr event).
Proof.
  unfold Consumer_finishShutdown. pose proof (keeps_closeGeneration c (currentGeneration c) event) as H.
  destruct (closeGeneration _ _ _) as [err c1]. simpl in H. etrans; [exact H|].
  etrans; [apply (keeps_setResourceError c1 err)|]. by destruct drainErr.
Qed.

Lemma keeps_settle c t g tag settlement event err c' t' :
  settle c t g tag settlement event = (err, c', t') → keeps c c'.
Proof.
  unfold settle. destruct event as [e|close].
  - unfold observe_if. repeat case_match; intros; simplify_eq; by split.
  - intros [= _ <- _]. apply keeps_closeGeneration.
Qed.

Lemma keeps_decide config c t envelope requested he ce settlement c' t' :
  handle_decide config c t envelope requested he ce = (settlement, c', t') → keeps c c'.
Proof. unfold handle_decide, observe_if. repeat case_match; intros; simplify_eq; by split. Qed.

Lemma keeps_complete c t envelope err : keeps c (handle_complete c t envelope err).1.
Proof. unfold handle_complete. simpl. destruct (consumerOperationFailed err); [apply keeps_failGeneration|reflexivity]. Qed.

Lemma keeps_discard c d : keeps c (dispatch_discard c d).1.
Proof. unfold dispatch_discard. repeat case_match; simplify_eq/=; by split. Qed.

(** ** How operations change the admission state *)

Lemma gate_keeps c c' : keeps c c' → gate_step (cn_admission c) (cn_admission c').
Proof. intros [-> _]. reflexivity. Qed.

Lemma gate_signal c : gate_step (cn_admission c) (cn_admission (signalAdmissionChanged c)).
Proof. split; simpl; auto. intros []. by split. Qed.

Lemma gate_Pause c : gate_step (cn_admission c) (cn_admission (Pause c).2).
Proof.
  unfold Pause. destruct (Consumer_closed c); [reflexivity|]. destruct (am_paused _); [reflexivity|].
  split; simpl; auto. intros []. split; simpl; [done|]. intros r [= <-]. lia.
Qed.

Lemma gate_Resume c : gate_step (cn_admission c) (cn_admission (Resume c).2).
Proof.
  unfold Resume. destruct (Consumer_closed c); [reflexivity|]. destruct (am_paused _); [|reflexivity].
  split; simpl; auto. intros []. by split.
Qed.

Lemma gate_Shutdown_close c : gate_step (cn_admission c) (cn_admission (Shutdown_close c)).
Proof. unfold Shutdown_close. destruct (cn_shutdown c); try reflexivity. split; simpl; auto. intros []. by split. Qed.

(** ** The invariant *)

Section Wake.
Context (config : ConsumerConfig).
Hypothesis Hconfig : ConsumerConfig_Validate config = None.

(** Someone is at work for the dispatcher, or it was signalled. *)
Definition busy (c : Consumer) (t : traffic) : Prop :=
  tf_jobs t ≠ [] ∨ tf_workers t ≠ [] ∨ am_changed (cn_admission c) = true.

(** The dispatcher in its [select], with [resume] the channel it waits for when it
    saw the consumer paused. *)
Record select_ok (c : Consumer) (t : traffic) (d : dispatcher) (deliveries : bool) (resume : option nat) : Prop := {
  so_deliveries : deliveries = negb (suspendConsumerDeliveries (dp_deliveriesClosed d) (present resume)
                    (rg_count (dp_ring d)) (llen (rg_pending (dp_ring d))));
  so_undrained : consumerDrainComplete (dp_draining d) (dp_deliveriesClosed d) (rg_count (dp_ring d)) = false;
  so_draining : dp_draining d = true → resume = None;
  so_resume : ∀ r, resume = Some r → (r < am_resumes (cn_admission c))%nat;
  so_busy : 0 < rg_count (dp_ring d) → resume = None → busy c t;
  so_closed : 0 < rg_count (dp_ring d) → am_shutdownAdmissionClosed (cn_admission c) = true →
    am_changed (cn_admission c) = true }.

Record wake_inv (s : system) : Prop := {
  wk_gate : gate_ok (cn_admission (sy_consumer s));
  wk_flags : ∀ d, phase_dispatcher (sy_run s) = Some d → dp_recoveryDone d = negb (dp_draining d);
  wk_select : ∀ d deliveries resume, sy_run s = RunSelect d deliveries resume →
    select_ok (sy_consumer s) (sy_traffic s) d deliveries resume }.

(** A step of another goroutine keeps the dispatcher awake or someone at work. *)
Lemma wake_side c c' t t' p :
  wake_inv (mkSystem c t p) → gate_step (cn_admission c) (cn_admission c') → (busy c t → busy c' t') →
  wake_inv (mkSystem c' t' p).
Proof using.
  intros [] [] Hb. simpl in *. split; simpl; auto. intros d deliveries resume Hp.
  destruct (wk_select0 _ _ _ Hp). split; auto.
  - intros r Hr. apply so_resume0 in Hr. lia.
  - intros Hpos Hc. destruct (gs_closed0 Hc) as [H|]; auto.
Qed.

(** A step of the supervisor into a phase without a waiting dispatcher. *)
Lemma wake_phase c c' t t' p p' :
  wake_inv (mkSystem c t p) → gate_ok (cn_admission c') →
  (∀ d, phase_dispatcher p' = Some d → dp_recoveryDone d = negb (dp_draining d)) →
  (∀ d deliveries resume, p' ≠ RunSelect d deliveries resume) →
  wake_inv (mkSystem c' t' p').
Proof using. intros [] Hg Hf Hs. split; simpl; auto. intros d deliveries resume Hp. by destruct (Hs d deliveries resume). Qed.

Lemma busy_mono c c' t t' :
  keeps c c' → tf_jobs t' = tf_jobs t → tf_workers t ≠ [] ∧ tf_workers t' ≠ [] ∨ tf_workers t' = tf_workers t →
  busy c t → busy c' t'.
Proof using. unfold busy. intros [-> _] Hj Hw. rewrite Hj. destruct Hw as [[_ ?]| ->]; auto. Qed.

Lemma discard_flags c d : dp_recoveryDone d = negb (dp_draining d) →
  dp_recoveryDone (dispatch_discard c d).2 = negb (dp_draining (dispatch_discard c d).2).
Proof using. unfold dispatch_discard. by destruct (am_shutdownAdmissionClosed _). Qed.

Lemma wake_top c t d c' t' r :
  wake_inv (mkSystem c t (RunTop d)) → dispatch_top config c t d = Some (c', t', r) →
  wake_inv (mkSystem c' t' (after_top r)).
Proof using Hconfig.
  intros [Hg Hf _] Htop. simpl in *. specialize (Hf d eq_refl). pose proof (config_bounds config Hconfig) as [Hpre _].
  pose proof (keeps_discard c d) as [Hk _]. pose proof (discard_flags c d Hf) as Hf1.
  assert (am_shutdownAdmissionClosed (cn_admission c) = true → rg_count (dp_ring (dispatch_discard c d).2) = 0) as Hclosed
    by (unfold dispatch_discard; by intros ->).
  unfold dispatch_top in Htop. destruct (dispatch_discard c d) as [c1 d1]. simpl in *. rewrite Hk in Htop.
  set (paused := consumerAdmissionPaused (am_paused (cn_admission c)) (dp_draining d1)) in *.
  destruct ((rg_count (dp_ring d1) >? 0) && negb paused && (llen (tf_jobs t) <? Prefetch config)) eqn:Hsend.
  - destruct (ring_front _); [|done]. injection Htop as <- <- <-. split; simpl; [by rewrite Hk|by intros ? [= <-]|done].
  - destruct (consumerDrainComplete _ _ _) eqn:Hd; injection Htop as <- <- <-; [by split; simpl; [rewrite Hk| |]|].
    split; simpl; [by rewrite Hk|by intros ? [= <-]|]. intros ? ? ? [= <- <- <-].
    assert (present (if paused then am_resume (cn_admission c) else None) = paused) as Hpr.
    { unfold paused, consumerAdmissionPaused. rewrite (go_paused _ Hg). destruct (am_resume _), (dp_draining d1); done. }
    split; simpl; rewrite ?Hk; try done.
    + by rewrite Hpr.
    + unfold paused, consumerAdmissionPaused. intros ->. by rewrite andb_false_r.
    + destruct paused; [|done]. apply Hg.
    + intros Hpos Hr. left. assert (paused = false) as Hp by (rewrite <- Hpr, Hr; done).
      destruct (tf_jobs t) as [|e jobs]; [|done]. exfalso. rewrite Hp in Hsend.
      apply Z.gtb_lt in Hpos. rewrite Hpos in Hsend. cbn [negb andb] in Hsend.
      apply Z.ltb_ge in Hsend. unfold llen in Hsend. cbn in Hsend. lia.
    + intros Hpos Hc. apply Hclosed in Hc. lia.
Qed.

Lemma keeps_delivery c t d source event : keeps c (dispatch_delivery config c t d source event).1.1.
Proof using.
  unfold dispatch_delivery. set (c1 := observe_if (ad_Redelivered source) _ _).
  assert (keeps c c1) as H1 by (etrans; [apply keeps_observe|apply keeps_observe_if]).
  destruct (deliveryFromAMQP source config).
  - destruct (settle c1 _ _ _ _ _) as [[err c2] t2] eqn:Hs. apply keeps_settle in Hs. by etrans.
  - simpl. etrans; [exact H1|]. etrans; apply keeps_observe_if.
Qed.

Lemma delivery_flags c t d source event d' :
  (dispatch_delivery config c t d source event).2 = SelectContinue d' →
  dp_recoveryDone d' = dp_recoveryDone d ∧ dp_draining d' = dp_draining d.
Proof using.
  unfold dispatch_delivery. destruct (deliveryFromAMQP source config).
  - destruct (settle _ _ _ _ _ _) as [[err c2] t2]. simpl. destruct (consumerOperationFailed err); by intros [= <-].
  - by intros [= <-].
Qed.

(** What a case of the [select] leaves: the gate, the stopped recovery context, and
    the flags of a dispatcher that goes on. *)
Lemma select_flags c t d deliveries resume case c' t' r :
  dispatch_select config c t d deliveries resume case = Some (c', t', r) →
  (gate_ok (cn_admission c) → gate_ok (cn_admission c')) ∧ (cn_recoveryStopped c = true → cn_recoveryStopped c' = true)
  ∧ ∀ d', r = SelectContinue d' → dp_recoveryDone d = negb (dp_draining d) → dp_recoveryDone d' = negb (dp_draining d').
Proof using.
  assert (∀ c c', keeps c c' → (gate_ok (cn_admission c) → gate_ok (cn_admission c'))
    ∧ (cn_recoveryStopped c = true → cn_recoveryStopped c' = true)) as Hk by (by intros ? ? [-> ?]).
  intros Hsel. destruct case as [source event|pending| | |tag| | | |]; simpl in Hsel.
  - destruct (negb deliveries); [done|]. destruct (am_shutdownAdmissionClosed _).
    + injection Hsel as <- <- <-. split_and!; try done. by intros d' [= <-].
    + injection Hsel as Hsel. set (t1 := log_received t (dp_generation d) source) in *.
      pose proof (keeps_delivery c t1 d source event) as Hkeep. pose proof (delivery_flags c t1 d source event) as Hfl.
      rewrite Hsel in Hkeep, Hfl. destruct (Hk _ _ Hkeep). split_and!; try done.
      intros d' Hd. destruct (Hfl d' Hd). congruence.
  - destruct (negb deliveries); [done|].
    assert (keeps c (observePendingCancellation config c (dp_cancellations d) pending)) as Hkeep
      by (destruct pending; [apply keeps_observe_if|reflexivity]).
    destruct (Hk _ _ Hkeep). destruct (negb (isStopping _)); injection Hsel as <- <- <-; split_and!; try done.
    by intros d' [= <-].
  - destruct resume as [r0|]; [|done]. destruct (resume_closed c r0); [|done]. injection Hsel as <- <- <-.
    split_and!; try done. by intros d' [= <-].
  - destruct (negb _); [done|]. injection Hsel as <- <- <-. split_and!; try done; [intros []; by split|by intros d' [= <-]].
  - destruct (negb (dp_cancellations d)); [done|].
    destruct (negb (matchingConsumerCancellation _ _)); [injection Hsel as <- <- <-; split_and!; try done; by intros d' [= <-]|].
    destruct (isStopping _); injection Hsel as <- <- <-; split_and!; try done. by intros d' [= <-].
  - destruct (negb _); [done|]. injection Hsel as <- <- <-. split_and!; try done. by intros d' [= <-].
  - destruct (cn_generations c !! dp_generation d) as [g|]; [|done]. destruct (cg_failure g); [|done].
    by injection Hsel as <- <- <-.
  - destruct (negb (_ && _)); [done|]. destruct (negb (isStopping c)); injection Hsel as <- <- <-; split_and!; try done.
    by intros d' [= <-].
  - destruct (negb _); [done|]. by injection Hsel as <- <- <-.
Qed.

Lemma wake_select c t d deliveries resume case c' t' r :
  wake_inv (mkSystem c t (RunSelect d deliveries resume)) →
  dispatch_select config c t d deliveries resume case = Some (c', t', r) →
  wake_inv (mkSystem c' t' (after_select (dp_generation d) r)).
Proof using.
  intros Hw Hsel. pose proof Hw as [Hg Hf _]. simpl in *. specialize (Hf d eq_refl).
  apply select_flags in Hsel as (Hg' & _ & Hf'). eapply wake_phase; [exact Hw|by apply Hg'| |].
  - intros d1. destruct r as [d'|[|]]; simpl; [|done|done]. intros [= <-]. by apply Hf'.
  - intros ? ? ?. by destruct r as [d'|[|]].
Qed.

Lemma keeps_run_close c g event : keeps c (run_close c g event).1.
Proof using.
  unfold run_close. pose proof (keeps_closeGeneration c g event) as Hk.
  destruct (closeGeneration c g event) as [err c1]. simpl in Hk. destruct (consumerOperationFailed err); [|done].
  simpl. etrans; [exact Hk|]. etrans; [apply (keeps_setResourceError c1 err)|apply keeps_setTerminalError].
Qed.

Lemma keeps_finishRun_begin c t event : keeps c (finishRun_begin c t event).1.
Proof using.
  unfold finishRun_begin. simpl. destruct (present _); [|by split].
  etrans; [|apply keeps_closeGeneration]. by split.
Qed.

Lemma keeps_finishRun_end c event c' : finishRun_end c event = Some c' → keeps c c'.
Proof using.
  unfold finishRun_end. set (c1 := if _ || _ then _ else c).
  assert (keeps c c1) as Hk.
  { unfold c1. destruct (_ || _); [|reflexivity].
    pose proof (keeps_closeGeneration c (currentGeneration c) event) as Hk. destruct (closeGeneration _ _ _) as [err c2].
    etrans; [exact Hk|apply keeps_setResourceError]. }
  destruct (close _); [|done]. intros [= <-]. etrans; [exact Hk|]. by split.
Qed.

Lemma keeps_install c c' : install_generation c = Some c' → keeps c c'.
Proof using. unfold install_generation. destruct (isStopping c); [done|]. intros [= <-]. by split. Qed.

(** A step of the supervisor that keeps the admission state. *)
Lemma wake_supervise c c' t t' p p' :
  wake_inv (mkSystem c t p) → keeps c c' →
  (∀ d, phase_dispatcher p' = Some d → dp_recoveryDone d = negb (dp_draining d)) →
  (∀ d deliveries resume, p' ≠ RunSelect d deliveries resume) →
  wake_inv (mkSystem c' t' p').
Proof using. intros Hw [Ha _] Hf Hs. eapply wake_phase; try done. rewrite Ha. apply (wk_gate _ Hw). Qed.

(** A step of a goroutine that keeps the admission state and the work. *)
Lemma wake_keeps c c' t p : wake_inv (mkSystem c t p) → keeps c c' → wake_inv (mkSystem c' t p).
Proof using.
  intros Hw Hk. eapply wake_side; [exact Hw|by apply gate_keeps|]. unfold busy. destruct Hk as [-> _]. done.
Qed.

Lemma wake_gate c c' t p :
  wake_inv (mkSystem c t p) → gate_step (cn_admission c) (cn_admission c') → wake_inv (mkSystem c' t p).
Proof using.
  intros Hw Hg. eapply wake_side; [exact Hw|done|]. unfold busy. intros [?|[?|H]]; auto. right. right. by apply Hg.
Qed.

Lemma gate_signalled c c' : keeps c c' → gate_step (cn_admission c) (cn_admission (signalAdmissionChanged c')).
Proof using. intros Hk. etrans; [by apply gate_keeps|apply gate_signal]. Qed.

Lemma wake_step s s' : consumer_step config s s' → wake_inv s → wake_inv s'.
Proof using Hconfig.
  intros Hstep Hw.
  destruct Hstep as [c t d c' t' r Htop|c t d deliveries resume case c' t' r Hfresh Hsel|c t g|c t g event|c t
    |c t c' Hi|c t|c t|c t drained event|c t drained event c' Hj Hwk He|c t p envelope jobs Hj Hc
    |c t p before after envelope requested he ce c' t' Hwk Hd|c t p before after envelope requested he ce s c' t' Hwk Hd
    |c t p before after envelope s event err c' t' Hwk Hs|c t p before after envelope err Hwk
    |c t p|c t p|c t p|c t p g ctxErr event Hs|c t p g event Hs|c t p|c t p|c t p drainErr event Hs|c t p o observations Ho].
  - by eapply wake_top.
  - by eapply wake_select.
  - eapply wake_supervise; try done. auto with keeps.
  - eapply wake_supervise; [exact Hw|apply keeps_run_close| |]; unfold run_close;
      destruct (closeGeneration c g event) as [err c1], (consumerOperationFailed err); done.
  - eapply wake_keeps; [done|]. auto with keeps.
  - eapply wake_supervise; try done. by apply keeps_install.
  - eapply wake_supervise; try done. unfold recovery_failed. destruct (negb _); [auto with keeps|reflexivity].
  - eapply wake_supervise; try done. intros d [= <-]. done.
  - eapply wake_supervise; try done. apply keeps_finishRun_begin.
  - eapply wake_supervise; try done. by eapply keeps_finishRun_end.
  - eapply wake_side; [done|reflexivity|]. intros _. right. by left.
  - eapply wake_side; [done|apply gate_signalled; by eapply keeps_decide|]. intros _. right. by right.
  - eapply wake_side; [done|apply gate_keeps; by eapply keeps_decide|]. intros _. right. left. simpl. by destruct before.
  - eapply wake_side; [done|apply gate_keeps; by eapply keeps_settle|]. intros _. right. left. simpl. by destruct before.
  - eapply wake_side; [done|apply gate_signalled, (keeps_complete c t)|]. intros _. right. by right.
  - eapply wake_gate; [done|]. apply gate_Pause.
  - eapply wake_gate; [done|]. apply gate_Resume.
  - eapply wake_keeps; [done|]. apply keeps_Drain_begin.
  - eapply wake_keeps; [done|]. auto with keeps.
  - eapply wake_keeps; [done|]. apply keeps_Drain_abort.
  - eapply wake_gate; [done|]. apply gate_Shutdown_close.
  - eapply wake_keeps; [done|]. apply keeps_Shutdown_stop.
  - eapply wake_keeps; [done|]. apply keeps_finishShutdown.
  - eapply wake_keeps; [done|]. by split.
Qed.

Lemma wake_reachable s : rtc (consumer_step config) (newSystem config) s → wake_inv s.
Proof using Hconfig.
  intros Hr. eapply (rtc_invariant (consumer_step config) wake_inv); [apply wake_step|exact Hr|].
  split; simpl; [by split|by intros d [= <-]|done].
Qed.

(** ** Cooperating workers *)

(** What serving deliveries leaves alone. *)
Record serves (c c' : Consumer) (t t' : traffic) : Prop := {
  sv_accepted : tf_accepted t' = tf_accepted t;
  sv_closed : am_shutdownAdmissionClosed (cn_admission c') = am_shutdownAdmissionClosed (cn_admission c);
  sv_recovery : cn_recoveryStopped c = true → cn_recoveryStopped c' = true }.

Lemma serves_refl c t : serves c c t t.
Proof using. by split. Qed.

Lemma serves_trans c1 c2 c3 t1 t2 t3 : serves c1 c2 t1 t2 → serves c2 c3 t2 t3 → serves c1 c3 t1 t3.
Proof using. intros [] []. split; try congruence. auto. Qed.

Lemma serves_keeps c c' t t' :
  keeps c c' → tf_accepted t' = tf_accepted t → serves c c' t t'.
Proof using. intros [Ha ?] ?. split; auto. by rewrite Ha. Qed.

Abbreviation steps := (rtc (consumer_step config)).

(** A worker past its settlement completes and signals the dispatcher. *)
Lemma serve_completing c t p e err rest :
  tf_workers t = Completing e err :: rest →
  ∃ c' t', steps (mkSystem c t p) (mkSystem c' t' p) ∧ serves c c' t t' ∧ tf_jobs t' = tf_jobs t
  ∧ tf_workers t' = rest ∧ am_changed (cn_admission c') = true.
Proof using.
  intros Hw. eexists _, _. split; [apply rtc_once; by apply (cs_complete config c t p [] rest)|].
  split_and!; try done. pose proof (keeps_complete c t e err) as [Ha Hr]. split; [done| |exact Hr].
  cbn [cn_admission set_admission signalAdmissionChanged am_shutdownAdmissionClosed]. by rewrite Ha.
Qed.

(** A settling worker whose client call succeeds. *)
Lemma serve_settling c t p e settlement rest :
  tf_workers t = Settling e settlement :: rest →
  ∃ c' t', steps (mkSystem c t p) (mkSystem c' t' p) ∧ serves c c' t t' ∧ tf_jobs t' = tf_jobs t
  ∧ tf_workers t' = rest ∧ am_changed (cn_admission c') = true.
Proof using.
  intros Hw. destruct (settle c t (env_generation e) (env_tag e) settlement (SettleReturned None)) as [[err c1] t1] eqn:Hs.
  pose proof (keeps_settle _ _ _ _ _ _ _ _ _ Hs) as Hk.
  assert (tf_jobs t1 = tf_jobs t ∧ tf_accepted t1 = tf_accepted t) as (Hj & Hac).
  { unfold settle in Hs. repeat case_match; by simplify_eq. }
  destruct (serve_completing c1 (set_workers t1 (Completing e err :: rest)) p e err rest eq_refl)
    as (c2 & t2 & Hsteps & Hserves & Hj2 & Hw2 & Hch).
  exists c2, t2. split_and!; try done; [|eapply serves_trans; [by apply serves_keeps|destruct Hserves; by split]|by rewrite Hj2].
  eapply rtc_l; [|exact Hsteps]. by apply (cs_settle config c t p [] rest e settlement (SettleReturned None)).
Qed.

(** A handler that acknowledges. *)
Lemma serve_worker c t p w rest :
  tf_workers t = w :: rest →
  ∃ c' t', steps (mkSystem c t p) (mkSystem c' t' p) ∧ serves c c' t t' ∧ tf_jobs t' = tf_jobs t
  ∧ tf_workers t' = rest ∧ am_changed (cn_admission c') = true.
Proof using.
  intros Hw. destruct w as [e|e settlement|e err]; [|by eapply serve_settling|by eapply serve_completing].
  destruct (serve_settling c (set_workers t (Settling e Acknowledge :: rest)) p e Acknowledge rest eq_refl)
    as (c1 & t1 & Hsteps & Hserves & Hj & Hw1 & Hch).
  exists c1, t1. split_and!; try done; [|destruct Hserves; by split]. eapply rtc_l; [|exact Hsteps].
  apply (cs_decide config c t p [] rest e Acknowledge None None Acknowledge c t Hw). done.
Qed.

Lemma serve_workers c t p :
  ∃ c' t', steps (mkSystem c t p) (mkSystem c' t' p) ∧ serves c c' t t' ∧ tf_jobs t' = tf_jobs t
  ∧ tf_workers t' = [] ∧ (tf_workers t ≠ [] ∨ am_changed (cn_admission c) = true → am_changed (cn_admission c') = true).
Proof using.
  remember (tf_workers t) as workers eqn:Hw. symmetry in Hw. revert c t Hw.
  induction workers as [|w workers IH]; intros c t Hw.
  { exists c, t. split_and!; try done. by intros [?|?]. }
  destruct (serve_worker c t p w workers Hw) as (c1 & t1 & Hs1 & Hv1 & Hj1 & Hw1 & Hc1).
  destruct (IH c1 t1 Hw1) as (c2 & t2 & Hs2 & Hv2 & Hj2 & Hw2 & Hc2).
  exists c2, t2. split_and!; [by etrans|by eapply serves_trans|congruence|done|]. intros _. apply Hc2. by right.
Qed.

(** All the queued deliveries are served. *)
Lemma serve_jobs c t p :
  ∃ c' t', steps (mkSystem c t p) (mkSystem c' t' p) ∧ serves c c' t t' ∧ tf_jobs t' = [] ∧ tf_workers t' = []
  ∧ (busy c t → am_changed (cn_admission c') = true).
Proof using Hconfig.
  pose proof (config_bounds config Hconfig) as [_ Hconc].
  remember (tf_jobs t) as jobs eqn:Hj. symmetry in Hj. revert c t Hj.
  induction jobs as [|e jobs IH]; intros c t Hj;
    destruct (serve_workers c t p) as (c1 & t1 & Hs1 & Hv1 & Hj1 & Hw1 & Hc1).
  - exists c1, t1. split_and!; try done; [by rewrite Hj1|]. unfold busy. rewrite Hj. intros [?|?]; [done|auto].
  - rewrite Hj in Hj1.
    destruct (IH c1 (set_workers (set_jobs t1 jobs (tf_jobsClosed t1)) [Handling e]) eq_refl)
      as (c2 & t2 & Hs2 & Hv2 & Hj2 & Hw2 & Hc2).
    exists c2, t2. split_and!; try done.
    + etrans; [exact Hs1|]. eapply rtc_l; [|exact Hs2]. pose proof (cs_take config c1 t1 p e jobs Hj1) as Htake.
      rewrite Hw1 in Htake. apply Htake. unfold llen. simpl. lia.
    + eapply serves_trans; [exact Hv1|]. by destruct Hv2.
    + intros _. apply Hc2. right. by left.
Qed.

(** ** Draining *)

(** What the dispatcher has to do before its drain is complete: to admit what is
    pending, to see the drain, to see the deliveries end. *)
Definition work (d : dispatcher) : nat :=
  Z.to_nat (rg_count (dp_ring d)) + (if dp_draining d then 0 else 1) + (if dp_deliveriesClosed d then 0 else 1).

(** A dispatcher whose [select] has work of its own is ahead of one that waits for
    the workers. *)
Definition drain_measure (p : run_phase) : nat :=
  match p with
  | RunTop d => 3 * work d + 1
  | RunSelect d deliveries _ => 3 * work d + (if negb (dp_draining d) || deliveries then 0 else 2)
  | _ => 0
  end.

Lemma discard_work c d : (work (dispatch_discard c d).2 <= work d)%nat.
Proof using.
  unfold dispatch_discard, work. destruct (am_shutdownAdmissionClosed _); [|done].
  simpl. destruct (dp_draining d), (dp_deliveriesClosed d); lia.
Qed.

(** With the workers idle, the dispatcher admits a delivery, completes the drain,
    or comes to a [select] with work of its own. *)
Lemma top_progress c t d q :
  ring_rep (dp_ring d) q → tf_jobs t = [] →
  ∃ c' t' r, dispatch_top config c t d = Some (c', t', r) ∧ serves c c' t t'
  ∧ (r = TopDrained ∨ drain_measure (after_top r) < drain_measure (RunTop d) ∧ phase_dispatcher (after_top r) ≠ None)%nat.
Proof using Hconfig.
  intros Hrep Hj. pose proof (config_bounds config Hconfig) as [Hpre _].
  pose proof (keeps_discard c d) as Hk. pose proof (discard_work c d) as Hwork.
  assert (∃ q', ring_rep (dp_ring (dispatch_discard c d).2) q') as [q' Hrep'].
  { unfold dispatch_discard. destruct (am_shutdownAdmissionClosed _); [|by eexists]. exists []. simpl.
    apply ring_rep_empty. destruct Hrep as (h & _ & Hlt & _). intros Hn. rewrite Hn in Hlt. simpl in Hlt. lia. }
  unfold dispatch_top. destruct (dispatch_discard c d) as [c1 d1]. simpl in Hk, Hwork, Hrep'.
  pose proof (ring_rep_bound _ _ Hrep') as [Hcount Hroom].
  assert (0 < llen (rg_pending (dp_ring d1))) as Hpos by (destruct Hrep' as (h & _ & ? & _); unfold llen; lia).
  rewrite Hj. change (llen []) with 0. replace (0 <? Prefetch config) with true by (symmetry; apply Z.ltb_lt; lia).
  rewrite andb_true_r. destruct q' as [|e q'].
  - rewrite Hcount. change (llen []) with 0. cbn [Z.gtb Z.compare andb].
    destruct (consumerDrainComplete _ _ _) eqn:Hdone; eexists _, _, _; (split; [reflexivity|]);
      (split; [by apply serves_keeps|]); [by left|right].
    split; [|done]. simpl. enough (negb (dp_draining d1) || negb (suspendConsumerDeliveries (dp_deliveriesClosed d1)
      (consumerAdmissionPaused (am_paused (cn_admission c1)) (dp_draining d1)) 0 (llen (rg_pending (dp_ring d1)))) = true) as -> by lia.
    unfold consumerDrainComplete in Hdone. rewrite Z.eqb_refl, andb_true_r in Hdone.
    unfold suspendConsumerDeliveries. replace (0 =? llen _) with false by (symmetry; apply Z.eqb_neq; lia).
    destruct (dp_draining d1); [|done]. simpl in Hdone. rewrite Hdone. simpl. by rewrite andb_false_r.
  - rewrite (ring_front_rep _ _ _ Hrep'). rewrite Hcount, llen_cons.
    replace (1 + llen q' >? 0) with true by (symmetry; apply Z.gtb_lt; unfold llen; lia). cbn [andb].
    destruct (consumerAdmissionPaused _ _) eqn:Hpaused; cbn [negb].
    + assert (dp_draining d1 = false) as Hdr
        by (unfold consumerAdmissionPaused in Hpaused; by destruct (am_paused _), (dp_draining d1)).
      unfold consumerDrainComplete. rewrite Hdr. cbn [andb]. eexists _, _, _. split; [reflexivity|].
      split; [by apply serves_keeps|]. right. split; [|done]. simpl. rewrite Hdr. simpl. lia.
    + eexists _, _, _. split; [reflexivity|]. split; [by apply serves_keeps|]. right. split; [|done].
      simpl. enough (work (set_ring d1 (ring_pop (dp_ring d1))) < work d1)%nat by lia. unfold work. simpl.
      rewrite Hcount, llen_cons. unfold llen. lia.
Qed.

(** At the [select], the dispatcher sees the drain or the end of the deliveries, or
    the workers wake it. *)
Lemma select_progress c t d deliveries resume :
  wake_inv (mkSystem c t (RunSelect d deliveries resume)) → isStopping c = true → cn_recoveryStopped c = true →
  (negb (dp_draining d) || deliveries = false → am_changed (cn_admission c) = true) →
  (deliveries = true → dp_deliveriesClosed d = false) →
  ∃ c' t' p', consumer_step config (mkSystem c t (RunSelect d deliveries resume)) (mkSystem c' t' p')
  ∧ serves c c' t t'
  ∧ (drain_measure p' < drain_measure (RunSelect d deliveries resume))%nat ∧ phase_dispatcher p' ≠ None.
Proof using.
  intros [Hg Hf Hsel] Hs Hr Hwoken Hopen. cbn [sy_run] in *. pose proof (Hf d eq_refl) as Hflags.
  destruct (dp_draining d) eqn:Hdr; [destruct deliveries|].
  - exists c, t, (RunTop (start_draining (close_deliveries d))). split_and!; try done.
    + apply (cs_select config c t d true resume (CaseDeliveriesClosed None) c t
        (SelectContinue (start_draining (close_deliveries d)))); [done|]. simpl. by rewrite Hs.
    + simpl. unfold work. simpl. rewrite Hdr, (Hopen eq_refl). lia.
  - exists (set_admission c (mkAdmission (am_paused (cn_admission c)) (am_resume (cn_admission c))
      (am_resumes (cn_admission c)) (am_shutdownAdmissionClosed (cn_admission c)) false)), t, (RunTop d). split_and!; try done.
    + apply (cs_select config c t d false resume CaseAdmissionChanged _ t (SelectContinue d)); [done|]. simpl. by rewrite Hwoken.
    + simpl. rewrite Hdr. simpl. lia.
  - exists c, t, (RunTop (start_draining d)). split_and!; try done.
    + apply (cs_select config c t d deliveries resume CaseRecoveryDone c t (SelectContinue (start_draining d))); [done|].
      simpl. by rewrite Hflags, Hr, Hs.
    + simpl. unfold work. simpl. rewrite Hdr. destruct (dp_deliveriesClosed d); simpl; lia.
Qed.

(** A dispatcher that waits for the workers has deliveries pending. *)
Lemma stuck_pending c t d deliveries resume q :
  select_ok c t d deliveries resume → ring_rep (dp_ring d) q → negb (dp_draining d) || deliveries = false →
  0 < rg_count (dp_ring d) ∧ resume = None.
Proof using.
  intros [] Hrep [Hdr Hdel]%orb_false_iff. apply negb_false_iff in Hdr. rewrite Hdr in *.
  specialize (so_draining0 eq_refl) as ->. split; [|done].
  pose proof (ring_rep_bound _ _ Hrep) as [Hcount _]. destruct Hrep as (h & _ & Hlt & _).
  rewrite Hdel in so_deliveries0. symmetry in so_deliveries0. apply negb_false_iff in so_deliveries0.
  unfold suspendConsumerDeliveries, consumerDrainComplete, llen in *. simpl in *.
  destruct (dp_deliveriesClosed d); simpl in *; [apply Z.eqb_neq in so_undrained0; lia|].
  apply orb_prop in so_deliveries0 as [H|H]; lia.
Qed.

Lemma steps_stopping s s' :
  steps s s' → isStopping (sy_consumer s) = true →
  isStopping (sy_consumer s') = true ∧ currentGeneration (sy_consumer s') = currentGeneration (sy_consumer s).
Proof using.
  induction 1 as [s|s1 s2 s3 Hstep _ IH]; [done|]. intros Hs.
  destruct (step_stopping config _ _ Hstep Hs) as (Hs2 & Hg & _). destruct (IH Hs2). split; congruence.
Qed.

(** A stopping consumer with a dispatcher gets ahead. *)
Lemma drain_progress c t p :
  steps (newSystem config) (mkSystem c t p) → phase_dispatcher p ≠ None →
  isStopping c = true → cn_recoveryStopped c = true →
  ∃ c' t' p', steps (mkSystem c t p) (mkSystem c' t' p') ∧ serves c c' t t'
  ∧ (p' = RunFinishing true ∨ (drain_measure p' < drain_measure p)%nat ∧ phase_dispatcher p' ≠ None).
Proof using Hconfig.
  intros Hr Hp Hs Hrec. destruct (serve_jobs c t p) as (c1 & t1 & Hs1 & Hv1 & Hj1 & Hw1 & Hb1).
  assert (steps (newSystem config) (mkSystem c1 t1 p)) as Hr1 by by etrans.
  destruct (consumer_reachable config Hconfig _ Hr1) as [q [Hpend _ _ _]].
  destruct p as [d|d deliveries resume| | | | | | |]; try done.
  - destruct Hpend as [Hrep _]. destruct (top_progress c1 t1 d q Hrep Hj1) as (c2 & t2 & r & Htop & Hv2 & Hm).
    exists c2, t2, (after_top r). split_and!; [|by eapply serves_trans|destruct Hm as [-> |]; [by left|by right]].
    etrans; [exact Hs1|]. by apply rtc_once, cs_top.
  - pose proof (wake_reachable _ Hr) as Hw. pose proof (wk_select _ Hw _ _ _ eq_refl) as Hsel. cbn [sy_consumer sy_traffic] in Hsel.
    destruct (select_progress c1 t1 d deliveries resume) as (c2 & t2 & p2 & Hstep & Hv2 & Hm & Hd).
    + by apply wake_reachable.
    + apply (steps_stopping _ _ Hs1 Hs).
    + by apply Hv1.
    + intros Hstuck. destruct Hpend as [Hrep _]. destruct (stuck_pending c t d deliveries resume q Hsel Hrep Hstuck).
      by apply Hb1, Hsel.
    + intros ->. pose proof (so_deliveries _ _ _ _ _ Hsel) as Hdel. unfold suspendConsumerDeliveries in Hdel.
      by destruct (dp_deliveriesClosed d).
    + exists c2, t2, p2. split_and!; [|by eapply serves_trans|by right]. etrans; [exact Hs1|]. by apply rtc_once.
Qed.

(** The drain of a running dispatcher can be completed. *)
Lemma drain_dispatcher n c t p :
  steps (newSystem config) (mkSystem c t p) → phase_dispatcher p ≠ None →
  isStopping c = true → cn_recoveryStopped c = true → (drain_measure p < n)%nat →
  ∃ c' t', steps (mkSystem c t p) (mkSystem c' t' (RunFinishing true)) ∧ serves c c' t t'.
Proof using Hconfig.
  revert c t p. induction n as [|n IH]; intros c t p Hr Hp Hs Hrec Hn; [lia|].
  destruct (drain_progress c t p Hr Hp Hs Hrec) as (c1 & t1 & p1 & Hs1 & Hv1 & [-> |[Hm Hp1]]); [by eauto|].
  destruct (IH c1 t1 p1) as (c2 & t2 & Hs2 & Hv2); try done; [by etrans|apply (steps_stopping _ _ Hs1 Hs)|by apply Hv1|lia|].
  exists c2, t2. split; [by etrans|by eapply serves_trans].
Qed.

(** The supervisor can end. *)
Definition ends (c : Consumer) (t : traffic) (p : run_phase) (drained : bool) : Prop :=
  ∃ c' t', steps (mkSystem c t p) (mkSystem c' t' (RunDone drained)) ∧ serves c c' t t'.

Lemma ends_steps c c1 t t1 p p1 drained :
  steps (mkSystem c t p) (mkSystem c1 t1 p1) → serves c c1 t t1 → ends c1 t1 p1 drained → ends c t p drained.
Proof using. intros Hs Hv (c' & t' & Hs' & Hv'). exists c', t'. split; [by etrans|by eapply serves_trans]. Qed.

Lemma ends_step c c1 t t1 p p1 drained :
  consumer_step config (mkSystem c t p) (mkSystem c1 t1 p1) → keeps c c1 → tf_accepted t1 = tf_accepted t →
  ends c1 t1 p1 drained → ends c t p drained.
Proof using. intros Hs Hk Ha. apply ends_steps; [by apply rtc_once|by apply serves_keeps]. Qed.

Lemma waiting_ends c t drained :
  steps (newSystem config) (mkSystem c t (RunWaiting drained)) → ends c t (RunWaiting drained) drained.
Proof using Hconfig.
  intros Hr. destruct (serve_jobs c t (RunWaiting drained)) as (c2 & t2 & Hs2 & Hv2 & Hj & Hw & _).
  assert (steps (newSystem config) (mkSystem c2 t2 (RunWaiting drained))) as Hr2 by by etrans.
  destruct (finish_end_ok config c2 t2 drained CloseTimer (consumer_reachable _ Hconfig _ Hr2) Hj Hw) as (c3 & Hend & _).
  eapply ends_steps; [exact Hs2|exact Hv2|]. exists c3, t2. split.
  - by apply rtc_once, (cs_finish_end config c2 t2 drained CloseTimer).
  - apply serves_keeps; [by eapply keeps_finishRun_end|done].
Qed.

Lemma finishing_ends c t drained :
  steps (newSystem config) (mkSystem c t (RunFinishing drained)) → ends c t (RunFinishing drained) drained.
Proof using Hconfig.
  intros Hr. pose proof (cs_finish_begin config c t drained CloseTimer) as Hstep.
  eapply ends_step; [exact Hstep|apply keeps_finishRun_begin|done|]. apply waiting_ends. by eapply rtc_r.
Qed.

Lemma dispatching_ends c t p :
  steps (newSystem config) (mkSystem c t p) → phase_dispatcher p ≠ None →
  isStopping c = true → cn_recoveryStopped c = true → ends c t p true.
Proof using Hconfig.
  intros Hr Hp Hs Hrec. destruct (drain_dispatcher (S (drain_measure p)) c t p) as (c1 & t1 & Hs1 & Hv1); try done; [lia|].
  eapply ends_steps; [exact Hs1|exact Hv1|]. apply finishing_ends. by etrans.
Qed.

Lemma reconnecting_ends c t :
  steps (newSystem config) (mkSystem c t RunReconnecting) → ends c t RunReconnecting false.
Proof using Hconfig.
  intros Hr. pose proof (cs_recovery_failed config c t) as Hstep. eapply ends_step; [exact Hstep| |done|].
  - unfold recovery_failed. destruct (negb _); [auto with keeps|reflexivity].
  - apply finishing_ends. by eapply rtc_r.
Qed.

Lemma closing_ends c t g :
  steps (newSystem config) (mkSystem c t (RunClosing g)) → ends c t (RunClosing g) false.
Proof using Hconfig.
  intros Hr. pose proof (cs_close config c t g CloseTimer) as Hstep.
  eapply ends_step; [exact Hstep|apply keeps_run_close|done|].
  pose proof (rtc_r _ _ _ Hr Hstep) as Hr1. destruct (run_close c g CloseTimer) as [c1 p1] eqn:Hc. cbn [fst snd] in *.
  unfold run_close in Hc. destruct (closeGeneration c g CloseTimer) as [err c2].
  destruct (consumerOperationFailed err); injection Hc as <- <-; [by apply finishing_ends|by apply reconnecting_ends].
Qed.

(** Every phase leads to the end, and a dispatcher that runs to a completed drain. *)
Lemma stopping_ends c t p :
  steps (newSystem config) (mkSystem c t p) → isStopping c = true → cn_recoveryStopped c = true → is_done p = false →
  ∃ drained, ends c t p drained ∧ (phase_dispatcher p ≠ None → drained = true).
Proof using Hconfig.
  intros Hr Hs Hrec Hd. destruct p as [d|d deliveries resume|g|g| | |drained|drained|]; [| | | | | | | |done].
  - exists true. split; [by apply dispatching_ends|done].
  - exists true. split; [by apply dispatching_ends|done].
  - exists false. split; [|done]. pose proof (cs_begin_recovery config c t g) as Hstep.
    eapply ends_step; [exact Hstep|auto with keeps|done|]. apply closing_ends. by eapply rtc_r.
  - exists false. split; [by apply closing_ends|done].
  - exists false. split; [by apply reconnecting_ends|done].
  - exists true. split; [|done]. pose proof (cs_recovered config c t) as Hstep.
    eapply ends_step; [exact Hstep|by split|done|]. apply dispatching_ends; [by eapply rtc_r|done|done|done].
  - exists drained. split; [by apply finishing_ends|done].
  - exists drained. split; [by apply waiting_ends|done].
Qed.

(** ** Claims *)

(** C13: no wake-up is lost: whenever the dispatcher of a consumer waits with
    deliveries pending, then a closed admission has already signalled it; unless it
    saw the consumer paused, a delivery is still with the workers, each of which
    will signal it, or the signal is there; if it saw the consumer paused, the
    consumer still is, or the channel it waits for is closed; and a stopped
    recovery context is noticed unless the drain it starts has begun. *)
Theorem consumer_no_lost_wakeup c t d deliveries resume :
  steps (newSystem config) (mkSystem c t (RunSelect d deliveries resume)) → 0 < rg_count (dp_ring d) →
  let ready case := is_Some (dispatch_select config c t d deliveries resume case) in
  (am_shutdownAdmissionClosed (cn_admission c) = true → ready CaseAdmissionChanged)
  ∧ (resume = None → tf_jobs t ≠ [] ∨ tf_workers t ≠ [] ∨ ready CaseAdmissionChanged)
  ∧ (∀ r, resume = Some r → ready CaseResume ∨ am_paused (cn_admission c) = true ∧ am_resume (cn_admission c) = Some r)
  ∧ (cn_recoveryStopped c = true → dp_draining d = true ∨ ready CaseRecoveryDone).
Proof using Hconfig.
  intros Hr Hpos ready. destruct (wake_reachable _ Hr) as [Hg Hf Hsel]. cbn [sy_run sy_consumer sy_traffic] in *.
  specialize (Hf d eq_refl). destruct (Hsel _ _ _ eq_refl) as [_ _ _ Hmade Hbusy Hclosed].
  assert (am_changed (cn_admission c) = true → ready CaseAdmissionChanged) as Hready
    by (unfold ready; simpl; intros ->; eauto).
  split_and!.
  - auto.
  - intros Hn. destruct (Hbusy Hpos Hn) as [|[|]]; auto.
  - intros r ->. unfold ready. simpl. rewrite (go_paused _ Hg). unfold resume_closed. pose proof (Hmade r eq_refl) as Hlt.
    destruct (am_resume (cn_admission c)) as [r'|]; simpl.
    + destruct (Nat.eqb_spec r' r) as [-> |Hne]; [by right|left]. rewrite (proj2 (Nat.ltb_lt _ _) Hlt). simpl. eauto.
    + left. rewrite (proj2 (Nat.ltb_lt _ _) Hlt). simpl. eauto.
  - intros Hrec. unfold ready. simpl. rewrite Hf, Hrec. destruct (dp_draining d); [by left|right].
    simpl. destruct (negb (isStopping c)); eauto.
Qed.

(** C12: nothing in the package keeps a consumer that was asked to stop from
    stopping: from every reachable state there is a continuation in which it ends
    with no delivery queued or being handled; if its dispatcher was running, it
    ends by completing the drain without accepting anything more, and if admission
    was still open everything the dispatcher had accepted is handed over. *)
Theorem consumer_can_drain c t p :
  steps (newSystem config) (mkSystem c t p) → isStopping c = true →
  ∃ c' t' drained, steps (mkSystem c t p) (mkSystem c' t' (RunDone drained))
  ∧ lc_stopped (cn_lifecycle c') = true ∧ tf_jobs t' = [] ∧ tf_workers t' = []
  ∧ (phase_dispatcher p ≠ None → drained = true ∧ tf_accepted t' = tf_accepted t
     ∧ (am_shutdownAdmissionClosed (cn_admission c) = false →
        of_generation (currentGeneration c) (tf_admitted t') = of_generation (currentGeneration c) (tf_accepted t))).
Proof using Hconfig.
  intros Hr Hs. destruct (is_done p) eqn:Hd.
  { destruct p as [| | | | | | | |drained]; try done. exists c, t, drained. split; [reflexivity|].
    destruct (consumer_reachable config Hconfig _ Hr) as [q [_ _ _ Hst]]. cbn [sy_run sy_consumer sy_traffic] in Hst.
    destruct (st_done _ _ _ _ Hst eq_refl). by rewrite (st_stopped _ _ _ _ Hst). }
  pose proof (cs_drain_begin config c t p) as Hbegin. pose proof (steps_stopping _ _ (rtc_once _ _ Hbegin) Hs) as [Hs1 _].
  destruct (stopping_ends (Drain_begin c) t p) as (drained & Hends & Hp); [by eapply rtc_r|done|done|done|].
  destruct (ends_step _ _ _ _ _ _ _ Hbegin (keeps_Drain_begin c) eq_refl Hends) as (c' & t' & Hsteps & [Hacc Hcl _]).
  pose proof (steps_stopping _ _ Hsteps Hs) as [_ Hgen]. cbn [sy_consumer] in Hgen.
  assert (steps (newSystem config) (mkSystem c' t' (RunDone drained))) as Hr' by by etrans.
  destruct (consumer_reachable config Hconfig _ Hr') as [q [Hpend _ Hord Hst]]. cbn [sy_run sy_consumer sy_traffic] in *.
  destruct (st_done _ _ _ _ Hst eq_refl) as [Hj Hw]. exists c', t', drained. split_and!; try done.
  - by rewrite (st_stopped _ _ _ _ Hst).
  - intros Hne. specialize (Hp Hne) as ->. split_and!; [done|done|]. intros Hopen. rewrite <- Hgen, <- Hacc.
    destruct (or_tracking _ _ _ _ Hord eq_refl) as (dropped & Heq & Hdropped).
    unfold pending_rep in Hpend. simpl in Hpend. subst q. rewrite app_nil_r in Heq.
    destruct dropped as [|e dropped]; [by rewrite app_nil_r in Heq|]. destruct Hdropped as [Hclosed _]; [done|]. congruence.
Qed.
End Wake.

(** ** Example runs *)

(** A delivery arrives, the consumer is paused, the dispatcher waits, and the
    consumer is resumed. *)
Definition resumed : system :=
  default (newSystem example_consumer) (exec example_consumer (newSystem example_consumer)
    [ATop; example_arrival 1 "orders"; APause; ATop; AResume]).

Lemma consumer_no_lost_wakeup_witness :
  ∃ d deliveries, sy_run resumed = RunSelect d deliveries (Some 0%nat) ∧ 0 < rg_count (dp_ring d)
  ∧ am_paused (cn_admission (sy_consumer resumed)) = false
  ∧ is_Some (dispatch_select example_consumer (sy_consumer resumed) (sy_traffic resumed) d deliveries (Some 0%nat) CaseResume).
Proof.
  assert (rtc (consumer_step example_consumer) (newSystem example_consumer) resumed) as Hr
    by (apply exec_default; by vm_compute).
  assert (am_paused (cn_admission (sy_consumer resumed)) = false) as Hp by by vm_compute.
  assert (match sy_run resumed with RunSelect d _ (Some 0%nat) => rg_count (dp_ring d) = 1 | _ => False end) as Hrun
    by by vm_compute.
  destruct resumed as [c t p]. cbn [sy_run sy_consumer sy_traffic] in *.
  destruct p as [|d deliveries [[|]|]| | | | | | |]; try done. exists d, deliveries.
  assert (0 < rg_count (dp_ring d)) as Hpos by lia.
  destruct (consumer_no_lost_wakeup example_consumer eq_refl c t d deliveries (Some 0%nat) Hr Hpos) as (_ & _ & Hres & _).
  destruct (Hres 0%nat eq_refl) as [H|[H _]]; [done|congruence].
Defined.

(** From the drain of the example run. *)
Lemma consumer_can_drain_witness :
  ∃ c' t' drained, rtc (consumer_step example_consumer) (example_after 12) (mkSystem c' t' (RunDone drained))
  ∧ lc_stopped (cn_lifecycle c') = true.
Proof.
  assert (isStopping (sy_consumer (example_after 12)) = true) as Hs by by vm_compute.
  assert (rtc (consumer_step example_consumer) (newSystem example_consumer) (example_after 12)) as Hr
    by (apply example_after_reachable; by vm_compute).
  destruct (example_after 12) as [c t p].
  destruct (consumer_can_drain example_consumer eq_refl c t p Hr Hs) as (c' & t' & drained & Hsteps & Hst & _).
  by exists c', t', drained.
Defined.
