(* ===== verification/Open.v ===== *)
(** * Open: opening and recovering producers and consumers

    producer_open.go ([openProducerWith], [recoverRuntime], [setupProducerChannel]),
    consumer_open.go ([openConsumerWith], [recoverRuntime]) and the set-up of a
    consumer's generation in consumer.go.

    Three of the attempt loops count to the configured maximum and share one
    combinator; the loop of [openProducerWith] has no bound of its own and is modelled
    as one that may still be running.  What the loops do in an attempt follows the
    code.  What is outside the package (contexts, the credential
    provider, the random source, the dialler, the broker's channel) is a script.
    A handle is nil, open or closed, so that a leak is visible; the password
    buffer of an attempt is what the attempt leaves in it. *)

From S2P Require Import Prelude GoText Errors Config Amqp Message Topology Settlement Delivery Observation.
From S2P Require Import Producer Consumer.

(** ** Handles and attempts *)

(** [None] is nil; else whether the handle was closed. *)
Definition handle : Type := option bool.
Definition obtained (present : bool) : handle := if present then Some false else None.
Definition closed_handle (h : handle) : handle := option_map (λ _, true) h.

(** One attempt: the endpoint it dialled, the password buffer it leaves, its two
    handles and the observations it emitted. *)
Record open_attempt := mkAttempt {
  oa_endpoint : option Z;
  oa_password : bytes;
  oa_channel : handle;
  oa_resource : handle;
  oa_observed : list Observation }.

Definition mkOpenAttempt (endpoint : option Z) (password : bytes) (channel resource : handle) : open_attempt :=
  mkAttempt endpoint password channel resource [].

(** An attempt of a runtime recovery is announced to the observers before it
    starts. *)
Definition announced (a : open_attempt) : open_attempt :=
  mkAttempt (oa_endpoint a) (oa_password a) (oa_channel a) (oa_resource a)
    (observation ObservationReconnect ObservationAttempted :: oa_observed a).

Definition no_attempt : open_attempt := mkOpenAttempt None None None None.

(** How an iteration of an attempt loop ends. *)
Inductive open_iteration (R : Type) :=
| OpenReturn (result : R) (record : open_attempt)
| OpenNext (delay : Z) (record : open_attempt).
Arguments OpenReturn {R} _ _.
Arguments OpenNext {R} _ _.

(** A loop that counts its attempts to a maximum, [fuel]; [exhausted] is what the
    code returns behind it. *)
Fixpoint attempt_loop {R} (iterate : nat → Z → open_iteration R) (exhausted : R) (fuel attempt : nat) (delay : Z)
    (records : list open_attempt) : R * list open_attempt :=
  match fuel with
  | O => (exhausted, records)
  | S fuel =>
    match iterate attempt delay with
    | OpenReturn result record => (result, records ++ [record])
    | OpenNext delay record => attempt_loop iterate exhausted fuel (S attempt) delay (records ++ [record])
    end
  end.

(** A loop without a bound, which only a return ends: [None] when [fuel] iterations
    have not ended it. *)
Fixpoint endless_loop {R} (iterate : nat → Z → open_iteration R) (fuel attempt : nat) (delay : Z)
    (records : list open_attempt) : option (R * list open_attempt) :=
  match fuel with
  | O => None
  | S fuel =>
    match iterate attempt delay with
    | OpenReturn result record => Some (result, records ++ [record])
    | OpenNext delay record =>
      endless_loop iterate fuel (Z.to_nat (nextRecoveryAttempt (Z.of_nat attempt))) delay (records ++ [record])
    end
  end.

(** ** Setting up a producer's channel *)

(** What ends the wait for the broker's confirm mode. *)
Inductive confirm_event :=
| ConfirmReturned (err : option error)
| ConfirmExpired.

(** [setupProducerChannel]: its error, the channel and the resource. *)
Definition setupProducerChannel (event : confirm_event) (channel resource : handle)
    : option error * handle * handle :=
  match event with
  | ConfirmReturned None => (None, channel, resource)
  | ConfirmReturned (Some _) | ConfirmExpired =>
    (Some ErrProducerUnavailable, closed_handle channel, closed_handle resource)
  end.

Definition producerInputsPresent (session : string) (channel resource : handle) : bool :=
  negb (invalidIdentity session maxProducerSessionBytes) && present channel && present resource.

(** [newProducerFromChannelWithRecovery] up to the producer it makes. *)
Definition newProducerFromChannelWithRecovery (ctx : bool) (config : ProducerConfig) (session : string)
    (channel resource : handle) (event : confirm_event) : option error * handle * handle :=
  return_if negb ctx, (Some ErrContextRequired, channel, resource) ;;
  match ProducerConfig_Validate config with
  | Some err => (Some err, channel, resource)
  | None =>
    return_if negb (producerInputsPresent session channel resource),
      (Some ErrProducerUnavailable, channel, resource) ;;
    match setupProducerChannel event channel resource with
    | (Some _, channel, resource) => (Some ErrProducerUnavailable, channel, resource)
    | (None, channel, resource) => (None, channel, resource)
    end
  end.

Definition usableProducerResources (channel resource : handle) (err : option error) : bool :=
  negb (present err) && present channel && present resource.

Definition shouldWaitForRecovery (attempt : Z) : bool := attempt >? 0.

(** ** Opening and recovering a producer *)

(** What an attempt meets: the context at its top, the wait for its delay, the
    credentials, the session, the dial, the confirm mode, and whether the producer
    was closed when the new generation was to be installed. *)
Record producer_script := mkProducerScript {
  ps_context : option error;
  ps_wait : option error;
  ps_credentials : Credentials * option error;
  ps_session : string * option error;
  ps_dial : bool * bool * option error;
  ps_confirm : confirm_event;
  ps_closed : bool }.

Section Producers.
Context {P : Type} (connection : ConnectionConfig P) (config : ProducerConfig) (scripts : nat → producer_script).

(** An attempt of [openProducerWith] up to its outcome: the next endpoint of the
    producer it opened, if it did. *)
Definition openProducer_attempt (sessionID : string) (attempt : Z) (s : producer_script) : option Z * open_attempt :=
  let '(credentials, credentialErr) := ps_credentials s in
  let password := wipe (Credentials_Password credentials) in
  if negb (usableCredentials credentials credentialErr) then (None, mkOpenAttempt None password None None)
  else
    let endpoint := recoveryEndpointIndex 0 attempt (llen (Endpoints connection)) in
    let '(channelPresent, resourcePresent, dialErr) := ps_dial s in
    let channel := obtained channelPresent in
    let resource := obtained resourcePresent in
    if usableProducerResources channel resource dialErr then
      let '(producerErr, channel, resource) :=
        newProducerFromChannelWithRecovery true config sessionID channel resource (ps_confirm s) in
      (if present producerErr then None else Some (nextRecoveryAttempt attempt),
       mkOpenAttempt (Some endpoint) password channel resource)
    else (None, mkOpenAttempt (Some endpoint) password (closed_handle channel) (closed_handle resource)).

Definition openProducer_iteration (sessionID : string) (attempt : nat) (delay : Z) : open_iteration (error + Z) :=
  let s := scripts attempt in
  match ps_context s with
  | Some err => OpenReturn (inl (Joined ErrProducerUnavailable err)) no_attempt
  | None =>
    match openProducer_attempt sessionID (Z.of_nat attempt) s with
    | (Some next, record) => OpenReturn (inr next) record
    | (None, record) =>
      return_if finalRecoveryAttempt (Z.of_nat attempt) (RecoveryPolicy_MaxAttempts (Recovery connection)),
        OpenReturn (inl ErrProducerUnavailable) record ;;
      match ps_wait s with
      | Some err => OpenReturn (inl (Joined ErrProducerUnavailable err)) record
      | None => OpenNext (nextRecoveryDelay delay (RecoveryPolicy_MaxDelay (Recovery connection))) record
      end
    end
  end.

(** An attempt of the producer's [recoverRuntime]: [Some] of the result it
    returns ([Some] of the new next endpoint, or [None] for false), or [None] to
    go on. *)
Definition recoverProducer_attempt (nextEndpoint attempt : Z) (s : producer_script)
    : option (option Z) * open_attempt :=
  let '(credentials, credentialErr) := ps_credentials s in
  let password := wipe (Credentials_Password credentials) in
  let skipped := (None, mkOpenAttempt None password None None) in
  return_if negb (usableCredentials credentials credentialErr), skipped ;;
  let '(session, sessionErr) := ps_session s in
  return_if negb (usableProducerSession session sessionErr), skipped ;;
  let endpoint := recoveryEndpointIndex nextEndpoint attempt (llen (Endpoints connection)) in
  let '(channelPresent, resourcePresent, dialErr) := ps_dial s in
  let channel := obtained channelPresent in
  let resource := obtained resourcePresent in
  let closed := mkOpenAttempt (Some endpoint) password (closed_handle channel) (closed_handle resource) in
  return_if negb (usableProducerResources channel resource dialErr), (None, closed) ;;
  match setupProducerChannel (ps_confirm s) channel resource with
  | (Some _, channel, resource) => (None, mkOpenAttempt (Some endpoint) password channel resource)
  | (None, channel, resource) =>
    return_if ps_closed s, (Some None, closed) ;;
    (Some (Some (endpoint + 1)), mkOpenAttempt (Some endpoint) password channel resource)
  end.

Definition recoverProducer_iteration (nextEndpoint : Z) (attempt : nat) (delay : Z) : open_iteration (option Z) :=
  let s := scripts attempt in
  match ps_context s with
  | Some _ => OpenReturn None no_attempt
  | None =>
    let wait := shouldWaitForRecovery (Z.of_nat attempt) in
    if wait && present (ps_wait s) then OpenReturn None no_attempt
    else
      let delay := if wait then nextRecoveryDelay delay (RecoveryPolicy_MaxDelay (Recovery connection)) else delay in
      match recoverProducer_attempt nextEndpoint (Z.of_nat attempt) s with
      | (Some result, record) => OpenReturn result (announced record)
      | (None, record) => OpenNext delay (announced record)
      end
  end.
End Producers.

(** [openProducerWith], run for at most [fuel] iterations of its loop: [None] when
    it has not returned by then. *)
Definition openProducerWith {P} (fuel : nat) (ctx : bool) (connection : ConnectionConfig P) (config : ProducerConfig)
    (session : option (string * option error)) (dial : bool) (scripts : nat → producer_script)
    : option ((error + Z) * list open_attempt) :=
  return_if negb ctx, Some (inl ErrContextRequired, []) ;;
  match ConnectionConfig_Validate connection with
  | Some err => Some (inl err, [])
  | None =>
    match ProducerConfig_Validate config with
    | Some err => Some (inl err, [])
    | None =>
      let connection := ownConnectionConfig connection in
      match session with
      | None => Some (inl ErrProducerUnavailable, [])
      | Some (sessionID, err) =>
        return_if negb dial, Some (inl ErrProducerUnavailable, []) ;;
        return_if negb (usableProducerSession sessionID err), Some (inl ErrProducerUnavailable, []) ;;
        endless_loop (openProducer_iteration connection config scripts sessionID) fuel 0
          (RecoveryPolicy_InitialDelay (Recovery connection)) []
      end
    end
  end.

(** The producer's [recoverRuntime]: the recovery is [None] when nil, else the
    connection and the next endpoint. *)
Definition Producer_recoverRuntime {P} (recovery : option (ConnectionConfig P * Z)) (scripts : nat → producer_script)
    : option Z * list open_attempt :=
  match recovery with
  | None => (None, [])
  | Some (connection, nextEndpoint) =>
    attempt_loop (recoverProducer_iteration connection scripts nextEndpoint) None
      (Z.to_nat (RecoveryPolicy_MaxAttempts (Recovery connection))) 0
      (RecoveryPolicy_InitialDelay (Recovery connection)) []
  end.

(** ** Setting up a consumer's generation *)

Inductive setup_call :=
| SetupExchangeDeclarePassive (name kind : string) (durable autoDelete internal noWait : bool)
    (arguments : option Table)
| SetupQueueDeclare (name : string) (durable autoDelete exclusive noWait : bool) (arguments : Table)
| SetupQueueBind (queue key exchange : string) (noWait : bool) (arguments : Table)
| SetupQos (prefetchCount prefetchSize : Z) (global : bool)
| SetupConsume (queue consumer : string) (autoAck exclusive noLocal noWait : bool) (arguments : option Table).

(** What ends a bounded set-up call: its return (with the name of a declared
    queue), or the context. *)
Inductive setup_event :=
| SetupReturned (err : option error) (declared : string)
| SetupExpired.

(** The calls made so far and the two handles. *)
Record setup_state := mkSetup { su_calls : list setup_call; su_channel : handle; su_resource : handle }.

(** [boundedCloseConsumerResources] in a set-up: both closes are started. *)
Definition close_setup (st : setup_state) : setup_state :=
  mkSetup (su_calls st) (closed_handle (su_channel st)) (closed_handle (su_resource st)).

Definition log_setup (st : setup_state) (call : setup_call) : setup_state :=
  mkSetup (su_calls st ++ [call]) (su_channel st) (su_resource st).

Definition boundedConsumerSetup (event : setup_event) (call : setup_call) (st : setup_state)
    : option error * setup_state :=
  let st := log_setup st call in
  match event with
  | SetupReturned None _ => (None, st)
  | SetupReturned (Some _) _ | SetupExpired => (Some ErrConsumerUnavailable, close_setup st)
  end.

Definition setup_declared (event : setup_event) : string :=
  match event with SetupReturned _ declared => declared | SetupExpired => EmptyString end.

Definition consumerArguments (config : ConsumerConfig) : option Table :=
  match Consumer_Priority config with
  | None => None
  | Some priority => Some (<["x-priority" := VInt32 priority]> ∅)
  end.

(** What a set-up meets: the passive check, the declaration and the binding of a
    transient queue, the QoS, whether the cancellations channel is there, and the
    consume call with whether it gave a channel of deliveries. *)
Record setup_script := mkSetupScript {
  ss_exchange : setup_event;
  ss_queue : setup_event;
  ss_bind : setup_event;
  ss_qos : setup_event;
  ss_cancellations : bool;
  ss_consume : setup_event;
  ss_deliveries : bool }.

Definition exchange_check (transient : TransientQueue) : setup_call :=
  let exchange := Transient_Exchange transient in
  SetupExchangeDeclarePassive (Exchange_Name exchange) (Exchange_Kind exchange) (Exchange_Durable exchange)
    (Exchange_AutoDelete exchange) (Exchange_Internal exchange) false None.

Definition transient_declare : setup_call :=
  SetupQueueDeclare EmptyString false true true false (<["x-queue-type" := VString QueueClassic]> ∅).

Definition transient_bind (transient : TransientQueue) (queue : string) : setup_call :=
  SetupQueueBind queue (Transient_RoutingKey transient) (Exchange_Name (Transient_Exchange transient)) false
    (bindingArguments (Transient_Arguments transient)).

Definition setupTransientQueue (s : setup_script) (transient : TransientQueue) (st : setup_state)
    : (error + string) * setup_state :=
  match boundedConsumerSetup (ss_exchange s) (exchange_check transient) st with
  | (Some err, st) => (inl err, st)
  | (None, st) =>
    match boundedConsumerSetup (ss_queue s) transient_declare st with
    | (Some err, st) => (inl err, st)
    | (None, st) =>
      let declared := setup_declared (ss_queue s) in
      return_if invalidIdentity declared 255, (inl ErrConsumerUnavailable, close_setup st) ;;
      match boundedConsumerSetup (ss_bind s) (transient_bind transient declared) st with
      | (Some err, st) => (inl err, st)
      | (None, st) => (inr declared, st)
      end
    end
  end.

Definition qos_call (config : ConsumerConfig) : setup_call := SetupQos (Prefetch config) 0 false.

Definition consume_call (config : ConsumerConfig) (queue : string) : setup_call :=
  SetupConsume queue (Consumer_Name config) false (Exclusive config) false false (consumerArguments config).

(** [setupConsumerGeneration] *)
Definition setupConsumerGeneration (config : ConsumerConfig) (s : setup_script) (channel resource : handle)
    : option error * setup_state :=
  let st := mkSetup [] channel resource in
  let '(queue, st) :=
    match Reference_Transient (Consumer_Queue config) with
    | Some transient => setupTransientQueue s transient st
    | None => (inr (Reference_Name (Consumer_Queue config)), st)
    end in
  match queue with
  | inl err => (Some err, st)
  | inr queueName =>
    match boundedConsumerSetup (ss_qos s) (qos_call config) st with
    | (Some err, st) => (Some err, st)
    | (None, st) =>
      return_if negb (ss_cancellations s), (Some ErrConsumerUnavailable, close_setup st) ;;
      let st := log_setup st (consume_call config queueName) in
      match ss_consume s with
      | SetupReturned None _ =>
        return_if negb (ss_deliveries s), (Some ErrConsumerUnavailable, close_setup st) ;;
        (None, st)
      | SetupReturned (Some _) _ | SetupExpired => (Some ErrConsumerUnavailable, close_setup st)
      end
    end
  end.

Definition acceptedConsumerConfig (err : option error) : bool * option error := (negb (present err), err).

Definition acceptedConsumerGeneration (generation : bool) (err : option error) : bool * option error :=
  match err with
  | Some err => (false, Some err)
  | None => if negb generation then (false, Some ErrConsumerUnavailable) else (true, None)
  end.

Definition consumerInputsPresent (handler : bool) (channel resource : handle) : bool :=
  handler && present channel && present resource.

Definition usableConsumerResources (channel resource : handle) (err : option error) : bool :=
  negb (present err) && present channel && present resource.

(** [newConsumerFromChannelWithRecovery] up to the consumer it makes. *)
Definition newConsumerFromChannelWithRecovery (ctx : bool) (config : ConsumerConfig) (handler : bool)
    (channel resource : handle) (s : setup_script) : option error * handle * handle :=
  return_if negb ctx, (Some ErrContextRequired, channel, resource) ;;
  let '(configAccepted, configErr) := acceptedConsumerConfig (ConsumerConfig_Validate config) in
  return_if negb configAccepted, (configErr, channel, resource) ;;
  let config := ownConsumerConfig config in
  return_if negb (consumerInputsPresent handler channel resource), (Some ErrInvalidConsumer, channel, resource) ;;
  let '(setupErr, st) := setupConsumerGeneration config s channel resource in
  let '(setupAccepted, setupErr) := acceptedConsumerGeneration (negb (present setupErr)) setupErr in
  return_if negb setupAccepted, (setupErr, su_channel st, su_resource st) ;;
  (None, su_channel st, su_resource st).

(** ** Opening and recovering a consumer *)

(** [cs_stopping]: the consumer was stopping when the new generation was to be
    installed. *)
Record consumer_script := mkConsumerScript {
  cs_context : option error;
  cs_wait : option error;
  cs_credentials : Credentials * option error;
  cs_dial : bool * bool * option error;
  cs_setup : setup_script;
  cs_stopping : bool }.

Section Consumers.
Context {P : Type} (connection : ConnectionConfig P) (config : ConsumerConfig) (scripts : nat → consumer_script).

Definition openConsumer_attempt (attempt : Z) (s : consumer_script) : option Z * open_attempt :=
  let '(credentials, credentialErr) := cs_credentials s in
  let password := wipe (Credentials_Password credentials) in
  if negb (usableCredentials credentials credentialErr) then (None, mkOpenAttempt None password None None)
  else
    let endpoint := recoveryEndpointIndex 0 attempt (llen (Endpoints connection)) in
    let '(channelPresent, resourcePresent, dialErr) := cs_dial s in
    let channel := obtained channelPresent in
    let resource := obtained resourcePresent in
    if usableConsumerResources channel resource dialErr then
      let '(consumerErr, channel, resource) :=
        newConsumerFromChannelWithRecovery true config true channel resource (cs_setup s) in
      (if present consumerErr then None else Some (attempt + 1),
       mkOpenAttempt (Some endpoint) password channel resource)
    else (None, mkOpenAttempt (Some endpoint) password (closed_handle channel) (closed_handle resource)).

Definition openConsumer_iteration (attempt : nat) (delay : Z) : open_iteration (error + Z) :=
  let s := scripts attempt in
  match cs_context s with
  | Some err => OpenReturn (inl (Joined ErrConsumerUnavailable err)) no_attempt
  | None =>
    match openConsumer_attempt (Z.of_nat attempt) s with
    | (Some next, record) => OpenReturn (inr next) record
    | (None, record) =>
      return_if finalRecoveryAttempt (Z.of_nat attempt) (RecoveryPolicy_MaxAttempts (Recovery connection)),
        OpenNext delay record ;;
      match cs_wait s with
      | Some err => OpenReturn (inl (Joined ErrConsumerUnavailable err)) record
      | None => OpenNext (nextRecoveryDelay delay (RecoveryPolicy_MaxDelay (Recovery connection))) record
      end
    end
  end.

Definition recoverConsumer_attempt (nextEndpoint attempt : Z) (s : consumer_script)
    : option (option Z) * open_attempt :=
  let '(credentials, credentialErr) := cs_credentials s in
  let password := wipe (Credentials_Password credentials) in
  return_if negb (usableCredentials credentials credentialErr), (None, mkOpenAttempt None password None None) ;;
  let endpoint := recoveryEndpointIndex nextEndpoint attempt (llen (Endpoints connection)) in
  let '(channelPresent, resourcePresent, dialErr) := cs_dial s in
  let channel := obtained channelPresent in
  let resource := obtained resourcePresent in
  let closed := mkOpenAttempt (Some endpoint) password (closed_handle channel) (closed_handle resource) in
  return_if negb (usableConsumerResources channel resource dialErr), (None, closed) ;;
  let '(setupErr, st) := setupConsumerGeneration config (cs_setup s) channel resource in
  return_if present setupErr, (None, mkOpenAttempt (Some endpoint) password (su_channel st) (su_resource st)) ;;
  return_if cs_stopping s, (Some None, closed) ;;
  (Some (Some (endpoint + 1)), mkOpenAttempt (Some endpoint) password (su_channel st) (su_resource st)).

Definition recoverConsumer_iteration (nextEndpoint : Z) (attempt : nat) (delay : Z) : open_iteration (option Z) :=
  let s := scripts attempt in
  match cs_context s with
  | Some _ => OpenReturn None no_attempt
  | None =>
    let wait := shouldWaitForRecovery (Z.of_nat attempt) in
    if wait && present (cs_wait s) then OpenReturn None no_attempt
    else
      let delay := if wait then nextRecoveryDelay delay (RecoveryPolicy_MaxDelay (Recovery connection)) else delay in
      match recoverConsumer_attempt nextEndpoint (Z.of_nat attempt) s with
      | (Some result, record) => OpenReturn result (announced record)
      | (None, record) => OpenNext delay (announced record)
      end
  end.
End Consumers.

(** [openConsumerWith] *)
Definition openConsumerWith {P} (ctx : bool) (connection : ConnectionConfig P) (config : ConsumerConfig)
    (handler dial : bool) (scripts : nat → consumer_script) : (error + Z) * list open_attempt :=
  return_if negb ctx, (inl ErrContextRequired, []) ;;
  match ConnectionConfig_Validate connection with
  | Some err => (inl err, [])
  | None =>
    match ConsumerConfig_Validate config with
    | Some err => (inl err, [])
    | None =>
      let config := ownConsumerConfig config in
      let connection := ownConnectionConfig connection in
      return_if negb handler, (inl ErrInvalidConsumer, []) ;;
      return_if negb dial, (inl ErrConsumerUnavailable, []) ;;
      attempt_loop (openConsumer_iteration connection config scripts) (inl ErrConsumerUnavailable)
        (Z.to_nat (RecoveryPolicy_MaxAttempts (Recovery connection))) 0
        (RecoveryPolicy_InitialDelay (Recovery connection)) []
    end
  end.

(** The consumer's [recoverRuntime]. *)
Definition Consumer_recoverRuntime {P} (recovery : option (ConnectionConfig P * Z)) (config : ConsumerConfig)
    (scripts : nat → consumer_script) : option Z * list open_attempt :=
  match recovery with
  | None => (None, [])
  | Some (connection, nextEndpoint) =>
    attempt_loop (recoverConsumer_iteration connection config scripts nextEndpoint) None
      (Z.to_nat (RecoveryPolicy_MaxAttempts (Recovery connection))) 0
      (RecoveryPolicy_InitialDelay (Recovery connection)) []
  end.

(** ** Copies of a configuration stay valid *)

Lemma binding_match_own m arguments : binding_match m (map own_header arguments) = binding_match m arguments.
Proof. revert m. induction arguments as [|h l IH]; intros m; simpl; [done|]. by rewrite !IH. Qed.

Lemma validate_arguments_own limits seen n arguments :
  validate_arguments limits seen n arguments = true →
  validate_arguments limits seen n (map own_header arguments) = true.
Proof.
  revert seen n. induction arguments as [|h l IH]; intros seen n; simpl; [done|].
  destruct (invalidIdentity _ _ || _); [done|]. destruct (bool_decide _); [done|].
  unfold argument_value_bytes. simpl. destruct (_ && _); [done|].
  destruct (header_value_bytes h) as [k|] eqn:Hk; [|done]. rewrite (own_header_value_bytes _ _ Hk).
  destruct (_ >? _); [done|]. apply IH.
Qed.

Lemma validExchangeBinding_own kind key arguments limits :
  validExchangeBindingWithLimits kind key arguments limits = true →
  validExchangeBindingWithLimits kind key (map own_header arguments) limits = true.
Proof.
  unfold validExchangeBindingWithLimits, validBindingArgumentsWithLimits, validHeadersBindingArguments.
  assert (llen (map own_header arguments) = llen arguments) as -> by (unfold llen; by rewrite length_map).
  rewrite binding_match_own. destruct (_ || containsControl key); [done|]. simpl.
  destruct (llen arguments >? _); [done|]. destruct (validate_arguments _ _ _ arguments) eqn:Hv; [|done].
  rewrite (validate_arguments_own _ _ _ _ Hv). simpl. intros H.
  replace (match binding_match "all" arguments with Some m => existsb _ (map own_header arguments) | None => false end)
    with (match binding_match "all" arguments with
          | Some m => existsb (λ argument, negb (Header_Key argument =s "x-match")
              && ((m =s "all-with-x") || (m =s "any-with-x") || negb (HasPrefix (Header_Key argument) "x-"))) arguments
          | None => false end); [exact H|].
  destruct (binding_match "all" arguments); [|done]. clear. by induction arguments as [|h l IH]; simpl; rewrite ?IH.
Qed.

Lemma QueueReference_validate_own reference limits :
  QueueReference_validate reference limits = None →
  QueueReference_validate (mkQueueReference (Reference_Name reference) (Reference_Type reference)
    (Reference_SingleActiveConsumer reference) (option_map own_transient (Reference_Transient reference))) limits = None.
Proof.
  unfold QueueReference_validate. destruct (Reference_Transient reference) as [transient|]; simpl; [|done].
  set (refused := negb (Reference_Name reference =s "") || _ || _ || _ || _).
  destruct refused; simpl; [done|].
  destruct (validExchangeBindingWithLimits _ _ (Transient_Arguments transient) _) eqn:Hv; simpl; [|done].
  by rewrite (validExchangeBinding_own _ _ _ _ Hv).
Qed.

Lemma ConsumerConfig_Validate_own config :
  ConsumerConfig_Validate config = None → ConsumerConfig_Validate (ownConsumerConfig config) = None.
Proof.
  unfold ConsumerConfig_Validate. cbn [ownConsumerConfig Consumer_Limits Consumer_Queue Consumer_Name Consumer_Priority
    Exclusive Prefetch Concurrency HandlerTimeout MaxRequeues Failure Reference_Type Reference_SingleActiveConsumer].
  destruct (Limits_valid (Consumer_Limits config)); [|done].
  destruct (QueueReference_validate (Consumer_Queue config) (Consumer_Limits config)) eqn:Hq; [done|].
  by rewrite (QueueReference_validate_own _ _ Hq).
Qed.

(** ** Handles and passwords *)

(** A handle that was obtained is closed. *)
Definition released (h : handle) : Prop := h = None ∨ h = Some true.

(** The buffer holds nothing of the password. *)
Definition wiped (password : bytes) : Prop :=
  match password with Some l => Forall (λ b, b = x00) l | None => True end.

(** An attempt that came to nothing. *)
Record failed_attempt (a : open_attempt) : Prop := {
  fa_password : wiped (oa_password a);
  fa_channel : released (oa_channel a);
  fa_resource : released (oa_resource a) }.

(** An attempt whose handles went to the caller. *)
Record successful_attempt (a : open_attempt) : Prop := {
  sa_password : wiped (oa_password a);
  sa_channel : oa_channel a = Some false;
  sa_resource : oa_resource a = Some false }.

Lemma wipe_wiped password : wiped (wipe password).
Proof. destruct password as [l|]; simpl; [|done]. by induction l; constructor. Qed.

Lemma closed_released h : released (closed_handle h).
Proof. destruct h; [by right|by left]. Qed.

Create HintDb handles discriminated.
#[export] Hint Resolve wipe_wiped closed_released : handles.

Lemma failed_closed endpoint password channel resource :
  failed_attempt (mkOpenAttempt endpoint (wipe password) (closed_handle channel) (closed_handle resource)).
Proof. split; simpl; auto with handles. Qed.

Lemma failed_none endpoint password : failed_attempt (mkOpenAttempt endpoint (wipe password) None None).
Proof. apply (failed_closed endpoint password None None). Qed.

Lemma failed_no_attempt : failed_attempt no_attempt.
Proof. apply (failed_none None None). Qed.
#[export] Hint Resolve failed_closed failed_none failed_no_attempt : handles.

Lemma announced_attempt (ok : bool) a :
  (if ok then successful_attempt a else failed_attempt a) →
  if ok then successful_attempt (announced a) else failed_attempt (announced a).
Proof. by destruct ok; intros []. Qed.

(** ** The attempt loop *)

Section AttemptLoop.
Context {R : Type} (iterate : nat → Z → open_iteration R) (exhausted : R) (ok : R → bool) (start count : Z).

(** The endpoint of an attempt is the next in rotation. *)
Definition rotates (attempt : nat) (a : open_attempt) : Prop :=
  ∀ e, oa_endpoint a = Some e → e = Z.rem (start + Z.of_nat attempt) count.

Lemma rotates_at attempt password channel resource :
  rotates attempt
    (mkOpenAttempt (Some (recoveryEndpointIndex start (Z.of_nat attempt) count)) password channel resource).
Proof using. intros e. simpl. unfold recoveryEndpointIndex. congruence. Qed.

Definition good_iteration (attempt : nat) (it : open_iteration R) : Prop :=
  match it with
  | OpenReturn result a => (if ok result then successful_attempt a else failed_attempt a) ∧ rotates attempt a
  | OpenNext _ a => failed_attempt a ∧ rotates attempt a
  end.

(** Everything a run of attempts leaves behind. *)
Definition good_run (attempt : nat) (result : R) (run : list open_attempt) : Prop :=
  (∀ i a, run !! i = Some a → rotates (attempt + i) a)
  ∧ if ok result
    then ∃ before final, run = before ++ [final] ∧ (∀ a, a ∈ before → failed_attempt a) ∧ successful_attempt final
    else ∀ a, a ∈ run → failed_attempt a.

Lemma good_run_nil attempt result : ok result = false → good_run attempt result [].
Proof using. intros Hr. split; [by intros i a|]. rewrite Hr. intros a Ha. by apply not_elem_of_nil in Ha. Qed.

Lemma good_run_last attempt result a :
  (if ok result then successful_attempt a else failed_attempt a) → rotates attempt a → good_run attempt result [a].
Proof using.
  intros Ha Hr. split.
  - intros [|i] a'; simpl; [intros [= <-]; by rewrite Nat.add_0_r|by rewrite lookup_nil].
  - destruct (ok result).
    + exists [], a. split_and!; [done| |done]. intros a' Ha'. by apply not_elem_of_nil in Ha'.
    + intros a' ->%list_elem_of_singleton. done.
Qed.

Lemma good_run_cons attempt result a run :
  failed_attempt a → rotates attempt a → good_run (S attempt) result run → good_run attempt result (a :: run).
Proof using.
  intros Ha Hr [Hrot Hrun]. split.
  - intros [|i] a'; simpl; [intros [= <-]; by rewrite Nat.add_0_r|]. intros Hi.
    replace (attempt + S i)%nat with (S attempt + i)%nat by lia. by apply Hrot.
  - destruct (ok result).
    + destruct Hrun as (before & final & -> & Hb & Hf). exists (a :: before), final. split_and!; [done| |done].
      apply forall_cons. by split.
    + apply forall_cons. by split.
Qed.

Lemma attempt_loop_spec fuel attempt delay records :
  ok exhausted = false → (∀ n d, good_iteration n (iterate n d)) →
  ∃ result run, attempt_loop iterate exhausted fuel attempt delay records = (result, records ++ run)
  ∧ (length run <= fuel)%nat ∧ good_run attempt result run.
Proof using.
  intros Hex Hit. revert attempt delay records. induction fuel as [|fuel IH]; intros attempt delay records; simpl.
  { exists exhausted, []. rewrite app_nil_r. split_and!; [done|done|]. by apply good_run_nil. }
  pose proof (Hit attempt delay) as Hgood. destruct (iterate attempt delay) as [result a|delay' a]; destruct Hgood as [Ha Hr].
  - exists result, [a]. split_and!; [done|simpl; lia|]. by apply good_run_last.
  - destruct (IH (S attempt) delay' (records ++ [a])) as (result & run & -> & Hlen & Hrun).
    exists result, (a :: run). rewrite <- app_assoc. split_and!; [done|simpl; lia|]. by apply good_run_cons.
Qed.

(** What a loop without a bound has done when it returns. *)
Lemma endless_loop_good fuel attempt delay records result all :
  (∀ n d, good_iteration n (iterate n d)) →
  endless_loop iterate fuel attempt delay records = Some (result, all) →
  ∃ run, all = records ++ run ∧ good_run attempt result run.
Proof using.
  intros Hit. revert attempt delay records. induction fuel as [|fuel IH]; intros attempt delay records; simpl; [done|].
  pose proof (Hit attempt delay) as Hgood. destruct (iterate attempt delay) as [result' a|delay' a]; destruct Hgood as [Ha Hr].
  - intros [= <- <-]. exists [a]. split; [done|]. by apply good_run_last.
  - unfold nextRecoveryAttempt. replace (Z.to_nat (Z.of_nat attempt + 1)) with (S attempt) by lia.
    intros (run & -> & Hrun)%IH. exists (a :: run). rewrite <- app_assoc. split; [done|]. by apply good_run_cons.
Qed.

(** A loop without a bound of its own returns when no iteration goes on at the last
    attempt, with any fuel that reaches it. *)
Lemma endless_loop_spec maximum fuel attempt delay records :
  (attempt < maximum)%nat → (maximum <= attempt + fuel)%nat →
  (∀ n d, good_iteration n (iterate n d)) →
  (∀ n d d' a, iterate n d = OpenNext d' a → S n ≠ maximum) →
  ∃ result run, endless_loop iterate fuel attempt delay records = Some (result, records ++ run)
  ∧ (attempt + length run <= maximum)%nat ∧ good_run attempt result run.
Proof using.
  intros Hat Hfuel Hit Hfinal. revert attempt delay records Hat Hfuel.
  induction fuel as [|fuel IH]; intros attempt delay records Hat Hfuel; [lia|]. simpl.
  pose proof (Hit attempt delay) as Hgood.
  destruct (iterate attempt delay) as [result a|delay' a] eqn:Hi; destruct Hgood as [Ha Hr].
  - exists result, [a]. split_and!; [done|simpl; lia|]. by apply good_run_last.
  - apply Hfinal in Hi. unfold nextRecoveryAttempt. replace (Z.to_nat (Z.of_nat attempt + 1)) with (S attempt) by lia.
    destruct (IH (S attempt) delay' (records ++ [a])) as (result & run & -> & Hlen & Hrun); [lia..|].
    exists result, (a :: run). rewrite <- app_assoc. split_and!; [done|simpl; lia|]. by apply good_run_cons.
Qed.
End AttemptLoop.

(** ** Producers *)

(** An open that succeeded. *)
Definition opened (result : error + Z) : bool := match result with inr _ => true | inl _ => false end.

Lemma setupProducer_cases event channel resource :
  setupProducerChannel event channel resource = (None, channel, resource)
  ∨ setupProducerChannel event channel resource
    = (Some ErrProducerUnavailable, closed_handle channel, closed_handle resource).
Proof. destruct event as [[e|]|]; simpl; auto. Qed.

Lemma usable_handles channel resource err :
  usableProducerResources (obtained channel) (obtained resource) err = true → channel = true ∧ resource = true.
Proof. unfold usableProducerResources. by destruct (present err), channel, resource. Qed.

Section ProducerClaims.
Context {P : Type} (connection : ConnectionConfig P) (config : ProducerConfig) (scripts : nat → producer_script).

Lemma openProducer_good session n d :
  ProducerConfig_Validate config = None → usableProducerSession session None = true →
  good_iteration opened 0 (llen (Endpoints connection)) n
    (openProducer_iteration connection config scripts session n d).
Proof using.
  intros Hc Hs. unfold openProducer_iteration. destruct (ps_context (scripts n)).
  { split; [apply failed_no_attempt|done]. }
  assert (let '(result, a) := openProducer_attempt connection config session (Z.of_nat n) (scripts n) in
    (if present result then successful_attempt a else failed_attempt a) ∧ rotates 0 (llen (Endpoints connection)) n a) as H.
  { unfold openProducer_attempt. destruct (ps_credentials (scripts n)) as [credentials credentialErr].
    destruct (usableCredentials credentials credentialErr); cbn [negb]; [|split; [apply failed_none|done]].
    destruct (ps_dial (scripts n)) as [[channel resource] dialErr]. cbv zeta.
    destruct (usableProducerResources (obtained channel) (obtained resource) dialErr) eqn:Hu; [|split; [apply failed_closed|apply rotates_at]].
    apply usable_handles in Hu as [-> ->]. unfold newProducerFromChannelWithRecovery, producerInputsPresent. simpl.
    rewrite Hc. unfold usableProducerSession in Hs. simpl in Hs. rewrite Hs. simpl.
    destruct (setupProducer_cases (ps_confirm (scripts n)) (Some false) (Some false)) as [-> | ->]; simpl;
      (split; [|apply rotates_at]); [by split; simpl; auto with handles|].
    apply (failed_closed _ _ (Some false) (Some false)). }
  destruct (openProducer_attempt _ _ _ _ _) as [[next|] a]; [done|].
  destruct (finalRecoveryAttempt _ _); [done|]. by destruct (ps_wait (scripts n)).
Qed.

(** The iteration of the last attempt ends the loop. *)
Lemma openProducer_final session n d d' a :
  openProducer_iteration connection config scripts session n d = OpenNext d' a →
  Z.of_nat (S n) ≠ RecoveryPolicy_MaxAttempts (Recovery connection).
Proof using.
  unfold openProducer_iteration, finalRecoveryAttempt. intros H. destruct (ps_context _); [done|].
  destruct (openProducer_attempt _ _ _ _ _) as [[next|] record]; [done|]. destruct (_ =? _) eqn:E; [done|]. lia.
Qed.

Lemma recoverProducer_good nextEndpoint n d :
  good_iteration (@present Z) nextEndpoint (llen (Endpoints connection)) n
    (recoverProducer_iteration connection scripts nextEndpoint n d).
Proof using.
  unfold recoverProducer_iteration. destruct (ps_context (scripts n)).
  { split; [apply failed_no_attempt|done]. }
  destruct (_ && present (ps_wait (scripts n))).
  { split; [apply failed_no_attempt|done]. }
  assert (let '(result, a) := recoverProducer_attempt connection nextEndpoint (Z.of_nat n) (scripts n) in
    (if present (default None result) then successful_attempt a else failed_attempt a)
    ∧ rotates nextEndpoint (llen (Endpoints connection)) n a) as H.
  { unfold recoverProducer_attempt. destruct (ps_credentials (scripts n)) as [credentials credentialErr].
    destruct (usableCredentials credentials credentialErr); cbn [negb]; [|split; [apply failed_none|done]].
    destruct (ps_session (scripts n)) as [session sessionErr].
    destruct (usableProducerSession session sessionErr); cbn [negb]; [|split; [apply failed_none|done]].
    destruct (ps_dial (scripts n)) as [[channel resource] dialErr]. cbv zeta.
    destruct (usableProducerResources (obtained channel) (obtained resource) dialErr) eqn:Hu; cbn [negb]; [|split; [apply failed_closed|apply rotates_at]].
    apply usable_handles in Hu as [-> ->].
    destruct (setupProducer_cases (ps_confirm (scripts n)) (obtained true) (obtained true)) as [-> | ->].
    - destruct (ps_closed (scripts n)); (split; [|apply rotates_at]); [apply failed_closed|].
      split; simpl; auto with handles.
    - split; [apply failed_closed|apply rotates_at]. }
  destruct (recoverProducer_attempt _ _ _ _) as [result a]. destruct H as [H Hr]. apply announced_attempt in H.
  destruct result as [[next|]|]; by split.
Qed.
End ProducerClaims.

(** ** Consumers *)

(** The queue a set-up consumes from: the one the broker named, or the configured. *)
Definition setup_queue (config : ConsumerConfig) (s : setup_script) : string :=
  match Reference_Transient (Consumer_Queue config) with
  | Some _ => setup_declared (ss_queue s)
  | None => Reference_Name (Consumer_Queue config)
  end.

(** The calls of a complete set-up. *)
Definition setup_plan (config : ConsumerConfig) (queue : string) : list setup_call :=
  match Reference_Transient (Consumer_Queue config) with
  | Some transient => [exchange_check transient; transient_declare; transient_bind transient queue]
  | None => []
  end ++ [qos_call config; consume_call config queue].

(** A set-up makes an initial part of the planned calls; it succeeds only after
    all of them, with its handles open, and otherwise closes both. *)
Definition setup_ok (config : ConsumerConfig) (s : setup_script) (err : option error) (st : setup_state) : Prop :=
  su_calls st `prefix_of` setup_plan config (setup_queue config s)
  ∧ match err with
    | None => su_calls st = setup_plan config (setup_queue config s)
        ∧ su_channel st = Some false ∧ su_resource st = Some false
    | Some err => err = ErrConsumerUnavailable ∧ su_channel st = Some true ∧ su_resource st = Some true
    end.

Lemma setupConsumerGeneration_ok config s :
  let '(err, st) := setupConsumerGeneration config s (Some false) (Some false) in setup_ok config s err st.
Proof.
  unfold setupConsumerGeneration, setup_ok, setup_plan, setup_queue.
  destruct (Reference_Transient (Consumer_Queue config)) as [transient|].
  - unfold setupTransientQueue, boundedConsumerSetup, setup_declared.
    destruct (ss_exchange s) as [[e|] checked|]; [by split; [eexists|]| |by split; [eexists|]].
    destruct (ss_queue s) as [[e|] declared|]; [by split; [eexists|]| |by split; [eexists|]].
    destruct (invalidIdentity declared 255); [by split; [eexists|]|].
    destruct (ss_bind s) as [[e|] ?|]; [by split; [eexists|]| |by split; [eexists|]].
    destruct (ss_qos s) as [[e|] ?|]; [by split; [eexists|]| |by split; [eexists|]].
    destruct (ss_cancellations s); [|by split; [eexists|]].
    destruct (ss_consume s) as [[e|] ?|]; [by split; [eexists|]| |by split; [eexists|]].
    by destruct (ss_deliveries s).
  - unfold boundedConsumerSetup.
    destruct (ss_qos s) as [[e|] ?|]; [by split; [eexists|]| |by split; [eexists|]].
    destruct (ss_cancellations s); [|by split; [eexists|]].
    destruct (ss_consume s) as [[e|] ?|]; [by split; [eexists|]| |by split; [eexists|]].
    by destruct (ss_deliveries s).
Qed.

Lemma usable_consumer_handles channel resource err :
  usableConsumerResources (obtained channel) (obtained resource) err = true → channel = true ∧ resource = true.
Proof. unfold usableConsumerResources. by destruct (present err), channel, resource. Qed.

Section ConsumerClaims.
Context {P : Type} (connection : ConnectionConfig P) (config : ConsumerConfig) (scripts : nat → consumer_script).

(** The attempt of a set-up: its handles are open exactly when it succeeded. *)
Lemma setup_attempt endpoint password s err st config' :
  setup_ok config' s err st →
  if present err then failed_attempt (mkOpenAttempt endpoint (wipe password) (su_channel st) (su_resource st))
  else successful_attempt (mkOpenAttempt endpoint (wipe password) (su_channel st) (su_resource st)).
Proof using.
  intros [_ H]. destruct err; simpl; destruct H as (_ & -> & ->).
  - apply (failed_closed _ _ (Some false) (Some false)).
  - split; simpl; auto with handles.
Qed.

Lemma openConsumer_good n d :
  ConsumerConfig_Validate config = None →
  good_iteration opened 0 (llen (Endpoints connection)) n (openConsumer_iteration connection config scripts n d).
Proof using.
  intros Hc. unfold openConsumer_iteration. destruct (cs_context (scripts n)).
  { split; [apply failed_no_attempt|done]. }
  assert (let '(result, a) := openConsumer_attempt connection config (Z.of_nat n) (scripts n) in
    (if present result then successful_attempt a else failed_attempt a)
    ∧ rotates 0 (llen (Endpoints connection)) n a) as H.
  { unfold openConsumer_attempt. destruct (cs_credentials (scripts n)) as [credentials credentialErr].
    destruct (usableCredentials credentials credentialErr); cbn [negb]; [|split; [apply failed_none|done]].
    destruct (cs_dial (scripts n)) as [[channel resource] dialErr]. cbv zeta.
    destruct (usableConsumerResources (obtained channel) (obtained resource) dialErr) eqn:Hu;
      [|split; [apply failed_closed|apply rotates_at]].
    apply usable_consumer_handles in Hu as [-> ->]. unfold newConsumerFromChannelWithRecovery, acceptedConsumerConfig.
    rewrite Hc. cbn [negb present consumerInputsPresent obtained andb].
    pose proof (setupConsumerGeneration_ok (ownConsumerConfig config) (cs_setup (scripts n))) as Hsetup.
    destruct (setupConsumerGeneration _ _ _ _) as [err st].
    apply (setup_attempt (Some (recoveryEndpointIndex 0 (Z.of_nat n) (llen (Endpoints connection))))
      (Credentials_Password credentials)) in Hsetup. destruct err; by split; [|apply rotates_at]. }
  destruct (openConsumer_attempt _ _ _ _) as [[next|] a]; [done|].
  destruct (finalRecoveryAttempt _ _); [done|]. by destruct (cs_wait (scripts n)).
Qed.

Lemma recoverConsumer_good nextEndpoint n d :
  good_iteration (@present Z) nextEndpoint (llen (Endpoints connection)) n
    (recoverConsumer_iteration connection config scripts nextEndpoint n d).
Proof using.
  unfold recoverConsumer_iteration. destruct (cs_context (scripts n)).
  { split; [apply failed_no_attempt|done]. }
  destruct (_ && present (cs_wait (scripts n))).
  { split; [apply failed_no_attempt|done]. }
  assert (let '(result, a) := recoverConsumer_attempt connection config nextEndpoint (Z.of_nat n) (scripts n) in
    (if present (default None result) then successful_attempt a else failed_attempt a)
    ∧ rotates nextEndpoint (llen (Endpoints connection)) n a) as H.
  { unfold recoverConsumer_attempt. destruct (cs_credentials (scripts n)) as [credentials credentialErr].
    destruct (usableCredentials credentials credentialErr); cbn [negb]; [|split; [apply failed_none|done]].
    destruct (cs_dial (scripts n)) as [[channel resource] dialErr]. cbv zeta.
    destruct (usableConsumerResources (obtained channel) (obtained resource) dialErr) eqn:Hu; cbn [negb];
      [|split; [apply failed_closed|apply rotates_at]].
    apply usable_consumer_handles in Hu as [-> ->]. cbn [obtained].
    pose proof (setupConsumerGeneration_ok config (cs_setup (scripts n))) as Hsetup.
    destruct (setupConsumerGeneration _ _ _ _) as [err st].
    apply (setup_attempt (Some (recoveryEndpointIndex nextEndpoint (Z.of_nat n) (llen (Endpoints connection))))
      (Credentials_Password credentials)) in Hsetup.
    destruct (present err); [split; [done|apply rotates_at]|].
    destruct (cs_stopping (scripts n)); (split; [|apply rotates_at]); [|done].
    apply (failed_closed _ _ (Some false) (Some false)). }
  destruct (recoverConsumer_attempt _ _ _ _ _) as [result a]. destruct H as [H Hr]. apply announced_attempt in H.
  destruct result as [[next|]|]; by split.
Qed.
End ConsumerClaims.

(** ** Runs of the four loops *)

Section OpenClaims.
Context {P : Type} (connection : ConnectionConfig P).
Hypothesis Hconnection : ConnectionConfig_Validate connection = None.
Abbreviation maximum := (RecoveryPolicy_MaxAttempts (Recovery connection)).
Abbreviation count := (llen (Endpoints connection)).

Lemma maximum_nonneg : 0 <= maximum.
Proof using Hconnection. pose proof (proj1 (ConnectionConfig_Validate_valid _) Hconnection) as []. lia. Qed.

(** The loop with the configured number of attempts as fuel. *)
Lemma attempt_loop_run {R} (iterate : nat → Z → open_iteration R) exhausted ok start delay :
  ok exhausted = false → (∀ n d, good_iteration ok start count n (iterate n d)) →
  ∃ result run, attempt_loop iterate exhausted (Z.to_nat maximum) 0 delay [] = (result, run)
  ∧ Z.of_nat (length run) <= maximum ∧ good_run ok start count 0 result run.
Proof using Hconnection.
  intros Hex Hit. pose proof maximum_nonneg.
  destruct (attempt_loop_spec iterate exhausted ok start count (Z.to_nat maximum) 0 delay [] Hex Hit)
    as (result & run & Heq & Hlen & Hrun).
  exists result, run. split_and!; [exact Heq|lia|done].
Qed.

Lemma openProducerWith_good fuel config session sessionErr scripts result run :
  ProducerConfig_Validate config = None →
  openProducerWith fuel true connection config (Some (session, sessionErr)) true scripts = Some (result, run) →
  good_run opened 0 count 0 result run.
Proof using Hconnection.
  intros Hp. unfold openProducerWith. rewrite Hconnection, Hp. simpl.
  destruct (usableProducerSession session sessionErr) eqn:Hs; simpl; [|intros [= <- <-]; by apply good_run_nil].
  intros Heq. eapply (endless_loop_good _ _ 0 count) in Heq as (run' & -> & Hrun); [exact Hrun|].
  intros n d. apply (openProducer_good (ownConnectionConfig connection)); [done|]. by destruct sessionErr.
Qed.

Lemma openProducerWith_run fuel config session sessionErr scripts :
  ProducerConfig_Validate config = None → maximum <= Z.of_nat fuel →
  ∃ result run, openProducerWith fuel true connection config (Some (session, sessionErr)) true scripts = Some (result, run)
  ∧ Z.of_nat (length run) <= maximum ∧ good_run opened 0 count 0 result run.
Proof using Hconnection.
  intros Hp Hfuel. unfold openProducerWith. rewrite Hconnection, Hp. simpl.
  pose proof (proj1 (ConnectionConfig_Validate_valid _) Hconnection) as [].
  destruct (usableProducerSession session sessionErr) eqn:Hs; simpl.
  - destruct (endless_loop_spec (openProducer_iteration (ownConnectionConfig connection) config scripts session) opened 0 count
      (Z.to_nat maximum) fuel 0 (RecoveryPolicy_InitialDelay (Recovery (ownConnectionConfig connection))) [])
      as (result & run & Heq & Hlen & Hrun); [lia|lia| | |].
    + intros n d. apply (openProducer_good (ownConnectionConfig connection)); [done|]. by destruct sessionErr.
    + intros n d d' a Hi%openProducer_final. simpl in Hi. lia.
    + exists result, run. split_and!; [exact Heq|lia|done].
  - exists (inl ErrProducerUnavailable), []. split_and!; [done|simpl; lia|by apply good_run_nil].
Qed.

Lemma recoverProducer_run scripts nextEndpoint :
  ∃ result run, Producer_recoverRuntime (Some (connection, nextEndpoint)) scripts = (result, run)
  ∧ Z.of_nat (length run) <= maximum ∧ good_run present nextEndpoint count 0 result run.
Proof using Hconnection. apply attempt_loop_run; [done|]. intros n d. apply recoverProducer_good. Qed.

Lemma openConsumerWith_run config scripts :
  ConsumerConfig_Validate config = None →
  ∃ result run, openConsumerWith true connection config true true scripts = (result, run)
  ∧ Z.of_nat (length run) <= maximum ∧ good_run opened 0 count 0 result run.
Proof using Hconnection.
  intros Hp. unfold openConsumerWith. rewrite Hconnection, Hp. cbn [negb].
  apply attempt_loop_run; [done|]. intros n d.
  apply (openConsumer_good (ownConnectionConfig connection)). by apply ConsumerConfig_Validate_own.
Qed.

Lemma recoverConsumer_run config scripts nextEndpoint :
  ∃ result run, Consumer_recoverRuntime (Some (connection, nextEndpoint)) config scripts = (result, run)
  ∧ Z.of_nat (length run) <= maximum ∧ good_run present nextEndpoint count 0 result run.
Proof using Hconnection. apply attempt_loop_run; [done|]. intros n d. apply recoverConsumer_good. Qed.

(** ** Claims *)

(** C25: opening and recovering a producer terminate and leak nothing.  The loop of
    [openProducerWith] has no bound of its own, yet with as many iterations as the
    policy allows attempts, and with any number more, it has returned; so has
    [recoverRuntime].  Both make no more attempts than configured, on endpoints in
    rotation; every attempt overwrites its password buffer; every attempt but a final
    successful one has closed the channel and the connection it got; and a success
    leaves both open. *)
Theorem producer_open_safe fuel config session sessionErr scripts nextEndpoint :
  ProducerConfig_Validate config = None → maximum <= Z.of_nat fuel →
  (∃ result run,
     openProducerWith fuel true connection config (Some (session, sessionErr)) true scripts = Some (result, run)
     ∧ Z.of_nat (length run) <= maximum ∧ good_run opened 0 (llen (Endpoints connection)) 0 result run)
  ∧ ∃ result run, Producer_recoverRuntime (Some (connection, nextEndpoint)) scripts = (result, run)
     ∧ Z.of_nat (length run) <= maximum ∧ good_run present nextEndpoint (llen (Endpoints connection)) 0 result run.
Proof using Hconnection. intros Hp Hf. split; [by apply openProducerWith_run|apply recoverProducer_run]. Qed.

(** C26: opening and recovering a consumer terminate and leak nothing: both end
    within the configured attempts, on endpoints in rotation; every attempt
    overwrites its password buffer; every attempt but a final successful one has
    closed the channel and the connection it got, whichever set-up call failed;
    and a success leaves both open.  A generation is set up by the passive check,
    the declaration and the binding of its transient queue if it has one, its QoS
    and its consume call, in this order, stopping at the first that fails. *)
Theorem consumer_open_safe config scripts nextEndpoint :
  ConsumerConfig_Validate config = None →
  (∀ s, let '(err, st) := setupConsumerGeneration config s (Some false) (Some false) in setup_ok config s err st)
  ∧ (∃ result run, openConsumerWith true connection config true true scripts = (result, run)
     ∧ Z.of_nat (length run) <= maximum ∧ good_run opened 0 (llen (Endpoints connection)) 0 result run)
  ∧ ∃ result run, Consumer_recoverRuntime (Some (connection, nextEndpoint)) config scripts = (result, run)
     ∧ Z.of_nat (length run) <= maximum ∧ good_run present nextEndpoint (llen (Endpoints connection)) 0 result run.
Proof using Hconnection.
  intros Hp. split_and!; [apply setupConsumerGeneration_ok|by apply openConsumerWith_run|apply recoverConsumer_run].
Qed.
End OpenClaims.

(** ** Concrete runs *)

Definition example_open_connection : ConnectionConfig unit :=
  mkConnectionConfig unit [mkEndpoint "mq-1" 5671; mkEndpoint "mq-2" 5671] "/" (Some ())
    (mkTLSConfig "mq" [] None None) (5 * Second) (10 * Second)
    (mkRecoveryPolicy 3 (100 * Millisecond) Second).

Definition example_open_credentials : Credentials := mkCredentials "app" (Some [x73; x65]).

(** A dial that fails with a half-open connection, then one that succeeds. *)
Definition example_producer_scripts (attempt : nat) : producer_script :=
  mkProducerScript None None (example_open_credentials, None) ("session", None)
    (match attempt with O => (false, true, Some ErrProducerUnavailable) | S _ => (true, true, None) end)
    (ConfirmReturned None) false.

Definition example_setup : setup_script :=
  mkSetupScript (SetupReturned None EmptyString) (SetupReturned None "amq.gen-1") (SetupReturned None EmptyString)
    (SetupReturned None EmptyString) true (SetupReturned None EmptyString) true.

(** A set-up whose QoS call expires, then one that succeeds. *)
Definition example_consumer_scripts (attempt : nat) : consumer_script :=
  mkConsumerScript None None (example_open_credentials, None) (true, true, None)
    (match attempt with
     | O => mkSetupScript SetupExpired SetupExpired SetupExpired SetupExpired true SetupExpired true
     | S _ => example_setup
     end) false.

Lemma producer_open_safe_witness :
  ∃ run, openProducerWith 3 true example_open_connection example_producer_config (Some ("session", None)) true
    example_producer_scripts = Some (inr 2, run)
  ∧ Z.of_nat (length run) <= 3 ∧ good_run opened 0 2 0 (inr 2) run.
Proof.
  destruct (producer_open_safe example_open_connection eq_refl 3 example_producer_config "session" None
    example_producer_scripts 1 eq_refl ltac:(done)) as [(result & run & Hrun & Hlen & Hgood) _].
  assert (result = inr 2) as -> by (vm_compute in Hrun; congruence).
  exact (ex_intro _ run (conj Hrun (conj Hlen Hgood))).
Defined.

Lemma consumer_open_safe_witness :
  ∃ run, openConsumerWith true example_open_connection example_consumer true true example_consumer_scripts = (inr 2, run)
  ∧ Z.of_nat (length run) <= 3 ∧ good_run opened 0 2 0 (inr 2) run.
Proof.
  destruct (consumer_open_safe example_open_connection eq_refl example_consumer
    example_consumer_scripts 1 eq_refl) as (_ & (result & run & Hrun & Hlen & Hgood) & _).
  assert (result = inr 2) as -> by (vm_compute in Hrun; congruence).
  exact (ex_intro _ run (conj Hrun (conj Hlen Hgood))).
Defined.
