(* ===== verification/Dial.v ===== *)
(** * Dial: the connection behind a producer, a consumer or a topology

    The dialling half of producer_open.go, consumer_open.go and topology_apply.go,
    with amqp_client.go and channel_open.go: the TLS configuration, the client's
    configuration and address, the bounded network dial, the bounded opening of a
    channel, and the three dials made of them.

    The operating system's roots, the PEM and key-pair parsers, the client's
    handshake and its channel call are outside the package: types and functions of
    the section, and a script per dial, in which the handshake is a function of the
    address and the configuration it is given.  A dial returns those with its result,
    so that what reaches the client is visible.  The class [Dialler] states what an attempt
    loop relies on: a dial that does not return its connection has closed it. *)

From S2P Require Import Prelude GoText Errors Config Amqp Message Topology Settlement Delivery Observation.
From S2P Require Import Producer Consumer Open.

(** ** Addresses *)

(** What [net/url] leaves unescaped in a host. *)
Definition host_literal (c : Z) : bool :=
  within 97 122 c || within 65 90 c || within 48 57 c
  || existsb (Z.eqb c) (codes "!$&'()*+,;=:[]<>-_.~") || (c =? 34).

Definition upper_hex (z : Z) : Z := if z <? 10 then 48 + z else 55 + z.

Definition escape_host (l : list Z) : list Z :=
  flat_map (λ c, if host_literal c then [c] else [37; upper_hex (c / 16); upper_hex (c mod 16)]) l.

(** [net.JoinHostPort] *)
Definition JoinHostPort (host port : string) : string :=
  if existsb (Z.eqb 58) (codes host) then "[" +:+ host +:+ "]:" +:+ port else host +:+ ":" +:+ port.

(** [(&url.URL{Scheme: scheme, Host: host}).String()], with neither empty. *)
Definition url_string (scheme host : string) : string :=
  scheme +:+ "://" +:+ of_codes (escape_host (codes host)).

(** The address of [buildAMQPClientConfig]. *)
Definition amqp_address (endpoint : Endpoint) : string :=
  url_string "amqps" (JoinHostPort (Endpoint_Host endpoint) (FormatInt (Endpoint_Port endpoint))).

(** ** Sockets and channels *)

(** [boundedNetworkDial]: the dial's error, whether the context has a deadline and
    the error of setting it; the result with the state of the socket. *)
Definition boundedNetworkDial (dialErr : option error) (deadline : bool) (setErr : option error)
    : option error * handle :=
  match dialErr with
  | Some err => (Some err, None)
  | None =>
    return_if negb deadline, (Some ErrProducerUnavailable, closed_handle (Some false)) ;;
    return_if present setErr, (Some ErrProducerUnavailable, closed_handle (Some false)) ;;
    (None, Some false)
  end.

(** [boundedAMQPChannel]: the context's error before the call, the call's channel
    and error, the context's error after it; [client] is the connection.  The
    callback of the context closes the connection only if the context has ended,
    in which case the code closes it again. *)
Definition boundedAMQPChannel (before : option error) (call : bool * option error) (after : option error)
    (client : handle) : bool * option error * handle :=
  match before with
  | Some err => (false, Some err, closed_handle client)
  | None =>
    let '(channel, err) := call in
    match after with
    | Some contextErr => (false, Some contextErr, closed_handle client)
    | None => (channel, err, client)
    end
  end.

(** What a dial returns: its channel, its connection and its error, with the state
    of the connection it made. *)
Record dial_outcome := mkDialOutcome {
  do_channel : bool;
  do_resource : bool;
  do_err : option error;
  do_client : handle }.

Definition dial_failed (err : error) (client : handle) : dial_outcome := mkDialOutcome false false (Some err) client.

Definition usableAMQPConnection (client : bool) (err : option error) : bool := negb (present err) && client.
Definition usableAMQPChannel (channel : bool) (err : option error) : bool := channel && negb (present err).

(** ** TLS and the client's configuration *)

Definition VersionTLS12 : Z := 0x0303.

Section Dials.
Context {Pool Certificate : Type} (newCertPool : Pool) (appendCertsFromPEM : Pool → list byte → option Pool)
  (x509KeyPair : bytes → bytes → option Certificate).

Record tls_config := mkClientTLS {
  tls_MinVersion : Z;
  tls_ServerName : string;
  tls_RootCAs : Pool;
  tls_Certificates : list Certificate }.

(** The loop over the configured roots; [None] when one of them is refused. *)
Fixpoint append_roots (roots : Pool) (configured : list bytes) : option Pool :=
  match configured with
  | [] => Some roots
  | root :: configured =>
    return_if blen root =? 0, None ;;
    match appendCertsFromPEM roots (default [] root) with
    | None => None
    | Some roots => append_roots roots configured
    end
  end.

(** [buildTLSConfigWithSystemRoots]: [systemRoots] is the pool of the operating
    system, which may be nil, or an error. *)
Definition buildTLSConfigWithSystemRoots (config : TLSConfig) (systemRoots : error + option Pool)
    : error + tls_config :=
  match systemRoots with
  | inl _ => inl ErrInvalidTLS
  | inr roots =>
    match append_roots (default newCertPool roots) (TLSConfig_RootCAs config) with
    | None => inl ErrInvalidTLS
    | Some roots =>
      if blen (TLSConfig_ClientCertificate config) >? 0 then
        match x509KeyPair (TLSConfig_ClientCertificate config) (TLSConfig_ClientPrivateKey config) with
        | None => inl ErrInvalidTLS
        | Some certificate =>
          inr (mkClientTLS VersionTLS12 (TLSConfig_ServerName config) roots [certificate])
        end
      else inr (mkClientTLS VersionTLS12 (TLSConfig_ServerName config) roots [])
    end
  end.

(** The client's configuration: plain authentication, virtual host, heartbeat, TLS
    and the timeout of the network dial. *)
Record amqp_config := mkAmqpConfig {
  ac_Username : string;
  ac_Password : list byte;
  ac_Vhost : string;
  ac_Heartbeat : Z;
  ac_TLS : tls_config;
  ac_DialTimeout : Z }.

(** A call of the client's dial: its address and configuration. *)
Definition native_call : Type := string * amqp_config.

(** What a dial meets: the system's roots, whether the context has a deadline, the
    client's handshake, the context before and after the channel call, the call,
    and whether the channel has the methods its user needs. *)
Record dial_script := mkDialScript {
  dl_systemRoots : error + option Pool;
  dl_deadline : bool;
  dl_native : string → amqp_config → bool * option error;
  dl_before : option error;
  dl_call : bool * option error;
  dl_after : option error;
  dl_asserted : bool }.

(** [dialAMQPConnectionWithNative]: whether a connection is returned, the error, the
    state of the connection, and the calls of the client's dial. *)
Definition dialAMQPConnectionWithNative (native : string → amqp_config → bool * option error)
    (address : string) (config : amqp_config) : bool * option error * handle * list native_call :=
  let '(connection, err) := native address config in
  let calls := [(address, config)] in
  let owned := obtained connection in
  match err with
  | Some _ => (false, Some ErrProducerUnavailable, closed_handle owned, calls)
  | None =>
    match owned with
    | None => (false, Some ErrProducerUnavailable, None, calls)
    | Some _ => (true, None, owned, calls)
    end
  end.

Context {P : Type} (endpoint : Endpoint) (connection : ConnectionConfig P) (credentials : Credentials).

Definition buildAMQPClientConfig (s : dial_script) : error + (string * amqp_config) :=
  match buildTLSConfigWithSystemRoots (TLS connection) (dl_systemRoots s) with
  | inl _ => inl ErrProducerUnavailable
  | inr tls =>
    return_if negb (dl_deadline s), inl ErrProducerUnavailable ;;
    inr (amqp_address endpoint,
         mkAmqpConfig (Credentials_Username credentials) (default [] (Credentials_Password credentials))
           (VirtualHost connection) (Heartbeat connection) tls (DialTimeout connection))
  end.

(** [openAMQPConnectionWithContext] over the native dial. *)
Definition openAMQPConnectionWithContext (s : dial_script) (address : string) (config : amqp_config)
    : dial_outcome * list native_call :=
  let '(returned, err, client, calls) := dialAMQPConnectionWithNative (dl_native s) address config in
  match err with
  | Some _ => (dial_failed ErrProducerUnavailable (if returned then closed_handle client else client), calls)
  | None =>
    return_if negb returned, (dial_failed ErrProducerUnavailable client, calls) ;;
    let '(channel, err, client) := boundedAMQPChannel (dl_before s) (dl_call s) (dl_after s) client in
    return_if present err, (dial_failed ErrProducerUnavailable (closed_handle client), calls) ;;
    (mkDialOutcome channel true None client, calls)
  end.

(** [dialAMQPProducerWith] *)
Definition dialAMQPProducer (s : dial_script) : dial_outcome * list native_call :=
  match buildAMQPClientConfig s with
  | inl _ => (dial_failed ErrProducerUnavailable None, [])
  | inr (address, config) =>
    let '(o, calls) := openAMQPConnectionWithContext s address config in
    return_if present (do_err o), (dial_failed ErrProducerUnavailable (do_client o), calls) ;;
    (mkDialOutcome (do_channel o) (do_resource o) None (do_client o), calls)
  end.

(** [openAMQPConsumerConnectionWithContext] over the native dial. *)
Definition openAMQPConsumerConnectionWithContext (s : dial_script) (address : string) (config : amqp_config)
    : dial_outcome * list native_call :=
  let '(returned, err, client, calls) := dialAMQPConnectionWithNative (dl_native s) address config in
  return_if negb (usableAMQPConnection returned err),
    (dial_failed ErrConsumerUnavailable (if returned then closed_handle client else client), calls) ;;
  let '(channel, err, client) := boundedAMQPChannel (dl_before s) (dl_call s) (dl_after s) client in
  return_if present err, (dial_failed ErrConsumerUnavailable (closed_handle client), calls) ;;
  return_if negb channel, (dial_failed ErrConsumerUnavailable (closed_handle client), calls) ;;
  return_if negb (dl_asserted s), (dial_failed ErrConsumerUnavailable (closed_handle client), calls) ;;
  (mkDialOutcome true true None client, calls).

(** [dialAMQPConsumerWith] *)
Definition dialAMQPConsumer (s : dial_script) : dial_outcome * list native_call :=
  match buildAMQPClientConfig s with
  | inl _ => (dial_failed ErrConsumerUnavailable None, [])
  | inr (address, config) => openAMQPConsumerConnectionWithContext s address config
  end.

(** [openAMQPTopologyConnectionWithContext] over the native dial. *)
Definition openAMQPTopologyConnectionWithContext (s : dial_script) (address : string) (config : amqp_config)
    : dial_outcome * list native_call :=
  let '(returned, err, client, calls) := dialAMQPConnectionWithNative (dl_native s) address config in
  return_if present err || negb returned,
    (dial_failed ErrTopologyUnavailable (if returned then closed_handle client else client), calls) ;;
  let '(channel, err, client) := boundedAMQPChannel (dl_before s) (dl_call s) (dl_after s) client in
  return_if negb (usableAMQPChannel channel err), (dial_failed ErrTopologyUnavailable (closed_handle client), calls) ;;
  return_if negb (dl_asserted s), (dial_failed ErrTopologyUnavailable (closed_handle client), calls) ;;
  (mkDialOutcome true true None client, calls).

(** [dialAMQPTopologyWith] *)
Definition dialAMQPTopology (s : dial_script) : dial_outcome * list native_call :=
  match buildAMQPClientConfig s with
  | inl _ => (dial_failed ErrTopologyUnavailable None, [])
  | inr (address, config) => openAMQPTopologyConnectionWithContext s address config
  end.
End Dials.
Arguments tls_config : clear implicits.
Arguments amqp_config : clear implicits.
Arguments native_call : clear implicits.
Arguments dial_script : clear implicits.

(** ** The interface of a dial *)

Inductive role := DialProducer | DialConsumer | DialTopology.

Definition unavailable (r : role) : error :=
  match r with
  | DialProducer => ErrProducerUnavailable
  | DialConsumer => ErrConsumerUnavailable
  | DialTopology => ErrTopologyUnavailable
  end.

(** What an attempt loop relies on: the connection of a dial is open when the dial
    returns it and released when it does not; an error is the sanitized one of its
    user and comes with neither a channel nor a connection. *)
Class Dialler (r : role) (S : Type) := {
  dial : Endpoint → Credentials → S → dial_outcome;
  dial_owned e c s :
    if do_resource (dial e c s) then do_client (dial e c s) = Some false else released (do_client (dial e c s));
  dial_error e c s err :
    do_err (dial e c s) = Some err →
    err = unavailable r ∧ do_channel (dial e c s) = false ∧ do_resource (dial e c s) = false }.
Arguments dial {r S _} e c s.

(** What the loops of [Open] see of a dial. *)
Definition dial_result (o : dial_outcome) : bool * bool * option error := (do_channel o, do_resource o, do_err o).

Lemma released_none : released None.
Proof. by left. Qed.
Lemma released_closed : released (Some true).
Proof. by right. Qed.
#[export] Hint Resolve released_none released_closed : handles.

Section Ownership.
Context {Pool Certificate : Type} (newCertPool : Pool) (appendCertsFromPEM : Pool → list byte → option Pool)
  (x509KeyPair : bytes → bytes → option Certificate) {P : Type} (connection : ConnectionConfig P).

Abbreviation producer_dial := (λ e c, dialAMQPProducer newCertPool appendCertsFromPEM x509KeyPair e connection c).
Abbreviation consumer_dial := (λ e c, dialAMQPConsumer newCertPool appendCertsFromPEM x509KeyPair e connection c).
Abbreviation topology_dial := (λ e c, dialAMQPTopology newCertPool appendCertsFromPEM x509KeyPair e connection c).

(** A pool with the certificates of some PEM blocks on top of another. *)
Inductive adds_roots : Pool → list bytes → Pool → Prop :=
| adds_none pool : adds_roots pool [] pool
| adds_root pool block rest pool' pool'' :
    0 < blen block → appendCertsFromPEM pool (default [] block) = Some pool' → adds_roots pool' rest pool'' →
    adds_roots pool (block :: rest) pool''.

(** A call of the client that is what the caller configured: the endpoint's address,
    the credentials, the virtual host, TLS of at least version 1.2 for the configured
    server, with the configured roots on top of the system's and the client
    certificate if there is one. *)
Record secured (e : Endpoint) (c : Credentials) (s : dial_script Pool Certificate)
    (call : native_call Pool Certificate) : Prop := {
  se_address : call.1 = amqp_address e;
  se_username : ac_Username call.2 = Credentials_Username c;
  se_password : ac_Password call.2 = default [] (Credentials_Password c);
  se_vhost : ac_Vhost call.2 = VirtualHost connection;
  se_heartbeat : ac_Heartbeat call.2 = Heartbeat connection;
  se_timeout : ac_DialTimeout call.2 = DialTimeout connection;
  se_version : 0x0303 <= tls_MinVersion (ac_TLS call.2);
  se_server : tls_ServerName (ac_TLS call.2) = TLSConfig_ServerName (TLS connection);
  se_roots : ∃ system, dl_systemRoots s = inr system
    ∧ adds_roots (default newCertPool system) (TLSConfig_RootCAs (TLS connection)) (tls_RootCAs (ac_TLS call.2));
  se_certificates :
    if decide (blen (TLSConfig_ClientCertificate (TLS connection)) = 0) then tls_Certificates (ac_TLS call.2) = []
    else ∃ certificate, x509KeyPair (TLSConfig_ClientCertificate (TLS connection))
           (TLSConfig_ClientPrivateKey (TLS connection)) = Some certificate
         ∧ tls_Certificates (ac_TLS call.2) = [certificate] }.

(** What a dial does: it calls the client at most once, and only with a secured
    call; it returns the open connection this call made, after a channel call within
    the context, or it failed and released what it made. *)
Definition dial_ok (r : role) (e : Endpoint) (c : Credentials) (s : dial_script Pool Certificate)
    (result : dial_outcome * list (native_call Pool Certificate)) : Prop :=
  let '(o, calls) := result in
  (length calls <= 1)%nat ∧ Forall (secured e c s) calls
  ∧ ((∃ call, calls = [call] ∧ dl_native s call.1 call.2 = (true, None)
        ∧ do_resource o = true ∧ do_err o = None ∧ do_client o = Some false ∧ dl_deadline s = true
        ∧ dl_before s = None ∧ dl_after s = None ∧ (dl_call s).2 = None ∧ do_channel o = (dl_call s).1)
     ∨ (do_resource o = false ∧ do_channel o = false ∧ do_err o = Some (unavailable r) ∧ released (do_client o))).

Lemma append_roots_adds pool configured roots :
  append_roots appendCertsFromPEM pool configured = Some roots → adds_roots pool configured roots.
Proof using.
  revert pool. induction configured as [|block configured IH]; intros pool; simpl; [intros [= ->]; constructor|].
  destruct (blen block =? 0) eqn:Hb; [done|]. pose proof (blen_nonneg block).
  destruct (appendCertsFromPEM _ _) as [pool'|] eqn:Ha; [|done].
  intros Hr. eapply adds_root; [lia|done|by apply IH].
Qed.

Lemma configuration_secured e c s address config :
  buildAMQPClientConfig newCertPool appendCertsFromPEM x509KeyPair e connection c s = inr (address, config) →
  secured e c s (address, config) ∧ dl_deadline s = true.
Proof using.
  unfold buildAMQPClientConfig, buildTLSConfigWithSystemRoots.
  destruct (dl_systemRoots s) as [err|system] eqn:Hs; [done|].
  destruct (append_roots _ _ _) as [roots|] eqn:Hr; [|done]. apply append_roots_adds in Hr.
  pose proof (blen_nonneg (TLSConfig_ClientCertificate (TLS connection))).
  destruct (blen _ >? 0) eqn:Hb.
  - destruct (x509KeyPair _ _) as [certificate|] eqn:Hk; [|done]. destruct (dl_deadline s); [|done]. intros [= <- <-].
    split; [split; simpl; try done; [by exists system|]|done]. rewrite decide_False by lia. by exists certificate.
  - destruct (dl_deadline s); [|done]. intros [= <- <-].
    split; [split; simpl; try done; [by exists system|]|done]. by rewrite decide_True by lia.
Qed.

Ltac solve_dial s address config :=
  intros [Hsecured Hdeadline]; destruct (dl_native s address config) as [connected nativeErr] eqn:Hnative;
  destruct connected, nativeErr, (dl_before s), (dl_call s) as [[|] [|]], (dl_after s);
  try destruct (dl_asserted s); simpl;
  (split; [done|split; [by constructor|]]);
  ((left; exists (address, config); by split_and!) || (right; by split_and!; auto with handles)).

Lemma open_producer_ok e c s address config :
  secured e c s (address, config) ∧ dl_deadline s = true →
  dial_ok DialProducer e c s (openAMQPConnectionWithContext s address config).
Proof using.
  unfold dial_ok, openAMQPConnectionWithContext, dialAMQPConnectionWithNative, boundedAMQPChannel.
  solve_dial s address config.
Qed.

Lemma open_consumer_ok e c s address config :
  secured e c s (address, config) ∧ dl_deadline s = true →
  dial_ok DialConsumer e c s (openAMQPConsumerConnectionWithContext s address config).
Proof using.
  unfold dial_ok, openAMQPConsumerConnectionWithContext, dialAMQPConnectionWithNative, boundedAMQPChannel.
  solve_dial s address config.
Qed.

Lemma open_topology_ok e c s address config :
  secured e c s (address, config) ∧ dl_deadline s = true →
  dial_ok DialTopology e c s (openAMQPTopologyConnectionWithContext s address config).
Proof using.
  unfold dial_ok, openAMQPTopologyConnectionWithContext, dialAMQPConnectionWithNative, boundedAMQPChannel.
  solve_dial s address config.
Qed.

Lemma dial_failed_ok r e c s : dial_ok r e c s (dial_failed (unavailable r) None, []).
Proof using. split; [simpl; lia|]. split; [constructor|]. right. simpl. auto with handles. Qed.

Lemma producer_dial_ok e c s : dial_ok DialProducer e c s (producer_dial e c s).
Proof using.
  unfold dialAMQPProducer. destruct (buildAMQPClientConfig _ _ _ _ _ _ _) as [|[address config]] eqn:H; [apply dial_failed_ok|].
  apply configuration_secured, open_producer_ok in H.
  destruct (openAMQPConnectionWithContext s address config) as [[channel resource err client] calls].
  destruct H as (Hl & Hs & [(call & -> & Hn & Hr & He & H)|(Hr & Hc & He & H)]); simpl in *; subst; simpl;
    (split; [done|split; [done|]]); [left; exists call|right]; destruct_and?; simplify_eq; by split_and!.
Qed.

Lemma consumer_dial_ok e c s : dial_ok DialConsumer e c s (consumer_dial e c s).
Proof using.
  unfold dialAMQPConsumer. destruct (buildAMQPClientConfig _ _ _ _ _ _ _) as [|[address config]] eqn:H; [apply dial_failed_ok|].
  by apply open_consumer_ok, configuration_secured.
Qed.

Lemma topology_dial_ok e c s : dial_ok DialTopology e c s (topology_dial e c s).
Proof using.
  unfold dialAMQPTopology. destruct (buildAMQPClientConfig _ _ _ _ _ _ _) as [|[address config]] eqn:H; [apply dial_failed_ok|].
  by apply open_topology_ok, configuration_secured.
Qed.

Lemma dial_ok_owned r e c s o :
  dial_ok r e c s o → if do_resource o.1 then do_client o.1 = Some false else released (do_client o.1).
Proof using.
  destruct o as [o calls]. intros (_ & _ & [(call & _ & _ & Hr & _ & Hc & _)|(Hr & _ & _ & H)]); simpl; by rewrite Hr.
Qed.

Lemma dial_ok_error r e c s o err :
  dial_ok r e c s o → do_err o.1 = Some err → err = unavailable r ∧ do_channel o.1 = false ∧ do_resource o.1 = false.
Proof using.
  destruct o as [o calls]. intros (_ & _ & [(call & _ & _ & _ & He & _)|(Hr & Hc & He & _)]); simpl; rewrite He; [done|].
  by intros [= <-].
Qed.

#[export] Instance producer_dialler : Dialler DialProducer (dial_script Pool Certificate) :=
  {| dial e c s := (producer_dial e c s).1;
     dial_owned e c s := dial_ok_owned _ _ _ _ _ (producer_dial_ok e c s);
     dial_error e c s err := dial_ok_error _ _ _ _ _ err (producer_dial_ok e c s) |}.

#[export] Instance consumer_dialler : Dialler DialConsumer (dial_script Pool Certificate) :=
  {| dial e c s := (consumer_dial e c s).1;
     dial_owned e c s := dial_ok_owned _ _ _ _ _ (consumer_dial_ok e c s);
     dial_error e c s err := dial_ok_error _ _ _ _ _ err (consumer_dial_ok e c s) |}.

#[export] Instance topology_dialler : Dialler DialTopology (dial_script Pool Certificate) :=
  {| dial e c s := (topology_dial e c s).1;
     dial_owned e c s := dial_ok_owned _ _ _ _ _ (topology_dial_ok e c s);
     dial_error e c s err := dial_ok_error _ _ _ _ _ err (topology_dial_ok e c s) |}.
End Ownership.

(** ** Attempts over a dialler *)

(** The endpoint an attempt dials. *)
Definition attempt_endpoint {P} (connection : ConnectionConfig P) (start : Z) (attempt : nat) : Endpoint :=
  default (mkEndpoint EmptyString 0)
    (Endpoints connection !! Z.to_nat (recoveryEndpointIndex start (Z.of_nat attempt) (llen (Endpoints connection)))).

(** The connection an attempt leaves: the attempt's own handle once the dial gave
    it away, else what the dial left of it; none was made without a dial. *)
Definition connection_after (o : dial_outcome) (a : open_attempt) : handle :=
  match oa_endpoint a with
  | None => None
  | Some _ => if do_resource o then oa_resource a else do_client o
  end.

(** Every connection made by a run of attempts is released, but for the one of a
    successful last attempt, which is open. *)
Definition no_leak (success : bool) (outcomes : nat → dial_outcome) (run : list open_attempt) : Prop :=
  ∀ i a, run !! i = Some a →
    released (connection_after (outcomes i) a)
    ∨ success = true ∧ S i = length run ∧ connection_after (outcomes i) a = Some false.

Section NoLeak.
Context {r : role} {S : Type} {D : Dialler r S} {P : Type} (connection : ConnectionConfig P).

Definition attempt_dial (start : Z) (credentials : nat → Credentials) (dials : nat → S) (attempt : nat) : dial_outcome :=
  dial (attempt_endpoint connection start attempt) (credentials attempt) (dials attempt).

Lemma good_run_no_leak {R} (ok : R → bool) start count result run credentials dials from :
  good_run ok start count 0 result run → no_leak (ok result) (attempt_dial from credentials dials) run.
Proof using.
  intros [_ Hrun] i a Hi. unfold connection_after, attempt_dial.
  set (e := attempt_endpoint connection from i). set (c := credentials i).
  pose proof (dial_owned e c (dials i)) as Howned.
  destruct (oa_endpoint a); [|left; apply released_none].
  assert (failed_attempt a → released (if do_resource (dial e c (dials i)) then oa_resource a
    else do_client (dial e c (dials i)))) as Hfailed.
  { intros []. by destruct (do_resource _). }
  destruct (ok result).
  - destruct Hrun as (before & final & -> & Hb & Hf). apply lookup_app_Some in Hi as [Hi|[Hlen Hi]].
    + left. apply Hfailed, Hb. by eapply list_elem_of_lookup_2.
    + apply list_lookup_singleton_Some in Hi as [Hz <-]. destruct Hf as [_ _ Hres].
      destruct (do_resource _); [right|by left]. split_and!; [done| |done]. rewrite length_app. simpl. lia.
  - left. apply Hfailed, Hrun. by eapply list_elem_of_lookup_2.
Qed.
End NoLeak.

(** The scripts of [Open] whose dials are those of a dialler. *)
Definition producer_dials {S} `{Dialler DialProducer S} {P} (connection : ConnectionConfig P) (start : Z)
    (base : nat → producer_script) (dials : nat → S) (n : nat) : producer_script :=
  let s := base n in
  mkProducerScript (ps_context s) (ps_wait s) (ps_credentials s) (ps_session s)
    (dial_result (attempt_dial connection start (λ n, (ps_credentials (base n)).1) dials n)) (ps_confirm s) (ps_closed s).

Definition consumer_dials {S} `{Dialler DialConsumer S} {P} (connection : ConnectionConfig P) (start : Z)
    (base : nat → consumer_script) (dials : nat → S) (n : nat) : consumer_script :=
  let s := base n in
  mkConsumerScript (cs_context s) (cs_wait s) (cs_credentials s)
    (dial_result (attempt_dial connection start (λ n, (cs_credentials (base n)).1) dials n)) (cs_setup s) (cs_stopping s).

(** ** Addresses determine endpoints *)

Lemma upper_hex_inj a b : 0 <= a < 16 → 0 <= b < 16 → upper_hex a = upper_hex b → a = b.
Proof. unfold upper_hex. repeat case_match; lia. Qed.

Lemma escape_host_inj l k :
  Forall (λ c, 0 <= c < 256) l → Forall (λ c, 0 <= c < 256) k → escape_host l = escape_host k → l = k.
Proof.
  assert (∀ c, host_literal c = true → c ≠ 37) as Hlit by (intros c Hc ->; by vm_compute in Hc).
  revert k. induction l as [|c l IH]; intros [|d k] Hl Hk; simpl; [done|by destruct (host_literal d)|by destruct (host_literal c)|].
  apply Forall_cons in Hl as [Hc Hl], Hk as [Hd Hk].
  destruct (host_literal c) eqn:Ec, (host_literal d) eqn:Ed; simpl; intros [= Heq]; subst.
  - f_equal. by apply IH.
  - by apply Hlit in Ec.
  - by apply Hlit in Ed.
  - pose proof (Z.div_mod c 16 ltac:(lia)). pose proof (Z.div_mod d 16 ltac:(lia)).
    pose proof (Z.mod_pos_bound c 16 ltac:(lia)). pose proof (Z.mod_pos_bound d 16 ltac:(lia)).
    assert (c / 16 = d / 16) by (apply upper_hex_inj; [..|done]; (split; [apply Z.div_pos|apply Z.div_lt_upper_bound]; lia)).
    assert (c mod 16 = d mod 16) by (by apply upper_hex_inj).
    f_equal; [lia|]. by apply IH.
Qed.

(** A list is split at most once at the last occurrence of an element. *)
Lemma split_last_inj {A} (x : A) l1 l2 k1 k2 :
  x ∉ k1 → x ∉ k2 → l1 ++ x :: k1 = l2 ++ x :: k2 → l1 = l2 ∧ k1 = k2.
Proof.
  intros H1 H2 Heq. apply app_eq_app in Heq as (m & [[-> Hk]|[-> Hk]]).
  - destruct m as [|y m]; simpl in Hk; simplify_eq; [by rewrite app_nil_r|].
    destruct H2. apply elem_of_app. right. by left.
  - destruct m as [|y m]; simpl in Hk; simplify_eq; [by rewrite app_nil_r|].
    destruct H1. apply elem_of_app. right. by left.
Qed.

Lemma JoinHostPort_inj host1 host2 port1 port2 :
  58 ∉ codes port1 → 58 ∉ codes port2 → JoinHostPort host1 port1 = JoinHostPort host2 port2 →
  host1 = host2 ∧ port1 = port2.
Proof.
  assert (∀ h p, codes (JoinHostPort h p)
    = (if existsb (Z.eqb 58) (codes h) then [91] ++ codes h ++ [93] else codes h) ++ 58 :: codes p) as Hcodes.
  { intros h p. unfold JoinHostPort. destruct (existsb _ _); rewrite !codes_app; [|done]. by rewrite <- !app_assoc. }
  assert (∀ h, existsb (Z.eqb 58) ([91] ++ h ++ [93]) = existsb (Z.eqb 58) h) as Hbracket.
  { intros h. simpl. rewrite existsb_app. simpl. by rewrite orb_false_r. }
  intros H1 H2 Heq. apply (f_equal codes) in Heq. rewrite !Hcodes in Heq.
  apply split_last_inj in Heq as [Hh Hp%codes_inj]; [|done..]. split; [|done]. apply codes_inj.
  destruct (existsb (Z.eqb 58) (codes host1)) eqn:E1, (existsb (Z.eqb 58) (codes host2)) eqn:E2.
  - injection Hh as Hh. by apply app_inj_tail in Hh as [? _].
  - rewrite <- Hh, Hbracket in E2. congruence.
  - rewrite Hh, Hbracket in E1. congruence.
  - done.
Qed.

Lemma FormatInt_port port : 0 <= port < 2 ^ 16 → (58 ∉ codes (FormatInt port)) ∧ ParseUint (FormatInt port) 16 = Some port.
Proof.
  intros Hp. unfold FormatInt. destruct (port <? 0) eqn:E; [lia|]. split; [|by apply ParseUint_FormatUint].
  destruct (FormatUint_spec port) as (_ & Hd & _); [unfold is_uint64, max_uint64; lia|].
  intros Hin. rewrite forallb_true in Hd. apply Hd in Hin. by vm_compute in Hin.
Qed.

Lemma url_string_inj scheme host1 host2 : url_string scheme host1 = url_string scheme host2 → host1 = host2.
Proof.
  assert (∀ s, Forall (λ c, 0 <= c < 256) (codes s)) as Hrange.
  { intros s. apply Forall_forall. intros c. apply codes_range. }
  assert (∀ l, Forall (λ c, 0 <= c < 256) l → ∀ c, c ∈ escape_host l → 0 <= c < 256) as Hesc.
  { intros l Hl. induction Hl as [|c l Hc Hl IH]; simpl; [by intros c ?%not_elem_of_nil|].
    intros d [Hd|Hd]%elem_of_app; [|by apply IH].
    destruct (host_literal c); [by apply list_elem_of_singleton in Hd as ->|].
    pose proof (Z.mod_pos_bound c 16 ltac:(lia)).
    assert (0 <= c / 16 < 16) by (split; [apply Z.div_pos|apply Z.div_lt_upper_bound]; lia).
    unfold upper_hex in Hd. set_unfold in Hd. repeat case_match; lia. }
  intros Heq. unfold url_string in Heq. apply (f_equal codes) in Heq. rewrite !codes_app in Heq.
  apply app_inv_head, app_inv_head in Heq. rewrite !codes_of_codes in Heq by (by apply Hesc).
  by apply codes_inj, escape_host_inj.
Qed.

(** ** Claims *)

Section DialClaims.
Context {Pool Certificate : Type} (newCertPool : Pool) (appendCertsFromPEM : Pool → list byte → option Pool)
  (x509KeyPair : bytes → bytes → option Certificate) {P : Type} (connection : ConnectionConfig P).

(** C27: a dial for a producer, a consumer or a topology calls the client's dial at
    most once, and whenever it does, with the address of its endpoint, the
    credentials, and TLS of at least version 1.2 for the configured server with the
    configured roots and client certificate.  It returns a connection only when this
    call made one without an error and the channel call kept within the context; in
    every other case it returns nothing but its sanitized error, and the connection
    it may have made is closed.  The network dial behind it closes a socket whose deadline it cannot set. *)
Theorem dial_safe e c s :
  dial_ok newCertPool appendCertsFromPEM x509KeyPair connection DialProducer e c s
    (dialAMQPProducer newCertPool appendCertsFromPEM x509KeyPair e connection c s)
  ∧ dial_ok newCertPool appendCertsFromPEM x509KeyPair connection DialConsumer e c s
      (dialAMQPConsumer newCertPool appendCertsFromPEM x509KeyPair e connection c s)
  ∧ dial_ok newCertPool appendCertsFromPEM x509KeyPair connection DialTopology e c s
      (dialAMQPTopology newCertPool appendCertsFromPEM x509KeyPair e connection c s)
  ∧ ∀ dialErr deadline setErr, let '(err, socket) := boundedNetworkDial dialErr deadline setErr in
      if present err then released socket else socket = Some false ∧ deadline = true ∧ setErr = None.
Proof using.
  split_and!; [apply producer_dial_ok|apply consumer_dial_ok|apply topology_dial_ok|].
  intros [err|] [|] [setErr|]; simpl; auto with handles.
Qed.
End DialClaims.

(** C34: the address handed to the client names one endpoint: two endpoints with
    ports of sixteen bits and the same address are equal, whatever their hosts
    contain (colons, brackets, percent signs, control characters). *)
Theorem address_determines_endpoint e1 e2 :
  0 <= Endpoint_Port e1 < 2 ^ 16 → 0 <= Endpoint_Port e2 < 2 ^ 16 → amqp_address e1 = amqp_address e2 → e1 = e2.
Proof.
  intros H1 H2 Heq. apply FormatInt_port in H1 as [Hc1 Hp1], H2 as [Hc2 Hp2].
  apply url_string_inj, JoinHostPort_inj in Heq as [Hh Hp]; [|done..].
  rewrite <- Hp, Hp1 in Hp2. destruct e1, e2. simpl in *. congruence.
Qed.

(** C28: opening and recovering never leak a connection, whatever dialler they use:
    the connection an attempt dialled is released when the attempt is over, unless
    it is the open connection of the successful last attempt.  Proved against the
    interface [Dialler], which the package's own dials implement. *)
Theorem open_no_connection_leak {S P} {D : Dialler DialProducer S} {D' : Dialler DialConsumer S}
    (connection : ConnectionConfig P) producerConfig consumerConfig session nextEndpoint
    (producers : nat → producer_script) (consumers : nat → consumer_script) (dials : nat → S) :
  ConnectionConfig_Validate connection = None → ProducerConfig_Validate producerConfig = None →
  ConsumerConfig_Validate consumerConfig = None →
  (∀ fuel result run, openProducerWith fuel true connection producerConfig (Some session) true
       (producer_dials connection 0 producers dials) = Some (result, run) →
     no_leak (opened result)
       (attempt_dial (r := DialProducer) connection 0 (λ n, (ps_credentials (producers n)).1) dials) run)
  ∧ (∀ result run, Producer_recoverRuntime (Some (connection, nextEndpoint))
       (producer_dials connection nextEndpoint producers dials) = (result, run) →
     no_leak (present result)
       (attempt_dial (r := DialProducer) connection nextEndpoint (λ n, (ps_credentials (producers n)).1) dials) run)
  ∧ (∀ result run, openConsumerWith true connection consumerConfig true true
       (consumer_dials connection 0 consumers dials) = (result, run) →
     no_leak (opened result)
       (attempt_dial (r := DialConsumer) connection 0 (λ n, (cs_credentials (consumers n)).1) dials) run)
  ∧ (∀ result run, Consumer_recoverRuntime (Some (connection, nextEndpoint)) consumerConfig
       (consumer_dials connection nextEndpoint consumers dials) = (result, run) →
     no_leak (present result)
       (attempt_dial (r := DialConsumer) connection nextEndpoint (λ n, (cs_credentials (consumers n)).1) dials) run).
Proof.
  intros Hv Hp Hc. destruct session as [session sessionErr]. split_and!; [intros fuel| | |]; intros result run Heq.
  - apply openProducerWith_good in Heq; [|done..]. by eapply good_run_no_leak.
  - destruct (recoverProducer_run connection Hv (producer_dials connection nextEndpoint producers dials) nextEndpoint)
      as (? & ? & Heq' & _ & Hrun). rewrite Heq in Heq'. simplify_eq. by eapply good_run_no_leak.
  - destruct (openConsumerWith_run connection Hv consumerConfig (consumer_dials connection 0 consumers dials) Hc)
      as (? & ? & Heq' & _ & Hrun). rewrite Heq in Heq'. simplify_eq. by eapply good_run_no_leak.
  - destruct (recoverConsumer_run connection Hv consumerConfig (consumer_dials connection nextEndpoint consumers dials)
      nextEndpoint) as (? & ? & Heq' & _ & Hrun). rewrite Heq in Heq'. simplify_eq. by eapply good_run_no_leak.
Qed.

(** ** Concrete dials *)

(** A pool is the number of its certificates; every PEM block and key pair is
    accepted. *)
Definition example_append (pool : nat) (block : list byte) : option nat := Some (S pool).
Definition example_key_pair (certificate key : bytes) : option unit := Some ().

Definition example_dialler : Dialler DialProducer (dial_script nat unit) :=
  producer_dialler O example_append example_key_pair example_open_connection.

Definition example_consumer_dialler : Dialler DialConsumer (dial_script nat unit) :=
  consumer_dialler O example_append example_key_pair example_open_connection.

(** A client that connects to its one address under TLS 1.2 only. *)
Definition example_native (address : string) (config : amqp_config nat unit) : bool * option error :=
  if (address =s "amqps://mq-1:5671") && (tls_MinVersion (ac_TLS config) =? 0x0303) then (true, None)
  else (false, Some DeadlineExceeded).

(** A handshake whose channel call outlives the context, then a good one. *)
Definition example_dials (attempt : nat) : dial_script nat unit :=
  mkDialScript (inr None) true (λ _ _, (true, None)) None (true, None)
    (match attempt with O => Some DeadlineExceeded | S _ => None end) true.

Definition example_dial : dial_script nat unit :=
  mkDialScript (inr (Some 7%nat)) true example_native None (true, None) None true.

(** The dial to the first endpoint makes one call, which succeeds, and returns its
    connection; the second endpoint is refused by this client. *)
Lemma dial_safe_witness :
  (∃ call, (dialAMQPProducer O example_append example_key_pair (mkEndpoint "mq-1" 5671) example_open_connection
      example_open_credentials example_dial) = (mkDialOutcome true true None (Some false), [call])
    ∧ secured O example_append example_key_pair example_open_connection (mkEndpoint "mq-1" 5671)
        example_open_credentials example_dial call)
  ∧ do_err (dialAMQPConsumer O example_append example_key_pair (mkEndpoint "mq-2" 5671) example_open_connection
      example_open_credentials example_dial).1 = Some ErrConsumerUnavailable.
Proof.
  split.
  - destruct (dial_safe O example_append example_key_pair example_open_connection (mkEndpoint "mq-1" 5671)
      example_open_credentials example_dial) as [H _].
    destruct (dialAMQPProducer _ _ _ _ _ _ _) as [o calls] eqn:E in H.
    assert (∃ call, (o, calls) = (mkDialOutcome true true None (Some false), [call])) as (call & Heq)
      by (rewrite <- E; eexists; vm_compute; reflexivity).
    injection Heq as -> ->. destruct H as (_ & Hs & _). exists call. split; [exact E|]. by apply Forall_inv in Hs.
  - by vm_compute.
Defined.

Lemma address_determines_endpoint_witness : amqp_address (mkEndpoint "::1" 5671) ≠ amqp_address (mkEndpoint "[::1]" 5671).
Proof.
  intros Heq.
  assert (mkEndpoint "::1" 5671 = mkEndpoint "[::1]" 5671) as H.
  { apply address_determines_endpoint; [done|done|exact Heq]. }
  discriminate H.
Defined.

Lemma open_no_connection_leak_witness :
  ∃ run, openProducerWith 3 true example_open_connection example_producer_config (Some ("session", None)) true
      (@producer_dials _ example_dialler _ example_open_connection 0 example_producer_scripts example_dials)
      = Some (inr 2, run)
    ∧ no_leak true (@attempt_dial _ _ example_dialler _ example_open_connection 0
        (λ n, (ps_credentials (example_producer_scripts n)).1) example_dials) run.
Proof.
  assert (∃ run, openProducerWith 3 true example_open_connection example_producer_config (Some ("session", None)) true
    (@producer_dials _ example_dialler _ example_open_connection 0 example_producer_scripts example_dials)
    = Some (inr 2, run)) as [run E] by (eexists; vm_compute; reflexivity).
  pose proof (proj1 (@open_no_connection_leak _ _ example_dialler example_consumer_dialler example_open_connection
    example_producer_config example_consumer ("session", None) 1 example_producer_scripts example_consumer_scripts
    example_dials eq_refl eq_refl eq_refl) 3%nat (inr 2) run E) as H.
  exact (ex_intro _ run (conj E H)).
Defined.
