(* ===== verification/Wire.v ===== *)
(** * Wire: everything handed to the AMQP client has the types of the protocol

    AMQP 0-9-1 writes names, keys and properties as short strings (at most 255
    bytes, the length in one byte) and field tables with short keys and typed
    values.  A longer short string or a value outside its type cannot be sent, or
    is sent as something else.  The file states these types for the publishing of
    a message (producer.go), the calls of a topology (topology_apply.go) and the
    calls that set up a consumer (consumer.go), and shows that what passed the
    package's validation is well typed. *)

From S2P Require Import Prelude GoText Errors Config Amqp Message Topology Settlement Delivery Observation.
From S2P Require Import Producer TopologyApply Consumer Open RoundTrip.

(** ** Types *)

Definition short_string (s : string) : Prop := len s <= 255.

(** The values the package puts into tables; the rest of Go's [any] is not
    accepted by the client or not used. *)
Definition wire_value (v : any) : Prop :=
  match v with
  | VString s => len s < 2 ^ 32
  | VBytes b => blen b < 2 ^ 32
  | VBool _ => True
  | VInt32 z => - 2 ^ 31 <= z < 2 ^ 31
  | VInt64 z => is_int64 z
  | _ => False
  end.

Definition wire_table (t : Table) : Prop :=
  map_Forall (λ key v, 1 <= len key <= 255 ∧ wire_value v) t.

(** The publishing of a message. *)
Record wire_publishing (p : Publishing) : Prop := {
  wp_headers : wire_table (pub_Headers p);
  wp_properties : Forall short_string [pub_ContentType p; pub_ContentEncoding p; pub_CorrelationId p; pub_ReplyTo p;
                                       pub_Expiration p; pub_MessageId p; pub_Type p; pub_AppId p];
  wp_mode : pub_DeliveryMode p = amqp_Transient ∨ pub_DeliveryMode p = amqp_Persistent;
  wp_priority : 0 <= pub_Priority p <= 255 }.

(** A call that checks, declares or binds. *)
Definition wire_call (c : topology_call) : Prop :=
  match c with
  | CallExchangeDeclarePassive name kind _ _ _ _ | CallExchangeDeclare name kind _ _ _ _ =>
    short_string name ∧ short_string kind
  | CallQueueDeclarePassive name _ _ _ _ arguments | CallQueueDeclare name _ _ _ _ arguments =>
    short_string name ∧ wire_table arguments
  | CallQueueBind queue key exchange _ arguments =>
    Forall short_string [queue; key; exchange] ∧ wire_table arguments
  end.

(** A call that sets up a consumer; the prefetch is a count of sixteen bits. *)
Definition wire_setup (c : setup_call) : Prop :=
  match c with
  | SetupExchangeDeclarePassive name kind _ _ _ _ arguments =>
    short_string name ∧ short_string kind ∧ wire_table (default ∅ arguments)
  | SetupQueueDeclare name _ _ _ _ arguments => short_string name ∧ wire_table arguments
  | SetupQueueBind queue key exchange _ arguments =>
    Forall short_string [queue; key; exchange] ∧ wire_table arguments
  | SetupQos prefetchCount prefetchSize _ => 0 <= prefetchCount < 2 ^ 16 ∧ 0 <= prefetchSize < 2 ^ 32
  | SetupConsume queue consumer _ _ _ _ arguments =>
    short_string queue ∧ short_string consumer ∧ wire_table (default ∅ arguments)
  end.

(** The value ranges of the Go types of a header, a queue and a consumer. *)
Definition typed_headers (headers : list Header) : Prop := ∀ h, h ∈ headers → is_int64 (Header_Int64 h).

Record typed_queue (queue : Queue) : Prop := {
  tq_queue : well_typed_queue queue;
  tq_durations : ∀ d, Some d ∈ [MessageTTL queue; Expires queue; ConsumerTimeout queue; DisconnectedConsumerTimeout queue]
                 → is_int64 d;
  tq_retry : ∀ r, DelayedRetry queue = Some r → is_int64 (DelayedRetry_Minimum r)
               ∧ ∀ d, DelayedRetry_Maximum r = Some d → is_int64 d }.

Record typed_consumer (config : ConsumerConfig) : Prop := {
  tc_priority : ∀ p, Consumer_Priority config = Some p → - 2 ^ 31 <= p < 2 ^ 31;
  tc_arguments : ∀ t, Reference_Transient (Consumer_Queue config) = Some t → typed_headers (Transient_Arguments t) }.

(** ** Tables *)

Lemma wire_empty : wire_table ∅.
Proof. apply map_Forall_empty. Qed.

Lemma wire_insert key v t : 1 <= len key <= 255 → wire_value v → wire_table t → wire_table (<[key := v]> t).
Proof. intros. by apply map_Forall_insert_2. Qed.

Lemma wire_set_if key v t :
  1 <= len key <= 255 → (∀ x, v = Some x → wire_value x) → wire_table t → wire_table (set_if key v t).
Proof. intros Hk Hv Ht. destruct v as [v|]; [|done]. apply wire_insert; auto. Qed.

Lemma wire_milliseconds d : is_int64 d → wire_value (VInt64 (Milliseconds d)).
Proof.
  unfold is_int64, max_int64. simpl. intros Hd. unfold is_int64, max_int64, Milliseconds, Millisecond.
  pose proof (Z.quot_le_mono d (2 ^ 63 - 1) 1000000). pose proof (Z.quot_le_mono (- 2 ^ 63) d 1000000).
  change (Z.quot (2 ^ 63 - 1) 1000000) with 9223372036854 in *.
  change (Z.quot (- 2 ^ 63) 1000000) with (-9223372036854) in *. lia.
Qed.

Create HintDb wire discriminated.
#[export] Hint Resolve wire_empty wire_insert wire_set_if wire_milliseconds : wire.

Lemma valid_identity_short s n : n <= 255 → valid_identity s n → 1 <= len s <= 255.
Proof.
  intros Hn [Hne Hl _ _]. pose proof (len_nonneg s). assert (len s ≠ 0) by (by rewrite len_empty). lia.
Qed.

Lemma invalidIdentity_short s n : n <= 255 → invalidIdentity s n = false → 1 <= len s <= 255.
Proof. rewrite invalidIdentity_valid. apply valid_identity_short. Qed.

(** A header the package accepts: a short key, and a value of bounded size. *)
Definition wire_header (h : Header) : Prop :=
  1 <= len (Header_Key h) <= 255 ∧ is_int64 (Header_Int64 h)
  ∧ ∃ n, header_value_bytes h = Some n ∧ n < 2 ^ 32.

Lemma header_entry_wire h v : wire_header h → header_entry h = Some v → wire_value v.
Proof.
  intros (_ & Hz & n & Hn & Hlt). unfold header_entry. unfold header_value_bytes in Hn. intros He.
  repeat case_match; simplify_eq; simpl; try done. rewrite blen_own_bytes. lia.
Qed.

Lemma header_table_wire headers : (∀ h, h ∈ headers → wire_header h) → wire_table (header_table headers).
Proof.
  unfold header_table. generalize wire_empty. generalize (∅ : Table).
  induction headers as [|h headers IH]; intros t Ht Hh; simpl; [done|].
  apply forall_cons in Hh as [Hw Hh]. apply IH; [|done].
  unfold put_header. destruct (header_entry h) as [v|] eqn:E; [|done].
  apply wire_insert; [apply Hw| |done]. by eapply header_entry_wire.
Qed.

(** ** Messages *)

Lemma sumZ_elem {A} (f : A → Z) l x : (∀ y, y ∈ l → 0 <= f y) → x ∈ l → f x <= sumZ f l.
Proof.
  intros Hf Hx. apply list_elem_of_split in Hx as (l1 & l2 & ->). rewrite sumZ_app.
  assert (0 <= sumZ f l1 ∧ 0 <= sumZ f l2) as [? ?]; [|simpl; lia].
  split; apply sumZ_nonneg; intros y Hy; apply Hf; set_solver.
Qed.

Lemma Limits_valid_bounds limits :
  Limits_valid limits = true →
  MaxHeaderBytes limits <= 2 ^ 16 ∧ MaxNameBytes limits <= 255 ∧ MaxRoutingKeyBytes limits <= 255.
Proof.
  intros []%Limits_valid_true. lia.
Qed.

Lemma publication_header_wire limits publication h :
  valid_publication limits publication → typed_headers (Headers (Publication_Message publication)) →
  h ∈ Headers (Publication_Message publication) → wire_header h.
Proof.
  intros [] Ht Hh. destruct vp_limits.
  destruct (vp_headers h Hh) as (Hk & _ & n & Hv). split; [eapply valid_identity_short, Hk; lia|]. split; [by apply Ht|].
  exists n. split; [by apply header_value_bytes_Some|].
  pose proof (sumZ_elem header_size _ h (λ y _, header_size_nonneg y) Hh) as Hs.
  rewrite (canonical_header_size _ _ Hv) in Hs. pose proof (len_nonneg (Header_Key h)). lia.
Qed.

Lemma FormatInt_short z : 0 <= z <= max_int64 → short_string (FormatInt z).
Proof.
  unfold max_int64. intros Hz. unfold FormatInt. destruct (z <? 0) eqn:E; [lia|].
  destruct (FormatUint_spec z) as (_ & _ & Hl & _); [unfold is_uint64, max_uint64; lia|].
  unfold short_string. lia.
Qed.

Lemma expiration_short e : is_int64 e → 0 <= e → short_string (FormatInt (Milliseconds e)).
Proof.
  intros He Hpos. apply FormatInt_short. apply wire_milliseconds in He as [_ He]. split; [|done].
  unfold Milliseconds. apply Z.quot_pos; [done|by vm_compute].
Qed.

Lemma publishing_wire limits publication session sequence :
  valid_publication limits publication → typed_message (Publication_Message publication) →
  typed_headers (Headers (Publication_Message publication)) →
  usableProducerSession session None = true → is_uint64 sequence →
  wire_publishing (amqpPublishing (Publication_Message (ownPublication publication))
    (Publication_DeliveryMode publication) (publish_token session sequence)).
Proof.
  intros Hv [Hp He] Ht Hs Hseq. pose proof Hv as []. destruct vp_limits.
  assert (Forall short_string [MessageID (Publication_Message publication); CorrelationID (Publication_Message publication);
    ReplyTo (Publication_Message publication); ContentType (Publication_Message publication);
    ContentEncoding (Publication_Message publication); MessageType (Publication_Message publication);
    AppID (Publication_Message publication)]) as Hprop.
  { apply Forall_forall. intros v Hin. apply vp_properties in Hin as [? _]. unfold short_string. lia. }
  repeat (apply Forall_cons in Hprop as [? Hprop]).
  split; unfold amqpPublishing; simpl.
  - rewrite header_table_own. apply wire_insert; [by vm_compute| |].
    + simpl. pose proof (publish_token_valid _ _ Hs Hseq) as Htoken. apply invalidIdentity_false in Htoken as (_ & Hl & _).
      unfold maxPublishTokenBytes, maxProducerSessionBytes in Hl. lia.
    + apply header_table_wire. intros h. by eapply publication_header_wire.
  - repeat (apply List.Forall_cons; [try assumption|]); [|by apply List.Forall_nil].
    destruct (Expiration (Publication_Message publication)) as [e|] eqn:Ee; [|done].
    apply expiration_short; [by apply He|by apply (vp_expiration e)].
  - unfold amqp_Transient, amqp_Persistent. destruct vp_mode as [-> | ->]; [by left|by right].
  - destruct (Priority (Publication_Message publication)) as [p|] eqn:Ep; [|lia].
    specialize (Hp p eq_refl). specialize (vp_priority p eq_refl). rewrite wrap_u_small; lia.
Qed.

(** ** Topologies *)

Lemma validate_arguments_wire limits seen n arguments :
  Limits_valid limits = true → typed_headers arguments → 0 <= n → validate_arguments limits seen n arguments = true →
  ∀ h, h ∈ arguments → wire_header h.
Proof.
  intros Hl. apply Limits_valid_bounds in Hl as (Hb & Hn & _).
  revert seen n. induction arguments as [|h l IH]; intros seen n Ht Hpos Hv; [by intros h ?%not_elem_of_nil|].
  unfold typed_headers in Ht. apply forall_cons in Ht as [Hz Ht]. simpl in Hv.
  destruct (invalidIdentity _ _) eqn:Hk; [done|]. destruct (_ =s _); [done|]. destruct (bool_decide _); [done|].
  destruct (argument_value_bytes h) as [k|] eqn:Ha; [|done].
  assert (header_value_bytes h = Some k) as Hh by (unfold argument_value_bytes in Ha; by destruct (_ && _)).
  pose proof (header_value_bytes_nonneg _ _ Hh). pose proof (len_nonneg (Header_Key h)).
  destruct (_ >? _) eqn:Hm; [done|]. apply forall_cons. split.
  - split; [by eapply invalidIdentity_short|]. split; [done|]. exists k. split; [done|lia].
  - eapply IH; [done| |exact Hv]. lia.
Qed.

Lemma binding_wire kind key arguments limits :
  Limits_valid limits = true → typed_headers arguments →
  validExchangeBindingWithLimits kind key arguments limits = true →
  short_string key ∧ wire_table (bindingArguments arguments).
Proof.
  intros Hl Ht. unfold validExchangeBindingWithLimits, validBindingArgumentsWithLimits, short_string.
  destruct (len key >? _) eqn:Hk; [done|]. destruct (containsControl key); [done|].
  destruct (llen arguments >? _); [done|]. destruct (validate_arguments _ _ _ arguments) eqn:Hv; [|done]. intros _.
  pose proof (Limits_valid_bounds _ Hl) as (_ & _ & Hr). split; [lia|].
  apply header_table_wire. by eapply validate_arguments_wire.
Qed.

Lemma DefaultLimits_valid : Limits_valid DefaultLimits = true.
Proof. done. Qed.

Lemma wrap_s_range w z : 0 < w → - 2 ^ (w - 1) <= wrap_s w z < 2 ^ (w - 1).
Proof.
  intros Hw. unfold wrap_s. pose proof (Z.mod_pos_bound (z + 2 ^ (w - 1)) (2 ^ w)) as Hm.
  assert (2 ^ w = 2 * 2 ^ (w - 1)) as Hp by (rewrite <- Z.pow_succ_r by lia; f_equal; lia).
  pose proof (Z.pow_pos_nonneg 2 (w - 1)). lia.
Qed.

Lemma int64_wire z : wire_value (VInt64 (int64 z)).
Proof. pose proof (wrap_s_range 64 z). simpl in *. unfold is_int64, max_int64. lia. Qed.

Lemma int32_wire z : wire_value (VInt32 (int32 z)).
Proof. pose proof (wrap_s_range 32 z). simpl in *. lia. Qed.

(** The constants of the queue arguments. *)
Definition queue_constants : list string :=
  [EmptyString; QueueOverflowDropHead; QueueOverflowRejectPublish; QueueOverflowRejectPublishDeadLetter;
   DeadLetterAtMostOnce; DeadLetterAtLeastOnce; DelayedRetryDisabled; DelayedRetryAll; DelayedRetryFailed;
   DelayedRetryReturned; QueueClassic; QueueQuorum].

Lemma constant_wire s : s ∈ queue_constants → wire_value (VString s).
Proof.
  intros Hs. assert (Forall (λ s, len s < 2 ^ 32) queue_constants) as Hl by (by repeat constructor).
  by apply (proj1 (Forall_forall _ _) Hl).
Qed.

Ltac pick := rewrite ?elem_of_cons; tauto.

Lemma map_wire {A} (f : A → any) (o : option A) x :
  (∀ a, o = Some a → wire_value (f a)) → option_map f o = Some x → wire_value x.
Proof. intros Hf. destruct o as [a|]; [|done]. intros [= <-]. auto. Qed.

Lemma retry_wire r t :
  valid_retry r → is_int64 (DelayedRetry_Minimum r) → (∀ d, DelayedRetry_Maximum r = Some d → is_int64 d) →
  wire_table t →
  wire_table
    (let arguments := <["x-delayed-retry-type" := VString (DelayedRetry_Type r)]> t in
     if retry_enabled r then
       let arguments := <["x-delayed-retry-min" := VInt64 (Milliseconds (DelayedRetry_Minimum r))]> arguments in
       set_if "x-delayed-retry-max" (milliseconds_argument (DelayedRetry_Maximum r)) arguments
     else arguments).
Proof.
  intros Hr Hmin Hmax Ht.
  assert (wire_value (VString (DelayedRetry_Type r))) as Htype.
  { apply constant_wire. destruct Hr as [(-> & _)|(Hin & _)]; unfold queue_constants; [pick|].
    rewrite !elem_of_cons in Hin. rewrite !elem_of_cons. tauto. }
  cbv zeta. assert (wire_table (<["x-delayed-retry-type" := VString (DelayedRetry_Type r)]> t)) as Ht'
    by (by apply wire_insert). destruct (retry_enabled r); [|done].
  apply wire_set_if; [done| |by apply wire_insert; [done|apply wire_milliseconds|]].
  intros x. apply map_wire. auto with wire.
Qed.

Lemma dead_letter_wire queue d t :
  valid_dead_letter queue d → wire_table t →
  wire_table
    (let arguments := <["x-dead-letter-exchange" := VString (DeadLetter_Exchange d)]> t in
     let arguments := set_if "x-dead-letter-routing-key" (option_map VString (DeadLetter_RoutingKey d)) arguments in
     set_if "x-dead-letter-strategy"
       (if deadLetterStrategyPresent (DeadLetter_Strategy d) then Some (VString (DeadLetter_Strategy d)) else None)
       arguments).
Proof.
  intros ([Hex _] & Hkey & Hst) Ht. cbv zeta. apply wire_set_if; [done| |apply wire_set_if; [done| |]].
  - intros x. destruct (deadLetterStrategyPresent _); [|done]. intros [= <-]. apply constant_wire.
    unfold queue_constants. destruct Hst as [-> | [-> | [-> _]]]; pick.
  - intros x. apply map_wire. intros k Hk. apply Hkey in Hk as [Hk _]. simpl. lia.
  - apply wire_insert; [done|simpl; lia|done].
Qed.

Lemma queueArguments_wire queue :
  valid_queue queue → typed_queue queue → wire_table (queueArguments queue).
Proof.
  intros [] [_ Hd Hr]. unfold queueArguments. cbv zeta.
  assert (∀ o x, o ∈ [MessageTTL queue; Expires queue; ConsumerTimeout queue; DisconnectedConsumerTimeout queue] →
    milliseconds_argument o = Some x → wire_value x) as Hms.
  { intros o x Hin. apply map_wire. intros d ->. by apply wire_milliseconds, Hd. }
  match goal with |- wire_table (match DeadLetter queue with Some _ => _ | None => ?t end) =>
    assert (wire_table t) as Ht end.
  { apply wire_set_if; [done| |].
    { intros x. destruct (queueOverflowPresent _); [|done]. intros [= <-]. apply constant_wire.
      unfold queue_constants. rewrite !elem_of_cons in vq_overflow. rewrite !elem_of_cons. tauto. }
    do 2 (apply wire_set_if; [done|intros x; apply map_wire; intros; apply int64_wire|]).
    match goal with |- wire_table (match DelayedRetry queue with Some _ => _ | None => ?t end) =>
      assert (wire_table t) as Ht end.
    { do 4 (apply wire_set_if; [done|intros x; apply Hms; pick|]).
      apply wire_set_if; [done|intros x; destruct (queuePriorityPresent _); [|done]; intros [= <-]; apply int32_wire|].
      apply wire_set_if; [done|intros x; apply map_wire; intros; apply int64_wire|].
      apply wire_set_if; [done|intros x; destruct (SingleActiveConsumer _); [|done]; by intros [= <-]|].
      apply map_Forall_singleton. split; [done|]. apply constant_wire. unfold queue_constants.
      destruct vq_policy as [(-> & _)|(-> & _)]; pick. }
    destruct (DelayedRetry queue) as [r|] eqn:Er; [|done]. destruct (Hr r eq_refl).
    by apply (retry_wire r); [apply vq_retry| | |]. }
  destruct (DeadLetter queue) as [d|]; [|done]. by apply (dead_letter_wire queue); [apply vq_dead_letter|].
Qed.

Lemma exchange_wire exchange :
  valid_exchange exchange → short_string (Exchange_Name exchange) ∧ short_string (Exchange_Kind exchange).
Proof.
  intros [Hn Hk]. apply (valid_identity_short _ 255 ltac:(lia)) in Hn as [_ Hn]. split; [done|].
  rewrite !elem_of_cons in Hk. destruct Hk as [-> |[-> |[-> |[-> |?%not_elem_of_nil]]]]; done.
Qed.

Lemma queue_name_short queue : valid_queue queue → short_string (Queue_Name queue).
Proof.
  intros []. destruct vq_name as [(-> & _)|Hn]; [done|]. by apply (valid_identity_short _ 255 ltac:(lia)) in Hn as [_ Hn].
Qed.

Lemma plan_wire topology policy c :
  valid_topology topology policy → (∀ q, q ∈ Queues topology → typed_queue q) →
  (∀ b, b ∈ Bindings topology → typed_headers (Binding_Arguments b)) →
  c ∈ plan policy topology → wire_call c.
Proof.
  intros [] Hq Hb. unfold plan. rewrite !elem_of_app.
  intros [(x & -> & Hx)%list_elem_of_fmap|[(x & -> & Hx)%list_elem_of_fmap|(x & -> & Hx)%list_elem_of_fmap]].
  - unfold exchange_call. apply vt_exchanges, exchange_wire in Hx. by destruct (_ =s _).
  - unfold queue_call. destruct (vt_queues x Hx) as (Hv & _).
    destruct (_ =s _); (split; [by apply queue_name_short|by apply queueArguments_wire; [|apply Hq]]).
  - destruct (vt_bindings x Hx) as [(e & He & Hname & Hvalid) (q & Hqin & Hqname)].
    apply validExchangeBinding_true, binding_wire in Hvalid as [Hkey Htable]; [|done|by apply Hb]. split; [|done].
    apply vt_exchanges, exchange_wire in He as [He _]. rewrite Hname in He.
    destruct (vt_queues q Hqin) as (Hv & _). apply queue_name_short in Hv. rewrite Hqname in Hv.
    by repeat constructor.
Qed.

(** ** Consumers *)

Section Consumers.
Context (config : ConsumerConfig) (Hconfig : ConsumerConfig_Validate config = None) (Htyped : typed_consumer config).

(** What the validation gives for the set-up. *)
Lemma consumer_names :
  Limits_valid (Consumer_Limits config) = true
  ∧ QueueReference_validate (Consumer_Queue config) (Consumer_Limits config) = None
  ∧ short_string (Consumer_Name config) ∧ 1 <= Prefetch config <= MaxConsumerPrefetch.
Proof using Hconfig.
  revert Hconfig. unfold ConsumerConfig_Validate.
  destruct (Limits_valid _) eqn:Hl; [|done]. destruct (QueueReference_validate _ _) eqn:Hq; [done|].
  destruct (invalidIdentity _ _) eqn:Hn; [done|]. cbn [negb present orb].
  destruct (Exclusive config && _); [done|]. destruct (Prefetch config <? 1) eqn:Hp1; [done|].
  destruct (Prefetch config >? MaxConsumerPrefetch) eqn:Hp2; [done|]. intros _.
  pose proof (Limits_valid_bounds _ Hl) as (_ & Hb & _).
  apply (invalidIdentity_short _ _ Hb) in Hn as [_ Hn]. split_and!; try done; lia.
Qed.

Lemma consumer_arguments_wire : wire_table (default ∅ (consumerArguments config)).
Proof using Htyped.
  destruct Htyped as [Hp _]. unfold consumerArguments. destruct (Consumer_Priority config) as [p|]; simpl; [|apply wire_empty].
  apply wire_insert; [done|by apply Hp|apply wire_empty].
Qed.

Lemma transient_wire transient queue :
  Reference_Transient (Consumer_Queue config) = Some transient →
  wire_setup (exchange_check transient) ∧ wire_setup transient_declare
  ∧ (short_string queue → wire_setup (transient_bind transient queue)).
Proof using Hconfig Htyped.
  intros Ht. destruct consumer_names as (Hl & Hq & _). destruct Htyped as [_ Hargs]. specialize (Hargs _ Ht).
  unfold QueueReference_validate in Hq. rewrite Ht in Hq.
  destruct (Exchange_Validate (Transient_Exchange transient)) eqn:He; [by rewrite !orb_true_r in Hq|].
  destruct (validExchangeBindingWithLimits _ _ _ _) eqn:Hb; [|by rewrite !orb_true_r in Hq].
  apply Exchange_Validate_None, exchange_wire in He as [Hname Hkind]. apply binding_wire in Hb as [Hkey Htable]; [|done..].
  split; [|split]; simpl.
  - split_and!; [done|done|apply wire_empty].
  - split; [done|]. apply wire_insert; [done|done|apply wire_empty].
  - intros Hqueue. split; [by repeat constructor|done].
Qed.

Ltac setup_calls := simpl; repeat (apply List.Forall_cons; [assumption|]); apply List.Forall_nil.

Lemma setup_wire s channel resource :
  let '(_, st) := setupConsumerGeneration config s channel resource in Forall wire_setup (su_calls st).
Proof using Hconfig Htyped.
  destruct consumer_names as (Hl & Hq & Hname & Hprefetch).
  assert (wire_setup (qos_call config)) as Hqos.
  { unfold MaxConsumerPrefetch in Hprefetch. simpl. lia. }
  assert (∀ queue, short_string queue → wire_setup (consume_call config queue)) as Hconsume.
  { intros queue Hqueue. simpl. split_and!; [done|done|apply consumer_arguments_wire]. }
  unfold setupConsumerGeneration. destruct (Reference_Transient (Consumer_Queue config)) as [transient|] eqn:Ht.
  - destruct (transient_wire transient (setup_declared (ss_queue s)) Ht) as (Hcheck & Hdeclare & Hbind).
    unfold setupTransientQueue, boundedConsumerSetup, setup_declared in *.
    destruct (ss_exchange s) as [[e|] checked|]; [setup_calls| |setup_calls].
    destruct (ss_queue s) as [[e|] declared|]; [setup_calls| |setup_calls].
    destruct (invalidIdentity declared 255) eqn:Hd; [setup_calls|].
    apply (invalidIdentity_short _ 255 ltac:(lia)) in Hd as [_ Hd].
    specialize (Hbind Hd). specialize (Hconsume _ Hd).
    destruct (ss_bind s) as [[e|] ?|], (ss_qos s) as [[e'|] ?|], (ss_cancellations s),
      (ss_consume s) as [[e''|] ?|], (ss_deliveries s); setup_calls.
  - assert (short_string (Reference_Name (Consumer_Queue config))) as Hqueue.
    { unfold QueueReference_validate in Hq. rewrite Ht in Hq. destruct (invalidIdentity _ _) eqn:Hn; [done|].
      pose proof (Limits_valid_bounds _ Hl) as (_ & Hb & _). by apply (invalidIdentity_short _ _ Hb) in Hn as [_ Hn]. }
    specialize (Hconsume _ Hqueue). unfold boundedConsumerSetup.
    destruct (ss_qos s) as [[e'|] ?|], (ss_cancellations s), (ss_consume s) as [[e''|] ?|], (ss_deliveries s);
      setup_calls.
Qed.
End Consumers.

(** ** Claims *)

(** C33: everything handed to the client has the types of the protocol: the
    publishing of a valid publication, the calls of a valid topology and the calls
    that set up a valid consumer have short strings of at most 255 bytes, tables
    with short keys and values of their wire types, and numbers in range; whatever
    the broker answers, the names it chooses included. *)
Theorem wire_well_typed :
  (∀ limits publication session sequence,
     Publication_Validate publication limits = None → typed_message (Publication_Message publication) →
     typed_headers (Headers (Publication_Message publication)) →
     usableProducerSession session None = true → is_uint64 sequence →
     wire_publishing (amqpPublishing (Publication_Message (ownPublication publication))
       (Publication_DeliveryMode publication) (publish_token session sequence))
     ∧ short_string (Publication_Exchange publication) ∧ short_string (Publication_RoutingKey publication))
  ∧ (∀ topology policy,
     Topology_Validate topology policy = None → (∀ q, q ∈ Queues topology → typed_queue q) →
     (∀ b, b ∈ Bindings topology → typed_headers (Binding_Arguments b)) →
     Forall wire_call (plan policy topology))
  ∧ (∀ config s channel resource, ConsumerConfig_Validate config = None → typed_consumer config →
     Forall wire_setup (su_calls (setupConsumerGeneration config s channel resource).2)).
Proof.
  split_and!.
  - intros limits publication session sequence Hv%Publication_Validate_valid Hm Hh Hs Hseq.
    split; [by eapply publishing_wire|]. destruct Hv. destruct vp_limits. unfold short_string. split; [|lia].
    destruct vp_exchange as [[-> _]|[]]; [done|lia].
  - intros topology policy Hv%Topology_Validate_valid Hq Hb. apply Forall_forall. intros c. by apply plan_wire.
  - intros config s channel resource Hv Ht. pose proof (setup_wire config Hv Ht s channel resource) as H.
    by destruct (setupConsumerGeneration config s channel resource).
Qed.

(** ** Examples *)

(** The example publication and the set-up of the example consumer. *)
Lemma wire_well_typed_witness :
  wire_publishing (amqpPublishing (Publication_Message (ownPublication (example_publication "orders")))
    (Publication_DeliveryMode (example_publication "orders")) (publish_token "s-1" 7))
  ∧ Forall wire_setup (su_calls (setupConsumerGeneration example_consumer example_setup None None).2).
Proof.
  destruct wire_well_typed as (Hp & _ & Hc). split.
  - assert (typed_message (Publication_Message (example_publication "orders"))) as Hm
      by (split; intros ? [= <-]; unfold is_int64, max_int64, Millisecond; lia).
    assert (typed_headers (Headers (Publication_Message (example_publication "orders")))) as Hh
      by (intros h Hin; repeat (apply elem_of_cons in Hin as [-> |Hin]; [by vm_compute|]); by apply not_elem_of_nil in Hin).
    assert (Publication_Validate (example_publication "orders") DefaultLimits = None) as Hv by by vm_compute.
    assert (usableProducerSession "s-1" None = true) as Hs by by vm_compute.
    assert (is_uint64 7) as Hq by by vm_compute.
    exact (proj1 (Hp _ _ _ _ Hv Hm Hh Hs Hq)).
  - assert (ConsumerConfig_Validate example_consumer = None) as Hv by by vm_compute.
    assert (typed_consumer example_consumer) as Ht by (split; [by intros p [= <-]|done]).
    exact (Hc example_consumer example_setup None None Hv Ht).
Defined.
