(* ===== verification/ProducerSystem.v ===== *)
(** * ProducerSystem: publishers, event goroutine, recovery and shutdown of a producer together

    producer.go and producer_open.go: the goroutines of a producer as one transition
    system.  Any number of publishers run [publishAdmitted] statement by statement
    under the publish mutex; the event goroutine runs [runEvents] over generation
    after generation ([gen_step] of Events is one iteration of its loop); the
    [finishShutdown] goroutine closes what is left; the client library numbers the
    publications of a channel as it transmits them, and the broker confirms and
    returns what was transmitted.

    [system_exec] computes the step a scheduler chooses; [system_step] is any of
    them.  Every step is a run of steps of the shared state of Producer
    ([system_refines]), so what is proved there holds here. *)

From S2P Require Import Prelude GoText Errors Config Amqp Message Tracker Observation Producer Publish Events.
Import PublishTracker ContextMutex.

(** ** Generations *)

(** What [PublishWithContext] is called with. *)
Definition call_message : Type := string * string * bool * Publishing.

(** One channel with its connection, and the fields of the producer that point to
    it.  [gn_calls] are the client's calls that have neither transmitted nor
    returned, by the attempt they are for; [gn_wire] is what was transmitted, in the
    order of its numbers; the rest are logs: what the broker confirmed and returned,
    the calls given up by their caller (with whether the producer was closed then),
    and the calls that returned a preflight cancellation. *)
Record gen := mkGen {
  gn_session : string;
  gn_tracker : publishTracker;
  gn_returns : option (feed AmqpReturn);
  gn_confirms : feed Confirmation;
  gn_blocked : option (feed bool);
  gn_connectionClosed : bool;
  gn_close : generationClose;
  gn_calls : list (nat * call_message);
  gn_wire : list (nat * call_message);
  gn_confirmed : list (Z * bool);
  gn_returned : list AmqpReturn;
  gn_timeouts : list (nat * bool);
  gn_preflights : list nat }.

(** [recoverRuntime] and [newProducerFromChannelWithRecovery]: the fields of a new
    generation. *)
Definition newGen (config : ProducerConfig) (session : string) : gen :=
  mkGen session (newPublishTracker (MaxOutstanding config)) (Some (mkFeed [] false)) (mkFeed [] false)
    (Some (mkFeed [] false)) false newGenerationClose [] [] [] [] [] [].

(** [channel.GetNextPublishSeqNo()] *)
Definition next_sequence (G : gen) : Z := llen (gn_wire G) + 1.

Definition gen_tracker (G : gen) (t : publishTracker) : gen :=
  mkGen (gn_session G) t (gn_returns G) (gn_confirms G) (gn_blocked G) (gn_connectionClosed G) (gn_close G)
    (gn_calls G) (gn_wire G) (gn_confirmed G) (gn_returned G) (gn_timeouts G) (gn_preflights G).

Definition gen_calls (G : gen) (calls wire : list (nat * call_message)) : gen :=
  mkGen (gn_session G) (gn_tracker G) (gn_returns G) (gn_confirms G) (gn_blocked G) (gn_connectionClosed G) (gn_close G)
    calls wire (gn_confirmed G) (gn_returned G) (gn_timeouts G) (gn_preflights G).

Definition gen_feeds (G : gen) (returns : option (feed AmqpReturn)) (confirms : feed Confirmation)
    (blocked : option (feed bool)) (connectionClosed : bool) : gen :=
  mkGen (gn_session G) (gn_tracker G) returns confirms blocked connectionClosed (gn_close G)
    (gn_calls G) (gn_wire G) (gn_confirmed G) (gn_returned G) (gn_timeouts G) (gn_preflights G).

Definition gen_closed (G : gen) (close : generationClose) : gen :=
  mkGen (gn_session G) (gn_tracker G) (gn_returns G) (gn_confirms G) (gn_blocked G) (gn_connectionClosed G) close
    (gn_calls G) (gn_wire G) (gn_confirmed G) (gn_returned G) (gn_timeouts G) (gn_preflights G).

Definition gen_broker (G : gen) (confirmed : list (Z * bool)) (returned : list AmqpReturn) : gen :=
  mkGen (gn_session G) (gn_tracker G) (gn_returns G) (gn_confirms G) (gn_blocked G) (gn_connectionClosed G) (gn_close G)
    (gn_calls G) (gn_wire G) confirmed returned (gn_timeouts G) (gn_preflights G).

Definition gen_given_up (G : gen) (timeouts : list (nat * bool)) (preflights : list nat) : gen :=
  mkGen (gn_session G) (gn_tracker G) (gn_returns G) (gn_confirms G) (gn_blocked G) (gn_connectionClosed G) (gn_close G)
    (gn_calls G) (gn_wire G) (gn_confirmed G) (gn_returned G) timeouts preflights.

(** ** Publishers *)

(** The attempt a publisher holds: its generation, its address, its number. *)
Record pub_attempt := mkPubAttempt { pa_gen : nat; pa_ptr : nat; pa_sequence : Z }.

(** Where a publisher is in [publishAdmitted]: before the publish mutex; with it,
    before the test for a closing shutdown, past it, past the test for an
    unavailable producer, registered, and with its send running; without it again,
    after a cancelled send, after a failed or timed-out one and then waiting for the
    outcome someone else gave, waiting for the outcome, cancelled, about to abandon,
    waiting for the outcome that beat the abandoning; with its result before the
    deferred calls; and returned.  [started] tells whether the send began. *)
Inductive pub_phase :=
| PubAdmitted
| PubLocked
| PubOpen
| PubAvailable
| PubRegistered (a : pub_attempt)
| PubSending (a : pub_attempt)
| PubPreflight (a : pub_attempt) (contextErr : option error)
| PubFailed (a : pub_attempt) (err : option error)
| PubFailedWait (a : pub_attempt) (err : option error)
| PubWaiting (a : pub_attempt)
| PubCancelled (a : pub_attempt) (contextErr : error)
| PubAbandoning (a : pub_attempt) (contextErr : error)
| PubLast (a : pub_attempt)
| PubFinished (a : option pub_attempt) (started : bool) (result : PublishResult) (err : option error)
| PubDone (a : option pub_attempt) (result : PublishResult) (err : option error).

Record publisher := mkPublisher { pb_publication : Publication; pb_phase : pub_phase }.

(** ** The system *)

(** Where [runEvents] is: in [runGenerationWith], past its return, past
    [setBlocked(false)], [markRecovering], [failAll] and the close of the generation,
    in [recoverRuntime], past the installation of a new generation, past the loop,
    and past its deferred calls. *)
Inductive supervisor :=
| SupRunning | SupEnded | SupUnblocked | SupMarked | SupFailed | SupClosed | SupRecovering | SupInstalled
| SupReturned | SupDone.

(** Where [finishShutdown] is past its wait: before it tries the publish mutex,
    before [stopEvents], before the close of the current generation, and waiting for
    the event goroutine. *)
Inductive finisher := FinishIdle | FinishTrying | FinishStopping | FinishClosing | FinishWaiting.

(** The current generation is the last one.  [ys_closers] are the goroutines that
    close the generation of a send that timed out; [ys_stopped] tells that
    [eventsContext] is done. *)
Record psystem := mkPSystem {
  ys_producer : Producer;
  ys_mutex : contextMutex;
  ys_gens : list gen;
  ys_supervisor : supervisor;
  ys_publishers : list publisher;
  ys_closers : list nat;
  ys_finisher : finisher;
  ys_stopped : bool }.

Definition newPSystem (config : ProducerConfig) (session : string) : psystem :=
  mkPSystem (newProducer config) (mkMutex None) [newGen config session] SupRunning [] [] FinishIdle false.

Definition current (s : psystem) : nat := pred (length (ys_gens s)).

Definition with_producer (s : psystem) (p : Producer) : psystem :=
  mkPSystem p (ys_mutex s) (ys_gens s) (ys_supervisor s) (ys_publishers s) (ys_closers s) (ys_finisher s) (ys_stopped s).
Definition with_mutex (s : psystem) (m : contextMutex) : psystem :=
  mkPSystem (ys_producer s) m (ys_gens s) (ys_supervisor s) (ys_publishers s) (ys_closers s) (ys_finisher s) (ys_stopped s).
Definition with_gens (s : psystem) (gens : list gen) : psystem :=
  mkPSystem (ys_producer s) (ys_mutex s) gens (ys_supervisor s) (ys_publishers s) (ys_closers s) (ys_finisher s) (ys_stopped s).
Definition with_gen (s : psystem) (g : nat) (G : gen) : psystem := with_gens s (<[g := G]> (ys_gens s)).
Definition with_supervisor (s : psystem) (p : Producer) (x : supervisor) : psystem :=
  mkPSystem p (ys_mutex s) (ys_gens s) x (ys_publishers s) (ys_closers s) (ys_finisher s) (ys_stopped s).
Definition with_publishers (s : psystem) (l : list publisher) : psystem :=
  mkPSystem (ys_producer s) (ys_mutex s) (ys_gens s) (ys_supervisor s) l (ys_closers s) (ys_finisher s) (ys_stopped s).
Definition with_closers (s : psystem) (l : list nat) : psystem :=
  mkPSystem (ys_producer s) (ys_mutex s) (ys_gens s) (ys_supervisor s) (ys_publishers s) l (ys_finisher s) (ys_stopped s).
Definition with_finisher (s : psystem) (p : Producer) (m : contextMutex) (x : finisher) (stopped : bool) : psystem :=
  mkPSystem p m (ys_gens s) (ys_supervisor s) (ys_publishers s) (ys_closers s) x stopped.

Definition with_phase (s : psystem) (i : nat) (b : publisher) (phase : pub_phase) : psystem :=
  with_publishers s (<[i := mkPublisher (pb_publication b) phase]> (ys_publishers s)).

(** [publishMu.Unlock()], then the phase. *)
Definition unlock_to (s : psystem) (i : nat) (b : publisher) (phase : pub_phase) : option psystem :=
  match Unlock (ys_mutex s) with
  | None => None
  | Some m => Some (with_phase (with_mutex s m) i b phase)
  end.

(** ** The steps of a publisher *)

(** What the environment decides for a publisher's next step: nothing, that its
    context has ended, how its send ended and whether its context has then, and the
    measured latency of its confirmation. *)
Inductive pub_event :=
| PubGo
| PubContext (err : error)
| PubSend (event : send_event) (contextErr : option error)
| PubRelease (latency : Z).

Definition has_call (p : nat) (l : list (nat * call_message)) : bool := existsb (λ c, (c.1 =? p)%nat) l.
Definition drop_call (p : nat) (l : list (nat * call_message)) : list (nat * call_message) :=
  filter (λ c, c.1 ≠ p) l.

Definition publish_message (b : Publication) (token : string) : call_message :=
  (Publication_Exchange b, Publication_RoutingKey b, Mandatory b,
   amqpPublishing (Publication_Message b) (Publication_DeliveryMode b) token).

(** What the client may report: success only for a transmitted publication, and a
    preflight cancellation (an error that matches the ended context) only for one
    that was not. *)
Definition client_report (G : gen) (p : nat) (err contextErr : option error) : bool :=
  match err with
  | None => has_call p (gn_wire G)
  | Some _ => if isPreflightCancellation err contextErr then negb (has_call p (gn_wire G)) else true
  end.

(** [publishAdmitted] from the registration to the start of the send. *)
Definition pub_register (s : psystem) (i : nat) (b : publisher) : option psystem :=
  let g := current s in
  match ys_gens s !! g with
  | None => None
  | Some G =>
    let sequence := next_sequence G in
    match register (gn_tracker G) sequence (publish_token (gn_session G) sequence)
            (Publication_Exchange (pb_publication b)) (Publication_RoutingKey (pb_publication b)) with
    | (inl err, t) => unlock_to (with_gen s g (gen_tracker G t)) i b (PubFinished None false notSent (Some err))
    | (inr p, t) => Some (with_phase (with_gen s g (gen_tracker G t)) i b (PubRegistered (mkPubAttempt g p sequence)))
    end
  end.

Definition pub_start (s : psystem) (i : nat) (b : publisher) (a : pub_attempt) (G : gen) : option psystem :=
  if isShutdownClosing (ys_producer s) then
    match abandon (gn_tracker G) (pa_sequence a) PublishNotSent with
    | None => None
    | Some (_, t) =>
      unlock_to (with_gen s (pa_gen a) (gen_tracker G t)) i b (PubFinished (Some a) false notSent (Some ErrProducerClosed))
    end
  else
    let message := publish_message (pb_publication b) (publish_token (gn_session G) (pa_sequence a)) in
    Some (with_phase (with_gen s (pa_gen a) (gen_calls G (gn_calls G ++ [(pa_ptr a, message)]) (gn_wire G))) i b (PubSending a)).

(** The [select] on the send, up to the unlock. *)
Definition pub_send (s : psystem) (i : nat) (b : publisher) (a : pub_attempt) (G : gen) (event : send_event)
    (contextErr : option error) : option psystem :=
  let failed := with_producer s (failGeneration (ys_producer s) (pa_gen a =? current s)%nat) in
  match event with
  | SendReturned err =>
    return_if negb (client_report G (pa_ptr a) err contextErr), None ;;
    let preflight := isPreflightCancellation err contextErr in
    let s := if publishFailureRequiresRecovery err preflight then failed else s in
    let G := gen_given_up (gen_calls G (drop_call (pa_ptr a) (gn_calls G)) (gn_wire G)) (gn_timeouts G)
               (gn_preflights G ++ if preflight then [pa_ptr a] else []) in
    unlock_to (with_gen s (pa_gen a) G) i b
      (match err with
       | Some _ => if preflight then PubPreflight a contextErr else PubFailed a (Some ErrPublishAmbiguous)
       | None => PubWaiting a
       end)
  | SendTimedOut timeout =>
    let G := gen_given_up G (gn_timeouts G ++ [(pa_ptr a, pr_closed (ys_producer s))]) (gn_preflights G) in
    unlock_to (with_closers (with_gen failed (pa_gen a) G) (ys_closers s ++ [pa_gen a])) i b
      (PubFailed a (Join (Some ErrPublishAmbiguous) (Some timeout)))
  end.

(** A receive from the outcome of the attempt; [None] blocks. *)
Definition pub_receive (s : psystem) (i : nat) (b : publisher) (a : pub_attempt) (G : gen)
    (err : PublishResult → option error) : option psystem :=
  match receive (gn_tracker G) (pa_ptr a) with
  | None => None
  | Some (r, t) =>
    let result := received_result r in
    Some (with_phase (with_gen s (pa_gen a) (gen_tracker G t)) i b (PubFinished (Some a) true result (err result)))
  end.

(** [abandon] with the result it gives, or else the phase. *)
Definition pub_abandon (s : psystem) (i : nat) (b : publisher) (a : pub_attempt) (G : gen) (state : PublishState)
    (done lost : pub_phase) : option psystem :=
  match abandon (gn_tracker G) (pa_sequence a) state with
  | None => None
  | Some (ok, t) => Some (with_phase (with_gen s (pa_gen a) (gen_tracker G t)) i b (if ok then done else lost))
  end.

Definition ambiguous : PublishResult := mkPublishResult PublishAmbiguous None.

(** [completePublishError]: the error of a result that someone else gave. *)
Definition completed_error (err : option error) (result : PublishResult) : option error :=
  if Result_State result =s PublishAmbiguous then err else publishResultError result.

(** The steps that work on an attempt: the rest of [publishAdmitted], then
    [completePublishError], or [waitForOutcome] and [outcomeOrCancellation]. *)
Definition pub_attempt_step (s : psystem) (i : nat) (b : publisher) (a : pub_attempt) (G : gen) (e : pub_event)
    : option psystem :=
  match pb_phase b, e with
  | PubRegistered _, PubGo => pub_start s i b a G
  | PubSending _, PubSend event contextErr => pub_send s i b a G event contextErr
  | PubPreflight _ contextErr, PubGo =>
    let done := PubFinished (Some a) true notSent contextErr in pub_abandon s i b a G PublishNotSent done done
  | PubFailed _ err, PubGo =>
    pub_abandon s i b a G PublishAmbiguous (PubFinished (Some a) true ambiguous err) (PubFailedWait a err)
  | PubFailedWait _ err, PubGo => pub_receive s i b a G (completed_error err)
  | PubWaiting _, PubGo => pub_receive s i b a G publishResultError
  | PubWaiting _, PubContext err => Some (with_phase s i b (PubCancelled a err))
  | PubCancelled _ err, PubGo =>
    match pub_receive s i b a G publishResultError with
    | Some s => Some s
    | None => Some (with_phase s i b (PubAbandoning a err))
    end
  | PubAbandoning _ err, PubGo =>
    pub_abandon s i b a G PublishAmbiguous
      (PubFinished (Some a) true ambiguous (Join (Some ErrPublishAmbiguous) (Some err))) (PubLast a)
  | PubLast _, PubGo => pub_receive s i b a G publishResultError
  | _, _ => None
  end.

Definition phase_attempt (x : pub_phase) : option pub_attempt :=
  match x with
  | PubRegistered a | PubSending a | PubPreflight a _ | PubFailed a _ | PubFailedWait a _ | PubWaiting a
  | PubCancelled a _ | PubAbandoning a _ | PubLast a => Some a
  | PubFinished a _ _ _ | PubDone a _ _ => a
  | _ => None
  end.

Definition pub_step (s : psystem) (i : nat) (e : pub_event) : option psystem :=
  match ys_publishers s !! i with
  | None => None
  | Some b =>
    match pb_phase b, e with
    | PubAdmitted, PubContext err => Some (with_phase s i b (PubFinished None false notSent (Some err)))
    | PubAdmitted, PubGo =>
      match Lock (ys_mutex s) with
      | None => None
      | Some m => Some (with_phase (with_mutex s m) i b PubLocked)
      end
    | PubLocked, PubGo =>
      if isShutdownClosing (ys_producer s)
      then unlock_to s i b (PubFinished None false notSent (Some ErrProducerClosed))
      else Some (with_phase s i b PubOpen)
    | PubOpen, PubGo =>
      if isUnavailable (ys_producer s)
      then unlock_to s i b (PubFinished None false notSent (Some ErrProducerUnavailable))
      else Some (with_phase s i b PubAvailable)
    | PubAvailable, PubGo => pub_register s i b
    | PubFinished a started result err, PubRelease latency =>
      let p := observePublish (ys_producer s) result started latency in
      Some (with_phase (with_producer s (release p)) i b (PubDone a result err))
    | PubFinished _ _ _ _, _ | PubDone _ _ _, _ => None
    | phase, e =>
      match phase_attempt phase with
      | None => None
      | Some a =>
        match ys_gens s !! pa_gen a with
        | None => None
        | Some G => pub_attempt_step s i b a G e
        end
      end
    end
  end.

(** ** The event goroutine *)

(** What the environment decides for its next step: the case of the [select], the
    order in which [failAll] ranges over its map, how the two closes of a generation
    end, and in recovery a new attempt, a generation to install, or the end of the
    attempts. *)
Inductive sup_event :=
| SupCase (case : gen_case) (order : list Z)
| SupGo
| SupFail (order : list Z)
| SupClose (channelErr resourceErr : option error)
| SupReconnect
| SupInstall (session : string)
| SupExhausted.

(** The current generation as [runGenerationWith] sees it, and back. *)
Definition gen_view (s : psystem) (G : gen) : generation :=
  mkGeneration (ys_producer s) (gn_tracker G) (gn_returns G) (gn_confirms G) (gn_blocked G)
    (gn_connectionClosed G) (ys_stopped s).

Definition gen_write (G : gen) (v : generation) : gen :=
  gen_feeds (gen_tracker G (g_tracker v)) (g_returns v) (g_confirms v) (g_blocked v) (gn_connectionClosed G).

(** [closeProducerGeneration] on a generation whose handles are there. *)
Definition close_gen (G : gen) (channelErr resourceErr : option error) : option error * gen :=
  let '(err, state) := closeProducerGeneration (Some channelErr) (Some resourceErr) (Some (gn_close G)) in
  (err, gen_closed G (default (gn_close G) state)).

(** One iteration of [runGenerationWith]. *)
Definition sup_case (s : psystem) (G : gen) (case : gen_case) (order : list Z) : option psystem :=
  match gen_step (gen_view s G) case order with
  | None => None
  | Some (GenContinue v) =>
    Some (with_supervisor (with_gen s (current s) (gen_write G v)) (g_producer v) SupRunning)
  | Some (GenExit true v) =>
    Some (with_supervisor (with_gen s (current s) (gen_write G v)) (g_producer v) SupEnded)
  | Some (GenExit false v) =>
    Some (with_supervisor (with_gen s (current s) (gen_write G v)) (set_events (g_producer v) EventsReturned) SupReturned)
  end.

(** The installation of a new generation under the publish mutex. *)
Definition sup_install (s : psystem) (session : string) : option psystem :=
  match Lock (ys_mutex s), installGeneration (ys_producer s) with
  | Some m, Some p =>
    match Unlock m with
    | None => None
    | Some m =>
      let s := with_gens (with_mutex s m) (ys_gens s ++ [newGen (pr_config (ys_producer s)) session]) in
      Some (with_supervisor s (set_events p EventsInstalled) SupInstalled)
    end
  | _, _ => None
  end.

Definition sup_step (s : psystem) (e : sup_event) : option psystem :=
  let p := ys_producer s in
  match ys_gens s !! current s with
  | None => None
  | Some G =>
    match ys_supervisor s, e with
    | SupRunning, SupCase case order => sup_case s G case order
    | SupEnded, SupGo => Some (with_supervisor s (set_events (setBlocked p false) EventsEnding) SupUnblocked)
    | SupUnblocked, SupGo => Some (with_supervisor s (set_events (markRecovering p) EventsRecovering) SupMarked)
    | SupMarked, SupFail order =>
      match failAll (gn_tracker G) PublishAmbiguous order with
      | None => None
      | Some (_, t) => Some (with_supervisor (with_gen s (current s) (gen_tracker G t)) p SupFailed)
      end
    | SupFailed, SupClose channelErr resourceErr =>
      Some (with_supervisor (with_gen s (current s) (close_gen G channelErr resourceErr).2) p SupClosed)
    | SupClosed, SupGo => Some (with_supervisor s (set_phases p false EventsRecovering (pr_shutdown p)) SupRecovering)
    | SupRecovering, SupReconnect =>
      Some (with_supervisor s (observe p (observation ObservationReconnect ObservationAttempted)) SupRecovering)
    | SupRecovering, SupInstall session => sup_install s session
    | SupRecovering, SupExhausted =>
      Some (with_supervisor s (set_events (finishRecovery p false) EventsReturned) SupReturned)
    | SupInstalled, SupGo => Some (with_supervisor s (set_events (finishRecovery p true) EventsRunning) SupRunning)
    | SupReturned, SupGo => Some (with_supervisor s (endEvents p) SupDone)
    | _, _ => None
    end
  end.

(** ** Shutdown *)

Inductive fin_event :=
| FinBegin (timer : bool)
| FinGo
| FinClose (channelErr resourceErr : option error).

(** [finishShutdown]; [closeOwnedResources] stops the event goroutine, closes the
    current generation and waits for the event goroutine. *)
Definition fin_step (s : psystem) (e : fin_event) : option psystem :=
  let p := ys_producer s in
  match ys_finisher s, e with
  | FinishIdle, FinBegin timer =>
    match pr_shutdown p with
    | ShutdownDraining =>
      if pr_drained p || pr_shutdownForce p || timer
      then Some (with_finisher s (beginClosing p) (ys_mutex s) FinishTrying (ys_stopped s)) else None
    | _ => None
    end
  | FinishTrying, FinGo =>
    match TryLock (ys_mutex s) with
    | (true, m) =>
      match Unlock m with
      | None => None
      | Some m => Some (with_finisher s p m FinishStopping (ys_stopped s))
      end
    | (false, m) => Some (with_finisher s p m FinishStopping (ys_stopped s))
    end
  | FinishStopping, FinGo => Some (with_finisher s p (ys_mutex s) FinishClosing true)
  | FinishClosing, FinClose channelErr resourceErr =>
    match ys_gens s !! current s with
    | None => None
    | Some G =>
      let '(err, G) := close_gen G channelErr resourceErr in
      Some (with_finisher (with_gen s (current s) G) (closeOwnedResources p err) (ys_mutex s) FinishWaiting (ys_stopped s))
    end
  | FinishWaiting, FinGo =>
    match pr_events p, endShutdown p with
    | EventsDone, Some p => Some (with_finisher s p (ys_mutex s) FinishIdle (ys_stopped s))
    | _, _ => None
    end
  | _, _ => None
  end.

(** ** Client, network and broker *)

Inductive env_event :=
| EnvTransmit (p : nat)
| EnvConfirm (sequence : Z) (ack : bool)
| EnvReturn (ret : AmqpReturn)
| EnvBlocked (active : bool)
| EnvLost.

Definition push {A} (f : feed A) (x : A) : feed A := mkFeed (fd_queue f ++ [x]) (fd_closed f).
Definition shut {A} (f : feed A) : feed A := mkFeed (fd_queue f) true.

(** The client transmits a running call, giving it the next number; the broker
    confirms a number that was transmitted, returns a publication, blocks or
    unblocks; a lost connection closes every channel the client feeds. *)
Definition env_gen (G : gen) (e : env_event) : option gen :=
  match e with
  | EnvTransmit p =>
    match filter (λ c, c.1 = p) (gn_calls G) with
    | c :: _ => Some (gen_calls G (drop_call p (gn_calls G)) (gn_wire G ++ [c]))
    | [] => None
    end
  | EnvConfirm sequence ack =>
    if (1 <=? sequence) && (sequence <=? llen (gn_wire G)) && negb (fd_closed (gn_confirms G))
    then Some (gen_broker (gen_feeds G (gn_returns G) (push (gn_confirms G) (mkConfirmation sequence ack)) (gn_blocked G)
                             (gn_connectionClosed G))
                 (gn_confirmed G ++ [(sequence, ack)]) (gn_returned G))
    else None
  | EnvReturn ret =>
    match gn_returns G with
    | Some f =>
      return_if fd_closed f, None ;;
      Some (gen_broker (gen_feeds G (Some (push f ret)) (gn_confirms G) (gn_blocked G) (gn_connectionClosed G))
              (gn_confirmed G) (gn_returned G ++ [ret]))
    | None => None
    end
  | EnvBlocked active =>
    match gn_blocked G with
    | Some f =>
      return_if fd_closed f, None ;;
      Some (gen_feeds G (gn_returns G) (gn_confirms G) (Some (push f active)) (gn_connectionClosed G))
    | None => None
    end
  | EnvLost => Some (gen_feeds G (option_map shut (gn_returns G)) (shut (gn_confirms G)) (option_map shut (gn_blocked G)) true)
  end.

(** ** Steps *)

Inductive system_action :=
| DoPublish (publication : Publication)
| DoPublisher (i : nat) (e : pub_event)
| DoSupervisor (e : sup_event)
| DoCloser (n : nat) (channelErr resourceErr : option error)
| DoShutdown
| DoForce
| DoFinisher (e : fin_event)
| DoEnvironment (g : nat) (e : env_event)
| DoReadBlocked
| DoReadObservation.

(** [Publish] up to the admission. *)
Definition do_publish (s : psystem) (publication : Publication) : option psystem :=
  return_if present (Publication_Validate publication (Producer_Limits (pr_config (ys_producer s)))), None ;;
  match Producer_admit (ys_producer s) with
  | (Some _, p) => Some (with_producer s p)
  | (None, p) =>
    Some (with_publishers (with_producer s p)
            (ys_publishers s ++ [mkPublisher (ownPublication publication) PubAdmitted]))
  end.

(** The goroutine that closes the generation of a send that was given up. *)
Definition closer_step (s : psystem) (n : nat) (channelErr resourceErr : option error) : option psystem :=
  match ys_closers s !! n with
  | None => None
  | Some g =>
    match ys_gens s !! g with
    | None => None
    | Some G => Some (with_closers (with_gen s g (close_gen G channelErr resourceErr).2) (delete n (ys_closers s)))
    end
  end.

Definition system_exec (s : psystem) (a : system_action) : option psystem :=
  match a with
  | DoPublish publication => do_publish s publication
  | DoPublisher i e => pub_step s i e
  | DoSupervisor e => sup_step s e
  | DoCloser n channelErr resourceErr => closer_step s n channelErr resourceErr
  | DoShutdown => Some (with_producer s (startShutdown (ys_producer s)).2)
  | DoForce =>
    match pr_shutdown (ys_producer s) with
    | ShutdownIdle => None
    | _ => Some (with_producer s (forceShutdown (ys_producer s)))
    end
  | DoFinisher e => fin_step s e
  | DoEnvironment g e =>
    match ys_gens s !! g with
    | None => None
    | Some G => match env_gen G e with None => None | Some G => Some (with_gen s g G) end
    end
  | DoReadBlocked =>
    let p := ys_producer s in
    Some (with_producer s (set_blocked_state p (pr_blocked p) (takeBlockedState (pr_blockedEvents p)).2 (pr_blockedClosed p)))
  | DoReadObservation =>
    let p := ys_producer s in
    match obs_receive (pr_observations p) with
    | None => None
    | Some (_, observations) =>
      Some (with_producer s (set_shutdown p (pr_shutdownForce p) (pr_shutdownClosing p) (pr_resourceErr p) observations))
    end
  end.

(** A [range] over the map of the tracker visits its keys, in some order. *)
Definition ranges (s : psystem) (order : list Z) : Prop :=
  ∀ G, ys_gens s !! current s = Some G → order ≡ₚ (map_to_list (tr_sequence (gn_tracker G))).*1.

Definition scheduled (s : psystem) (a : system_action) : Prop :=
  match a with
  | DoSupervisor (SupCase GenStop order) | DoSupervisor (SupFail order) => ranges s order
  | _ => True
  end.

Definition system_step (s s' : psystem) : Prop := ∃ a, scheduled s a ∧ system_exec s a = Some s'.

Fixpoint system_run (s : psystem) (actions : list system_action) : option psystem :=
  match actions with
  | [] => Some s
  | a :: actions => match system_exec s a with None => None | Some s => system_run s actions end
  end.

(** ** The transitions of a publisher *)

(** [apply_pub s i b p m og closers x]: what a step of publisher [i] changes. *)
Definition apply_pub (s : psystem) (i : nat) (b : publisher) (p : Producer) (m : contextMutex)
    (og : option (nat * gen)) (closers : list nat) (x : pub_phase) : psystem :=
  mkPSystem p m (match og with Some (g, G) => <[g := G]> (ys_gens s) | None => ys_gens s end) (ys_supervisor s)
    (<[i := mkPublisher (pb_publication b) x]> (ys_publishers s)) closers (ys_finisher s) (ys_stopped s).

Definition finished_none (err : error) : pub_phase := PubFinished None false notSent (Some err).

(** The phases that receive an outcome, with the error they make of it. *)
Definition receiving (x : pub_phase) : option (pub_attempt * (PublishResult → option error)) :=
  match x with
  | PubFailedWait a err => Some (a, completed_error err)
  | PubWaiting a | PubCancelled a _ | PubLast a => Some (a, publishResultError)
  | _ => None
  end.

(** The phases that abandon their attempt as ambiguous, with the error they report
    and where they go when they come too late. *)
Definition abandoning (x : pub_phase) : option (pub_attempt * option error * pub_phase) :=
  match x with
  | PubFailed a err => Some (a, err, PubFailedWait a err)
  | PubAbandoning a err => Some (a, Join (Some ErrPublishAmbiguous) (Some err), PubLast a)
  | _ => None
  end.

Definition lookup_gen (s : psystem) (a : pub_attempt) (G : gen) : Prop := ys_gens s !! pa_gen a = Some G.

Inductive pub_trans (s : psystem) (b : publisher) :
  Producer → contextMutex → option (nat * gen) → list nat → pub_phase → Prop :=
| pt_context err :
    pb_phase b = PubAdmitted → pub_trans s b (ys_producer s) (ys_mutex s) None (ys_closers s) (finished_none err)
| pt_lock m :
    pb_phase b = PubAdmitted → Lock (ys_mutex s) = Some m →
    pub_trans s b (ys_producer s) m None (ys_closers s) PubLocked
| pt_closing m :
    pb_phase b = PubLocked → isShutdownClosing (ys_producer s) = true → Unlock (ys_mutex s) = Some m →
    pub_trans s b (ys_producer s) m None (ys_closers s) (finished_none ErrProducerClosed)
| pt_open :
    pb_phase b = PubLocked → isShutdownClosing (ys_producer s) = false →
    pub_trans s b (ys_producer s) (ys_mutex s) None (ys_closers s) PubOpen
| pt_unavailable m :
    pb_phase b = PubOpen → isUnavailable (ys_producer s) = true → Unlock (ys_mutex s) = Some m →
    pub_trans s b (ys_producer s) m None (ys_closers s) (finished_none ErrProducerUnavailable)
| pt_available :
    pb_phase b = PubOpen → isUnavailable (ys_producer s) = false →
    pub_trans s b (ys_producer s) (ys_mutex s) None (ys_closers s) PubAvailable
| pt_refused m G err t :
    pb_phase b = PubAvailable → ys_gens s !! current s = Some G → Unlock (ys_mutex s) = Some m →
    register (gn_tracker G) (next_sequence G) (publish_token (gn_session G) (next_sequence G))
      (Publication_Exchange (pb_publication b)) (Publication_RoutingKey (pb_publication b)) = (inl err, t) →
    pub_trans s b (ys_producer s) m (Some (current s, gen_tracker G t)) (ys_closers s) (finished_none err)
| pt_register G p t :
    pb_phase b = PubAvailable → ys_gens s !! current s = Some G →
    register (gn_tracker G) (next_sequence G) (publish_token (gn_session G) (next_sequence G))
      (Publication_Exchange (pb_publication b)) (Publication_RoutingKey (pb_publication b)) = (inr p, t) →
    pub_trans s b (ys_producer s) (ys_mutex s) (Some (current s, gen_tracker G t)) (ys_closers s)
      (PubRegistered (mkPubAttempt (current s) p (next_sequence G)))
| pt_closed a m G ok t :
    pb_phase b = PubRegistered a → lookup_gen s a G → isShutdownClosing (ys_producer s) = true →
    Unlock (ys_mutex s) = Some m → abandon (gn_tracker G) (pa_sequence a) PublishNotSent = Some (ok, t) →
    pub_trans s b (ys_producer s) m (Some (pa_gen a, gen_tracker G t)) (ys_closers s)
      (PubFinished (Some a) false notSent (Some ErrProducerClosed))
| pt_send a G :
    pb_phase b = PubRegistered a → lookup_gen s a G → isShutdownClosing (ys_producer s) = false →
    pub_trans s b (ys_producer s) (ys_mutex s)
      (Some (pa_gen a, gen_calls G (gn_calls G ++ [(pa_ptr a,
         publish_message (pb_publication b) (publish_token (gn_session G) (pa_sequence a)))]) (gn_wire G)))
      (ys_closers s) (PubSending a)
| pt_returned a m G err contextErr :
    pb_phase b = PubSending a → lookup_gen s a G → Unlock (ys_mutex s) = Some m →
    client_report G (pa_ptr a) err contextErr = true →
    pub_trans s b
      (if publishFailureRequiresRecovery err (isPreflightCancellation err contextErr)
       then failGeneration (ys_producer s) (pa_gen a =? current s)%nat else ys_producer s) m
      (Some (pa_gen a, gen_given_up (gen_calls G (drop_call (pa_ptr a) (gn_calls G)) (gn_wire G)) (gn_timeouts G)
         (gn_preflights G ++ if isPreflightCancellation err contextErr then [pa_ptr a] else [])))
      (ys_closers s)
      (match err with
       | Some _ => if isPreflightCancellation err contextErr then PubPreflight a contextErr
                   else PubFailed a (Some ErrPublishAmbiguous)
       | None => PubWaiting a
       end)
| pt_timeout a m G timeout :
    pb_phase b = PubSending a → lookup_gen s a G → Unlock (ys_mutex s) = Some m →
    pub_trans s b (failGeneration (ys_producer s) (pa_gen a =? current s)%nat) m
      (Some (pa_gen a, gen_given_up G (gn_timeouts G ++ [(pa_ptr a, pr_closed (ys_producer s))]) (gn_preflights G)))
      (ys_closers s ++ [pa_gen a]) (PubFailed a (Join (Some ErrPublishAmbiguous) (Some timeout)))
| pt_preflight a G contextErr ok t :
    pb_phase b = PubPreflight a contextErr → lookup_gen s a G →
    abandon (gn_tracker G) (pa_sequence a) PublishNotSent = Some (ok, t) →
    pub_trans s b (ys_producer s) (ys_mutex s) (Some (pa_gen a, gen_tracker G t)) (ys_closers s)
      (PubFinished (Some a) true notSent contextErr)
| pt_abandon a G err later t :
    abandoning (pb_phase b) = Some (a, err, later) → lookup_gen s a G →
    abandon (gn_tracker G) (pa_sequence a) PublishAmbiguous = Some (true, t) →
    pub_trans s b (ys_producer s) (ys_mutex s) (Some (pa_gen a, gen_tracker G t)) (ys_closers s)
      (PubFinished (Some a) true ambiguous err)
| pt_lost a G err later t :
    abandoning (pb_phase b) = Some (a, err, later) → lookup_gen s a G →
    abandon (gn_tracker G) (pa_sequence a) PublishAmbiguous = Some (false, t) →
    pub_trans s b (ys_producer s) (ys_mutex s) (Some (pa_gen a, gen_tracker G t)) (ys_closers s) later
| pt_receive a G err r t :
    receiving (pb_phase b) = Some (a, err) → lookup_gen s a G →
    receive (gn_tracker G) (pa_ptr a) = Some (r, t) →
    pub_trans s b (ys_producer s) (ys_mutex s) (Some (pa_gen a, gen_tracker G t)) (ys_closers s)
      (PubFinished (Some a) true (received_result r) (err (received_result r)))
| pt_cancel a err :
    pb_phase b = PubWaiting a → pub_trans s b (ys_producer s) (ys_mutex s) None (ys_closers s) (PubCancelled a err)
| pt_abandoning a err :
    pb_phase b = PubCancelled a err →
    pub_trans s b (ys_producer s) (ys_mutex s) None (ys_closers s) (PubAbandoning a err)
| pt_release a started result err latency :
    pb_phase b = PubFinished a started result err →
    pub_trans s b (release (observePublish (ys_producer s) result started latency)) (ys_mutex s) None (ys_closers s)
      (PubDone a result err).

Lemma pub_attempt_step_trans s i b a G e s' :
  phase_attempt (pb_phase b) = Some a → lookup_gen s a G → pub_attempt_step s i b a G e = Some s' →
  ∃ p m og closers x, pub_trans s b p m og closers x ∧ s' = apply_pub s i b p m og closers x.
Proof.
  intros Ha Hg Hstep. unfold pub_attempt_step in Hstep. destruct (pb_phase b) eqn:Hb; simpl in Ha; try done;
    destruct e as [|ctx|event ctx|latency]; try done; simplify_eq.
  - unfold pub_start in Hstep. destruct (isShutdownClosing _) eqn:Hc.
    + destruct (abandon _ _ _) as [[ok t]|] eqn:Hab; [|done]. unfold unlock_to in Hstep. simpl in Hstep.
      destruct (Unlock _) eqn:Hm; [|done]. injection Hstep as <-. do 5 eexists. split; [by eapply pt_closed|done].
    + injection Hstep as <-. do 5 eexists. split; [by eapply pt_send|done].
  - destruct event as [err|timeout]; simpl in Hstep.
    + destruct (client_report _ _ _ _) eqn:Hr; [|done]. simpl in Hstep. unfold unlock_to in Hstep.
      assert (Unlock (ys_mutex s) ≠ None) as Hm by (destruct (publishFailureRequiresRecovery _ _); intros E; simpl in Hstep; by rewrite E in Hstep).
      destruct (Unlock (ys_mutex s)) as [m|] eqn:E; [|done].
      do 5 eexists. split; [by eapply (pt_returned s b a m G err ctx)|].
      destruct (publishFailureRequiresRecovery _ _); simpl in Hstep; rewrite E in Hstep; by injection Hstep as <-.
    + unfold unlock_to in Hstep. simpl in Hstep. destruct (Unlock _) eqn:Hm; [|done]. injection Hstep as <-.
      do 5 eexists. split; [by eapply pt_timeout|done].
  - unfold pub_abandon in Hstep. destruct (abandon _ _ _) as [[ok t]|] eqn:Hab; [|done].
    injection Hstep as <-. do 5 eexists. split; [by eapply pt_preflight|by destruct ok].
  - unfold pub_abandon in Hstep. destruct (abandon _ _ _) as [[[|] t]|] eqn:Hab; [| |done]; injection Hstep as <-;
      do 5 eexists; [split; [eapply pt_abandon|]|split; [eapply pt_lost|]]; try done; by rewrite Hb.
  - unfold pub_receive in Hstep. destruct (receive _ _) as [[r t]|] eqn:Hr; [|done]. injection Hstep as <-.
    do 5 eexists. split; [eapply (pt_receive s b a G (completed_error err))|]; try done. by rewrite Hb.
  - unfold pub_receive in Hstep. destruct (receive _ _) as [[r t]|] eqn:Hr; [|done]. injection Hstep as <-.
    do 5 eexists. split; [eapply (pt_receive s b a G publishResultError)|]; try done. by rewrite Hb.
  - do 5 eexists. split; [by eapply pt_cancel|done].
  - unfold pub_receive in Hstep. destruct (receive _ _) as [[r t]|] eqn:Hr; injection Hstep as <-;
      do 5 eexists; [split; [eapply (pt_receive s b a G publishResultError)|]|split; [by eapply pt_abandoning|]]; try done.
    by rewrite Hb.
  - unfold pub_abandon in Hstep. destruct (abandon _ _ _) as [[[|] t]|] eqn:Hab; [| |done]; injection Hstep as <-;
      do 5 eexists; [split; [eapply pt_abandon|]|split; [eapply pt_lost|]]; try done; by rewrite Hb.
  - unfold pub_receive in Hstep. destruct (receive _ _) as [[r t]|] eqn:Hr; [|done]. injection Hstep as <-.
    do 5 eexists. split; [eapply (pt_receive s b a G publishResultError)|]; try done. by rewrite Hb.
Qed.

Lemma pub_step_trans s i e s' :
  pub_step s i e = Some s' →
  ∃ b p m og closers x, ys_publishers s !! i = Some b ∧ pub_trans s b p m og closers x
  ∧ s' = apply_pub s i b p m og closers x.
Proof.
  unfold pub_step. destruct (ys_publishers s !! i) as [b|] eqn:Hi; [|done]. intros Hstep. exists b.
  assert (∀ a, phase_attempt (pb_phase b) = Some a →
    match ys_gens s !! pa_gen a with None => None | Some G => pub_attempt_step s i b a G e end = Some s' →
    ∃ p m og closers x, Some b = Some b ∧ pub_trans s b p m og closers x ∧ s' = apply_pub s i b p m og closers x) as Hattempt.
  { intros a Ha Hst. destruct (ys_gens s !! pa_gen a) as [G|] eqn:Hg; [|done].
    destruct (pub_attempt_step_trans s i b a G e s' Ha Hg Hst) as (p & m & og & closers & x & Ht & Hs'). eauto 10. }
  destruct (pb_phase b) as [| | | |a|a|a err|a err|a err|a|a err|a err|a|a started result err|a result err] eqn:Hb;
    try (apply (Hattempt a eq_refl); by destruct e); destruct e as [|ctx|event ctx|latency]; try done; clear Hattempt.
  - destruct (Lock _) as [m|] eqn:Hm; [|done]. injection Hstep as <-. do 5 eexists. split_and!; [done|by eapply pt_lock|done].
  - injection Hstep as <-. do 5 eexists. split_and!; [done|by eapply pt_context|done].
  - unfold unlock_to in Hstep. destruct (isShutdownClosing _) eqn:Hc; [destruct (Unlock _) eqn:Hm; [|done]|];
      injection Hstep as <-; do 5 eexists; (split_and!; [done| |]); [by eapply pt_closing|done|by eapply pt_open|done].
  - unfold unlock_to in Hstep. destruct (isUnavailable _) eqn:Hc; [destruct (Unlock _) eqn:Hm; [|done]|];
      injection Hstep as <-; do 5 eexists; (split_and!; [done| |]); [by eapply pt_unavailable|done|by eapply pt_available|done].
  - unfold pub_register in Hstep. destruct (ys_gens s !! current s) as [G|] eqn:Hg; [|done].
    destruct (register _ _ _ _ _) as [[err|p] t] eqn:Hr.
    + unfold unlock_to in Hstep. simpl in Hstep. destruct (Unlock _) eqn:Hm; [|done]. injection Hstep as <-.
      do 5 eexists. split_and!; [done|by eapply pt_refused|done].
    + injection Hstep as <-. do 5 eexists. split_and!; [done|by eapply pt_register|done].
  - injection Hstep as <-. do 5 eexists. split_and!; [done|by eapply pt_release|done].
Qed.

(** ** Counting publishers *)

Definition tally (f : publisher → bool) (l : list publisher) : nat := length (List.filter f l).

Lemma tally_app f l1 l2 : tally f (l1 ++ l2) = (tally f l1 + tally f l2)%nat.
Proof. unfold tally. by rewrite List.filter_app, length_app. Qed.

Lemma tally_insert f l i b b' :
  l !! i = Some b → (tally f (<[i := b']> l) + Nat.b2n (f b) = tally f l + Nat.b2n (f b'))%nat.
Proof.
  intros Hi. assert (i < length l)%nat as Hlt by (by apply lookup_lt_Some in Hi).
  rewrite insert_take_drop by done. rewrite <- (take_drop_middle l i b Hi) at 3. rewrite !tally_app.
  unfold tally. simpl. destruct (f b), (f b'); simpl; lia.
Qed.

Lemma tally_pos f l i b : l !! i = Some b → f b = true → (0 < tally f l)%nat.
Proof.
  intros Hi Hf. rewrite <- (take_drop_middle l i b Hi), tally_app. unfold tally. simpl. rewrite Hf. simpl. lia.
Qed.

Lemma tally_two f l i j b b' :
  l !! i = Some b → l !! j = Some b' → f b = true → f b' = true → (tally f l <= 1)%nat → i = j.
Proof.
  intros Hi Hj Hb Hb' Hle. destruct (decide (i = j)) as [|Hne]; [done|]. exfalso.
  rewrite <- (take_drop_middle l i b Hi), tally_app in Hle. change (b :: drop (S i) l) with ([b] ++ drop (S i) l) in Hle.
  rewrite tally_app in Hle. assert (tally f [b] = 1%nat) as E by (unfold tally; simpl; by rewrite Hb). rewrite E in Hle.
  destruct (decide (j < i)%nat).
  - pose proof (tally_pos f (take i l) j b'). rewrite lookup_take, decide_True in H by done. specialize (H Hj Hb'). lia.
  - pose proof (tally_pos f (drop (S i) l) (j - S i)%nat b'). rewrite lookup_drop in H.
    replace (S i + (j - S i))%nat with j in H by lia. specialize (H Hj Hb'). lia.
Qed.

(** The publisher has the publish mutex. *)
Definition holds (b : publisher) : bool :=
  match pb_phase b with PubLocked | PubOpen | PubAvailable | PubRegistered _ | PubSending _ => true | _ => false end.

(** The publisher was not released. *)
Definition unreleased (b : publisher) : bool := match pb_phase b with PubDone _ _ _ => false | _ => true end.

(** ** The phases agree *)

Definition phase_events (x : supervisor) : events_phase :=
  match x with
  | SupRunning | SupEnded => EventsRunning
  | SupUnblocked => EventsEnding
  | SupMarked | SupFailed | SupClosed | SupRecovering => EventsRecovering
  | SupInstalled => EventsInstalled
  | SupReturned => EventsReturned
  | SupDone => EventsDone
  end.

Record sync (s : psystem) : Prop := {
  sn_gens : ys_gens s ≠ [];
  sn_events : pr_events (ys_producer s) = phase_events (ys_supervisor s);
  sn_finisher : match ys_finisher s with
                | FinishIdle => pr_shutdown (ys_producer s) ≠ ShutdownClosing
                | _ => pr_shutdown (ys_producer s) = ShutdownClosing
                end;
  sn_stopped : ys_stopped s = true → pr_shutdown (ys_producer s) = ShutdownClosing ∨ pr_shutdown (ys_producer s) = ShutdownDone;
  sn_done : pr_shutdown (ys_producer s) = ShutdownDone → ys_supervisor s = SupDone;
  sn_active : pr_active (ys_producer s) = Z.of_nat (tally unreleased (ys_publishers s));
  sn_mutex : exclusive (ys_mutex s, tally holds (ys_publishers s)) }.

(** What the steps that do not concern the phases leave alone. *)
Definition same_phases (p p' : Producer) : Prop :=
  pr_events p' = pr_events p ∧ pr_shutdown p' = pr_shutdown p ∧ pr_active p' = pr_active p
  ∧ pr_config p' = pr_config p ∧ pr_closed p' = pr_closed p ∧ pr_resourceErr p' = pr_resourceErr p
  ∧ pr_terminal p' = pr_terminal p ∧ (pr_unavailable p = true → pr_unavailable p' = true).

#[global] Instance same_phases_refl : Reflexive same_phases.
Proof. intros p. unfold same_phases. by split_and!. Qed.
#[global] Instance same_phases_trans : Transitive same_phases.
Proof. intros p1 p2 p3 (?&?&?&?&?&?&?&?) (?&?&?&?&?&?&?&?). unfold same_phases. split_and!; [congruence..|auto]. Qed.

(** A run of steps of the shared state that leaves the phases alone. *)
Definition quiet (p p' : Producer) : Prop := rtc producer_step p p' ∧ same_phases p p'.

#[global] Instance quiet_refl : Reflexive quiet.
Proof. by split. Qed.
#[global] Instance quiet_trans : Transitive quiet.
Proof. intros p1 p2 p3 [? ?] [? ?]. split; by etrans. Qed.

Lemma quiet_observe p o : quiet p (observe p o).
Proof. split; [apply rtc_once, ps_observe|by unfold same_phases; split_and!]. Qed.

Lemma setBlocked_phases p active : same_phases p (setBlocked p active).
Proof. unfold setBlocked. repeat (case_match; simpl; try done). Qed.

Lemma markRecovering_phases p : same_phases p (markRecovering p).
Proof. unfold markRecovering. by case_match. Qed.

Lemma finishRecovery_phases p recovered :
  let p' := finishRecovery p recovered in
  pr_closed p' = pr_closed p ∧ pr_shutdown p' = pr_shutdown p ∧ pr_active p' = pr_active p
  ∧ pr_resourceErr p' = pr_resourceErr p ∧ (pr_unavailable p = true → pr_unavailable p' = true)
  ∧ (recovered = true → pr_terminal p' = pr_terminal p).
Proof. unfold finishRecovery, producerRecoveryTerminal. destruct recovered, (pr_closed p) eqn:Hc; simpl; rewrite ?Hc, ?orb_false_r; by split_and!. Qed.

Lemma quiet_failGeneration p b : quiet p (failGeneration p b).
Proof.
  split; [apply rtc_once, ps_fail|]. unfold failGeneration, markRecovering. destruct (negb b); [done|].
  by destruct (producerRecoveryAllowed _ _).
Qed.

Lemma quiet_setBlocked p active : pr_events p = EventsRunning → quiet p (setBlocked p active).
Proof.
  intros He. split; [by apply rtc_once, ps_blocked|apply setBlocked_phases].
Qed.

Lemma quiet_observePublish p result started latency : quiet p (observePublish p result started latency).
Proof.
  unfold observePublish. set (p1 := observe p _). assert (quiet p p1) as H1 by apply quiet_observe.
  assert (∀ b : bool, quiet p1 (if b then observe p1 (observation ObservationAmbiguous ObservationAmbiguousOutcome) else p1)) as H2
    by (intros [|]; [apply quiet_observe|reflexivity]).
  etrans; [exact H1|]. etrans; [apply (H2 (Result_State result =s PublishAmbiguous))|].
  destruct (negb _); [reflexivity|apply quiet_observe].
Qed.

Lemma quiet_applyReturn p t ret ok p' t' : applyReturn p t ret = Some (ok, p', t') → quiet p p'.
Proof. unfold applyReturn. repeat case_match; intros; simplify_eq; apply quiet_observe. Qed.

Lemma quiet_drain_queue p t queue ok p' t' rest : drain_queue p t queue = Some (ok, p', t', rest) → quiet p p'.
Proof.
  revert p t. induction queue as [|ret queue IH]; intros p t; simpl; [by intros [= _ <- _ _]|].
  destruct (applyReturn p t ret) as [[[[|] p1] t1]|] eqn:Ha; [| |done]; apply quiet_applyReturn in Ha.
  - intros H. etrans; [exact Ha|by eapply IH].
  - by intros [= _ <- _ _].
Qed.

Definition gen_result_generation (r : gen_result) : generation := match r with GenContinue g | GenExit _ g => g end.

Lemma quiet_gen_step g case order r :
  pr_events (g_producer g) = EventsRunning → gen_step g case order = Some r →
  quiet (g_producer g) (g_producer (gen_result_generation r)).
Proof.
  intros He Hstep. destruct case; simpl in Hstep.
  - destruct (g_returns g) as [f|]; [|done]. destruct (fd_queue f) as [|ret queue].
    { destruct (fd_closed f); [|done]. by injection Hstep as <-. }
    destruct (applyReturn _ _ _) as [[[ok p] t]|] eqn:Ha; [|done]. apply quiet_applyReturn in Ha.
    destruct ok; by injection Hstep as <-.
  - destruct (fd_queue (g_confirms g)) as [|c queue]; [destruct (fd_closed _); by simplify_eq|].
    destruct (drainReturns _ _ _) as [[[[[|] p] t] returns]|] eqn:Hd; [| |done];
      (assert (quiet (g_producer g) p) as Hq; [unfold drainReturns in Hd; destruct (g_returns g); [|by simplify_eq];
        destruct (drain_queue _ _ _) as [[[[? ?] ?] ?]|] eqn:Hd'; [|done]; apply quiet_drain_queue in Hd'; by simplify_eq|]).
    + destruct (confirm _ _ _) as [[? ?]|]; [|done]. injection Hstep as <-. simpl. etrans; [exact Hq|apply quiet_observe].
    + by injection Hstep as <-.
  - destruct (g_connectionClosed g); by simplify_eq.
  - destruct (g_blocked g) as [f|]; [|done]. destruct (fd_queue f) as [|active queue].
    { destruct (fd_closed f); by simplify_eq. }
    injection Hstep as <-. simpl. by apply quiet_setBlocked.
  - destruct (pr_failure _); by simplify_eq.
  - destruct (g_stopped g); [|done]. destruct (failAll _ _ _) as [[? ?]|]; by simplify_eq.
Qed.

(** ** Every step is a run of steps of the shared state *)

Lemma pub_trans_producer s b p m og closers x :
  pub_trans s b p m og closers x →
  quiet (ys_producer s) p ∧ unreleased b = true ∧ unreleased (mkPublisher (pb_publication b) x) = true
  ∨ ∃ q, quiet (ys_producer s) q ∧ p = release q ∧ unreleased b = true
         ∧ unreleased (mkPublisher (pb_publication b) x) = false.
Proof.
  unfold unreleased. intros Ht. destruct Ht as [? Hb|? Hb|? Hb|Hb|? Hb|Hb|? ? ? ? Hb|? ? ? Hb|? ? ? ? ? Hb|? ? Hb
    |? ? ? err ? Hb|? ? ? ? Hb|? ? ? ? ? Hb|? ? ? ? ? Hb|? ? ? ? ? Hb|? ? ? ? ? Hb|? ? Hb|? ? Hb|? ? ? ? ? Hb].
  1-10: left; rewrite Hb; by split_and!.
  - left. rewrite Hb. destruct (publishFailureRequiresRecovery _ _); (split; [apply quiet_failGeneration || reflexivity|split; [done|]]);
      simpl; (destruct err; [by destruct (isPreflightCancellation _ _)|done]).
  - left. rewrite Hb. split; [apply quiet_failGeneration|done].
  - left. rewrite Hb. by split_and!.
  - left. split; [done|]. by destruct (pb_phase b).
  - left. split; [done|]. simpl. by destruct (pb_phase b); simplify_eq/=.
  - left. split; [done|]. by destruct (pb_phase b).
  - left. rewrite Hb. by split_and!.
  - left. rewrite Hb. by split_and!.
  - right. rewrite Hb. eexists. split; [apply quiet_observePublish|done].
Qed.

Lemma pub_trans_mutex s b p m og closers x :
  pub_trans s b p m og closers x →
  let b' := mkPublisher (pb_publication b) x in
  m = ys_mutex s ∧ holds b' = holds b ∨ Lock (ys_mutex s) = Some m ∧ holds b = false ∧ holds b' = true
  ∨ Unlock (ys_mutex s) = Some m ∧ holds b = true ∧ holds b' = false.
Proof.
  unfold holds. intros Ht. destruct Ht as [? Hb|? Hb|? Hb|Hb|? Hb|Hb|? ? ? ? Hb|? ? ? Hb|? ? ? ? ? Hb|? ? Hb
    |? ? ? err ? Hb|? ? ? ? Hb|? ? ? ? ? Hb|? ? ? ? ? Hb|? ? ? ? ? Hb|? ? ? ? ? Hb|? ? Hb|? ? Hb|? ? ? ? ? Hb]; simpl;
    try (rewrite Hb; by auto).
  - rewrite Hb. right. right. split_and!; [done|done|]. destruct err; [by destruct (isPreflightCancellation _ _)|done].
  - left. split; [done|]. by destruct (pb_phase b).
  - left. split; [done|]. destruct (pb_phase b); simplify_eq/=; done.
  - left. split; [done|]. by destruct (pb_phase b).
Qed.

Lemma exclusive_pub s i b p m og closers x :
  ys_publishers s !! i = Some b → pub_trans s b p m og closers x →
  exclusive (ys_mutex s, tally holds (ys_publishers s)) →
  exclusive (m, tally holds (<[i := mkPublisher (pb_publication b) x]> (ys_publishers s))).
Proof.
  intros Hi Ht He. pose proof (tally_insert holds _ i b (mkPublisher (pb_publication b) x) Hi) as Hn.
  destruct (pub_trans_mutex _ _ _ _ _ _ _ Ht) as [[-> Hh]|[(Hl & Hb & Hb')|(Hu & Hb & Hb')]].
  - rewrite Hh in Hn. replace (tally holds (<[i := _]> _)) with (tally holds (ys_publishers s)) by lia. done.
  - rewrite Hb, Hb' in Hn. simpl in Hn. replace (tally holds (<[i := _]> _)) with (S (tally holds (ys_publishers s))) by lia.
    eapply exclusive_step; [by apply mutex_lock|done].
  - rewrite Hb, Hb' in Hn. simpl in Hn.
    replace (tally holds (ys_publishers s)) with (S (tally holds (<[i := mkPublisher (pb_publication b) x]> (ys_publishers s)))) in He by lia.
    eapply exclusive_step; [by apply mutex_unlock|done].
Qed.

Lemma sync_pub s i b p m og closers x :
  sync s → ys_publishers s !! i = Some b → pub_trans s b p m og closers x →
  rtc producer_step (ys_producer s) p ∧ sync (apply_pub s i b p m og closers x).
Proof.
  intros Hsync Hi Ht. pose proof (exclusive_pub _ _ _ _ _ _ _ _ Hi Ht (sn_mutex _ Hsync)) as Hm.
  destruct Hsync. pose proof (tally_insert unreleased _ i b (mkPublisher (pb_publication b) x) Hi) as Hn.
  assert (match og with Some (g, G) => <[g := G]> (ys_gens s) | None => ys_gens s end ≠ []) as Hg.
  { destruct og as [[g G]|]; [|done]. destruct (ys_gens s), g; done. }
  destruct (pub_trans_producer _ _ _ _ _ _ _ Ht) as [([Hr (E1 & E2 & E3 & _)] & Hb & Hb')|(q & [Hr (E1 & E2 & E3 & _)] & -> & Hb & Hb')];
    rewrite Hb, Hb' in Hn; simpl in Hn.
  - split; [done|]. split; simpl; try congruence; try done; [by rewrite E2|by rewrite E2|by rewrite E2|]. rewrite E3, sn_active0. lia.
  - split.
    + eapply rtc_r; [exact Hr|]. apply ps_release. rewrite E3, sn_active0. lia.
    + unfold release. split; simpl; try congruence; try done; [by rewrite E2|by rewrite E2|by rewrite E2|].
      unfold previousProducerActive. rewrite E3, sn_active0. lia.
Qed.

(** A step that changes the shared state quietly, and nothing else but generations
    and closers. *)
Lemma sync_quiet s p gens closers :
  sync s → quiet (ys_producer s) p → gens ≠ [] →
  rtc producer_step (ys_producer s) p
  ∧ sync (mkPSystem p (ys_mutex s) gens (ys_supervisor s) (ys_publishers s) closers (ys_finisher s) (ys_stopped s)).
Proof.
  intros [] [Hr (E1 & E2 & E3 & _)] Hg. split; [done|]. split; simpl; try congruence; try done; by rewrite E2.
Qed.

(** A step of the event goroutine. *)
Lemma sync_supervisor s p gens x :
  sync s → rtc producer_step (ys_producer s) p → gens ≠ [] → pr_events p = phase_events x →
  ys_supervisor s ≠ SupDone → pr_shutdown p = pr_shutdown (ys_producer s) → pr_active p = pr_active (ys_producer s) →
  rtc producer_step (ys_producer s) p
  ∧ sync (mkPSystem p (ys_mutex s) gens x (ys_publishers s) (ys_closers s) (ys_finisher s) (ys_stopped s)).
Proof.
  intros [] Hr Hg E1 Hnd E2 E3. split; [done|]. split; simpl; try congruence; try done; rewrite E2; [done|done|].
  intros Hd. by apply sn_done0 in Hd.
Qed.

Lemma with_gen_nonempty s g G : ys_gens s ≠ [] → <[g := G]> (ys_gens s) ≠ [].
Proof. by destruct (ys_gens s), g. Qed.

Lemma exclusive_lock_unlock m m' n : Lock m = Some m' → exclusive (m, n) → ∃ m'', Unlock m' = Some m'' ∧ exclusive (m'', n).
Proof.
  intros Hl He. pose proof (exclusive_step _ _ (mutex_lock m m' n Hl) He) as H1.
  assert (is_Some (Unlock m')) as [m'' Hu].
  { unfold exclusive in H1. destruct m' as [[[|k]|]]; simpl in *; [by eexists|lia|lia]. }
  exists m''. split; [done|]. by eapply exclusive_step; [by apply mutex_unlock|].
Qed.

Ltac sup_phase s :=
  apply (sync_supervisor s); try done; try (by apply with_gen_nonempty); try (simpl; congruence).

Lemma sync_sup s e s' :
  sync s → sup_step s e = Some s' → rtc producer_step (ys_producer s) (ys_producer s') ∧ sync s'.
Proof.
  intros Hsync Hstep. pose proof Hsync as [Hg He Hf Hst Hdone _ Hm]. unfold sup_step in Hstep.
  destruct (ys_gens s !! current s) as [G|]; [|done].
  destruct (ys_supervisor s) eqn:Hx, e as [case order| |order|ce re| |session|]; try done; simpl in He.
  - unfold sup_case in Hstep. destruct (gen_step _ _ _) as [r|] eqn:Hr; [|done].
    pose proof (quiet_gen_step (gen_view s G) case order r He Hr) as [Hrun (E1 & E2 & E3 & _)]. simpl in Hrun, E1, E2, E3.
    assert (∀ v, r = GenExit false v → pr_shutdown (ys_producer s) = ShutdownClosing) as Hstop.
    { intros v ->. destruct case; simpl in Hr; repeat (case_match; simplify_eq/=; try done).
      destruct (Hst ltac:(done)) as [|Hd]; [done|]. by apply Hdone in Hd. }
    destruct r as [v|[|] v]; injection Hstep as <-; simpl in *.
    + sup_phase s.
    + sup_phase s.
    + sup_phase s.
      eapply rtc_r; [exact Hrun|]. apply ps_stop_events; [congruence|]. rewrite E2. eauto.
  - injection Hstep as <-. destruct (setBlocked_phases (ys_producer s) false) as (_ & E2 & E3 & _).
    sup_phase s. by apply rtc_once, ps_generation_end.
  - injection Hstep as <-. destruct (markRecovering_phases (ys_producer s)) as (_ & E2 & E3 & _).
    sup_phase s. by apply rtc_once, ps_mark.
  - destruct (failAll _ _ _) as [[? t]|]; [|done]. injection Hstep as <-.
    sup_phase s.
  - injection Hstep as <-. sup_phase s.
  - injection Hstep as <-. sup_phase s. by apply rtc_once, ps_clear_failure.
  - injection Hstep as <-. sup_phase s. apply rtc_once, ps_observe.
  - unfold sup_install in Hstep. destruct (Lock _) as [m|] eqn:Hl; [|done]. destruct (installGeneration _) as [p|] eqn:Hi; [|done].
    destruct (exclusive_lock_unlock _ _ _ Hl Hm) as (m' & Hu & Hm'). rewrite Hu in Hstep. injection Hstep as <-.
    split; [simpl; by eapply rtc_once, ps_install|].
    unfold installGeneration in Hi. destruct (pr_closed _); [done|]. injection Hi as <-.
    destruct Hsync. split; simpl; try done; [by destruct (ys_gens s)|]. intros Hd. apply sn_done0 in Hd. congruence.
  - injection Hstep as <-. destruct (finishRecovery_phases (ys_producer s) false) as (_ & E2 & E3 & _).
    sup_phase s. by apply rtc_once, ps_exhausted.
  - injection Hstep as <-. destruct (finishRecovery_phases (ys_producer s) true) as (_ & E2 & E3 & _).
    sup_phase s. by apply rtc_once, ps_recovered.
  - injection Hstep as <-. destruct (setBlocked_phases (ys_producer s) false) as (_ & E2 & E3 & _).
    sup_phase s. by apply rtc_once, ps_end_events.
Qed.

Lemma exclusive_try m n : exclusive (m, n) →
  match TryLock m with
  | (true, m') => ∃ m'', Unlock m' = Some m'' ∧ exclusive (m'', n)
  | (false, m') => exclusive (m', n)
  end.
Proof.
  intros He. unfold TryLock. destruct (Lock m) as [m'|] eqn:Hl; [by eapply exclusive_lock_unlock|].
  apply (exclusive_step (m, n)); [|done]. apply mutex_fail. unfold TryLock. by rewrite Hl.
Qed.

Lemma sync_fin s e s' :
  sync s → producer_inv (ys_producer s) → fin_step s e = Some s' →
  rtc producer_step (ys_producer s) (ys_producer s') ∧ sync s'.
Proof.
  intros [] Hinv Hstep. unfold fin_step in Hstep.
  destruct (ys_finisher s) eqn:Hf, e as [timer| |ce re]; try done.
  - destruct (pr_shutdown _) eqn:Hsh; try done. destruct (_ || timer) eqn:Hw; [|done]. injection Hstep as <-.
    split; [by eapply rtc_once, ps_begin_closing|]. split; simpl; try done. by left.
  - pose proof (exclusive_try _ _ sn_mutex0) as Htry. destruct (TryLock (ys_mutex s)) as [[|] m].
    + destruct Htry as (m' & Hu & Hm'). rewrite Hu in Hstep. injection Hstep as <-. split; [reflexivity|by split].
    + injection Hstep as <-. split; [reflexivity|by split].
  - injection Hstep as <-. split; [reflexivity|]. split; simpl; try done. by left.
  - destruct (ys_gens s !! current s) as [G|]; [|done]. destruct (close_gen G ce re) as [err G']. injection Hstep as <-.
    split; [by apply rtc_once, ps_close_resources|]. split; simpl; try done. by apply with_gen_nonempty.
  - destruct (pr_events _) eqn:He; try done. destruct (endShutdown _) as [p|] eqn:Hend; [|done]. injection Hstep as <-.
    split; [by eapply rtc_once, ps_end_shutdown|]. unfold endShutdown in Hend.
    destruct (close _); [|done]. injection Hend as <-. split; simpl; try done; try congruence; [by right|].
    intros _. by destruct (ys_supervisor s).
Qed.

Lemma sync_publish s publication s' :
  sync s → do_publish s publication = Some s' → rtc producer_step (ys_producer s) (ys_producer s') ∧ sync s'.
Proof.
  intros [] Hstep. unfold do_publish in Hstep. destruct (present _); [done|].
  pose proof (ps_admit (ys_producer s)) as Hps.
  destruct (Producer_admit (ys_producer s)) as [err p] eqn:Ha. simpl in Hps.
  assert (pr_events p = pr_events (ys_producer s) ∧ pr_shutdown p = pr_shutdown (ys_producer s)
    ∧ pr_active p = match err with None => pr_active (ys_producer s) + 1 | Some _ => pr_active (ys_producer s) end) as (E1 & E2 & E3).
  { unfold Producer_admit in Ha. repeat case_match; by simplify_eq. }
  destruct err; injection Hstep as <-; (split; [by apply rtc_once|]); split; simpl; rewrite ?E1, ?E2, ?E3; try done.
  - rewrite tally_app. change (tally unreleased [_]) with 1%nat. lia.
  - rewrite tally_app. change (tally holds [_]) with 0%nat. by rewrite Nat.add_0_r.
Qed.

Lemma sync_step s s' :
  system_step s s' → producer_inv (ys_producer s) → sync s →
  rtc producer_step (ys_producer s) (ys_producer s') ∧ sync s'.
Proof.
  intros (a & _ & Hstep) Hinv Hsync. destruct a as [publication|i e|e|n ce re| | |e|g e| |]; simpl in Hstep.
  - by eapply sync_publish.
  - apply pub_step_trans in Hstep as (b & p & m & og & closers & x & Hi & Ht & ->). by apply sync_pub.
  - by eapply sync_sup.
  - unfold closer_step in Hstep. destruct (ys_closers s !! n) as [g|]; [|done]. destruct (ys_gens s !! g) as [G|]; [|done]. injection Hstep as <-.
    apply (sync_quiet s); [done|reflexivity|]. apply with_gen_nonempty, Hsync.
  - injection Hstep as <-. split; [apply rtc_once, ps_start_shutdown|]. unfold startShutdown.
    destruct (pr_shutdown _) eqn:Hsh; [|by destruct Hsync; split..].
    destruct Hsync; split; simpl; try done; [destruct (ys_finisher s); congruence|].
    intros Hs. destruct (sn_stopped0 Hs); congruence.
  - assert (pr_shutdown (ys_producer s) ≠ ShutdownIdle ∧ s' = with_producer s (forceShutdown (ys_producer s))) as [Hne ->]
      by (destruct (pr_shutdown _); by simplify_eq).
    split; [by apply rtc_once, ps_force|]. destruct Hsync. by split.
  - by eapply sync_fin.
  - destruct (ys_gens s !! g) as [G|]; [|done]. destruct (env_gen G e) as [G'|]; [|done]. injection Hstep as <-.
    apply (sync_quiet s); [done|reflexivity|]. apply with_gen_nonempty, Hsync.
  - injection Hstep as <-. split; [apply rtc_once, ps_read_blocked|]. destruct Hsync. by split.
  - destruct (obs_receive _) as [[o observations]|] eqn:Ho; [|done]. injection Hstep as <-.
    split; [by eapply rtc_once, ps_read_observation|]. destruct Hsync. by split.
Qed.

Section Reachable.
Context (config : ProducerConfig) (session : string).
Hypothesis Hconfig : ProducerConfig_Validate config = None.

Abbreviation reachable_system := (rtc system_step (newPSystem config session)).

Lemma sync_new : sync (newPSystem config session).
Proof using. by split. Qed.

Lemma config_maximum : 1 <= MaxOutstanding config.
Proof using Hconfig. revert Hconfig. unfold ProducerConfig_Validate, validProducerBounds. case_match; [done|]. intros _. breflect. lia. Qed.

Lemma reachable_run s :
  reachable_system s → rtc producer_step (newProducer config) (ys_producer s) ∧ sync s.
Proof using Hconfig.
  pose proof config_maximum as Hmax. intros Hr.
  eapply (rtc_invariant system_step (λ s, rtc producer_step (newProducer config) (ys_producer s) ∧ sync s)) in Hr;
    [done| |split; [reflexivity|apply sync_new]].
  intros x y Hstep [Hrun Hsync]. pose proof (producer_reachable_inv config _ ltac:(lia) Hrun) as Hinv.
  destruct (sync_step _ _ Hstep Hinv Hsync) as [? ?]. split; [by etrans|done].
Qed.

Lemma reachable_sync s : reachable_system s → sync s.
Proof using Hconfig. intros Hr. by destruct (reachable_run s Hr). Qed.

Lemma reachable_producer s : reachable_system s → producer_inv (ys_producer s).
Proof using Hconfig.
  pose proof config_maximum. intros Hr. destruct (reachable_run s Hr) as [? _]. eapply producer_reachable_inv; [|done]. lia.
Qed.

(** C7: the producer as a whole implements the shared state it is specified by:
    whatever publishers, event goroutine, recovery, shutdown, client and broker do,
    the run of the shared fields is a run of [producer_step], the publications in
    flight are exactly the publishers that have not returned, at most one publisher
    has the publish mutex, and whoever has it can release it. *)
Theorem system_refines s :
  reachable_system s →
  rtc producer_step (newProducer config) (ys_producer s)
  ∧ pr_active (ys_producer s) = Z.of_nat (tally unreleased (ys_publishers s))
  ∧ (tally holds (ys_publishers s) <= 1)%nat
  ∧ (tally holds (ys_publishers s) = 1%nat ↔ is_Some (Unlock (ys_mutex s))).
Proof using Hconfig.
  intros Hr. destruct (reachable_run s Hr) as [Hrun []]. split_and!; [done|done|..];
    unfold exclusive in sn_mutex0; destruct (ys_mutex s) as [[[|[|n]]|]]; simpl in *; try lia.
  all: split; [first [lia|by eexists]|first [lia|by intros [? ?]]].
Qed.
End Reachable.

(** ** Example runs *)

(** Whether a scheduler may choose [a] in [s], ranging over the map in the order of
    [map_to_list]. *)
Definition schedulable (s : psystem) (a : system_action) : bool :=
  match a with
  | DoSupervisor (SupCase GenStop order) | DoSupervisor (SupFail order) =>
    match ys_gens s !! current s with
    | Some G => bool_decide ((map_to_list (tr_sequence (gn_tracker G))).*1 = order)
    | None => false
    end
  | _ => true
  end.

Lemma schedulable_scheduled s a : schedulable s a = true → scheduled s a.
Proof.
  assert (∀ order, match ys_gens s !! current s with
    | Some G => bool_decide ((map_to_list (tr_sequence (gn_tracker G))).*1 = order) | None => false end = true → ranges s order) as H.
  { intros order. unfold ranges. destruct (ys_gens s !! current s) as [G|]; [|done]. intros <-%bool_decide_eq_true_1 G' [= <-]. done. }
  destruct a as [| |[[| | | | |] ?| |? | | | |]| | | | | | |]; simpl; auto.
Qed.

Fixpoint schedulable_run (s : psystem) (actions : list system_action) : bool :=
  match actions with
  | [] => true
  | a :: actions =>
    schedulable s a && match system_exec s a with None => false | Some s => schedulable_run s actions end
  end.

Definition example_system : psystem := newPSystem example_producer_config "s-1".

Definition proceed (i n : nat) : list system_action := replicate n (DoPublisher i PubGo).

Definition run_from (s : psystem) (actions : list system_action) : psystem := default s (system_run s actions).

Lemma run_from_steps s actions : schedulable_run s actions = true → rtc system_step s (run_from s actions).
Proof.
  unfold run_from. revert s. induction actions as [|a actions IH]; intros s; simpl; [reflexivity|].
  intros [Ha%schedulable_scheduled Hrun]%andb_prop. destruct (system_exec s a) as [s1|] eqn:Hx; [|done].
  destruct (system_run s1 actions) as [s2|] eqn:Hs2; simpl.
  - eapply rtc_l; [by exists a|]. specialize (IH s1 Hrun). by rewrite Hs2 in IH.
  - reflexivity.
Qed.

(** One publisher with its send running, another waiting for the publish mutex. *)
Definition example_sending : psystem :=
  run_from example_system ([DoPublish example_message; DoPublish example_message] ++ proceed 0 5).

Lemma system_refines_witness :
  pr_active (ys_producer example_sending) = 2 ∧ tally holds (ys_publishers example_sending) = 1%nat
  ∧ is_Some (Unlock (ys_mutex example_sending)).
Proof.
  assert (rtc system_step example_system example_sending) as Hreach by (by apply run_from_steps; vm_compute).
  destruct (system_refines example_producer_config "s-1" eq_refl _ Hreach) as (_ & Hactive & _ & Hmutex).
  assert (tally holds (ys_publishers example_sending) = 1%nat) as Hone by by vm_compute.
  split_and!; [rewrite Hactive; by vm_compute|done|by apply Hmutex].
Defined.
