(* ===== verification/ProducerCorrelation.v ===== *)
(** * ProducerCorrelation: a publisher's outcome is about its own publication

    In the system of ProducerSystem any number of publishers share the tracker of a
    generation, the client numbers what it transmits, and the broker confirms by
    number and returns by token.  This file shows that the outcome a publisher
    reports is about the message it sent: what is reported as confirmed, rejected or
    returned was transmitted on its channel under its number, and the broker
    confirmed that number; what is reported as not sent was not transmitted.  Both
    hold under conditions the code does not always meet, and two runs show it. *)

From S2P Require Import Prelude GoText Errors Config Amqp Message Tracker Observation Producer Publish Events.
From S2P Require Import ProducerSystem.
Import PublishTracker ContextMutex.

(** ** What an operation does to an attempt *)

Inductive cell_change (o : op) (p : nat) (a : publishAttempt) : publishAttempt → Prop :=
| cc_same : cell_change o p a a
| cc_return token ret : o = OReturned token ret → at_token a = token → pending a → cell_change o p a (with_return a ret)
| cc_confirm s ack :
    o = OConfirm s ack → at_sequence a = s → pending a → cell_change o p a (done_with a (confirm_result a ack))
| cc_abandon s state :
    o = OAbandon s state → at_sequence a = s → pending a → abandonablePublishState state = true →
    cell_change o p a (done_with a (mkPublishResult state None))
| cc_fail state order :
    o = OFailAll state order → pending a → abandonablePublishState state = true →
    cell_change o p a (done_with a (mkPublishResult state None))
| cc_receive : o = OReceive p → ¬ pending a → cell_change o p a (with_outcome a (mkChan [] true)).

Definition is_register (o : op) : bool := match o with ORegister _ _ _ _ => true | _ => false end.

(** The heap keeps its cells, each changed as the operation says. *)
Definition cells_change (o : op) (t t' : publishTracker) : Prop :=
  ∀ p, match tr_heap t !! p with
       | None => tr_heap t' !! p = None
       | Some a => ∃ a', tr_heap t' !! p = Some a' ∧ cell_change o p a a'
       end.

Lemma cells_change_same o t : cells_change o t t.
Proof. intros p. destruct (tr_heap t !! p) as [a|]; [|done]. exists a. split; [done|constructor]. Qed.

Lemma cells_change_one o t t' p a a' :
  tr_heap t !! p = Some a → tr_heap t' = <[p := a']> (tr_heap t) → cell_change o p a a' → cells_change o t t'.
Proof.
  intros Hp Ht Hc q. rewrite Ht. destruct (decide (q = p)) as [-> |Hne].
  - rewrite Hp, lookup_insert_eq. eauto.
  - rewrite lookup_insert_ne by done. destruct (tr_heap t !! q) as [x|]; [|done]. exists x. split; [done|constructor].
Qed.

Lemma exec_cells t o out t' :
  wf t → is_register o = false → exec t o = Some (out, t') → cells_change o t t'.
Proof.
  intros Hwf Hreg Hx. destruct o as [| token ret|s ack|s state|state order|p]; [done|..]; simpl in Hx.
  - rewrite returned_eq in Hx by done. destruct (tr_token t !! token) as [p|] eqn:Ht; simpl in Hx;
      [|injection Hx as <- <-; apply cells_change_same].
    destruct (proj1 (wf_token _ Hwf token p) Ht) as (a & Hp & Hat & Hpend). rewrite Hp in Hx. injection Hx as <- <-.
    eapply cells_change_one; [exact Hp|done|]. by eapply cc_return.
  - destruct (tr_sequence t !! s) as [p|] eqn:Hs; [|unfold confirm in Hx; rewrite Hs in Hx; injection Hx as <- <-; apply cells_change_same].
    destruct (proj1 (wf_sequence _ Hwf s p) Hs) as (a & Hp & Hat & Hpend).
    rewrite (confirm_eq _ _ _ _ _ Hwf Hs Hp) in Hx. injection Hx as <- <-.
    eapply cells_change_one; [exact Hp|done|]. by eapply cc_confirm.
  - destruct (abandonablePublishState state) eqn:Hst;
      [|unfold abandon in Hx; rewrite Hst in Hx; injection Hx as <- <-; apply cells_change_same].
    destruct (tr_sequence t !! s) as [p|] eqn:Hs;
      [|unfold abandon in Hx; rewrite Hst, Hs in Hx; injection Hx as <- <-; apply cells_change_same].
    destruct (proj1 (wf_sequence _ Hwf s p) Hs) as (a & Hp & Hat & Hpend).
    rewrite (abandon_eq _ _ _ _ _ Hwf Hst Hs Hp) in Hx. injection Hx as <- <-.
    eapply cells_change_one; [exact Hp|done|]. by eapply cc_abandon.
  - unfold failAll in Hx. destruct (abandonablePublishState state) eqn:Hst; simpl in Hx; [|injection Hx as <- <-; apply cells_change_same].
    destruct (fail_each_ok t state order Hwf Hst) as (t1 & Hf & _ & _ & _ & Hheap). rewrite Hf in Hx. injection Hx as <- <-.
    intros q. rewrite Hheap. destruct (tr_heap t !! q) as [a|]; [|done]. simpl. eexists. split; [done|].
    destruct (bool_decide_reflect (pending a ∧ at_sequence a ∈ order)) as [[Hpend _]|]; [by eapply cc_fail|constructor].
  - unfold receive in Hx. destruct (tr_heap t !! p) as [a|] eqn:Hp; [|done].
    assert (¬ pending a) as Hn by (intros Hpend; by rewrite Hpend in Hx).
    destruct (receive_eq t p a Hwf Hp Hn) as (b & Hb & Hr). unfold receive in Hr. rewrite Hp in Hr. rewrite Hr in Hx.
    injection Hx as <- <-. eapply cells_change_one; [exact Hp|done|]. by apply cc_receive.
Qed.

(** Who the attempt belongs to never changes, and its outcome is given once. *)
Definition same_identity (a a' : publishAttempt) : Prop :=
  at_sequence a' = at_sequence a ∧ at_token a' = at_token a ∧ at_exchange a' = at_exchange a ∧ at_route a' = at_route a
  ∧ (pending a' → pending a).

Lemma cell_change_identity o p a a' :
  cell_change o p a a' → same_identity a a' ∧ (pending a' → pending a).
Proof. intros []; split; done. Qed.

Lemma exec_sequence t o out t' :
  wf t → wf t' → is_register o = false → exec t o = Some (out, t') →
  ∀ s p, tr_sequence t' !! s = Some p → tr_sequence t !! s = Some p.
Proof.
  intros Hwf Hwf' Hreg Hx s p Hs. apply (wf_sequence _ Hwf') in Hs as (a' & Hp' & Hat & Hpend).
  pose proof (exec_cells _ _ _ _ Hwf Hreg Hx p) as Hc. destruct (tr_heap t !! p) as [a|] eqn:Hp; [|congruence].
  destruct Hc as (a2 & Hp2 & Hc). rewrite Hp' in Hp2. injection Hp2 as <-.
  destruct (cell_change_identity _ _ _ _ Hc) as [(E & _) Hpp]. apply (wf_sequence _ Hwf). exists a. split_and!; [done|congruence|auto].
Qed.

(** ** Generations *)

(** No send on the generation was given up after the producer was closed. *)
Definition prompt (G : gen) : Prop := ∀ x, x ∈ gn_timeouts G → x.2 = false.

(** What was handed to the client's channel and may be or get transmitted. *)
Definition sent (G : gen) : list (nat * call_message) := gn_calls G ++ gn_wire G.
Definition sent_ptrs (G : gen) : list nat := (sent G).*1.

Definition on_wire (G : gen) (p : nat) (s : Z) : Prop :=
  1 <= s ∧ ∃ message, gn_wire G !! Z.to_nat (s - 1) = Some (p, message).

(** The result of attempt [p] is what the broker said about its number. *)
Record justified (G : gen) (p : nat) (a : publishAttempt) (r : PublishResult) : Prop := {
  ju_confirmed : Result_State r = PublishConfirmed →
    on_wire G p (at_sequence a) ∧ (at_sequence a, true) ∈ gn_confirmed G;
  ju_rejected : Result_State r = PublishRejected →
    on_wire G p (at_sequence a) ∧ (at_sequence a, false) ∈ gn_confirmed G;
  ju_returned : Result_State r = PublishReturned →
    on_wire G p (at_sequence a) ∧ (∃ ack, (at_sequence a, ack) ∈ gn_confirmed G)
    ∧ ∃ ret, ret ∈ gn_returned G ∧ return_token ret = Some (at_token a) }.

Definition not_sent_ok (G : gen) (p : nat) (r : PublishResult) : Prop :=
  gn_preflights G = [] → Result_State r = PublishNotSent → p ∉ sent_ptrs G.

Definition result_justified (G : gen) (p : nat) (a : publishAttempt) (r : PublishResult) : Prop :=
  PublishResult_Valid r = true ∧ (prompt G → justified G p a r) ∧ not_sent_ok G p r.

Record cell_ok (G : gen) (p : nat) (a : publishAttempt) : Prop := {
  ce_returned : at_returned a ≠ None → ∃ ret, ret ∈ gn_returned G ∧ return_token ret = Some (at_token a);
  ce_outcome : ∀ r, r ∈ ch_buffer (at_outcome a) → result_justified G p a r }.

(** The numbers of the client and of the tracker agree. *)
Record numbers (G : gen) : Prop := {
  nm_wire : ∀ k p message a, gn_wire G !! k = Some (p, message) → tr_heap (gn_tracker G) !! p = Some a →
    at_sequence a = Z.of_nat k + 1;
  nm_calls : ∀ p message a, (p, message) ∈ gn_calls G → tr_heap (gn_tracker G) !! p = Some a →
    at_sequence a = next_sequence G
    ∧ ∀ p' a', tr_heap (gn_tracker G) !! p' = Some a' → pending a' → at_sequence a' = next_sequence G → p' = p;
  nm_one : ∀ p p' message message', (p, message) ∈ gn_calls G → (p', message') ∈ gn_calls G → p' = p;
  nm_pending : ∀ p a, tr_heap (gn_tracker G) !! p = Some a → pending a →
    1 <= at_sequence a <= next_sequence G ∧ (at_sequence a < next_sequence G → on_wire G p (at_sequence a)) }.

Record gen_inv (G : gen) : Prop := {
  gi_wf : wf (gn_tracker G);
  gi_known : ∀ p message, (p, message) ∈ sent G → is_Some (tr_heap (gn_tracker G) !! p);
  gi_nodup : NoDup (sent_ptrs G);
  gi_confirmed : ∀ s ack, (s, ack) ∈ gn_confirmed G → 1 <= s <= llen (gn_wire G);
  gi_confirms : ∀ c, c ∈ fd_queue (gn_confirms G) → (conf_DeliveryTag c, conf_Ack c) ∈ gn_confirmed G;
  gi_returns : ∀ f x, gn_returns G = Some f → x ∈ fd_queue f → x ∈ gn_returned G;
  gi_cell : ∀ p a, tr_heap (gn_tracker G) !! p = Some a → cell_ok G p a;
  gi_numbers : prompt G → numbers G }.

Lemma gen_inv_new config session : gen_inv (newGen config session).
Proof.
  split; simpl; try done.
  - apply wf_new.
  - intros p message H. by apply not_elem_of_nil in H.
  - apply NoDup_nil_2.
  - intros s ack H. by apply not_elem_of_nil in H.
  - intros c H. by apply not_elem_of_nil in H.
  - intros f x [= <-] H. by apply not_elem_of_nil in H.
  - intros _. split; simpl; try done. intros p p' message message' H. by apply not_elem_of_nil in H.
Qed.

(** The operations the goroutines perform: returns and confirmations come from the
    broker, the event goroutine fails as ambiguous, an outcome is received and an
    attempt abandoned as not sent by its own publisher, and that attempt was not
    sent. *)
Definition op_ok (own : option nat) (G : gen) (o : op) : Prop :=
  match o with
  | ORegister _ _ _ _ => False
  | OReturned token _ => ∃ ret, ret ∈ gn_returned G ∧ return_token ret = Some token
  | OConfirm s ack => (s, ack) ∈ gn_confirmed G
  | OAbandon s state =>
    state = PublishAmbiguous ∨ state = PublishNotSent
    ∧ (gn_preflights G = [] → ∀ p a, tr_heap (gn_tracker G) !! p = Some a → pending a → at_sequence a = s →
        own = Some p ∧ (p ∉ sent_ptrs G))
  | OFailAll state _ => state = PublishAmbiguous
  | OReceive p => own = Some p
  end.

Lemma justified_ambiguous G p a : justified G p a ambiguous.
Proof. by split. Qed.

Lemma result_ambiguous G p a : result_justified G p a ambiguous.
Proof. split_and!; [done|intros _; apply justified_ambiguous|by intros _]. Qed.

Lemma result_confirm G p a ack :
  gen_inv G → tr_heap (gn_tracker G) !! p = Some a → pending a → (at_sequence a, ack) ∈ gn_confirmed G →
  result_justified G p a (confirm_result a ack).
Proof.
  intros Hinv Hp Hpend Hack. destruct (gi_cell _ Hinv p a Hp) as [Hret _]. split_and!.
  - apply confirm_result_valid.
  - intros Hpr. destruct (nm_pending _ (gi_numbers _ Hinv Hpr) p a Hp Hpend) as [_ Hw].
    pose proof (gi_confirmed _ Hinv _ _ Hack) as Hle. specialize (Hw ltac:(unfold next_sequence; lia)).
    unfold confirm_result. destruct (at_returned a) as [ret|]; [split; try done; intros _; eauto|].
    destruct ack; split; try done; intros _; auto.
  - intros _. unfold confirm_result. destruct (at_returned a), ack; done.
Qed.

Lemma result_identity G p a a' r : same_identity a a' → result_justified G p a r → result_justified G p a' r.
Proof.
  intros (E1 & E2 & _) (Hv & Hj & Hn). split_and!; [done| |done]. intros Hpr. destruct (Hj Hpr). by split; rewrite ?E1, ?E2.
Qed.

Lemma cell_change_ok own G o p a a' :
  gen_inv G → op_ok own G o → tr_heap (gn_tracker G) !! p = Some a → cell_change o p a a' → cell_ok G p a'.
Proof.
  intros Hinv Hop Hp Hc. pose proof (gi_cell _ Hinv p a Hp) as [Hret Hout]. destruct Hc; try subst o; simpl in Hop.
  - done.
  - split; simpl; [by intros _; subst|]. intros r Hr. by apply (result_identity G p a), Hout.
  - split; simpl; [done|]. intros r ->%list_elem_of_singleton. apply (result_identity G p a); [done|]. apply result_confirm; by subst.
  - split; simpl; [done|]. intros r ->%list_elem_of_singleton. destruct Hop as [-> |[-> Hns]].
    + apply (result_identity G p a); [done|]. apply result_ambiguous.
    + split_and!; [done|by split|]. intros Hpre _. by eapply Hns.
  - split; simpl; [done|]. intros r ->%list_elem_of_singleton. subst. apply (result_identity G p a); [done|]. apply result_ambiguous.
  - split; simpl; [done|]. intros r Hr. by apply not_elem_of_nil in Hr.
Qed.

(** Changing the tracker does not change what the invariant says of the rest. *)
Lemma cell_ok_tracker G t p a : cell_ok G p a → cell_ok (gen_tracker G t) p a.
Proof. intros [Hr Ho]. split; [exact Hr|]. intros r Hin. destruct (Ho r Hin) as (Hv & Hj & Hn). split_and!; [done| |exact Hn].
  intros Hpr. destruct (Hj Hpr). by split. Qed.

Lemma numbers_change G t o :
  wf (gn_tracker G) → cells_change o (gn_tracker G) t → numbers G → (∀ p message, (p, message) ∈ sent G → is_Some (tr_heap (gn_tracker G) !! p)) →
  numbers (gen_tracker G t).
Proof.
  intros Hwf Hc [Hw Hca Hone Hp] Hk.
  assert (∀ p a', tr_heap t !! p = Some a' → ∃ a, tr_heap (gn_tracker G) !! p = Some a ∧ at_sequence a' = at_sequence a
    ∧ (pending a' → pending a)) as Hback.
  { intros p a' Hp'. specialize (Hc p). destruct (tr_heap (gn_tracker G) !! p) as [a|]; [|congruence].
    destruct Hc as (a2 & Hp2 & Hc). rewrite Hp' in Hp2. injection Hp2 as <-.
    destruct (cell_change_identity _ _ _ _ Hc) as [(E & _) ?]. eauto. }
  split; simpl.
  - intros k p message a' Hk' Hp'. destruct (Hback p a' Hp') as (a & Ha & -> & _). eauto.
  - intros p message a' Hin Hp'. destruct (Hback p a' Hp') as (a & Ha & -> & _).
    destruct (Hca p message a Hin Ha) as [E Hu]. split; [done|]. intros p2 a2' Hp2 Hpend Hs.
    destruct (Hback p2 a2' Hp2) as (a2 & Ha2 & E2 & Hpp). rewrite E2 in Hs. eauto.
  - done.
  - intros p a' Hp' Hpend. destruct (Hback p a' Hp') as (a & Ha & -> & Hpp). by apply Hp; auto.
Qed.

Lemma gen_inv_op own G o out t' :
  gen_inv G → op_ok own G o → enabled (gn_tracker G) o → exec (gn_tracker G) o = Some (out, t') →
  gen_inv (gen_tracker G t').
Proof.
  intros Hinv Hop Hen Hx. assert (is_register o = false) as Hreg by by destruct o.
  pose proof (exec_cells _ _ _ _ (gi_wf _ Hinv) Hreg Hx) as Hc. pose proof (exec_wf _ _ _ _ Hen Hx (gi_wf _ Hinv)) as Hwf'.
  pose proof Hinv as [Hwf Hkn Hnd Hco Hcs Hrs Hce Hnu]. split; simpl; try done.
  - intros p message Hin. destruct (Hkn p message Hin) as [a Ha]. specialize (Hc p). rewrite Ha in Hc. destruct Hc as (a' & Ha' & _). eauto.
  - intros p a' Hp'. specialize (Hc p). destruct (tr_heap (gn_tracker G) !! p) as [a|] eqn:Ha; [|congruence].
    destruct Hc as (a2 & Hp2 & Hcc). rewrite Hp' in Hp2. injection Hp2 as <-. by eapply cell_ok_tracker, cell_change_ok.
  - intros Hpr. eapply numbers_change; eauto.
Qed.

(** ** How a generation evolves under the feet of a publisher *)

(** The outcome of the attempt is pending or still to be received. *)
Definition unread (a : publishAttempt) : Prop := at_outcome a ≠ mkChan [] true.

(** The attempt was not given up as not sent. *)
Definition sendable (G : gen) (a : publishAttempt) : Prop :=
  gn_preflights G = [] → ∀ r, r ∈ ch_buffer (at_outcome a) → Result_State r ≠ PublishNotSent.

(** What a step does to a generation, as seen by every publisher but the one of
    attempt [own]. *)
Record gen_later (own : option nat) (G G' : gen) : Prop := {
  gl_session : gn_session G' = gn_session G;
  gl_cells : ∀ p a, tr_heap (gn_tracker G) !! p = Some a →
    ∃ a', tr_heap (gn_tracker G') !! p = Some a' ∧ same_identity a a'
      ∧ (own ≠ Some p → (unread a → unread a') ∧ (sendable G a → sendable G' a'));
  gl_sent : ∀ x, own ≠ Some x.1 → x ∈ sent G' → x ∈ sent G;
  gl_wire : gn_wire G `prefix_of` gn_wire G';
  gl_confirmed : gn_confirmed G ⊆ gn_confirmed G';
  gl_returned : gn_returned G ⊆ gn_returned G';
  gl_prompt : prompt G' → prompt G;
  gl_preflights : gn_preflights G' = [] → gn_preflights G = [] }.

#[global] Instance gen_later_refl own : Reflexive (gen_later own).
Proof. intros G. split; auto. intros p a Ha. exists a. by split_and!. Qed.

#[global] Instance gen_later_trans own : Transitive (gen_later own).
Proof.
  intros G1 G2 G3 H1 H2. split.
  - rewrite (gl_session _ _ _ H2). apply H1.
  - intros p a Ha. destruct (gl_cells _ _ _ H1 p a Ha) as (a2 & Ha2 & (?&?&?&?&?) & Hu2).
    destruct (gl_cells _ _ _ H2 p a2 Ha2) as (a3 & Ha3 & (?&?&?&?&?) & Hu3).
    exists a3. unfold same_identity. split_and!; [done|congruence..|auto|].
    intros Hne. destruct (Hu2 Hne), (Hu3 Hne). auto.
  - intros x Hx Hin. by apply H1, H2.
  - etrans; [apply H1|apply H2].
  - etrans; [apply H1|apply H2].
  - etrans; [apply H1|apply H2].
  - intros H. by apply H1, H2.
  - intros H. by apply H1, H2.
Qed.

(** What holds while a registered publisher has the mutex: no registration and no
    send. *)
Record gen_still (G G' : gen) : Prop := {
  gs_sequence : ∀ s p, tr_sequence (gn_tracker G') !! s = Some p → tr_sequence (gn_tracker G) !! s = Some p;
  gs_running : gn_calls G' ⊆ gn_calls G;
  gs_calls : gn_calls G = [] → gn_calls G' = [] ∧ gn_wire G' = gn_wire G }.

#[global] Instance gen_still_refl : Reflexive gen_still.
Proof. by split. Qed.

#[global] Instance gen_still_trans : Transitive gen_still.
Proof.
  intros G1 G2 G3 [Hs1 Hr1 Hc1] [Hs2 Hr2 Hc2]. split; [auto|by etrans|]. intros H. destruct (Hc1 H) as [H' E1].
  destruct (Hc2 H') as [? E2]. split; [done|congruence].
Qed.

Lemma cell_change_unread own G o p a a' :
  op_ok own G o → cell_change o p a a' → own ≠ Some p → unread a → unread a'.
Proof. unfold unread. intros Hop Hc Hne Hu. destruct Hc; subst; try done. Qed.

Lemma cell_change_sendable own G o p a a' :
  op_ok own G o → tr_heap (gn_tracker G) !! p = Some a → cell_change o p a a' → own ≠ Some p → sendable G a → sendable G a'.
Proof.
  unfold sendable. intros Hop Hp Hc Hne Hs Hpre. specialize (Hs Hpre). destruct Hc; subst; simpl in *; try done.
  - intros r ->%list_elem_of_singleton. unfold confirm_result. by destruct (at_returned a), ack.
  - intros r ->%list_elem_of_singleton. destruct Hop as [-> |[-> Hns]]; [done|]. by destruct (Hns Hpre p a Hp).
  - intros r ->%list_elem_of_singleton. simpl. by rewrite Hop.
Qed.

Lemma gen_later_op own G o out t' :
  gen_inv G → op_ok own G o → enabled (gn_tracker G) o → exec (gn_tracker G) o = Some (out, t') →
  gen_later own G (gen_tracker G t') ∧ gen_still G (gen_tracker G t').
Proof.
  intros Hinv Hop Hen Hx. assert (is_register o = false) as Hreg by by destruct o.
  pose proof (exec_cells _ _ _ _ (gi_wf _ Hinv) Hreg Hx) as Hc. pose proof (exec_wf _ _ _ _ Hen Hx (gi_wf _ Hinv)) as Hwf'.
  split; split; simpl; try done.
  - intros p a Ha. specialize (Hc p). rewrite Ha in Hc. destruct Hc as (a' & Ha' & Hcc). exists a'.
    destruct (cell_change_identity _ _ _ _ Hcc) as [Hid _]. split; [done|]. split; [done|]. intros Hne.
    split; [by eapply cell_change_unread|]. exact (cell_change_sendable own G o p a a' Hop Ha Hcc Hne).
  - by apply (exec_sequence _ _ _ _ (gi_wf _ Hinv) Hwf' Hreg Hx).
Qed.

(** The change of a generation by one of its goroutines. *)
Record gen_change (own : option nat) (G G' : gen) : Prop := {
  gc_inv : gen_inv G';
  gc_later : gen_later own G G';
  gc_still : gen_still G G' }.

Lemma gen_change_trans own G1 G2 G3 : gen_change own G1 G2 → gen_change own G2 G3 → gen_change own G1 G3.
Proof. intros [] []. split; [done|by etrans|by etrans]. Qed.

Lemma gen_change_refl own G : gen_inv G → gen_change own G G.
Proof. by split. Qed.

Lemma gen_change_op own G o out t' :
  gen_inv G → op_ok own G o → enabled (gn_tracker G) o → exec (gn_tracker G) o = Some (out, t') →
  gen_change own G (gen_tracker G t').
Proof.
  intros Hinv Hop Hen Hx. destruct (gen_later_op _ _ _ _ _ Hinv Hop Hen Hx). split; [by eapply gen_inv_op|done|done].
Qed.

(** Values leave the channels the client feeds. *)
Lemma gen_change_feeds own G returns confirms blocked closed :
  gen_inv G → (∀ c, c ∈ fd_queue confirms → c ∈ fd_queue (gn_confirms G)) →
  (∀ f x, returns = Some f → x ∈ fd_queue f → ∃ f', gn_returns G = Some f' ∧ x ∈ fd_queue f') →
  gen_change own G (gen_feeds G returns confirms blocked closed).
Proof.
  intros Hinv Hc Hr. split.
  - destruct Hinv. split; simpl; auto.
    + intros f x Hf Hx. destruct (Hr f x Hf Hx) as (f' & Hf' & Hx'). eauto.
    + intros p a Ha. destruct (gi_cell0 p a Ha) as [Hret Hout]. split; [done|]. intros r Hin.
      destruct (Hout r Hin) as (Hv & Hj & Hn). split_and!; [done| |exact Hn]. intros Hpr. destruct (Hj Hpr). by split.
    + intros Hpr. destruct (gi_numbers0 Hpr). by split.
  - split; try done. intros p a Ha. exists a. by split_and!.
  - by split.
Qed.

Lemma gen_change_return p G ret ok p' t' :
  gen_inv G → ret ∈ gn_returned G → applyReturn p (gn_tracker G) ret = Some (ok, p', t') →
  gen_change None G (gen_tracker G t').
Proof.
  intros Hinv Hin Ha. unfold applyReturn in Ha. fold (return_token ret) in Ha.
  destruct (return_token ret) as [token|] eqn:Ht.
  - destruct (returned _ _ _) as [[ok' t1]|] eqn:Hr; [|done]. injection Ha as <- <- <-.
    eapply (gen_change_op None G (OReturned token _) (RBool ok')); [done|by exists ret|done|]. simpl. by rewrite Hr.
  - injection Ha as <- <- <-. replace (gen_tracker G (gn_tracker G)) with G by by destruct G. by apply gen_change_refl.
Qed.

Lemma gen_change_drain p G queue ok p' t' rest :
  gen_inv G → (∀ x, x ∈ queue → x ∈ gn_returned G) → drain_queue p (gn_tracker G) queue = Some (ok, p', t', rest) →
  gen_change None G (gen_tracker G t') ∧ (∀ x, x ∈ rest → x ∈ queue).
Proof.
  revert p G. induction queue as [|ret queue IH]; intros p G Hinv Hin Hd; simpl in Hd.
  { injection Hd as <- <- <- <-. split; [|done]. replace (gen_tracker G (gn_tracker G)) with G by by destruct G. by apply gen_change_refl. }
  destruct (applyReturn p (gn_tracker G) ret) as [[[ok1 p1] t1]|] eqn:Ha; [|done].
  apply gen_change_return in Ha as Hch; [|done|by apply Hin; left]. destruct ok1.
  - destruct (IH p1 (gen_tracker G t1)) as [Hch2 Hrest]; [by apply (gc_inv _ _ _ Hch)|by intros x Hx; apply Hin; right|exact Hd|].
    split; [by eapply gen_change_trans|]. intros x Hx. right. auto.
  - injection Hd as <- <- <- <-. split; [done|]. intros x Hx. by right.
Qed.

Lemma gen_write_feeds G v :
  gen_write G v = gen_feeds (gen_tracker G (g_tracker v)) (g_returns v) (g_confirms v) (g_blocked v) (gn_connectionClosed G).
Proof. done. Qed.

(** A change of the tracker, then values leave the channels. *)
Lemma gen_change_write own G v :
  gen_change own G (gen_tracker G (g_tracker v)) → (∀ c, c ∈ fd_queue (g_confirms v) → c ∈ fd_queue (gn_confirms G)) →
  (∀ f x, g_returns v = Some f → x ∈ fd_queue f → ∃ f', gn_returns G = Some f' ∧ x ∈ fd_queue f') →
  gen_change own G (gen_write G v).
Proof.
  intros Hch Hc Hr. eapply gen_change_trans; [exact Hch|]. rewrite gen_write_feeds.
  apply gen_change_feeds; [apply Hch|exact Hc|exact Hr].
Qed.

Lemma gen_change_same own G v :
  gen_inv G → g_tracker v = gn_tracker G → (∀ c, c ∈ fd_queue (g_confirms v) → c ∈ fd_queue (gn_confirms G)) →
  (∀ f x, g_returns v = Some f → x ∈ fd_queue f → ∃ f', gn_returns G = Some f' ∧ x ∈ fd_queue f') →
  gen_change own G (gen_write G v).
Proof.
  intros Hinv Ht. apply gen_change_write. rewrite Ht.
  replace (gen_tracker G (gn_tracker G)) with G by by destruct G. by apply gen_change_refl.
Qed.

Lemma gen_change_failAll G order n t :
  gen_inv G → order ≡ₚ (map_to_list (tr_sequence (gn_tracker G))).*1 →
  failAll (gn_tracker G) PublishAmbiguous order = Some (n, t) → gen_change None G (gen_tracker G t).
Proof.
  intros Hinv Ho Hf. eapply (gen_change_op None G (OFailAll PublishAmbiguous order) (RCount n)); [done|done|done|].
  simpl. by rewrite Hf.
Qed.

Lemma gen_change_step s G case order r :
  gen_inv G → (case = GenStop → order ≡ₚ (map_to_list (tr_sequence (gn_tracker G))).*1) →
  gen_step (gen_view s G) case order = Some r → gen_change None G (gen_write G (gen_result_generation r)).
Proof.
  intros Hinv Ho Hstep. destruct case; simpl in Hstep.
  - destruct (gn_returns G) as [f|] eqn:Hf; [|done]. destruct (fd_queue f) as [|ret queue] eqn:Hq.
    { destruct (fd_closed f); [|done]. injection Hstep as <-. by apply gen_change_same. }
    destruct (applyReturn _ _ _) as [[[ok p] t]|] eqn:Ha; [|done].
    apply gen_change_return in Ha; [|done|by eapply (gi_returns _ Hinv); [exact Hf|]; rewrite Hq; left].
    destruct ok; injection Hstep as <-; apply gen_change_write; try done; simpl;
      intros f' x [= <-] Hx; exists f; (split; [done|]); rewrite Hq; by right.
  - destruct (fd_queue (gn_confirms G)) as [|c queue] eqn:Hq.
    { destruct (fd_closed _); [|done]. injection Hstep as <-. apply gen_change_same; simpl; eauto. }
    unfold drainReturns in Hstep.
    assert (∃ ok p t returns, match gn_returns G with
      | None => Some (true, ys_producer s, gn_tracker G, None)
      | Some returns => match drain_queue (ys_producer s) (gn_tracker G) (fd_queue returns) with
          | None => None
          | Some (ok, p, tracker, queue) => Some (ok, p, tracker, Some (mkFeed queue (fd_closed returns)))
          end
      end = Some (ok, p, t, returns) ∧ gen_change None G (gen_tracker G t)
      ∧ ∀ f x, returns = Some f → x ∈ fd_queue f → ∃ f', gn_returns G = Some f' ∧ x ∈ fd_queue f') as (ok & p & t & returns & Hd & Hch & Hret).
    { destruct (gn_returns G) as [f|] eqn:Hf.
      - destruct (drain_queue _ _ _) as [[[[ok p] t] rest]|] eqn:Hd; [|done].
        apply gen_change_drain in Hd as [Hch Hrest]; [|done|intros x Hx; by eapply (gi_returns _ Hinv)].
        do 4 eexists. split; [done|]. split; [done|]. intros f' x [= <-] Hx. exists f. auto.
      - do 4 eexists. split; [done|]. split; [|done]. replace (gen_tracker G (gn_tracker G)) with G by by destruct G.
        by apply gen_change_refl. }
    rewrite Hd in Hstep. destruct ok.
    + destruct (confirm t _ _) as [[b t']|] eqn:Hc; [|done]. injection Hstep as <-. apply gen_change_write; simpl.
      * eapply gen_change_trans; [exact Hch|].
        assert (gen_change None (gen_tracker G t) (gen_tracker (gen_tracker G t) t')) as H; [|exact H].
        eapply (gen_change_op None _ (OConfirm (conf_DeliveryTag c) (conf_Ack c)) (RBool b)); [apply Hch| |done|simpl; by rewrite Hc].
        simpl. apply (gi_confirms _ Hinv). rewrite Hq. by left.
      * intros c' Hc'. rewrite Hq. by right.
      * done.
    + injection Hstep as <-. apply gen_change_write; simpl; [done| |done]. intros c' Hc'. rewrite Hq. by right.
  - destruct (gn_connectionClosed G); [|done]. injection Hstep as <-. apply gen_change_same; simpl; eauto.
  - destruct (gn_blocked G) as [f|]; [|done]. destruct (fd_queue f) as [|active queue].
    { destruct (fd_closed f); [|done]. injection Hstep as <-. apply gen_change_same; simpl; eauto. }
    injection Hstep as <-. apply gen_change_same; simpl; eauto.
  - destruct (pr_failure _); [|done]. injection Hstep as <-. apply gen_change_same; simpl; eauto.
  - destruct (ys_stopped s); [|done]. destruct (failAll _ _ _) as [[n t]|] eqn:Hf; [|done]. injection Hstep as <-.
    apply gen_change_write; simpl; [|done|eauto]. by eapply gen_change_failAll; [|apply Ho|].
Qed.

(** ** Client and broker *)

Lemma drop_call_spec p l x : x ∈ drop_call p l ↔ x ∈ l ∧ x.1 ≠ p.
Proof. unfold drop_call. rewrite list_elem_of_filter. tauto. Qed.

Lemma drop_call_absent p l : p ∉ l.*1 → drop_call p l = l.
Proof.
  induction l as [|c l IH]; [done|]. rewrite fmap_cons. intros Hp. apply not_elem_of_cons in Hp as [Hne Hp].
  unfold drop_call in *. rewrite filter_cons_True by done. by rewrite IH.
Qed.

(** A generation whose logs grow. *)
Lemma gen_inv_broker G confirms returns confirmed returned :
  gen_inv G → gn_confirmed G ⊆ confirmed → gn_returned G ⊆ returned →
  (∀ s ack, (s, ack) ∈ confirmed → 1 <= s <= llen (gn_wire G)) →
  (∀ c, c ∈ fd_queue confirms → (conf_DeliveryTag c, conf_Ack c) ∈ confirmed) →
  (∀ f x, returns = Some f → x ∈ fd_queue f → x ∈ returned) →
  gen_change None G (gen_broker (gen_feeds G returns confirms (gn_blocked G) (gn_connectionClosed G)) confirmed returned).
Proof.
  intros [] Hc Hr Hcs Hcf Hrf. split; [|split; try done|by split].
  - split; simpl; auto.
    + intros p a Ha. destruct (gi_cell0 p a Ha) as [Hret Hout]. split; simpl.
      * intros Hn. destruct (Hret Hn) as (ret & ? & ?). eauto.
      * intros r Hin. destruct (Hout r Hin) as (Hv & Hj & Hns). split_and!; [done| |exact Hns]. intros Hpr.
        destruct (Hj Hpr) as [J1 J2 J3]. split; simpl.
        -- intros H. destruct (J1 H). split; auto.
        -- intros H. destruct (J2 H). split; auto.
        -- intros H. destruct (J3 H) as (? & (ack & ?) & ret & ? & ?). split_and!; eauto.
    + intros Hpr. destruct (gi_numbers0 Hpr). by split.
  - intros p a Ha. exists a. by split_and!.
Qed.

Lemma on_wire_later own G G' p s : gen_later own G G' → on_wire G p s → on_wire G' p s.
Proof. intros Hl [Hs [message Hw]]. split; [done|]. exists message. by eapply prefix_lookup_Some, Hl. Qed.

Lemma justified_later own G G' p a a' r :
  gen_later own G G' → same_identity a a' → justified G p a r → justified G' p a' r.
Proof.
  intros Hl (E1 & E2 & _) [J1 J2 J3]. pose proof Hl as [_ _ _ Hw Hc Hr _ _].
  split; rewrite E1.
  - intros H. destruct (J1 H). split; [by eapply on_wire_later|auto].
  - intros H. destruct (J2 H). split; [by eapply on_wire_later|auto].
  - intros H. destruct (J3 H) as (? & (ack & ?) & ret & ? & ?). rewrite E2. split_and!; [by eapply on_wire_later|eauto|eauto].
Qed.

Lemma not_sent_later own G G' p r :
  gen_later own G G' → own ≠ Some p → not_sent_ok G p r → not_sent_ok G' p r.
Proof.
  intros Hl Hne Hn Hpre Hst Hin. apply list_elem_of_fmap in Hin as ([q message] & -> & Hin). simpl in Hne.
  apply (Hn (gl_preflights _ _ _ Hl Hpre) Hst). apply list_elem_of_fmap. exists (q, message). split; [done|].
  by apply (gl_sent _ _ _ Hl).
Qed.

Lemma result_later own G G' p a a' r :
  gen_later own G G' → same_identity a a' → own ≠ Some p → result_justified G p a r → result_justified G' p a' r.
Proof.
  intros Hl Hid Hne (Hv & Hj & Hn). split_and!; [done| |by eapply not_sent_later].
  intros Hpr. eapply justified_later; [done|done|]. apply Hj. by apply Hl.
Qed.

(** The client transmits a call. *)
Lemma transmit_sent G p c calls :
  filter (λ c, c.1 = p) (gn_calls G) = c :: calls → NoDup (sent_ptrs G) →
  c.1 = p ∧ c ∈ gn_calls G ∧ sent (gen_calls G (drop_call p (gn_calls G)) (gn_wire G ++ [c])) ≡ₚ sent G.
Proof.
  intros Hf Hnd. assert (c ∈ filter (λ c, c.1 = p) (gn_calls G)) as Hc by (rewrite Hf; left).
  apply list_elem_of_filter in Hc as [Hp Hc]. split_and!; [done|done|]. unfold sent. simpl.
  apply list_elem_of_split in Hc as (l1 & l2 & Hl). unfold sent_ptrs, sent in Hnd. rewrite Hl in Hnd |- *.
  rewrite !fmap_app, fmap_cons in Hnd. rewrite <- app_assoc in Hnd. simpl in Hnd.
  apply NoDup_app in Hnd as (_ & Hd1 & Hnd2). apply NoDup_cons in Hnd2 as [Hd2 _].
  unfold drop_call. rewrite filter_app, filter_cons_False by (by intros []).
  fold (drop_call p l1) (drop_call p l2). rewrite !drop_call_absent.
  - rewrite app_assoc, (Permutation_app_comm _ [c]). simpl. by rewrite <- Permutation_middle.
  - rewrite <- Hp. intros Hin. apply Hd2. apply elem_of_app. by left.
  - rewrite <- Hp. intros Hin. apply (Hd1 _ Hin). left.
Qed.

(** The cells stay good when the generation evolves around them. *)
Lemma cells_later own G G' :
  gen_inv G → gen_later own G G' → tr_heap (gn_tracker G') = tr_heap (gn_tracker G) →
  (∀ p a, tr_heap (gn_tracker G) !! p = Some a → own = Some p → cell_ok G' p a) →
  ∀ p a, tr_heap (gn_tracker G') !! p = Some a → cell_ok G' p a.
Proof.
  intros Hinv Hl Ht Hown p a Ha. rewrite Ht in Ha. destruct (decide (own = Some p)) as [|Hne]; [auto|].
  destruct (gi_cell _ Hinv p a Ha) as [Hret Hout]. split.
  - intros Hn. destruct (Hret Hn) as (ret & Hin & ?). exists ret. split; [by apply Hl|done].
  - intros r Hr. eapply result_later; [exact Hl|done|done|auto].
Qed.

Lemma numbers_transmit G p c :
  NoDup (sent_ptrs G) → (∀ p message, (p, message) ∈ sent G → is_Some (tr_heap (gn_tracker G) !! p)) →
  numbers G → c.1 = p → c ∈ gn_calls G → numbers (gen_calls G (drop_call p (gn_calls G)) (gn_wire G ++ [c])).
Proof.
  intros Hnd Hkn [Hw Hc Ho Hp] Hcp Hin. destruct c as [q message]. simpl in Hcp. subst q.
  assert (∀ x, x ∉ drop_call p (gn_calls G)) as Hnone.
  { intros [q m] Hx. apply drop_call_spec in Hx as [Hx Hne]. simpl in Hne. by rewrite (Ho _ _ _ _ Hin Hx) in Hne. }
  assert (llen (gn_wire G ++ [(p, message)]) = llen (gn_wire G) + 1) as Hlen by (rewrite llen_app; done).
  split; unfold next_sequence in *; simpl; rewrite ?Hlen.
  - intros k q m a Hk Ha. apply lookup_app_Some in Hk as [Hk|[Hle Hk]]; [eauto|].
    apply list_lookup_singleton_Some in Hk as [Hk [= <- <-]]. destruct (Hc p message a Hin Ha) as [-> _]. unfold llen. lia.
  - intros q m a Hx. by apply Hnone in Hx.
  - intros q q' m m' Hx. by apply Hnone in Hx.
  - intros q a Ha Hpend. destruct (Hp q a Ha Hpend) as [Hle Hlt]. split; [lia|]. intros _.
    destruct (decide (at_sequence a = llen (gn_wire G) + 1)) as [Heq|Hne].
    + destruct (Hkn p message) as [a0 Ha0]; [apply elem_of_app; by left|]. destruct (Hc p message a0 Hin Ha0) as [_ Hu].
      rewrite (Hu q a Ha Hpend Heq). split; [lia|]. exists message. simpl. rewrite Heq. apply lookup_app_Some. right.
      unfold llen. split; [lia|]. replace (Z.to_nat (Z.of_nat (length (gn_wire G)) + 1 - 1) - length (gn_wire G))%nat with 0%nat by lia. done.
    + destruct (Hlt ltac:(lia)) as [? [m Hm]]. split; [lia|]. exists m. simpl. apply lookup_app_Some. by left.
Qed.

Lemma gen_change_transmit G p c calls :
  gen_inv G → filter (λ c, c.1 = p) (gn_calls G) = c :: calls →
  gen_change None G (gen_calls G (drop_call p (gn_calls G)) (gn_wire G ++ [c])).
Proof.
  intros Hinv Hf. destruct (transmit_sent G p c calls Hf (gi_nodup _ Hinv)) as (Hp & Hin & Hperm).
  set (G' := gen_calls G _ _) in *.
  assert (gen_later None G G') as Hl.
  { split; try done.
    - intros q a Ha. exists a. by split_and!.
    - intros x _ Hx. by rewrite Hperm in Hx.
    - simpl. by apply prefix_app_r. }
  split; [|done|].
  - pose proof Hinv as []. split; try done.
    + intros q m Hx. rewrite Hperm in Hx. eauto.
    + unfold sent_ptrs. by rewrite Hperm.
    + intros s ack Hs. simpl. rewrite llen_app. apply gi_confirmed0 in Hs. unfold llen at 2. simpl. lia.
    + by eapply cells_later.
    + intros Hpr. apply numbers_transmit; auto.
  - split; [done|intros x Hx; by apply drop_call_spec in Hx as [? _]|]. simpl. intros E. rewrite E in Hin. by apply not_elem_of_nil in Hin.
Qed.

Lemma gen_change_env G e G' : gen_inv G → env_gen G e = Some G' → gen_change None G G'.
Proof.
  intros Hinv He. destruct e as [p|sequence ack|ret|active|]; simpl in He.
  - destruct (filter _ _) as [|c calls] eqn:Hf; [done|]. injection He as <-. by eapply gen_change_transmit.
  - destruct (_ && _) eqn:Hb; [|done]. injection He as <-. apply andb_prop in Hb as [[H1 H2]%andb_prop _].
    apply gen_inv_broker; try done; [by apply list_subseteq_app_l| | |].
    + intros s a [Hin|Hin]%elem_of_app; [by eapply (gi_confirmed _ Hinv)|]. apply list_elem_of_singleton in Hin. simplify_eq. lia.
    + simpl. intros c [Hin|Hin]%elem_of_app; apply elem_of_app; [left; by apply (gi_confirms _ Hinv)|right].
      apply list_elem_of_singleton in Hin as ->. by left.
    + apply (gi_returns _ Hinv).
  - destruct (gn_returns G) as [f|] eqn:Hf; [|done]. destruct (fd_closed f); [done|]. injection He as <-.
    apply gen_inv_broker; try done; [by apply list_subseteq_app_l|apply (gi_confirmed _ Hinv)|apply (gi_confirms _ Hinv)|].
    intros f' x [= <-] Hx. simpl in Hx. apply elem_of_app in Hx as [Hx|Hx]; apply elem_of_app; [left|by right].
    by eapply (gi_returns _ Hinv).
  - destruct (gn_blocked G) as [f|]; [|done]. destruct (fd_closed f); [done|]. injection He as <-.
    apply gen_change_feeds; eauto.
  - injection He as <-. apply gen_change_feeds; [done|done|]. intros f x Hf Hx.
    destruct (gn_returns G) as [f0|]; [|done]. injection Hf as <-. eauto.
Qed.

Lemma gen_change_close own G close : gen_inv G → gen_change own G (gen_closed G close).
Proof.
  intros []. split; [|split; try done|by split].
  - split; simpl; auto.
    + intros p a Ha. destruct (gi_cell0 p a Ha) as [Hret Hout]. split; [done|]. intros r Hin.
      destruct (Hout r Hin) as (Hv & Hj & Hn). split_and!; [done| |exact Hn]. intros Hpr. destruct (Hj Hpr). by split.
    + intros Hpr. destruct (gi_numbers0 Hpr). by split.
  - intros p a Ha. exists a. by split_and!.
Qed.

(** ** Publishers *)

Definition message_of (G : gen) (b : publisher) (a : pub_attempt) : call_message :=
  publish_message (pb_publication b) (publish_token (gn_session G) (pa_sequence a)).

(** What holds of the attempt of a publisher in each phase. *)
Definition phase_ok (G : gen) (a : pub_attempt) (cell : publishAttempt) (x : pub_phase) : Prop :=
  match x with
  | PubRegistered _ =>
    unread cell ∧ sendable G cell ∧ (pa_ptr a ∉ sent_ptrs G)
    ∧ (∀ p, tr_sequence (gn_tracker G) !! pa_sequence a = Some p → p = pa_ptr a)
    ∧ (prompt G → pa_sequence a = next_sequence G ∧ gn_calls G = [])
  | PubPreflight _ _ => gn_preflights G ≠ []
  | PubFailedWait _ _ | PubLast _ => unread cell ∧ ¬ pending cell
  | PubFinished _ _ r _ | PubDone _ r _ => result_justified G (pa_ptr a) cell r
  | _ => unread cell
  end.

Record attempt_ok (G : gen) (b : publisher) (a : pub_attempt) (cell : publishAttempt) : Prop := {
  ao_cell : tr_heap (gn_tracker G) !! pa_ptr a = Some cell;
  ao_sequence : at_sequence cell = pa_sequence a;
  ao_token : at_token cell = publish_token (gn_session G) (pa_sequence a);
  ao_exchange : at_exchange cell = Publication_Exchange (pb_publication b);
  ao_route : at_route cell = Publication_RoutingKey (pb_publication b);
  ao_message : ∀ m, (pa_ptr a, m) ∈ sent G → m = message_of G b a;
  ao_phase : phase_ok G a cell (pb_phase b) }.

Definition pub_ok (gens : list gen) (b : publisher) : Prop :=
  match phase_attempt (pb_phase b) with
  | Some a => ∃ G cell, gens !! pa_gen a = Some G ∧ attempt_ok G b a cell
  | None =>
    match pb_phase b with PubFinished _ _ r _ | PubDone _ r _ => r = notSent | _ => True end
  end.

Definition is_registered (x : pub_phase) : bool := match x with PubRegistered _ => true | _ => false end.

Lemma attempt_later own G G' b a cell :
  gen_later own G G' → own ≠ Some (pa_ptr a) → (is_registered (pb_phase b) = true → gen_still G G') →
  attempt_ok G b a cell → ∃ cell', attempt_ok G' b a cell'.
Proof.
  intros Hl Hne Hstill []. destruct (gl_cells _ _ _ Hl _ _ ao_cell0) as (cell' & Hc' & Hid & Hus). destruct (Hus Hne) as [Hu Hsd].
  pose proof Hid as (E1 & E2 & E3 & E4 & E5). exists cell'. split; try congruence.
  - rewrite E2, (gl_session _ _ _ Hl). done.
  - unfold message_of. rewrite (gl_session _ _ _ Hl). intros m Hm. apply ao_message0. by apply (gl_sent _ _ _ Hl).
  - unfold phase_ok in *. destruct (pb_phase b); auto; try (destruct ao_phase0; by auto).
    + destruct ao_phase0 as (P1 & P0 & P2 & P3 & P4). destruct (Hstill eq_refl) as [Hs1 _ Hs3]. split_and!; auto.
      * intros Hin. apply P2. apply list_elem_of_fmap in Hin as (y & Hy & Hin). apply list_elem_of_fmap. exists y. split; [done|].
        apply (gl_sent _ _ _ Hl); [congruence|done].
      * intros Hpr. destruct (P4 (gl_prompt _ _ _ Hl Hpr)) as [P5 P6]. destruct (Hs3 P6) as [? Hw]. split; [|done].
        unfold next_sequence in *. by rewrite Hw.
    + intros Hn. apply ao_phase0. by apply Hl.
    + by eapply result_later.
    + by eapply result_later.
Qed.

Record corr (s : psystem) : Prop := {
  co_gens : ∀ g G, ys_gens s !! g = Some G → gen_inv G;
  co_pub : ∀ i b, ys_publishers s !! i = Some b → pub_ok (ys_gens s) b;
  co_unique : ∀ i j b b' a a', ys_publishers s !! i = Some b → ys_publishers s !! j = Some b' →
    phase_attempt (pb_phase b) = Some a → phase_attempt (pb_phase b') = Some a' →
    pa_gen a = pa_gen a' → pa_ptr a = pa_ptr a' → i = j;
  co_running : ∀ g G p m, ys_gens s !! g = Some G → (p, m) ∈ gn_calls G → prompt G →
    (∃ i b a, ys_publishers s !! i = Some b ∧ pb_phase b = PubSending a ∧ pa_gen a = g ∧ pa_ptr a = p)
    ∨ g ≠ current s ∨ pr_unavailable (ys_producer s) = true;
  co_available : ∀ i b G, ys_publishers s !! i = Some b → pb_phase b = PubAvailable →
    ys_gens s !! current s = Some G → prompt G → gn_calls G = [] }.

Lemma corr_new config session : corr (newPSystem config session).
Proof.
  split; simpl; try done.
  - intros [|g] G; [|done]. intros [= <-]. apply gen_inv_new.
  - intros [|g] G p m; [|done]. intros [= <-] H. by apply not_elem_of_nil in H.
Qed.

Lemma insert_gen (gens : list gen) g G G' h H :
  gens !! g = Some G → <[g := G']> gens !! h = Some H → h = g ∧ H = G' ∨ h ≠ g ∧ gens !! h = Some H.
Proof.
  intros Hg Hh. destruct (decide (h = g)) as [-> |Hne].
  - rewrite list_lookup_insert_eq in Hh by (by eapply lookup_lt_Some). injection Hh as <-. by left.
  - rewrite list_lookup_insert_ne in Hh by done. by right.
Qed.

Lemma insert_pub (l : list publisher) i b b' j x :
  l !! i = Some b → <[i := b']> l !! j = Some x → j = i ∧ x = b' ∨ j ≠ i ∧ l !! j = Some x.
Proof.
  intros Hi Hj. destruct (decide (j = i)) as [-> |Hne].
  - rewrite list_lookup_insert_eq in Hj by (by eapply lookup_lt_Some). injection Hj as <-. by left.
  - rewrite list_lookup_insert_ne in Hj by done. by right.
Qed.

(** A publisher keeps its attempt when a generation evolves. *)
Lemma pub_ok_later gens g G G' own b :
  gens !! g = Some G → gen_later own G G' →
  (∀ a, phase_attempt (pb_phase b) = Some a → pa_gen a = g → own ≠ Some (pa_ptr a)) →
  (is_registered (pb_phase b) = true → gen_still G G') →
  pub_ok gens b → pub_ok (<[g := G']> gens) b.
Proof.
  intros Hg Hl Hown Hstill. unfold pub_ok. destruct (phase_attempt (pb_phase b)) as [a|] eqn:Ha; [|done].
  intros (H & cell & Hh & Hok). destruct (decide (pa_gen a = g)) as [Heq|Hne].
  - rewrite Heq, Hg in Hh. injection Hh as <-. destruct (attempt_later own G G' b a cell) as (cell' & Hok'); eauto.
    exists G', cell'. split; [|done]. rewrite Heq. apply list_lookup_insert_eq. by eapply lookup_lt_Some.
  - exists H, cell. split; [by rewrite list_lookup_insert_ne|done].
Qed.

(** The shared state forgets no failure but by a new generation. *)
Definition failure_kept (p p' : Producer) : Prop := pr_unavailable p = true → pr_unavailable p' = true.

(** A step of the event goroutine, of a closer, of the client or of the broker. *)
Lemma corr_change s s' g G G' :
  corr s → ys_gens s !! g = Some G → gen_change None G G' → ys_gens s' = <[g := G']> (ys_gens s) →
  ys_publishers s' = ys_publishers s → failure_kept (ys_producer s) (ys_producer s') → corr s'.
Proof.
  intros Hcorr Hg [Hinv Hl Hst] Hgens Hpubs Hun.
  assert (current s' = current s) as Hcur by (unfold current; by rewrite Hgens, length_insert).
  split; rewrite ?Hpubs, ?Hcur, ?Hgens.
  - intros h H Hh. destruct (insert_gen _ _ _ _ _ _ Hg Hh) as [[-> ->]|[_ Hh']]; [done|]. by eapply co_gens.
  - intros i b Hi. eapply pub_ok_later; [exact Hg|exact Hl|done|done|]. by eapply co_pub.
  - apply (co_unique _ Hcorr).
  - intros h H p m Hh Hin Hpr. destruct (insert_gen _ _ _ _ _ _ Hg Hh) as [[-> ->]|[_ Hh']].
    + destruct (co_running _ Hcorr g G p m Hg) as [|[|]]; auto; [by apply Hst|by apply Hl].
    + destruct (co_running _ Hcorr h H p m Hh' Hin Hpr) as [|[|]]; auto.
  - intros i b H Hi Hb Hh Hpr. destruct (insert_gen _ _ _ _ _ _ Hg Hh) as [[E ->]|[_ Hh']].
    + apply Hst. eapply (co_available _ Hcorr); [exact Hi|exact Hb|by rewrite E|by apply Hl].
    + by eapply (co_available _ Hcorr).
Qed.

(** A step that touches no generation and no publisher. *)
Lemma corr_producer s s' :
  corr s → ys_gens s' = ys_gens s → ys_publishers s' = ys_publishers s →
  failure_kept (ys_producer s) (ys_producer s') → corr s'.
Proof.
  intros [] Hg Hp Hun. assert (current s' = current s) as Hcur by (unfold current; by rewrite Hg).
  split; rewrite ?Hp, ?Hcur, ?Hg; auto. intros g G p m HG Hin Hpr. destruct (co_running0 g G p m HG Hin Hpr) as [|[|]]; auto.
Qed.

(** A step of publisher [i] that changes generation [g]. *)
Record own_step (s : psystem) (i : nat) (b : publisher) (x : pub_phase) (p : Producer) (g : nat) (G G' : gen)
    (own : option nat) : Prop := {
  os_gen : ys_gens s !! g = Some G;
  os_inv : gen_inv G';
  os_later : gen_later own G G';
  os_own : ∀ q, own = Some q → ∃ a, phase_attempt (pb_phase b) = Some a ∧ pa_gen a = g ∧ pa_ptr a = q;
  os_still : holds b = true ∨ gen_still G G';
  os_pub : pub_ok (<[g := G']> (ys_gens s)) (mkPublisher (pb_publication b) x);
  os_attempt : ∀ a, phase_attempt x = Some a → phase_attempt (pb_phase b) = Some a
    ∨ ∀ j b' a', ys_publishers s !! j = Some b' → phase_attempt (pb_phase b') = Some a' →
        pa_gen a' = pa_gen a → pa_ptr a' ≠ pa_ptr a;
  os_sending : ∀ a, pb_phase b = PubSending a → pa_gen a = g;
  os_running : ∀ q m, (q, m) ∈ gn_calls G' → prompt G' →
    (q, m) ∈ gn_calls G ∧ (∀ a, pb_phase b = PubSending a → pa_ptr a ≠ q)
    ∨ (∃ a, x = PubSending a ∧ pa_gen a = g ∧ pa_ptr a = q) ∨ g ≠ current s ∨ pr_unavailable p = true;
  os_available : x = PubAvailable → ∀ H, <[g := G']> (ys_gens s) !! current s = Some H → prompt H → gn_calls H = [];
  os_failure : failure_kept (ys_producer s) p }.

Lemma corr_own s i b x p m g G G' own closers :
  corr s → (tally holds (ys_publishers s) <= 1)%nat → ys_publishers s !! i = Some b →
  own_step s i b x p g G G' own → corr (apply_pub s i b p m (Some (g, G')) closers x).
Proof.
  intros Hcorr Hone Hi [Hg Hinv Hl Hown Hst Hpub Hat Hsend Hrun Hav Hun]. set (s' := apply_pub _ _ _ _ _ _ _ _).
  assert (current s' = current s) as Hcur by (unfold current; simpl; by rewrite length_insert).
  assert (∀ j b', ys_publishers s !! j = Some b' → holds b' = true → j ≠ i → gen_still G G') as Hothers.
  { intros j b' Hj Hh Hne. destruct Hst as [Hb|]; [|done]. by destruct Hne; eapply (tally_two holds). }
  split; rewrite ?Hcur; simpl.
  - intros h H Hh. destruct (insert_gen _ _ _ _ _ _ Hg Hh) as [[-> ->]|[_ Hh']]; [done|]. by eapply co_gens.
  - intros j b' Hj. destruct (insert_pub _ _ _ _ _ _ Hi Hj) as [[-> ->]|[Hne Hj']]; [done|].
    eapply pub_ok_later; [exact Hg|exact Hl| | |by eapply co_pub].
    + intros a' Ha' Eg Eq. destruct (Hown _ Eq) as (a & Ha & Eg2 & Ep). destruct Hne.
      eapply (co_unique _ Hcorr); [exact Hj'|exact Hi|exact Ha'|exact Ha|congruence|congruence].
    + intros Hreg. eapply Hothers; [exact Hj'| |done]. unfold holds. by destruct (pb_phase b').
  - assert (∀ j b' a a', ys_publishers s !! j = Some b' → j ≠ i → phase_attempt x = Some a → phase_attempt (pb_phase b') = Some a' →
      pa_gen a' = pa_gen a → pa_ptr a' = pa_ptr a → False) as Hother.
    { intros j b' a a' Hj Hne Ha Ha' E1 E2. destruct (Hat a Ha) as [Hb|Hfresh]; [|by eapply Hfresh].
      apply Hne. by eapply (co_unique _ Hcorr). }
    intros j k b1 b2 a a' Hj Hk Ha Ha' E1 E2.
    destruct (insert_pub _ _ _ _ _ _ Hi Hj) as [[-> ->]|[Hne Hj']], (insert_pub _ _ _ _ _ _ Hi Hk) as [[-> ->]|[Hne' Hk']]; try done.
    + exfalso. eapply (Hother k b2 a a'); eauto.
    + exfalso. eapply (Hother j b1 a' a); eauto.
    + by eapply (co_unique _ Hcorr).
  - assert (∀ h q, (h = g → ∀ a, pb_phase b = PubSending a → pa_ptr a ≠ q) →
      (∃ j b' a, ys_publishers s !! j = Some b' ∧ pb_phase b' = PubSending a ∧ pa_gen a = h ∧ pa_ptr a = q)
      ∨ h ≠ current s ∨ pr_unavailable (ys_producer s) = true →
      (∃ j b' a, <[i := mkPublisher (pb_publication b) x]> (ys_publishers s) !! j = Some b' ∧ pb_phase b' = PubSending a
         ∧ pa_gen a = h ∧ pa_ptr a = q) ∨ h ≠ current s ∨ pr_unavailable p = true) as Hkeep.
    { intros h q Hnot [(j & b' & a & Hj & Hb & Ha1 & Ha2)|[|]]; auto. left. exists j, b', a. split_and!; try done.
      rewrite list_lookup_insert_ne; [done|]. intros <-. rewrite Hi in Hj. injection Hj as <-.
      apply (Hnot ltac:(rewrite <- Ha1; by apply Hsend) a Hb Ha2). }
    intros h H q m' Hh Hin Hpr. destruct (insert_gen _ _ _ _ _ _ Hg Hh) as [[-> ->]|[Hne Hh']].
    + destruct (Hrun q m' Hin Hpr) as [[Hin' Hnot]|[(a & -> & Ha1 & Ha2)|[|]]]; auto.
      * apply Hkeep; [auto|]. eapply (co_running _ Hcorr); [exact Hg|exact Hin'|by apply Hl].
      * left. exists i, (mkPublisher (pb_publication b) (PubSending a)), a. split_and!; try done.
        apply list_lookup_insert_eq. by eapply lookup_lt_Some.
    + apply Hkeep; [done|]. by eapply (co_running _ Hcorr).
  - intros j b' H Hj Hb Hh Hpr. destruct (insert_pub _ _ _ _ _ _ Hi Hj) as [[-> ->]|[Hne Hj']]; [by eapply Hav|].
    assert (holds b' = true) as Hh' by (unfold holds; by rewrite Hb). pose proof (Hothers j b' Hj' Hh' Hne) as Hstill.
    destruct (insert_gen _ _ _ _ _ _ Hg Hh) as [[E ->]|[_ Hh2]].
    + apply Hstill. eapply (co_available _ Hcorr); [exact Hj'|exact Hb|by rewrite E|by apply Hl].
    + by eapply (co_available _ Hcorr).
Qed.

(** ** The transitions of a publisher *)

Lemma failure_kept_refl p : failure_kept p p.
Proof. by intros ?. Qed.

Lemma failure_kept_fail p b : failure_kept p (failGeneration p b).
Proof.
  unfold failure_kept, failGeneration, markRecovering. destruct (negb b); [done|]. intros H.
  by destruct (producerRecoveryAllowed _ _).
Qed.

(** A failed send on the current generation of an open producer closes the way to
    it. *)
Lemma failGeneration_unavailable p :
  producer_inv p → pr_closed p = false → pr_unavailable (failGeneration p true) = true.
Proof.
  intros [] Hc. unfold failGeneration, markRecovering, producerRecoveryAllowed. rewrite Hc. simpl.
  destruct (pr_recovering p) eqn:Hr; [|done]. simpl. auto.
Qed.

Lemma result_tracker G t p a r : result_justified G p a r → result_justified (gen_tracker G t) p a r.
Proof. intros (Hv & Hj & Hn). split_and!; [done| |exact Hn]. intros Hpr. destruct (Hj Hpr). by split. Qed.

(** The attempt of a publisher that moves on to phase [x]. *)
Lemma attempt_phase own G G' b a cell x :
  attempt_ok G b a cell → gen_later own G G' → (∀ m, (pa_ptr a, m) ∈ sent G' → (pa_ptr a, m) ∈ sent G) →
  (∀ cell', tr_heap (gn_tracker G') !! pa_ptr a = Some cell' → same_identity cell cell' →
     (own ≠ Some (pa_ptr a) → unread cell → unread cell') → phase_ok G' a cell' x) →
  ∃ cell', attempt_ok G' (mkPublisher (pb_publication b) x) a cell'.
Proof.
  intros [] Hl Hs Hx. destruct (gl_cells _ _ _ Hl _ _ ao_cell0) as (cell' & Hc' & Hid & Hu).
  pose proof Hid as (E1 & E2 & E3 & E4 & E5). exists cell'. split; simpl; try congruence.
  - by rewrite E2, (gl_session _ _ _ Hl).
  - unfold message_of. rewrite (gl_session _ _ _ Hl). auto.
  - apply Hx; [done|done|]. intros Hne. by apply Hu.
Qed.

Lemma pub_attempt_of gens b a :
  pub_ok gens b → phase_attempt (pb_phase b) = Some a → ∃ G cell, gens !! pa_gen a = Some G ∧ attempt_ok G b a cell.
Proof. unfold pub_ok. intros H Ha. by rewrite Ha in H. Qed.

Lemma pub_ok_insert gens g G G' b a cell x :
  gens !! g = Some G → pa_gen a = g → phase_attempt x = Some a →
  attempt_ok G' (mkPublisher (pb_publication b) x) a cell →
  pub_ok (<[g := G']> gens) (mkPublisher (pb_publication b) x).
Proof.
  intros Hg Ha Hx Hok. unfold pub_ok. simpl. rewrite Hx. exists G', cell. split; [|done].
  rewrite Ha. apply list_lookup_insert_eq. by eapply lookup_lt_Some.
Qed.

(** A step that changes no generation. *)
Lemma own_idle s i b x p G :
  ys_gens s !! current s = Some G → gen_inv G → (∀ a, pb_phase b ≠ PubSending a) →
  pub_ok (ys_gens s) (mkPublisher (pb_publication b) x) →
  (∀ a, phase_attempt x = Some a → phase_attempt (pb_phase b) = Some a) →
  (x = PubAvailable → prompt G → gn_calls G = []) → failure_kept (ys_producer s) p →
  own_step s i b x p (current s) G G None.
Proof.
  intros Hg Hinv Hb Hpub Hat Hav Hun. assert (<[current s := G]> (ys_gens s) = ys_gens s) as Hid by by apply list_insert_id.
  split; rewrite ?Hid; try done.
  - by right.
  - intros a Ha. left. auto.
  - intros a Ha. by apply Hb in Ha.
  - intros q m Hin Hpr. left. split; [done|]. intros a Ha. by apply Hb in Ha.
  - intros Hx H HH Hpr. rewrite Hg in HH. injection HH as <-. auto.
Qed.

(** A step on the tracker of the publisher's generation. *)
Lemma own_op s i b x own a G t :
  phase_attempt (pb_phase b) = Some a → ys_gens s !! pa_gen a = Some G → (∀ a, pb_phase b ≠ PubSending a) →
  gen_change own G (gen_tracker G t) → (own = None ∨ own = Some (pa_ptr a)) → phase_attempt x = Some a →
  pub_ok (<[pa_gen a := gen_tracker G t]> (ys_gens s)) (mkPublisher (pb_publication b) x) →
  own_step s i b x (ys_producer s) (pa_gen a) G (gen_tracker G t) own.
Proof.
  intros Ha Hg Hb [Hinv Hl Hst] Hown Hx Hpub. split; try done.
  - intros q Hq. exists a. destruct Hown; simplify_eq. by split_and!.
  - by right.
  - intros a' Ha'. left. congruence.
  - intros a' Ha'. by apply Hb in Ha'.
  - intros q m Hin Hpr. left. split; [done|]. intros a' Ha'. by apply Hb in Ha'.
  - intros ->. done.
  - apply failure_kept_refl.
Qed.

(** The result of a received outcome. *)
Lemma receive_result G b a cell r t :
  gen_inv G → attempt_ok G b a cell → unread cell → receive (gn_tracker G) (pa_ptr a) = Some (r, t) →
  result_justified G (pa_ptr a) cell (received_result r).
Proof.
  intros Hinv [] Hu Hr. assert (¬ pending cell) as Hn.
  { intros Hp. unfold receive in Hr. rewrite ao_cell0, Hp in Hr. done. }
  destruct (receive_eq _ _ _ (gi_wf _ Hinv) ao_cell0 Hn) as (l & Hl & Hr'). rewrite Hr' in Hr. injection Hr as <- _.
  destruct l as [|r0 l]; [by destruct Hu|]. simpl. apply (ce_outcome _ _ _ (gi_cell _ Hinv _ _ ao_cell0)). rewrite Hl. by left.
Qed.

Lemma attempt_finish own G G' b a cell x r started err :
  x = PubFinished (Some a) started r err →
  attempt_ok G b a cell → gen_later own G G' → (∀ m, (pa_ptr a, m) ∈ sent G' → (pa_ptr a, m) ∈ sent G) →
  result_justified G' (pa_ptr a) cell r → ∃ cell', attempt_ok G' (mkPublisher (pb_publication b) x) a cell'.
Proof.
  intros -> Hok Hl Hs Hr. eapply attempt_phase; [done|exact Hl|exact Hs|]. intros cell' _ Hid _. simpl. by eapply result_identity.
Qed.

Lemma not_sent_result G p a : (gn_preflights G = [] → p ∉ sent_ptrs G) → result_justified G p a notSent.
Proof. intros H. split_and!; [done|by split|]. intros Hpre _. auto. Qed.

(** *** Registration *)

Lemma register_inr t s token exchange route p t' :
  register t s token exchange route = (inr p, t') →
  p = tr_next t ∧ tr_sequence t !! s = None ∧ tr_sequence t' = <[s := p]> (tr_sequence t)
  ∧ tr_heap t' = <[p := mkAttempt s token exchange route None make_chan]> (tr_heap t).
Proof.
  unfold register. destruct (publishRegistrationAdmission _ _ _ _); [done|].
  destruct (tr_sequence t !! s) eqn:Hs; [done|]. destruct (tr_token t !! token); [done|]. by intros [= <- <-].
Qed.

Lemma register_inl t s token exchange route err t' : register t s token exchange route = (inl err, t') → t' = t.
Proof. unfold register. repeat case_match; by intros [= _ <-]. Qed.

Lemma gen_change_register G token exchange route p t :
  gen_inv G → (prompt G → gn_calls G = []) →
  register (gn_tracker G) (next_sequence G) token exchange route = (inr p, t) →
  tr_heap (gn_tracker G) !! p = None ∧ gen_inv (gen_tracker G t) ∧ gen_later None G (gen_tracker G t).
Proof.
  intros Hinv Hidle Hr. pose proof (register_wf _ (next_sequence G) token exchange route (gi_wf _ Hinv)) as Hwf.
  rewrite Hr in Hwf. simpl in Hwf. apply register_inr in Hr as (Hp & Hns & Hseq & Hheap).
  pose proof (wf_fresh _ (gi_wf _ Hinv) p ltac:(lia)) as Hfresh.
  assert (∀ q a, tr_heap (gn_tracker G) !! q = Some a → tr_heap t !! q = Some a) as Hkeep
    by (intros q a Ha; rewrite Hheap, lookup_insert_ne; [done|congruence]).
  assert (∀ q a, tr_heap t !! q = Some a → q = p ∧ a = mkAttempt (next_sequence G) token exchange route None make_chan
    ∨ tr_heap (gn_tracker G) !! q = Some a) as Hback
    by (intros q a; rewrite Hheap, lookup_insert_Some; intros [[-> <-]|[_ ?]]; auto).
  split; [done|]. split.
  - pose proof Hinv as []. split; simpl; try done.
    + intros q m Hin. destruct (gi_known0 q m Hin) as [a Ha]. eauto.
    + intros q a Ha. destruct (Hback q a Ha) as [[-> ->]|Ha']; [|by apply cell_ok_tracker, gi_cell0].
      split; [done|]. intros r Hin. by apply not_elem_of_nil in Hin.
    + intros Hpr. destruct (gi_numbers0 Hpr) as [N1 N2 N3 N4]. specialize (Hidle Hpr). split; simpl.
      * intros k q m a Hk Ha. destruct (Hback q a Ha) as [[-> ->]|Ha']; [|eauto].
        destruct (gi_known0 p m) as [? ?]; [|congruence]. apply elem_of_app. right. by eapply list_elem_of_lookup_2.
      * rewrite Hidle. intros q m a Hin. by apply not_elem_of_nil in Hin.
      * done.
      * intros q a Ha Hpend. destruct (Hback q a Ha) as [[-> ->]|Ha']; [|by apply N4]. unfold next_sequence, llen in *. simpl. lia.
  - split; try done. simpl. intros q a Ha. exists a. split; [auto|]. by split.
Qed.

Lemma own_register s i b G p t :
  corr s → ys_publishers s !! i = Some b → pb_phase b = PubAvailable → ys_gens s !! current s = Some G →
  register (gn_tracker G) (next_sequence G) (publish_token (gn_session G) (next_sequence G))
    (Publication_Exchange (pb_publication b)) (Publication_RoutingKey (pb_publication b)) = (inr p, t) →
  own_step s i b (PubRegistered (mkPubAttempt (current s) p (next_sequence G))) (ys_producer s) (current s) G
    (gen_tracker G t) None.
Proof.
  intros Hcorr Hi Hb Hg Hr. pose proof (co_gens _ Hcorr _ _ Hg) as Hinv. pose proof (co_available _ Hcorr _ _ _ Hi Hb Hg) as Hidle.
  destruct (gen_change_register _ _ _ _ _ _ Hinv Hidle Hr) as (Hfresh & Hinv' & Hl).
  apply register_inr in Hr as (_ & _ & Hseq & Hheap).
  assert (p ∉ sent_ptrs G) as Hns.
  { intros Hin. apply list_elem_of_fmap in Hin as ([q m] & -> & Hin). destruct (gi_known _ Hinv _ _ Hin). simpl in *. congruence. }
  split; try done.
  - left. unfold holds. by rewrite Hb.
  - eapply (pub_ok_insert _ _ G _ b (mkPubAttempt (current s) p (next_sequence G))); [exact Hg|done|done|].
    split; simpl; [by rewrite Hheap, lookup_insert_eq|done..| |].
    + intros m Hin. destruct Hns. apply list_elem_of_fmap. by exists (p, m).
    + split; [done|]. split; [intros _ r Hr; by apply not_elem_of_nil in Hr|]. split; [exact Hns|]. split.
      * intros q Hq. simpl in Hq. rewrite Hseq, lookup_insert_eq in Hq. congruence.
      * intros Hpr. split; [done|by apply Hidle].
  - intros a [= <-]. right. simpl. intros j b' a' Hj Ha' Eg Ep.
    destruct (pub_attempt_of _ _ _ (co_pub _ Hcorr _ _ Hj) Ha') as (H & cell & Hh & Hok). rewrite Eg, Hg in Hh. injection Hh as <-.
    rewrite <- Ep in Hfresh. by rewrite (ao_cell _ _ _ _ Hok) in Hfresh.
  - intros a Ha. congruence.
  - simpl. intros q m Hin Hpr. rewrite (Hidle Hpr) in Hin. by apply not_elem_of_nil in Hin.
  - apply failure_kept_refl.
Qed.

(** *** The send *)

Lemma own_send s i b a G :
  corr s → ys_publishers s !! i = Some b → pb_phase b = PubRegistered a → ys_gens s !! pa_gen a = Some G →
  own_step s i b (PubSending a) (ys_producer s) (pa_gen a) G
    (gen_calls G (gn_calls G ++ [(pa_ptr a, message_of G b a)]) (gn_wire G)) (Some (pa_ptr a)).
Proof.
  intros Hcorr Hi Hb Hg. pose proof (co_gens _ Hcorr _ _ Hg) as Hinv.
  destruct (pub_attempt_of _ _ a (co_pub _ Hcorr _ _ Hi)) as (G0 & cell & Hg0 & Hok); [by rewrite Hb|].
  rewrite Hg in Hg0. injection Hg0 as <-. pose proof (ao_phase _ _ _ _ Hok) as Hph. rewrite Hb in Hph.
  destruct Hph as (Hun & Hsd & Hns & Hown & Hnum). pose proof (ao_cell _ _ _ _ Hok) as Hcell.
  set (G' := gen_calls _ _ _).
  assert (∀ x, x ∈ sent G' → x ∈ sent G ∨ x = (pa_ptr a, message_of G b a)) as Hsent.
  { intros x. unfold sent. simpl. rewrite !elem_of_app, list_elem_of_singleton. tauto. }
  assert (gen_later (Some (pa_ptr a)) G G') as Hl.
  { split; try done.
    - intros q x Hx. exists x. by split_and!.
    - intros x Hne Hx. destruct (Hsent x Hx) as [| ->]; [done|]. by destruct Hne. }
  assert (gen_inv G') as Hinv'.
  { pose proof Hinv as []. split; try done.
    - intros q m Hin. destruct (Hsent _ Hin) as [|[= -> ->]]; [eauto|by exists cell].
    - unfold sent_ptrs, sent in *. simpl. rewrite !fmap_app in *. simpl. rewrite <- app_assoc. simpl.
      rewrite <- Permutation_middle. apply NoDup_cons. done.
    - eapply (cells_later _ G); try done. intros q x Hx [= <-]. rewrite Hcell in Hx. injection Hx as <-.
      destruct (gi_cell0 _ _ Hcell) as [Hret Hout]. split; [done|]. intros r Hr. destruct (Hout r Hr) as (Hv & Hj & _).
      split_and!; [done| |].
      + intros Hpr. eapply justified_later; [exact Hl|done|auto].
      + intros Hpre Hst. by apply Hsd in Hst.
    - intros Hpr. destruct (gi_numbers0 Hpr) as [N1 N2 N3 N4]. destruct (Hnum Hpr) as [Hs Hc]. split; simpl; rewrite ?Hc; try done.
      + intros q m x [= -> ->]%list_elem_of_singleton Hx. rewrite Hcell in Hx. injection Hx as <-.
        change (next_sequence G') with (next_sequence G). rewrite (ao_sequence _ _ _ _ Hok). split; [done|].
        intros q y Hy Hpend Hsy. apply Hown. rewrite Hs. apply (wf_sequence _ gi_wf0). eauto.
      + intros q q' m m' [= -> ->]%list_elem_of_singleton [= -> ->]%list_elem_of_singleton. done. }
  split; try done.
  - intros q [= <-]. exists a. by rewrite Hb.
  - left. unfold holds. by rewrite Hb.
  - destruct Hok. eapply (pub_ok_insert _ _ G _ b a); [exact Hg|done|done|]. split; simpl; try done.
    intros m Hin. destruct (Hsent _ Hin) as [Hin'|[= ->]]; [|done]. by apply ao_message0.
  - intros a' [= <-]. left. by rewrite Hb.
  - intros a' Ha'. congruence.
  - intros q m Hin Hpr. simpl in Hin. apply elem_of_app in Hin as [Hin|Hin].
    + left. split; [done|]. congruence.
    + apply list_elem_of_singleton in Hin as [= -> ->]. right. left. eauto.
  - apply failure_kept_refl.
Qed.

(** *** The end of the send *)

Lemma numbers_fewer G calls : calls ⊆ gn_calls G → numbers G → numbers (gen_calls G calls (gn_wire G)).
Proof. intros Hs [N1 N2 N3 N4]. split; simpl; eauto. Qed.

Lemma drop_call_fmap p (l : list (nat * call_message)) : (drop_call p l).*1 `sublist_of` l.*1.
Proof.
  unfold drop_call. induction l as [|c l IH]; [done|]. rewrite filter_cons. case_decide; simpl; by constructor.
Qed.

(** A call that returned, or was given up. *)
Lemma gen_given_up_inv G p timeouts preflights :
  gen_inv G → (prompt (gen_given_up G timeouts preflights) → prompt G) → (preflights = [] → gn_preflights G = []) →
  let G' := gen_given_up (gen_calls G (drop_call p (gn_calls G)) (gn_wire G)) timeouts preflights in
  gen_inv G' ∧ gen_later None G G'.
Proof.
  intros Hinv Hpr Hpre G'. assert (∀ x, x ∈ sent G' → x ∈ sent G) as Hsent.
  { intros x. unfold sent. simpl. rewrite !elem_of_app, drop_call_spec. tauto. }
  assert (gen_later None G G') as Hl.
  { split; try done.
    - intros q a Ha. exists a. split_and!; try done. intros _. split; [done|]. intros Hs Hp. by apply Hs, Hpre.
    - auto. }
  split; [|done]. pose proof Hinv as []. split; try done.
  - eauto.
  - unfold sent_ptrs, sent in *. simpl. rewrite fmap_app in *. eapply sublist_NoDup; [exact gi_nodup0|].
    apply sublist_app; [apply drop_call_fmap|done].
  - by eapply (cells_later None G).
  - intros H. apply Hpr in H. destruct (numbers_fewer G (drop_call p (gn_calls G))) as [N1 N2 N3 N4]; [|auto|by split].
    intros x Hx. by apply drop_call_spec in Hx as [? _].
Qed.

Lemma own_returned s i b a G x p preflights :
  corr s → ys_publishers s !! i = Some b → pb_phase b = PubSending a → ys_gens s !! pa_gen a = Some G →
  phase_attempt x = Some a → (∀ cell, unread cell → phase_ok (gen_given_up (gen_calls G (drop_call (pa_ptr a) (gn_calls G))
    (gn_wire G)) (gn_timeouts G) (gn_preflights G ++ preflights)) a cell x) → failure_kept (ys_producer s) p →
  own_step s i b x p (pa_gen a) G
    (gen_given_up (gen_calls G (drop_call (pa_ptr a) (gn_calls G)) (gn_wire G)) (gn_timeouts G) (gn_preflights G ++ preflights)) None.
Proof.
  intros Hcorr Hi Hb Hg Hx Hph Hun. pose proof (co_gens _ Hcorr _ _ Hg) as Hinv.
  destruct (pub_attempt_of _ _ a (co_pub _ Hcorr _ _ Hi)) as (G0 & cell & Hg0 & Hok); [by rewrite Hb|].
  rewrite Hg in Hg0. injection Hg0 as <-. pose proof (ao_phase _ _ _ _ Hok) as Hu. rewrite Hb in Hu.
  destruct (gen_given_up_inv G (pa_ptr a) (gn_timeouts G) (gn_preflights G ++ preflights) Hinv) as [Hinv' Hl];
    [done|by intros [? _]%app_eq_nil|].
  split; try done.
  - left. unfold holds. by rewrite Hb.
  - destruct (attempt_phase None G _ b a cell x Hok Hl) as (cell' & Hok').
    + intros m. unfold sent. simpl. rewrite !elem_of_app, drop_call_spec. tauto.
    + intros cell' _ _ Hu'. apply Hph. auto.
    + by eapply pub_ok_insert.
  - intros a' Ha'. left. rewrite Hb. simpl. congruence.
  - intros a' Ha'. congruence.
  - intros q m Hin Hpr. left. simpl in Hin. apply drop_call_spec in Hin as [Hin Hne]. split; [done|]. intros a' Ha'. simpl in Hne. congruence.
  - intros ->. done.
Qed.

Lemma own_timeout s i b a G err :
  corr s → producer_inv (ys_producer s) → ys_publishers s !! i = Some b → pb_phase b = PubSending a →
  ys_gens s !! pa_gen a = Some G →
  own_step s i b (PubFailed a err) (failGeneration (ys_producer s) (pa_gen a =? current s)%nat) (pa_gen a) G
    (gen_given_up G (gn_timeouts G ++ [(pa_ptr a, pr_closed (ys_producer s))]) (gn_preflights G)) None.
Proof.
  intros Hcorr Hpi Hi Hb Hg. pose proof (co_gens _ Hcorr _ _ Hg) as Hinv.
  destruct (pub_attempt_of _ _ a (co_pub _ Hcorr _ _ Hi)) as (G0 & cell & Hg0 & Hok); [by rewrite Hb|].
  rewrite Hg in Hg0. injection Hg0 as <-. pose proof (ao_phase _ _ _ _ Hok) as Hu. rewrite Hb in Hu.
  set (G' := gen_given_up _ _ _).
  assert (prompt G' → prompt G ∧ pr_closed (ys_producer s) = false) as Hpr.
  { intros H. split; [intros x Hx; apply H; apply elem_of_app; by left|].
    apply (H (pa_ptr a, pr_closed (ys_producer s))). apply elem_of_app. right. by left. }
  assert (gen_later None G G') as Hl.
  { split; try done; [|by intros H; apply Hpr]. intros q x Hx. exists x. by split_and!. }
  split; try done.
  - pose proof Hinv as []. split; try done; [by eapply (cells_later None G)|].
    intros H. apply Hpr in H as [H _]. destruct (gi_numbers0 H). by split.
  - left. unfold holds. by rewrite Hb.
  - destruct (attempt_phase None G G' b a cell (PubFailed a err) Hok Hl) as (cell' & Hok'); [done| |by eapply pub_ok_insert].
    intros cell' _ _ Hu'. simpl. auto.
  - intros a' [= <-]. left. by rewrite Hb.
  - intros a' Ha'. congruence.
  - intros q m Hin H. destruct (Hpr H) as [_ Hc]. destruct (decide (pa_gen a = current s)) as [Heq|Hne]; [|auto].
    rewrite (proj2 (Nat.eqb_eq _ _) Heq). right. right. right. by apply failGeneration_unavailable.
  - apply failure_kept_fail.
Qed.

(** *** Every transition *)

Lemma current_gen s : sync s → ∃ G, ys_gens s !! current s = Some G.
Proof.
  intros Hs. apply lookup_lt_is_Some. unfold current. pose proof (sn_gens _ Hs). destruct (ys_gens s); [done|simpl; lia].
Qed.

Lemma one_holder s : sync s → (tally holds (ys_publishers s) <= 1)%nat.
Proof. intros Hs. pose proof (sn_mutex _ Hs) as He. unfold exclusive in He. destruct (ys_mutex s) as [[n|]]; simpl in *; lia. Qed.

Lemma corr_idle s i b x p m closers :
  corr s → sync s → ys_publishers s !! i = Some b → (∀ a, pb_phase b ≠ PubSending a) →
  pub_ok (ys_gens s) (mkPublisher (pb_publication b) x) →
  (∀ a, phase_attempt x = Some a → phase_attempt (pb_phase b) = Some a) →
  (x = PubAvailable → ∀ G, ys_gens s !! current s = Some G → prompt G → gn_calls G = []) →
  failure_kept (ys_producer s) p → corr (apply_pub s i b p m None closers x).
Proof.
  intros Hcorr Hsync Hi Hb Hpub Hat Hav Hun. destruct (current_gen s Hsync) as [G Hg].
  assert (apply_pub s i b p m None closers x = apply_pub s i b p m (Some (current s, G)) closers x) as ->.
  { unfold apply_pub. by rewrite (list_insert_id (ys_gens s) (current s) G Hg). }
  eapply corr_own; [done|by apply one_holder|done|]. apply own_idle; try done; [by eapply co_gens|]. eauto.
Qed.

(** The available publisher finds no call running on the current generation. *)
Lemma available_idle s i b G :
  corr s → sync s → ys_publishers s !! i = Some b → holds b = true → (∀ a, pb_phase b ≠ PubSending a) →
  isUnavailable (ys_producer s) = false → ys_gens s !! current s = Some G → prompt G → gn_calls G = [].
Proof.
  intros Hcorr Hsync Hi Hh Hb Hun Hg Hpr. destruct (gn_calls G) as [|[q m] calls] eqn:Hc; [done|]. exfalso.
  destruct (co_running _ Hcorr _ G q m Hg) as [(j & b' & a & Hj & Hb' & _)|[|Hu]]; try done.
  - rewrite Hc. by left.
  - assert (j = i) as ->.
    { eapply (tally_two holds); [exact Hj|exact Hi| |done|by apply one_holder]. unfold holds. by rewrite Hb'. }
    rewrite Hi in Hj. injection Hj as <-. by apply Hb in Hb'.
  - unfold isUnavailable in Hun. congruence.
Qed.

Lemma failure_kept_release p result started latency : failure_kept p (release (observePublish p result started latency)).
Proof.
  unfold failure_kept, observePublish. simpl. destruct (negb _), (Result_State result =s PublishAmbiguous); done.
Qed.

(** A publisher gets its result from the tracker. *)
Lemma corr_finish s i b a own G t cell m closers r started err :
  corr s → sync s → ys_publishers s !! i = Some b → phase_attempt (pb_phase b) = Some a → ys_gens s !! pa_gen a = Some G →
  (∀ a, pb_phase b ≠ PubSending a) → gen_change own G (gen_tracker G t) → (own = None ∨ own = Some (pa_ptr a)) →
  attempt_ok G b a cell → result_justified G (pa_ptr a) cell r →
  corr (apply_pub s i b (ys_producer s) m (Some (pa_gen a, gen_tracker G t)) closers (PubFinished (Some a) started r err)).
Proof.
  intros Hcorr Hsync Hi Ha Hg Hb Hch Hown Hok Hr.
  eapply corr_own; [done|by apply one_holder|done|]. eapply own_op; [done|done|done|exact Hch|done|done|].
  destruct (attempt_finish own G (gen_tracker G t) b a cell _ r started err eq_refl Hok) as (cell' & Hok');
    [apply Hch|done|by apply result_tracker|]. by eapply pub_ok_insert.
Qed.

(** A publisher moves on without touching its attempt. *)
Lemma corr_rephase s i b x p m closers :
  corr s → sync s → ys_publishers s !! i = Some b → (∀ a, pb_phase b ≠ PubSending a) →
  phase_attempt x = phase_attempt (pb_phase b) → x ≠ PubAvailable →
  (∀ G a cell, phase_ok G a cell (pb_phase b) → phase_ok G a cell x) →
  (phase_attempt x = None → pub_ok (ys_gens s) b → pub_ok (ys_gens s) (mkPublisher (pb_publication b) x)) →
  failure_kept (ys_producer s) p → corr (apply_pub s i b p m None closers x).
Proof.
  intros Hcorr Hsync Hi Hb Hx Hav Hph Hnone Hun. pose proof (co_pub _ Hcorr _ _ Hi) as Hpub.
  apply corr_idle; try done; [|by rewrite Hx].
  destruct (phase_attempt x) as [a|] eqn:Ha; [|auto]. unfold pub_ok in *. simpl. rewrite Ha. rewrite <- Hx in Hpub.
  destruct Hpub as (G & cell & Hg & []). exists G, cell. split; [done|]. split; simpl; auto.
Qed.

Section Transition.
Context (s : psystem) (i : nat) (b : publisher).
Hypotheses (Hcorr : corr s) (Hsync : sync s) (Hi : ys_publishers s !! i = Some b).

Lemma attempt_facts a G :
  phase_attempt (pb_phase b) = Some a → ys_gens s !! pa_gen a = Some G →
  gen_inv G ∧ ∃ cell, attempt_ok G b a cell ∧ phase_ok G a cell (pb_phase b).
Proof using Hcorr Hi.
  intros Ha Hg. split; [by eapply co_gens|]. destruct (pub_attempt_of _ _ _ (co_pub _ Hcorr _ _ Hi) Ha) as (G' & cell & Hg' & Hok).
  rewrite Hg in Hg'. injection Hg' as <-. exists cell. split; [done|apply Hok].
Qed.

(** The attempt is given up as not sent. *)
Lemma corr_not_sent a G ok t m closers started err :
  phase_attempt (pb_phase b) = Some a → ys_gens s !! pa_gen a = Some G → (∀ a, pb_phase b ≠ PubSending a) →
  abandon (gn_tracker G) (pa_sequence a) PublishNotSent = Some (ok, t) →
  (gn_preflights G = [] → (pa_ptr a ∉ sent_ptrs G)
     ∧ ∀ p, tr_sequence (gn_tracker G) !! pa_sequence a = Some p → p = pa_ptr a) →
  corr (apply_pub s i b (ys_producer s) m (Some (pa_gen a, gen_tracker G t)) closers (PubFinished (Some a) started notSent err)).
Proof using Hcorr Hsync Hi.
  intros Ha Hg Hb Hab Hown. destruct (attempt_facts a G Ha Hg) as [Hinv (cell & Hok & _)].
  eapply (corr_finish s i b a (Some (pa_ptr a))); try done; [|by right|by apply not_sent_result; intros Hp; apply Hown].
  eapply (gen_change_op _ G (OAbandon (pa_sequence a) PublishNotSent) (RBool ok)); [done| |done|simpl; by rewrite Hab].
  right. split; [done|]. intros Hpre q x Hx Hpend Hs. destruct (Hown Hpre) as [Hns Hq].
  rewrite (Hq q) by (apply (wf_sequence _ (gi_wf _ Hinv)); eauto). done.
Qed.

Lemma gen_change_abandon a G ok t :
  gen_inv G → abandon (gn_tracker G) (pa_sequence a) PublishAmbiguous = Some (ok, t) → gen_change None G (gen_tracker G t).
Proof using.
  intros Hinv Hab. eapply (gen_change_op _ G (OAbandon (pa_sequence a) PublishAmbiguous) (RBool ok)); [done|by left|done|].
  simpl. by rewrite Hab.
Qed.

(** Who comes too late to abandon finds the outcome given. *)
Lemma abandoned_settled a G t cell :
  gen_inv G → abandon (gn_tracker G) (pa_sequence a) PublishAmbiguous = Some (false, t) → attempt_ok G b a cell → ¬ pending cell.
Proof using.
  intros Hinv Hab [] Hpend. unfold abandon in Hab. simpl in Hab.
  rewrite (proj2 (wf_sequence _ (gi_wf _ Hinv) (pa_sequence a) (pa_ptr a))) in Hab by eauto.
  destruct (complete _ _ _); by simplify_eq.
Qed.

(** The attempt is abandoned as ambiguous, or someone else gave it its outcome. *)
Lemma corr_abandoned a G err later ok t m closers :
  abandoning (pb_phase b) = Some (a, err, later) → ys_gens s !! pa_gen a = Some G →
  abandon (gn_tracker G) (pa_sequence a) PublishAmbiguous = Some (ok, t) →
  corr (apply_pub s i b (ys_producer s) m (Some (pa_gen a, gen_tracker G t)) closers
          (if ok then PubFinished (Some a) true ambiguous err else later)).
Proof using Hcorr Hsync Hi.
  intros Hb Hg Hab.
  assert (phase_attempt (pb_phase b) = Some a ∧ phase_attempt later = Some a ∧ ∀ G cell, phase_ok G a cell (pb_phase b) →
    ∀ G' cell', (unread cell → unread cell') → ¬ pending cell' → phase_ok G' a cell' later) as (Ha & Hlater & Hph)
    by (destruct (pb_phase b); simplify_eq/=; auto).
  assert (∀ a, pb_phase b ≠ PubSending a) as Hns by (by destruct (pb_phase b)).
  destruct (attempt_facts a G Ha Hg) as [Hinv (cell & Hok & Hphase)]. pose proof (gen_change_abandon a G ok t Hinv Hab) as Hch.
  destruct ok; [eapply (corr_finish s i b a None); try done; by left|].
  eapply corr_own; [done|by apply one_holder|done|]. eapply own_op; [done|done|done|exact Hch|by left|done|].
  destruct (attempt_phase None G (gen_tracker G t) b a cell later Hok) as (cell' & Hok'); [apply Hch|done| |by eapply pub_ok_insert].
  intros cell' _ Hid Hu. eapply Hph; [exact Hphase|by auto|]. intros Hpend. by eapply abandoned_settled, Hid.
Qed.

Lemma corr_received a G err r t m closers :
  receiving (pb_phase b) = Some (a, err) → ys_gens s !! pa_gen a = Some G →
  receive (gn_tracker G) (pa_ptr a) = Some (r, t) →
  corr (apply_pub s i b (ys_producer s) m (Some (pa_gen a, gen_tracker G t)) closers
          (PubFinished (Some a) true (received_result r) (err (received_result r)))).
Proof using Hcorr Hsync Hi.
  intros Hb Hg Hr.
  assert (phase_attempt (pb_phase b) = Some a ∧ ∀ G cell, phase_ok G a cell (pb_phase b) → unread cell) as [Ha Hun]
    by (destruct (pb_phase b); simplify_eq/=; split; try done; by intros _ ? []).
  destruct (attempt_facts a G Ha Hg) as [Hinv (cell & Hok & Hphase)].
  eapply (corr_finish s i b a (Some (pa_ptr a))); try done; [by destruct (pb_phase b)| |by right|].
  - eapply (gen_change_op _ G (OReceive (pa_ptr a)) (RResult r)); [done|done| |simpl; by rewrite Hr]. exists cell. apply Hok.
  - eapply receive_result; [done|exact Hok|by eapply Hun|exact Hr].
Qed.

Lemma corr_pub p m og closers x :
  producer_inv (ys_producer s) → pub_trans s b p m og closers x → corr (apply_pub s i b p m og closers x).
Proof using Hcorr Hsync Hi.
  intros Hpi Ht. pose proof (one_holder s Hsync) as Hone.
  destruct Ht as [err Hb|m Hb Hl|m Hb Hc Hu|Hb Hc|m Hb Hc Hu|Hb Hc|m G err t Hb Hg Hu Hr|G q t Hb Hg Hr|a m G ok t Hb Hg Hc Hu Hab
    |a G Hb Hg Hc|a m G err ctx Hb Hg Hu Hrep|a m G timeout Hb Hg Hu|a G ctx ok t Hb Hg Hab|a G err later t Hb Hg Hab
    |a G err later t Hb Hg Hab|a G err r t Hb Hg Hr|a err Hb|a err Hb|a started result err latency Hb].
  1-6: apply corr_idle; try done; try (by rewrite Hb); try apply failure_kept_refl.
  - intros _ G. eapply available_idle; try done; [unfold holds; by rewrite Hb|by rewrite Hb].
  - apply register_inl in Hr as ->. replace (gen_tracker G (gn_tracker G)) with G by by destruct G.
    eapply corr_own; [done|done|done|]. apply own_idle; try done; [by eapply co_gens|by rewrite Hb|apply failure_kept_refl].
  - eapply corr_own; [done|done|done|]. by eapply own_register.
  - eapply corr_not_sent; try done; [by rewrite Hb..|]. destruct (attempt_facts a G) as [_ (cell & _ & Hph)]; [by rewrite Hb|done|].
    rewrite Hb in Hph. by destruct Hph as (_ & _ & ? & ? & _).
  - eapply corr_own; [done|done|done|]. by apply own_send.
  - eapply corr_own; [done|done|done|]. apply own_returned; try done.
    + destruct err; [by destruct (isPreflightCancellation _ _)|done].
    + intros cell Hun. destruct err as [err|]; [|done]. destruct (isPreflightCancellation _ _); [|done]. simpl. by destruct (gn_preflights G).
    + destruct (publishFailureRequiresRecovery _ _); [apply failure_kept_fail|apply failure_kept_refl].
  - eapply corr_own; [done|done|done|]. by apply own_timeout.
  - eapply corr_not_sent; try done; [by rewrite Hb..|]. destruct (attempt_facts a G) as [_ (cell & _ & Hph)]; [by rewrite Hb|done|].
    by rewrite Hb in Hph.
  - by apply (corr_abandoned a G err later true).
  - by apply (corr_abandoned a G err later false).
  - by apply corr_received.
  - apply corr_rephase; try done; try (by rewrite Hb). apply failure_kept_refl.
  - apply corr_rephase; try done; try (by rewrite Hb). apply failure_kept_refl.
  - apply corr_rephase; try done; try (by rewrite Hb); [|apply failure_kept_release].
    intros Ha. unfold pub_ok. rewrite Hb. simpl in *. by rewrite Ha.
Qed.
End Transition.

(** ** Every step *)

Ltac step_kept := try done; try (intros Hkept; exact Hkept).

Lemma same_phases_kept p p' : same_phases p p' → failure_kept p p'.
Proof. by intros (_ & _ & _ & _ & _ & _ & _ & ?). Qed.

Lemma finishRecovery_kept p recovered : failure_kept p (finishRecovery p recovered).
Proof. exact (proj1 (proj2 (proj2 (proj2 (proj2 (finishRecovery_phases p recovered)))))). Qed.

(** The installation of a new generation: the publish mutex is free. *)
Lemma corr_install s session s' : corr s → sync s → sup_install s session = Some s' → corr s'.
Proof.
  intros Hcorr Hsync Hstep. unfold sup_install in Hstep. destruct (Lock _) as [m|] eqn:Hl; [|done].
  destruct (installGeneration _) as [p|]; [|done]. destruct (Unlock m) as [m'|]; [|done]. injection Hstep as <-.
  assert (∀ i b, ys_publishers s !! i = Some b → holds b = false) as Hfree.
  { intros i b Hi. destruct (holds b) eqn:Hh; [|done]. exfalso. pose proof (tally_pos holds _ i b Hi Hh) as Hpos.
    pose proof (sn_mutex _ Hsync) as He. unfold exclusive in He. unfold Lock, initialize in Hl.
    destruct (ys_mutex s) as [[[|n]|]]; simpl in *; [done|lia|lia]. }
  set (G' := newGen _ _). assert (∀ g G, (ys_gens s ++ [G']) !! g = Some G →
    ys_gens s !! g = Some G ∨ g = length (ys_gens s) ∧ G = G') as Hnew.
  { intros g G Hg. apply lookup_app_Some in Hg as [Hg|[Hle Hg]]; [by left|right].
    apply list_lookup_singleton_Some in Hg as [Hz <-]. split; [lia|done]. }
  split; simpl.
  - intros g G Hg. destruct (Hnew g G Hg) as [Hg'|[_ ->]]; [by eapply co_gens|apply gen_inv_new].
  - intros i b Hi. pose proof (co_pub _ Hcorr i b Hi) as Hpub. unfold pub_ok in *.
    destruct (phase_attempt (pb_phase b)) as [a|]; [|done]. destruct Hpub as (G & cell & Hg & Hok). exists G, cell.
    split; [by apply lookup_app_l_Some|done].
  - apply (co_unique _ Hcorr).
  - intros g G q m1 Hg Hin Hpr. destruct (Hnew g G Hg) as [Hg'|[_ ->]]; [|by apply not_elem_of_nil in Hin].
    right. left. unfold current. simpl. rewrite length_app. simpl. apply lookup_lt_Some in Hg'. lia.
  - intros i b G Hi Hb. apply Hfree in Hi. unfold holds in Hi. by rewrite Hb in Hi.
Qed.

Lemma corr_sup s e s' :
  corr s → sync s → scheduled s (DoSupervisor e) → sup_step s e = Some s' → corr s'.
Proof.
  intros Hcorr Hsync Hsch Hstep. pose proof (sn_events _ Hsync) as He. unfold sup_step in Hstep.
  destruct (ys_gens s !! current s) as [G|] eqn:Hg; [|done]. pose proof (co_gens _ Hcorr _ _ Hg) as Hinv.
  destruct (ys_supervisor s) eqn:Hx, e as [case order| |order|ce re| |session|]; try done; simpl in He.
  - unfold sup_case in Hstep. destruct (gen_step _ _ _) as [r|] eqn:Hr; [|done].
    pose proof (quiet_gen_step (gen_view s G) case order r He Hr) as [_ Hq%same_phases_kept].
    assert (gen_change None G (gen_write G (gen_result_generation r))) as Hch.
    { eapply gen_change_step; [done| |exact Hr]. intros ->. by apply Hsch. }
    destruct r as [v|[|] v]; injection Hstep as <-; by eapply (corr_change s _ _ G).
  - injection Hstep as <-. eapply corr_producer; step_kept. exact (same_phases_kept _ _ (setBlocked_phases (ys_producer s) false)).
  - injection Hstep as <-. eapply corr_producer; step_kept. exact (same_phases_kept _ _ (markRecovering_phases (ys_producer s))).
  - destruct (failAll _ _ _) as [[n t]|] eqn:Hf; [|done]. injection Hstep as <-.
    eapply (corr_change s _ _ G (gen_tracker G t)); step_kept. eapply gen_change_failAll; [done|by apply Hsch|exact Hf].
  - injection Hstep as <-. eapply (corr_change s _ _ G (close_gen G ce re).2); step_kept. by apply gen_change_close.
  - injection Hstep as <-. eapply corr_producer; step_kept.
  - injection Hstep as <-. eapply corr_producer; step_kept.
  - by eapply corr_install.
  - injection Hstep as <-. eapply corr_producer; try done; exact (finishRecovery_kept (ys_producer s) false).
  - injection Hstep as <-. eapply corr_producer; try done; exact (finishRecovery_kept (ys_producer s) true).
  - injection Hstep as <-. eapply corr_producer; step_kept. exact (same_phases_kept _ _ (setBlocked_phases (ys_producer s) false)).
Qed.

Lemma corr_fin s e s' : corr s → fin_step s e = Some s' → corr s'.
Proof.
  intros Hcorr Hstep. unfold fin_step in Hstep. destruct (ys_finisher s), e as [timer| |ce re]; try done.
  - destruct (pr_shutdown _); try done. destruct (_ || timer); [|done]. injection Hstep as <-. eapply corr_producer; step_kept.
  - destruct (TryLock _) as [[|] m]; [destruct (Unlock m); [|done]|]; injection Hstep as <-; eapply corr_producer; step_kept.
  - injection Hstep as <-. eapply corr_producer; step_kept.
  - destruct (ys_gens s !! current s) as [G|] eqn:Hg; [|done]. destruct (close_gen G ce re) as [err G'] eqn:Hc. injection Hstep as <-.
    eapply (corr_change s _ _ G G'); step_kept. replace G' with (close_gen G ce re).2 by by rewrite Hc.
    apply gen_change_close. by eapply co_gens.
  - destruct (pr_events _); try done. destruct (endShutdown _) as [p|] eqn:Hend; [|done]. injection Hstep as <-.
    eapply corr_producer; step_kept. unfold endShutdown in Hend. destruct (close _); [|done]. injection Hend as <-. step_kept.
Qed.

Lemma corr_publish s publication s' : corr s → do_publish s publication = Some s' → corr s'.
Proof.
  intros Hcorr Hstep. unfold do_publish in Hstep. destruct (present _); [done|].
  destruct (Producer_admit (ys_producer s)) as [err p] eqn:Ha.
  assert (failure_kept (ys_producer s) p) as Hun by (unfold Producer_admit in Ha; repeat case_match; simplify_eq; by intros ?).
  destruct err; injection Hstep as <-; [by eapply corr_producer|].
  set (b0 := mkPublisher (ownPublication publication) PubAdmitted).
  assert (∀ i b, (ys_publishers s ++ [b0]) !! i = Some b → ys_publishers s !! i = Some b ∨ b = b0) as Hnew.
  { intros i b Hi. apply lookup_app_Some in Hi as [Hi|[_ Hi]]; [by left|right]. by apply list_lookup_singleton_Some in Hi as [_ <-]. }
  destruct Hcorr. split; simpl; try done.
  - intros i b Hi. destruct (Hnew i b Hi) as [Hi'| ->]; [eauto|done].
  - intros i j b b' a a' Hi Hj Hb Hb'. destruct (Hnew i b Hi) as [Hi'| ->]; [|done]. destruct (Hnew j b' Hj) as [Hj'| ->]; [|done]. eauto.
  - intros g G q m Hg Hin Hpr. destruct (co_running0 g G q m Hg Hin Hpr) as [(i & b & a & Hi & ?)|[|]]; auto.
    left. exists i, b, a. split; [by apply lookup_app_l_Some|done].
  - intros i b G Hi Hb. destruct (Hnew i b Hi) as [Hi'| ->]; [|done]. eauto.
Qed.

Lemma corr_step s s' : system_step s s' → sync s → producer_inv (ys_producer s) → corr s → corr s'.
Proof.
  intros (a & Hsch & Hstep) Hsync Hpi Hcorr. destruct a as [publication|i e|e|n ce re| | |e|g e| |]; simpl in Hstep.
  - by eapply corr_publish.
  - apply pub_step_trans in Hstep as (b & p & m & og & closers & x & Hi & Ht & ->). by apply corr_pub.
  - by eapply corr_sup.
  - unfold closer_step in Hstep. destruct (ys_closers s !! n) as [g|]; [|done]. destruct (ys_gens s !! g) as [G|] eqn:Hg; [|done]. injection Hstep as <-.
    eapply (corr_change s _ _ G (close_gen G ce re).2); step_kept. apply gen_change_close. by eapply co_gens.
  - injection Hstep as <-. eapply corr_producer; step_kept. unfold startShutdown, failure_kept. simpl. by destruct (pr_shutdown _).
  - destruct (pr_shutdown _); [done| | |]; injection Hstep as <-; eapply corr_producer; step_kept.
  - by eapply corr_fin.
  - destruct (ys_gens s !! g) as [G|] eqn:Hg; [|done]. destruct (env_gen G e) as [G'|] eqn:He; [|done]. injection Hstep as <-.
    eapply (corr_change s _ _ G G'); step_kept. eapply gen_change_env; [|done]. by eapply co_gens.
  - injection Hstep as <-. eapply corr_producer; step_kept.
  - destruct (obs_receive _) as [[o observations]|]; [|done]. injection Hstep as <-. eapply corr_producer; step_kept.
Qed.

(** ** Claims *)

Section Claims.
Context (config : ProducerConfig) (session : string).
Hypothesis Hconfig : ProducerConfig_Validate config = None.

Abbreviation reachable_system := (rtc system_step (newPSystem config session)).

Lemma reachable_corr s : reachable_system s → corr s.
Proof using Hconfig.
  intros Hr. eapply (rtc_invariant system_step (λ s, corr s ∧ reachable_system s)) in Hr; [apply Hr| |split; [apply corr_new|reflexivity]].
  intros x y Hstep [Hc Hx]. split; [|by eapply rtc_r]. eapply corr_step; [done| | |done].
  - by eapply reachable_sync.
  - by eapply reachable_producer.
Qed.

(** C2: the outcome a publisher reports is about its own message: whatever
    publishers, recovery, shutdown, client and broker interleave, a publication
    reported as confirmed was transmitted on the channel it was registered with,
    under the number it was registered with, and the broker acknowledged that
    number; one reported as rejected was transmitted so and refused; one reported as
    returned was transmitted so, confirmed either way, and returned with its token;
    and the result is canonical.  The only exception is a channel on which a send
    was given up after the producer had been closed. *)
Theorem publish_outcome_correlated s i b a r err :
  reachable_system s → ys_publishers s !! i = Some b → pb_phase b = PubDone (Some a) r err →
  PublishResult_Valid r = true
  ∧ ∃ G, ys_gens s !! pa_gen a = Some G ∧ NoDup (gn_wire G).*1
  ∧ (prompt G →
     let sequence := pa_sequence a in
     let transmitted := gn_wire G !! Z.to_nat (sequence - 1) = Some (pa_ptr a, message_of G b a) in
     (Result_State r = PublishConfirmed → transmitted ∧ (sequence, true) ∈ gn_confirmed G)
     ∧ (Result_State r = PublishRejected → transmitted ∧ (sequence, false) ∈ gn_confirmed G)
     ∧ (Result_State r = PublishReturned → transmitted ∧ (∃ ack, (sequence, ack) ∈ gn_confirmed G)
        ∧ ∃ ret, ret ∈ gn_returned G ∧ return_token ret = Some (publish_token (gn_session G) sequence))).
Proof using Hconfig.
  intros Hr Hi Hb. apply reachable_corr in Hr.
  destruct (pub_attempt_of _ _ a (co_pub _ Hr _ _ Hi)) as (G & cell & Hg & Hok); [by rewrite Hb|].
  pose proof (co_gens _ Hr _ _ Hg) as Hinv. destruct Hok. rewrite Hb in ao_phase0. destruct ao_phase0 as (Hv & Hj & _).
  split; [done|]. exists G. split; [done|]. split.
  { pose proof (gi_nodup _ Hinv) as Hnd. unfold sent_ptrs, sent in Hnd. rewrite fmap_app in Hnd. by apply NoDup_app in Hnd as (_ & _ & ?). }
  intros Hpr. destruct (Hj Hpr) as [J1 J2 J3]. rewrite ao_sequence0, ao_token0 in *.
  assert (on_wire G (pa_ptr a) (pa_sequence a) →
    gn_wire G !! Z.to_nat (pa_sequence a - 1) = Some (pa_ptr a, message_of G b a)) as Hw.
  { intros [_ [m Hm]]. rewrite Hm. rewrite (ao_message0 m); [done|]. apply elem_of_app. right. by eapply list_elem_of_lookup_2. }
  split_and!.
  - intros H. destruct (J1 H). auto.
  - intros H. destruct (J2 H). auto.
  - intros H. destruct (J3 H) as (? & ? & ?). auto.
Qed.

(** C11: what is reported as not sent was not sent: if no call of the client on the
    channel reported a preflight cancellation, a publisher that reports its
    publication as not sent has no call that was or can still be transmitted, and a
    publisher that was refused before it got a number reports nothing else. *)
Theorem publish_not_sent_sound s i b oa r err :
  reachable_system s → ys_publishers s !! i = Some b → pb_phase b = PubDone oa r err →
  match oa with
  | None => r = notSent
  | Some a => Result_State r = PublishNotSent → ∃ G, ys_gens s !! pa_gen a = Some G
      ∧ (gn_preflights G = [] → ∀ message, ((pa_ptr a, message) ∉ gn_calls G) ∧ ((pa_ptr a, message) ∉ gn_wire G))
  end.
Proof using Hconfig.
  intros Hr Hi Hb. apply reachable_corr in Hr. pose proof (co_pub _ Hr _ _ Hi) as Hpub. destruct oa as [a|].
  - intros Hst. destruct (pub_attempt_of _ _ a Hpub) as (G & cell & Hg & Hok); [by rewrite Hb|]. exists G. split; [done|].
    intros Hpre m. pose proof (ao_phase _ _ _ _ Hok) as Hph. rewrite Hb in Hph. destruct Hph as (_ & _ & Hn).
    specialize (Hn Hpre Hst). unfold sent_ptrs, sent in Hn. rewrite fmap_app, elem_of_app in Hn.
    split; intros Hin; apply Hn; [left|right]; apply list_elem_of_fmap; by exists (pa_ptr a, m).
  - unfold pub_ok in Hpub. by rewrite Hb in Hpub.
Qed.
End Claims.

(** ** Example runs *)

(** Two publishers; the second is returned and confirmed, the first confirmed. *)
Definition example_returned : AmqpReturn := mkAmqpReturn 312 "NO_ROUTE" (<[publishTokenHeader := VString "s-1/2"]> ∅).

Definition example_published : psystem :=
  run_from example_system
    ([DoPublish example_message; DoPublish example_message] ++ proceed 0 5 ++ [DoEnvironment 0 (EnvTransmit 0);
      DoPublisher 0 (PubSend (SendReturned None) None)] ++ proceed 1 5 ++ [DoEnvironment 0 (EnvTransmit 1);
      DoPublisher 1 (PubSend (SendReturned None) None); DoEnvironment 0 (EnvReturn example_returned);
      DoEnvironment 0 (EnvConfirm 2 true); DoEnvironment 0 (EnvConfirm 1 true);
      DoSupervisor (SupCase GenConfirm []); DoSupervisor (SupCase GenConfirm [])]
     ++ proceed 0 1 ++ proceed 1 1 ++ [DoPublisher 0 (PubRelease Millisecond); DoPublisher 1 (PubRelease Millisecond)]).

Lemma example_published_reachable : rtc system_step example_system example_published.
Proof. by apply run_from_steps; vm_compute. Qed.

Lemma publish_outcome_correlated_witness :
  ∃ b a r err, ys_publishers example_published !! 1%nat = Some b ∧ pb_phase b = PubDone (Some a) r err
  ∧ Result_State r = PublishReturned ∧ PublishResult_Valid r = true.
Proof.
  assert (∃ b a r err, ys_publishers example_published !! 1%nat = Some b ∧ pb_phase b = PubDone (Some a) r err
    ∧ Result_State r = PublishReturned) as (b & a & r & err & Hi & Hb & Hr) by (do 4 eexists; split_and!; by vm_compute).
  exists b, a, r, err. split_and!; [done|done|done|].
  exact (proj1 (publish_outcome_correlated example_producer_config "s-1" eq_refl _ _ _ _ _ _ example_published_reachable Hi Hb)).
Defined.

(** A publisher that finds the shutdown closing after it registered. *)
Definition example_refused : psystem :=
  run_from example_system
    ([DoPublish example_message] ++ proceed 0 4 ++ [DoShutdown; DoForce; DoFinisher (FinBegin false)] ++ proceed 0 1
     ++ [DoPublisher 0 (PubRelease 0)]).

Lemma publish_not_sent_sound_witness :
  ∃ b a r err G, ys_publishers example_refused !! 0%nat = Some b ∧ pb_phase b = PubDone (Some a) r err
  ∧ Result_State r = PublishNotSent ∧ ys_gens example_refused !! pa_gen a = Some G
  ∧ ∀ message, (pa_ptr a, message) ∉ gn_wire G.
Proof.
  assert (∃ b a r err, ys_publishers example_refused !! 0%nat = Some b ∧ pb_phase b = PubDone (Some a) r err
    ∧ Result_State r = PublishNotSent ∧ ∀ G, ys_gens example_refused !! pa_gen a = Some G → gn_preflights G = [])
    as (b & a & r & err & Hi & Hb & Hr & Hpre) by (do 4 eexists; split_and!; [by vm_compute..|by intros G [= <-]]).
  assert (rtc system_step example_system example_refused) as Hreach by (by apply run_from_steps; vm_compute).
  destruct (publish_not_sent_sound example_producer_config "s-1" eq_refl _ _ _ _ _ _ Hreach Hi Hb Hr) as (G & Hg & Hns).
  exists b, a, r, err, G. split_and!; try done. intros m. by apply (Hns (Hpre G Hg) m).
Defined.

(** *** Where the conditions fail *)

(** The producer is closed while the first publisher's send is waiting in the
    client; the send is given up, which does not make a closed producer unavailable;
    the second publisher gets the same number; the client then transmits both calls,
    and the broker confirms the first. *)
Definition late_run : psystem :=
  run_from example_system
    ([DoPublish example_message; DoPublish example_message] ++ proceed 0 5
     ++ [DoShutdown; DoPublisher 0 (PubSend (SendTimedOut DeadlineExceeded) None)] ++ proceed 0 1 ++ proceed 1 5
     ++ [DoEnvironment 0 (EnvTransmit 0); DoEnvironment 0 (EnvTransmit 1); DoPublisher 1 (PubSend (SendReturned None) None);
         DoEnvironment 0 (EnvConfirm 1 true); DoSupervisor (SupCase GenConfirm [])] ++ proceed 1 1 ++ [DoPublisher 1 (PubRelease 0)]).

(** C39: the exception is real: during a shutdown a publisher can report its
    publication as confirmed although what the broker confirmed under its number is
    another publisher's message, whose send had been given up. *)
Theorem late_send_miscorrelated :
  ∃ s b a G other message, rtc system_step example_system s ∧ ys_publishers s !! 1%nat = Some b
  ∧ pb_phase b = PubDone (Some a) (mkPublishResult PublishConfirmed None) None
  ∧ ys_gens s !! pa_gen a = Some G ∧ gn_confirmed G = [(pa_sequence a, true)]
  ∧ gn_wire G !! Z.to_nat (pa_sequence a - 1) = Some (other, message) ∧ other ≠ pa_ptr a.
Proof.
  exists late_run. do 5 eexists. split; [by apply run_from_steps; vm_compute|]. split_and!; by vm_compute.
Qed.

(** The first publisher's send is cancelled before transmission; between its unlock
    and its [abandon] the second publisher passes its tests, an unrelated return
    ends the generation and fails its attempts, the second publisher registers under
    the same number and transmits, and then the first abandons that number. *)
Definition preflight_run : psystem :=
  run_from example_system
    ([DoPublish example_message; DoPublish example_message] ++ proceed 0 5
     ++ [DoPublisher 0 (PubSend (SendReturned (Some Canceled)) (Some Canceled))] ++ proceed 1 3
     ++ [DoEnvironment 0 (EnvReturn (mkAmqpReturn 312 "NO_ROUTE" ∅)); DoSupervisor (SupCase GenReturn []);
         DoSupervisor SupGo; DoSupervisor SupGo; DoSupervisor (SupFail [1])]
     ++ proceed 1 2 ++ [DoEnvironment 0 (EnvTransmit 1); DoPublisher 1 (PubSend (SendReturned None) None)]
     ++ proceed 0 1 ++ proceed 1 1 ++ [DoPublisher 1 (PubRelease 0)]).

(** C40: preflight cancellations break the other claim: a publisher can report its
    publication as not sent although it was transmitted, because the number of a
    cancelled send is abandoned after the publish mutex was released. *)
Theorem preflight_abandons_another :
  ∃ s b a G message, rtc system_step example_system s ∧ ys_publishers s !! 1%nat = Some b
  ∧ pb_phase b = PubDone (Some a) notSent (Some ErrProducerUnavailable)
  ∧ ys_gens s !! pa_gen a = Some G ∧ (pa_ptr a, message) ∈ gn_wire G.
Proof.
  exists preflight_run. do 4 eexists. split; [by apply run_from_steps; vm_compute|].
  split_and!; [by vm_compute..|]. eapply (list_elem_of_lookup_2 _ 0). by vm_compute.
Qed.
