(* ===== verification/ProducerShutdown.v ===== *)
(** * ProducerShutdown: what a producer leaves behind, and that it always can stop

    producer.go: over the system of ProducerSystem, every handle of every generation
    is closed at most once, and exactly once when its generation was replaced, when
    the producer failed for good, and when [Shutdown] completed; [Shutdown] reports
    how the close of the last generation ended.  Every [Publish] can return by its
    own steps alone, within a bounded number of them, and from every state in which
    a shutdown was asked for it can complete without any event of the broker, once
    the client's close calls and the recovery attempt in progress return. *)

From S2P Require Import Prelude GoText Errors Config Amqp Message Tracker Observation Producer Publish Events.
From S2P Require Import ProducerSystem ProducerCorrelation.
Import PublishTracker ContextMutex.

(** ** Closed handles *)

Definition closed_once (c : generationClose) : Prop :=
  gc_done c = true ∧ gc_resource_closes c = 1%nat ∧ gc_channel_closes c = 1%nat
  ∧ (gc_err c = None ∨ gc_err c = Some ErrProducerUnavailable).

Definition close_state (c : generationClose) : Prop := c = newGenerationClose ∨ closed_once c.

Definition closes (s : psystem) : list generationClose := gn_close <$> ys_gens s.

(** [finishShutdown] has closed the current generation. *)
Definition released (s : psystem) : bool :=
  match ys_finisher s, pr_shutdown (ys_producer s) with FinishWaiting, _ | _, ShutdownDone => true | _, _ => false end.

(** Someone must have closed the current generation. *)
Definition relinquished (s : psystem) : bool :=
  released s || pr_terminal (ys_producer s) || match ys_supervisor s with SupClosed | SupRecovering => true | _ => false end.

(** The state of the close [c] of generation [g]. *)
Record closes_ok (s : psystem) (g : nat) (c : generationClose) : Prop := {
  cl_state : close_state c;
  cl_earlier : (S g < length (ys_gens s))%nat → closed_once c;
  cl_current : S g = length (ys_gens s) → relinquished s = true → closed_once c;
  cl_err : S g = length (ys_gens s) → pr_resourceErr (ys_producer s) = if released s then gc_err c else None }.

Definition closes_inv (s : psystem) : Prop := ∀ g c, closes s !! g = Some c → closes_ok s g c.

Lemma close_gen_once G ce re :
  close_state (gn_close G) →
  closed_once (gn_close (close_gen G ce re).2) ∧ (close_gen G ce re).1 = gc_err (gn_close (close_gen G ce re).2)
  ∧ (closed_once (gn_close G) → gn_close (close_gen G ce re).2 = gn_close G).
Proof.
  unfold close_gen, closeProducerGeneration. intros [-> |(H1 & H2 & H3 & H4)].
  - split_and!; [|done|by intros []]. unfold closed_once. simpl. destruct ce, re; simpl; auto.
  - rewrite H1. simpl. split_and!; [by split_and!|done|done].
Qed.

Lemma closes_length s : length (closes s) = length (ys_gens s).
Proof. apply length_fmap. Qed.

Lemma closes_insert s g G : gn_close <$> <[g := G]> (ys_gens s) = <[g := gn_close G]> (closes s).
Proof. apply list_fmap_insert. Qed.

Lemma closes_same s g G G' :
  ys_gens s !! g = Some G → gn_close G' = gn_close G → gn_close <$> <[g := G']> (ys_gens s) = closes s.
Proof.
  intros Hg Hc. rewrite closes_insert, Hc. apply list_insert_id. unfold closes. by rewrite list_lookup_fmap, Hg.
Qed.

(** A step that closes nothing. *)
Lemma closes_keep s s' :
  closes_inv s → closes s' = closes s → (relinquished s' = true → relinquished s = true) → released s' = released s →
  pr_resourceErr (ys_producer s') = pr_resourceErr (ys_producer s) → closes_inv s'.
Proof.
  intros Hinv Hc Hrel Hr He g c Hg. rewrite Hc in Hg. apply Hinv in Hg as [].
  assert (length (ys_gens s') = length (ys_gens s)) as Hl by by rewrite <- !closes_length, Hc.
  split; rewrite ?Hl, ?He, ?Hr; auto.
Qed.

(** A step that closes generation [g]. *)
Lemma closes_close s s' g G ce re :
  closes_inv s → ys_gens s !! g = Some G → closes s' = <[g := gn_close (close_gen G ce re).2]> (closes s) →
  (relinquished s' = true → relinquished s = true ∨ S g = length (ys_gens s)) →
  released s' = released s ∧ pr_resourceErr (ys_producer s') = pr_resourceErr (ys_producer s)
  ∨ released s' = true ∧ S g = length (ys_gens s) ∧ pr_resourceErr (ys_producer s') = (close_gen G ce re).1 →
  closes_inv s'.
Proof.
  intros Hinv HG Hc Hrel Hr.
  assert (closes s !! g = Some (gn_close G)) as Hg by (unfold closes; by rewrite list_lookup_fmap, HG).
  assert (length (ys_gens s') = length (ys_gens s)) as Hl by (rewrite <- !closes_length, Hc; apply length_insert).
  destruct (Hinv _ _ Hg) as [Hst _ _ Herr]. destruct (close_gen_once G ce re Hst) as (Hone & Hres & Hsame).
  intros h c Hh. rewrite Hc in Hh. destruct (decide (h = g)) as [-> |Hne].
  - rewrite list_lookup_insert_eq in Hh by (by eapply lookup_lt_Some). injection Hh as <-.
    split; rewrite ?Hl; try done; [by right|]. intros Hlast. destruct Hr as [[-> ->]|(-> & _ & ->)]; [|done].
    rewrite Herr by done. destruct (released s) eqn:E; [|done]. f_equal. symmetry. apply Hsame.
    eapply cl_current; [by eapply Hinv|done|]. unfold relinquished. by rewrite E.
  - rewrite list_lookup_insert_ne in Hh by done. destruct (Hinv _ _ Hh) as [H1 H2 H3 H4].
    split; rewrite ?Hl; try done.
    + intros Hlast Hr'. apply H3; [done|]. destruct (Hrel Hr') as [|]; [done|lia].
    + intros Hlast. destruct Hr as [[-> ->]|(_ & ? & _)]; [auto|lia].
Qed.

(** *** Every step keeps it *)

Lemma pub_trans_closes s i b p m og closers x :
  pub_trans s b p m og closers x → closes (apply_pub s i b p m og closers x) = closes s.
Proof. intros []; try done; unfold closes at 1; simpl; by eapply closes_same. Qed.

Lemma pub_trans_ends s b p m og closers x :
  pub_trans s b p m og closers x →
  pr_shutdown p = pr_shutdown (ys_producer s) ∧ pr_resourceErr p = pr_resourceErr (ys_producer s)
  ∧ pr_terminal p = pr_terminal (ys_producer s).
Proof.
  intros [[[_ (_ & ? & _ & _ & _ & ? & ? & _)] _]|(q & [_ (_ & ? & _ & _ & _ & ? & ? & _)] & -> & _)]%pub_trans_producer; by split_and!.
Qed.

Lemma env_gen_close G e G' : env_gen G e = Some G' → gn_close G' = gn_close G.
Proof. destruct e; simpl; repeat case_match; intros; by simplify_eq. Qed.

(** A step of the event goroutine that closes nothing and gives up nothing. *)
Lemma closes_supervisor s G p x :
  closes_inv s → closes (with_supervisor (with_gen s (current s) G) p x) = closes s →
  pr_shutdown p = pr_shutdown (ys_producer s) → pr_resourceErr p = pr_resourceErr (ys_producer s) →
  (pr_terminal p = true ∨ x = SupClosed ∨ x = SupRecovering → relinquished s = true) →
  closes_inv (with_supervisor (with_gen s (current s) G) p x).
Proof.
  intros Hinv Hc Hs He Hx.
  assert (released (with_supervisor (with_gen s (current s) G) p x) = released s) as Hr by (unfold released; simpl; by rewrite Hs).
  apply (closes_keep s); try done. unfold relinquished at 1. rewrite Hr. simpl. intros H. destruct (released s) eqn:E.
  { unfold relinquished. by rewrite E. }
  apply Hx. destruct (pr_terminal p); [by left|]. destruct x; auto; done.
Qed.

Lemma relinquished_terminal s : pr_terminal (ys_producer s) = true → relinquished s = true.
Proof. intros H. unfold relinquished. by rewrite H, orb_true_r. Qed.

Lemma with_gen_id s g G : ys_gens s !! g = Some G → with_gen s g G = s.
Proof. intros Hg. unfold with_gen, with_gens. rewrite list_insert_id by done. by destruct s. Qed.

Lemma unreleased_open s : sync s → producer_inv (ys_producer s) → pr_closed (ys_producer s) = false → released s = false.
Proof.
  intros Hsync Hpi Hc. unfold released. pose proof (sn_finisher _ Hsync) as Hf.
  assert (pr_shutdown (ys_producer s) = ShutdownIdle) as Hi.
  { destruct (pr_shutdown (ys_producer s)) eqn:E; [done|..]; exfalso;
      assert (pr_closed (ys_producer s) = true) by (apply (pi_closed _ Hpi); by rewrite E); congruence. }
  rewrite Hi in *. by destruct (ys_finisher s).
Qed.

Lemma closes_install s session s' :
  sync s → producer_inv (ys_producer s) → closes_inv s → ys_supervisor s = SupRecovering →
  sup_install s session = Some s' → closes_inv s'.
Proof.
  intros Hsync Hpi Hinv Hx Hstep. unfold sup_install in Hstep. destruct (Lock _) as [m|]; [|done].
  destruct (installGeneration _) as [p|] eqn:Hi; [|done]. destruct (Unlock m) as [m'|]; [|done]. injection Hstep as <-.
  unfold installGeneration in Hi. destruct (pr_closed _) eqn:Hc; [done|]. injection Hi as <-.
  pose proof (unreleased_open s Hsync Hpi Hc) as Hrel.
  assert (pr_terminal (ys_producer s) = false) as Hterm.
  { destruct (pr_terminal _) eqn:E; [|done]. apply (pi_terminal _ Hpi) in E as [_ E].
    rewrite (sn_events _ Hsync), Hx in E. by destruct E. }
  set (s' := with_supervisor _ _ _).
  assert (released s' = false ∧ relinquished s' = false) as [Hr' Hrl'].
  { assert (released s' = false) as E by exact Hrel. split; [done|]. unfold relinquished. rewrite E. simpl. by rewrite Hterm. }
  assert (relinquished s = true) as Hrl by (unfold relinquished; rewrite Hx; by rewrite !orb_true_r).
  intros g c Hg. unfold closes in Hg. simpl in Hg. rewrite fmap_app in Hg. simpl in Hg.
  assert (length (ys_gens s') = S (length (ys_gens s))) as Hl by (simpl; rewrite length_app; simpl; lia).
  apply lookup_app_Some in Hg as [Hg|[Hle Hg]].
  - destruct (Hinv _ _ Hg) as [H1 H2 H3 H4]. apply lookup_lt_Some in Hg. rewrite length_fmap in Hg.
    split; rewrite ?Hl, ?Hrl'; [done| |done|lia]. intros _.
    destruct (decide (S g = length (ys_gens s))); [by apply H3|apply H2; lia].
  - apply list_lookup_singleton_Some in Hg as [Hz <-]. rewrite length_fmap in *.
    split; rewrite ?Hl, ?Hrl', ?Hr'; [by left|lia|done|]. intros _. simpl.
    destruct (ys_gens s) as [|G0 gens] eqn:E using rev_ind; [by destruct (sn_gens _ Hsync)|].
    assert (closes s !! length gens = Some (gn_close G0)) as Hlast.
    { unfold closes. rewrite E, list_lookup_fmap, lookup_app_r, Nat.sub_diag by lia. done. }
    rewrite (cl_err _ _ _ (Hinv _ _ Hlast)); [by rewrite Hrel|]. rewrite E, length_app. simpl. lia.
Qed.

Lemma gen_write_close G v : gn_close (gen_write G v) = gn_close G.
Proof. done. Qed.

Lemma closes_sup s e s' :
  sync s → producer_inv (ys_producer s) → closes_inv s → sup_step s e = Some s' → closes_inv s'.
Proof.
  intros Hsync Hpi Hinv Hstep. pose proof (sn_events _ Hsync) as He. unfold sup_step in Hstep.
  destruct (ys_gens s !! current s) as [G|] eqn:Hg; [|done].
  assert (∀ G' p x, gn_close G' = gn_close G → pr_shutdown p = pr_shutdown (ys_producer s) →
    pr_resourceErr p = pr_resourceErr (ys_producer s) →
    (pr_terminal p = true ∨ x = SupClosed ∨ x = SupRecovering → relinquished s = true) →
    closes_inv (with_supervisor (with_gen s (current s) G') p x)) as Hkeep.
  { intros G' p x Hc Hs Hr Hx. apply closes_supervisor; try done. by eapply closes_same. }
  pose proof (relinquished_terminal s) as Hterm. pose proof (with_gen_id s (current s) G Hg) as Hid.
  assert (S (current s) = length (ys_gens s)) as Hcur by (unfold current; pose proof (sn_gens _ Hsync); destruct (ys_gens s); [done|simpl; lia]).
  destruct (ys_supervisor s) eqn:Hx, e as [case order| |order|ce re| |session|]; try done; simpl in He.
  - unfold sup_case in Hstep. destruct (gen_step _ _ _) as [r|] eqn:Hr; [|done].
    pose proof (quiet_gen_step (gen_view s G) case order r He Hr) as [_ (_ & E2 & _ & _ & _ & E6 & E7 & _)]. simpl in *.
    destruct r as [v|[|] v]; injection Hstep as <-; apply Hkeep; simpl in *; try done; rewrite E7; intros [|[|]]; auto; done.
  - injection Hstep as <-. destruct (setBlocked_phases (ys_producer s) false) as (_ & E2 & _ & _ & _ & E6 & E7 & _).
    rewrite <- Hid. apply Hkeep; try done. simpl. rewrite E7. intros [|[|]]; auto; done.
  - injection Hstep as <-. destruct (markRecovering_phases (ys_producer s)) as (_ & E2 & _ & _ & _ & E6 & E7 & _).
    rewrite <- Hid. apply Hkeep; try done. simpl. rewrite E7. intros [|[|]]; auto; done.
  - destruct (failAll _ _ _) as [[n t]|]; [|done]. injection Hstep as <-. apply Hkeep; try done. intros [|[|]]; auto; done.
  - injection Hstep as <-. eapply (closes_close s _ (current s) G ce re); try done; [apply closes_insert|by right|by left].
  - injection Hstep as <-. rewrite <- Hid. apply Hkeep; try done. intros _. unfold relinquished. by rewrite Hx, !orb_true_r.
  - injection Hstep as <-. rewrite <- Hid. apply Hkeep; try done. intros _. unfold relinquished. by rewrite Hx, !orb_true_r.
  - by eapply closes_install.
  - injection Hstep as <-. destruct (finishRecovery_phases (ys_producer s) false) as (_ & E2 & _ & E6 & _).
    rewrite <- Hid. apply Hkeep; try done. intros _. unfold relinquished. by rewrite Hx, !orb_true_r.
  - injection Hstep as <-. destruct (finishRecovery_phases (ys_producer s) true) as (_ & E2 & _ & E6 & _ & E7).
    rewrite <- Hid. apply Hkeep; try done. intros [Ht|[|]]; [|done..]. apply Hterm. rewrite <- E7 by done. exact Ht.
  - injection Hstep as <-. destruct (setBlocked_phases (ys_producer s) false) as (_ & E2 & _ & _ & _ & E6 & E7 & _).
    rewrite <- Hid. apply Hkeep; try done. unfold endEvents. simpl. rewrite E7. intros [|[|]]; auto; done.
Qed.

Lemma closes_fin s e s' : sync s → closes_inv s → fin_step s e = Some s' → closes_inv s'.
Proof.
  intros Hsync Hinv Hstep. pose proof (sn_finisher _ Hsync) as Hf. unfold fin_step in Hstep.
  assert (∀ p m x stopped, released (with_finisher s p m x stopped) = released s →
    pr_terminal p = pr_terminal (ys_producer s) → pr_resourceErr p = pr_resourceErr (ys_producer s) →
    closes_inv (with_finisher s p m x stopped)) as Hkeep.
  { intros p m x stopped Hr Ht He. apply (closes_keep s); try done. unfold relinquished. by rewrite Hr; simpl; rewrite Ht. }
  assert (S (current s) = length (ys_gens s)) as Hcur by (unfold current; pose proof (sn_gens _ Hsync); destruct (ys_gens s); [done|simpl; lia]).
  destruct (ys_finisher s) eqn:Hx, e as [timer| |ce re]; try done.
  - destruct (pr_shutdown _) eqn:Hs; try done. destruct (_ || timer); [|done]. injection Hstep as <-.
    apply Hkeep; try done. unfold released. simpl. by rewrite Hx, Hs.
  - assert (∀ m, closes_inv (with_finisher s (ys_producer s) m FinishStopping (ys_stopped s))).
    { intros m. apply Hkeep; try done. unfold released. simpl. by rewrite Hx, Hf. }
    destruct (TryLock _) as [[|] m]; [destruct (Unlock m); [|done]|]; by injection Hstep as <-.
  - injection Hstep as <-. apply Hkeep; try done. unfold released. simpl. by rewrite Hx, Hf.
  - destruct (ys_gens s !! current s) as [G|] eqn:Hg; [|done]. destruct (close_gen G ce re) as [err G'] eqn:Hc. injection Hstep as <-.
    assert (closes s !! current s = Some (gn_close G)) as Hlast by (unfold closes; by rewrite list_lookup_fmap, Hg).
    destruct (Hinv _ _ Hlast) as [Hst _ _ Herr]. destruct (close_gen_once G ce re Hst) as ((_ & _ & _ & Hone) & Hres & _).
    rewrite Hc in Hone, Hres. simpl in Hone, Hres.
    eapply (closes_close s _ (current s) G ce re); try done; rewrite ?Hc; [apply closes_insert|by right|].
    right. split_and!; [done|done|]. simpl. rewrite (Herr Hcur). unfold released. rewrite Hx, Hf.
    rewrite Hres. by destruct Hone as [-> | ->].
  - destruct (pr_events _); try done. destruct (endShutdown _) as [p|] eqn:Hend; [|done]. injection Hstep as <-.
    unfold endShutdown in Hend. destruct (close _); [|done]. injection Hend as <-. apply Hkeep; try done.
    unfold released. simpl. by rewrite Hx.
Qed.

Lemma closes_step s s' :
  system_step s s' → sync s → producer_inv (ys_producer s) → closes_inv s → closes_inv s'.
Proof.
  intros (a & Hsch & Hstep) Hsync Hpi Hinv.
  assert (∀ p, pr_shutdown p = pr_shutdown (ys_producer s) → pr_resourceErr p = pr_resourceErr (ys_producer s) →
    pr_terminal p = pr_terminal (ys_producer s) → closes_inv (with_producer s p)) as Hkeep.
  { intros p E1 E2 E3. apply (closes_keep s); try done; unfold relinquished, released; simpl; by rewrite E1, ?E3. }
  destruct a as [publication|i e|e|n ce re| | |e|g e| |]; simpl in Hstep.
  - unfold do_publish in Hstep. destruct (present _); [done|]. destruct (Producer_admit (ys_producer s)) as [err p] eqn:Ha.
    assert (closes_inv (with_producer s p)) as H by (unfold Producer_admit in Ha; repeat case_match; simplify_eq; by apply Hkeep).
    destruct err; injection Hstep as <-; [done|]. by apply (closes_keep (with_producer s p)).
  - apply pub_step_trans in Hstep as (b & p & m & og & closers & x & Hi & Ht & ->).
    destruct (pub_trans_ends _ _ _ _ _ _ _ Ht) as (E1 & E2 & E3).
    apply (closes_keep s); [done|by apply pub_trans_closes| | |done]; unfold relinquished, released; simpl; by rewrite E1, ?E3.
  - by eapply closes_sup.
  - unfold closer_step in Hstep. destruct (ys_closers s !! n) as [g|]; [|done]. destruct (ys_gens s !! g) as [G|] eqn:Hg; [|done].
    injection Hstep as <-. eapply (closes_close s _ g G ce re); try done; [apply closes_insert|by left|by left].
  - injection Hstep as <-. unfold startShutdown. destruct (pr_shutdown _) eqn:Hs; [|by apply Hkeep..].
    apply (closes_keep s); try done; unfold relinquished, released; simpl; by rewrite Hs.
  - assert (s' = with_producer s (forceShutdown (ys_producer s))) as -> by (destruct (pr_shutdown _); by simplify_eq). by apply Hkeep.
  - by eapply closes_fin.
  - destruct (ys_gens s !! g) as [G|] eqn:Hg; [|done]. destruct (env_gen G e) as [G'|] eqn:He; [|done]. injection Hstep as <-.
    apply (closes_keep s); try done. unfold closes at 1. simpl. eapply closes_same; [done|by eapply env_gen_close].
  - injection Hstep as <-. by apply Hkeep.
  - destruct (obs_receive _) as [[o observations]|]; [|done]. injection Hstep as <-. by apply Hkeep.
Qed.

Section Closed.
Context (config : ProducerConfig) (session : string).
Hypothesis Hconfig : ProducerConfig_Validate config = None.

Abbreviation reachable_system := (rtc system_step (newPSystem config session)).

Lemma closes_new : closes_inv (newPSystem config session).
Proof using. intros [|g] c; [|done]. intros [= <-]. split; simpl; try done; [by left|lia]. Qed.

Lemma reachable_closes s : reachable_system s → closes_inv s.
Proof using Hconfig.
  intros Hr. eapply (rtc_invariant system_step (λ s, closes_inv s ∧ reachable_system s)) in Hr;
    [apply Hr| |split; [apply closes_new|reflexivity]].
  intros x y Hstep [Hc Hx]. split; [|by eapply rtc_r].
  eapply closes_step; [done|by eapply reachable_sync|by eapply reachable_producer|done].
Qed.

(** C10: a producer leaves nothing open and closes nothing twice: the connection and
    the channel of every generation are closed at most once, and exactly once when
    the generation was replaced, when recovery failed for good, and when [Shutdown]
    completed, which then reports how the close of the last generation ended. *)
Theorem producer_closes_once s g G :
  reachable_system s → ys_gens s !! g = Some G →
  let p := ys_producer s in
  let resources := gc_resource_closes (gn_close G) in
  let channels := gc_channel_closes (gn_close G) in
  (resources <= 1 ∧ channels <= 1)%nat
  ∧ (g ≠ current s ∨ pr_terminal p = true ∨ pr_shutdown p = ShutdownDone → resources = 1%nat ∧ channels = 1%nat)
  ∧ (g = current s → pr_shutdown p = ShutdownDone → pr_resourceErr p = gc_err (gn_close G)).
Proof using Hconfig.
  intros Hr Hg. simpl. assert (closes s !! g = Some (gn_close G)) as Hc by (unfold closes; by rewrite list_lookup_fmap, Hg).
  destruct (reachable_closes s Hr _ _ Hc) as [H1 H2 H3 H4]. pose proof (lookup_lt_Some _ _ _ Hg) as Hlt.
  assert (g = current s ↔ S g = length (ys_gens s)) as Hcur by (unfold current; lia).
  assert (pr_shutdown (ys_producer s) = ShutdownDone → released s = true) as Hdone
    by (unfold released; intros ->; by destruct (ys_finisher s)).
  split_and!.
  1-2: destruct H1 as [-> |(_ & E1 & E2 & _)]; simpl; lia.
  - intros Hwhy. assert (closed_once (gn_close G)) as (_ & -> & -> & _); [|done].
    destruct (decide (S g = length (ys_gens s))) as [Hlast|]; [|apply H2; lia]. apply H3; [done|].
    destruct Hwhy as [Hne|[Ht|Hd]]; [by rewrite Hcur in Hne|by apply relinquished_terminal|].
    unfold relinquished. by rewrite (Hdone Hd).
  - intros Hlast Hd. rewrite H4 by (by apply Hcur). by rewrite (Hdone Hd).
Qed.
End Closed.

(** ** Every publication can return *)

(** How many steps a publisher still has before it, at most. *)
Definition pub_rank (x : pub_phase) : nat :=
  match x with
  | PubAdmitted => 11
  | PubLocked => 10
  | PubOpen => 9
  | PubAvailable => 8
  | PubRegistered _ => 7
  | PubSending _ => 6
  | PubWaiting _ => 5
  | PubCancelled _ _ => 4
  | PubAbandoning _ _ | PubFailed _ _ => 3
  | PubPreflight _ _ | PubFailedWait _ _ | PubLast _ => 2
  | PubFinished _ _ _ _ => 1
  | PubDone _ _ _ => 0
  end.

Lemma pub_rank_bound x : (pub_rank x <= 11)%nat.
Proof. destruct x; simpl; lia. Qed.

Lemma pub_trans_rank s b p m og closers x :
  pub_trans s b p m og closers x → (pub_rank x < pub_rank (pb_phase b))%nat.
Proof.
  intros Ht. destruct Ht as [err Hb|m Hb Hl|m Hb Hc Hu|Hb Hc|m Hb Hc Hu|Hb Hc|m G err t Hb Hg Hu Hr|G q t Hb Hg Hr|a m G ok t Hb Hg Hc Hu Hab
    |a G Hb Hg Hc|a m G err ctx Hb Hg Hu Hrep|a m G timeout Hb Hg Hu|a G ctx ok t Hb Hg Hab|a G err later t Hb Hg Hab
    |a G err later t Hb Hg Hab|a G err r t Hb Hg Hr|a err Hb|a err Hb|a started result err latency Hb].
  14-16: destruct (pb_phase b); simplify_eq/=; lia.
  all: rewrite Hb; simpl; try lia.
  destruct err; [destruct (isPreflightCancellation _ _)|]; simpl; lia.
Qed.

(** What a publisher does without anyone's help once its context has ended: every
    event but the return of the client's send. *)
Definition publisher_event (e : pub_event) : bool :=
  match e with PubSend (SendReturned _) _ => false | _ => true end.

Definition publisher_step (i : nat) (s s' : psystem) : Prop :=
  ∃ e, publisher_event e = true ∧ pub_step s i e = Some s'.

Lemma publisher_step_system i s s' : publisher_step i s s' → system_step s s'.
Proof. intros (e & _ & He). by exists (DoPublisher i e). Qed.

(** A step of publisher [i] is a step of it alone. *)
Lemma pub_step_rank i e s s' b :
  pub_step s i e = Some s' → ys_publishers s !! i = Some b →
  ∃ x, ys_publishers s' = <[i := mkPublisher (pb_publication b) x]> (ys_publishers s) ∧ (pub_rank x < pub_rank (pb_phase b))%nat
  ∧ pr_shutdown (ys_producer s') = pr_shutdown (ys_producer s).
Proof.
  intros He Hi. apply pub_step_trans in He as (b' & p & m & og & closers & x & Hi' & Ht & ->).
  rewrite Hi in Hi'. injection Hi' as <-. exists x. split; [done|]. split; [by eapply pub_trans_rank|].
  apply (pub_trans_ends _ _ _ _ _ _ _ Ht).
Qed.

Lemma mutex_held s i b : sync s → ys_publishers s !! i = Some b → holds b = true → is_Some (Unlock (ys_mutex s)).
Proof.
  intros Hsync Hi Hh. pose proof (tally_pos holds _ _ _ Hi Hh) as Hpos. pose proof (sn_mutex _ Hsync) as He.
  unfold exclusive in He. destruct (ys_mutex s) as [[[|n]|]]; simpl in *; [by eexists|lia|lia].
Qed.

Lemma abandon_some G s state : gen_inv G → is_Some (abandon (gn_tracker G) s state).
Proof.
  intros Hinv. destruct (abandonablePublishState state) eqn:Hst; [|unfold abandon; rewrite Hst; by eexists].
  destruct (tr_sequence (gn_tracker G) !! s) as [p|] eqn:Hs; [|unfold abandon; rewrite Hst, Hs; by eexists].
  destruct (proj1 (wf_sequence _ (gi_wf _ Hinv) s p) Hs) as (a & Hp & _).
  rewrite (abandon_eq _ _ _ _ _ (gi_wf _ Hinv) Hst Hs Hp). by eexists.
Qed.

Section Publishers.
Context (s : psystem) (i : nat) (b : publisher).
Hypotheses (Hcorr : corr s) (Hsync : sync s) (Hi : ys_publishers s !! i = Some b).

Lemma unlock_enabled s1 b1 x :
  holds b = true → ys_mutex s1 = ys_mutex s → is_Some (unlock_to s1 i b1 x).
Proof using Hsync Hi.
  intros Hh Hm. unfold unlock_to. rewrite Hm. destruct (mutex_held s i b Hsync Hi Hh) as [m ->]. by eexists.
Qed.

(** What a publisher with an attempt does next. *)
Lemma pub_attempt_enabled a G :
  phase_attempt (pb_phase b) = Some a → ys_gens s !! pa_gen a = Some G → (1 < pub_rank (pb_phase b))%nat →
  ∃ e, publisher_event e = true ∧ is_Some (pub_attempt_step s i b a G e).
Proof using Hcorr Hsync Hi.
  intros Ha Hg Hrank. destruct (attempt_facts s i b Hcorr Hi a G Ha Hg) as [Hinv (cell & Hok & Hph)].
  assert (∀ x y state, is_Some (pub_abandon s i b a G state x y)) as Habandon.
  { intros x y state. unfold pub_abandon. destruct (abandon_some G (pa_sequence a) state Hinv) as [[ok t] ->]. by eexists. }
  assert (¬ pending cell → ∀ err, is_Some (pub_receive s i b a G err)) as Hreceive.
  { intros Hn err. unfold pub_receive. destruct (receive_eq _ _ _ (gi_wf _ Hinv) (ao_cell _ _ _ _ Hok) Hn) as (l & _ & ->). by eexists. }
  unfold pub_attempt_step.
  destruct (pb_phase b) as [| | | |?|?|? ctx|? err|? err|?|? err|? err|?|? started r err|? r err] eqn:Hb; simpl in Ha, Hrank; try done; try lia;
    simplify_eq.
  - exists PubGo. split; [done|]. unfold pub_start. destruct (isShutdownClosing _); [|by eexists].
    destruct (abandon_some G (pa_sequence a) PublishNotSent Hinv) as [[ok t] ->]. apply unlock_enabled; [unfold holds; by rewrite Hb|done].
  - exists (PubSend (SendTimedOut DeadlineExceeded) None). split; [done|]. apply unlock_enabled; [unfold holds; by rewrite Hb|done].
  - exists PubGo. split; [done|]. apply Habandon.
  - exists PubGo. split; [done|]. apply Habandon.
  - exists PubGo. split; [done|]. apply Hreceive, Hph.
  - exists (PubContext DeadlineExceeded). split; [done|]. by eexists.
  - exists PubGo. split; [done|]. destruct (pub_receive _ _ _ _ _ _); by eexists.
  - exists PubGo. split; [done|]. apply Habandon.
  - exists PubGo. split; [done|]. apply Hreceive, Hph.
Qed.

Lemma pub_enabled : pub_rank (pb_phase b) ≠ 0%nat → ∃ s', publisher_step i s s'.
Proof using Hcorr Hsync Hi.
  intros Hrank.
  assert (∀ e, publisher_event e = true → is_Some (pub_step s i e) → ∃ s', publisher_step i s s') as Hany.
  { intros e Hev [s' Hs']. exists s'. by exists e. }
  destruct (phase_attempt (pb_phase b)) as [a|] eqn:Ha; [destruct (decide (1 < pub_rank (pb_phase b))%nat) as [Hbig|]|].
  - destruct (pub_attempt_of _ _ a (co_pub _ Hcorr _ _ Hi) Ha) as (G & cell & Hg & _).
    destruct (pub_attempt_enabled a G Ha Hg Hbig) as (e & Hev & He). apply (Hany e Hev). unfold pub_step. rewrite Hi.
    destruct (pb_phase b); simpl in Ha, Hbig; try done; try lia; simplify_eq; destruct e; simpl; rewrite Hg; exact He.
  - apply (Hany (PubRelease 0) eq_refl). unfold pub_step. rewrite Hi. destruct (pb_phase b); simpl in *; try lia. by eexists.
  - destruct (pb_phase b) as [| | | |?|?|? ctx|? err|? err|?|? err|? err|?|? started r err|? r err] eqn:Hb; simpl in Ha, Hrank; try done.
    + apply (Hany (PubContext DeadlineExceeded) eq_refl). unfold pub_step. rewrite Hi, Hb. by eexists.
    + apply (Hany PubGo eq_refl). unfold pub_step. rewrite Hi, Hb. destruct (isShutdownClosing _); [|by eexists].
      apply unlock_enabled; [unfold holds; by rewrite Hb|done].
    + apply (Hany PubGo eq_refl). unfold pub_step. rewrite Hi, Hb. destruct (isUnavailable _); [|by eexists].
      apply unlock_enabled; [unfold holds; by rewrite Hb|done].
    + apply (Hany PubGo eq_refl). unfold pub_step. rewrite Hi, Hb. unfold pub_register.
      destruct (ys_gens s !! current s) as [G|] eqn:Hg.
      * destruct (register _ _ _ _ _) as [[err|p] t]; [|by eexists]. apply unlock_enabled; [unfold holds; by rewrite Hb|done].
      * exfalso. apply lookup_ge_None in Hg. unfold current in Hg. pose proof (sn_gens _ Hsync). destruct (ys_gens s); simpl in *; [done|lia].
    + apply (Hany (PubRelease 0) eq_refl). unfold pub_step. rewrite Hi, Hb. by eexists.
Qed.
End Publishers.

Lemma stopped_stream p : producer_inv p → pr_shutdown p = ShutdownDone → os_close (pr_observations p) = CloseDone.
Proof.
  intros Hpi Hd. apply (pi_stopped _ Hpi) in Hd. pose proof (pi_stream_open _ Hpi) as H. by rewrite Hd in H.
Qed.

Lemma stopped_not_ready p : producer_inv p → pr_shutdown p = ShutdownDone → Producer_Readiness p = ReadinessNotReady.
Proof. intros Hpi Hd. unfold Producer_Readiness. rewrite (proj2 (pi_closed _ Hpi)); [done|congruence]. Qed.

Lemma tally_none f l : (∀ b, b ∈ l → f b = false) → tally f l = 0%nat.
Proof.
  unfold tally. induction l as [|b l IH]; intros H; [done|]. simpl. rewrite (H b) by by left. apply IH. intros x Hx. apply H. by right.
Qed.

Section Returns.
Context (config : ProducerConfig) (session : string).
Hypothesis Hconfig : ProducerConfig_Validate config = None.

Abbreviation reachable_system := (rtc system_step (newPSystem config session)).

Lemma publisher_reachable i n s s' : reachable_system s → nsteps (publisher_step i) n s s' → reachable_system s'.
Proof using.
  intros Hr Hn. induction Hn as [|n s1 s2 s3 Hstep _ IH]; [done|]. apply IH. eapply rtc_r; [done|by eapply publisher_step_system].
Qed.

(** A publisher brings itself to its return. *)
Lemma publisher_finishes s i b :
  reachable_system s → ys_publishers s !! i = Some b →
  ∃ n s' x, (n <= pub_rank (pb_phase b))%nat ∧ nsteps (publisher_step i) n s s' ∧ pub_rank x = 0%nat
  ∧ ys_publishers s' = <[i := mkPublisher (pb_publication b) x]> (ys_publishers s)
  ∧ pr_shutdown (ys_producer s') = pr_shutdown (ys_producer s).
Proof using Hconfig.
  remember (pub_rank (pb_phase b)) as k eqn:Hk. revert s b Hk. induction (lt_wf k) as [k _ IH]. intros s b -> Hr Hi.
  destruct (decide (pub_rank (pb_phase b) = 0%nat)) as [Hz|Hnz].
  { exists 0%nat, s, (pb_phase b). split_and!; [lia|constructor|done| |done]. symmetry. apply list_insert_id. by destruct b. }
  destruct (pub_enabled s i b) as [s1 Hs1]; [by eapply reachable_corr|by eapply reachable_sync|done|done|].
  pose proof Hs1 as (e & _ & He). destruct (pub_step_rank i e s s1 b He Hi) as (x1 & Hpubs & Hlt & Hsh).
  assert (reachable_system s1) as Hr1 by (eapply rtc_r; [done|by eapply publisher_step_system]).
  assert (ys_publishers s1 !! i = Some (mkPublisher (pb_publication b) x1)) as Hi1.
  { rewrite Hpubs. apply list_lookup_insert_eq. by eapply lookup_lt_Some. }
  destruct (IH _ Hlt s1 (mkPublisher (pb_publication b) x1) eq_refl Hr1 Hi1) as (n & s' & x & Hn & Hrun & Hx & Hp & Hsh').
  exists (S n), s', x. split_and!; [simpl in *; lia|by eapply nsteps_l|done| |congruence].
  rewrite Hp, Hpubs. apply list_insert_insert_eq.
Qed.

(** Nobody else moves a publisher. *)
Lemma system_step_publisher s s' i b :
  system_step s s' → ys_publishers s !! i = Some b →
  ∃ b', ys_publishers s' !! i = Some b' ∧ (b' = b ∨ (pub_rank (pb_phase b') < pub_rank (pb_phase b))%nat).
Proof using.
  intros (a & _ & Hstep) Hi.
  assert (ys_publishers s' = ys_publishers s → ∃ b', ys_publishers s' !! i = Some b'
    ∧ (b' = b ∨ (pub_rank (pb_phase b') < pub_rank (pb_phase b))%nat)) as Hsame by (intros ->; eauto).
  destruct a as [publication|j e|e|n ce re| | |e|g e| |]; simpl in Hstep.
  - unfold do_publish in Hstep. repeat case_match; simplify_eq; [auto|]. exists b. split; [by apply lookup_app_l_Some|by left].
  - destruct (decide (j = i)) as [-> |Hne].
    + destruct (pub_step_rank i e s s' b Hstep Hi) as (x & Hp & Hlt & _).
      eexists. split; [rewrite Hp; apply list_lookup_insert_eq; by eapply lookup_lt_Some|by right].
    + apply pub_step_trans in Hstep as (b' & p & m & og & closers & x & Hj & Ht & ->). exists b. split; [|by left].
      simpl. by rewrite list_lookup_insert_ne.
  - apply Hsame. unfold sup_step, sup_case, sup_install in Hstep. repeat case_match; by simplify_eq.
  - apply Hsame. unfold closer_step in Hstep. repeat case_match; by simplify_eq.
  - apply Hsame. by simplify_eq.
  - apply Hsame. repeat case_match; by simplify_eq.
  - apply Hsame. unfold fin_step in Hstep. repeat case_match; by simplify_eq.
  - apply Hsame. repeat case_match; by simplify_eq.
  - apply Hsame. by simplify_eq.
  - apply Hsame. repeat case_match; by simplify_eq.
Qed.

(** C9: every publication can return without anyone's help, within eleven steps:
    from every reachable state a publisher can go on to its return by steps of its
    own goroutine alone, once its context has ended, whatever the others hold or do
    not do; and no step of anyone brings it back. *)
Theorem publish_always_returns s i b :
  reachable_system s → ys_publishers s !! i = Some b →
  (∃ n s' a r err, (n <= 11)%nat ∧ nsteps (publisher_step i) n s s'
     ∧ ys_publishers s' !! i = Some (mkPublisher (pb_publication b) (PubDone a r err)))
  ∧ ∀ s', system_step s s' →
      ∃ b', ys_publishers s' !! i = Some b' ∧ (b' = b ∨ (pub_rank (pb_phase b') < pub_rank (pb_phase b))%nat).
Proof using Hconfig.
  intros Hr Hi. split; [|intros s' Hstep; by eapply system_step_publisher].
  destruct (publisher_finishes s i b Hr Hi) as (n & s' & x & Hn & Hrun & Hx & Hp & _).
  assert (∃ a r err, x = PubDone a r err) as (a & r & err & ->) by (destruct x; try done; eauto).
  exists n, s', a, r, err. split_and!; [pose proof (pub_rank_bound (pb_phase b)); lia|done|].
  rewrite Hp. apply list_lookup_insert_eq. by eapply lookup_lt_Some.
Qed.

(** ** Shutdown can always complete *)

(** A step that the goroutines of the producer do by themselves: it is neither the
    return of a call of the client (a send, a close, an attempt to reconnect), nor
    an event of the broker, nor an action of the application.  Expired timers and
    contexts count as such steps. *)
Definition local_action (a : system_action) : bool :=
  match a with
  | DoPublisher _ e => publisher_event e
  | DoSupervisor (SupCase _ _ | SupGo | SupFail _) => true
  | DoFinisher (FinBegin _ | FinGo) => true
  | _ => false
  end.

(** The client's close of a generation returned, or the recovery in progress ended
    without a generation. *)
Definition call_returns (a : system_action) : bool :=
  match a with
  | DoSupervisor (SupClose _ _ | SupExhausted) => true
  | DoFinisher (FinClose _ _) => true
  | _ => false
  end.

Definition action_step (f : system_action → bool) (s s' : psystem) : Prop :=
  ∃ a, f a = true ∧ scheduled s a ∧ system_exec s a = Some s'.

Definition local_step : psystem → psystem → Prop := action_step local_action.

(** A step of the producer alone, or the return of a call it waits for. *)
Definition stopping_step : psystem → psystem → Prop := action_step (λ a, local_action a || call_returns a).

Lemma action_reachable f s s' : reachable_system s → rtc (action_step f) s s' → reachable_system s'.
Proof using.
  intros Hr Hl. etrans; [exact Hr|]. eapply rtc_subrel; [|exact Hl]. intros x y (a & _ & ? & ?). by exists a.
Qed.

Lemma publisher_steps_local i n s s' : nsteps (publisher_step i) n s s' → rtc local_step s s'.
Proof using.
  intros Hn. induction Hn as [|n s1 s2 s3 (e & Hev & He) _ IH]; [reflexivity|]. eapply rtc_l; [|exact IH]. by exists (DoPublisher i e).
Qed.

Definition returned_all (s : psystem) (k : nat) : Prop :=
  ∀ i b, (i < k)%nat → ys_publishers s !! i = Some b → pub_rank (pb_phase b) = 0%nat.

Lemma publishers_finish s k :
  reachable_system s → ∃ s', rtc local_step s s' ∧ returned_all s' k
  ∧ pr_shutdown (ys_producer s') = pr_shutdown (ys_producer s) ∧ length (ys_publishers s') = length (ys_publishers s).
Proof using Hconfig.
  intros Hr. induction k as [|k (s1 & Hrun & Hall & Hsh & Hlen)].
  { exists s. split_and!; [reflexivity|intros i b; lia|done|done]. }
  pose proof (action_reachable _ _ _ Hr Hrun) as Hr1. destruct (ys_publishers s1 !! k) as [b|] eqn:Hk.
  - destruct (publisher_finishes s1 k b Hr1 Hk) as (n & s2 & x & _ & Hn & Hx & Hp & Hsh2).
    exists s2. split_and!; [etrans; [exact Hrun|by eapply publisher_steps_local]| |congruence|rewrite Hp, length_insert; done].
    intros i b' Hi Hb'. rewrite Hp in Hb'. destruct (insert_pub _ _ _ _ _ _ Hk Hb') as [[-> ->]|[Hne Hb2]]; [done|].
    apply (Hall i b'); [lia|done].
  - exists s1. split_and!; [done| |done|done]. intros i b Hi Hb. destruct (decide (i = k)) as [-> |]; [congruence|].
    apply (Hall i b); [lia|done].
Qed.

(** [finishShutdown] closes the current generation after [stopEvents]. *)
Definition stop_ok (s : psystem) : Prop :=
  match ys_finisher s with FinishClosing | FinishWaiting => ys_stopped s = true | _ => True end.

Lemma fin_step_stop s e s' : fin_step s e = Some s' → stop_ok s → stop_ok s'.
Proof using.
  intros Hstep Hok. unfold fin_step in Hstep. unfold stop_ok in Hok. destruct (ys_finisher s), e; try done.
  - destruct (pr_shutdown _); try done. destruct (_ || _); [|done]. by injection Hstep as <-.
  - destruct (TryLock _) as [[|] m]; [destruct (Unlock m); [|done]|]; by injection Hstep as <-.
  - by injection Hstep as <-.
  - destruct (ys_gens s !! current s) as [G|]; [|done]. destruct (close_gen _ _ _). by injection Hstep as <-.
  - destruct (pr_events _); try done. destruct (endShutdown _); [|done]. by injection Hstep as <-.
Qed.

Lemma reachable_stop s : reachable_system s → stop_ok s.
Proof using.
  intros Hr. eapply (rtc_invariant system_step stop_ok) in Hr; [done| |done]. clear s Hr. intros s s' (a & _ & Hstep) Hok.
  assert (ys_finisher s' = ys_finisher s → ys_stopped s' = ys_stopped s → stop_ok s') as Hsame
    by (unfold stop_ok in *; by intros -> ->).
  destruct a as [publication|i e|e|n ce re| | |e|g e| |]; simpl in Hstep;
    unfold do_publish, closer_step, sup_step, sup_case, sup_install in Hstep.
  2: apply pub_step_trans in Hstep as (b & p & m & og & closers & x & _ & _ & ->); by apply Hsame.
  6: by eapply fin_step_stop.
  all: clear Hok; apply Hsame; clear Hsame; repeat case_match; by simplify_eq.
Qed.

(** How far the event goroutine of a stopped producer is from its end. *)
Definition sup_rank (x : supervisor) : nat :=
  match x with
  | SupEnded => 8 | SupUnblocked => 7 | SupMarked => 6 | SupFailed => 5 | SupClosed => 4 | SupInstalled => 4
  | SupRecovering => 3 | SupRunning => 3 | SupReturned => 1 | SupDone => 0
  end.

Lemma failAll_some t order : wf t → ∃ n t', failAll t PublishAmbiguous order = Some (n, t').
Proof using.
  intros Hwf. unfold failAll. destruct (fail_each_ok t PublishAmbiguous order Hwf eq_refl) as (t' & -> & _). simpl. eauto.
Qed.

Lemma sup_progress s :
  corr s → sync s → ys_stopped s = true → sup_rank (ys_supervisor s) ≠ 0%nat →
  ∃ s', stopping_step s s' ∧ (sup_rank (ys_supervisor s') < sup_rank (ys_supervisor s))%nat
  ∧ ys_finisher s' = ys_finisher s ∧ ys_publishers s' = ys_publishers s ∧ pr_shutdown (ys_producer s') = pr_shutdown (ys_producer s).
Proof using.
  intros Hcorr Hsync Hstop Hrank.
  assert (∃ G, ys_gens s !! current s = Some G) as [G Hg].
  { unfold current. pose proof (sn_gens _ Hsync). destruct (ys_gens s); [done|]. apply lookup_lt_is_Some. simpl. lia. }
  pose proof (gi_wf _ (co_gens _ Hcorr _ _ Hg)) as Hwf.
  set (order := (map_to_list (tr_sequence (gn_tracker G))).*1).
  assert (ranges s order) as Hranges by (intros G' HG'; rewrite Hg in HG'; by injection HG' as <-).
  destruct (failAll_some (gn_tracker G) order Hwf) as (n & t & Hf).
  assert (∀ e s', (local_action (DoSupervisor e) || call_returns (DoSupervisor e)) = true → scheduled s (DoSupervisor e) → sup_step s e = Some s' →
    (sup_rank (ys_supervisor s') < sup_rank (ys_supervisor s))%nat ∧ ys_finisher s' = ys_finisher s
    ∧ ys_publishers s' = ys_publishers s ∧ pr_shutdown (ys_producer s') = pr_shutdown (ys_producer s) →
    ∃ s', stopping_step s s' ∧ (sup_rank (ys_supervisor s') < sup_rank (ys_supervisor s))%nat ∧ ys_finisher s' = ys_finisher s
      ∧ ys_publishers s' = ys_publishers s ∧ pr_shutdown (ys_producer s') = pr_shutdown (ys_producer s)) as Hdo.
  { intros e s' Ha Hs He Hrest. exists s'. split; [|done]. by exists (DoSupervisor e). }
  destruct (ys_supervisor s) eqn:Hx; simpl in Hrank; [..|done].
  - eapply (Hdo (SupCase GenStop order)); [done|done|unfold sup_step; rewrite Hg, Hx; unfold sup_case; simpl; rewrite Hstop, Hf; done|].
    simpl. split_and!; [lia|done..].
  - eapply (Hdo SupGo); [done|done|unfold sup_step; by rewrite Hg, Hx|]. simpl.
    split_and!; [lia|done|done|apply (setBlocked_phases (ys_producer s) false)].
  - eapply (Hdo SupGo); [done|done|unfold sup_step; by rewrite Hg, Hx|]. simpl.
    split_and!; [lia|done|done|apply (markRecovering_phases (ys_producer s))].
  - eapply (Hdo (SupFail order)); [done|done|unfold sup_step; by rewrite Hg, Hx, Hf|]. simpl. split_and!; [lia|done..].
  - eapply (Hdo (SupClose None None)); [done|done|unfold sup_step; by rewrite Hg, Hx|]. simpl. split_and!; [lia|done..].
  - eapply (Hdo SupGo); [done|done|unfold sup_step; by rewrite Hg, Hx|]. simpl. split_and!; [lia|done..].
  - eapply (Hdo SupExhausted); [done|done|unfold sup_step; by rewrite Hg, Hx|]. cbn [ys_supervisor with_supervisor sup_rank].
    split_and!; [lia|done|done|apply (finishRecovery_phases (ys_producer s) false)].
  - eapply (Hdo SupGo); [done|done|unfold sup_step; by rewrite Hg, Hx|]. cbn [ys_supervisor with_supervisor sup_rank].
    split_and!; [lia|done|done|apply (finishRecovery_phases (ys_producer s) true)].
  - eapply (Hdo SupGo); [done|done|unfold sup_step; by rewrite Hg, Hx|]. simpl.
    split_and!; [lia|done|done|apply (setBlocked_phases (ys_producer s) false)].
Qed.

(** How far [finishShutdown] is from its end. *)
Definition fin_rank (s : psystem) : nat :=
  match pr_shutdown (ys_producer s), ys_finisher s with
  | ShutdownDone, _ => 0
  | _, FinishWaiting => 1
  | _, FinishClosing => 2
  | _, FinishStopping => 3
  | _, FinishTrying => 4
  | _, FinishIdle => 5
  end.

Definition shutdown_measure (s : psystem) : nat := (9 * fin_rank s + sup_rank (ys_supervisor s))%nat.

Lemma sup_rank_bound x : (sup_rank x <= 8)%nat.
Proof using. destruct x; simpl; lia. Qed.

(** A step of [finishShutdown], as the progress it makes. *)
Lemma fin_measure s e s' :
  (local_action (DoFinisher e) || call_returns (DoFinisher e)) = true →
  fin_step s e = Some s' → ys_supervisor s' = ys_supervisor s → (fin_rank s' < fin_rank s)%nat →
  stopping_step s s' ∧ (shutdown_measure s' < shutdown_measure s)%nat.
Proof using.
  intros Ha He Hsup Hlt. split; [by exists (DoFinisher e)|]. unfold shutdown_measure. rewrite Hsup. lia.
Qed.

Lemma shutdown_progress s :
  reachable_system s → pr_shutdown (ys_producer s) ≠ ShutdownIdle → pr_shutdown (ys_producer s) ≠ ShutdownDone →
  ∃ s', (stopping_step s s' ∧ (shutdown_measure s' < shutdown_measure s)%nat)
  ∧ ys_publishers s' = ys_publishers s ∧ pr_shutdown (ys_producer s') ≠ ShutdownIdle.
Proof using Hconfig.
  intros Hr Hidle Hdone. pose proof (reachable_sync _ _ Hconfig s Hr) as Hsync. pose proof (reachable_corr _ _ Hconfig s Hr) as Hcorr.
  pose proof (reachable_producer _ _ Hconfig s Hr) as Hpi. pose proof (reachable_stop s Hr) as Hstop.
  pose proof (sn_finisher _ Hsync) as Hf. unfold stop_ok in Hstop. destruct (ys_finisher s) eqn:Hx.
  - assert (pr_shutdown (ys_producer s) = ShutdownDraining) as Hs by (by destruct (pr_shutdown _)).
    eexists. split; [eapply (fin_measure s (FinBegin true) _ eq_refl)|]; [unfold fin_step; by rewrite Hx, Hs, orb_true_r|done| |done].
    unfold fin_rank. simpl. rewrite Hs, Hx. lia.
  - assert (∃ s', fin_step s FinGo = Some s' ∧ ys_supervisor s' = ys_supervisor s ∧ ys_finisher s' = FinishStopping
      ∧ ys_publishers s' = ys_publishers s ∧ pr_shutdown (ys_producer s') = pr_shutdown (ys_producer s)) as (s' & E1 & E2 & E3 & E4 & E5).
    { unfold fin_step. rewrite Hx. pose proof (exclusive_try _ _ (sn_mutex _ Hsync)) as Ht.
      destruct (TryLock (ys_mutex s)) as [[|] m]; [destruct Ht as (m' & -> & _)|]; eexists; (split; [reflexivity|done]). }
    exists s'. split; [apply (fin_measure s FinGo _ eq_refl); [done|done|]|by rewrite E5]. unfold fin_rank. rewrite E3, E5, Hf, Hx. lia.
  - eexists. split; [eapply (fin_measure s FinGo _ eq_refl)|]; [unfold fin_step; by rewrite Hx|done| |done].
    unfold fin_rank. simpl. rewrite Hf, Hx. lia.
  - assert (∃ G, ys_gens s !! current s = Some G) as [G Hg].
    { unfold current. pose proof (sn_gens _ Hsync). destruct (ys_gens s); [done|]. apply lookup_lt_is_Some. simpl. lia. }
    destruct (close_gen G None None) as [err G'] eqn:Hc.
    eexists. split; [eapply (fin_measure s (FinClose None None) _ eq_refl)|]; [unfold fin_step; by rewrite Hx, Hg, Hc|done| |done].
    unfold fin_rank. simpl. rewrite Hf, Hx. lia.
  - destruct (decide (sup_rank (ys_supervisor s) = 0%nat)) as [Hz|Hnz].
    + assert (pr_events (ys_producer s) = EventsDone) as He by (rewrite (sn_events _ Hsync); by destruct (ys_supervisor s)).
      destruct (endShutdown_ok _ Hf He Hpi) as (p & Hp & Hpi').
      eexists. split; [eapply (fin_measure s FinGo _ eq_refl)|]; [unfold fin_step; by rewrite Hx, He, Hp|done|..];
        unfold endShutdown in Hp; destruct (close _); [|done| |done]; injection Hp as <-; [|done].
      unfold fin_rank. simpl. rewrite Hf, Hx. lia.
    + destruct (sup_progress s Hcorr Hsync Hstop Hnz) as (s' & Hl & Hlt & Hfin & Hpubs & Hsh).
      exists s'. split; [split; [done|]|by rewrite Hsh]. unfold shutdown_measure, fin_rank. rewrite Hsh, Hf, Hfin, Hx. lia.
Qed.

Lemma shutdown_runs s :
  reachable_system s → pr_shutdown (ys_producer s) ≠ ShutdownIdle →
  ∃ s', rtc stopping_step s s' ∧ pr_shutdown (ys_producer s') = ShutdownDone ∧ ys_publishers s' = ys_publishers s.
Proof using Hconfig.
  remember (shutdown_measure s) as k eqn:Hk. revert s Hk. induction (lt_wf k) as [k _ IH]. intros s -> Hr Hne.
  assert (pr_shutdown (ys_producer s) = ShutdownDone ∨ pr_shutdown (ys_producer s) ≠ ShutdownDone) as [Hd|Hnd]
    by (destruct (pr_shutdown _); auto; right; done).
  { exists s. by split_and!. }
  destruct (shutdown_progress s Hr Hne Hnd) as (s1 & (Hl & Hlt) & Hp & Hne1).
  destruct (IH _ Hlt s1 eq_refl) as (s' & Hrun & Hd & Hp'); [by eapply action_reachable, rtc_once|done|].
  exists s'. split_and!; [by eapply rtc_l|done|congruence].
Qed.

(** C8: a shutdown can always complete.  From every reachable state in which
    [Shutdown] was called the producer's goroutines can go on by themselves, without
    any call of the client returning, to a state in which every publication admitted
    before has returned; and from there, once the client's close calls and a
    recovery in progress return, to a state in which the shutdown is done, none is in
    flight and the observation stream is closed.  No event of the broker and no
    action of the application is needed. *)
Theorem producer_can_shut_down s :
  reachable_system s → pr_shutdown (ys_producer s) ≠ ShutdownIdle →
  ∃ s1 s', rtc local_step s s1 ∧ rtc stopping_step s1 s'
  ∧ length (ys_publishers s1) = length (ys_publishers s) ∧ ys_publishers s' = ys_publishers s1
  ∧ (∀ b, b ∈ ys_publishers s1 → ∃ a r err, pb_phase b = PubDone a r err)
  ∧ pr_shutdown (ys_producer s') = ShutdownDone
  ∧ pr_active (ys_producer s') = 0 ∧ os_close (pr_observations (ys_producer s')) = CloseDone
  ∧ Producer_Readiness (ys_producer s') = ReadinessNotReady.
Proof using Hconfig.
  intros Hr Hne. destruct (publishers_finish s (length (ys_publishers s)) Hr) as (s1 & Hrun1 & Hall & Hsh & Hlen).
  pose proof (action_reachable _ _ _ Hr Hrun1) as Hr1. rewrite <- Hsh in Hne.
  destruct (shutdown_runs s1 Hr1 Hne) as (s' & Hrun2 & Hd & Hp). pose proof (action_reachable _ _ _ Hr1 Hrun2) as Hr2.
  assert (∀ b, b ∈ ys_publishers s1 → pub_rank (pb_phase b) = 0%nat) as Hret.
  { intros b [i Hi]%list_elem_of_lookup_1. eapply Hall; [|exact Hi]. rewrite <- Hlen. by eapply lookup_lt_Some. }
  pose proof (reachable_producer _ _ Hconfig s' Hr2) as Hpi.
  exists s1, s'. split_and!; [done..| |done| |by eapply stopped_stream|by eapply stopped_not_ready].
  - intros b Hb. apply Hret in Hb. destruct (pb_phase b); try done; eauto.
  - rewrite (sn_active _ (reachable_sync _ _ Hconfig s' Hr2)), Hp.
    assert (tally unreleased (ys_publishers s1) = 0%nat) as ->; [|done].
    apply tally_none. intros b Hb. apply Hret in Hb. unfold unreleased. by destruct (pb_phase b).
Qed.
End Returns.

(** ** Example runs *)

(** A generation is lost and replaced, a publication is sent on the new one, and
    then [Shutdown] is called. *)
Definition example_stopping : psystem :=
  run_from example_system
    ([DoEnvironment 0 EnvLost; DoSupervisor (SupCase GenConnectionClosed []); DoSupervisor SupGo; DoSupervisor SupGo;
      DoSupervisor (SupFail []); DoSupervisor (SupClose None None); DoSupervisor SupGo; DoSupervisor SupReconnect;
      DoSupervisor (SupInstall "s-2"); DoSupervisor SupGo; DoPublish example_message] ++ proceed 0 5 ++ [DoShutdown; DoForce]).

(** The shutdown closes the channel with an error. *)
Definition example_shut : psystem :=
  run_from example_stopping
    ([DoFinisher (FinBegin false); DoFinisher FinGo; DoFinisher FinGo; DoFinisher (FinClose (Some DeadlineExceeded) None);
      DoSupervisor (SupCase GenStop [1]); DoSupervisor SupGo; DoFinisher FinGo]).

Lemma example_stopping_reachable : rtc system_step example_system example_stopping.
Proof. by apply run_from_steps; vm_compute. Qed.

Lemma producer_closes_once_witness :
  ∃ G, ys_gens example_shut !! 1%nat = Some G ∧ gc_channel_closes (gn_close G) = 1%nat
  ∧ pr_resourceErr (ys_producer example_shut) = Some ErrProducerUnavailable ∧ gc_err (gn_close G) = Some ErrProducerUnavailable.
Proof.
  assert (rtc system_step example_system example_shut) as Hreach.
  { etrans; [exact example_stopping_reachable|]. by apply run_from_steps; vm_compute. }
  assert (∃ G, ys_gens example_shut !! 1%nat = Some G ∧ gc_err (gn_close G) = Some ErrProducerUnavailable) as (G & HG & Herr)
    by (eexists; split; by vm_compute).
  destruct (producer_closes_once example_producer_config "s-1" eq_refl _ _ _ Hreach HG) as (_ & Honce & Hres).
  exists G. split_and!; [done|apply Honce; right; right; by vm_compute| |done]. by rewrite Hres; [|by vm_compute..].
Defined.

Lemma publish_always_returns_witness :
  ∃ n s' a r err b, (n <= 11)%nat ∧ nsteps (publisher_step 0) n example_stopping s'
  ∧ ys_publishers s' !! 0%nat = Some (mkPublisher b (PubDone a r err)).
Proof.
  assert (∃ b, ys_publishers example_stopping !! 0%nat = Some b) as [b Hb] by (eexists; by vm_compute).
  destruct (publish_always_returns example_producer_config "s-1" eq_refl _ _ _ example_stopping_reachable Hb)
    as ((n & s' & a & r & err & H) & _). exists n, s', a, r, err, (pb_publication b). exact H.
Defined.

Lemma producer_can_shut_down_witness :
  ∃ s1 s', rtc local_step example_stopping s1 ∧ rtc stopping_step s1 s'
  ∧ pr_shutdown (ys_producer s') = ShutdownDone ∧ pr_active (ys_producer s') = 0.
Proof.
  destruct (producer_can_shut_down example_producer_config "s-1" eq_refl _ example_stopping_reachable)
    as (s1 & s' & H1 & H2 & _ & _ & _ & H3 & H4 & _); [by vm_compute|]. by exists s1, s'.
Defined.
